(* ===== verification/_CoqProject ===== *)
-Q . S2P
Prelude.v
Range.v
CpuDl.v
CpuPri.v
ResCounter.v
UserNs.v
User.v
CredOps.v
SetId.v
Groups.v
Resource.v
ResourceAlloc.v
ResourceRegion.v
TimerWheel.v
TimerRun.v
TimerNext.v
PrintkLog.v
PrintkText.v
PrintkDev.v
PrintkEmit.v
PrintkCon.v
RwSem.v
Semaphore.v
TimeConv.v
PidMap.v
PidNs.v
LockBfs.v
LockDep.v
LockAcq.v
