(* ===== verification/Prelude.v ===== *)
(** * A verification of parts of the kernel of the robot operating system

    The repository's operating system ([src/ROBOT OS]) is built on a copy of the
    kernel/ directory of Linux 3.14 ([src/ROBOT OS/ROBT KERNLE], named kernel/
    below).  This library models self-contained components of it as executable
    functions and proves what makes each of them correct.  The components were
    chosen because their own logic (heaps, trees, wheels, graphs, record
    buffers, reference counts, locks, id translation, permission checks, the
    calendar) is in the tree and not in the architecture or in headers that are
    missing from it.

    ** Conventions

    - C integers are [Z]; where the code can wrap, the operation says so ([u32],
      [u64], [s64] below).  Bit operations are those of [Z].
    - Memory is explicit where pointers matter: nodes live in a [gmap] from
      addresses to records.  A dereference of an address that is not there, a
      [BUG_ON] that fires and an index out of an array give [None]; the theorems
      show that well-formed states never get there.
    - Errors the code returns are values ([Err EINVAL], a null result); what the
      environment decides (an allocation that fails, the verdict of a security
      module, the ticks at which handlers call back, the level header of a
      message, the search for a bit) is an argument or a class ([Security],
      [ResAlloc], [KernLevels], [FindBit]) with its documented laws.
    - Loops that are not structural take fuel.  The fuel is computed from the
      state (the number of nodes in the store, of heap slots, of ticks to go),
      and the theorems state results, not only what holds if there is one.
    - Locks serialise the operations they protect and are not represented; where
      the code works outside a lock, or several CPUs take turns, the steps are
      separate ([User], [CpuPri], the handlers of [TimerWheel], [PrintkDev],
      [PrintkCon], [RwSem], [Semaphore], [LockAcq]).

    ** Files and the code they model

    - [Prelude]: integer widths, list and map lemmas, the tactics [width],
      [dlia], [pow2], the hint database [kern].
    - [Range] (range.c): range tables, their meaning as sets of addresses.
    - [CpuDl] (sched/cpudeadline.c): the array heap of the earliest deadlines of
      the CPUs: [cpudl_heapify], [cpudl_change_key], [cpudl_set], [cpudl_find].
    - [CpuPri] (sched/cpupri.c): the map from priority levels to CPU masks,
      [cpupri_set] as a sequence of memory operations, [cpupri_find].
    - [ResCounter] (res_counter.c): hierarchical counters with limits.
    - [UserNs] (user_namespace.c): id maps, their parser and checks, creation
      and destruction of namespaces.
    - [User] (user.c): the hash table of [user_struct]s.
    - [CredOps] (cred.c): reference-counted credentials: [prepare_creds],
      [commit_creds], [copy_creds], [override_creds] and so on.  Uses [User] for
      the per-user process counts and [UserNs] for the namespace of credentials.
    - [SetId] (sys.c): the system calls that change ids, on top of [CredOps] and
      the translation of [UserNs].
    - [Groups] (groups.c): group lists: Shell sort, bisection, [setgroups], on
      top of [CredOps].
    - [Resource], [ResourceAlloc], [ResourceRegion] (resource.c): the resource
      tree, pointer by pointer: request, release, insert, expand, adjust,
      allocate, busy regions and split reservations.
    - [TimerWheel], [TimerRun] (timer.c): the wheel of one CPU and its contract;
      [TimerNext]: the search for the next event of an idle CPU.
    - [PrintkLog] (printk/printk.c, as the next four): the record buffer of the
      kernel log, byte by byte: [log_store], [log_next], [log_from_idx], and the
      positions of readers.
    - [PrintkText]: [msg_print_text], the syslog reads and the dumpers.
    - [PrintkDev]: reading and seeking /dev/kmsg.
    - [PrintkEmit]: the continuation buffer and [vprintk_emit], written against a
      class of logs ([LogSink], [SinkLaws]) that [PrintkLog] implements.
    - [PrintkCon]: [console_unlock], fragments on the console, and [vprintk_emit]
      as a whole.
    - [RwSem] (locking/rwsem-spinlock.c): reader/writer semaphores with any number
      of tasks that sleep and are woken.
    - [Semaphore] (locking/semaphore.c): counting semaphores, with signals and
      timeouts.
    - [TimeConv] (time/timeconv.c, time.c): [time_to_tm], [mktime], and the
      arithmetic of [timespec]s and jiffies.
    - [PidMap] (pid.c): the bitmaps of process ids and the search in them.
    - [PidNs] (pid.c, pid_namespace.c): pids with a number in each of their nested
      namespaces, the hash table, [alloc_pid], [free_pid], [find_ge_pid], written
      against a class of pools of ids ([IdPool]) that [PidMap] implements.
    - [LockBfs] (locking/lockdep.c, as the next two): the graph of lock classes, the
      circular queue and the breadth-first search [__bfs] with its parent pointers.
    - [LockDep]: the usage bits of classes, [check_prev_add] and [mark_lock] with all
      their checks.
    - [LockAcq]: the locks a task holds, the keys of chains and their cache,
      [__lock_acquire], [__lock_release] and the calls that follow the interrupt
      flags; any number of tasks.

    ** What the theorems show

    - Refinement of an abstract state: the deadline heap is a map from CPUs to
      deadlines; the timer wheel is a map from timers to due ticks and
      [__run_timers] a machine that walks through the ticks; the id-changing
      system calls are one function on the eight ids of a process, with exact error
      codes and exact counts of credentials and of user structures; a reader of
      /dev/kmsg is an index into the list of all records ever stored; the
      reader/writer semaphore is a lock with one writer or readers.
    - Invariants over all sequences of operations: namespaces and their
      references ([user_ns_invariant]), the user cache, the resource tree (a
      well-formed tree of nested, disjoint, sorted ranges), the reference counts
      of credentials, the limits of counters, the priority map, the record buffer
      as a queue in bytes ([log_store_queue]), the ids of processes, their hash
      table and its counts ([pid_hash_invariant]); the graph of the lock validator
      has no cycle and does not lead from uses in interrupts to locks held with
      interrupts on ([check_prev_add_correct], [mark_lock_correct]).
    - Safety: a failed charge changes nothing; no call gains an id the process did
      not have without the capability; unprivileged writers of id maps only map
      their own id; committed credentials keep every count exact; a CPU is never
      hidden from [cpupri_find] between the two stores of [cpupri_set]; the texts
      that are printed go into the log whole and in order, however the CPUs
      interleave, but for those of calls that recurse ([printk_keeps_text]); tasks whose locks were validated without a
      report do not wait for each other in a circle ([no_circular_wait]); no token of
      a semaphore is lost or made ([semaphore_tokens]).
    - Functional correctness on every branch: first fit of [allocate_resource],
      where [insert_resource] puts a node and which conflict it names, what
      [reserve_region_with_split] covers, the sets of addresses of range tables,
      sorting and searching of groups, the earliest deadline on the wheel, what
      the console prints, the stream a syslog reader sees, the youngest records of
      a dump, the Gregorian date of every [time_t], the process id that is given
      next ([alloc_pidmap_first_free]) and the numbers a new pid is found by, the
      nearest class that the lock validator finds ([bfs_finds_nearest]).
    - Round trips: request/release of resources and regions restores the store
      pointer for pointer; translation of ids and back; an id map written and
      shown again; charge and uncharge; override and revert of credentials; the
      text of a /dev/kmsg line; [time_to_tm] and [mktime]; ticks and milliseconds;
      allocation and freeing of pids.
    - Termination and liveness: [insert_resource_expand_to_fit] ends, whether or not
      the root contains the range;
      [__run_timers] ends and calls every due timer exactly once at its tick; the
      guesses of [time_to_tm] converge; a lock that is waited for is never lost
      ([rwsem_no_lost_wakeup]).
    - Bounds and types: slack moves a deadline by at most its window; texts never
      overrun their buffers; times stay well-formed and saturate; [cmp_range]
      truncates.

    Some theorems show that the code does not do what it means to:
    [cmp_range_truncates], [cpupri_find_top_priorities],
    [muxed_wake_double_grant], [next_timer_interrupt_late],
    [kmsg_dump_last_line_lost], [cont_newline_lost],
    [usecs_to_jiffies_infinite], [alloc_pid_leaks_namespace],
    [alloc_pidmap_skips], [abba_missed], [read_write_missed] and
    [irq_read_order_missed].

    ** Not modelled

    The scheduler classes, memory barriers, RCU, tracing, perf, cgroups, modules,
    audit, power management, the irq and clock drivers: they depend on headers
    and architecture code that are not in the tree, or are input/output.  Within
    the modelled files: the /proc output of resource.c and its walks over System
    RAM, [release_mem_region_adjustable], [release_child_resources] and
    [iomem_is_exclusive]; timers that move between CPUs and the rounding helpers
    of timer.c; the cgroup files of res_counter.c; the parts of sys.c that are not
    about ids; keyrings, and the debugging fields of credentials; of printk.c the
    permissions, a crash in the middle of a change of the log, writing to /dev/kmsg,
    the boot-time resizing of the buffer, the
    registration of consoles and dumpers; of time.c the system calls and the scaled
    conversions; of pid.c the tasks attached to a pid, and the last references to
    pids and namespaces; of lockdep.c the registration and removal of classes,
    [lock_set_class], lock statistics, stack traces and reports.

    ** Plan

    Next: completions and mutexes; the registration of lock classes;
    the tasks of a pid and the references to pids and their namespaces; the rest of
    printk.c ([syslog_print_all], consoles); the rest of resource.c. *)

From stdpp Require Export prelude sorting gmap.
From Stdlib Require Export ZArith Lia Sorted ZifyNat.

Local Open Scope Z_scope.

(** * Fixed-width integers

    A C integer of width [w] is a [Z]; arithmetic wraps where the code's
    arithmetic wraps.  [u32]/[u64] reduce modulo the width, [s32]/[s64] are
    the conversions to the signed types (two's complement, as gcc defines
    them). *)

Definition wrap (w x : Z) : Z := x mod 2 ^ w.
Definition swrap (w x : Z) : Z := (x + 2 ^ (w - 1)) mod 2 ^ w - 2 ^ (w - 1).

Abbreviation u16 := (wrap 16).
Abbreviation u32 := (wrap 32).
Abbreviation u64 := (wrap 64).
Abbreviation s32 := (swrap 32).
Abbreviation s64 := (swrap 64).

(** [x] is representable in [w] bits. *)
Definition in_width (w x : Z) : Prop := 0 ≤ x < 2 ^ w.
Definition in_swidth (w x : Z) : Prop := - 2 ^ (w - 1) ≤ x < 2 ^ (w - 1).

Abbreviation in_u32 := (in_width 32).
Abbreviation in_u64 := (in_width 64).
Abbreviation in_s32 := (in_swidth 32).
Abbreviation in_s64 := (in_swidth 64).

Global Instance in_width_dec w x : Decision (in_width w x).
Proof. unfold in_width. apply _. Defined.

Global Instance in_swidth_dec w x : Decision (in_swidth w x).
Proof. unfold in_swidth. apply _. Defined.

(** The concrete powers of two that occur, for [lia]. *)
Ltac pow2 :=
  change (2 ^ 13) with 8192 in *;
  change (2 ^ 16) with 65536 in *;
  change (2 ^ 31) with 2147483648 in *;
  change (2 ^ (32 - 1)) with 2147483648 in *;
  change (2 ^ 32) with 4294967296 in *;
  change (2 ^ 63) with 9223372036854775808 in *;
  change (2 ^ (64 - 1)) with 9223372036854775808 in *;
  change (2 ^ 64) with 18446744073709551616 in *.

Ltac width := unfold in_width, in_swidth in *; pow2; lia.

(** Linear arithmetic with quotients and remainders. *)
Ltac dlia := zify; Z.to_euclidean_division_equations; lia.

Create HintDb kern.
Create Rewrite HintDb kern.

Lemma wrap_small w x : in_width w x → wrap w x = x.
Proof. intros H. apply Z.mod_small, H. Qed.

Lemma wrap_range w x : 0 ≤ w → in_width w (wrap w x).
Proof. intros. apply Z.mod_pos_bound, Z.pow_pos_nonneg; lia. Qed.

Lemma u32_range x : in_u32 (u32 x).
Proof. by apply wrap_range. Qed.

Lemma u64_range x : in_u64 (u64 x).
Proof. by apply wrap_range. Qed.

Lemma land_u64_range x y : in_u64 x → 0 ≤ y → in_u64 (Z.land x y).
Proof.
  intros [H0 H1] Hy. split; [apply Z.land_nonneg; by left|].
  destruct (decide (Z.land x y = 0)) as [->|Hne]; [lia|].
  assert (0 ≤ Z.land x y) by (apply Z.land_nonneg; by left).
  apply Z.log2_lt_pow2; [lia|].
  pose proof (Z.log2_land x y H0 Hy).
  assert (x ≠ 0) by (intros ->; by rewrite Z.land_0_l in Hne).
  assert (Z.log2 x < 64) by (apply Z.log2_lt_pow2; lia). lia.
Qed.

(** [u64] of a value that left the range by less than one turn. *)
Lemma wrap_over w x : 0 ≤ w → 2 ^ w ≤ x < 2 * 2 ^ w → wrap w x = x - 2 ^ w.
Proof.
  intros ? ?. unfold wrap. symmetry.
  apply Z.mod_unique_pos with (q := 1); lia.
Qed.

Lemma wrap_under w x : 0 ≤ w → - 2 ^ w ≤ x < 0 → wrap w x = x + 2 ^ w.
Proof.
  intros ? ?. unfold wrap. symmetry.
  apply Z.mod_unique_pos with (q := -1); lia.
Qed.

Lemma swrap_small w x : in_swidth w x → 0 < w → swrap w x = x.
Proof.
  intros H Hw. unfold swrap, in_swidth in *.
  assert (2 ^ w = 2 * 2 ^ (w - 1)) as E.
  { rewrite <- Z.pow_succ_r by lia. f_equal. lia. }
  rewrite Z.mod_small by lia. lia.
Qed.

Lemma swrap_range w x : 0 < w → in_swidth w (swrap w x).
Proof.
  intros Hw. unfold swrap, in_swidth.
  assert (2 ^ w = 2 * 2 ^ (w - 1)) as E.
  { rewrite <- Z.pow_succ_r by lia. f_equal. lia. }
  pose proof (Z.mod_pos_bound (x + 2 ^ (w - 1)) (2 ^ w)).
  assert (0 < 2 ^ (w - 1)) by (apply Z.pow_pos_nonneg; lia). lia.
Qed.

Lemma s64_small x : in_s64 x → s64 x = x.
Proof. intros. by apply swrap_small. Qed.

Lemma s32_small x : in_s32 x → s32 x = x.
Proof. intros. by apply swrap_small. Qed.

Lemma swrap_wrap w x : 0 < w → swrap w (wrap w x) = swrap w x.
Proof.
  intros. unfold swrap, wrap. f_equal.
  rewrite Zplus_mod_idemp_l. done.
Qed.

#[export] Hint Resolve u32_range u64_range wrap_range swrap_range : kern.
#[export] Hint Rewrite s64_small s32_small wrap_small using width : kern.

(** * Error codes

    The error numbers of <linux/errno.h> the modelled code returns; the code
    returns [0] or [-E...], the model [Ok] or [Err E...]. *)

Inductive errno := EPERM | EINTR | EBADF | EAGAIN | ENOMEM | EACCES | EFAULT
  | EBUSY | EINVAL | ERANGE | ENOENT | EEXIST | ENOSPC | ETIME | EUSERS | ESRCH
  | EOVERFLOW | ENOSYS | EPIPE | ESPIPE.

Global Instance errno_eq_dec : EqDecision errno.
Proof. solve_decision. Defined.

Inductive ret := Ok | Err (e : errno).

Global Instance ret_eq_dec : EqDecision ret.
Proof. solve_decision. Defined.

(** * Arrays

    A C array is a list.  An access outside it is undefined behaviour in C;
    here it is [None], so that a theorem that an operation returns [Some] also
    shows that it stays inside its arrays. *)

Section arrays.
Context {A : Type}.
Implicit Types (l : list A) (i n : nat).

(** [a[i] = x] *)
Definition aset l i (x : A) : option (list A) :=
  if decide (i < length l)%nat then Some (<[i := x]> l) else None.

(** [memmove(&a[dst], &a[src], n * sizeof( a[0] ))] *)
Definition amove l (dst src n : nat) : option (list A) :=
  if decide (src + n ≤ length l ∧ dst + n ≤ length l)%nat
  then Some (take dst l ++ take n (drop src l) ++ drop (dst + n) l)
  else None.

Lemma aset_Some l i x l' :
  aset l i x = Some l' ↔ (i < length l)%nat ∧ l' = <[i := x]> l.
Proof. unfold aset. case_decide; naive_solver. Qed.

Lemma aset_lt l i x : (i < length l)%nat → aset l i x = Some (<[i := x]> l).
Proof. intros. by apply aset_Some. Qed.

Lemma aset_length l i x l' : aset l i x = Some l' → length l' = length l.
Proof. intros [_ ->]%aset_Some. apply length_insert. Qed.

Lemma amove_length l d s n l' : amove l d s n = Some l' → length l' = length l.
Proof.
  unfold amove. case_decide; [|done]. intros [= <-].
  rewrite !length_app, !length_take, !length_drop. lia.
Qed.

(** Inserting inside splits the list at the index. *)
Lemma insert_split l i x y :
  l !! i = Some y → <[i := x]> l = take i l ++ x :: drop (S i) l.
Proof. intros H. apply insert_take_drop. by eapply lookup_lt_Some. Qed.

Lemma insert_mid (l1 l2 : list A) x y :
  <[length l1 := y]> (l1 ++ x :: l2) = l1 ++ y :: l2.
Proof. induction l1; simpl; by f_equal. Qed.

(** [swap(a[i], a[j])] *)
Definition aswap l (i j : nat) : option (list A) :=
  x ← l !! i; y ← l !! j; l1 ← aset l i y; aset l1 j x.

(** The transposition of two indices. *)
Definition transp (i j k : nat) : nat :=
  if decide (k = i) then j else if decide (k = j) then i else k.

Lemma transp_invol i j k : transp i j (transp i j k) = k.
Proof. unfold transp. repeat case_decide; congruence. Qed.

Lemma aswap_spec l i j :
  (i < length l)%nat → (j < length l)%nat →
  ∃ l', aswap l i j = Some l' ∧ length l' = length l ∧
    ∀ k, l' !! k = l !! transp i j k.
Proof.
  intros Hi Hj. unfold aswap.
  destruct (lookup_lt_is_Some_2 l i Hi) as [x Hx]. rewrite Hx. simpl.
  destruct (lookup_lt_is_Some_2 l j Hj) as [y Hy]. rewrite Hy. simpl.
  rewrite aset_lt by done. simpl. rewrite aset_lt by by rewrite length_insert.
  eexists. split; [done|]. rewrite !length_insert. split; [done|].
  intros k. unfold transp. repeat case_decide; subst.
  - destruct (decide (j = i)) as [->|].
    + rewrite list_lookup_insert_eq by by rewrite length_insert. congruence.
    + rewrite list_lookup_insert_ne, list_lookup_insert_eq by done. done.
  - rewrite list_lookup_insert_eq by by rewrite length_insert. done.
  - by rewrite !list_lookup_insert_ne by done.
Qed.
End arrays.

#[export] Hint Resolve aset_length amove_length : kern.

(** Case analysis on the first conditional or option of the goal or a
    hypothesis, keeping the equations, and clean-up. *)
Ltac kstep :=
  match goal with
  | |- context [if decide ?P then _ else _] => destruct (decide P)
  | H : context [if decide ?P then _ else _] |- _ => destruct (decide P)
  | H : Some _ = Some _ |- _ => injection H as H; subst
  | H : None = Some _ |- _ => discriminate
  | H : Some _ = None |- _ => discriminate
  | H : (_, _) = (_, _) |- _ => injection H as H; subst
  | H : _ ∧ _ |- _ => destruct H
  end.
Ltac ksteps := repeat kstep.

(** * Lists *)

Lemma filter_all {A} (P : A → Prop) `{∀ x, Decision (P x)} l :
  Forall P l → filter P l = l.
Proof. induction 1; [done|]. rewrite filter_cons_True by done. by f_equal. Qed.

Lemma filter_none {A} (P : A → Prop) `{∀ x, Decision (P x)} l :
  Forall (λ x, ¬ P x) l → filter P l = [].
Proof. induction 1; [done|]. by rewrite filter_cons_False. Qed.

Lemma StronglySorted_weaken {A} (R R' : A → A → Prop) l :
  (∀ x y, x ∈ l → y ∈ l → R x y → R' x y) →
  StronglySorted R l → StronglySorted R' l.
Proof.
  intros Hw Hs. induction Hs as [|x l Hs IH Hx]; constructor.
  - apply IH. intros ? ? ? ?. apply Hw; by right.
  - rewrite Forall_forall in *. intros y Hy. apply Hw; [by left|by right|by apply Hx].
Qed.

(** * lib/sort.c

    [sort] of lib/sort.c is not part of the tree.  Its contract: it permutes
    the elements, and leaves them in order when the comparison function is a
    total preorder on them. *)

Definition cmp_preorder {A} (cmp : A → A → Z) (l : list A) : Prop :=
  (∀ x y, x ∈ l → y ∈ l → cmp x y ≤ 0 ∨ cmp y x ≤ 0) ∧
  (∀ x y z, x ∈ l → y ∈ l → z ∈ l → cmp x y ≤ 0 → cmp y z ≤ 0 → cmp x z ≤ 0).

Class LibSort (sort : ∀ A : Type, (A → A → Z) → list A → list A) : Prop := {
  sort_perm A (cmp : A → A → Z) l : Permutation (sort A cmp l) l;
  sort_sorted A (cmp : A → A → Z) l :
    cmp_preorder cmp l → StronglySorted (λ x y, cmp x y ≤ 0) (sort A cmp l);
}.

(** Insertion sort meets the contract: the class is inhabited. *)
Fixpoint ins {A} (cmp : A → A → Z) (x : A) (l : list A) : list A :=
  match l with
  | [] => [x]
  | y :: l' => if decide (cmp x y ≤ 0) then x :: l else y :: ins cmp x l'
  end.

Definition isort (A : Type) (cmp : A → A → Z) (l : list A) : list A :=
  foldr (ins cmp) [] l.

Lemma ins_perm {A} (cmp : A → A → Z) x l : Permutation (ins cmp x l) (x :: l).
Proof.
  induction l as [|y l IH]; simpl; [done|]. case_decide; [done|].
  rewrite IH. constructor.
Qed.

Lemma isort_perm A (cmp : A → A → Z) l : Permutation (isort A cmp l) l.
Proof.
  induction l as [|x l IH]; simpl; [done|].
  rewrite ins_perm. by constructor.
Qed.

Lemma ins_sorted {A} (cmp : A → A → Z) x l :
  cmp_preorder cmp (x :: l) →
  StronglySorted (λ a b, cmp a b ≤ 0) l →
  StronglySorted (λ a b, cmp a b ≤ 0) (ins cmp x l).
Proof.
  induction l as [|y l IH]; intros [Ht Hr] Hs; simpl; [by repeat constructor|].
  apply StronglySorted_inv in Hs as [Hs Hy].
  case_decide as Hc.
  - constructor; [by constructor|]. constructor; [done|].
    rewrite Forall_forall in *.
    intros z Hz. apply (Hr x y z); [set_solver..|by apply Hy].
  - constructor.
    + apply IH; [|done]. split; [intros ? ? ? ?; apply Ht|intros ? ? ? ? ? ?; apply Hr]; set_solver.
    + rewrite ins_perm. constructor; [|done]. destruct (Ht x y); set_solver.
Qed.

Global Instance isort_LibSort : LibSort isort.
Proof.
  split; [apply isort_perm|]. intros A cmp l [Ht Hr].
  induction l as [|x l IH]; simpl; [constructor|].
  assert (∀ z, z ∈ isort A cmp l → z ∈ l) as Hin.
  { intros z. by rewrite isort_perm. }
  apply ins_sorted.
  - split; [intros a b ? ?|intros a b c ? ? ?]; [apply Ht|apply Hr]; set_solver.
  - apply IH; [intros ? ? ? ?; apply Ht|intros ? ? ? ? ? ?; apply Hr]; set_solver.
Qed.

(** * Counting the entries of a map *)

Definition ind (P : Prop) `{Decision P} : Z := if decide P then 1 else 0.

Section mcount.
Context {A : Type} (P : A → Prop) `{∀ x, Decision (P x)}.
Implicit Types (m : gmap nat A).

Definition mcount m : Z := Z.of_nat (size (filter (λ kv : nat * A, P kv.2) m)).

Lemma mcount_nonneg m : 0 ≤ mcount m.
Proof. unfold mcount. lia. Qed.

Lemma mcount_delete m a x : m !! a = Some x → mcount (base.delete a m) = mcount m - ind (P x).
Proof.
  intros Ha. unfold mcount, ind. rewrite map_filter_delete.
  destruct (decide (P x)) as [Hp|Hp].
  - assert (filter (λ kv : nat * A, P kv.2) m !! a = Some x) as Hf
      by by apply map_lookup_filter_Some.
    rewrite map_size_delete, Hf.
    assert (size (filter (λ kv : nat * A, P kv.2) m) ≠ 0%nat).
    { intros E%map_size_empty_inv. by rewrite E, lookup_empty in Hf. }
    lia.
  - rewrite delete_id; [lia|]. apply map_lookup_filter_None. right. intros y Hy. simpl. congruence.
Qed.

Lemma mcount_insert_new m a y : m !! a = None → mcount (<[a := y]> m) = mcount m + ind (P y).
Proof.
  intros Ha. pose proof (mcount_delete (<[a := y]> m) a y (lookup_insert_eq _ _ _)) as E.
  rewrite delete_insert_id in E by done. lia.
Qed.

Lemma mcount_insert m a x y :
  m !! a = Some x → mcount (<[a := y]> m) = mcount m - ind (P x) + ind (P y).
Proof.
  intros Ha. rewrite <- insert_delete_eq, mcount_insert_new by apply lookup_delete_eq.
  by rewrite (mcount_delete m a x).
Qed.

Lemma mcount_pos m a x : m !! a = Some x → P x → 0 < mcount m.
Proof.
  intros Ha Hp. pose proof (mcount_delete m a x Ha) as E. unfold ind in E.
  rewrite decide_True in E by done. pose proof (mcount_nonneg (base.delete a m)). lia.
Qed.

Lemma mcount_zero m : (∀ p x, m !! p = Some x → ¬ P x) → mcount m = 0.
Proof.
  intros HP. unfold mcount.
  assert (filter (λ kv : nat * A, P kv.2) m = ∅) as ->; [|done].
  apply map_empty. intros p. apply map_lookup_filter_None. right. eauto.
Qed.
End mcount.

(** A count that looks at one field depends on that field of the entries only. *)
Lemma mcount_fmap {A B} (f : A → B) (Q : B → Prop) `{∀ x, Decision (Q x)} (m : gmap nat A) :
  mcount (λ x, Q (f x)) m = mcount Q (f <$> m).
Proof. unfold mcount. by rewrite map_filter_fmap, map_size_fmap. Qed.
