(* ===== verification/Range.v ===== *)
(** Range: the range tables of kernel/range.c.

    A table is an array of [struct range]; a slot with [end == 0] is free.  The
    file models [add_range], [add_range_with_merge], [subtract_range],
    [cmp_range], [clean_sort_range] and [sort_range], with the set of addresses
    a table covers as its abstract meaning. *)

From S2P Require Import Prelude.

Local Open Scope Z_scope.

(** [struct range { u64 start; u64 end; }] *)
Record range := Rng { r_start : Z; r_end : Z }.

Definition zero_range := Rng 0 0.

Definition add_range (rg : list range) (az nr_range : nat) (start end_ : Z)
    : option (list range * nat) :=
  if decide (end_ ≤ start) then Some (rg, nr_range)
  else
    (* Out of slots *)
    if decide (az ≤ nr_range)%nat then Some (rg, nr_range)
    else
      rg' ← aset rg nr_range (Rng start end_);
      Some (rg', S nr_range).

(** The loop of [add_range_with_merge]: [k] is [nr_range - i], which every
    iteration lowers by one, either because [i] grows or because a merged slot
    is removed and [nr_range] shrinks. *)
Fixpoint merge_loop (k : nat) (rg : list range) (i : nat) (start end_ : Z)
    : option (list range * nat * Z * Z) :=
  match k with
  | O => Some (rg, i, start, end_)
  | S k' =>
      let nr_range := (i + k)%nat in
      r ← rg !! i;
      if decide (r_end r = 0) then merge_loop k' rg (S i) start end_
      else
        let common_start := Z.max (r_start r) start in
        let common_end := Z.min (r_end r) end_ in
        if decide (common_end < common_start)
        then merge_loop k' rg (S i) start end_
        else
          (* new start/end, will add it back at last *)
          let start' := Z.min (r_start r) start in
          let end' := Z.max (r_end r) end_ in
          rg1 ← amove rg i (S i) (nr_range - S i);
          rg2 ← aset rg1 (nr_range - 1) zero_range;
          merge_loop k' rg2 i start' end'
  end.

Definition add_range_with_merge (rg : list range) (az nr_range : nat)
    (start end_ : Z) : option (list range * nat) :=
  if decide (end_ ≤ start) then Some (rg, nr_range)
  else
    '(rg', nr', start', end') ← merge_loop nr_range rg 0 start end_;
    add_range rg' az nr' start' end'.

(** [for (i = 0; i < az; i++) if (range[i].end == 0) break;], started at [i]
    with [k = az - i] slots to go; the result is [az] when no slot is free. *)
Fixpoint find_spare (k : nat) (rg : list range) (i : nat) : option nat :=
  match k with
  | O => Some i
  | S k' =>
      r ← rg !! i;
      if decide (r_end r = 0) then Some i else find_spare k' rg (S i)
  end.

(** The body of the loop of [subtract_range] for slot [j]. *)
Definition subtract_step (rg : list range) (az : nat) (start end_ : Z) (j : nat)
    : option (list range) :=
  r ← rg !! j;
  if decide (r_end r = 0) then Some rg
  else if decide (start ≤ r_start r ∧ r_end r ≤ end_) then aset rg j zero_range
  else if decide (start ≤ r_start r ∧ end_ < r_end r ∧ r_start r < end_)
  then aset rg j (Rng end_ (r_end r))
  else if decide (r_start r < start ∧ r_end r ≤ end_ ∧ start < r_end r)
  then aset rg j (Rng (r_start r) start)
  else if decide (r_start r < start ∧ end_ < r_end r) then
    i ← find_spare az rg 0;
    (* without a spare slot the code only logs an error *)
    rg1 ← (if decide (i < az)%nat then aset rg i (Rng end_ (r_end r)) else Some rg);
    aset rg1 j (Rng (r_start r) start)
  else Some rg.

Fixpoint subtract_loop (k : nat) (rg : list range) (az : nat) (start end_ : Z)
    (j : nat) : option (list range) :=
  match k with
  | O => Some rg
  | S k' =>
      rg' ← subtract_step rg az start end_ j;
      subtract_loop k' rg' az start end_ (S j)
  end.

Definition subtract_range (rg : list range) (az : nat) (start end_ : Z)
    : option (list range) :=
  if decide (end_ ≤ start) then Some rg
  else subtract_loop az rg az start end_ 0.

(** [cmp_range]: the [s64] difference of the starts, returned as an [int]. *)
Definition cmp_range (r1 r2 : range) : Z :=
  let start1 := s64 (r_start r1) in
  let start2 := s64 (r_start r2) in
  s32 (s64 (start1 - start2)).

(** [for (j = k; j > i; j--) if (range[j].end) { k = j; break; }]: the index
    found, or [None] when the loop ends with [j == i]; [n] is [j - i]. *)
Fixpoint find_last (n : nat) (rg : list range) (i : nat) : option (option nat) :=
  match n with
  | O => Some None
  | S n' =>
      r ← rg !! (i + n)%nat;
      if decide (r_end r = 0) then find_last n' rg i else Some (Some (i + n)%nat)
  end.

(** The compacting loop of [clean_sort_range].  Every iteration raises [i] or
    stops, so [az] units of fuel are enough. *)
Fixpoint clean_loop (fuel : nat) (rg : list range) (i k : nat)
    : option (list range) :=
  match fuel with
  | O => None
  | S fuel' =>
      if decide (k ≤ i)%nat then Some rg
      else
        r ← rg !! i;
        if decide (r_end r = 0) then
          found ← find_last (k - i) rg i;
          match found with
          | None => Some rg
          | Some j =>
              q ← rg !! j;
              rg1 ← aset rg i q;
              rg2 ← aset rg1 j zero_range;
              clean_loop fuel' rg2 (S i) (j - 1)
          end
        else clean_loop fuel' rg (S i) k
  end.

Section sort.
(** lib/sort.c *)
Context (sort : ∀ A : Type, (A → A → Z) → list A → list A).

Definition sort_range (rg : list range) (nr_range : nat) : list range :=
  sort range cmp_range (take nr_range rg) ++ drop nr_range rg.

Definition clean_sort_range (rg : list range) (az : nat)
    : option (list range * nat) :=
  rg' ← clean_loop (S az) rg 0 (az - 1);
  (* count it *)
  nr_range ← find_spare az rg' 0;
  Some (sort range cmp_range (take nr_range rg') ++ drop nr_range rg', nr_range).
End sort.

(** * Meaning of a table *)

Definition live (r : range) : Prop := r_end r ≠ 0.

Global Instance live_dec r : Decision (live r).
Proof. unfold live. apply _. Defined.

(** The addresses a table covers. *)
Definition covers (l : list range) (x : Z) : Prop :=
  ∃ r, r ∈ l ∧ live r ∧ r_start r ≤ x < r_end r.

(** Two ranges that neither overlap nor touch. *)
Definition apart (r1 r2 : range) : Prop :=
  r_end r1 < r_start r2 ∨ r_end r2 < r_start r1.

(** A table in canonical form: the ranges are non-empty, and any two of them
    are apart. *)
Definition canonical (l : list range) : Prop :=
  Forall (λ r, r_start r < r_end r) (filter live l) ∧
  ForallOrdPairs apart (filter live l).

(** * add_range_with_merge *)

(** Reference for the merging loop on a plain list: the ranges kept, and the
    hull of the new range with those it absorbs. *)
Definition touches (r : range) (s e : Z) : Prop :=
  live r ∧ Z.max (r_start r) s ≤ Z.min (r_end r) e.

Global Instance touches_dec r s e : Decision (touches r s e).
Proof. unfold touches. apply _. Defined.

Fixpoint absorb (l : list range) (s e : Z) : list range * Z * Z :=
  match l with
  | [] => ([], s, e)
  | r :: l' =>
      if decide (touches r s e)
      then absorb l' (Z.min (r_start r) s) (Z.max (r_end r) e)
      else let '(kept, s', e') := absorb l' s e in (r :: kept, s', e')
  end.

(** One removal: the slot at [i] disappears from the first [nr] slots. *)
Lemma remove_slot (rg : list range) i nr :
  (i < nr ≤ length rg)%nat →
  ∃ rg1 rg2, amove rg i (S i) (nr - S i) = Some rg1 ∧
    aset rg1 (nr - 1) zero_range = Some rg2 ∧ length rg2 = length rg ∧
    take (nr - 1) rg2 = take i rg ++ take (nr - S i) (drop (S i) rg).
Proof.
  intros [Hi Hnr]. unfold amove. rewrite decide_True by lia.
  eexists _, _. split; [done|].
  set (rg1 := take i rg ++ take (nr - S i) (drop (S i) rg) ++ drop (i + (nr - S i)) rg).
  assert (length rg1 = length rg) as Hl.
  { unfold rg1. rewrite !length_app, !length_take, !length_drop. lia. }
  rewrite aset_lt by lia. split; [done|]. split; [by rewrite length_insert|].
  rewrite take_insert_ge by lia. unfold rg1. rewrite app_assoc.
  rewrite take_app_le, take_ge;
    rewrite ?length_app, ?length_take, ?length_drop; [done|lia..].
Qed.

(** The in-place loop computes the reference: what it leaves in the first
    [nr_range] slots is what was before [i] followed by the ranges kept. *)
Lemma merge_loop_absorb k rg i s e :
  (i + k ≤ length rg)%nat →
  let '(kept, s', e') := absorb (take k (drop i rg)) s e in
  ∃ rg', merge_loop k rg i s e = Some (rg', (i + length kept)%nat, s', e') ∧
    length rg' = length rg ∧
    take (i + length kept) rg' = take i rg ++ kept.
Proof.
  revert rg i s e. induction k as [|k IH]; intros rg i s e Hk.
  { rewrite take_0. simpl. exists rg. rewrite Nat.add_0_r, app_nil_r. done. }
  destruct (lookup_lt_is_Some_2 rg i) as [r Hr]; [lia|].
  rewrite (drop_S _ _ _ Hr). rewrite firstn_cons. cbn [absorb merge_loop]. rewrite Hr. cbn [mbind option_bind].
  assert (take (S i) rg = take i rg ++ [r]) as HS by by apply take_S_r.
  specialize (IH rg (S i) s e ltac:(lia)) as IHs.
  destruct (decide (touches r s e)) as [[Hv Hc]|Hn]; last first.
  { assert (∀ T (a b : T), (if decide (r_end r = 0) then a else
       if decide (Z.min (r_end r) e < Z.max (r_start r) s) then a else b) = a) as ->.
    { intros. repeat case_decide; [done..|]. destruct Hn. split; [done|lia]. }
    destruct (absorb (take k (drop (S i) rg)) s e) as [[kept s'] e'] in IHs |- *.
    destruct IHs as (rg' & E & Hl & Ht). exists rg'. simpl length.
    rewrite E, Nat.add_succ_r. rewrite HS, <-app_assoc in Ht. done. }
  rewrite (decide_False (P := r_end r = 0)) by done. rewrite decide_False by lia.
  destruct (remove_slot rg i (i + S k)) as (rg1 & rg2 & E1 & E2 & Hl2 & Ht2); [lia|].
  rewrite E1. cbn [mbind option_bind]. rewrite E2. cbn [mbind option_bind].
  specialize (IH rg2 i (Z.min (r_start r) s) (Z.max (r_end r) e) ltac:(lia)).
  assert (take i rg2 = take i rg ∧ take k (drop i rg2) = take k (drop (S i) rg)) as [T1 T2].
  { replace (i + S k - 1)%nat with (i + k)%nat in Ht2 by lia.
    replace (i + S k - S i)%nat with k in Ht2 by lia.
    split.
    - replace i with (i `min` (i + k))%nat at 1 by lia.
      rewrite <-take_take, Ht2. apply take_app_length'. rewrite length_take. lia.
    - rewrite take_drop_commute, Ht2. apply drop_app_length'. rewrite length_take. lia. }
  rewrite T2 in IH.
  destruct (absorb (take k (drop (S i) rg)) _ _) as [[kept s'] e'] in IH |- *.
  destruct IH as (rg' & E & Hl & Ht). exists rg'. rewrite T1 in Ht.
  repeat split; [done|lia|done].
Qed.

Lemma covers_nil x : covers [] x ↔ False.
Proof. unfold covers. set_solver. Qed.

Lemma covers_cons r l x :
  covers (r :: l) x ↔ (live r ∧ r_start r ≤ x < r_end r) ∨ covers l x.
Proof. unfold covers. set_solver. Qed.

Lemma covers_app l1 l2 x : covers (l1 ++ l2) x ↔ covers l1 x ∨ covers l2 x.
Proof. unfold covers. set_solver. Qed.

Lemma covers_perm l1 l2 x : Permutation l1 l2 → covers l1 x ↔ covers l2 x.
Proof. intros Hp. unfold covers. by setoid_rewrite Hp. Qed.

Lemma covers_live l x : covers (filter live l) x ↔ covers l x.
Proof. unfold covers. setoid_rewrite list_elem_of_filter. naive_solver. Qed.

Global Instance covers_Proper : Proper (Permutation ==> eq ==> iff) covers.
Proof. intros l1 l2 Hp x y ->. by apply covers_perm. Qed.

Lemma absorb_covers l s e kept s' e' :
  absorb l s e = (kept, s', e') → s < e →
  s' ≤ s ∧ e ≤ e' ∧ ∀ x, covers kept x ∨ s' ≤ x < e' ↔ covers l x ∨ s ≤ x < e.
Proof.
  revert s e kept. induction l as [|r l IH]; intros s e kept E Hse; simpl in E.
  { by injection E as <- <- <-. }
  setoid_rewrite covers_cons.
  case_decide as Ht.
  - destruct Ht as [Hl Ht]. apply IH in E as (? & ? & E); [|lia].
    split_and!; [lia..|]. intros x. rewrite E.
    assert (Z.min (r_start r) s ≤ x < Z.max (r_end r) e ↔
      r_start r ≤ x < r_end r ∨ s ≤ x < e) by lia. tauto.
  - destruct (absorb l s e) as [[k1 s1] e1] eqn:E1. injection E as <- <- <-.
    destruct (IH _ _ _ E1 Hse) as (? & ? & E). split_and!; [lia..|].
    intros x. specialize (E x). rewrite covers_cons. tauto.
Qed.

(** A range apart from the new range and from every range it may absorb stays
    apart from the hull. *)
Lemma absorb_apart l s e kept s' e' r :
  absorb l s e = (kept, s', e') →
  r_start r < r_end r → apart r (Rng s e) → Forall (apart r) (filter live l) →
  apart r (Rng s' e').
Proof.
  revert s e kept. induction l as [|r0 l IH]; intros s e kept E Hr Ha Hl; simpl in E.
  { by injection E as <- <- <-. }
  case_decide as Ht.
  - destruct Ht as [Hlv Ht]. rewrite filter_cons_True in Hl by done.
    apply Forall_cons in Hl as [Ha0 Hl]. eapply IH; [exact E|done| |done].
    unfold apart in *. simpl in *. lia.
  - destruct (absorb l s e) as [[k1 s1] e1] eqn:E1. injection E as <- <- <-.
    eapply IH; [exact E1|done|done|].
    rewrite filter_cons in Hl. case_decide; [by apply Forall_cons in Hl as [_ ?]|done].
Qed.

Lemma absorb_sublist l s e kept s' e' :
  absorb l s e = (kept, s', e') → sublist kept l.
Proof.
  revert s e kept. induction l as [|r l IH]; intros s e kept E; simpl in E.
  { injection E as <- _ _. constructor. }
  case_decide; [constructor; by eapply IH|].
  destruct (absorb l s e) as [[k1 s1] e1] eqn:E1. injection E as <- <- <-.
  constructor. by eapply IH.
Qed.

Lemma apart_sym r1 r2 : apart r1 r2 → apart r2 r1.
Proof. unfold apart. tauto. Qed.

Lemma canonical_cons_dead r l : ¬ live r → canonical (r :: l) ↔ canonical l.
Proof. intros. unfold canonical. by rewrite filter_cons_False. Qed.

Lemma canonical_cons_live r l :
  live r → canonical (r :: l) ↔
    r_start r < r_end r ∧ Forall (apart r) (filter live l) ∧ canonical l.
Proof.
  intros. unfold canonical. rewrite filter_cons_True, Forall_cons by done.
  split; [intros [[? ?] Hp]; inversion Hp; by subst|].
  intros (? & ? & ? & ?). split; [done|by constructor].
Qed.

Lemma absorb_canonical l s e kept s' e' :
  absorb l s e = (kept, s', e') → s < e → canonical l →
  canonical (kept ++ [Rng s' e']).
Proof.
  revert s e kept. induction l as [|r l IH]; intros s e kept E Hse Hc; simpl in E.
  { injection E as <- <- <-. unfold canonical. simpl.
    rewrite filter_cons. case_decide; rewrite filter_nil; split; repeat constructor. done. }
  case_decide as Ht.
  - destruct Ht as [Hlv Ht]. apply canonical_cons_live in Hc as (? & ? & ?); [|done].
    eapply IH; [exact E|lia|done].
  - destruct (absorb l s e) as [[k1 s1] e1] eqn:E1. injection E as <- <- <-.
    destruct (decide (live r)) as [Hlv|Hd]; simpl; last first.
    { apply canonical_cons_dead in Hc; [|done]. apply canonical_cons_dead; [done|].
      by eapply IH. }
    apply canonical_cons_live in Hc as (Hr & Ha & Hc); [|done].
    apply canonical_cons_live; [done|]. split_and!; [done| |by eapply IH].
    rewrite filter_app. apply Forall_app. split.
    + rewrite Forall_forall in Ha |- *. intros q [Hq Hin]%list_elem_of_filter.
      apply Ha, list_elem_of_filter. split; [done|].
      by eapply sublist_subseteq; [exact (absorb_sublist _ _ _ _ _ _ E1)|].
    + rewrite Forall_forall. intros q [_ ->%list_elem_of_singleton]%list_elem_of_filter.
      eapply absorb_apart; [exact E1|done| |done].
      destruct (decide (apart r (Rng s e))) as [|Hna]; [done|].
      destruct Ht. split; [done|]. unfold apart in Hna. simpl in Hna. lia.
Qed.

(** adding a range to a table in canonical form that has a free slot keeps
    the array's size, uses at most one more slot, and leaves a table in
    canonical form (non-empty ranges that neither overlap nor touch) that
    covers exactly the old addresses and the added range. *)
Theorem add_range_with_merge_correct rg az nr s e :
  (nr < az ≤ length rg)%nat → 0 ≤ s < e → canonical (take nr rg) →
  ∃ rg' nr', add_range_with_merge rg az nr s e = Some (rg', nr') ∧
    length rg' = length rg ∧ (nr' ≤ S nr)%nat ∧ canonical (take nr' rg') ∧
    ∀ x, covers (take nr' rg') x ↔ covers (take nr rg) x ∨ s ≤ x < e.
Proof.
  intros Hnr Hse Hc. unfold add_range_with_merge. rewrite decide_False by lia.
  pose proof (merge_loop_absorb nr rg 0 s e ltac:(lia)) as Hm. rewrite drop_0 in Hm.
  destruct (absorb (take nr rg) s e) as [[kept s'] e'] eqn:E.
  destruct Hm as (rg' & -> & Hl & Ht). simpl in *.
  destruct (absorb_covers _ _ _ _ _ _ E) as (? & ? & Hcov); [lia|].
  assert (length kept ≤ nr)%nat.
  { pose proof (sublist_length _ _ (absorb_sublist _ _ _ _ _ _ E)) as Hk.
    rewrite length_take in Hk. lia. }
  unfold add_range. rewrite decide_False, decide_False, aset_lt by lia. simpl.
  eexists _, _. split; [done|]. rewrite length_insert. split_and!; [lia..| |].
  all: rewrite (take_S_r _ _ (Rng s' e')) by (apply list_lookup_insert_eq; lia).
  all: rewrite take_insert_ge, Ht by lia.
  - eapply absorb_canonical; [exact E|lia|done].
  - intros x. rewrite covers_app, covers_cons, covers_nil. rewrite <-Hcov.
    unfold live. simpl. intuition lia.
Qed.

Lemma add_range_with_merge_correct_witness :
  ∃ rg' nr', add_range_with_merge [Rng 10 20; Rng 30 40; zero_range] 3 2 15 30 = Some (rg', nr') ∧
    length rg' = 3%nat ∧ (nr' ≤ 3)%nat ∧ canonical (take nr' rg') ∧
    ∀ x, covers (take nr' rg') x ↔ covers [Rng 10 20; Rng 30 40] x ∨ 15 ≤ x < 30.
Proof.
  apply (add_range_with_merge_correct [Rng 10 20; Rng 30 40; zero_range] 3 2 15 30);
    [simpl; lia|lia|].
  split; repeat constructor; simpl; lia.
Defined.

(** * subtract_range *)

Lemma find_spare_spec k rg i :
  (i + k ≤ length rg)%nat →
  ∃ j, find_spare k rg i = Some j ∧ (i ≤ j ≤ i + k)%nat ∧
    (∀ m r, (i ≤ m < j)%nat → rg !! m = Some r → live r) ∧
    ((j < i + k)%nat → ∃ r, rg !! j = Some r ∧ ¬ live r).
Proof.
  revert i. induction k as [|k IH]; intros i Hk; simpl.
  { exists i. split_and!; [done|lia..|lia]. }
  destruct (lookup_lt_is_Some_2 rg i) as [r Hr]; [lia|]. rewrite Hr. simpl.
  case_decide as Hd.
  { exists i. split_and!; [done|lia..|]. intros. exists r. unfold live. tauto. }
  destruct (IH (S i)) as (j & -> & Hj & Hl & Hs); [lia|]. exists j.
  split_and!; [done|lia..| |intros; apply Hs; lia].
  intros m r' Hm Hr'. destruct (decide (m = i)) as [->|]; [naive_solver|].
  eapply Hl; [|done]. lia.
Qed.

Section subtract.
Context (s e : Z) (az : nat).
Hypothesis Hse : 0 ≤ s < e.

(** Slot [r] strictly contains the subtracted range, so that what remains
    needs two slots. *)
Definition straddles (r : range) : Prop := live r ∧ r_start r < s ∧ e < r_end r.

Definition clear_of (r : range) : Prop := live r → r_end r ≤ s ∨ e ≤ r_start r.

(** Addresses covered by the slots below [az]. *)
Definition icovers (rg : list range) (x : Z) : Prop :=
  ∃ i r, (i < az)%nat ∧ rg !! i = Some r ∧ live r ∧ r_start r ≤ x < r_end r.

Definition spare (rg : list range) : Prop :=
  ∃ i r, (i < az)%nat ∧ rg !! i = Some r ∧ ¬ live r.

Lemma icovers_covers rg x : icovers rg x ↔ covers (take az rg) x.
Proof using Type.
  clear Hse s e.
  unfold icovers, covers. setoid_rewrite list_elem_of_lookup.
  setoid_rewrite lookup_take_Some. naive_solver.
Qed.

(** The loop needs a spare slot only when a slot still to be visited
    straddles the range, and at most one does. *)
Definition enough_slots (rg : list range) (j : nat) : Prop :=
  (∀ i r, (j ≤ i < az)%nat → rg !! i = Some r → ¬ straddles r) ∨
  (spare rg ∧ ∀ i1 i2 r1 r2, (j ≤ i1 < az)%nat → (j ≤ i2 < az)%nat →
    rg !! i1 = Some r1 → rg !! i2 = Some r2 →
    straddles r1 → straddles r2 → i1 = i2).

Definition sub_inv (rg : list range) (j : nat) : Prop :=
  enough_slots rg j ∧
  ∀ i r, (i < j)%nat → rg !! i = Some r → clear_of r.

(** Rewriting the slot under the cursor with a range that is clear of the
    subtracted one and covers the same addresses outside it. *)
Lemma set_slot_inv rg j r q :
  (j < az)%nat → (az ≤ length rg)%nat → rg !! j = Some r → live r →
  clear_of q →
  (∀ x, 0 ≤ x → ¬ (s ≤ x < e) → (live q ∧ r_start q ≤ x < r_end q) ↔ r_start r ≤ x < r_end r) →
  sub_inv rg j →
  sub_inv (<[j := q]> rg) (S j) ∧
  ∀ x, 0 ≤ x → ¬ (s ≤ x < e) → icovers (<[j := q]> rg) x ↔ icovers rg x.
Proof.
  intros Hj Hl Hr Hlv Hq Hx [Hen Hcl]. split; [split|].
  - destruct Hen as [Hno|[(i & d & Hi & Hd & Hnd) Huniq]].
    + left. intros i r' Hi. rewrite list_lookup_insert_ne by lia. apply Hno. lia.
    + right. split.
      * exists i, d. rewrite list_lookup_insert_ne by (intros ->; naive_solver). done.
      * intros i1 i2 r1 r2 H1 H2. rewrite !list_lookup_insert_ne by lia.
        apply Huniq; lia.
  - intros i r' Hi [(<- & <- & _)|[Hne Hl']]%list_lookup_insert_Some; [done|].
    eapply Hcl; [|exact Hl']. lia.
  - intros x Hx0 Hnx. specialize (Hx x Hx0 Hnx). split.
    + intros (i & r' & Hi & [(<- & <- & _)|[Hne Hl']]%list_lookup_insert_Some & ?).
      * exists j, r. naive_solver.
      * exists i, r'. done.
    + intros (i & r' & Hi & Hl' & ? & ?). destruct (decide (i = j)) as [->|Hne].
      * exists j, q. rewrite list_lookup_insert_eq by lia. naive_solver.
      * exists i, r'. by rewrite list_lookup_insert_ne.
Qed.

(** Splitting a straddling slot: the upper part goes to a spare slot. *)
Lemma split_slot_inv rg j i r d :
  (j < az)%nat → (i < az)%nat → (az ≤ length rg)%nat →
  rg !! j = Some r → straddles r → rg !! i = Some d → ¬ live d →
  sub_inv rg j →
  let rg' := <[j := Rng (r_start r) s]> (<[i := Rng e (r_end r)]> rg) in
  sub_inv rg' (S j) ∧ ∀ x, 0 ≤ x → ¬ (s ≤ x < e) → icovers rg' x ↔ icovers rg x.
Proof.
  intros Hj Hi Hl Hr (Hlv & Hs1 & Hs2) Hd Hnd [Hen Hcl] rg'.
  assert (i ≠ j) by (intros ->; naive_solver).
  assert (∀ m q, rg' !! m = Some q ↔ m = j ∧ q = Rng (r_start r) s ∨
    m = i ∧ q = Rng e (r_end r) ∨ m ≠ j ∧ m ≠ i ∧ rg !! m = Some q) as Hrg'.
  { intros m q. unfold rg'. rewrite !list_lookup_insert_Some, length_insert. naive_solver lia. }
  split; [split|].
  - left. intros m q Hm [[-> ->]|[[-> ->]|(? & ? & Hq)]]%Hrg' Hst; [lia| |].
    { destruct Hst as (_ & ? & _). simpl in *. lia. }
    destruct Hen as [Hno|[_ Huniq]].
    + by eapply (Hno j); [lia|exact Hr|].
    + assert (m = j); [|done]. eapply Huniq; [..|exact Hst|]; try done; lia.
  - intros m q Hm [[-> ->]|[[-> ->]|(? & ? & Hq)]]%Hrg' ?; simpl; [lia..|].
    eapply Hcl; [|exact Hq|done]. lia.
  - intros x Hx0 Hx. split.
    + intros (m & q & Hm & [[-> ->]|[[-> ->]|(? & ? & Hq)]]%Hrg' & Hql & Hqx); simpl in *.
      * exists j, r. repeat split; [done..|lia|lia].
      * exists j, r. repeat split; [done..|lia|lia].
      * by exists m, q.
    + intros (m & q & Hm & Hq & Hql & Hqx).
      destruct (decide (m = i)) as [->|]; [naive_solver|].
      destruct (decide (m = j)) as [->|]; [|exists m, q; naive_solver].
      assert (q = r) as -> by congruence. destruct (decide (x < s)).
      * exists j, (Rng (r_start r) s). rewrite Hrg'. unfold live. simpl.
        split_and!; [done|by left|lia..].
      * exists i, (Rng e (r_end r)). rewrite Hrg'. unfold live. simpl.
        split_and!; [done|by right; left|lia..].
Qed.

Lemma keep_slot_inv rg j r :
  rg !! j = Some r → clear_of r → sub_inv rg j → sub_inv rg (S j).
Proof.
  intros Hr Hc [Hen Hcl]. split.
  - destruct Hen as [Hno|[Hsp Hu]]; [left|right; split; [done|]].
    + intros i r' Hi. apply Hno. lia.
    + intros i1 i2 r1 r2 ? ?. apply Hu; lia.
  - intros i r' Hi Hr'. destruct (decide (i = j)) as [->|]; [by simplify_eq|].
    eapply Hcl; [|exact Hr']. lia.
Qed.

Lemma subtract_step_inv rg j :
  (j < az)%nat → (az ≤ length rg)%nat → sub_inv rg j →
  ∃ rg', subtract_step rg az s e j = Some rg' ∧ length rg' = length rg ∧
    sub_inv rg' (S j) ∧
    ∀ x, 0 ≤ x → ¬ (s ≤ x < e) → icovers rg' x ↔ icovers rg x.
Proof.
  intros Hj Hl Hinv. unfold subtract_step.
  destruct (lookup_lt_is_Some_2 rg j) as [r Hr]; [lia|]. rewrite Hr. simpl.
  assert (∀ q, clear_of q → live r →
    (∀ x, 0 ≤ x → ¬ (s ≤ x < e) →
      (live q ∧ r_start q ≤ x < r_end q) ↔ r_start r ≤ x < r_end r) →
    ∃ rg', aset rg j q = Some rg' ∧ length rg' = length rg ∧ sub_inv rg' (S j) ∧
    ∀ x, 0 ≤ x → ¬ (s ≤ x < e) → icovers rg' x ↔ icovers rg x) as Hset.
  { intros q Hq Hlv Hx. rewrite aset_lt by lia. eexists. split; [done|].
    rewrite length_insert. split; [done|]. by eapply set_slot_inv. }
  assert (clear_of r → ∃ rg', Some rg = Some rg' ∧ length rg' = length rg ∧
    sub_inv rg' (S j) ∧
    ∀ x, 0 ≤ x → ¬ (s ≤ x < e) → icovers rg' x ↔ icovers rg x) as Hkeep.
  { intros Hc. exists rg. split_and!; [done..|by eapply keep_slot_inv|done]. }
  unfold clear_of, live in Hset, Hkeep.
  case_decide as H1; [by apply Hkeep|].
  case_decide as H2; [apply Hset; simpl; [done..|lia]|].
  case_decide as H3; [apply Hset; simpl; [lia..|]; intros; lia|].
  case_decide as H4; [apply Hset; simpl; [lia..|]; intros; lia|].
  case_decide as H5; [|apply Hkeep; lia].
  destruct (find_spare_spec az rg 0) as (i & -> & Hi & Hbelow & Hat); [lia|]. simpl.
  destruct Hinv as [Hen Hcl].
  case_decide as Hlt.
  - destruct Hat as (d & Hd & Hnd); [lia|].
    rewrite aset_lt by lia. simpl. rewrite aset_lt by (rewrite length_insert; lia).
    eexists. split; [done|]. rewrite !length_insert. split; [done|].
    eapply split_slot_inv; try done; lia.
  - exfalso. destruct Hen as [Hno|[(m & d & Hm & Hd & Hnd) _]].
    + eapply (Hno j); [lia|exact Hr|done].
    + apply Hnd. eapply Hbelow; [|exact Hd]. lia.
Qed.

Lemma subtract_loop_inv k rg j :
  (j + k = az)%nat → (az ≤ length rg)%nat → sub_inv rg j →
  ∃ rg', subtract_loop k rg az s e j = Some rg' ∧ length rg' = length rg ∧
    sub_inv rg' az ∧
    ∀ x, 0 ≤ x → ¬ (s ≤ x < e) → icovers rg' x ↔ icovers rg x.
Proof.
  revert rg j. induction k as [|k IH]; intros rg j Hjk Hl Hinv; simpl.
  { exists rg. replace az with j by lia. done. }
  destruct (subtract_step_inv rg j) as (rg1 & -> & Hl1 & Hinv1 & Hx1); [lia|done..|].
  simpl. destruct (IH rg1 (S j)) as (rg' & -> & Hl' & Hinv' & Hx'); [lia..|done|].
  exists rg'. split_and!; [done|lia|done|].
  intros x ? ?. by rewrite Hx', Hx1.
Qed.
End subtract.

(** subtracting [start, end) from a table whose live ranges are pairwise
    disjoint and that has a free slot stays inside the array and leaves a table
    that covers exactly the old addresses outside [start, end). *)
Theorem subtract_range_correct rg az s e :
  (az ≤ length rg)%nat → 0 ≤ s < e →
  (∃ i r, (i < az)%nat ∧ rg !! i = Some r ∧ ¬ live r) →
  (∀ i1 i2 r1 r2, rg !! i1 = Some r1 → rg !! i2 = Some r2 → live r1 → live r2 →
    i1 ≠ i2 → r_end r1 ≤ r_start r2 ∨ r_end r2 ≤ r_start r1) →
  ∃ rg', subtract_range rg az s e = Some rg' ∧ length rg' = length rg ∧
    ∀ x, 0 ≤ x → covers (take az rg') x ↔ covers (take az rg) x ∧ ¬ (s ≤ x < e).
Proof.
  intros Hl Hse Hsp Hdis. unfold subtract_range. rewrite decide_False by lia.
  destruct (subtract_loop_inv s e az Hse az rg 0) as (rg' & -> & Hl' & [_ Hcl] & Hx);
    [done..| |].
  { split; [|lia]. right. split; [done|].
    intros i1 i2 r1 r2 _ _ H1 H2 (? & ? & ?) (? & ? & ?).
    destruct (decide (i1 = i2)); [done|].
    destruct (Hdis i1 i2 r1 r2); try done; lia. }
  exists rg'. split_and!; [done..|]. intros x Hx0. rewrite <-!icovers_covers. split.
  - intros Hc. assert (¬ (s ≤ x < e)) as Hn; [|split; [by apply Hx|done]].
    destruct Hc as (i & r & Hi & Hr & Hlv & Hrx).
    specialize (Hcl i r Hi Hr Hlv). lia.
  - intros [Hc Hn]. by apply Hx.
Qed.

Lemma subtract_range_correct_witness :
  ∃ rg', subtract_range [Rng 10 50; zero_range; Rng 60 70] 3 20 65 = Some rg' ∧
    length rg' = 3%nat ∧
    ∀ x, 0 ≤ x → covers (take 3 rg') x ↔
      covers [Rng 10 50; zero_range; Rng 60 70] x ∧ ¬ (20 ≤ x < 65).
Proof.
  apply (subtract_range_correct [Rng 10 50; zero_range; Rng 60 70] 3 20 65); [simpl; lia..| |].
  - exists 1%nat, zero_range. split_and!; [lia|done|]. unfold live. simpl. lia.
  - intros [|[|[|i1]]] [|[|[|i2]]] r1 r2 H1 H2; simpl in *; simplify_eq;
      unfold live; simpl; lia.
Defined.

(** * clean_sort_range *)

Lemma find_last_spec n rg i :
  (i + n < length rg)%nat →
  (find_last n rg i = Some None ∧
    ∀ m r, (i < m ≤ i + n)%nat → rg !! m = Some r → ¬ live r) ∨
  (∃ j q, find_last n rg i = Some (Some j) ∧ (i < j ≤ i + n)%nat ∧
    rg !! j = Some q ∧ live q ∧
    ∀ m r, (j < m ≤ i + n)%nat → rg !! m = Some r → ¬ live r).
Proof.
  induction n as [|n IH]; intros Hn; cbn [find_last]; [left; split; [done|lia]|].
  destruct (lookup_lt_is_Some_2 rg (i + S n)%nat) as [r Hr]; [lia|].
  rewrite Hr. cbn [mbind option_bind]. case_decide as Hd; last first.
  { right. exists (i + S n)%nat, r. split_and!; [done|lia..|done|done|lia]. }
  assert (∀ m r', m = (i + S n)%nat → rg !! m = Some r' → ¬ live r') as Hlast.
  { intros m r' -> Hr'. unfold live. naive_solver. }
  destruct IH as [[-> Hall]|(j & q & -> & Hj & Hq & Hlq & Hall)]; [lia| |].
  - left. split; [done|]. intros m r' Hm.
    destruct (decide (m = i + S n)%nat); [by apply Hlast|apply Hall; lia].
  - right. exists j, q. split_and!; [done|lia..|done|done|].
    intros m r' Hm. destruct (decide (m = i + S n)%nat); [by apply Hlast|apply Hall; lia].
Qed.

(** Moving the live entry at [j] into the dead slot [i] below it. *)
Lemma move_down_live (l : list range) i j r q :
  l !! i = Some r → l !! j = Some q → (i < j)%nat → ¬ live r → live q →
  Permutation (filter live (<[j := zero_range]> (<[i := q]> l))) (filter live l).
Proof.
  intros Hi Hj Hij Hr Hq.
  apply list_elem_of_split_length in Hi as (A & l1 & -> & ->).
  rewrite lookup_app_r, lookup_cons_ne_0 in Hj by lia.
  apply list_elem_of_split_length in Hj as (B & C & -> & HB).
  rewrite insert_mid.
  assert (<[j := zero_range]> (A ++ q :: B ++ q :: C) = A ++ q :: B ++ zero_range :: C) as ->.
  { rewrite !(app_comm_cons B), !(app_assoc A).
    replace j with (length (A ++ q :: B)) by (rewrite length_app; simpl; lia).
    apply insert_mid. }
  rewrite !filter_app, !filter_cons, !filter_app, !filter_cons.
  rewrite !(decide_True (P := live q)), (decide_False (P := live r)) by done.
  rewrite (decide_False (P := live zero_range)) by (unfold live; simpl; lia).
  by rewrite Permutation_middle.
Qed.

(** The live slots come first: [n] of them. *)
Definition compacted (rg : list range) (n az : nat) : Prop :=
  (n ≤ az)%nat ∧
  (∀ m r, (m < n)%nat → rg !! m = Some r → live r) ∧
  (∀ m r, (n ≤ m < az)%nat → rg !! m = Some r → ¬ live r).

Lemma clean_loop_spec fuel rg i k az :
  (k < az ≤ length rg)%nat → (i ≤ S k)%nat → (k - i < fuel)%nat →
  (∀ m r, (m < i)%nat → rg !! m = Some r → live r) →
  (∀ m r, (k < m < az)%nat → rg !! m = Some r → ¬ live r) →
  ∃ rg' n, clean_loop fuel rg i k = Some rg' ∧ length rg' = length rg ∧
    compacted rg' n az ∧ drop az rg' = drop az rg ∧
    Permutation (filter live (take az rg')) (filter live (take az rg)).
Proof.
  revert rg i k. induction fuel as [|fuel IH]; intros rg i k Hk Hi Hf Hlo Hhi; [lia|].
  cbn [clean_loop]. case_decide as Hki.
  { exists rg. destruct (decide (k < i)%nat).
    - exists i. split_and!; [done..|split_and!; [lia|done|]|done|done].
      intros m r' Hm. apply Hhi. lia.
    - assert (i = k) as -> by lia.
      destruct (lookup_lt_is_Some_2 rg k) as [r Hr]; [lia|]. destruct (decide (live r)).
      + exists (S k). split_and!; [done..|split_and!; [lia| |]|done|done].
        * intros m r' Hm Hr'. destruct (decide (m = k)) as [->|]; [naive_solver|].
          eapply Hlo; [|done]. lia.
        * intros m r' Hm. apply Hhi. lia.
      + exists k. split_and!; [done..|split_and!; [lia|done|]|done|done].
        intros m r' Hm Hr'. destruct (decide (m = k)) as [->|]; [naive_solver|].
        eapply Hhi; [|done]. lia. }
  destruct (lookup_lt_is_Some_2 rg i) as [r Hr]; [lia|].
  rewrite Hr. cbn [mbind option_bind]. case_decide as Hd; last first.
  { apply IH; [lia..| |done]. intros m r' Hm Hr'.
    destruct (decide (m = i)) as [->|]; [naive_solver|]. eapply Hlo; [|done]. lia. }
  destruct (find_last_spec (k - i) rg i) as [[-> Hall]|(j & q & -> & Hj & Hq & Hlq & Hall)];
    [lia| |]; cbn [mbind option_bind].
  { exists rg, i. split_and!; [done..|split_and!; [lia|done|]|done|done].
    intros m r' Hm Hr'. destruct (decide (m = i)) as [->|].
    { unfold live. naive_solver. }
    destruct (decide (m ≤ k)%nat); [eapply Hall|eapply Hhi]; [|done| |done]; lia. }
  rewrite Hq. cbn [mbind option_bind]. rewrite aset_lt by lia. cbn [mbind option_bind].
  rewrite aset_lt by (rewrite length_insert; lia). cbn [mbind option_bind].
  set (rg2 := <[j := zero_range]> (<[i := q]> rg)).
  assert (∀ m x, rg2 !! m = Some x → m = j ∧ x = zero_range ∨ m = i ∧ x = q ∨
    m ≠ j ∧ m ≠ i ∧ rg !! m = Some x) as Hl2.
  { intros m x. unfold rg2. rewrite !list_lookup_insert_Some. naive_solver. }
  assert (length rg2 = length rg) as Hlen by (unfold rg2; by rewrite !length_insert).
  destruct (IH rg2 (S i) (j - 1)%nat) as (rg' & n & -> & Hl' & Hcp & Hdr & Hp); [lia..| | |].
  - intros m x Hm [[-> _]|[[-> ->]|(_ & ? & Hx)]]%Hl2; [lia|done|]. eapply Hlo; [|done]. lia.
  - intros m x Hm [[-> ->]|[[-> ->]|(? & ? & Hx)]]%Hl2; [unfold live; simpl; lia|lia|].
    destruct (decide (m ≤ k)%nat); [eapply Hall|eapply Hhi]; [|done| |done]; lia.
  - exists rg', n. split_and!; [done|lia|done| |].
    + rewrite Hdr. unfold rg2. by rewrite !drop_insert_lt by lia.
    + rewrite Hp. unfold rg2. rewrite !take_insert_lt by lia.
      apply (move_down_live _ i j r); [| |lia|unfold live; naive_solver|done].
      all: rewrite lookup_take_lt by lia; done.
Qed.

(** The starts of the live ranges are small enough for [cmp_range]: their
    differences fit an [int]. *)
Definition int_starts (l : list range) : Prop :=
  ∀ r, r ∈ l → live r → 0 ≤ r_start r < 2 ^ 31.

Lemma cmp_range_small r1 r2 :
  0 ≤ r_start r1 < 2 ^ 31 → 0 ≤ r_start r2 < 2 ^ 31 →
  cmp_range r1 r2 = r_start r1 - r_start r2.
Proof.
  intros H1 H2. unfold cmp_range.
  rewrite (s64_small (r_start r1)), (s64_small (r_start r2)) by width.
  rewrite s64_small, s32_small by width. done.
Qed.

Lemma compacted_live rg n az :
  (az ≤ length rg)%nat → compacted rg n az → filter live (take az rg) = take n rg.
Proof.
  intros Hl (Hn & Hlo & Hhi).
  replace az with (n + (az - n))%nat by lia. rewrite <-take_take_drop.
  rewrite filter_app, filter_all, filter_none, app_nil_r; [done| |].
  - apply Forall_lookup. intros m r Hr. apply lookup_take_Some in Hr as [Hr Hm].
    rewrite lookup_drop in Hr. eapply Hhi; [|exact Hr]. lia.
  - apply Forall_lookup. intros m r [Hr Hm]%lookup_take_Some. by eapply Hlo.
Qed.

(** The compacting loop and the count after it, on every table. *)
Lemma clean_count rg az :
  (az ≤ length rg)%nat →
  ∃ rg1 n, clean_loop (S az) rg 0 (az - 1) = Some rg1 ∧
    find_spare az rg1 0 = Some n ∧ length rg1 = length rg ∧ (n ≤ az)%nat ∧
    Permutation (take n rg1) (filter live (take az rg)) ∧
    filter live (take az rg1) = take n rg1.
Proof.
  intros Hl.
  destruct (decide (az = 0%nat)) as [->|Haz].
  { exists rg, 0%nat. rewrite !take_0. done. }
  destruct (clean_loop_spec (S az) rg 0 (az - 1) az) as (rg1 & n & E & Hl1 & Hcp & _ & Hp);
    [lia..|]. exists rg1, n.
  pose proof (compacted_live rg1 n az ltac:(lia) Hcp) as Hlive. destruct Hcp as (Hn & Hlo & Hhi).
  destruct (find_spare_spec az rg1 0) as (j & -> & Hj & Hb & Ha); [lia|].
  split_and!; [done| |done|done|by rewrite <-Hlive|done].
  f_equal. destruct (lt_eq_lt_dec j n) as [[Hjn|Hjn]|Hjn]; [|done|].
  - destruct Ha as (r & Hr & Hd); [lia|]. by destruct Hd; eapply Hlo.
  - destruct (lookup_lt_is_Some_2 rg1 n) as [r Hr]; [lia|].
    destruct (Hhi n r); [lia|done|]. eapply Hb; [|done]. lia.
Qed.

Lemma cmp_range_preorder l :
  (∀ r, r ∈ l → 0 ≤ r_start r < 2 ^ 31) → cmp_preorder cmp_range l.
Proof.
  intros Hl. split.
  - intros x y Hx Hy. rewrite !cmp_range_small by auto. lia.
  - intros x y z Hx Hy Hz. rewrite !cmp_range_small by auto. lia.
Qed.

(** With a sorting routine that meets its contract, [clean_sort_range]
    moves the live ranges to the front, returns their number and leaves them in
    ascending order of their starts, provided the starts differ by less than
    2^31 so that [cmp_range] compares them. *)
Theorem clean_sort_range_correct sort `{!LibSort sort} rg az :
  (az ≤ length rg)%nat → int_starts (take az rg) →
  ∃ rg' nr, clean_sort_range sort rg az = Some (rg', nr) ∧
    length rg' = length rg ∧ nr = length (filter live (take az rg)) ∧
    Permutation (take nr rg') (filter live (take az rg)) ∧
    StronglySorted (λ r1 r2, r_start r1 ≤ r_start r2) (take nr rg') ∧
    ∀ x, covers (take az rg') x ↔ covers (take az rg) x.
Proof.
  intros Hl Hst. unfold clean_sort_range.
  destruct (clean_count rg az Hl) as (rg1 & n & -> & E & Hl1 & Hn & Hp & Hlv).
  cbn [mbind option_bind]. rewrite E. cbn [mbind option_bind].
  set (rg' := sort range cmp_range (take n rg1) ++ drop n rg1).
  assert (length (take n rg1) = n) as Hln by (rewrite length_take; lia).
  pose proof (sort_perm range cmp_range (take n rg1)) as Hsp.
  assert (length (sort range cmp_range (take n rg1)) = n) as Hls by by rewrite Hsp.
  assert (take n rg' = sort range cmp_range (take n rg1)) as Htk by by apply take_app_length'.
  exists rg', n. split; [done|]. rewrite Htk. split_and!.
  - unfold rg'. rewrite length_app, Hls, length_drop. lia.
  - by rewrite <-Hln, Hp.
  - by rewrite Hsp.
  - eapply StronglySorted_weaken; [|apply sort_sorted, cmp_range_preorder].
    + intros x y. rewrite !Hsp, !Hp, !list_elem_of_filter. intros [? ?] [? ?].
      rewrite cmp_range_small by auto. lia.
    + intros r. rewrite Hp, list_elem_of_filter. intros [? ?]. auto.
  - intros x. replace az with (n + (az - n))%nat at 1 by lia.
    rewrite <-take_take_drop, Htk. unfold rg'. rewrite drop_app_length' by done.
    rewrite Hsp, take_take_drop. replace (n + (az - n))%nat with az by lia.
    by rewrite <-covers_live, Hlv, Hp, covers_live.
Qed.

Lemma clean_sort_range_correct_witness :
  let rg := [zero_range; Rng 30 40; zero_range; Rng 5 9] in
  ∃ rg' nr, clean_sort_range isort rg 4 = Some (rg', nr) ∧
    length rg' = 4%nat ∧ nr = length (filter live (take 4 rg)) ∧
    Permutation (take nr rg') (filter live (take 4 rg)) ∧
    StronglySorted (λ r1 r2, r_start r1 ≤ r_start r2) (take nr rg') ∧
    ∀ x, covers (take 4 rg') x ↔ covers (take 4 rg) x.
Proof.
  apply (clean_sort_range_correct isort); [simpl; lia|].
  intros r Hr Hl. change (take 4 _) with [zero_range; Rng 30 40; zero_range; Rng 5 9] in Hr.
  apply list_elem_of_In in Hr. simpl in Hr.
  destruct Hr as [<-|[<-|[<-|[<-|[]]]]]; simpl; lia.
Defined.

(** [cmp_range] returns the 64-bit difference of the starts truncated to an
    [int], so it can order two ranges the wrong way round: a range that starts
    at 2^31 compares below one that starts at 0, and one that starts at 2^32
    compares equal to it. *)
Theorem cmp_range_truncates e1 e2 :
  cmp_range (Rng (2 ^ 31) e1) (Rng 0 e2) < 0 ∧
  cmp_range (Rng (2 ^ 32) e1) (Rng 0 e2) = 0.
Proof. split; by vm_compute. Qed.
