(* ===== verification/CpuDl.v ===== *)
(** CpuDl: the deadline max-heap of kernel/sched/cpudeadline.c.

    [struct cpudl] keeps the earliest deadline of every CPU with deadline tasks
    in an array heap whose root is the latest deadline, an index from CPUs to
    heap slots and the mask of free CPUs.  The theorems: the heap refines a map
    from CPUs to deadlines ([dl_of]), every operation preserves the invariant
    [cpudl_inv] (index and heap inverse to each other, heap order, mask), and
    the root is a maximum. *)

From S2P Require Import Prelude.

Local Open Scope Z_scope.

(** cpudeadline.h *)
Definition IDX_INVALID : Z := -1.

Record array_item := Item { dl : Z; cpu : nat }.

(** The lock is not represented: every operation runs with it held. *)
Record cpudl := Cpudl {
  size : nat;
  cpu_to_idx : list Z;
  elements : list array_item;
  free_cpus : gset nat;
}.

Definition parent (i : nat) : nat := ((i - 1) / 2)%nat.
Definition left_child (i : nat) : nat := (2 * i + 1)%nat.
Definition right_child (i : nat) : nat := (2 * i + 2)%nat.

Definition dl_time_before (a b : Z) : bool := bool_decide (s64 (u64 (a - b)) < 0).

Definition set_elements cp els :=
  Cpudl (size cp) (cpu_to_idx cp) els (free_cpus cp).
Definition set_cpu_to_idx cp ix :=
  Cpudl (size cp) ix (elements cp) (free_cpus cp).

Definition cpudl_exchange (cp : cpudl) (a b : nat) : option cpudl :=
  ea ← elements cp !! a;
  eb ← elements cp !! b;
  let cpu_a := cpu ea in
  let cpu_b := cpu eb in
  els ← aswap (elements cp) a b;
  ix ← aswap (cpu_to_idx cp) cpu_a cpu_b;
  Some (Cpudl (size cp) ix els (free_cpus cp)).

(** [elements[i].dl] *)
Definition dl_at (cp : cpudl) (i : nat) : option Z := dl <$> elements cp !! i.

(** The child (or [idx] itself) with the latest deadline, as the two tests of
    [cpudl_heapify] choose it. *)
Definition pick_largest (cp : cpudl) (idx : nat) : option nat :=
  let l := left_child idx in
  let r := right_child idx in
  largest ←
    (if decide (l < size cp)%nat then
       d ← dl_at cp idx; dl' ← dl_at cp l;
       Some (if dl_time_before d dl' then l else idx)
     else Some idx);
  if decide (r < size cp)%nat then
    d ← dl_at cp largest; dr ← dl_at cp r;
    Some (if dl_time_before d dr then r else largest)
  else Some largest.

(** [cpudl_heapify]: [idx] grows at every iteration and stays below [size], so
    [size] iterations are enough. *)
Fixpoint heapify_loop (fuel : nat) (cp : cpudl) (idx : nat) : option cpudl :=
  match fuel with
  | O => None
  | S fuel' =>
      largest ← pick_largest cp idx;
      if decide (largest = idx) then Some cp
      else
        cp' ← cpudl_exchange cp largest idx;
        heapify_loop fuel' cp' largest
  end.

Definition cpudl_heapify (cp : cpudl) (idx : nat) : option cpudl :=
  heapify_loop (S (size cp)) cp idx.

(** The loop that moves an element towards the root, in [cpudl_change_key] and
    in [cpudl_set]; it also returns the final index.  [idx] decreases. *)
Fixpoint sift_up (fuel : nat) (cp : cpudl) (idx : nat) : option (cpudl * nat) :=
  match fuel with
  | O => None
  | S fuel' =>
      if decide (0 < idx)%nat then
        dp ← dl_at cp (parent idx);
        d ← dl_at cp idx;
        if dl_time_before dp d then
          cp' ← cpudl_exchange cp idx (parent idx);
          sift_up fuel' cp' (parent idx)
        else Some (cp, idx)
      else Some (cp, idx)
  end.

(** [cp->elements[idx].dl = new_dl] *)
Definition set_dl (cp : cpudl) (idx : nat) (new_dl : Z) : option cpudl :=
  it ← elements cp !! idx;
  els ← aset (elements cp) idx (Item new_dl (cpu it));
  Some (set_elements cp els).

(** The [WARN_ON]s only print. *)
Definition cpudl_change_key (cp : cpudl) (idx : nat) (new_dl : Z) : option cpudl :=
  old ← dl_at cp idx;
  if dl_time_before new_dl old then
    cp' ← set_dl cp idx new_dl;
    cpudl_heapify cp' idx
  else
    cp' ← set_dl cp idx new_dl;
    '(cp'', _) ← sift_up (S idx) cp' idx;
    Some cp''.

Definition cpudl_maximum (cp : cpudl) : option nat := cpu <$> elements cp !! 0%nat.

(** The removal branch of [cpudl_set], [old_idx] valid. *)
Definition cpudl_remove (cp : cpudl) (c old_idx : nat) : option cpudl :=
  if decide (size cp = 0%nat) then None else
  last ← elements cp !! (size cp - 1)%nat;
  let new_cpu := cpu last in
  els ← aset (elements cp) old_idx last;
  ix1 ← aset (cpu_to_idx cp) new_cpu (Z.of_nat old_idx);
  ix2 ← aset ix1 c IDX_INVALID;
  let cp1 := Cpudl (size cp - 1) ix2 els (free_cpus cp) in
  '(cp2, old_idx') ← sift_up (S old_idx) cp1 old_idx;
  let cp3 := Cpudl (size cp2) (cpu_to_idx cp2) (elements cp2) (free_cpus cp2 ∪ {[c]}) in
  cpudl_heapify cp3 old_idx'.

(** The insertion branch of [cpudl_set]. *)
Definition cpudl_insert (cp : cpudl) (c : nat) (d : Z) : option cpudl :=
  let sz := S (size cp) in
  els ← aset (elements cp) (sz - 1) (Item 0 c);
  ix ← aset (cpu_to_idx cp) c (Z.of_nat (sz - 1));
  cp1 ← cpudl_change_key (Cpudl sz ix els (free_cpus cp)) (sz - 1) d;
  Some (Cpudl (size cp1) (cpu_to_idx cp1) (elements cp1) (free_cpus cp1 ∖ {[c]})).

Definition cpudl_set (cp : cpudl) (c : nat) (d : Z) (is_valid : bool) : option cpudl :=
  old_idx ← cpu_to_idx cp !! c;
  if negb is_valid then
    if decide (old_idx = IDX_INVALID) then Some cp
    else if decide (0 ≤ old_idx) then cpudl_remove cp c (Z.to_nat old_idx) else None
  else if decide (old_idx = IDX_INVALID) then cpudl_insert cp c d
  else if decide (0 ≤ old_idx) then cpudl_change_key cp (Z.to_nat old_idx) d
  else None.

(** [cpudl_init] for [NR_CPUS] CPUs; [None] is the failed allocation of the
    mask ([-ENOMEM]). *)
Definition cpudl_init (NR_CPUS : nat) (mask_allocated : bool) : option cpudl :=
  if mask_allocated then
    Some (Cpudl 0 (replicate NR_CPUS IDX_INVALID) (replicate NR_CPUS (Item 0 0))
            (set_seq 0 NR_CPUS))
  else None.

Section find.
(** [cpumask_any] of linux/cpumask.h: some CPU of a mask. *)
Context (cpumask_any : gset nat → nat).

(** [cpudl_find]: the best CPU ([-1] for none) and the mask written through
    [later_mask], which is [None] when the caller passes no mask.  A mask the
    function only intersects is returned as the intersections leave it. *)
Definition cpudl_find (cp : cpudl) (deadline : Z) (cpus_allowed cpu_active : gset nat)
    (later_mask : option (gset nat)) : option (Z * option (gset nat)) :=
  let m1 := free_cpus cp ∩ cpus_allowed in
  let m2 := m1 ∩ cpu_active in
  let tail (mask : option (gset nat)) :=
    root ← elements cp !! 0%nat;
    if decide (cpu root ∈ cpus_allowed ∧ dl_time_before deadline (dl root) = true)
    then Some (Z.of_nat (cpu root), (λ m, m ∪ {[cpu root]}) <$> mask)
    else Some (-1, mask) in
  match later_mask with
  | None => tail None
  | Some _ =>
      if decide (m1 = ∅) then tail (Some m1)
      else if decide (m2 = ∅) then tail (Some m2)
      else Some (Z.of_nat (cpumask_any m2), Some m2)
  end.
End find.

(** * The invariant and the abstract map *)

Global Instance array_item_inhabited : Inhabited array_item := populate (Item 0 0).

(** The key in slot [i]. *)
Definition key (cp : cpudl) (i : nat) : Z := dl (elements cp !!! i).

(** The index and the heap are inverse to each other. *)
Record wf (NR : nat) (cp : cpudl) : Prop := {
  wf_els : length (elements cp) = NR;
  wf_idx : length (cpu_to_idx cp) = NR;
  wf_size : (size cp ≤ NR)%nat;
  wf_to i it : (i < size cp)%nat → elements cp !! i = Some it →
    cpu_to_idx cp !! cpu it = Some (Z.of_nat i);
  wf_from c z : cpu_to_idx cp !! c = Some z → z = IDX_INVALID ∨
    ∃ i it, z = Z.of_nat i ∧ (i < size cp)%nat ∧ elements cp !! i = Some it ∧ cpu it = c;
}.

(** Deadlines below 2^63, where [dl_time_before] is the order of the numbers. *)
Definition keys_ok (cp : cpudl) : Prop :=
  ∀ i it, (i < size cp)%nat → elements cp !! i = Some it → 0 ≤ dl it < 2 ^ 63.

Definition heap (k : nat → Z) (n : nat) : Prop :=
  ∀ i, (0 < i < n)%nat → k i ≤ k (parent i).

Definition mask_ok (cp : cpudl) : Prop :=
  ∀ c, c ∈ free_cpus cp ↔ cpu_to_idx cp !! c = Some IDX_INVALID.

Definition cpudl_inv (NR : nat) (cp : cpudl) : Prop :=
  wf NR cp ∧ keys_ok cp ∧ heap (key cp) (size cp) ∧ mask_ok cp.

(** The abstract state: the deadline recorded for a CPU. *)
Definition dl_of (cp : cpudl) (c : nat) : option Z :=
  z ← cpu_to_idx cp !! c;
  if decide (0 ≤ z) then dl_at cp (Z.to_nat z) else None.

(** * Heap order on keys *)

(** Heap order except between [x] and its children. *)
Definition heap_down (k : nat → Z) (n x : nat) : Prop :=
  (∀ i, (0 < i < n)%nat → parent i ≠ x → k i ≤ k (parent i)) ∧
  (∀ i, (0 < i < n)%nat → parent i = x → (0 < x)%nat → k i ≤ k (parent x)).

(** Heap order except between [x] and its parent. *)
Definition heap_up (k : nat → Z) (n x : nat) : Prop :=
  (∀ i, (0 < i < n)%nat → i ≠ x → k i ≤ k (parent i)) ∧
  (∀ i, (0 < i < n)%nat → parent i = x → (0 < x)%nat → k i ≤ k (parent x)).

Lemma parent_lt i : (0 < i)%nat → (parent i < i)%nat.
Proof. unfold parent. dlia. Qed.

Lemma parent_child i x :
  (0 < i)%nat → parent i = x ↔ i = left_child x ∨ i = right_child x.
Proof. unfold parent, left_child, right_child. dlia. Qed.

Lemma heap_down_swap k k' n x c :
  (∀ i, k' i = k (transp c x i)) →
  heap_down k n x → (0 < c < n)%nat → parent c = x → k x < k c →
  (∀ i, (0 < i < n)%nat → parent i = x → k i ≤ k c) →
  heap_down k' n c.
Proof.
  intros Hk [H1 H2] Hc Hp Hlt Hmax. pose proof (parent_lt c ltac:(lia)).
  split; intros i Hi Hpi; pose proof (parent_lt i ltac:(lia)).
  - rewrite !Hk. unfold transp. destruct (decide (i = c)) as [->|Hic].
    + rewrite (decide_False (P := parent c = c)), decide_True by lia. lia.
    + destruct (decide (i = x)) as [->|Hix].
      * rewrite !decide_False by lia. apply H2; [lia|done|lia].
      * rewrite (decide_False (P := parent i = c)) by done. case_decide as Hpx.
        -- by apply Hmax.
        -- by apply H1.
  - intros _. rewrite !Hk. unfold transp. rewrite !(decide_False (P := i = _)) by lia.
    rewrite (decide_False (P := parent c = c)), decide_True by lia.
    rewrite <-Hpi. apply H1; [lia|]. lia.
Qed.

Lemma heap_up_swap k k' n x :
  (∀ i, k' i = k (transp x (parent x) i)) →
  heap_up k n x → (0 < x < n)%nat → k (parent x) < k x →
  heap_up k' n (parent x).
Proof.
  intros Hk [H1 H2] Hx Hlt. pose proof (parent_lt x ltac:(lia)).
  split; intros i Hi Hpi; pose proof (parent_lt i ltac:(lia)).
  - rewrite !Hk. unfold transp. destruct (decide (i = x)) as [->|Hix].
    + rewrite (decide_False (P := parent x = x)), decide_True by lia. lia.
    + rewrite (decide_False (P := i = parent x)) by done.
      case_decide as Ha; [apply H2; [lia|done|lia]|].
      case_decide as Hb; [|by apply H1].
      specialize (H1 i Hi Hix). rewrite Hb in H1. lia.
  - intros Hp0. pose proof (parent_lt (parent x) Hp0).
    rewrite !Hk. unfold transp.
    rewrite (decide_False (P := parent (parent x) = x)),
      (decide_False (P := parent (parent x) = parent x)) by lia.
    specialize (H1 (parent x) ltac:(lia) ltac:(lia)) as Hpp.
    destruct (decide (i = x)) as [->|Hix]; [lia|].
    rewrite decide_False by lia. specialize (H1 i Hi Hix). rewrite Hpi in H1. lia.
Qed.

Lemma heap_down_done k n x :
  heap_down k n x → (∀ i, (0 < i < n)%nat → parent i = x → k i ≤ k x) → heap k n.
Proof.
  intros [H1 _] H i Hi. destruct (decide (parent i = x)) as [E|E].
  - rewrite E. by apply H.
  - by apply H1.
Qed.

Lemma heap_up_done k n x :
  heap_up k n x → ((0 < x < n)%nat → k x ≤ k (parent x)) → heap k n.
Proof.
  intros [H1 _] H i Hi. destruct (decide (i = x)) as [->|E]; [by apply H|by apply H1].
Qed.

(** Changing the key of one slot of a heap. *)
Lemma heap_change k k' n x :
  heap k n → (∀ i, (i < n)%nat → i ≠ x → k' i = k i) → (x < n)%nat →
  (k' x ≤ k x → heap_down k' n x) ∧ (k x ≤ k' x → heap_up k' n x) ∧
  ((0 < x)%nat → k' (parent x) < k' x → heap_up k' n x) ∧
  (((0 < x)%nat → k' x ≤ k' (parent x)) → heap_down k' n x).
Proof.
  intros Hh Hk Hx.
  assert (∀ i, (0 < i < n)%nat → parent i ≠ x → i ≠ x → k' i ≤ k' (parent i)) as Hsame.
  { intros i Hi ? ?. pose proof (parent_lt i ltac:(lia)). rewrite !Hk by lia. by apply Hh. }
  assert (∀ i, (0 < i < n)%nat → parent i = x → (0 < x)%nat → k' i ≤ k' (parent x)) as Hgp.
  { intros i Hi Hp Hx0. pose proof (parent_lt i ltac:(lia)). pose proof (parent_lt x Hx0).
    rewrite !Hk by lia. pose proof (Hh i Hi) as Ha. rewrite Hp in Ha.
    pose proof (Hh x ltac:(lia)). lia. }
  assert ((0 < x)%nat → k' (parent x) = k (parent x) ∧ k x ≤ k (parent x)) as Hpx.
  { intros Hx0. pose proof (parent_lt x Hx0). split; [apply Hk; lia|apply Hh; lia]. }
  assert (∀ i, (0 < i < n)%nat → parent i = x → k' i = k i ∧ k i ≤ k x ∧ i ≠ x) as Hch.
  { intros i Hi Hp. pose proof (parent_lt i ltac:(lia)). split; [apply Hk; lia|].
    pose proof (Hh i Hi) as Ha. rewrite Hp in Ha. lia. }
  split_and!.
  - intros Hle. split; [|done]. intros i Hi Hp. destruct (decide (i = x)) as [->|].
    + destruct (Hpx ltac:(lia)). lia.
    + by apply Hsame.
  - intros Hle. split; [|done]. intros i Hi Hix. destruct (decide (parent i = x)) as [E|].
    + rewrite E. destruct (Hch i Hi E) as (? & ? & ?). lia.
    + by apply Hsame.
  - intros Hx0 Hlt. destruct (Hpx Hx0). split; [|done]. intros i Hi Hix.
    destruct (decide (parent i = x)) as [E|]; [|by apply Hsame].
    rewrite E. destruct (Hch i Hi E) as (? & ? & ?). lia.
  - intros Hle. split; [|done]. intros i Hi Hp. destruct (decide (i = x)) as [->|].
    + apply Hle. lia.
    + by apply Hsame.
Qed.

(** * The operations on the concrete structure *)

Lemma dl_time_before_lt a b :
  0 ≤ a < 2 ^ 63 → 0 ≤ b < 2 ^ 63 → dl_time_before a b = bool_decide (a < b).
Proof.
  intros. unfold dl_time_before. rewrite swrap_wrap, s64_small by width.
  apply bool_decide_ext. lia.
Qed.

Lemma key_lookup cp i it : elements cp !! i = Some it → key cp i = dl it.
Proof. intros H. unfold key. by rewrite (list_lookup_total_correct _ _ _ H). Qed.

Lemma dl_at_key cp i : (i < length (elements cp))%nat → dl_at cp i = Some (key cp i).
Proof.
  intros H. destruct (lookup_lt_is_Some_2 _ _ H) as [it E].
  unfold dl_at. rewrite E. simpl. by rewrite (key_lookup _ _ _ E).
Qed.

Lemma keys_ok_key NR cp i : wf NR cp → keys_ok cp → (i < size cp)%nat → 0 ≤ key cp i < 2 ^ 63.
Proof.
  intros Hwf Hk Hi. destruct (lookup_lt_is_Some_2 (elements cp) i) as [it E].
  { rewrite (wf_els _ _ Hwf). pose proof (wf_size _ _ Hwf). lia. }
  rewrite (key_lookup _ _ _ E). by eapply Hk.
Qed.

Lemma wf_cpu_lt NR cp i it :
  wf NR cp → (i < size cp)%nat → elements cp !! i = Some it → (cpu it < NR)%nat.
Proof.
  intros Hwf Hi E. rewrite <-(wf_idx _ _ Hwf). eapply lookup_lt_Some, wf_to; eauto.
Qed.

(** What an exchange inside the heap keeps. *)
Definition same_content (NR : nat) (cp cp' : cpudl) : Prop :=
  wf NR cp' ∧ keys_ok cp' ∧ size cp' = size cp ∧ free_cpus cp' = free_cpus cp ∧
  (∀ c, dl_of cp' c = dl_of cp c) ∧
  (∀ c, cpu_to_idx cp' !! c = Some IDX_INVALID ↔ cpu_to_idx cp !! c = Some IDX_INVALID).

Lemma same_content_refl NR cp : wf NR cp → keys_ok cp → same_content NR cp cp.
Proof. intros. by split_and!. Qed.

Lemma same_content_trans NR cp1 cp2 cp3 :
  same_content NR cp1 cp2 → same_content NR cp2 cp3 → same_content NR cp1 cp3.
Proof.
  intros (_ & _ & S1 & F1 & D1 & I1) (W & K & S2 & F2 & D2 & I2).
  split_and!; [done|done|congruence|congruence|intros c; by rewrite D2, D1|].
  intros c. by rewrite I2.
Qed.

(** The arrays of the heap with two slots exchanged: the index of every CPU follows its
    slot. *)
Section exchange.
Context (NR : nat) (cp : cpudl) (a b : nat) (ea eb : array_item) (els : list array_item) (ix : list Z).
Context (Hwf : wf NR cp) (Ha : (a < size cp)%nat) (Hb : (b < size cp)%nat).
Context (Ea : elements cp !! a = Some ea) (Eb : elements cp !! b = Some eb).
Context (Hels : ∀ i, els !! i = elements cp !! transp a b i).
Context (Hix : ∀ c, ix !! c = cpu_to_idx cp !! transp (cpu ea) (cpu eb) c).

Lemma exchange_index i it : (i < size cp)%nat → elements cp !! i = Some it → ix !! cpu it = Some (Z.of_nat (transp a b i)).
Proof using Hwf Ha Hb Ea Eb Hix.
  clear Hels. intros Hi Ei. rewrite Hix. pose proof (wf_to _ _ Hwf _ _ Ha Ea) as Ta. pose proof (wf_to _ _ Hwf _ _ Hb Eb) as Tb.
  pose proof (wf_to _ _ Hwf _ _ Hi Ei) as Ti. destruct (decide (i = a)) as [->|Hia]; [|destruct (decide (i = b)) as [->|Hib]].
  - rewrite Ea in Ei. injection Ei as <-. unfold transp. rewrite !decide_True by done. done.
  - rewrite Eb in Ei. injection Ei as <-. unfold transp. rewrite (decide_True (P := b = b)) by done.
    repeat case_decide; subst; try done. congruence.
  - unfold transp. rewrite !decide_False; [done|done|done| |]; intros E; rewrite E in Ti; simplify_eq; lia.
Qed.

Lemma exchange_cpu c : (c < NR)%nat →
  (cpu_to_idx cp !! c = Some IDX_INVALID ∧ ix !! c = Some IDX_INVALID) ∨
  ∃ i it, (i < size cp)%nat ∧ elements cp !! i = Some it ∧ cpu it = c ∧
    cpu_to_idx cp !! c = Some (Z.of_nat i) ∧
    ix !! c = Some (Z.of_nat (transp a b i)) ∧ els !! transp a b i = Some it.
Proof.
  intros Hc. pose proof (wf_to _ _ Hwf _ _ Ha Ea) as Ta. pose proof (wf_to _ _ Hwf _ _ Hb Eb) as Tb.
  pose proof (wf_idx _ _ Hwf) as Hli. destruct (lookup_lt_is_Some_2 (cpu_to_idx cp) c) as [z Hz]; [lia|].
  destruct (wf_from _ _ Hwf _ _ Hz) as [->|(i & it & -> & Hi & Ei & <-)].
  - left. split; [done|]. rewrite Hix. unfold transp.
    repeat case_decide; subst; [rewrite Ta in Hz|rewrite Tb in Hz|done];
      unfold IDX_INVALID in Hz; simplify_eq; lia.
  - right. exists i, it. rewrite Hels, transp_invol. pose proof (exchange_index i it Hi Ei). auto 7.
Qed.
End exchange.

Lemma exchange_spec NR cp a b :
  wf NR cp → keys_ok cp → (a < size cp)%nat → (b < size cp)%nat →
  ∃ cp', cpudl_exchange cp a b = Some cp' ∧ same_content NR cp cp' ∧
    (∀ i, key cp' i = key cp (transp a b i)).
Proof.
  intros Hwf Hk Ha Hb. pose proof (wf_size _ _ Hwf) as Hsz.
  pose proof (wf_els _ _ Hwf) as Hle. pose proof (wf_idx _ _ Hwf) as Hli.
  unfold cpudl_exchange.
  destruct (lookup_lt_is_Some_2 (elements cp) a) as [ea Ea]; [lia|].
  destruct (lookup_lt_is_Some_2 (elements cp) b) as [eb Eb]; [lia|].
  rewrite Ea, Eb. simpl.
  pose proof (wf_cpu_lt _ _ _ _ Hwf Ha Ea) as Hca. pose proof (wf_cpu_lt _ _ _ _ Hwf Hb Eb) as Hcb.
  destruct (aswap_spec (elements cp) a b) as (els & -> & Hlen & Hels); [lia..|]. simpl.
  destruct (aswap_spec (cpu_to_idx cp) (cpu ea) (cpu eb)) as (ix & -> & Hleni & Hix); [lia..|].
  simpl. eexists. split; [done|].
  assert (∀ i, (transp a b i < size cp)%nat ↔ (i < size cp)%nat) as Htl.
  { intros i. unfold transp. repeat case_decide; subst; tauto. }
  pose proof (exchange_index NR cp a b ea eb ix Hwf Ha Hb Ea Eb Hix) as Hix'.
  pose proof (exchange_cpu NR cp a b ea eb els ix Hwf Ha Hb Ea Eb Hels Hix) as Hcls.
  assert (∀ c z, ix !! c = Some z → (c < NR)%nat) as Hlt.
  { intros c z Hc. apply lookup_lt_Some in Hc. lia. }
  assert (∀ c, ¬ (c < NR)%nat → cpu_to_idx cp !! c = None ∧ ix !! c = None) as Hge.
  { intros c Hc. split; apply lookup_ge_None; lia. }
  split; [|intros i; unfold key; simpl; rewrite !list_lookup_total_alt; by rewrite Hels].
  split_and!; simpl; try done.
  - split; simpl; [lia..| |].
    + intros i it Hi E. rewrite Hels in E. apply Htl in Hi.
      rewrite (Hix' _ _ Hi E). by rewrite transp_invol.
    + intros c z Hc. destruct (Hcls c) as [[_ E]|(i & it & ? & ? & ? & ? & E & ?)]; [by eapply Hlt| |].
      * left. congruence.
      * right. exists (transp a b i), it. rewrite Htl. split; [congruence|done].
  - intros i it Hi E. simpl in *. rewrite Hels in E. apply Htl in Hi. by eapply Hk.
  - intros c. unfold dl_of, dl_at. simpl. destruct (decide (c < NR)%nat) as [Hc|Hc].
    + destruct (Hcls c Hc) as [[-> ->]|(i & it & ? & E1 & ? & -> & -> & E2)]; [done|]. simpl.
      rewrite !decide_True, !Nat2Z.id by lia. by rewrite E1, E2.
    + by destruct (Hge c Hc) as [-> ->].
  - intros c. destruct (decide (c < NR)%nat) as [Hc|Hc].
    + destruct (Hcls c Hc) as [[-> ->]|(i & it & ? & E1 & ? & -> & -> & E2)]; [done|].
      unfold IDX_INVALID. split; intros [=]; lia.
    + by destruct (Hge c Hc) as [-> ->].
Qed.

Lemma pick_largest_spec NR cp idx :
  wf NR cp → keys_ok cp → (idx < size cp)%nat →
  ∃ m, pick_largest cp idx = Some m ∧
    (∀ i, (0 < i < size cp)%nat → parent i = idx → key cp i ≤ key cp m) ∧
    (m = idx ∨ (0 < m < size cp)%nat ∧ parent m = idx ∧ key cp idx < key cp m).
Proof.
  intros Hwf Hk Hi. pose proof (wf_size _ _ Hwf). pose proof (wf_els _ _ Hwf).
  assert (∀ i, (i < size cp)%nat → dl_at cp i = Some (key cp i)) as Hd.
  { intros. apply dl_at_key. lia. }
  pose proof (keys_ok_key _ _ idx Hwf Hk Hi) as Ki.
  pose proof (keys_ok_key _ _ (left_child idx) Hwf Hk) as Kl.
  pose proof (keys_ok_key _ _ (right_child idx) Hwf Hk) as Kr.
  assert (∀ i, (0 < i)%nat → parent i = idx ↔ i = left_child idx ∨ i = right_child idx) as Hch.
  { intros. by apply parent_child. }
  assert (0 < left_child idx)%nat by (unfold left_child; lia).
  assert (left_child idx < right_child idx)%nat by (unfold left_child, right_child; lia).
  unfold pick_largest.
  (* after the first test *)
  assert (∃ m1, (if decide (left_child idx < size cp)%nat then
      d ← dl_at cp idx; dl' ← dl_at cp (left_child idx);
      Some (if dl_time_before d dl' then left_child idx else idx)
     else Some idx) = Some m1 ∧
     ((left_child idx < size cp)%nat → key cp (left_child idx) ≤ key cp m1) ∧
     key cp idx ≤ key cp m1 ∧ (m1 < size cp)%nat ∧
     (m1 = idx ∨ m1 = left_child idx ∧ key cp idx < key cp m1)) as
    (m1 & -> & Hl & Hge & Hm1 & Hc1).
  { case_decide as Hls.
    - rewrite !Hd by done. cbn [mbind option_bind]. rewrite dl_time_before_lt by auto.
      eexists. split; [done|]. case_bool_decide; split_and!; try lia; auto.
    - exists idx. split_and!; [done|lia..|by left]. }
  cbn [mbind option_bind].
  pose proof (keys_ok_key _ _ m1 Hwf Hk Hm1) as Km.
  case_decide as Hrs.
  - rewrite !Hd by done. cbn [mbind option_bind]. rewrite dl_time_before_lt by auto.
    eexists. split; [done|]. case_bool_decide.
    + split; [|right; split_and!; [lia|lia|apply Hch; [lia|by right]|lia]].
      intros i ? [->| ->]%Hch; lia.
    + split; [intros i ? [->| ->]%Hch; lia|].
      destruct Hc1 as [->|[-> ?]]; [by left|right]. split_and!; [lia|lia|apply Hch; [lia|by left]|lia].
  - exists m1. split; [done|]. split; [intros i ? [->| ->]%Hch; lia|].
    destruct Hc1 as [->|[-> ?]]; [by left|right]. split_and!; [lia|lia|apply Hch; [lia|by left]|lia].
Qed.

Lemma heapify_loop_spec NR fuel cp idx :
  wf NR cp → keys_ok cp → (idx < size cp)%nat → (size cp - idx < fuel)%nat →
  heap_down (key cp) (size cp) idx →
  ∃ cp', heapify_loop fuel cp idx = Some cp' ∧ same_content NR cp cp' ∧
    heap (key cp') (size cp').
Proof.
  revert cp idx. induction fuel as [|fuel IH]; intros cp idx Hwf Hk Hi Hf Hh; [lia|].
  cbn [heapify_loop].
  destruct (pick_largest_spec NR cp idx Hwf Hk Hi) as (m & -> & Hmax & Hm).
  cbn [mbind option_bind]. case_decide as E.
  { exists cp. split; [done|]. split; [by apply same_content_refl|]. subst m.
    by eapply heap_down_done. }
  destruct Hm as [|(Hm & Hp & Hlt)]; [done|]. pose proof (parent_lt m ltac:(lia)).
  destruct (exchange_spec NR cp m idx) as (cp1 & -> & Hs & Hkey); [done|done|lia|done|].
  cbn [mbind option_bind]. destruct Hs as (Hwf1 & Hk1 & Hs1 & Hrest).
  destruct (IH cp1 m) as (cp' & -> & Hs' & Hh'); [done|done|lia|lia| |].
  { rewrite Hs1. eapply heap_down_swap; eauto; lia. }
  exists cp'. split; [done|]. split; [|done].
  eapply same_content_trans; [|exact Hs']. done.
Qed.

Lemma heapify_spec NR cp idx :
  wf NR cp → keys_ok cp → (idx < size cp)%nat →
  heap_down (key cp) (size cp) idx →
  ∃ cp', cpudl_heapify cp idx = Some cp' ∧ same_content NR cp cp' ∧
    heap (key cp') (size cp').
Proof. intros. apply heapify_loop_spec; auto. lia. Qed.

Lemma sift_up_spec NR fuel cp idx :
  wf NR cp → keys_ok cp → (idx < size cp)%nat → (idx < fuel)%nat →
  heap_up (key cp) (size cp) idx →
  ∃ cp' idx', sift_up fuel cp idx = Some (cp', idx') ∧ same_content NR cp cp' ∧
    (idx' < size cp')%nat ∧ heap (key cp') (size cp').
Proof.
  revert cp idx. induction fuel as [|fuel IH]; intros cp idx Hwf Hk Hi Hf Hh; [lia|].
  cbn [sift_up]. pose proof (wf_size _ _ Hwf). pose proof (wf_els _ _ Hwf).
  assert (((0 < idx < size cp)%nat → key cp idx ≤ key cp (parent idx)) →
    ∃ cp' idx', Some (cp, idx) = Some (cp', idx') ∧ same_content NR cp cp' ∧
    (idx' < size cp')%nat ∧ heap (key cp') (size cp')) as Hstop.
  { intros Hle. exists cp, idx. split; [done|]. split; [by apply same_content_refl|].
    split; [done|]. by eapply heap_up_done. }
  case_decide as Hpos; [|apply Hstop; lia]. pose proof (parent_lt idx Hpos).
  rewrite !dl_at_key by lia. cbn [mbind option_bind].
  rewrite dl_time_before_lt by (eapply keys_ok_key; eauto; lia).
  case_bool_decide as Hlt; [|apply Hstop; lia].
  destruct (exchange_spec NR cp idx (parent idx)) as (cp1 & -> & Hs & Hkey); [done|done|lia|lia|].
  cbn [mbind option_bind]. destruct Hs as (Hwf1 & Hk1 & Hs1 & Hrest).
  destruct (IH cp1 (parent idx)) as (cp' & idx' & -> & Hs' & Hh'); [done|done|lia|lia| |].
  { rewrite Hs1. eapply heap_up_swap; eauto. }
  exists cp', idx'. split; [done|]. split; [|done].
  eapply same_content_trans; [|exact Hs']. done.
Qed.

(** Writing the key of a heap slot. *)
Lemma set_dl_spec NR cp idx it d :
  wf NR cp → keys_ok cp → (idx < size cp)%nat → elements cp !! idx = Some it →
  0 ≤ d < 2 ^ 63 →
  ∃ cp', set_dl cp idx d = Some cp' ∧ wf NR cp' ∧ keys_ok cp' ∧
    size cp' = size cp ∧ cpu_to_idx cp' = cpu_to_idx cp ∧ free_cpus cp' = free_cpus cp ∧
    key cp' idx = d ∧ (∀ i, i ≠ idx → key cp' i = key cp i) ∧
    (∀ c, dl_of cp' c = if decide (c = cpu it) then Some d else dl_of cp c).
Proof.
  intros Hwf Hk Hi E Hd. pose proof (wf_size _ _ Hwf). pose proof (wf_els _ _ Hwf) as Hle.
  unfold set_dl. rewrite E. simpl. rewrite aset_lt by lia. simpl.
  eexists. split; [done|]. unfold set_elements, key. simpl.
  assert (∀ i x, <[idx := Item d (cpu it)]> (elements cp) !! i = Some x →
    ∃ y, elements cp !! i = Some y ∧ cpu x = cpu y ∧ (i = idx ∧ dl x = d ∨ i ≠ idx ∧ x = y)) as Hx.
  { intros i x [(<- & <- & _)|[? ?]]%list_lookup_insert_Some; eauto 10. }
  split_and!; try done.
  - split; simpl; [by rewrite length_insert|apply Hwf|done| |].
    + intros i x Hix (y & Ey & -> & _)%Hx. by eapply wf_to.
    + intros c z Hz. destruct (wf_from _ _ Hwf _ _ Hz) as [|(i & x & -> & ? & Ex & <-)]; [by left|right].
      destruct (decide (i = idx)) as [->|].
      * eexists _, _. split; [done|]. split; [done|].
        rewrite list_lookup_insert_eq by lia. split; [done|]. simpl. congruence.
      * exists i, x. by rewrite list_lookup_insert_ne.
  - intros i x Hix (y & Ey & _ & [[-> ->]|[_ ->]])%Hx; [done|]. by eapply Hk.
  - by rewrite list_lookup_total_insert_eq by lia.
  - intros i Hne. by rewrite list_lookup_total_insert_ne.
  - intros c. unfold dl_of, dl_at. simpl. case_decide as Hc.
    + subst c. rewrite (wf_to _ _ Hwf _ _ Hi E). simpl.
      rewrite decide_True, Nat2Z.id, list_lookup_insert_eq by lia. done.
    + destruct (cpu_to_idx cp !! c) as [z|] eqn:Hz; [|done]. simpl.
      destruct (wf_from _ _ Hwf _ _ Hz) as [->|(i & x & -> & ? & Ex & <-)]; [done|].
      rewrite !decide_True, Nat2Z.id by lia. rewrite list_lookup_insert_ne; [done|]. congruence.
Qed.

(** What [cpudl_change_key] and the whole update guarantee. *)
Definition updates (NR : nat) (cp cp' : cpudl) (c : nat) (d : option Z) : Prop :=
  wf NR cp' ∧ keys_ok cp' ∧ heap (key cp') (size cp') ∧
  ∀ c', dl_of cp' c' = if decide (c' = c) then d else dl_of cp c'.

Lemma change_key_spec NR cp idx it d :
  wf NR cp → keys_ok cp → heap (key cp) (size cp) → (idx < size cp)%nat →
  elements cp !! idx = Some it → 0 ≤ d < 2 ^ 63 →
  ∃ cp', cpudl_change_key cp idx d = Some cp' ∧ updates NR cp cp' (cpu it) (Some d) ∧
    free_cpus cp' = free_cpus cp ∧
    (∀ c, cpu_to_idx cp' !! c = Some IDX_INVALID ↔ cpu_to_idx cp !! c = Some IDX_INVALID).
Proof.
  intros Hwf Hk Hh Hi E Hd. pose proof (wf_size _ _ Hwf). pose proof (wf_els _ _ Hwf) as Hle.
  unfold cpudl_change_key. rewrite dl_at_key by lia. cbn [mbind option_bind].
  rewrite dl_time_before_lt by (try done; eapply keys_ok_key; eauto).
  destruct (set_dl_spec NR cp idx it d) as
    (cp1 & -> & Hwf1 & Hk1 & Hs1 & Hx1 & Hf1 & Hkd & Hko & Hdl); [done..|].
  destruct (heap_change (key cp) (key cp1) (size cp) idx) as (Hdn & Hup & _ & _);
    [done|by intros; apply Hko|done|].
  assert (∀ cp', same_content NR cp1 cp' → heap (key cp') (size cp') →
    updates NR cp cp' (cpu it) (Some d) ∧ free_cpus cp' = free_cpus cp ∧
    (∀ c, cpu_to_idx cp' !! c = Some IDX_INVALID ↔ cpu_to_idx cp !! c = Some IDX_INVALID)) as Hend.
  { intros cp' (W & K & Sz & Fr & D & I) Hheap. split_and!; [|congruence|].
    - split_and!; [done..|]. intros c'. by rewrite D, Hdl.
    - intros c. by rewrite I, Hx1. }
  case_bool_decide as Hlt; cbn [mbind option_bind].
  - destruct (heapify_spec NR cp1 idx) as (cp' & -> & Hs & Hhp); [done|done|lia| |eauto].
    rewrite Hs1. apply Hdn. lia.
  - destruct (sift_up_spec NR (S idx) cp1 idx) as (cp' & j & -> & Hs & _ & Hhp);
      [done|done|lia|lia| |cbn; eauto].
    rewrite Hs1. apply Hup. lia.
Qed.

(** Only the mask differs. *)
Definition with_free (cp : cpudl) (f : gset nat) : cpudl :=
  Cpudl (size cp) (cpu_to_idx cp) (elements cp) f.

Lemma wf_with_free NR cp f : wf NR cp → wf NR (with_free cp f).
Proof. intros []. by split. Qed.

(** A CPU outside the heap leaves room for it. *)
Lemma size_lt NR cp c :
  wf NR cp → cpu_to_idx cp !! c = Some IDX_INVALID → (size cp < NR)%nat.
Proof.
  intros Hwf Hc. pose proof (wf_size _ _ Hwf). pose proof (wf_els _ _ Hwf) as Hle.
  set (L := cpu <$> take (size cp) (elements cp)).
  assert (∀ i c', L !! i = Some c' → (i < size cp)%nat ∧
    cpu_to_idx cp !! c' = Some (Z.of_nat i)) as HL.
  { intros i c' [it [-> [E Hi]%lookup_take_Some]]%list_lookup_fmap_Some.
    split; [done|]. by eapply wf_to. }
  assert (NoDup (c :: L)) as Hnd.
  { apply NoDup_cons. split.
    - intros [i Hi]%list_elem_of_lookup. destruct (HL _ _ Hi) as [_ E].
      rewrite Hc in E. injection E as E. unfold IDX_INVALID in E. lia.
    - apply NoDup_alt. intros i j c' Hi Hj.
      destruct (HL _ _ Hi) as [_ E1], (HL _ _ Hj) as [_ E2].
      rewrite E1 in E2. injection E2 as E2. lia. }
  assert (c :: L ⊆+ seq 0 NR) as Hsub.
  { apply NoDup_submseteq; [done|]. intros x Hx. apply elem_of_seq.
    rewrite <-(wf_idx _ _ Hwf). split; [lia|].
    apply list_elem_of_In in Hx. destruct Hx as [<-|Hx]; [by eapply lookup_lt_Some|].
    apply list_elem_of_In, list_elem_of_lookup in Hx as [i Hi].
    destruct (HL _ _ Hi) as [_ E]. by eapply lookup_lt_Some. }
  apply submseteq_length in Hsub. simpl in Hsub. unfold L in Hsub.
  rewrite length_fmap, length_take, length_seq in Hsub. lia.
Qed.

Lemma insert_slot_wf NR cp c :
  wf NR cp → keys_ok cp → heap (key cp) (size cp) →
  cpu_to_idx cp !! c = Some IDX_INVALID → (size cp < NR)%nat →
  let cp1 := Cpudl (S (size cp)) (<[c := Z.of_nat (size cp)]> (cpu_to_idx cp))
               (<[size cp := Item 0 c]> (elements cp)) (free_cpus cp) in
  wf NR cp1 ∧ keys_ok cp1 ∧ heap (key cp1) (size cp1) ∧
  ∀ c', c' ≠ c → dl_of cp1 c' = dl_of cp c'.
Proof.
  intros Hwf Hk Hh Hc Hsz cp1. pose proof (wf_els _ _ Hwf) as Hle. pose proof (wf_idx _ _ Hwf) as Hli.
  pose proof (lookup_lt_Some _ _ _ Hc) as Hcl.
  assert (∀ i it, (i < size cp)%nat → elements cp !! i = Some it → cpu it ≠ c) as Hnc.
  { intros i it Hi E <-. rewrite (wf_to _ _ Hwf _ _ Hi E) in Hc.
    injection Hc as Hc. unfold IDX_INVALID in Hc. lia. }
  split_and!.
  - split; simpl; [by rewrite length_insert|by rewrite length_insert|lia| |].
    + intros i it Hi [(<- & <- & _)|[Hne E]]%list_lookup_insert_Some; simpl.
      * by rewrite list_lookup_insert_eq by lia.
      * rewrite list_lookup_insert_ne by (apply not_eq_sym; eapply Hnc; [|done]; lia).
        eapply wf_to; [done|lia|done].
    + intros c' z [(<- & <- & _)|[Hne E]]%list_lookup_insert_Some; [right|].
      * exists (size cp), (Item 0 c). rewrite list_lookup_insert_eq by lia. auto with lia.
      * destruct (wf_from _ _ Hwf _ _ E) as [|(i & it & -> & ? & ? & ?)]; [by left|right].
        exists i, it. rewrite list_lookup_insert_ne by lia. auto with lia.
  - intros i it Hi [(<- & <- & _)|[Hne E]]%list_lookup_insert_Some; simpl in *; [pow2; lia|].
    eapply Hk; [|exact E]. lia.
  - intros i Hi. unfold key, cp1. simpl in *. pose proof (parent_lt i ltac:(lia)).
    rewrite (list_lookup_total_insert_ne _ _ (parent i)) by lia.
    destruct (decide (i = size cp)) as [->|].
    + rewrite list_lookup_total_insert_eq by lia. simpl.
      eapply (keys_ok_key _ cp); eauto.
    + rewrite list_lookup_total_insert_ne by done. apply Hh. lia.
  - intros c' Hne. unfold dl_of, dl_at, cp1. simpl. rewrite list_lookup_insert_ne by done.
    destruct (cpu_to_idx cp !! c') as [z|] eqn:Hz; [|done]. simpl.
    destruct (wf_from _ _ Hwf _ _ Hz) as [->|(i & x & -> & ? & Ex & <-)]; [done|].
    rewrite !decide_True, Nat2Z.id by lia. by rewrite list_lookup_insert_ne by lia.
Qed.

(** The removal step before the heap is repaired. *)
Lemma remove_slot_wf NR cp i it last :
  wf NR cp → keys_ok cp → (i < size cp)%nat →
  elements cp !! i = Some it → elements cp !! (size cp - 1)%nat = Some last →
  let cp1 := Cpudl (size cp - 1)
               (<[cpu it := IDX_INVALID]> (<[cpu last := Z.of_nat i]> (cpu_to_idx cp)))
               (<[i := last]> (elements cp)) (free_cpus cp) in
  wf NR cp1 ∧ keys_ok cp1 ∧
  (∀ c', dl_of cp1 c' = if decide (c' = cpu it) then None else dl_of cp c') ∧
  (∀ c', cpu_to_idx cp1 !! c' = Some IDX_INVALID ↔
     c' = cpu it ∨ cpu_to_idx cp !! c' = Some IDX_INVALID).
Proof.
  intros Hwf Hk Hi E El cp1. pose proof (wf_els _ _ Hwf) as Hle. pose proof (wf_idx _ _ Hwf) as Hli.
  pose proof (wf_size _ _ Hwf).
  pose proof (wf_to _ _ Hwf _ _ Hi E) as Ti. pose proof (wf_to _ _ Hwf (size cp - 1)%nat last ltac:(lia) El) as Tl.
  pose proof (lookup_lt_Some _ _ _ Ti). pose proof (lookup_lt_Some _ _ _ Tl).
  assert (cpu last = cpu it ↔ i = (size cp - 1)%nat) as Hsame.
  { split; [intros Hc; rewrite Hc, Ti in Tl; injection Tl; lia|]. intros ->. congruence. }
  (* every other CPU keeps its slot *)
  assert (∀ c' , c' ≠ cpu it → c' ≠ cpu last →
    cpu_to_idx cp1 !! c' = cpu_to_idx cp !! c') as Hoth.
  { intros. unfold cp1. simpl. by rewrite !list_lookup_insert_ne. }
  assert (cpu_to_idx cp1 !! cpu it = Some IDX_INVALID) as Hit.
  { unfold cp1. simpl. by rewrite list_lookup_insert_eq by (rewrite length_insert; lia). }
  assert (cpu last ≠ cpu it → cpu_to_idx cp1 !! cpu last = Some (Z.of_nat i)) as Hlast.
  { intros. unfold cp1. simpl. by rewrite list_lookup_insert_ne, list_lookup_insert_eq. }
  assert (∀ c', c' ≠ cpu it → c' ≠ cpu last →
    cpu_to_idx cp !! c' = None ∨ cpu_to_idx cp !! c' = Some IDX_INVALID ∨
    ∃ j x, cpu_to_idx cp !! c' = Some (Z.of_nat j) ∧ (j < size cp - 1)%nat ∧ j ≠ i ∧
      elements cp !! j = Some x ∧ cpu x = c') as Hcls.
  { intros c' Hq1 Hq2. destruct (cpu_to_idx cp !! c') as [z|] eqn:Hz; [right|by left].
    destruct (wf_from _ _ Hwf _ _ Hz) as [->|(j & x & -> & ? & Ex & Hx)]; [by left|right].
    exists j, x. split_and!; [done| |congruence|done|done].
    destruct (decide (j = size cp - 1)%nat) as [->|]; [|lia]. congruence. }
  split_and!.
  - split; simpl; [by rewrite length_insert|by rewrite !length_insert|lia| |].
    + intros j x Hj [(<- & <- & _)|[Hne Ex]]%list_lookup_insert_Some.
      { apply Hlast. rewrite Hsame. lia. }
      pose proof (wf_to _ _ Hwf j x ltac:(lia) Ex) as Tx.
      change (cpu_to_idx cp1 !! cpu x = Some (Z.of_nat j)).
      rewrite Hoth; [done|intros Hc; rewrite Hc in Tx; simplify_eq; lia..].
    + intros c' z Hz. change (cpu_to_idx cp1 !! c' = Some z) in Hz.
      destruct (decide (c' = cpu it)) as [->|Hn1]; [left; congruence|].
      destruct (decide (c' = cpu last)) as [->|Hn2].
      { right. exists i, last. rewrite Hlast in Hz by done. rewrite Hsame in Hn1.
        rewrite list_lookup_insert_eq by lia. split_and!; [congruence|lia|done|done]. }
      rewrite Hoth in Hz by done.
      destruct (Hcls c' Hn1 Hn2) as [?|[?|(j & x & ? & ? & ? & ? & ?)]]; [congruence|left; congruence|right].
      exists j, x. rewrite list_lookup_insert_ne by done. split_and!; [congruence|done..].
  - intros j x Hj [(<- & <- & _)|[Hne Ex]]%list_lookup_insert_Some; simpl in *.
    + eapply Hk; [|exact El]. lia.
    + eapply Hk; [|exact Ex]. lia.
  - intros c'. unfold dl_of. case_decide as Hc; [subst c'; by rewrite Hit|].
    destruct (decide (c' = cpu last)) as [->|Hn2].
    + rewrite (Hlast Hc), Tl. simpl. rewrite !decide_True, !Nat2Z.id by lia.
      unfold dl_at. simpl. by rewrite list_lookup_insert_eq, El by lia.
    + rewrite Hoth by done.
      destruct (Hcls c' Hc Hn2) as [->|[->|(j & x & -> & ? & ? & Ex & ?)]]; [done..|]. simpl.
      rewrite !decide_True, !Nat2Z.id by lia. unfold dl_at. simpl. by rewrite list_lookup_insert_ne.
  - intros c'. destruct (decide (c' = cpu it)) as [->|Hn1]; [by rewrite Hit; tauto|].
    destruct (decide (c' = cpu last)) as [->|Hn2].
    + rewrite (Hlast Hn1), Tl. unfold IDX_INVALID. naive_solver lia.
    + rewrite Hoth by done. tauto.
Qed.

Lemma heap_prefix k n m : heap k n → (m ≤ n)%nat → heap k m.
Proof. intros H ? i ?. apply H. lia. Qed.

Lemma heap_is_down k n x : heap k n → heap_down k n x.
Proof.
  intros H. split; [auto|]. intros i Hi Hp Hx. pose proof (parent_lt i ltac:(lia)).
  pose proof (H i Hi) as Ha. rewrite Hp in Ha. pose proof (H x ltac:(lia)). lia.
Qed.

(** Repairing the heap after the last element took slot [i]. *)
Lemma repair_spec NR cp1 k i :
  wf NR cp1 → keys_ok cp1 → (i < size cp1)%nat →
  heap k (size cp1) → (∀ j, (j < size cp1)%nat → j ≠ i → key cp1 j = k j) →
  ∃ cp2 i', sift_up (S i) cp1 i = Some (cp2, i') ∧ same_content NR cp1 cp2 ∧
    (i' < size cp2)%nat ∧ heap_down (key cp2) (size cp2) i'.
Proof.
  intros Hwf Hk Hi Hh Hsame. pose proof (wf_size _ _ Hwf). pose proof (wf_els _ _ Hwf).
  destruct (heap_change k (key cp1) (size cp1) i) as (_ & _ & Hup & Hdn); [done..|].
  destruct (decide ((0 < i)%nat ∧ key cp1 (parent i) < key cp1 i)) as [[Hi0 Hlt]|Hn].
  - destruct (sift_up_spec NR (S i) cp1 i) as (cp2 & i' & E & Hs & Hi' & Hhp);
      [done|done|done|lia|apply Hup; [lia|done]|].
    exists cp2, i'. split_and!; [done..|]. by apply heap_is_down.
  - exists cp1, i. cbn [sift_up]. split; last first.
    { split; [by apply same_content_refl|]. split; [done|]. apply Hdn. lia. }
    case_decide as Hpos; [|done]. pose proof (parent_lt i Hpos).
    rewrite !dl_at_key by lia. cbn [mbind option_bind].
    rewrite dl_time_before_lt by (eapply keys_ok_key; eauto; lia).
    rewrite bool_decide_eq_false_2 by lia. done.
Qed.

Lemma sift_up_stop cp i :
  dl_at cp i = Some (key cp i) →
  ((0 < i)%nat → dl_at cp (parent i) = Some (key cp (parent i)) ∧
    0 ≤ key cp i < 2 ^ 63 ∧ 0 ≤ key cp (parent i) < 2 ^ 63 ∧ key cp i ≤ key cp (parent i)) →
  sift_up (S i) cp i = Some (cp, i).
Proof.
  intros E H. cbn [sift_up]. case_decide as Hp; [|done].
  destruct (H Hp) as (-> & Ka & Kb & Hle). rewrite E. cbn [mbind option_bind].
  rewrite dl_time_before_lt, bool_decide_eq_false_2 by (done || lia). done.
Qed.

Lemma heapify_outside cp i : (size cp ≤ i)%nat → cpudl_heapify cp i = Some cp.
Proof.
  intros H. unfold cpudl_heapify. cbn [heapify_loop]. unfold pick_largest, left_child, right_child.
  rewrite decide_False by lia. cbn [mbind option_bind]. rewrite decide_False by lia.
  cbn [mbind option_bind]. by rewrite decide_True.
Qed.

Lemma remove_spec NR cp i it :
  cpudl_inv NR cp → (i < size cp)%nat → elements cp !! i = Some it →
  ∃ cp', cpudl_remove cp (cpu it) i = Some cp' ∧ cpudl_inv NR cp' ∧
    ∀ c', dl_of cp' c' = if decide (c' = cpu it) then None else dl_of cp c'.
Proof.
  intros (Hwf & Hk & Hh & Hm) Hi E. pose proof (wf_size _ _ Hwf). pose proof (wf_els _ _ Hwf) as Hle.
  unfold cpudl_remove. rewrite decide_False by lia.
  destruct (lookup_lt_is_Some_2 (elements cp) (size cp - 1)) as [last El]; [lia|].
  rewrite El. cbn [mbind option_bind].
  destruct (remove_slot_wf NR cp i it last Hwf Hk Hi E El) as (Hwf1 & Hk1 & Hdl & Hinv).
  set (cp1 := Cpudl _ _ _ _) in Hwf1, Hk1, Hdl, Hinv.
  pose proof (wf_cpu_lt _ _ _ _ Hwf Hi E). 
  pose proof (wf_cpu_lt NR cp (size cp - 1) last Hwf ltac:(lia) El).
  pose proof (wf_idx _ _ Hwf).
  rewrite (aset_lt (elements cp)) by lia. cbn [mbind option_bind].
  rewrite (aset_lt (cpu_to_idx cp)) by lia. cbn [mbind option_bind].
  rewrite aset_lt by (rewrite length_insert; lia). cbn [mbind option_bind]. fold cp1.
  assert (∀ cp2 f, same_content NR cp1 cp2 → heap (key cp2) (size cp2) →
    f = free_cpus cp2 ∪ {[cpu it]} →
    cpudl_inv NR (with_free cp2 f) ∧
    ∀ c', dl_of (with_free cp2 f) c' = if decide (c' = cpu it) then None else dl_of cp c') as Hend.
  { intros cp2 f (W & K & Sz & Fr & D & I) Hheap ->. split; [split_and!; [by apply wf_with_free|done|done|]|].
    - intros c. simpl. rewrite I, Hinv, Fr, elem_of_union, elem_of_singleton. 
      unfold cp1. simpl. rewrite (Hm c). tauto.
    - intros c'. change (dl_of (with_free cp2 _) c') with (dl_of cp2 c'). by rewrite D, Hdl. }
  destruct (decide (i = size cp - 1)%nat) as [Hil|Hil].
  - assert (elements cp1 = elements cp) as Hels.
    { unfold cp1. simpl. apply list_insert_id. congruence. }
    assert (∀ j, key cp1 j = key cp j) as Hkey by (intros j; unfold key; by rewrite Hels).
    rewrite sift_up_stop; last first.
    { intros Hi0. pose proof (parent_lt i Hi0). rewrite !Hkey.
      split; [rewrite <-Hkey; apply dl_at_key; rewrite Hels; lia|].
      split; [eapply keys_ok_key; eauto|].
      split; [eapply keys_ok_key; eauto; lia|]. apply Hh. lia. }
    { apply dl_at_key. rewrite Hels. lia. }
    cbn [mbind option_bind]. rewrite heapify_outside by (simpl; lia).
    eexists. split; [done|]. apply (Hend cp1); [by apply same_content_refl| |done].
    intros j Hj. rewrite !Hkey. apply Hh. simpl in Hj. lia.
  - destruct (repair_spec NR cp1 (key cp) i) as (cp2 & i' & -> & Hs & Hi' & Hdn);
      [done|done|simpl; lia|eapply heap_prefix; [done|simpl; lia]| |].
    { intros j Hj Hne. unfold key, cp1. simpl. by rewrite list_lookup_total_insert_ne. }
    cbn [mbind option_bind]. destruct Hs as (W & K & Sz & Fr & D & I).
    destruct (heapify_spec NR (with_free cp2 (free_cpus cp2 ∪ {[cpu it]})) i') as
      (cp3 & E3 & (W3 & K3 & Sz3 & Fr3 & D3 & I3) & Hh3); [by apply wf_with_free|done..|].
    exists cp3. split; [exact E3|].
    destruct cp3 as [sz3 ix3 els3 f3] eqn:Ecp. simpl in *.
    apply (Hend (Cpudl sz3 ix3 els3 (free_cpus cp2)) f3); [|done|done].
    assert (wf NR (Cpudl sz3 ix3 els3 (free_cpus cp2))) by (destruct W3; by split).
    split_and!; [done|done|simpl; lia|done| |].
    + intros c. change (dl_of (Cpudl sz3 ix3 els3 f3) c = dl_of cp1 c). rewrite D3, <-D. done.
    + intros c. simpl. rewrite I3. simpl. apply I.
Qed.

Lemma insert_spec NR cp c d :
  cpudl_inv NR cp → cpu_to_idx cp !! c = Some IDX_INVALID → 0 ≤ d < 2 ^ 63 →
  ∃ cp', cpudl_insert cp c d = Some cp' ∧ cpudl_inv NR cp' ∧
    ∀ c', dl_of cp' c' = if decide (c' = c) then Some d else dl_of cp c'.
Proof.
  intros (Hwf & Hk & Hh & Hm) Hc Hd. pose proof (size_lt _ _ _ Hwf Hc) as Hsz.
  pose proof (wf_els _ _ Hwf) as Hle. pose proof (lookup_lt_Some _ _ _ Hc) as Hcl.
  destruct (insert_slot_wf NR cp c Hwf Hk Hh Hc Hsz) as (Hwf1 & Hk1 & Hh1 & Hd1).
  unfold cpudl_insert. replace (S (size cp) - 1)%nat with (size cp) by lia.
  rewrite (aset_lt (elements cp)) by lia. cbn [mbind option_bind].
  rewrite (aset_lt (cpu_to_idx cp)) by lia. cbn [mbind option_bind].
  set (cp1 := Cpudl _ _ _ _) in Hwf1, Hk1, Hh1, Hd1 |- *.
  destruct (change_key_spec NR cp1 (size cp) (Item 0 c) d) as
    (cp2 & -> & (W & K & H2 & D) & Fr & I); [done|done|done|simpl; lia| |done|].
  { unfold cp1. simpl. by rewrite list_lookup_insert_eq by lia. }
  cbn [mbind option_bind]. eexists. split; [done|]. split; [split_and!|].
  - by apply (wf_with_free _ _ _ W).
  - done.
  - done.
  - intros c'. simpl. rewrite I, Fr. unfold cp1. simpl.
    rewrite elem_of_difference, not_elem_of_singleton, (Hm c').
    destruct (decide (c' = c)) as [->|Hne].
    + rewrite list_lookup_insert_eq by lia. unfold IDX_INVALID. naive_solver lia.
    + rewrite list_lookup_insert_ne by done. tauto.
  - intros c'. change (dl_of cp2 c' = if decide (c' = c) then Some d else dl_of cp c').
    rewrite D. simpl. case_decide as Hn; [done|]. by apply Hd1.
Qed.

Lemma cpudl_set_spec NR cp c d v :
  cpudl_inv NR cp → (c < NR)%nat → 0 ≤ d < 2 ^ 63 →
  ∃ cp', cpudl_set cp c d v = Some cp' ∧ cpudl_inv NR cp' ∧
    ∀ c', dl_of cp' c' =
      if decide (c' = c) then (if v then Some d else None) else dl_of cp c'.
Proof.
  intros Hinv Hc Hd. pose proof Hinv as (Hwf & Hk & Hh & Hm). unfold cpudl_set.
  destruct (lookup_lt_is_Some_2 (cpu_to_idx cp) c) as [z Hz].
  { by rewrite (wf_idx _ _ Hwf). }
  rewrite Hz. cbn [mbind option_bind].
  destruct (wf_from _ _ Hwf _ _ Hz) as [->|(i & it & -> & Hi & Ei & <-)].
  - rewrite !(decide_True (P := IDX_INVALID = IDX_INVALID)) by done. destruct v; cbn [negb].
    + by apply insert_spec.
    + exists cp. split_and!; [done..|]. intros c'. case_decide as E; [|done].
      subst c'. unfold dl_of. by rewrite Hz.
  - unfold IDX_INVALID. rewrite !(decide_False (P := Z.of_nat i = -1)) by lia.
    rewrite !decide_True, !Nat2Z.id by lia. destruct v; cbn [negb].
    + destruct (change_key_spec NR cp i it d) as (cp' & -> & (W & K & H2 & D) & Fr & I); [done..|].
      exists cp'. split_and!; [done|split_and!; [done..|]|done].
      intros c'. rewrite I, Fr. apply Hm.
    + by apply remove_spec.
Qed.

Lemma cpudl_init_inv NR cp :
  cpudl_init NR true = Some cp → cpudl_inv NR cp ∧ ∀ c, dl_of cp c = None.
Proof.
  intros [= <-]. split; [split_and!|].
  - split; simpl; [apply length_replicate|apply length_replicate|lia|lia|].
    intros c z [-> _]%lookup_replicate_1. by left.
  - intros i it Hi. simpl in Hi. lia.
  - intros i Hi. simpl in Hi. lia.
  - intros c. simpl. rewrite elem_of_set_seq, lookup_replicate. naive_solver lia.
  - intros c. unfold dl_of. simpl.
    destruct (replicate NR IDX_INVALID !! c) as [z|] eqn:E; [|done].
    by apply lookup_replicate_1 in E as [-> _].
Qed.

(** A sequence of updates from an initialised structure. *)
Definition cpudl_run (cp : option cpudl) (ops : list (nat * Z * bool)) : option cpudl :=
  foldl (λ o '(c, d, v), x ← o; cpudl_set x c d v) cp ops.

(** The same updates on a map from CPUs to deadlines. *)
Definition map_run (m : nat → option Z) (ops : list (nat * Z * bool)) : nat → option Z :=
  foldl (λ f (op : nat * Z * bool) c', let '(c, d, v) := op in
    if decide (c' = c) then (if v then Some d else None) else f c') m ops.

(** C1: the deadline heap refines a map from CPUs to deadlines.  Any sequence
    of [cpudl_set] calls on an initialised structure, with CPUs below NR_CPUS
    and deadlines below 2^63, runs inside the arrays, keeps the invariant
    (index and heap inverse to each other, heap order, mask of free CPUs) and
    records for every CPU the deadline the same updates of a map record. *)
Theorem cpudl_refines_map NR (ops : list (nat * Z * bool)) :
  Forall (λ '(c, d, v), (c < NR)%nat ∧ 0 ≤ d < 2 ^ 63) ops →
  ∃ cp, cpudl_run (cpudl_init NR true) ops = Some cp ∧ cpudl_inv NR cp ∧
    ∀ c, dl_of cp c = map_run (λ _, None) ops c.
Proof.
  intros Hops.
  destruct (cpudl_init NR true) as [cp0|] eqn:E; [|done].
  destruct (cpudl_init_inv NR cp0 E) as [Hinv H0]. clear E.
  assert (∀ m, (∀ c, dl_of cp0 c = m c) → ∃ cp, cpudl_run (Some cp0) ops = Some cp ∧
    cpudl_inv NR cp ∧ ∀ c, dl_of cp c = map_run m ops c) as H; [|by apply H].
  clear H0. revert cp0 Hinv. induction Hops as [|[[c d] v] ops [Hc Hd] _ IH]; intros cp0 Hinv m Hm.
  { by exists cp0. }
  destruct (cpudl_set_spec NR cp0 c d v Hinv Hc Hd) as (cp1 & E & Hinv1 & D).
  unfold cpudl_run, map_run. simpl. rewrite E. apply (IH cp1 Hinv1).
  intros c'. rewrite D. case_decide; [done|]. apply Hm.
Qed.

Lemma cpudl_refines_map_witness :
  let ops := [(0%nat, 50, true); (2%nat, 70, true); (1%nat, 60, true); (2%nat, 10, true); (0%nat, 0, false)] in
  ∃ cp, cpudl_run (cpudl_init 3 true) ops = Some cp ∧ cpudl_inv 3 cp ∧
    ∀ c, dl_of cp c = map_run (λ _, None) ops c.
Proof. apply (cpudl_refines_map 3). repeat constructor; pow2; lia. Defined.

Lemma dl_of_slot NR cp c d :
  wf NR cp → dl_of cp c = Some d ↔
    ∃ i it, (i < size cp)%nat ∧ elements cp !! i = Some it ∧ cpu it = c ∧ dl it = d.
Proof.
  intros Hwf. unfold dl_of, dl_at. split.
  - destruct (cpu_to_idx cp !! c) as [z|] eqn:Hz; [|done]. simpl.
    destruct (wf_from _ _ Hwf _ _ Hz) as [->|(i & it & -> & Hi & Ei & Ec)]; [done|].
    rewrite decide_True, Nat2Z.id, Ei by lia. intros [= <-]. by exists i, it.
  - intros (i & it & Hi & Ei & <- & <-). rewrite (wf_to _ _ Hwf _ _ Hi Ei). simpl.
    by rewrite decide_True, Nat2Z.id, Ei by lia.
Qed.

Lemma heap_root k n i : heap k n → (i < n)%nat → k i ≤ k 0%nat.
Proof.
  intros Hh. induction (lt_wf i) as [i _ IH]. intros Hi.
  destruct (decide (i = 0)%nat) as [->|]; [lia|].
  pose proof (parent_lt i ltac:(lia)). pose proof (Hh i ltac:(lia)).
  specialize (IH (parent i) ltac:(lia) ltac:(lia)). lia.
Qed.

(** The CPU at the root has the latest recorded deadline. *)
Lemma cpudl_root NR cp :
  cpudl_inv NR cp → (0 < size cp)%nat →
  ∃ root, elements cp !! 0%nat = Some root ∧ cpudl_maximum cp = Some (cpu root) ∧
    dl_of cp (cpu root) = Some (dl root) ∧ 0 ≤ dl root < 2 ^ 63 ∧
    ∀ c d, dl_of cp c = Some d → d ≤ dl root.
Proof.
  intros (Hwf & Hk & Hh & Hm) Hs. pose proof (wf_size _ _ Hwf). pose proof (wf_els _ _ Hwf).
  destruct (lookup_lt_is_Some_2 (elements cp) 0) as [root E]; [lia|].
  exists root. unfold cpudl_maximum. rewrite E. split_and!; [done..| | | |].
  - eapply dl_of_slot; [done|]. by exists 0%nat, root.
  - by apply (Hk 0%nat).
  - by apply (Hk 0%nat root).
  - intros c d (i & it & Hi & Ei & <- & <-)%(dl_of_slot NR); [|done].
    rewrite <-(key_lookup _ _ _ Ei), <-(key_lookup _ _ _ E). by eapply heap_root.
Qed.

(** What a result of [cpudl_find] says: either a CPU the task may use that is
    free and active, or the allowed CPU with the latest deadline of all, later
    than the task's; or -1, and then the CPU with the latest deadline is not
    allowed or its deadline is not later, and, if the caller passed a mask, no
    CPU is free, allowed and active. *)
Definition latest (cp : cpudl) (c : nat) (d : Z) : Prop :=
  dl_of cp c = Some d ∧ ∀ c' d', dl_of cp c' = Some d' → d' ≤ d.

Definition best_choice (cp : cpudl) (deadline : Z) (allowed active : gset nat)
    (masked : Prop) (best : Z) : Prop :=
  (∃ c, best = Z.of_nat c ∧ c ∈ allowed ∧
    (c ∈ free_cpus cp ∧ c ∈ active ∨ ∃ d, latest cp c d ∧ deadline < d)) ∨
  (best = -1 ∧ (masked → free_cpus cp ∩ allowed ∩ active = ∅) ∧
    ∃ c d, cpudl_maximum cp = Some c ∧ latest cp c d ∧ (c ∉ allowed ∨ d ≤ deadline)).

(** on a non-empty heap [cpudl_find] returns a best choice: a free, active
    and allowed CPU if the caller wants a mask and there is one, else the CPU
    with the latest deadline if it is allowed and later than the task's, else
    -1. *)
Theorem cpudl_find_best NR cp cpumask_any deadline allowed active later_mask :
  cpudl_inv NR cp → (0 < size cp)%nat → 0 ≤ deadline < 2 ^ 63 →
  (∀ m, m ≠ ∅ → cpumask_any m ∈ m) →
  ∃ best mask', cpudl_find cpumask_any cp deadline allowed active later_mask =
      Some (best, mask') ∧
    best_choice cp deadline allowed active (is_Some later_mask) best.
Proof.
  intros Hinv Hs Hd Hany.
  destruct (cpudl_root NR cp Hinv Hs) as (root & E & Em & Er & Hr & Hmax).
  unfold cpudl_find. rewrite E. cbn [mbind option_bind]. rewrite dl_time_before_lt by done.
  assert (∀ mask : option (gset nat),
    (is_Some later_mask → free_cpus cp ∩ allowed ∩ active = ∅) →
    ∃ best mask',
    (if decide (cpu root ∈ allowed ∧ bool_decide (deadline < dl root) = true)
     then Some (Z.of_nat (cpu root), (λ m : gset nat, m ∪ {[cpu root]}) <$> mask)
     else Some (-1, mask)) = Some (best, mask') ∧
    best_choice cp deadline allowed active (is_Some later_mask) best) as Htail.
  { intros mask Hnone. case_decide as Hc; eexists _, _; (split; [done|]).
    - destruct Hc as [Ha Hlt%bool_decide_eq_true]. left. exists (cpu root).
      split_and!; [done..|]. right. by exists (dl root).
    - right. split_and!; [done..|]. exists (cpu root), (dl root). split_and!; [done..|].
      destruct (decide (cpu root ∈ allowed)); [|by left]. right.
      destruct (decide (deadline < dl root)); [|lia].
      destruct Hc. split; [done|]. by apply bool_decide_eq_true. }
  destruct later_mask as [m|]; [|apply Htail; by intros [? ?]].
  destruct (decide (free_cpus cp ∩ allowed = ∅)) as [E1|E1].
  { apply Htail. intros _. rewrite E1. set_solver. }
  destruct (decide (free_cpus cp ∩ allowed ∩ active = ∅)) as [E2|E2]; [by apply Htail|].
  eexists _, _. split; [done|]. left. eexists. split; [done|].
  pose proof (Hany _ E2). set_solver.
Qed.

Lemma cpudl_find_best_witness :
  let any (m : gset nat) := hd 0%nat (base.elements m) in
  ∃ cp best mask', cpudl_run (cpudl_init 2 true) [(1%nat, 90, true)] = Some cp ∧
    cpudl_find any cp 50 {[1%nat]} {[0%nat; 1%nat]} (Some ∅) = Some (best, mask').
Proof.
  intros any.
  destruct (cpudl_init_inv 2 _ eq_refl) as [Hi _].
  destruct (cpudl_set_spec 2 _ 1 90 true Hi) as (cp & E & Hi1 & _); [lia|pow2; lia|].
  exists cp. assert (0 < size cp)%nat.
  { assert (size <$> Some cp = Some 1%nat) as [= ->] by (rewrite <-E; by vm_compute). lia. }
  destruct (cpudl_find_best 2 cp any 50 {[1%nat]} {[0%nat; 1%nat]} (Some ∅)) as (b & m & Ef & _);
    [done|done|pow2; lia| |].
  { intros m Hm. unfold any. destruct (base.elements m) as [|x l] eqn:El.
    - apply elements_empty_iff, leibniz_equiv in El. done.
    - apply elem_of_elements. rewrite El. set_solver. }
  exists b, m. split; [exact E|exact Ef].
Defined.

(** When the last deadline task leaves, slot 0 keeps its stale entry: a search
    without a mask then still compares with it and returns that CPU, although
    the heap is empty. *)
Example cpudl_find_stale_root :
  (cp ← cpudl_run (cpudl_init 2 true) [(1%nat, 90, true); (1%nat, 0, false)];
   r ← cpudl_find (λ _, 0%nat) cp 50 {[1%nat]} ∅ None;
   Some (size cp, r.1)) = Some (0%nat, 1).
Proof. vm_compute. reflexivity. Qed.
