(* ===== verification/CpuPri.v ===== *)
(** CpuPri: the CPU priority map of kernel/sched/cpupri.c.

    [struct cpupri] keeps, for every priority level, the mask of the CPUs at
    that level and their number, and for every CPU its level.  [cpupri_set] is
    modelled as the sequence of its memory operations, in the order of the code,
    because a concurrent [cpupri_find] may run between any two of them. *)

From S2P Require Import Prelude.

Local Open Scope Z_scope.

(** cpupri.h *)
Definition CPUPRI_INVALID : Z := -1.
Definition CPUPRI_IDLE : Z := 0.
Definition CPUPRI_NORMAL : Z := 1.

Record cpupri_vec := Vec { count : Z; mask : gset nat }.

Record cpupri := Cpupri {
  pri_to_cpu : list cpupri_vec;
  cpu_to_pri : list Z;
}.

(** The single memory operations of [cpupri_set]. *)
Inductive pri_op :=
  | OpSetMask (p c : nat)      (** cpumask_set_cpu(c, pri_to_cpu[p].mask) *)
  | OpInc (p : nat)            (** atomic_inc(&pri_to_cpu[p].count) *)
  | OpDec (p : nat)            (** atomic_dec(&pri_to_cpu[p].count) *)
  | OpClearMask (p c : nat)    (** cpumask_clear_cpu(c, pri_to_cpu[p].mask) *)
  | OpSetPri (c : nat) (z : Z) (** cpu_to_pri[c] = z *).

Definition upd_vec (cp : cpupri) (p : nat) (f : cpupri_vec → cpupri_vec) : option cpupri :=
  v ← pri_to_cpu cp !! p;
  vs ← aset (pri_to_cpu cp) p (f v);
  Some (Cpupri vs (cpu_to_pri cp)).

Definition exec_op (cp : cpupri) (o : pri_op) : option cpupri :=
  match o with
  | OpSetMask p c => upd_vec cp p (λ v, Vec (count v) (mask v ∪ {[c]}))
  | OpInc p => upd_vec cp p (λ v, Vec (s32 (count v + 1)) (mask v))
  | OpDec p => upd_vec cp p (λ v, Vec (s32 (count v - 1)) (mask v))
  | OpClearMask p c => upd_vec cp p (λ v, Vec (count v) (mask v ∖ {[c]}))
  | OpSetPri c z => ps ← aset (cpu_to_pri cp) c z; Some (Cpupri (pri_to_cpu cp) ps)
  end.

Definition exec_ops (cp : cpupri) (os : list pri_op) : option cpupri :=
  foldl (λ s o, x ← s; exec_op x o) (Some cp) os.

Section cpupri.
(** linux/sched/rt.h: MAX_RT_PRIO (100) and MAX_PRIO (140). *)
Context (MAX_RT_PRIO MAX_PRIO : Z).

Definition CPUPRI_NR_PRIORITIES : Z := MAX_RT_PRIO + 2.

Definition convert_prio (prio : Z) : Z :=
  if decide (prio = CPUPRI_INVALID) then CPUPRI_INVALID
  else if decide (prio = MAX_PRIO) then CPUPRI_IDLE
  else if decide (MAX_RT_PRIO ≤ prio) then CPUPRI_NORMAL
  else MAX_RT_PRIO - prio + 1.

(** The loop of [cpupri_find] from [idx] on, [k] levels to go. *)
Fixpoint find_loop (k idx : nat) (cp : cpupri) (cpus_allowed : gset nat)
    (lowest_mask : option (gset nat)) : option (Z * option (gset nat)) :=
  match k with
  | O => Some (0, lowest_mask)
  | S k' =>
      vec ← pri_to_cpu cp !! idx;
      if decide (count vec = 0) then find_loop k' (S idx) cp cpus_allowed lowest_mask
      else if decide (cpus_allowed ∩ mask vec = ∅)
      then find_loop k' (S idx) cp cpus_allowed lowest_mask
      else
        match lowest_mask with
        | None => Some (1, None)
        | Some _ =>
            let m := cpus_allowed ∩ mask vec in
            if decide (m = ∅) then find_loop k' (S idx) cp cpus_allowed (Some m)
            else Some (1, Some m)
        end
  end.

(** [cpupri_find]: the result and the mask behind [lowest_mask], [None] when
    the caller passes no mask. *)
Definition cpupri_find (cp : cpupri) (prio : Z) (cpus_allowed : gset nat)
    (lowest_mask : option (gset nat)) : option (Z * option (gset nat)) :=
  let task_pri := convert_prio prio in
  if decide (MAX_RT_PRIO ≤ task_pri) then Some (0, lowest_mask)
  else find_loop (Z.to_nat task_pri) 0 cp cpus_allowed lowest_mask.

(** The operations [cpupri_set] performs; [None] is the [BUG_ON]. *)
Definition cpupri_set_ops (cp : cpupri) (c : nat) (newpri : Z) : option (list pri_op) :=
  oldpri ← cpu_to_pri cp !! c;
  let newpri := convert_prio newpri in
  if decide (CPUPRI_NR_PRIORITIES ≤ newpri) then None
  else if decide (newpri = oldpri) then Some []
  else Some (
    (if decide (newpri ≠ CPUPRI_INVALID)
     then [OpSetMask (Z.to_nat newpri) c; OpInc (Z.to_nat newpri)] else []) ++
    (if decide (oldpri ≠ CPUPRI_INVALID)
     then [OpDec (Z.to_nat oldpri); OpClearMask (Z.to_nat oldpri) c] else []) ++
    [OpSetPri c newpri]).

Definition cpupri_set (cp : cpupri) (c : nat) (newpri : Z) : option cpupri :=
  os ← cpupri_set_ops cp c newpri;
  exec_ops cp os.

(** The masks allocated are tracked as the set of their levels.  [cleanup]:
    [for (i--; i >= 0; i--) free_cpumask_var(pri_to_cpu[i].mask)]. *)
Fixpoint cleanup (i : nat) (allocated : gset nat) : gset nat :=
  match i with
  | O => allocated
  | S j => cleanup j (allocated ∖ {[j]})
  end.

(** The allocating loop of [cpupri_init]; [alloc i] tells whether the
    allocation of the i-th mask succeeds. *)
Fixpoint init_vecs (alloc : nat → bool) (k i : nat) (allocated : gset nat)
    : ret * gset nat :=
  match k with
  | O => (Ok, allocated)
  | S k' =>
      if alloc i then init_vecs alloc k' (S i) (allocated ∪ {[i]})
      else (Err ENOMEM, cleanup i allocated)
  end.

(** [cpupri_init] for [NR_CPUS] CPUs of which [possible] can exist. *)
Definition cpupri_init (NR_CPUS : nat) (possible : gset nat) (alloc : nat → bool)
    : ret * gset nat * cpupri :=
  let nr := Z.to_nat CPUPRI_NR_PRIORITIES in
  let vecs := replicate nr (Vec 0 ∅) in
  match init_vecs alloc nr 0 ∅ with
  | (Ok, a) =>
      (Ok, a, Cpupri vecs
        ((λ c, if decide (c ∈ possible) then CPUPRI_INVALID else 0) <$> seq 0 NR_CPUS))
  | (e, a) => (e, a, Cpupri vecs (replicate NR_CPUS 0))
  end.

(** [for (i = 0; i < CPUPRI_NR_PRIORITIES; i++) free_cpumask_var(...)] *)
Definition cpupri_cleanup (allocated : gset nat) : gset nat :=
  foldl (λ a i, a ∖ {[i]}) allocated (seq 0 (Z.to_nat CPUPRI_NR_PRIORITIES)).

(** * Invariant *)

Context (NR_CPUS : nat) (possible : gset nat).
Hypothesis Hrt : 2 ≤ MAX_RT_PRIO < MAX_PRIO.
Hypothesis Hprio : MAX_PRIO < 2 ^ 31.
Hypothesis Hcpus : Z.of_nat NR_CPUS < 2 ^ 31 - 1.
Hypothesis Hposs : ∀ c, c ∈ possible → (c < NR_CPUS)%nat.

(** Every mask is the set of the possible CPUs recorded at its level, and its
    counter their number. *)
Record pri_inv (cp : cpupri) : Prop := {
  pi_vecs : length (pri_to_cpu cp) = Z.to_nat CPUPRI_NR_PRIORITIES;
  pi_cpus : length (cpu_to_pri cp) = NR_CPUS;
  pi_mask p v : pri_to_cpu cp !! p = Some v → ∀ c, c ∈ mask v ↔
    c ∈ possible ∧ cpu_to_pri cp !! c = Some (Z.of_nat p);
  pi_count p v : pri_to_cpu cp !! p = Some v → count v = Z.of_nat (size (mask v));
  pi_range c z : cpu_to_pri cp !! c = Some z → -1 ≤ z < CPUPRI_NR_PRIORITIES;
}.

Lemma convert_prio_range prio :
  prio = CPUPRI_INVALID ∨ 0 ≤ prio → -1 ≤ convert_prio prio < CPUPRI_NR_PRIORITIES.
Proof.
  intros Hp. unfold convert_prio, CPUPRI_NR_PRIORITIES, CPUPRI_INVALID, CPUPRI_IDLE,
    CPUPRI_NORMAL in *.
  repeat case_decide; lia.
Qed.

Lemma upd_vec_alter cp p f :
  (p < length (pri_to_cpu cp))%nat →
  upd_vec cp p f = Some (Cpupri (alter f p (pri_to_cpu cp)) (cpu_to_pri cp)).
Proof.
  intros H. unfold upd_vec. destruct (lookup_lt_is_Some_2 _ _ H) as [v E].
  rewrite E. cbn [mbind option_bind]. rewrite aset_lt by done. cbn [mbind option_bind].
  rewrite list_insert_alter. do 2 f_equal. apply list_eq. intros i.
  rewrite !list_lookup_alter. case_decide; [|done]. subst. by rewrite E.
Qed.

(** Adding a CPU to a level, and removing it, as the code does it. *)
Definition vec_add (c : nat) (v : cpupri_vec) := Vec (s32 (count v + 1)) (mask v ∪ {[c]}).
Definition vec_del (c : nat) (v : cpupri_vec) := Vec (s32 (count v - 1)) (mask v ∖ {[c]}).

(** The state an executed [cpupri_set] leaves. *)
Definition set_result (cp : cpupri) (c : nat) (oldpri newpri : Z) : cpupri :=
  let v1 := if decide (newpri = CPUPRI_INVALID) then pri_to_cpu cp
            else alter (vec_add c) (Z.to_nat newpri) (pri_to_cpu cp) in
  let v2 := if decide (oldpri = CPUPRI_INVALID) then v1
            else alter (vec_del c) (Z.to_nat oldpri) v1 in
  Cpupri v2 (<[c := newpri]> (cpu_to_pri cp)).

Lemma cpupri_set_result cp c oldpri prio :
  pri_inv cp → cpu_to_pri cp !! c = Some oldpri → prio = CPUPRI_INVALID ∨ 0 ≤ prio →
  cpupri_set cp c prio =
    Some (if decide (convert_prio prio = oldpri) then cp
          else set_result cp c oldpri (convert_prio prio)).
Proof.
  intros Hi Hc Hp. pose proof (convert_prio_range prio Hp) as Hr.
  pose proof (pi_range _ Hi _ _ Hc) as Ho. pose proof (pi_vecs _ Hi) as Hl.
  pose proof (lookup_lt_Some _ _ _ Hc) as Hcl.
  unfold cpupri_set, cpupri_set_ops. rewrite Hc. cbn [mbind option_bind].
  rewrite decide_False by lia. case_decide as He; [done|]. cbn [mbind option_bind].
  unfold set_result, CPUPRI_INVALID in *.
  destruct (decide (convert_prio prio = -1)) as [En|En];
    [rewrite (decide_False (P := convert_prio prio ≠ -1)) by tauto|rewrite (decide_True (P := convert_prio prio ≠ -1)) by done];
  (destruct (decide (oldpri = -1)) as [Eo|Eo];
    [rewrite (decide_False (P := oldpri ≠ -1)) by tauto|rewrite (decide_True (P := oldpri ≠ -1)) by done]);
  unfold exec_ops; cbn [app foldl mbind option_bind exec_op].
  all: repeat (rewrite upd_vec_alter by (cbn; rewrite ?length_alter; lia);
    cbn [mbind option_bind pri_to_cpu cpu_to_pri]).
  all: rewrite aset_lt by done; cbn [mbind option_bind].
  all: by rewrite ?list_alter_alter_eq.
Qed.

Lemma set_result_lookup cp c oldpri newpri p v :
  oldpri ≠ newpri → -1 ≤ oldpri → -1 ≤ newpri →
  pri_to_cpu (set_result cp c oldpri newpri) !! p = Some v →
  ∃ v0, pri_to_cpu cp !! p = Some v0 ∧
    (Z.of_nat p = newpri ∧ v = vec_add c v0 ∨ Z.of_nat p = oldpri ∧ v = vec_del c v0 ∨
     Z.of_nat p ≠ newpri ∧ Z.of_nat p ≠ oldpri ∧ v = v0).
Proof.
  intros Hne Ho Hn. unfold set_result, CPUPRI_INVALID. cbn [pri_to_cpu]. intros E.
  destruct (pri_to_cpu cp !! p) as [v0|] eqn:E0; last first.
  { apply lookup_ge_None in E0. apply lookup_lt_Some in E.
    repeat case_decide; rewrite ?length_alter in E; lia. }
  exists v0. split; [done|].
  repeat (case_decide; rewrite ?list_lookup_alter in E).
  all: try lia; try subst p; rewrite E0 in E; simplify_eq/=; naive_solver lia.
Qed.

Lemma mask_small cp p v :
  pri_inv cp → pri_to_cpu cp !! p = Some v → 0 ≤ count v < 2 ^ 31 - 1.
Proof.
  intros Hi E. rewrite (pi_count _ Hi _ _ E).
  assert (size (mask v) ≤ size (set_seq 0 NR_CPUS : gset nat))%nat as Hs.
  { apply subseteq_size. intros c Hc. apply elem_of_set_seq.
    apply (pi_mask _ Hi _ _ E) in Hc as [Hc _]. apply Hposs in Hc. lia. }
  rewrite size_set_seq in Hs. lia.
Qed.

Lemma set_result_inv cp c oldpri newpri :
  pri_inv cp → c ∈ possible → cpu_to_pri cp !! c = Some oldpri →
  oldpri ≠ newpri → -1 ≤ newpri < CPUPRI_NR_PRIORITIES →
  pri_inv (set_result cp c oldpri newpri).
Proof.
  intros Hi Hp Hc Hne Hn. pose proof (pi_range _ Hi _ _ Hc) as Ho.
  pose proof (lookup_lt_Some _ _ _ Hc) as Hcl.
  assert (∀ p v, pri_to_cpu (set_result cp c oldpri newpri) !! p = Some v → ∃ v0,
    pri_to_cpu cp !! p = Some v0 ∧
    (Z.of_nat p = newpri ∧ v = vec_add c v0 ∨ Z.of_nat p = oldpri ∧ v = vec_del c v0 ∨
     Z.of_nat p ≠ newpri ∧ Z.of_nat p ≠ oldpri ∧ v = v0)) as Hl.
  { intros p v. apply set_result_lookup; lia. }
  split.
  - unfold set_result. cbn [pri_to_cpu]. repeat case_decide; rewrite ?length_alter; apply Hi.
  - cbn. rewrite length_insert. apply Hi.
  - intros p v (v0 & E0 & Hv)%Hl c'. pose proof (pi_mask _ Hi _ _ E0) as Hm.
    unfold set_result. cbn [cpu_to_pri]. destruct (decide (c' = c)) as [->|Hcc].
    + rewrite list_lookup_insert_eq by done. specialize (Hm c).
      destruct Hv as [[Ep ->]|[[Ep ->]|(Ep1 & Ep2 & ->)]]; simpl.
      * rewrite Ep. set_solver.
      * split; [set_solver|]. intros [_ [= E]]. lia.
      * rewrite Hm, Hc. naive_solver lia.
    + rewrite list_lookup_insert_ne by done. rewrite <-Hm.
      destruct Hv as [[Ep ->]|[[Ep ->]|(Ep1 & Ep2 & ->)]]; simpl; set_solver.
  - intros p v (v0 & E0 & Hv)%Hl. pose proof (pi_count _ Hi _ _ E0) as Hct.
    pose proof (mask_small _ _ _ Hi E0) as Hs. pose proof (pi_mask _ Hi _ _ E0 c) as Hm.
    destruct Hv as [[Ep ->]|[[Ep ->]|(Ep1 & Ep2 & ->)]]; simpl; [| |done].
    + assert (c ∉ mask v0). { rewrite Hm, Hc. naive_solver lia. }
      rewrite size_union, size_singleton by set_solver. rewrite s32_small by width. lia.
    + assert (c ∈ mask v0). { rewrite Hm, Hc. split; [done|]. by rewrite Ep. }
      rewrite size_difference, size_singleton by set_solver.
      assert (size (mask v0) ≠ 0)%nat. { apply size_non_empty_iff. set_solver. }
      rewrite s32_small by width. lia.
  - intros c' z. unfold set_result. cbn [cpu_to_pri].
    intros [(<- & <- & _)|[_ E]]%list_lookup_insert_Some; [done|]. by eapply pi_range.
Qed.

(** [cpupri_set] keeps the invariant that every mask is the set of the CPUs
    recorded at its level and every counter its size, moves the CPU to the
    level of the new priority and no other CPU. *)
Theorem cpupri_set_correct cp c prio :
  pri_inv cp → c ∈ possible → prio = CPUPRI_INVALID ∨ 0 ≤ prio →
  ∃ cp', cpupri_set cp c prio = Some cp' ∧ pri_inv cp' ∧
    cpu_to_pri cp' = <[c := convert_prio prio]> (cpu_to_pri cp).
Proof.
  intros Hi Hp Hpr. destruct (lookup_lt_is_Some_2 (cpu_to_pri cp) c) as [old Hc].
  { rewrite (pi_cpus _ Hi). by apply Hposs. }
  rewrite (cpupri_set_result cp c old prio) by done. eexists. split; [done|].
  case_decide as E.
  - split; [done|]. symmetry. apply list_insert_id. congruence.
  - split; [|done]. apply set_result_inv; try done. by apply convert_prio_range.
Qed.

(** * cpupri_find *)

(** The CPUs the task may use that are recorded at level [p]. *)
Definition at_level (cp : cpupri) (allowed : gset nat) (p : nat) (c : nat) : Prop :=
  c ∈ allowed ∧ c ∈ possible ∧ cpu_to_pri cp !! c = Some (Z.of_nat p).

Lemma find_loop_spec k idx cp allowed lm :
  pri_inv cp → (idx + k ≤ length (pri_to_cpu cp))%nat →
  (∃ p m, find_loop k idx cp allowed lm = Some (1, m) ∧ (idx ≤ p < idx + k)%nat ∧
     (∀ q c, (idx ≤ q < p)%nat → ¬ at_level cp allowed q c) ∧
     (∃ c, at_level cp allowed p c) ∧
     (m = None ∧ lm = None ∨
      is_Some lm ∧ ∃ s, m = Some s ∧ ∀ c, c ∈ s ↔ at_level cp allowed p c)) ∨
  (find_loop k idx cp allowed lm = Some (0, lm) ∧
     ∀ q c, (idx ≤ q < idx + k)%nat → ¬ at_level cp allowed q c).
Proof.
  intros Hi. revert idx. induction k as [|k IH]; intros idx Hk; cbn [find_loop].
  { right. split; [done|lia]. }
  destruct (lookup_lt_is_Some_2 (pri_to_cpu cp) idx) as [v Hv]; [lia|].
  rewrite Hv. cbn [mbind option_bind]. pose proof (pi_mask _ Hi _ _ Hv) as Hm.
  assert (∀ c, c ∈ allowed ∩ mask v ↔ at_level cp allowed idx c) as Hat.
  { intros c. rewrite elem_of_intersection, Hm. unfold at_level. tauto. }
  destruct (decide (allowed ∩ mask v = ∅)) as [He|Hne].
  - assert (∀ c, ¬ at_level cp allowed idx c) as Hno.
    { intros c. rewrite <-Hat, He. set_solver. }
    assert ((if decide (count v = 0) then find_loop k (S idx) cp allowed lm
      else find_loop k (S idx) cp allowed lm) = find_loop k (S idx) cp allowed lm) as ->
      by by case_decide.
    assert (∀ q c, (q = idx ∨ ¬ at_level cp allowed q c) → ¬ at_level cp allowed q c) as Hq.
    { intros q c [->|]; [apply Hno|done]. }
    destruct (IH (S idx)) as [(p & m & -> & Hp & Hlo & Hrest)|[-> Hall]]; [lia|left|right].
    + destruct Hrest as [Hex Hmk]. exists p, m. split_and!; [done|lia|lia| |done|done].
      intros q c Hqr. apply Hq. destruct (decide (q = idx)); [by left|right; apply Hlo; lia].
    + split; [done|]. intros q c Hqr. apply Hq.
      destruct (decide (q = idx)); [by left|right; apply Hall; lia].
  - apply set_choose_L in Hne as Hex. destruct Hex as [c0 Hc0].
    assert (count v ≠ 0) as Hcnt.
    { rewrite (pi_count _ Hi _ _ Hv). assert (size (mask v) ≠ 0)%nat; [|lia].
      apply size_non_empty_iff. set_solver. }
    rewrite decide_False by done. left. exists idx.
    exists (match lm with None => None | Some _ => Some (allowed ∩ mask v) end).
    split_and!; [|lia|lia|lia|exists c0; by apply Hat|].
    + by destruct lm.
    + destruct lm as [s|]; [right|by left]. split; [done|]. by exists (allowed ∩ mask v).
Qed.

(** for a task whose level is below MAX_RT_PRIO, [cpupri_find] returns 1
    exactly when a CPU the task may use is recorded at a lower level, and then
    the mask it fills holds exactly the allowed CPUs of the lowest such level. *)
Theorem cpupri_find_correct cp prio allowed lm :
  pri_inv cp → convert_prio prio < MAX_RT_PRIO →
  (∃ p m, cpupri_find cp prio allowed lm = Some (1, m) ∧ Z.of_nat p < convert_prio prio ∧
     (∃ c, at_level cp allowed p c) ∧
     (∀ q c, (q < p)%nat → ¬ at_level cp allowed q c) ∧
     (m = None ∧ lm = None ∨
      is_Some lm ∧ ∃ s, m = Some s ∧ ∀ c, c ∈ s ↔ at_level cp allowed p c)) ∨
  (cpupri_find cp prio allowed lm = Some (0, lm) ∧
     ∀ q c, Z.of_nat q < convert_prio prio → ¬ at_level cp allowed q c).
Proof.
  intros Hi Hlt. unfold cpupri_find. rewrite decide_False by lia.
  pose proof (pi_vecs _ Hi) as Hl. unfold CPUPRI_NR_PRIORITIES in Hl.
  destruct (find_loop_spec (Z.to_nat (convert_prio prio)) 0 cp allowed lm Hi) as
    [(p & m & -> & Hp & Hlo & Hex & Hm)|[-> Hall]]; [lia|left|right].
  - exists p, m. split_and!; [done|lia|done| |done]. intros q c ?. apply Hlo. lia.
  - split; [done|]. intros q c ?. apply Hall. lia.
Qed.

(** * Concurrent searches *)

(** A level with a non-zero counter and an allowed CPU makes the search
    succeed, whatever the rest of the state is. *)
Lemma find_loop_hit k idx cp allowed lm p v :
  (idx ≤ p < idx + k)%nat → (idx + k ≤ length (pri_to_cpu cp))%nat →
  pri_to_cpu cp !! p = Some v → count v ≠ 0 → allowed ∩ mask v ≠ ∅ →
  ∃ m, find_loop k idx cp allowed lm = Some (1, m).
Proof.
  intros Hp Hl Hv Hc Hm. revert idx lm Hp Hl.
  induction k as [|k IH]; intros idx lm Hp Hl; [lia|]. cbn [find_loop].
  destruct (lookup_lt_is_Some_2 (pri_to_cpu cp) idx) as [w Hw]; [lia|].
  rewrite Hw. cbn [mbind option_bind].
  destruct (decide (p = idx)) as [->|].
  - rewrite Hv in Hw. injection Hw as <-. rewrite !decide_False by done. destruct lm; eauto.
  - repeat case_decide; destruct lm; eauto with lia.
Qed.

Lemma exec_op_length cp o cp' :
  exec_op cp o = Some cp' → length (pri_to_cpu cp') = length (pri_to_cpu cp).
Proof.
  destruct o; simpl; unfold upd_vec; intros H;
    repeat (apply bind_Some in H as (? & ? & H)); simplify_eq/=; eauto using aset_length.
Qed.

Lemma exec_ops_length os cp cp' :
  exec_ops cp os = Some cp' → length (pri_to_cpu cp') = length (pri_to_cpu cp).
Proof.
  unfold exec_ops. revert cp'. induction os as [|o os IH] using rev_ind; intros cp'.
  { by intros [= <-]. }
  rewrite foldl_app. simpl. intros (cp1 & E1 & E2)%bind_Some.
  rewrite (exec_op_length _ _ _ E2). by apply IH.
Qed.

(** The level at which the moving CPU is visible after any prefix of the
    operations. *)
Lemma set_ops_visible cp c old prio os n s :
  pri_inv cp → c ∈ possible → cpu_to_pri cp !! c = Some old → 0 ≤ old →
  0 ≤ prio → 0 ≤ convert_prio prio →
  cpupri_set_ops cp c prio = Some os → exec_ops cp (take n os) = Some s →
  ∃ p v, (Z.of_nat p = old ∨ Z.of_nat p = convert_prio prio) ∧
    pri_to_cpu s !! p = Some v ∧ count v ≠ 0 ∧ c ∈ mask v.
Proof.
  intros Hi Hp Hc Ho Hpr Hnew Hos Hex.
  pose proof (convert_prio_range prio ltac:(auto)) as Hr. pose proof (pi_range _ Hi _ _ Hc) as Hor.
  pose proof (pi_vecs _ Hi) as Hl.
  set (new := convert_prio prio) in *.
  destruct (lookup_lt_is_Some_2 (pri_to_cpu cp) (Z.to_nat old)) as [vo Hvo]; [lia|].
  destruct (lookup_lt_is_Some_2 (pri_to_cpu cp) (Z.to_nat new)) as [vn Hvn]; [lia|].
  assert (c ∈ mask vo) as Hin.
  { apply (pi_mask _ Hi _ _ Hvo). split; [done|]. rewrite Hc. f_equal. lia. }
  assert (count vo ≠ 0) as Hcnt.
  { rewrite (pi_count _ Hi _ _ Hvo). assert (size (mask vo) ≠ 0)%nat; [|lia].
    apply size_non_empty_iff. set_solver. }
  pose proof (mask_small _ _ _ Hi Hvn) as Hsn.
  unfold cpupri_set_ops in Hos. rewrite Hc in Hos. cbn [mbind option_bind] in Hos.
  fold new in Hos. rewrite decide_False in Hos by lia.
  destruct (decide (new = old)) as [Heq|Hne].
  { injection Hos as <-. rewrite take_nil in Hex. injection Hex as <-.
    exists (Z.to_nat old), vo. split_and!; [lia|done..]. }
  unfold CPUPRI_INVALID in Hos. rewrite !decide_True in Hos by lia. injection Hos as <-.
  assert (Z.to_nat new ≠ Z.to_nat old) as Hnn by lia.
  destruct n as [|[|[|[|[|n]]]]]; cbn [take app] in Hex;
    unfold exec_ops in Hex; cbn [foldl mbind option_bind exec_op] in Hex;
    repeat (rewrite upd_vec_alter in Hex by (cbn; rewrite ?length_alter; lia);
      cbn [mbind option_bind pri_to_cpu cpu_to_pri] in Hex).
  6: rewrite take_nil in Hex; cbn [foldl] in Hex; apply bind_Some in Hex as (ps & _ & Hex).
  all: injection Hex as <-; cbn [pri_to_cpu].
  1-2: exists (Z.to_nat old), vo; split_and!; [lia| |done|done];
    rewrite ?list_lookup_alter_ne by done; done.
  all: exists (Z.to_nat new); eexists; split; [lia|];
    rewrite ?(list_lookup_alter_ne _ _ (Z.to_nat old)) by done;
    rewrite !list_lookup_alter_eq, Hvn; split; [done|]; simpl;
    split; [rewrite s32_small by width; lia|set_solver].
Qed.

(** C30: the order of the operations of [cpupri_set] never hides the CPU: a
    search that runs between any two of them, for a task that may use the CPU
    and whose level is above both the old and the new level of the CPU but not one of
    the two top real-time priorities (for those, levels from [MAX_RT_PRIO] on, the
    search gives up at once), always succeeds. *)
Theorem cpupri_set_never_hides cp c old prio os n s tprio allowed lm :
  pri_inv cp → c ∈ possible → cpu_to_pri cp !! c = Some old → 0 ≤ old →
  0 ≤ prio → cpupri_set_ops cp c prio = Some os → exec_ops cp (take n os) = Some s →
  c ∈ allowed → convert_prio tprio < MAX_RT_PRIO →
  old < convert_prio tprio → 0 ≤ convert_prio prio < convert_prio tprio →
  ∃ m, cpupri_find s tprio allowed lm = Some (1, m).
Proof.
  intros Hi Hp Hc Ho Hpr Hos Hex Ha Hlt Hold Hnew.
  destruct (set_ops_visible cp c old prio os n s) as (p & v & Hlv & Hv & Hcnt & Hin); try done; [lia|].
  unfold cpupri_find. rewrite decide_False by lia.
  pose proof (exec_ops_length _ _ _ Hex) as Hl. rewrite (pi_vecs _ Hi) in Hl.
  unfold CPUPRI_NR_PRIORITIES in Hl.
  apply (find_loop_hit _ _ _ _ _ p v); [lia|lia|done|done|set_solver].
Qed.

(** [cpupri_find] gives up on the two highest real-time priorities: for
    task priority 0 and 1 (levels MAX_RT_PRIO + 1 and MAX_RT_PRIO, which the
    tables have) it returns 0 whatever CPUs are free. *)
Theorem cpupri_find_top_priorities cp prio allowed lm :
  0 ≤ prio ≤ 1 →
  MAX_RT_PRIO ≤ convert_prio prio < CPUPRI_NR_PRIORITIES ∧
  cpupri_find cp prio allowed lm = Some (0, lm).
Proof.
  intros Hp. unfold cpupri_find.
  assert (convert_prio prio = MAX_RT_PRIO - prio + 1) as ->.
  { unfold convert_prio, CPUPRI_INVALID. rewrite !decide_False by lia. done. }
  unfold CPUPRI_NR_PRIORITIES. split; [lia|]. by rewrite decide_True by lia.
Qed.

(** * Initialisation *)

Lemma cleanup_all i allocated :
  (∀ j, j ∈ allocated → (j < i)%nat) → cleanup i allocated = ∅.
Proof.
  revert allocated. induction i as [|i IH]; intros allocated H; simpl.
  { apply leibniz_equiv, set_equiv. intros j. split; [intros Hj%H; lia|set_solver]. }
  apply IH. intros j [Hj%H Hne]%elem_of_difference. set_unfold. lia.
Qed.

Lemma init_vecs_spec alloc k i allocated :
  (∀ j, j ∈ allocated ↔ (j < i)%nat) →
  match init_vecs alloc k i allocated with
  | (Ok, a) => ∀ j, j ∈ a ↔ (j < i + k)%nat
  | (Err e, a) => e = ENOMEM ∧ a = ∅ ∧ ∃ j, (i ≤ j < i + k)%nat ∧ alloc j = false
  end.
Proof.
  revert i allocated. induction k as [|k IH]; intros i allocated H; simpl.
  { intros j. rewrite H. lia. }
  destruct (alloc i) eqn:E.
  - specialize (IH (S i) (allocated ∪ {[i]})).
    destruct (init_vecs alloc k (S i) (allocated ∪ {[i]})) as [[|e] a].
    + intros j. rewrite IH; [lia|]. intros j'. rewrite elem_of_union, elem_of_singleton, H. lia.
    + destruct IH as (-> & -> & j & Hj & Ea).
      { intros j'. rewrite elem_of_union, elem_of_singleton, H. lia. }
      split_and!; [done..|]. exists j. split; [lia|done].
  - split_and!; [done| |exists i; split; [lia|done]]. apply cleanup_all. intros j. by rewrite H.
Qed.

Lemma elem_of_foldl_difference (l : list nat) (a : gset nat) j :
  j ∈ foldl (λ b i, b ∖ {[i]}) a l ↔ j ∈ a ∧ j ∉ l.
Proof.
  revert a. induction l as [|i l IH]; intros a; simpl; [set_solver|]. rewrite IH. set_solver.
Qed.

Lemma init_state_inv :
  pri_inv (Cpupri (replicate (Z.to_nat CPUPRI_NR_PRIORITIES) (Vec 0 ∅))
    ((λ c, if decide (c ∈ possible) then CPUPRI_INVALID else 0) <$> seq 0 NR_CPUS)).
Proof.
  assert (∀ c z, ((λ c, if decide (c ∈ possible) then CPUPRI_INVALID else 0) <$> seq 0 NR_CPUS) !! c
    = Some z → z = if decide (c ∈ possible) then CPUPRI_INVALID else 0) as Hz.
  { intros c z [x [-> [-> _]%lookup_seq]]%list_lookup_fmap_Some. done. }
  split; cbn [pri_to_cpu cpu_to_pri].
  - by rewrite length_replicate.
  - by rewrite length_fmap, length_seq.
  - intros p v [-> _]%lookup_replicate_1 c. cbn [mask]. split; [set_solver|].
    intros [Hc E%Hz]. rewrite decide_True in E by done. unfold CPUPRI_INVALID in E. lia.
  - by intros p v [-> _]%lookup_replicate_1.
  - intros c z ->%Hz. unfold CPUPRI_INVALID, CPUPRI_NR_PRIORITIES. case_decide; lia.
Qed.

(** [cpupri_init] either returns 0 with a structure that satisfies the
    invariant and one mask allocated per level, or -ENOMEM with every mask it
    had allocated freed again; [cpupri_cleanup] frees all masks. *)
Theorem cpupri_init_correct alloc :
  match cpupri_init NR_CPUS possible alloc with
  | (Ok, a, cp) =>
      pri_inv cp ∧ (∀ c, c ∈ possible → cpu_to_pri cp !! c = Some CPUPRI_INVALID) ∧
      (∀ j, j ∈ a ↔ (j < Z.to_nat CPUPRI_NR_PRIORITIES)%nat) ∧ cpupri_cleanup a = ∅
  | (Err e, a, _) => e = ENOMEM ∧ a = ∅
  end.
Proof.
  unfold cpupri_init. pose proof (init_vecs_spec alloc (Z.to_nat CPUPRI_NR_PRIORITIES) 0 ∅) as H.
  destruct (init_vecs _ _ _ _) as [[|e] a]; last first.
  { destruct H as (-> & -> & _); [|done]. intros j. split; [set_solver|lia]. }
  assert (∀ j, j ∈ a ↔ (j < Z.to_nat CPUPRI_NR_PRIORITIES)%nat) as Ha.
  { apply H. intros j. split; [set_solver|lia]. }
  split_and!; [|intros c Hc|done|].
  - apply init_state_inv.
  - cbn [cpu_to_pri]. rewrite list_lookup_fmap, lookup_seq_lt by by apply Hposs.
    simpl. by rewrite decide_True.
  - apply leibniz_equiv, set_equiv. intros j. unfold cpupri_cleanup.
    rewrite elem_of_foldl_difference, Ha, elem_of_seq. set_solver by lia.
Qed.
End cpupri.

(** * Instances on a machine with two CPUs *)

Definition two_cpus : gset nat := {[0%nat; 1%nat]}.

Definition init_two : cpupri :=
  Cpupri (replicate (Z.to_nat (CPUPRI_NR_PRIORITIES 100)) (Vec 0 ∅))
    ((λ c, if decide (c ∈ two_cpus) then CPUPRI_INVALID else 0) <$> seq 0 2).

Lemma two_cpus_lt c : c ∈ two_cpus → (c < 2)%nat.
Proof. unfold two_cpus. set_solver by lia. Qed.

Lemma init_two_inv : pri_inv 100 2 two_cpus init_two.
Proof. apply (init_state_inv 100 140); [lia|pow2; lia|pow2; lia|apply two_cpus_lt]. Qed.

Lemma cpupri_set_correct_witness :
  ∃ cp', cpupri_set 100 140 init_two 0 120 = Some cp' ∧ pri_inv 100 2 two_cpus cp' ∧
    cpu_to_pri cp' = [1; -1].
Proof.
  apply (cpupri_set_correct 100 140 2 two_cpus); [lia|pow2; lia|pow2; lia|apply two_cpus_lt|
    apply init_two_inv|by vm_compute|lia].
Defined.

(** CPU 0 idle. *)
Definition idle_two : cpupri := set_result init_two 0 (-1) 0.

Lemma idle_two_inv : pri_inv 100 2 two_cpus idle_two.
Proof.
  apply (set_result_inv 100 140); [lia|pow2; lia|pow2; lia|apply two_cpus_lt|
    apply init_two_inv|by vm_compute|done|lia|unfold CPUPRI_NR_PRIORITIES; lia].
Qed.

Lemma cpupri_find_correct_witness :
  ∃ m, cpupri_find 100 140 idle_two 50 two_cpus (Some ∅) = Some (1, m).
Proof.
  destruct (cpupri_find_correct 100 140 2 two_cpus) with (cp := idle_two) (prio := 50)
    (allowed := two_cpus) (lm := Some (∅ : gset nat)) as [(p & m & E & _)|[E Hno]];
    [lia|pow2; lia|pow2; lia|apply two_cpus_lt|apply idle_two_inv|by vm_compute|by exists m|].
  exfalso. apply (Hno 0%nat 0%nat); [by vm_compute|]. split_and!; by vm_compute.
Defined.

Lemma cpupri_set_never_hides_witness :
  ∃ os s m, cpupri_set_ops 100 140 idle_two 0 120 = Some os ∧
    exec_ops idle_two (take 3 os) = Some s ∧
    cpupri_find 100 140 s 50 two_cpus None = Some (1, m).
Proof.
  destruct (cpupri_set_ops 100 140 idle_two 0 120) as [os|] eqn:Eo; [|by vm_compute in Eo].
  destruct (exec_ops idle_two (take 3 os)) as [s|] eqn:Es; last first.
  { exfalso. vm_compute in Eo. injection Eo as <-. by vm_compute in Es. }
  destruct (cpupri_set_never_hides 100 140 2 two_cpus) with (cp := idle_two) (c := 0%nat)
    (old := 0) (prio := 120) (os := os) (n := 3%nat) (s := s) (tprio := 50)
    (allowed := two_cpus) (lm := None : option (gset nat)) as [m Hm];
    [lia|pow2; lia|pow2; lia|apply two_cpus_lt|apply idle_two_inv|by vm_compute|by vm_compute|
     lia|lia|done|done|by vm_compute|by vm_compute|by vm_compute|by vm_compute|].
  by exists os, s, m.
Defined.

Lemma cpupri_find_top_priorities_witness :
  (100 ≤ convert_prio 100 140 0 < CPUPRI_NR_PRIORITIES 100) ∧
  cpupri_find 100 140 idle_two 0 two_cpus (Some ∅) = Some (0, Some ∅).
Proof. apply (cpupri_find_top_priorities 100 140 2); lia. Defined.

Lemma cpupri_init_correct_witness :
  match cpupri_init 100 2 two_cpus (λ i, bool_decide (i < 7)%nat) with
  | (Ok, _, _) => False
  | (Err e, a, _) => e = ENOMEM ∧ a = ∅
  end.
Proof.
  pose proof (cpupri_init_correct 100 140 2 two_cpus ltac:(lia) ltac:(pow2; lia)
    ltac:(pow2; lia) two_cpus_lt (λ i, bool_decide (i < 7)%nat)) as H.
  destruct (cpupri_init 100 2 two_cpus (λ i, bool_decide (i < 7)%nat)) as [[[|e] a] cp] eqn:E.
  - exfalso. apply (f_equal (λ x, x.1.1)) in E. by vm_compute in E.
  - exact H.
Defined.
