(* ===== verification/ResCounter.v ===== *)
(** ResCounter: the hierarchical resource counters of kernel/res_counter.c.

    Counters live in a store and point to their parents.  A charge walks from a
    counter to the root and charges every counter on the way; if one of them
    would exceed its limit the charges made so far are undone.  The locks
    serialise the accesses and are not represented. *)

From Stdlib Require Import Ascii.
From stdpp Require Import strings.
From S2P Require Import Prelude.

Local Open Scope Z_scope.

(** [struct res_counter]; addresses are natural numbers, [NULL] is [None]. *)
Record res_counter := Counter {
  usage : Z;
  max_usage : Z;
  limit : Z;
  soft_limit : Z;
  failcnt : Z;
  parent : option nat;
}.

Inductive member := RES_USAGE | RES_MAX_USAGE | RES_LIMIT | RES_FAILCNT | RES_SOFT_LIMIT.

Abbreviation store := (gmap nat res_counter).

Definition set_usage (c : res_counter) (u : Z) : res_counter :=
  Counter u (max_usage c) (limit c) (soft_limit c) (failcnt c) (parent c).
Definition set_max_usage (c : res_counter) (m : Z) : res_counter :=
  Counter (usage c) m (limit c) (soft_limit c) (failcnt c) (parent c).
Definition set_failcnt (c : res_counter) (f : Z) : res_counter :=
  Counter (usage c) (max_usage c) (limit c) (soft_limit c) f (parent c).

(** [res_counter_charge_locked] on one counter. *)
Definition res_counter_charge_locked (c : res_counter) (val : Z) (force : bool)
    : ret * res_counter :=
  let over := bool_decide (limit c < u64 (usage c + val)) in
  let c1 := if over then set_failcnt c (u64 (failcnt c + 1)) else c in
  let r := if over then Err ENOMEM else Ok in
  if over && negb force then (r, c1)
  else
    let c2 := set_usage c1 (u64 (usage c1 + val)) in
    let c3 := if bool_decide (max_usage c2 < usage c2)
              then set_max_usage c2 (usage c2) else c2 in
    (r, c3).

(** [res_counter_uncharge_locked]; the [WARN_ON] only prints. *)
Definition res_counter_uncharge_locked (c : res_counter) (val : Z) : Z * res_counter :=
  let val := if bool_decide (usage c < val) then usage c else val in
  let c1 := set_usage c (u64 (usage c - val)) in
  (usage c1, c1).

(** The charging loop of [__res_counter_charge] from [c] on.  The result: the
    store, [ret], [*limit_fail_at] and the [c] at which the loop stopped.  A
    walk over a hierarchy of [n] levels needs [n + 1] units of fuel. *)
Fixpoint charge_loop (fuel : nat) (st : store) (c : option nat) (val : Z)
    (force : bool) (r : ret) (fail_at : option nat)
    : option (store * ret * option nat * option nat) :=
  match fuel with
  | O => None
  | S fuel' =>
      match c with
      | None => Some (st, r, fail_at, None)
      | Some a =>
          ctr ← st !! a;
          let '(r1, ctr1) := res_counter_charge_locked ctr val force in
          let st1 := <[a := ctr1]> st in
          if decide (r1 ≠ Ok ∧ r = Ok) then
            if force then charge_loop fuel' st1 (parent ctr) val force r1 (Some a)
            else Some (st1, r1, Some a, Some a)
          else charge_loop fuel' st1 (parent ctr) val force r fail_at
      end
  end.

(** [for (u = counter; u != c; u = u->parent) uncharge_locked(u, val)]; also
    the loop of [res_counter_uncharge_until].  The first component is the usage
    left in the first counter. *)
Fixpoint uncharge_loop (fuel : nat) (st : store) (u c : option nat) (val : Z)
    : option (store * option Z) :=
  match fuel with
  | O => None
  | S fuel' =>
      if decide (u = c) then Some (st, None)
      else
        a ← u;
        ctr ← st !! a;
        let '(rest, ctr1) := res_counter_uncharge_locked ctr val in
        '(st', _) ← uncharge_loop fuel' (<[a := ctr1]> st) (parent ctr) c val;
        Some (st', Some rest)
  end.

Definition __res_counter_charge (fuel : nat) (st : store) (counter : nat) (val : Z)
    (force : bool) : option (store * ret * option nat) :=
  '(st1, r, fail_at, c) ← charge_loop fuel st (Some counter) val force Ok None;
  if decide (r ≠ Ok ∧ force = false) then
    '(st2, _) ← uncharge_loop fuel st1 (Some counter) c val;
    Some (st2, r, fail_at)
  else Some (st1, r, fail_at).

Definition res_counter_charge (fuel : nat) (st : store) (counter : nat) (val : Z) :=
  __res_counter_charge fuel st counter val false.

Definition res_counter_charge_nofail (fuel : nat) (st : store) (counter : nat) (val : Z) :=
  __res_counter_charge fuel st counter val true.

(** [res_counter_uncharge_until]; [ret] stays 0 when [counter == top]. *)
Definition res_counter_uncharge_until (fuel : nat) (st : store) (counter : nat)
    (top : option nat) (val : Z) : option (store * Z) :=
  '(st', r) ← uncharge_loop fuel st (Some counter) top val;
  Some (st', default 0 r).

Definition res_counter_uncharge (fuel : nat) (st : store) (counter : nat) (val : Z) :=
  res_counter_uncharge_until fuel st counter None val.

Definition res_counter_member (c : res_counter) (m : member) : Z :=
  match m with
  | RES_USAGE => usage c
  | RES_MAX_USAGE => max_usage c
  | RES_LIMIT => limit c
  | RES_FAILCNT => failcnt c
  | RES_SOFT_LIMIT => soft_limit c
  end.

Definition res_counter_read_u64 (c : res_counter) (m : member) : Z :=
  res_counter_member c m.

Section params.
(** linux/res_counter.h, lib/cmdline.c, lib/vsprintf.c, linux/mm.h *)
Context (RES_COUNTER_MAX : Z).
Context (simple_strtoull memparse : string → Z * string).
Context (PAGE_ALIGN : Z → Z).

Definition res_counter_init (c : res_counter) (p : option nat) : res_counter :=
  Counter (usage c) (max_usage c) RES_COUNTER_MAX RES_COUNTER_MAX (failcnt c) p.

Definition res_counter_memparse_write_strategy (buf : string) : errno + Z :=
  match buf with
  | String "-"%char rest =>
      let '(res, end_) := simple_strtoull rest in
      if decide (res ≠ 1 ∨ end_ ≠ EmptyString) then inl EINVAL
      else inr RES_COUNTER_MAX
  | _ =>
      let '(res, end_) := memparse buf in
      if decide (end_ ≠ EmptyString) then inl EINVAL
      else if decide (res ≤ PAGE_ALIGN res) then inr (PAGE_ALIGN res)
      else inr RES_COUNTER_MAX
  end.
End params.

(** * Paths through the hierarchy *)

(** [l] is the walk over parents from [u] that stops when it reaches [c]. *)
Fixpoint path (st : store) (u : option nat) (l : list nat) (c : option nat) : Prop :=
  match l with
  | [] => u = c
  | a :: l' => u = Some a ∧ u ≠ c ∧
      ∃ ctr, st !! a = Some ctr ∧ path st (parent ctr) l' c
  end.

Lemma path_unique st u l1 l2 c : path st u l1 c → path st u l2 c → l1 = l2.
Proof.
  revert u l2. induction l1 as [|a l1 IH]; intros u [|b l2]; simpl.
  - done.
  - intros -> (-> & ? & _). done.
  - intros (-> & ? & _) ?. done.
  - intros (-> & _ & x & Hx & H1) ([= <-] & _ & y & Hy & H2).
    rewrite Hx in Hy. injection Hy as <-. f_equal. by eapply IH.
Qed.

Lemma path_split st u l1 a l2 c :
  path st u (l1 ++ a :: l2) c → path st (Some a) (a :: l2) c.
Proof.
  revert u. induction l1 as [|b l1 IH]; intros u; simpl.
  - by intros (-> & ?).
  - intros (_ & _ & x & _ & H). by eapply IH.
Qed.

(** A walk that ends visits no counter twice. *)
Lemma path_NoDup st u l c : path st u l c → NoDup l.
Proof.
  revert u. induction l as [|a l IH]; intros u H; [constructor|].
  constructor.
  - intros (l1 & l2 & ->)%list_elem_of_split.
    pose proof (path_split st u [] a (l1 ++ a :: l2) c H) as H1.
    pose proof (path_split st u (a :: l1) a l2 c H) as H2.
    pose proof (path_unique _ _ _ _ _ H1 H2) as E.
    apply (f_equal length) in E. simpl in E. rewrite length_app in E. simpl in E. lia.
  - destruct H as (_ & _ & x & _ & H). by eapply IH.
Qed.

(** The same hierarchy: every counter has the same parent. *)
Definition same_tree (st st' : store) : Prop :=
  ∀ a, parent <$> st' !! a = parent <$> st !! a.

Global Instance same_tree_equiv : Equivalence same_tree.
Proof.
  split; [by intros st a|by intros st1 st2 H a|].
  intros st1 st2 st3 H1 H2 a. by rewrite H2, H1.
Qed.

Lemma path_same_tree st st' u l c : same_tree st st' → path st u l c → path st' u l c.
Proof.
  intros Ht. revert u. induction l as [|a l IH]; intros u; simpl; [done|].
  intros (-> & Hne & x & Hx & H). split_and!; [done..|].
  specialize (Ht a). rewrite Hx in Ht.
  destruct (st' !! a) as [y|]; [|done]. injection Ht as E. exists y. rewrite E. auto.
Qed.

(** A prefix of a walk, ending at a later counter of it. *)
Lemma path_prefix st u l1 a l2 c :
  path st u (l1 ++ a :: l2) c → path st u l1 (Some a).
Proof.
  intros H. pose proof (path_NoDup _ _ _ _ H) as Hnd. revert u H Hnd.
  induction l1 as [|b l1 IH]; intros u H Hnd; simpl in *.
  - by destruct H as (-> & _).
  - destruct H as (-> & _ & x & Hx & H). apply NoDup_cons in Hnd as [Hb Hnd].
    split_and!; [done| |eauto]. intros [= ->]. apply Hb. set_solver.
Qed.

Lemma same_tree_insert st a ctr ctr' :
  st !! a = Some ctr → parent ctr' = parent ctr → same_tree st (<[a := ctr']> st).
Proof.
  intros H E b. destruct (decide (b = a)) as [->|].
  - rewrite lookup_insert_eq, H. simpl. by rewrite E.
  - by rewrite lookup_insert_ne.
Qed.

(** [f] applied to the counters of [l]. *)
Definition on_path (f : res_counter → res_counter) (l : list nat) (st st' : store) : Prop :=
  ∀ a, st' !! a = if decide (a ∈ l) then f <$> st !! a else st !! a.

Lemma on_path_cons f a l st ctr st' :
  a ∉ l → st !! a = Some ctr →
  on_path f l (<[a := f ctr]> st) st' → on_path f (a :: l) st st'.
Proof.
  intros Ha Hc H b. rewrite H. destruct (decide (b = a)) as [->|Hne].
  - rewrite decide_False by done. rewrite (decide_True (P := a ∈ a :: l)) by set_solver.
    by rewrite lookup_insert_eq, Hc.
  - rewrite lookup_insert_ne by done. case_decide; case_decide; done || set_solver.
Qed.

(** * One counter *)

Definition over (val : Z) (c : res_counter) : Prop := limit c < usage c + val.

Global Instance over_dec val c : Decision (over val c).
Proof. unfold over. apply _. Defined.

(** The values of a counter fit 64 bits and the charge does not wrap. *)
Definition sane (val : Z) (c : res_counter) : Prop :=
  0 ≤ usage c ∧ usage c + val < 2 ^ 64.

Definition charged (val : Z) (c : res_counter) : res_counter :=
  Counter (usage c + val) (Z.max (max_usage c) (usage c + val))
    (limit c) (soft_limit c) (failcnt c) (parent c).

Definition failed (c : res_counter) : res_counter := set_failcnt c (u64 (failcnt c + 1)).

(** What is left of a charge that was undone: the high-water mark. *)
Definition raised (val : Z) (c : res_counter) : res_counter :=
  set_max_usage c (Z.max (max_usage c) (usage c + val)).

Lemma charge_locked_fits val force c :
  0 ≤ val → sane val c → ¬ over val c →
  res_counter_charge_locked c val force = (Ok, charged val c).
Proof.
  intros Hv [H1 H2] Ho. unfold res_counter_charge_locked, over in *.
  rewrite wrap_small by width. rewrite bool_decide_eq_false_2 by lia. simpl.
  rewrite wrap_small by width. unfold charged, set_max_usage, set_usage.
  case_bool_decide as E; simpl in *; f_equal; f_equal; lia.
Qed.

Lemma charge_locked_over val c :
  0 ≤ val → sane val c → over val c →
  res_counter_charge_locked c val false = (Err ENOMEM, failed c).
Proof.
  intros Hv [H1 H2] Ho. unfold res_counter_charge_locked, over in *.
  rewrite wrap_small by width. rewrite bool_decide_eq_true_2 by lia. done.
Qed.

Lemma charge_locked_forced val c :
  0 ≤ val → sane val c → over val c →
  res_counter_charge_locked c val true = (Err ENOMEM, charged val (failed c)).
Proof.
  intros Hv [H1 H2] Ho. unfold res_counter_charge_locked, over in *.
  rewrite (wrap_small 64 (usage c + val)) by width.
  rewrite bool_decide_eq_true_2 by lia. simpl.
  rewrite (wrap_small 64 (usage c + val)) by width.
  unfold charged, failed, set_max_usage, set_usage, set_failcnt. simpl.
  case_bool_decide as E; simpl in *; f_equal; f_equal; lia.
Qed.

Lemma uncharge_locked_fits val c :
  0 ≤ val ≤ usage c → usage c < 2 ^ 64 →
  res_counter_uncharge_locked c val = (usage c - val, set_usage c (usage c - val)).
Proof.
  intros Hv Hu. unfold res_counter_uncharge_locked. rewrite bool_decide_eq_false_2 by lia.
  simpl. by rewrite wrap_small by width.
Qed.

(** * The loops *)

(** Updating the head of a walk leaves the rest of it as it was. *)
Lemma path_tail st a l c ctr ctr' (P : res_counter → Prop) :
  path st (Some a) (a :: l) c → st !! a = Some ctr → parent ctr' = parent ctr →
  (∀ b x, b ∈ a :: l → st !! b = Some x → P x) →
  a ∉ l ∧ path (<[a := ctr']> st) (parent ctr) l c ∧ P ctr ∧
  (∀ b x, b ∈ l → <[a := ctr']> st !! b = Some x → st !! b = Some x ∧ P x).
Proof.
  intros Hp Hc Hpar HP. pose proof (path_NoDup _ _ _ _ Hp) as [Ha _]%NoDup_cons.
  destruct Hp as (_ & _ & x & Hx & Hp). assert (x = ctr) as -> by congruence.
  split_and!; [done| |by eapply HP; [left|]|].
  - eapply path_same_tree; [|done]. by eapply same_tree_insert.
  - intros b y Hb. rewrite lookup_insert_ne by (intros ->; done). intros Hy.
    split; [done|]. eapply HP; [by right|done].
Qed.

Lemma charge_loop_success fuel st c l val fa :
  path st c l None → (length l < fuel)%nat → 0 ≤ val →
  (∀ a x, a ∈ l → st !! a = Some x → sane val x ∧ ¬ over val x) →
  ∃ st', charge_loop fuel st c val false Ok fa = Some (st', Ok, fa, None) ∧
    on_path (charged val) l st st'.
Proof.
  intros Hp Hf Hv. revert st c fuel Hp Hf.
  induction l as [|a l IH]; intros st c [|fuel] Hp Hf Hs; simpl in Hf; try lia.
  { simpl in Hp. subst c. exists st. split; [done|]. intros a. by rewrite decide_False by set_solver. }
  pose proof Hp as (-> & _ & ctr & Hc & _). cbn [charge_loop]. rewrite Hc. cbn [mbind option_bind].
  destruct (path_tail st a l None ctr (charged val ctr) (λ x, sane val x ∧ ¬ over val x) Hp Hc eq_refl Hs)
    as (Ha & Hp' & [Hsn Hov] & Hs').
  rewrite charge_locked_fits by done. rewrite decide_False by tauto.
  destruct (IH (<[a := charged val ctr]> st) (parent ctr) fuel) as (st' & -> & Ho); [done|lia| |].
  { intros b x Hb Hx. by apply (Hs' b x Hb Hx). }
  exists st'. split; [done|]. by eapply on_path_cons.
Qed.

Lemma charge_loop_failure fuel st c l1 a l2 ctr val fa :
  path st c (l1 ++ a :: l2) None → (length l1 < fuel)%nat → 0 ≤ val →
  (∀ b x, b ∈ l1 → st !! b = Some x → sane val x ∧ ¬ over val x) →
  st !! a = Some ctr → sane val ctr → over val ctr →
  ∃ st', charge_loop fuel st c val false Ok fa =
      Some (<[a := failed ctr]> st', Err ENOMEM, Some a, Some a) ∧
    on_path (charged val) l1 st st'.
Proof.
  intros Hp Hf Hv. revert st c fuel Hp Hf.
  induction l1 as [|b l1 IH]; intros st c [|fuel] Hp Hf Hs Hca Hsa Hoa; simpl in Hf; try lia.
  { destruct Hp as (-> & _ & _). cbn [charge_loop]. rewrite Hca. cbn [mbind option_bind].
    rewrite charge_locked_over by done. rewrite decide_True by done. exists st.
    split; [done|]. intros b. by rewrite decide_False by set_solver. }
  pose proof Hp as (-> & _ & x & Hc & _). cbn [charge_loop]. rewrite Hc. cbn [mbind option_bind].
  destruct (path_tail st b (l1 ++ a :: l2) None x (charged val x) (λ _, True) Hp Hc eq_refl)
    as (Hb & Hp' & _ & _); [done|].
  destruct (Hs b x) as [Hsn Hov]; [by left|done|].
  rewrite charge_locked_fits by done. rewrite decide_False by tauto.
  assert (a ≠ b) by set_solver.
  destruct (IH (<[b := charged val x]> st) (parent x) fuel) as (st' & -> & Ho); [done|lia| | |done..|].
  { intros d y Hd. rewrite lookup_insert_ne by set_solver. intros Hy. apply (Hs d y); [by right|done]. }
  { by rewrite lookup_insert_ne. }
  exists st'. split; [done|]. eapply on_path_cons; [set_solver|done|done].
Qed.

Definition uncharged (val : Z) (c : res_counter) : res_counter :=
  set_usage c (usage c - val).

Lemma uncharge_loop_spec fuel st u l c val :
  path st u l c → (length l < fuel)%nat → 0 ≤ val →
  (∀ a x, a ∈ l → st !! a = Some x → val ≤ usage x < 2 ^ 64) →
  ∃ st' r, uncharge_loop fuel st u c val = Some (st', r) ∧
    on_path (uncharged val) l st st' ∧
    r = (a ← head l; x ← st !! a; Some (usage x - val)).
Proof.
  intros Hp Hf Hv. revert st u fuel Hp Hf.
  induction l as [|a l IH]; intros st u [|fuel] Hp Hf Hs; simpl in Hf; try lia.
  { simpl in Hp. subst u. cbn [uncharge_loop]. rewrite decide_True by done.
    exists st, None. split_and!; [done| |done]. intros a. by rewrite decide_False by set_solver. }
  pose proof Hp as (-> & Hne & ctr & Hc & _). cbn [uncharge_loop].
  rewrite decide_False by done. cbn [mbind option_bind]. rewrite Hc. cbn [mbind option_bind].
  destruct (path_tail st a l c ctr (uncharged val ctr) (λ x, val ≤ usage x < 2 ^ 64) Hp Hc eq_refl Hs)
    as (Ha & Hp' & Hu & Hs').
  rewrite uncharge_locked_fits by lia. fold (uncharged val ctr).
  destruct (IH (<[a := uncharged val ctr]> st) (parent ctr) fuel) as (st' & r & -> & Ho & _); [done|lia| |].
  { intros b x Hb Hx. by apply (Hs' b x Hb Hx). }
  cbn [mbind option_bind]. exists st', (Some (usage ctr - val)). split_and!; [done| |].
  - by eapply on_path_cons.
  - simpl. by rewrite Hc.
Qed.

(** * Charging *)

(** The first counter of the walk that the charge would exceed, or none. *)
Lemma first_over (st : store) (l : list nat) val :
  (∀ a, a ∈ l → is_Some (st !! a)) →
  (∀ a x, a ∈ l → st !! a = Some x → ¬ over val x) ∨
  (∃ l1 a l2 ctr, l = l1 ++ a :: l2 ∧ st !! a = Some ctr ∧ over val ctr ∧
    ∀ b x, b ∈ l1 → st !! b = Some x → ¬ over val x).
Proof.
  induction l as [|a l IH]; intros Hin; [left; set_solver|].
  destruct (Hin a) as [ctr Hc]; [set_solver|].
  destruct (decide (over val ctr)) as [Ho|Ho].
  { right. exists [], a, l, ctr. split_and!; [done..|]. set_solver. }
  destruct IH as [Hno|(l1 & b & l2 & x & -> & Hx & Hox & Hb)]; [set_solver|left|right].
  - intros b x [->|Hb]%elem_of_cons Hx; [congruence|by eapply Hno].
  - exists (a :: l1), b, l2, x. split_and!; [done..|].
    intros d y [->|Hd]%elem_of_cons Hy; [congruence|by eapply Hb].
Qed.

Lemma path_is_Some st u l c a : path st u l c → a ∈ l → is_Some (st !! a).
Proof.
  revert u. induction l as [|b l IH]; intros u; [set_solver|].
  intros (_ & _ & x & Hx & Hp) [->|Ha]%elem_of_cons; [done|by eapply IH].
Qed.

(** The two outcomes of a charge that may fail. *)
Definition charge_ok (st st' : store) (l : list nat) (val : Z) : Prop :=
  (∀ a x, a ∈ l → st !! a = Some x → usage x + val ≤ limit x) ∧
  on_path (charged val) l st st'.

Definition charge_failed (st st' : store) (l : list nat) (val : Z) (a : nat) : Prop :=
  ∃ l1 l2 ctr, l = l1 ++ a :: l2 ∧ st !! a = Some ctr ∧ limit ctr < usage ctr + val ∧
    (∀ b x, b ∈ l1 → st !! b = Some x → usage x + val ≤ limit x) ∧
    ∀ b, st' !! b = if decide (b = a) then Some (failed ctr)
                    else if decide (b ∈ l1) then raised val <$> st !! b else st !! b.

Lemma charge_cases fuel st counter l val :
  path st (Some counter) l None → (length l < fuel)%nat → 0 ≤ val →
  (∀ a x, a ∈ l → st !! a = Some x → sane val x) →
  (∃ st', res_counter_charge fuel st counter val = Some (st', Ok, None) ∧
     charge_ok st st' l val) ∨
  (∃ st' a, res_counter_charge fuel st counter val = Some (st', Err ENOMEM, Some a) ∧
     charge_failed st st' l val a).
Proof.
  intros Hp Hf Hv Hs. unfold res_counter_charge, __res_counter_charge.
  destruct (first_over st l val) as [Hno|(l1 & a & l2 & ctr & -> & Hc & Ho & Hl1)].
  { intros a. by eapply path_is_Some. }
  - left. destruct (charge_loop_success fuel st (Some counter) l val None) as (st' & -> & Hon);
      [done..|intros; split; eauto|].
    exists st'. cbn [mbind option_bind]. split; [by rewrite decide_False by tauto|]. split; [|done].
    intros a x Ha Hx. specialize (Hno a x Ha Hx). unfold over in Hno. lia.
  - right. rewrite length_app in Hf. simpl in Hf.
    destruct (charge_loop_failure fuel st (Some counter) l1 a l2 ctr val None)
      as (st1 & -> & Hon); [done|lia|done| |done| |done|].
    { intros b x Hb Hx. split; [apply (Hs b x); [set_solver|done]|eauto]. }
    { apply (Hs a); [set_solver|done]. }
    cbn [mbind option_bind]. rewrite decide_True by done.
    pose proof (path_NoDup _ _ _ _ Hp) as Hnd.
    assert (a ∉ l1) as Ha.
    { intros Hin. apply NoDup_app in Hnd as (_ & Hd & _). eapply Hd; [done|left]. }
    assert (st1 !! a = Some ctr) as Hc1. { rewrite Hon. by rewrite decide_False. }
    assert (same_tree st st1) as Ht1.
    { intros b. rewrite Hon. case_decide; [|done]. by destruct (st !! b). }
    assert (same_tree st (<[a := failed ctr]> st1)) as Ht.
    { etransitivity; [done|]. by eapply same_tree_insert. }
    destruct (uncharge_loop_spec fuel (<[a := failed ctr]> st1) (Some counter) l1 (Some a) val)
      as (st2 & r & -> & Hun & _); [|lia|done| |].
    { eapply path_same_tree; [done|]. by eapply path_prefix. }
    { intros b x Hb. rewrite lookup_insert_ne by (intros ->; done). rewrite Hon.
      rewrite decide_True by done. destruct (st !! b) as [y|] eqn:Hy; [|done].
      intros [= <-]. simpl. destruct (Hs b y); [set_solver|done|]. lia. }
    cbn [mbind option_bind]. exists st2, a. split; [done|]. exists l1, l2, ctr.
    split_and!; [done|done|done| |].
    + intros b x Hb Hx. specialize (Hl1 b x Hb Hx). unfold over in Hl1. lia.
    + intros b. rewrite Hun. destruct (decide (b = a)) as [->|Hne].
      { by rewrite decide_False, lookup_insert_eq. }
      rewrite lookup_insert_ne by done. rewrite Hon. case_decide; [|done].
      destruct (st !! b) as [y|]; [|done]. simpl. unfold raised, uncharged, charged, set_usage, set_max_usage.
      simpl. do 2 f_equal. lia.
Qed.

(** C12: a charge is all or nothing over the hierarchy.  Either every counter
    from [counter] to the root has room, and each of them is charged (and its
    high-water mark raised); or the charge returns -ENOMEM and names the first
    counter without room, and then every counter keeps its usage, limits and
    parent: only that counter's failure count and the high-water marks of the
    counters below it change.  Counters outside the path never change. *)
Theorem res_counter_charge_atomic fuel st counter l val :
  path st (Some counter) l None → (length l < fuel)%nat → 0 ≤ val →
  (∀ a x, a ∈ l → st !! a = Some x → sane val x) →
  (∃ st', res_counter_charge fuel st counter val = Some (st', Ok, None) ∧
     charge_ok st st' l val) ∨
  (∃ st' a, res_counter_charge fuel st counter val = Some (st', Err ENOMEM, Some a) ∧
     charge_failed st st' l val a).
Proof. apply charge_cases. Qed.

(** Two levels: a group (1) with limit 100 below the root (0) with limit 50. *)
Definition two_levels : store :=
  <[1%nat := Counter 10 10 100 100 0 (Some 0%nat)]> {[0%nat := Counter 40 40 50 50 0 None]}.

Lemma two_levels_path : path two_levels (Some 1%nat) [1%nat; 0%nat] None.
Proof. simpl. split_and!; [done..|]. eexists. split; [done|]. split_and!; [done..|]. eauto. Qed.

Lemma two_levels_sane val a x :
  0 ≤ val < 1000 → a ∈ [1%nat; 0%nat] → two_levels !! a = Some x → sane val x.
Proof.
  intros Hv Ha Hx. unfold sane.
  apply elem_of_cons in Ha as [->|Ha%list_elem_of_singleton]; [|subst a];
    vm_compute in Hx; injection Hx as <-; simpl; pow2; lia.
Qed.

Lemma res_counter_charge_atomic_witness :
  ∃ st' a, res_counter_charge 3 two_levels 1 20 = Some (st', Err ENOMEM, Some a) ∧
     charge_failed two_levels st' [1%nat; 0%nat] 20 a.
Proof.
  destruct (res_counter_charge_atomic 3 two_levels 1 [1%nat; 0%nat] 20)
    as [(st' & E & _)|H]; [apply two_levels_path|simpl; lia|lia| | |exact H].
  - intros a x Ha Hx. by apply (two_levels_sane 20 a).
  - exfalso. apply (f_equal (λ o, r ← o; Some (r.1.2))) in E. by vm_compute in E.
Defined.

(** The limits hold everywhere. *)
Definition within_limits (st : store) : Prop :=
  ∀ a x, st !! a = Some x → 0 ≤ usage x ≤ limit x.

(** the limits are never exceeded: charging and uncharging keep every
    counter of the store within its limit. *)
Theorem res_counter_limits fuel st counter l val :
  path st (Some counter) l None → (length l < fuel)%nat → 0 ≤ val →
  (∀ a x, a ∈ l → st !! a = Some x → sane val x) → within_limits st →
  (∃ st' r fail_at, res_counter_charge fuel st counter val = Some (st', r, fail_at) ∧
     within_limits st') ∧
  ((∀ a x, a ∈ l → st !! a = Some x → val ≤ usage x) →
   ∃ st' left, res_counter_uncharge fuel st counter val = Some (st', left) ∧
     within_limits st').
Proof.
  intros Hp Hf Hv Hs Hw. split.
  - destruct (charge_cases fuel st counter l val Hp Hf Hv Hs) as
      [(st' & -> & Hroom & Hon)|(st' & a & -> & l1 & l2 & ctr & -> & Hc & Ho & Hroom & Hst)];
      eexists _, _, _; (split; [done|]); intros b x Hx.
    + rewrite Hon in Hx. case_decide as Hb; [|by apply (Hw b)].
      destruct (st !! b) as [y|] eqn:Hy; [|done]. injection Hx as <-. simpl.
      specialize (Hroom b y Hb Hy). specialize (Hw b y Hy). lia.
    + rewrite Hst in Hx. case_decide; [simplify_eq; by apply (Hw a ctr)|].
      case_decide as Hb; [|by apply (Hw b)].
      destruct (st !! b) as [y|] eqn:Hy; [|done]. injection Hx as <-. by apply (Hw b y).
  - intros Hu. unfold res_counter_uncharge, res_counter_uncharge_until.
    destruct (uncharge_loop_spec fuel st (Some counter) l None val) as (st' & r & -> & Hon & _);
      [done..| |].
    { intros a x Ha Hx. specialize (Hu a x Ha Hx). destruct (Hs a x Ha Hx). lia. }
    eexists _, _. split; [done|]. intros b x Hx. rewrite Hon in Hx.
    case_decide as Hb; [|by apply (Hw b)].
    destruct (st !! b) as [y|] eqn:Hy; [|done]. injection Hx as <-. simpl.
    specialize (Hu b y Hb Hy). specialize (Hw b y Hy). lia.
Qed.

Lemma res_counter_limits_witness :
  (∃ st' r fail_at, res_counter_charge 3 two_levels 1 5 = Some (st', r, fail_at) ∧
     within_limits st') ∧
  ((∀ a x, a ∈ [1%nat; 0%nat] → two_levels !! a = Some x → 5 ≤ usage x) →
   ∃ st' left, res_counter_uncharge 3 two_levels 1 5 = Some (st', left) ∧ within_limits st').
Proof.
  apply (res_counter_limits 3 two_levels 1 [1%nat; 0%nat] 5);
    [apply two_levels_path|simpl; lia|lia|intros a x Ha Hx; by apply (two_levels_sane 5 a)|].
  intros a x Hx. unfold two_levels in Hx. apply lookup_insert_Some in Hx as [[<- <-]|[_ Hx]];
    [simpl; lia|]. apply lookup_singleton_Some in Hx as [<- <-]. simpl. lia.
Defined.

(** Uncharging what was charged gives back every usage: after a successful
    charge and the matching uncharge every counter is as before except for its
    high-water mark, and the uncharge returns the original usage. *)
Theorem res_counter_charge_uncharge fuel st counter l val st1 :
  path st (Some counter) l None → (length l < fuel)%nat → 0 ≤ val →
  (∀ a x, a ∈ l → st !! a = Some x → sane val x) →
  res_counter_charge fuel st counter val = Some (st1, Ok, None) →
  ∃ st2 x, st !! counter = Some x ∧
    res_counter_uncharge fuel st1 counter val = Some (st2, usage x) ∧
    on_path (raised val) l st st2.
Proof.
  intros Hp Hf Hv Hs E.
  destruct (charge_cases fuel st counter l val Hp Hf Hv Hs) as
    [(st' & E' & Hroom & Hon)|(? & ? & E' & _)]; rewrite E in E'; [|done].
  injection E' as <-.
  assert (same_tree st st1) as Ht.
  { intros b. rewrite Hon. case_decide; [|done]. by destruct (st !! b). }
  destruct (uncharge_loop_spec fuel st1 (Some counter) l None val) as (st2 & r & E2 & Hun & Hr);
    [by eapply path_same_tree|done|done| |].
  { intros b x Hb. rewrite Hon, decide_True by done.
    destruct (st !! b) as [y|] eqn:Hy; [|done]. intros [= <-]. simpl.
    destruct (Hs b y Hb Hy). lia. }
  destruct l as [|a l]; [done|]. destruct Hp as ([= ->] & _ & x & Hx & _).
  exists st2, x. split; [done|]. split.
  - unfold res_counter_uncharge, res_counter_uncharge_until. rewrite E2, Hr. simpl.
    rewrite Hon, decide_True, Hx by set_solver. simpl. do 2 f_equal. lia.
  - intros b. rewrite Hun, Hon. case_decide; [|done]. destruct (st !! b) as [y|]; [|done].
    simpl. unfold raised, uncharged, charged, set_usage, set_max_usage. simpl. do 2 f_equal. lia.
Qed.

Lemma res_counter_charge_uncharge_witness :
  ∃ st1 st2 x, res_counter_charge 3 two_levels 1 5 = Some (st1, Ok, None) ∧
    two_levels !! 1%nat = Some x ∧
    res_counter_uncharge 3 st1 1 5 = Some (st2, usage x) ∧
    on_path (raised 5) [1%nat; 0%nat] two_levels st2.
Proof.
  destruct (charge_cases 3 two_levels 1 [1%nat; 0%nat] 5) as [(st1 & E & _)|(? & ? & E & _)];
    [apply two_levels_path|simpl; lia|lia|intros a x Ha Hx; by apply (two_levels_sane 5 a)| |].
  - destruct (res_counter_charge_uncharge 3 two_levels 1 [1%nat; 0%nat] 5 st1) as (st2 & x & H);
      [apply two_levels_path|simpl; lia|lia|intros a x Ha Hx; by apply (two_levels_sane 5 a)|done|].
    by exists st1, st2, x.
  - exfalso. apply (f_equal (λ o, r ← o; Some (r.1.2))) in E. by vm_compute in E.
Defined.

(** * Charges that cannot fail *)

(** What a forced charge does to a counter: it is charged in any case, and the
    failure count grows when the limit is passed. *)
Definition forced (val : Z) (c : res_counter) : res_counter :=
  if decide (over val c) then charged val (failed c) else charged val c.

(** The first counter of the walk whose limit the charge passes. *)
Fixpoint first_failing (st : store) (val : Z) (l : list nat) : option nat :=
  match l with
  | [] => None
  | a :: l' =>
      match st !! a with
      | Some c => if decide (over val c) then Some a else first_failing st val l'
      | None => first_failing st val l'
      end
  end.

Lemma first_failing_insert st val a c l :
  a ∉ l → first_failing (<[a := c]> st) val l = first_failing st val l.
Proof.
  induction l as [|b l IH]; intros Ha; simpl; [done|].
  rewrite lookup_insert_ne by set_solver. rewrite IH by set_solver. done.
Qed.

Lemma charge_locked_force val c :
  0 ≤ val → sane val c →
  res_counter_charge_locked c val true =
    (if decide (over val c) then Err ENOMEM else Ok, forced val c).
Proof.
  intros Hv Hs. unfold forced. case_decide.
  - by apply charge_locked_forced.
  - by apply charge_locked_fits.
Qed.

Lemma forced_parent val c : parent (forced val c) = parent c.
Proof. unfold forced. by case_decide. Qed.

(** The verdict of a forced walk: the first failure wins. *)
Definition verdict (r : ret) (fa ff : option nat) : ret * option nat :=
  match r, ff with
  | Ok, Some a => (Err ENOMEM, Some a)
  | _, _ => (r, fa)
  end.

Lemma charge_loop_force fuel st c l val r fa :
  path st c l None → (length l < fuel)%nat → 0 ≤ val →
  (∀ a x, a ∈ l → st !! a = Some x → sane val x) →
  ∃ st', charge_loop fuel st c val true r fa =
      Some (st', (verdict r fa (first_failing st val l)).1,
                 (verdict r fa (first_failing st val l)).2, None) ∧
    on_path (forced val) l st st'.
Proof.
  intros Hp Hf Hv. revert st c fuel r fa Hp Hf.
  induction l as [|a l IH]; intros st c [|fuel] r fa Hp Hf Hs; simpl in Hf; try lia.
  { simpl in Hp. subst c. exists st. split; [by destruct r|].
    intros a. by rewrite decide_False by set_solver. }
  pose proof Hp as (-> & _ & ctr & Hc & _). cbn [charge_loop]. rewrite Hc. cbn [mbind option_bind].
  destruct (path_tail st a l None ctr (forced val ctr) (sane val) Hp Hc (forced_parent _ _) Hs)
    as (Ha & Hp' & Hsn & Hs').
  rewrite charge_locked_force by done. cbn [first_failing]. rewrite Hc.
  pose proof (first_failing_insert st val a (forced val ctr) l Ha) as Eff.
  assert (∀ b x, b ∈ l → <[a := forced val ctr]> st !! b = Some x → sane val x) as Hsl
    by (intros b x Hb Hx; by apply (Hs' b x Hb Hx)).
  destruct (decide (over val ctr)) as [Ho|Ho].
  - destruct r.
    + rewrite decide_True by done.
      destruct (IH (<[a := forced val ctr]> st) (parent ctr) fuel (Err ENOMEM) (Some a))
        as (st' & E & Hon); [done|lia|done|].
      exists st'. split; [exact E|]. by eapply on_path_cons.
    + rewrite decide_False by (intros [_ ?]; done).
      destruct (IH (<[a := forced val ctr]> st) (parent ctr) fuel (Err e) fa)
        as (st' & E & Hon); [done|lia|done|].
      exists st'. split; [exact E|]. by eapply on_path_cons.
  - rewrite decide_False by (intros [? _]; done).
    destruct (IH (<[a := forced val ctr]> st) (parent ctr) fuel r fa)
      as (st' & E & Hon); [done|lia|done|]. rewrite Eff in E.
    exists st'. split; [exact E|]. by eapply on_path_cons.
Qed.

(** a charge that may not fail charges every counter up to the root, limits
    or not; it still reports -ENOMEM and the first counter whose limit is
    passed, and counts one failure in each of those counters. *)
Theorem res_counter_charge_nofail_correct fuel st counter l val :
  path st (Some counter) l None → (length l < fuel)%nat → 0 ≤ val →
  (∀ a x, a ∈ l → st !! a = Some x → sane val x) →
  ∃ st', res_counter_charge_nofail fuel st counter val =
      Some (st', match first_failing st val l with Some _ => Err ENOMEM | None => Ok end,
            first_failing st val l) ∧
    on_path (forced val) l st st'.
Proof.
  intros Hp Hf Hv Hs. unfold res_counter_charge_nofail, __res_counter_charge.
  destruct (charge_loop_force fuel st (Some counter) l val Ok None Hp Hf Hv Hs) as (st' & E & Hon).
  rewrite E. cbn [mbind option_bind]. rewrite decide_False by (intros [_ ?]; done).
  exists st'. split; [|done]. by destruct (first_failing st val l).
Qed.

Lemma res_counter_charge_nofail_correct_witness :
  ∃ st', res_counter_charge_nofail 3 two_levels 1 20 = Some (st', Err ENOMEM, Some 0%nat) ∧
    on_path (forced 20) [1%nat; 0%nat] two_levels st'.
Proof.
  apply (res_counter_charge_nofail_correct 3 two_levels 1 [1%nat; 0%nat] 20);
    [apply two_levels_path|simpl; lia|lia|intros a x Ha Hx; by apply (two_levels_sane 20 a)].
Defined.
