(* ===== verification/UserNs.v ===== *)
(** UserNs: user namespaces, kernel/user_namespace.c (and [init_user_ns] of
    kernel/user.c).

    A user namespace translates the ids its processes see into kernel-wide ids
    through three maps of a few extents.  The maps are written once, through
    /proc, by a process that must be allowed to use the ids it maps to.  The
    file models the maps and their lookups, the parser and the checks of the
    write, the creation of namespaces and their destruction when the last
    reference goes.  Locks, keyrings and the accounting flag [PF_SUPERPRIV]
    are not represented. *)

From Stdlib Require Import Ascii.
From S2P Require Import Prelude.

Local Open Scope Z_scope.

(** * Data *)

(** [struct uid_gid_extent] *)
Record uid_gid_extent := Extent {
  first : Z;
  lower_first : Z;
  count : Z;
}.

(** [struct uid_gid_map]: the entries below [nr_extents]. *)
Abbreviation uid_gid_map := (list uid_gid_extent).

(** [struct user_namespace] *)
Record user_namespace := UserNamespace {
  uid_map : uid_gid_map;
  gid_map : uid_gid_map;
  projid_map : uid_gid_map;
  ns_count : Z;
  ns_parent : option nat;
  level : Z;
  owner : Z;
  group : Z;
}.

Abbreviation nsmap := (gmap nat user_namespace).

(** [kernel_cap_t]: the words of a capability set. *)
Abbreviation kernel_cap_t := (list Z).

Inductive cap := CAP_SETUID | CAP_SETGID | CAP_SYS_ADMIN | CAP_SYS_NICE | CAP_SYS_RESOURCE.

Global Instance cap_eq_dec : EqDecision cap.
Proof. solve_decision. Defined.

(** [struct cred] *)
Record cred := Cred {
  usage : Z;
  uid : Z; gid : Z;
  suid : Z; sgid : Z;
  euid : Z; egid : Z;
  fsuid : Z; fsgid : Z;
  securebits : Z;
  cap_inheritable : kernel_cap_t;
  cap_permitted : kernel_cap_t;
  cap_effective : kernel_cap_t;
  cap_bset : kernel_cap_t;
  user : nat;
  user_ns : nat;
  group_info : nat;
}.

(** What the code takes from the headers and from the security modules, none of
    which is part of the tree.  [security_capable c ns cap] is the verdict of
    the security module; [kuid_has_mapping] and [kgid_has_mapping] are inline
    functions of linux/uidgid.h. *)
Class Security := {
  CAP_EMPTY_SET : kernel_cap_t;
  CAP_FULL_SET : kernel_cap_t;
  SECUREBITS_DEFAULT : Z;
  cap_issubset : kernel_cap_t → kernel_cap_t → bool;
  security_capable : nsmap → cred → nat → cap → bool;
  kuid_has_mapping : user_namespace → Z → bool;
  kgid_has_mapping : user_namespace → Z → bool;
}.

(** * Lookups *)

(** [(u32) -1] *)
Definition INVALID : Z := 4294967295.

Definition map_id_range_down (map : uid_gid_map) (id cnt : Z) : Z :=
  let id2 := u32 (id + cnt - 1) in
  let hit := λ e, let last := u32 (first e + count e - 1) in
    (first e <=? id) && (id <=? last) && ((first e <=? id2) && (id2 <=? last)) in
  match List.find hit map with
  | Some e => u32 (u32 (id - first e) + lower_first e)
  | None => INVALID
  end.

Definition map_id_down (map : uid_gid_map) (id : Z) : Z :=
  let hit := λ e, let last := u32 (first e + count e - 1) in
    (first e <=? id) && (id <=? last) in
  match List.find hit map with
  | Some e => u32 (u32 (id - first e) + lower_first e)
  | None => INVALID
  end.

Definition map_id_up (map : uid_gid_map) (id : Z) : Z :=
  let hit := λ e, let last := u32 (lower_first e + count e - 1) in
    (lower_first e <=? id) && (id <=? last) in
  match List.find hit map with
  | Some e => u32 (u32 (id - lower_first e) + first e)
  | None => INVALID
  end.

Definition make_kuid (ns : user_namespace) (uid : Z) : Z := map_id_down (uid_map ns) uid.
Definition from_kuid (targ : user_namespace) (kuid : Z) : Z := map_id_up (uid_map targ) kuid.
Definition make_kgid (ns : user_namespace) (gid : Z) : Z := map_id_down (gid_map ns) gid.
Definition from_kgid (targ : user_namespace) (kgid : Z) : Z := map_id_up (gid_map targ) kgid.
Definition make_kprojid (ns : user_namespace) (projid : Z) : Z :=
  map_id_down (projid_map ns) projid.
Definition from_kprojid (targ : user_namespace) (kprojid : Z) : Z :=
  map_id_up (projid_map targ) kprojid.

(** The munged variants; [overflowuid] and the like are settings. *)
Definition from_kuid_munged (overflowuid : Z) (targ : user_namespace) (kuid : Z) : Z :=
  let uid := from_kuid targ kuid in
  if decide (uid = INVALID) then overflowuid else uid.
Definition from_kgid_munged (overflowgid : Z) (targ : user_namespace) (kgid : Z) : Z :=
  let gid := from_kgid targ kgid in
  if decide (gid = INVALID) then overflowgid else gid.
Definition from_kprojid_munged (OVERFLOW_PROJID : Z) (targ : user_namespace) (kprojid : Z) : Z :=
  let projid := from_kprojid targ kprojid in
  if decide (projid = INVALID) then OVERFLOW_PROJID else projid.

(** [uid_valid], [gid_valid] *)
Definition id_valid (k : Z) : bool := bool_decide (k ≠ INVALID).

(** * Reading the maps *)

(** [lower_ns]: the namespace in whose ids a reader in [seq_ns] sees the lower
    end of the map of [ns]. *)
Definition lower_ns_of (st : nsmap) (seq_ns ns : nat) : option user_namespace :=
  l ← st !! seq_ns;
  if decide (seq_ns = ns)
  then match ns_parent l with Some p => st !! p | None => Some l end
  else Some l.

(** The three numbers a line of the file shows. *)
Definition uid_m_show (st : nsmap) (seq_ns ns : nat) (e : uid_gid_extent) : option (Z * Z * Z) :=
  l ← lower_ns_of st seq_ns ns; Some (first e, from_kuid l (lower_first e), count e).
Definition gid_m_show (st : nsmap) (seq_ns ns : nat) (e : uid_gid_extent) : option (Z * Z * Z) :=
  l ← lower_ns_of st seq_ns ns; Some (first e, from_kgid l (lower_first e), count e).
Definition projid_m_show (st : nsmap) (seq_ns ns : nat) (e : uid_gid_extent)
    : option (Z * Z * Z) :=
  l ← lower_ns_of st seq_ns ns; Some (first e, from_kprojid l (lower_first e), count e).

Definition m_start (pos : nat) (map : uid_gid_map) : option uid_gid_extent := map !! pos.

(** * Writing the maps *)

Definition mappings_overlap (new_map : uid_gid_map) (e : uid_gid_extent) : bool :=
  let upper_first := first e in
  let lower_first_ := lower_first e in
  let upper_last := u32 (upper_first + count e - 1) in
  let lower_last := u32 (lower_first_ + count e - 1) in
  List.existsb (λ prev,
    let prev_upper_first := first prev in
    let prev_lower_first := lower_first prev in
    let prev_upper_last := u32 (prev_upper_first + count prev - 1) in
    let prev_lower_last := u32 (prev_lower_first + count prev - 1) in
    ((prev_upper_first <=? upper_last) && (upper_first <=? prev_upper_last)) ||
    ((prev_lower_first <=? lower_last) && (lower_first_ <=? prev_lower_last))) new_map.

(** [struct file]: the credentials of its opener. *)
Record file := File { f_cred : cred }.

(** C strings: the bytes before the first NUL. *)
Definition NUL : ascii := zero.
Definition NL : ascii := "010"%char.

Fixpoint cstr (l : list ascii) : list ascii :=
  match l with
  | [] => []
  | c :: l' => if Ascii.eqb c NUL then [] else c :: cstr l'
  end.

(** [*pos] *)
Definition deref (s : list ascii) : ascii := default NUL (head s).

(** The line at [pos] and what follows the newline, if there is one. *)
Fixpoint line_of (s : list ascii) : list ascii * option (list ascii) :=
  match s with
  | [] => ([], None)
  | c :: s' =>
      if Ascii.eqb c NL then ([], Some s')
      else let '(l, r) := line_of s' in (c :: l, r)
  end.

Section write.
Context {sec : Security}.
(** lib/ctype.c, lib/string.c, lib/vsprintf.c *)
Context (isspace : ascii → bool) (skip_spaces : list ascii → list ascii).
Context (simple_strtoul : list ascii → Z * list ascii).
Context (UID_GID_MAP_MAX_EXTENTS : nat) (PAGE_SIZE : nat).

(** One line of the file; [None] is [goto out] with -EINVAL. *)
Definition parse_line (line : list ascii) : option uid_gid_extent :=
  let pos := skip_spaces line in
  let '(v1, pos) := simple_strtoul pos in
  if negb (isspace (deref pos)) then None else
  let pos := skip_spaces pos in
  let '(v2, pos) := simple_strtoul pos in
  if negb (isspace (deref pos)) then None else
  let pos := skip_spaces pos in
  let '(v3, pos) := simple_strtoul pos in
  if negb (Ascii.eqb (deref pos) NUL) && negb (isspace (deref pos)) then None else
  let pos := skip_spaces pos in
  if negb (Ascii.eqb (deref pos) NUL) then None else
  let e := Extent (u32 v1) (u32 v2) (u32 v3) in
  if decide (first e = INVALID ∨ lower_first e = INVALID) then None
  else if decide (u32 (first e + count e) ≤ first e) then None
  else if decide (u32 (lower_first e + count e) ≤ lower_first e) then None
  else Some e.

(** The parsing loop of [map_write].  The outer [None] is a write outside
    [new_map.extent] or missing fuel; one unit of fuel is used per line. *)
Fixpoint parse_loop (fuel : nat) (pos : list ascii) (new_map : uid_gid_map)
    : option (errno + uid_gid_map) :=
  match fuel with
  | O => None
  | S fuel' =>
      if decide (UID_GID_MAP_MAX_EXTENTS ≤ length new_map)%nat then None else
      let '(line, next) := line_of pos in
      let next_line := match next with Some [] => None | _ => next end in
      match parse_line line with
      | None => Some (inl EINVAL)
      | Some e =>
          if mappings_overlap new_map e then Some (inl EINVAL) else
          let new_map' := new_map ++ [e] in
          match next_line with
          | None => Some (inr new_map')
          | Some pos' =>
              if decide (length new_map' = UID_GID_MAP_MAX_EXTENTS) then Some (inl EINVAL)
              else parse_loop fuel' pos' new_map'
          end
      end
  end.

(** The lower ids as kernel ids; [None] when one has no mapping. *)
Fixpoint lower_loop (parent_map new_map : uid_gid_map) : option uid_gid_map :=
  match new_map with
  | [] => Some []
  | e :: rest =>
      let lower := map_id_range_down parent_map (lower_first e) (count e) in
      if decide (lower = INVALID) then None
      else rest' ← lower_loop parent_map rest; Some (Extent (first e) lower (count e) :: rest')
  end.

(** [ns_capable], [file_ns_capable] (kernel/capability.c) on valid
    capabilities; [cur] are the credentials of the current task. *)
Definition ns_capable (st : nsmap) (cur : cred) (ns : nat) (c : cap) : bool :=
  security_capable st cur ns c.
Definition file_ns_capable (st : nsmap) (f : file) (ns : nat) (c : cap) : bool :=
  security_capable st (f_cred f) ns c.

(** [cap_setid] is [None] for the invalid capability [-1].  The result of a
    namespace without a parent is [None] (a null pointer). *)
Definition new_idmap_permitted (st : nsmap) (cur : cred) (f : file) (ns : user_namespace)
    (cap_setid : option cap) (new_map : uid_gid_map) : option bool :=
  p ← ns_parent ns;
  parent ← st !! p;
  let own := match new_map with
    | [e] => if decide (count e = 1) then
               let id := lower_first e in
               match cap_setid with
               | Some CAP_SETUID => bool_decide (make_kuid parent id = fsuid (f_cred f))
               | Some CAP_SETGID => bool_decide (make_kgid parent id = fsgid (f_cred f))
               | _ => false
               end
             else false
    | _ => false
    end in
  Some (if own then true else
        match cap_setid with
        | None => true
        | Some c => ns_capable st cur p c && file_ns_capable st f p c
        end).

(** The arguments and the outcome of the calls [map_write] makes. *)
Record write_args := WriteArgs {
  w_buf : option (list ascii);   (** the user buffer; [None] faults *)
  w_count : nat;
  w_ppos : Z;
  w_page : bool;                 (** [__get_free_page] succeeds *)
}.

(** [map_write]: the return value, the map and [*ppos] afterwards.  [nsp] is
    the address of the namespace. *)
Definition map_write (st : nsmap) (cur : cred) (f : file) (nsp : nat) (ns : user_namespace)
    (w : write_args) (cap_setid : option cap) (map parent_map : uid_gid_map)
    : option ((errno + Z) * uid_gid_map * Z) :=
  let out e := Some (inl e, map, w_ppos w) in
  if decide (map ≠ []) then out EPERM else
  if match cap_setid with Some _ => negb (file_ns_capable st f nsp CAP_SYS_ADMIN) | None => false end
  then out EPERM else
  if negb (w_page w) then out ENOMEM else
  if decide (w_ppos w ≠ 0 ∨ (PAGE_SIZE ≤ w_count w)%nat) then out EINVAL else
  match w_buf w with
  | None => out EFAULT
  | Some bytes =>
      let kbuf := cstr (take (w_count w) bytes) in
      r ← parse_loop (S (length kbuf)) kbuf [];
      match r with
      | inl e => out e
      | inr new_map =>
          if decide (new_map = []) then out EINVAL else
          ok ← new_idmap_permitted st cur f ns cap_setid new_map;
          if negb ok then out EPERM else
          match lower_loop parent_map new_map with
          | None => out EPERM
          | Some map' => Some (inr (Z.of_nat (w_count w)), map', Z.of_nat (w_count w))
          end
      end
  end.

Definition set_uid_map (ns : user_namespace) (m : uid_gid_map) : user_namespace :=
  UserNamespace m (gid_map ns) (projid_map ns) (ns_count ns) (ns_parent ns) (level ns)
    (owner ns) (group ns).
Definition set_gid_map (ns : user_namespace) (m : uid_gid_map) : user_namespace :=
  UserNamespace (uid_map ns) m (projid_map ns) (ns_count ns) (ns_parent ns) (level ns)
    (owner ns) (group ns).
Definition set_projid_map (ns : user_namespace) (m : uid_gid_map) : user_namespace :=
  UserNamespace (uid_map ns) (gid_map ns) m (ns_count ns) (ns_parent ns) (level ns)
    (owner ns) (group ns).

(** The write handlers of the three files; the state is the store of
    namespaces, [seq_ns] the namespace of the opener. *)
Definition proc_uid_map_write (st : nsmap) (cur : cred) (f : file) (seq_ns nsp : nat)
    (w : write_args) : option ((errno + Z) * nsmap * Z) :=
  ns ← st !! nsp;
  match ns_parent ns with
  | None => Some (inl EPERM, st, w_ppos w)
  | Some p =>
      if decide (seq_ns ≠ nsp ∧ seq_ns ≠ p) then Some (inl EPERM, st, w_ppos w) else
      parent ← st !! p;
      '(r, m, pos) ← map_write st cur f nsp ns w (Some CAP_SETUID) (uid_map ns) (uid_map parent);
      Some (r, <[nsp := set_uid_map ns m]> st, pos)
  end.

Definition proc_gid_map_write (st : nsmap) (cur : cred) (f : file) (seq_ns nsp : nat)
    (w : write_args) : option ((errno + Z) * nsmap * Z) :=
  ns ← st !! nsp;
  match ns_parent ns with
  | None => Some (inl EPERM, st, w_ppos w)
  | Some p =>
      if decide (seq_ns ≠ nsp ∧ seq_ns ≠ p) then Some (inl EPERM, st, w_ppos w) else
      parent ← st !! p;
      '(r, m, pos) ← map_write st cur f nsp ns w (Some CAP_SETGID) (gid_map ns) (gid_map parent);
      Some (r, <[nsp := set_gid_map ns m]> st, pos)
  end.

Definition proc_projid_map_write (st : nsmap) (cur : cred) (f : file) (seq_ns nsp : nat)
    (w : write_args) : option ((errno + Z) * nsmap * Z) :=
  ns ← st !! nsp;
  match ns_parent ns with
  | None => Some (inl EPERM, st, w_ppos w)
  | Some p =>
      if decide (seq_ns ≠ nsp ∧ seq_ns ≠ p) then Some (inl EPERM, st, w_ppos w) else
      parent ← st !! p;
      '(r, m, pos) ← map_write st cur f nsp ns w None (projid_map ns) (projid_map parent);
      Some (r, <[nsp := set_projid_map ns m]> st, pos)
  end.
End write.

(** * Creation and destruction *)

Section lifetime.
Context {sec : Security}.

Definition set_cred_user_ns (c : cred) (ns : nat) : cred :=
  Cred (usage c) (uid c) (gid c) (suid c) (sgid c) (euid c) (egid c) (fsuid c) (fsgid c)
    SECUREBITS_DEFAULT CAP_EMPTY_SET CAP_FULL_SET CAP_FULL_SET CAP_FULL_SET
    (user c) ns (group_info c).

(** [create_user_ns]: [alloc] is the address [kmem_cache_zalloc] returns, [inum]
    the result of [proc_alloc_inum], [chrooted] of [current_chrooted]. *)
Definition create_user_ns (st : nsmap) (new : cred) (chrooted : bool) (alloc : option nat)
    (inum : ret) : option (ret * nsmap * cred) :=
  parent_ns ← st !! user_ns new;
  let fail e := Some (Err e, st, new) in
  if decide (32 < level parent_ns) then fail EUSERS else
  if chrooted then fail EPERM else
  if negb (kuid_has_mapping parent_ns (euid new)) || negb (kgid_has_mapping parent_ns (egid new))
  then fail EPERM else
  match alloc with
  | None => fail ENOMEM
  | Some a =>
      match inum with
      | Err e => fail e
      | Ok =>
          let ns := UserNamespace [] [] [] 1 (Some (user_ns new)) (level parent_ns + 1)
                      (euid new) (egid new) in
          Some (Ok, <[a := ns]> st, set_cred_user_ns new a)
      end
  end.

Definition set_ns_count (ns : user_namespace) (n : Z) : user_namespace :=
  UserNamespace (uid_map ns) (gid_map ns) (projid_map ns) n (ns_parent ns) (level ns)
    (owner ns) (group ns).

(** [free_user_ns]: the namespace and every ancestor whose last reference went
    with it.  A null parent or a dangling pointer is [None].  One unit of fuel
    is used per namespace freed. *)
Fixpoint free_user_ns (fuel : nat) (st : nsmap) (ns : nat) : option nsmap :=
  match fuel with
  | O => None
  | S fuel' =>
      x ← st !! ns;
      p ← ns_parent x;
      let st1 := base.delete ns st in
      parent ← st1 !! p;
      let n := ns_count parent - 1 in
      let st2 := <[p := set_ns_count parent n]> st1 in
      if decide (n = 0) then free_user_ns fuel' st2 p else Some st2
  end.
End lifetime.

(** [init_user_ns] (kernel/user.c) *)
Definition init_user_ns : user_namespace :=
  let all := [Extent 0 0 4294967295] in UserNamespace all all all 3 None 0 0 0.

(** * Valid maps *)

(** An extent is not empty, does not wrap and does not contain [(u32) -1]. *)
Definition ext_ok (e : uid_gid_extent) : Prop :=
  0 ≤ first e ∧ 0 ≤ lower_first e ∧ 0 < count e ∧
  first e + count e < 2 ^ 32 ∧ lower_first e + count e < 2 ^ 32.

Definition in_upper (e : uid_gid_extent) (id : Z) : Prop := first e ≤ id < first e + count e.
Definition in_lower (e : uid_gid_extent) (k : Z) : Prop :=
  lower_first e ≤ k < lower_first e + count e.

Definition upper_disjoint (e f : uid_gid_extent) : Prop :=
  first e + count e ≤ first f ∨ first f + count f ≤ first e.
Definition lower_disjoint (e f : uid_gid_extent) : Prop :=
  lower_first e + count e ≤ lower_first f ∨ lower_first f + count f ≤ lower_first e.
Definition ext_disjoint (e f : uid_gid_extent) : Prop := upper_disjoint e f ∧ lower_disjoint e f.

Definition valid_map (m : uid_gid_map) : Prop :=
  Forall ext_ok m ∧ StronglySorted ext_disjoint m.

Lemma ext_disjoint_sym e f : ext_disjoint e f → ext_disjoint f e.
Proof. unfold ext_disjoint, upper_disjoint, lower_disjoint. tauto. Qed.

Lemma valid_map_eq m e f :
  valid_map m → e ∈ m → f ∈ m →
  (∃ id, in_upper e id ∧ in_upper f id) ∨ (∃ k, in_lower e k ∧ in_lower f k) → e = f.
Proof.
  intros [_ Hs] He Hf Hx. induction Hs as [|a m Hs IH Ha]; [set_solver|].
  rewrite Forall_forall in Ha.
  apply elem_of_cons in He as [->|He], Hf as [->|Hf]; [done| | |by apply IH].
  - specialize (Ha f Hf). unfold ext_disjoint, upper_disjoint, lower_disjoint, in_upper, in_lower in *.
    destruct Hx as [(? & ? & ?)|(? & ? & ?)]; lia.
  - specialize (Ha e He). unfold ext_disjoint, upper_disjoint, lower_disjoint, in_upper, in_lower in *.
    destruct Hx as [(? & ? & ?)|(? & ? & ?)]; lia.
Qed.

Lemma valid_map_ok m e : valid_map m → e ∈ m → ext_ok e.
Proof. intros [H _] He. rewrite Forall_forall in H. by apply H. Qed.

Lemma ext_ok_last a n : 0 ≤ a → 0 < n → a + n < 2 ^ 32 → u32 (a + n - 1) = a + n - 1.
Proof. intros. apply wrap_small. width. Qed.

(** What a lookup finds: the first extent that passes the test. *)
Lemma find_spec {A} (p : A → bool) (l : list A) :
  match List.find p l with
  | Some e => e ∈ l ∧ p e = true
  | None => ∀ e, e ∈ l → p e = false
  end.
Proof.
  destruct (List.find p l) as [e|] eqn:E.
  - apply List.find_some in E as [Hin Hp]. by rewrite list_elem_of_In.
  - intros e He%list_elem_of_In. by eapply List.find_none.
Qed.

Lemma map_id_down_cases m id :
  valid_map m → in_u32 id →
  (∃ e, e ∈ m ∧ in_upper e id ∧ map_id_down m id = id - first e + lower_first e) ∨
  ((∀ e, e ∈ m → ¬ in_upper e id) ∧ map_id_down m id = INVALID).
Proof.
  intros Hm Hid. unfold map_id_down.
  match goal with |- context [List.find ?h m] => set (hit := h) end. pose proof (find_spec hit m) as Hf.
  destruct (List.find hit m) as [e|].
  - destruct Hf as [He Hp]. left. exists e. destruct (valid_map_ok m e Hm He) as (? & ? & ? & ? & ?).
    unfold hit in Hp. rewrite ext_ok_last in Hp by done.
    split_and!; [done|unfold in_upper; lia|].
    rewrite (wrap_small 32 (id - first e)) by width. apply wrap_small. width.
  - right. split; [|done]. intros e He Hin. specialize (Hf e He).
    destruct (valid_map_ok m e Hm He) as (? & ? & ? & ? & ?).
    unfold hit, in_upper in *. rewrite ext_ok_last in Hf by done. lia.
Qed.

Lemma map_id_up_cases m k :
  valid_map m → in_u32 k →
  (∃ e, e ∈ m ∧ in_lower e k ∧ map_id_up m k = k - lower_first e + first e) ∨
  ((∀ e, e ∈ m → ¬ in_lower e k) ∧ map_id_up m k = INVALID).
Proof.
  intros Hm Hid. unfold map_id_up.
  match goal with |- context [List.find ?h m] => set (hit := h) end. pose proof (find_spec hit m) as Hf.
  destruct (List.find hit m) as [e|].
  - destruct Hf as [He Hp]. left. exists e. destruct (valid_map_ok m e Hm He) as (? & ? & ? & ? & ?).
    unfold hit in Hp. rewrite ext_ok_last in Hp by done.
    split_and!; [done|unfold in_lower; lia|].
    rewrite (wrap_small 32 (k - lower_first e)) by width. apply wrap_small. width.
  - right. split; [|done]. intros e He Hin. specialize (Hf e He).
    destruct (valid_map_ok m e Hm He) as (? & ? & ? & ? & ?).
    unfold hit, in_lower in *. rewrite ext_ok_last in Hf by done. lia.
Qed.

Lemma map_id_range_down_cases m id n :
  valid_map m → in_u32 id → 0 < n → id + n < 2 ^ 32 →
  (∃ e, e ∈ m ∧ first e ≤ id ∧ id + n ≤ first e + count e ∧
     map_id_range_down m id n = id - first e + lower_first e) ∨
  ((∀ e, e ∈ m → ¬ (first e ≤ id ∧ id + n ≤ first e + count e)) ∧
   map_id_range_down m id n = INVALID).
Proof.
  intros Hm Hid Hn Hw. unfold map_id_range_down.
  assert (0 ≤ id) by width. rewrite (ext_ok_last id n) by done.
  match goal with |- context [List.find ?h m] => set (hit := h) end. pose proof (find_spec hit m) as Hf.
  destruct (List.find hit m) as [e|].
  - destruct Hf as [He Hp]. left. exists e. destruct (valid_map_ok m e Hm He) as (? & ? & ? & ? & ?).
    unfold hit in Hp. rewrite ext_ok_last in Hp by done.
    split_and!; [done|lia|lia|].
    rewrite (wrap_small 32 (id - first e)) by width. apply wrap_small. width.
  - right. split; [|done]. intros e He Hin. specialize (Hf e He).
    destruct (valid_map_ok m e Hm He) as (? & ? & ? & ? & ?).
    unfold hit in *. rewrite ext_ok_last in Hf by done. lia.
Qed.

Lemma map_id_down_up m id :
  valid_map m → in_u32 id → map_id_down m id ≠ INVALID →
  in_u32 (map_id_down m id) ∧ map_id_up m (map_id_down m id) = id.
Proof.
  intros Hm Hid Hv.
  destruct (map_id_down_cases m id Hm Hid) as [(e & He & Hin & E)|[_ E]]; [|done].
  pose proof (valid_map_ok m e Hm He) as (? & ? & ? & ? & ?). unfold in_upper in Hin.
  assert (in_u32 (map_id_down m id)) as Hr by (rewrite E; width).
  split; [done|].
  assert (in_lower e (map_id_down m id)) as Hl by (unfold in_lower; lia).
  destruct (map_id_up_cases m (map_id_down m id) Hm Hr) as [(f & Hf & Hinf & E')|[Hno _]].
  - assert (f = e) as -> by (eapply valid_map_eq; eauto). lia.
  - by destruct (Hno e He).
Qed.

Lemma map_id_up_down m k :
  valid_map m → in_u32 k → map_id_up m k ≠ INVALID →
  in_u32 (map_id_up m k) ∧ map_id_down m (map_id_up m k) = k.
Proof.
  intros Hm Hid Hv.
  destruct (map_id_up_cases m k Hm Hid) as [(e & He & Hin & E)|[_ E]]; [|done].
  pose proof (valid_map_ok m e Hm He) as (? & ? & ? & ? & ?). unfold in_lower in Hin.
  assert (in_u32 (map_id_up m k)) as Hr by (rewrite E; width).
  split; [done|].
  assert (in_upper e (map_id_up m k)) as Hl by (unfold in_upper; lia).
  destruct (map_id_down_cases m (map_id_up m k) Hm Hr) as [(f & Hf & Hinf & E')|[Hno _]].
  - assert (f = e) as -> by (eapply valid_map_eq; eauto). lia.
  - by destruct (Hno e He).
Qed.

Lemma init_map_valid : valid_map [Extent 0 0 4294967295].
Proof.
  split; [|repeat constructor]. constructor; [|constructor]. unfold ext_ok. simpl. pow2. lia.
Qed.

(** The three maps of a namespace. *)
Definition valid_ns (ns : user_namespace) : Prop :=
  valid_map (uid_map ns) ∧ valid_map (gid_map ns) ∧ valid_map (projid_map ns).

(** C31: translating an id of a namespace to a kernel id and back gives the id,
    and the other way round, for user, group and project ids: through valid
    maps the translations are inverse bijections between the mapped ids, and a
    failed translation is exactly the invalid id. *)
Theorem id_translation_roundtrip ns :
  valid_ns ns →
  (∀ u, in_u32 u → make_kuid ns u ≠ INVALID → from_kuid ns (make_kuid ns u) = u) ∧
  (∀ k, in_u32 k → from_kuid ns k ≠ INVALID → make_kuid ns (from_kuid ns k) = k) ∧
  (∀ g, in_u32 g → make_kgid ns g ≠ INVALID → from_kgid ns (make_kgid ns g) = g) ∧
  (∀ k, in_u32 k → from_kgid ns k ≠ INVALID → make_kgid ns (from_kgid ns k) = k) ∧
  (∀ p, in_u32 p → make_kprojid ns p ≠ INVALID → from_kprojid ns (make_kprojid ns p) = p) ∧
  (∀ k, in_u32 k → from_kprojid ns k ≠ INVALID → make_kprojid ns (from_kprojid ns k) = k).
Proof.
  intros (Hu & Hg & Hp).
  repeat split; intros i Hi Hv; apply map_id_down_up || apply map_id_up_down; done.
Qed.

Lemma id_translation_roundtrip_witness :
  from_kuid init_user_ns (make_kuid init_user_ns 1000) = 1000.
Proof.
  apply (id_translation_roundtrip init_user_ns);
    [split_and!; apply init_map_valid|by vm_compute|by vm_compute].
Defined.

(** * The parser *)

Section write_proofs.
Context {sec : Security}.
Context (isspace : ascii → bool) (skip_spaces : list ascii → list ascii).
Context (simple_strtoul : list ascii → Z * list ascii).
Context (MAX PAGE_SIZE : nat).

Local Abbreviation parse_line := (parse_line isspace skip_spaces simple_strtoul).
Local Abbreviation parse_loop := (parse_loop isspace skip_spaces simple_strtoul MAX).
Local Abbreviation map_write := (map_write isspace skip_spaces simple_strtoul MAX PAGE_SIZE).

(** The wrap checks of the parser reject exactly the extents that are not [ext_ok]. *)
Lemma wrap_check a n : in_u32 a → in_u32 n → ¬ u32 (a + n) ≤ a → 0 < n ∧ a + n < 2 ^ 32.
Proof.
  intros Ha Hn Hw. destruct (decide (a + n < 2 ^ 32)) as [Hlt|Hge].
  - rewrite wrap_small in Hw by width. lia.
  - rewrite wrap_over in Hw by width. width.
Qed.

Lemma parse_line_ok line e : parse_line line = Some e → ext_ok e.
Proof.
  unfold UserNs.parse_line. destruct (simple_strtoul _) as [v1 p1].
  destruct (negb _); [done|]. destruct (simple_strtoul _) as [v2 p2].
  destruct (negb _); [done|]. destruct (simple_strtoul _) as [v3 p3].
  destruct (_ && _); [done|]. destruct (negb _); [done|].
  repeat case_decide; try done. intros [= <-]. simpl in *.
  pose proof (u32_range v1). pose proof (u32_range v2). pose proof (u32_range v3).
  destruct (wrap_check (u32 v1) (u32 v3)) as [? ?]; [done..|].
  destruct (wrap_check (u32 v2) (u32 v3)) as [? ?]; [done..|].
  unfold ext_ok. simpl. unfold in_width in *. lia.
Qed.

Lemma mappings_overlap_false m e :
  Forall ext_ok m → ext_ok e → mappings_overlap m e = false → Forall (λ f, ext_disjoint f e) m.
Proof.
  intros Hm He Ho. rewrite Forall_forall in *. intros f Hf.
  destruct (Hm f Hf) as (? & ? & ? & ? & ?). destruct He as (? & ? & ? & ? & ?).
  unfold mappings_overlap in Ho. rewrite <- not_true_iff_false, List.existsb_exists in Ho.
  unfold ext_disjoint, upper_disjoint, lower_disjoint.
  destruct (decide ((first f + count f ≤ first e ∨ first e + count e ≤ first f) ∧
    (lower_first f + count f ≤ lower_first e ∨ lower_first e + count e ≤ lower_first f))); [done|].
  exfalso. apply Ho. exists f. split; [by apply list_elem_of_In|].
  rewrite !ext_ok_last by done. lia.
Qed.

Lemma valid_map_snoc m e :
  valid_map m → ext_ok e → Forall (λ f, ext_disjoint f e) m → valid_map (m ++ [e]).
Proof.
  intros [H1 H2] He Hd. split.
  - apply Forall_app. split; [done|by constructor].
  - induction H2 as [|a m H2 IH Ha]; simpl; [by repeat constructor|].
    apply Forall_cons in H1 as [? ?], Hd as [? ?]. constructor; [by apply IH|].
    apply Forall_app. split; [done|by constructor].
Qed.

Lemma line_of_shorter s l r : line_of s = (l, Some r) → (length r < length s)%nat.
Proof.
  revert l. induction s as [|c s IH]; intros l; simpl; [done|].
  destruct (Ascii.eqb c NL); [intros [= _ <-]; lia|].
  destruct (line_of s) as [l' r']. intros [= _ ->]. specialize (IH l' eq_refl). lia.
Qed.

(** The loop ends, stays inside the array and builds a valid map. *)
Lemma parse_loop_spec fuel pos m :
  valid_map m → (length m < MAX)%nat → (length pos < fuel)%nat →
  ∃ r, parse_loop fuel pos m = Some r ∧
    ∀ m', r = inr m' → valid_map m' ∧ (length m' ≤ MAX)%nat ∧ m' ≠ [].
Proof.
  revert pos m. induction fuel as [|fuel IH]; intros pos m Hm Hl Hf; [lia|].
  cbn [UserNs.parse_loop]. rewrite decide_False by lia.
  destruct (line_of pos) as [line next] eqn:El.
  destruct (parse_line line) as [e|] eqn:Ep; [|by eexists].
  apply parse_line_ok in Ep.
  destruct (mappings_overlap m e) eqn:Eo; [by eexists|].
  assert (valid_map (m ++ [e])) as Hm'.
  { apply valid_map_snoc; [done..|]. apply mappings_overlap_false; [apply Hm|done|done]. }
  assert (length (m ++ [e]) = S (length m)) as Hlen by (rewrite length_app; simpl; lia).
  set (nl := match next with Some [] => None | _ => next end).
  destruct nl as [pos'|] eqn:En.
  - destruct (decide _); [by eexists|]. apply IH; [done|lia|].
    assert (next = Some pos') as ->.
    { unfold nl in En. destruct next as [[|]|]; by simplify_eq. }
    apply line_of_shorter in El. lia.
  - eexists. split; [done|]. intros m' [= <-]. split_and!; [done|lia|]. by destruct m.
Qed.

(** * The lower ids *)

(** [e'] is [e] with its lower ids translated through the parent's map. *)
Definition translated (pm : uid_gid_map) (e e' : uid_gid_extent) : Prop :=
  first e' = first e ∧ count e' = count e ∧
  ∃ p, p ∈ pm ∧ first p ≤ lower_first e ∧ lower_first e + count e ≤ first p + count p ∧
    lower_first e' = lower_first e - first p + lower_first p.

Lemma lower_loop_translated pm m m' :
  valid_map pm → Forall ext_ok m → lower_loop pm m = Some m' → Forall2 (translated pm) m m'.
Proof.
  intros Hpm Hm. revert m'. induction Hm as [|e m He Hm IH]; intros m'; simpl.
  { intros [= <-]. constructor. }
  destruct He as (? & ? & ? & ? & ?). case_decide as Hi; [done|].
  destruct (lower_loop pm m) as [rest|]; [|done]. intros [= <-].
  constructor; [|by apply IH].
  destruct (map_id_range_down_cases pm (lower_first e) (count e)) as [(p & Hp & Hlo & Hhi & E)|[_ E]];
    [done|width|done|done| |done].
  unfold translated. simpl. split_and!; [done..|]. exists p. auto.
Qed.

Lemma translated_ok pm e e' : valid_map pm → ext_ok e → translated pm e e' → ext_ok e'.
Proof.
  intros Hpm (? & ? & ? & ? & ?) (E1 & E2 & p & Hp & ? & ? & E3).
  destruct (valid_map_ok pm p Hpm Hp) as (? & ? & ? & ? & ?). unfold ext_ok.
  rewrite E1, E2, E3. lia.
Qed.

Lemma translated_disjoint pm e f e' f' :
  valid_map pm → ext_ok e → ext_ok f → translated pm e e' → translated pm f f' →
  ext_disjoint e f → ext_disjoint e' f'.
Proof.
  intros Hpm (? & ? & ? & ? & ?) (? & ? & ? & ? & ?)
    (E1 & E2 & p & Hp & ? & ? & E3) (F1 & F2 & q & Hq & ? & ? & F3) [Hu Hl].
  unfold ext_disjoint, upper_disjoint, lower_disjoint in *. rewrite E1, E2, E3, F1, F2, F3.
  split; [lia|].
  destruct (decide (first p = first q ∧ lower_first p = lower_first q ∧ count p = count q)) as [?|Hne].
  { lia. }
  destruct (valid_map_ok pm p Hpm Hp) as (? & ? & ? & ? & ?).
  destruct (valid_map_ok pm q Hpm Hq) as (? & ? & ? & ? & ?).
  destruct (decide (lower_first p + count p ≤ lower_first q ∨ lower_first q + count q ≤ lower_first p))
    as [?|Hx]; [lia|].
  exfalso. apply Hne. assert (p = q) as ->; [|done].
  apply (valid_map_eq pm p q Hpm Hp Hq). right.
  exists (Z.max (lower_first p) (lower_first q)). unfold in_lower. lia.
Qed.

Lemma translated_valid pm m m' :
  valid_map pm → valid_map m → Forall2 (translated pm) m m' → valid_map m'.
Proof.
  intros Hpm [Hok Hs] H2. revert Hok Hs.
  induction H2 as [|e e' m m' He H2 IH]; intros Hok Hs; [done|].
  apply Forall_cons in Hok as [Hoke Hok]. apply StronglySorted_inv in Hs as [Hs Hd].
  destruct (IH Hok Hs) as [Hok' Hs'].
  split; constructor; [by eapply translated_ok|done|done|].
  rewrite Forall_forall. intros f' Hf'.
  apply list_elem_of_lookup in Hf' as [i Hi].
  destruct (Forall2_lookup_r _ _ _ _ _ H2 Hi) as (f & Hf & Htr).
  apply list_elem_of_lookup_2 in Hf. rewrite Forall_forall in Hok, Hd.
  apply (translated_disjoint pm e f); auto.
Qed.

(** The written map is the composition of the map of the text with the
    parent's map. *)
Lemma translated_compose pm m m' id :
  valid_map pm → valid_map m → Forall2 (translated pm) m m' → in_u32 id →
  map_id_down m' id =
    if decide (map_id_down m id = INVALID) then INVALID else map_id_down pm (map_id_down m id).
Proof.
  intros Hpm Hm H2 Hid. pose proof (translated_valid pm m m' Hpm Hm H2) as Hm'.
  destruct (map_id_down_cases m id Hm Hid) as [(e & He & Hin & E)|[Hno ->]].
  - pose proof (valid_map_ok m e Hm He) as (? & ? & ? & ? & ?).
    pose proof He as [i Hi]%list_elem_of_lookup.
    destruct (Forall2_lookup_l _ _ _ _ _ H2 Hi) as (e' & Hi' & E1 & E2 & p & Hp & ? & ? & E3).
    apply list_elem_of_lookup_2 in Hi'. unfold in_upper in Hin.
    destruct (valid_map_ok pm p Hpm Hp) as (? & ? & ? & ? & ?).
    rewrite E, decide_False by (unfold INVALID; pow2; lia).
    destruct (map_id_down_cases m' id Hm' Hid) as [(f & Hf & Hinf & ->)|[Hno _]].
    + assert (f = e') as ->.
      { eapply (valid_map_eq m'); [done..|]. left. exists id. unfold in_upper in *. rewrite E1, E2. lia. }
      destruct (map_id_down_cases pm (id - first e + lower_first e) Hpm) as [(q & Hq & Hinq & ->)|[Hno _]];
        [width| |].
      * assert (q = p) as ->.
        { eapply (valid_map_eq pm); [done..|]. left. eexists. split; [done|]. unfold in_upper. lia. }
        lia.
      * destruct (Hno p Hp). unfold in_upper. lia.
    + destruct (Hno e' Hi'). unfold in_upper. rewrite E1, E2. lia.
  - rewrite decide_True by done.
    destruct (map_id_down_cases m' id Hm' Hid) as [(f' & Hf' & Hinf & _)|[_ ->]]; [|done].
    apply list_elem_of_lookup in Hf' as [i Hi].
    destruct (Forall2_lookup_r _ _ _ _ _ H2 Hi) as (f & Hf & E1 & E2 & _).
    apply list_elem_of_lookup_2 in Hf. destruct (Hno f Hf). unfold in_upper in *.
    rewrite <- E1, <- E2. done.
Qed.

(** The parse of what is written. *)
Definition parsed (w : write_args) : option (errno + uid_gid_map) :=
  bytes ← w_buf w; let kbuf := cstr (take (w_count w) bytes) in parse_loop (S (length kbuf)) kbuf [].

(** The two outcomes of a write: an error, with everything as before; or a map
    that was empty is now the map [txt] of the text composed with the parent's. *)
Definition write_done (st : nsmap) (cur : cred) (f : file) (ns : user_namespace) (w : write_args)
    (cs : option cap) (map pm : uid_gid_map) (r : errno + Z) (m' : uid_gid_map) (pos : Z) : Prop :=
  r = inr (Z.of_nat (w_count w)) ∧ map = [] ∧ pos = Z.of_nat (w_count w) ∧
  ∃ txt, parsed w = Some (inr txt) ∧ valid_map txt ∧ txt ≠ [] ∧ (length txt ≤ MAX)%nat ∧
    Forall2 (translated pm) txt m' ∧ new_idmap_permitted st cur f ns cs txt = Some true.

Lemma map_write_cases st cur f nsp ns w cs map pm p parent :
  (0 < MAX)%nat → valid_map pm → ns_parent ns = Some p → st !! p = Some parent →
  ∃ r m' pos, map_write st cur f nsp ns w cs map pm = Some (r, m', pos) ∧
    ((∃ e, r = inl e ∧ m' = map ∧ pos = w_ppos w) ∨
     write_done st cur f ns w cs map pm r m' pos).
Proof.
  intros HM Hpm Hp Hpar. unfold UserNs.map_write.
  assert (∀ e, ∃ r m' pos, Some (inl e, map, w_ppos w) = Some (r, m', pos) ∧
    ((∃ e', r = inl e' ∧ m' = map ∧ pos = w_ppos w) ∨
     write_done st cur f ns w cs map pm r m' pos)) as Hout.
  { intros e. eexists _, _, _. split; [done|]. left. by eexists. }
  case_decide as Hmap; [apply Hout|]. destruct (match cs with Some _ => _ | None => _ end); [apply Hout|].
  destruct (negb (w_page w)); [apply Hout|]. case_decide; [apply Hout|].
  destruct (w_buf w) as [bytes|] eqn:Eb; [|apply Hout].
  destruct (parse_loop_spec (S (length (cstr (take (w_count w) bytes))))
    (cstr (take (w_count w) bytes)) []) as (r & Er & Hr); [split; constructor|done|lia|].
  rewrite Er. cbn [mbind option_bind]. destruct r as [e|txt]; [apply Hout|].
  destruct (Hr txt eq_refl) as (Htxt & Hlen & Hne). rewrite decide_False by done.
  unfold new_idmap_permitted at 1. rewrite Hp. cbn [mbind option_bind]. rewrite Hpar. cbn [mbind option_bind].
  match goal with |- context [negb ?b] => destruct b eqn:Eok end; cbn [negb]; [|apply Hout].
  destruct (lower_loop pm txt) as [m'|] eqn:El; [|apply Hout].
  eexists _, _, _. split; [done|]. right. split_and!; [done|by destruct map|done|].
  exists txt. split_and!; [by unfold parsed; rewrite Eb|done..| |].
  - apply lower_loop_translated; [done|apply Htxt|done].
  - unfold new_idmap_permitted. rewrite Hp. cbn [mbind option_bind]. rewrite Hpar. cbn [mbind option_bind].
    by rewrite Eok.
Qed.

(** Every kernel id the map reaches is one the parent's map reaches. *)
Definition nested (m pm : uid_gid_map) : Prop :=
  ∀ id, in_u32 id → map_id_down m id ≠ INVALID →
    ∃ id', in_u32 id' ∧ map_id_down pm id' = map_id_down m id.

Lemma nested_empty pm : nested [] pm.
Proof. intros id _ Hne. by destruct Hne. Qed.

Lemma nested_in_empty m pm : nested m [] → nested m pm.
Proof.
  intros Hn id Hid Hne. destruct (Hn id Hid Hne) as (id' & _ & E).
  change (map_id_down [] id') with INVALID in E. by destruct Hne.
Qed.

Lemma translated_nested pm m m' :
  valid_map pm → valid_map m → Forall2 (translated pm) m m' → nested m' pm.
Proof.
  intros Hpm Hm H2 id Hid. rewrite (translated_compose pm m m') by done.
  case_decide as Hi; [done|]. intros _. exists (map_id_down m id). split; [|done].
  by apply map_id_down_up.
Qed.

Lemma map_write_nested st cur f nsp ns w cs map pm p parent r m' pos :
  (0 < MAX)%nat → valid_map map → valid_map pm → nested map pm →
  ns_parent ns = Some p → st !! p = Some parent →
  map_write st cur f nsp ns w cs map pm = Some (r, m', pos) →
  valid_map m' ∧ nested m' pm ∧ (m' = map ∨ map = []).
Proof.
  intros HM Hm Hpm Hn Hp Hpar E.
  destruct (map_write_cases st cur f nsp ns w cs map pm p parent HM Hpm Hp Hpar)
    as (? & ? & ? & E' & Hc). rewrite E in E'. injection E' as <- <- <-.
  destruct Hc as [(e & -> & -> & ->)|(_ & -> & _ & txt & _ & Htxt & _ & _ & H2 & _)]; [by auto|].
  split; [by apply (translated_valid pm txt)|]. split; [by apply (translated_nested pm txt)|by right].
Qed.

(** * All namespaces *)

Definition nested_ns (ns parent : user_namespace) : Prop :=
  nested (uid_map ns) (uid_map parent) ∧ nested (gid_map ns) (gid_map parent) ∧
  nested (projid_map ns) (projid_map parent) ∧ level ns = level parent + 1.

(** The state of the system of namespaces: valid maps; every namespace but the
    root is nested in an existing parent; the depth is bounded. *)
Definition ns_wf (st : nsmap) : Prop :=
  ∀ a ns, st !! a = Some ns → valid_ns ns ∧ 0 ≤ level ns ≤ 33 ∧
    match ns_parent ns with
    | None => level ns = 0
    | Some p => ∃ parent, st !! p = Some parent ∧ nested_ns ns parent
    end.

(** Changing one namespace, leaving its links alone and its maps nested. *)
Lemma ns_wf_update st a ns ns' :
  ns_wf st → st !! a = Some ns → ns_parent ns' = ns_parent ns → level ns' = level ns →
  valid_ns ns' →
  (∀ p parent, ns_parent ns = Some p → st !! p = Some parent → nested_ns ns' parent) →
  (∀ child, nested_ns child ns → nested_ns child ns') →
  ns_wf (<[a := ns']> st).
Proof.
  intros Hwf Ha Hp Hl Hv Hup Hdown b x Hx.
  apply lookup_insert_Some in Hx as [[<- <-]|[Hne Hx]].
  - destruct (Hwf a ns Ha) as (_ & Hlev & Hpar). rewrite Hp, Hl. split_and!; [done|lia|lia|].
    destruct (ns_parent ns) as [p|]; [|done]. destruct Hpar as (parent & Hpa & Hn).
    exists parent. split; [|eauto]. rewrite lookup_insert_ne; [done|].
    intros ->. rewrite Ha in Hpa. injection Hpa as <-. destruct Hn as (_ & _ & _ & ?). lia.
  - destruct (Hwf b x Hx) as (Hvx & Hlev & Hpar). split_and!; [done|lia|lia|].
    destruct (ns_parent x) as [p|]; [|done]. destruct Hpar as (parent & Hpa & Hn).
    destruct (decide (p = a)) as [->|Hpne].
    + exists ns'. rewrite lookup_insert_eq. split; [done|]. apply Hdown. congruence.
    + exists parent. by rewrite lookup_insert_ne.
Qed.

(** A map that changed only if it was empty keeps the children nested. *)
Lemma nested_monotone m map map' : map' = map ∨ map = [] → nested m map → nested m map'.
Proof. intros [->| ->]; [done|apply nested_in_empty]. Qed.

(** What the processes do to the namespaces: write a map, or create a namespace
    at a fresh address. *)
Inductive ns_step (st : nsmap) : nsmap → Prop :=
  | step_uid cur f seq_ns nsp w r st' pos :
      proc_uid_map_write isspace skip_spaces simple_strtoul MAX PAGE_SIZE st cur f seq_ns nsp w
        = Some (r, st', pos) → ns_step st st'
  | step_gid cur f seq_ns nsp w r st' pos :
      proc_gid_map_write isspace skip_spaces simple_strtoul MAX PAGE_SIZE st cur f seq_ns nsp w
        = Some (r, st', pos) → ns_step st st'
  | step_projid cur f seq_ns nsp w r st' pos :
      proc_projid_map_write isspace skip_spaces simple_strtoul MAX PAGE_SIZE st cur f seq_ns nsp w
        = Some (r, st', pos) → ns_step st st'
  | step_create new chrooted a inum r st' new' :
      st !! a = None →
      create_user_ns st new chrooted (Some a) inum = Some (r, st', new') → ns_step st st'.

(** The common part of the proofs about the three write handlers. *)
Ltac write_handler E Hwf st ns p parent Hns Hp Hparent Hpar Ew :=
  match type of E with (?o ≫= _) = _ => destruct o as [ns|] eqn:Hns; [|done] end;
  cbn [mbind option_bind] in E; destruct (ns_parent ns) as [p|] eqn:Hp;
    [|by injection E as <- <- <-];
  case_decide; [by injection E as <- <- <-|];
  match type of E with (?o ≫= _) = _ => destruct o as [parent|] eqn:Hparent; [|done] end;
  cbn [mbind option_bind] in E;
  match type of E with (?o ≫= _) = _ => destruct o as [[[? ?] ?]|] eqn:Ew; [|done] end;
  cbn [mbind option_bind] in E; injection E as <- <- <-;
  destruct (Hwf _ ns Hns) as ((? & ? & ?) & ? & Hpar); rewrite Hp in Hpar;
  destruct Hpar as (? & ? & (? & ? & ? & ?)); simplify_eq;
  destruct (Hwf p parent Hparent) as ((? & ? & ?) & _);
  apply (map_write_nested _ _ _ _ _ _ _ _ _ p parent) in Ew as (? & ? & ?); [|done..];
  apply (ns_wf_update st _ ns); try done;
    [by intros ? ? ? ?; simplify_eq|];
  intros child (? & ? & ? & ?); split_and!; try done; by eapply nested_monotone.

Lemma ns_step_wf st st' : (0 < MAX)%nat → ns_wf st → ns_step st st' → ns_wf st'.
Proof.
  intros HM Hwf Hstep. destruct Hstep as [cur f seq_ns nsp w r st' pos E|cur f seq_ns nsp w r st' pos E|
    cur f seq_ns nsp w r st' pos E|new chrooted a inum r st' new' Hfresh E].
  - unfold proc_uid_map_write in E. write_handler E Hwf st ns p parent Hns Hp Hparent Hpar Ew.
  - unfold proc_gid_map_write in E. write_handler E Hwf st ns p parent Hns Hp Hparent Hpar Ew.
  - unfold proc_projid_map_write in E. write_handler E Hwf st ns p parent Hns Hp Hparent Hpar Ew.
  - unfold create_user_ns in E.
    destruct (st !! user_ns new) as [parent|] eqn:Hpar; [|done]. cbn [mbind option_bind] in E.
    destruct (decide (32 < level parent)); [by simplify_eq|]. destruct chrooted; [by simplify_eq|].
    destruct (_ || _); [by simplify_eq|]. destruct inum; [|by simplify_eq]. simplify_eq.
    destruct (Hwf _ _ Hpar) as (_ & ? & _).
    intros b x Hx. apply lookup_insert_Some in Hx as [[<- <-]|[Hne Hx]]; simpl.
    + split_and!; [split_and!; split; constructor|lia|lia|].
      exists parent. rewrite lookup_insert_ne by congruence. split; [done|].
      split_and!; try apply nested_empty. done.
    + destruct (Hwf b x Hx) as (? & ? & Hp). split_and!; [done|lia|lia|].
      destruct (ns_parent x); [|done]. destruct Hp as (y & Hy & ?). exists y.
      rewrite lookup_insert_ne by congruence. done.
Qed.

(** C13: in every state reachable from the initial namespace by writing maps and
    creating namespaces, all maps are valid (extents that do not wrap, overlap
    or contain the invalid id), every namespace only reaches kernel ids its
    parent reaches, and namespaces nest at most 33 deep. *)
Theorem user_ns_invariant root st :
  (0 < MAX)%nat → rtc ns_step {[ root := init_user_ns ]} st → ns_wf st.
Proof.
  intros HM Hr. assert (ns_wf {[ root := init_user_ns ]}) as Hwf.
  { intros a ns [<- <-]%lookup_singleton_Some. split_and!; try done.
    split_and!; apply init_map_valid. }
  revert Hwf. generalize ({[ root := init_user_ns ]} : nsmap), Hr. clear Hr.
  induction 1; eauto using ns_step_wf.
Qed.

(** A successful write of the user ids, unfolded. *)
Lemma uid_write_inv st cur f seq_ns nsp w n st' pos :
  (0 < MAX)%nat → ns_wf st →
  proc_uid_map_write isspace skip_spaces simple_strtoul MAX PAGE_SIZE st cur f seq_ns nsp w
    = Some (inr n, st', pos) →
  ∃ ns p parent m', st !! nsp = Some ns ∧ ns_parent ns = Some p ∧ st !! p = Some parent ∧ nsp ≠ p ∧
    valid_map (uid_map parent) ∧ st' = <[nsp := set_uid_map ns m']> st ∧
    write_done st cur f ns w (Some CAP_SETUID) (uid_map ns) (uid_map parent) (inr n) m' pos.
Proof.
  intros HM Hwf E. unfold proc_uid_map_write in E.
  destruct (st !! nsp) as [ns|] eqn:Hns; [|done]. cbn [mbind option_bind] in E.
  destruct (ns_parent ns) as [p|] eqn:Hp; [|done]. case_decide; [done|].
  destruct (st !! p) as [parent|] eqn:Hparent; [|done]. cbn [mbind option_bind] in E.
  destruct (Hwf nsp ns Hns) as (_ & _ & Hpar). rewrite Hp in Hpar.
  destruct Hpar as (parent' & Hpa & (_ & _ & _ & Hlev)). simplify_eq.
  destruct (Hwf p parent Hparent) as ((Hpv & _) & _).
  destruct (map_write_cases st cur f nsp ns w (Some CAP_SETUID) (uid_map ns) (uid_map parent) p parent)
    as (r & m' & pos' & Ew & Hc); [done..|]. rewrite Ew in E. cbn [mbind option_bind] in E.
  injection E as -> <- ->. destruct Hc as [(? & [=] & _)|Hd].
  exists ns, p, parent, m'. split_and!; try done. intros ->. simplify_eq. lia.
Qed.

(** C32: a process without CAP_SETUID over the parent namespace (held by itself
    and by the opener of the file) can only map its own user: a successful
    write leaves a map of exactly one id, to the file system user id of the
    opener. *)
Theorem uid_map_unprivileged st cur f seq_ns nsp w n st' pos ns p :
  (0 < MAX)%nat → ns_wf st → st !! nsp = Some ns → ns_parent ns = Some p →
  security_capable st cur p CAP_SETUID && security_capable st (f_cred f) p CAP_SETUID = false →
  proc_uid_map_write isspace skip_spaces simple_strtoul MAX PAGE_SIZE st cur f seq_ns nsp w
    = Some (inr n, st', pos) →
  ∃ ns' id, st' !! nsp = Some ns' ∧ uid_map ns' = [Extent id (fsuid (f_cred f)) 1].
Proof.
  intros HM Hwf Hns Hp Hcap E. apply uid_write_inv in E; [|done..].
  destruct E as (ns0 & p0 & parent & m' & ? & ? & Hparent & _ & Hv & -> & _ & _ & _ &
    txt & _ & Htxt & _ & _ & H2 & Hperm). simplify_eq.
  unfold new_idmap_permitted, ns_capable, file_ns_capable in Hperm. rewrite Hp in Hperm.
  cbn [mbind option_bind] in Hperm. rewrite Hparent in Hperm. cbn [mbind option_bind] in Hperm.
  rewrite Hcap in Hperm.
  exists (set_uid_map ns m'). rewrite lookup_insert_eq.
  destruct txt as [|e [|]]; simpl in Hperm; try done.
  case_decide as H1; [|done]. case_bool_decide as Hf; [|done].
  apply list.Forall2_cons_inv_l in H2 as (e' & l & He' & Hl & ->). apply Forall2_nil_inv_l in Hl as ->.
  exists (first e). split; [done|]. simpl. f_equal.
  destruct He' as (E1 & E2 & q & Hq & ? & ? & E3). destruct e' as [a b c]. simpl in *. f_equal; [done| |lia].
  rewrite <- Hf. unfold make_kuid.
  destruct (valid_map_ok _ _ Hv Hq) as (? & ? & ? & ? & ?).
  destruct (map_id_down_cases (uid_map parent) (lower_first e) Hv) as [(q' & Hq' & Hin & ->)|[Hno _]];
    [width| |].
  - assert (q' = q) as ->; [|done]. apply (valid_map_eq _ _ _ Hv Hq' Hq).
    left. exists (lower_first e). unfold in_upper in *. lia.
  - destruct (Hno q Hq). unfold in_upper. lia.
Qed.

Lemma uid_m_show_parent st nsp x p parent e :
  st !! p = Some parent → nsp ≠ p →
  uid_m_show (<[nsp := x]> st) p nsp e = Some (first e, from_kuid parent (lower_first e), count e).
Proof.
  intros Hp Hne. unfold uid_m_show, lower_ns_of. rewrite lookup_insert_ne by done. rewrite Hp.
  cbn [mbind option_bind]. by rewrite decide_False by done.
Qed.

(** a map written is the map shown: a reader in the parent namespace sees
    exactly the numbers that were parsed from the written text, line by line. *)
Theorem uid_map_write_show st cur f seq_ns nsp w n st' pos ns p :
  (0 < MAX)%nat → ns_wf st → st !! nsp = Some ns → ns_parent ns = Some p →
  proc_uid_map_write isspace skip_spaces simple_strtoul MAX PAGE_SIZE st cur f seq_ns nsp w
    = Some (inr n, st', pos) →
  ∃ ns' txt, st' !! nsp = Some ns' ∧ parsed w = Some (inr txt) ∧
    uid_m_show st' p nsp <$> uid_map ns' =
    (λ e, Some (first e, lower_first e, count e)) <$> txt.
Proof.
  intros HM Hwf Hns Hp E. apply uid_write_inv in E; [|done..].
  destruct E as (ns0 & p0 & parent & m' & ? & ? & Hparent & Hne & Hv & -> & _ & _ & _ &
    txt & Hparse & Htxt & _ & _ & H2 & Hperm). simplify_eq.
  exists (set_uid_map ns m'), txt. rewrite lookup_insert_eq. split_and!; [done..|]. simpl.
  destruct Htxt as [Hok _]. clear Hperm Hparse. induction H2 as [|e e' txt m' He H2 IH]; [done|].
  apply Forall_cons in Hok as [He0 Hok]. rewrite !fmap_cons. f_equal; [|].
  - rewrite (uid_m_show_parent _ _ _ _ parent) by done.
    pose proof (translated_ok _ _ _ Hv He0 He) as (? & ? & ? & ? & ?).
    destruct He as (-> & -> & q & Hq & ? & ? & E3). do 3 f_equal.
    destruct (valid_map_ok _ _ Hv Hq) as (? & ? & ? & ? & ?). destruct He0 as (? & ? & ? & ? & ?).
    unfold from_kuid. destruct (map_id_up_cases (uid_map parent) (lower_first e') Hv)
      as [(q' & Hq' & Hin & ->)|[Hno _]]; [width| |].
    + assert (q' = q) as ->; [|lia]. apply (valid_map_eq _ _ _ Hv Hq' Hq).
      right. exists (lower_first e'). unfold in_lower in *. lia.
    + destruct (Hno q Hq). unfold in_lower. lia.
  - rewrite <- IH by done. apply list_fmap_ext. intros i x Hx.
    by rewrite !(uid_m_show_parent _ _ _ _ parent) by done.
Qed.
End write_proofs.

(** * Destruction *)

(** The number of namespaces whose parent is [p]. *)
Definition children (st : nsmap) (p : nat) : Z := mcount (λ x, ns_parent x = Some p) st.

(** The references of a namespace are those of its children and [ext] of others
    (credentials and the like); the root is always referenced, and the parent
    of a namespace exists and is at a smaller depth.  All counts but those of
    [dead] are positive. *)
Definition counted (ext : nat → Z) (dead : nat → Prop) (st : nsmap) : Prop :=
  ∀ a x, st !! a = Some x →
    ns_count x = ext a + children st a ∧ 0 ≤ ext a ∧ (dead a ↔ ns_count x = 0) ∧
    match ns_parent x with
    | None => 0 < ext a
    | Some p => ∃ parent, st !! p = Some parent ∧ level x = level parent + 1
    end.

Lemma free_user_ns_step ext st a x p parent st1 :
  counted ext (eq a) st → st !! a = Some x → ns_parent x = Some p → st !! p = Some parent →
  st1 = <[p := set_ns_count parent (ns_count parent - 1)]> (base.delete a st) →
  a ≠ p ∧ base.delete a st !! p = Some parent ∧
  counted ext (λ b, b = p ∧ ns_count parent - 1 = 0) st1.
Proof.
  intros Hc Ha Hp Hpar Est.
  destruct (Hc a x Ha) as (Hca & Hea & Hda & Hup). rewrite Hp in Hup. destruct Hup as (q & Hq & Hl).
  rewrite Hpar in Hq. injection Hq as <-.
  assert (a ≠ p) as Hne. { intros ->. rewrite Ha in Hpar. injection Hpar as <-. lia. }
  assert (ns_count x = 0) as Hz by by apply Hda.
  assert (base.delete a st !! p = Some parent) as Hdp by by rewrite lookup_delete_ne.
  assert (∀ b, children st1 b = children st b - ind (ns_parent x = Some b)) as Hch.
  { intros b. unfold children. rewrite Est, (mcount_insert _ _ p parent), (mcount_delete _ _ a x) by done.
    simpl. lia. }
  split_and!; [done..|]. intros b y Hb. rewrite Est in Hb. rewrite Hch, Hp. unfold ind.
  apply lookup_insert_Some in Hb as [[<- <-]|[Hbp Hb]].
  - destruct (Hc p parent Hpar) as (Hcp & Hep & Hdp' & Hpp). rewrite decide_True by done. simpl.
    split_and!; [lia|done|tauto|].
    destruct (ns_parent parent) as [r|] eqn:Hr; [|done]. destruct Hpp as (rr & Hrr & Hrl).
    exists rr. split; [|done]. rewrite Est, lookup_insert_ne, lookup_delete_ne; [done| |].
    + intros <-. pose proof (mcount_pos (λ z, ns_parent z = Some a) st p parent Hpar Hr) as Hpos.
      fold (children st a) in Hpos. lia.
    + intros <-. rewrite Hpar in Hrr. injection Hrr as <-. lia.
  - apply lookup_delete_Some in Hb as [Hab Hb].
    destruct (Hc b y Hb) as (Hcb & Heb & Hdb & Hpb). rewrite decide_False by congruence.
    split_and!; [lia|done| |].
    { split; [intros [? _]; done|]. intros Hy. by destruct Hab; apply Hdb. }
    destruct (ns_parent y) as [r|] eqn:Hr; [|done]. destruct Hpb as (rr & Hrr & Hrl).
    assert (r ≠ a) as Hra.
    { intros ->. pose proof (mcount_pos (λ z, ns_parent z = Some a) st b y Hb Hr) as Hpos.
      fold (children st a) in Hpos. lia. }
    destruct (decide (r = p)) as [->|].
    + exists (set_ns_count parent (ns_count parent - 1)). rewrite Est, lookup_insert_eq.
      split; [done|]. simpl. congruence.
    + exists rr. by rewrite Est, lookup_insert_ne, lookup_delete_ne by done.
Qed.

Lemma free_user_ns_spec ext fuel st a x :
  counted ext (eq a) st → st !! a = Some x → (size st ≤ fuel)%nat →
  ∃ st', free_user_ns fuel st a = Some st' ∧ counted ext (λ _, False) st' ∧
    dom st' ⊆ dom st ∖ {[a]}.
Proof.
  revert st a x. induction fuel as [|fuel IH]; intros st a x Hc Ha Hf.
  { assert (st = ∅) as -> by (apply map_size_empty_inv; lia). by rewrite lookup_empty in Ha. }
  destruct (Hc a x Ha) as (Hca & Hea & Hda & Hup).
  assert (ns_count x = 0) as Hz by by apply Hda. pose proof (mcount_nonneg (λ z, ns_parent z = Some a) st) as Hnn. fold (children st a) in Hnn.
  destruct (ns_parent x) as [p|] eqn:Hp; [|lia]. destruct Hup as (parent & Hpar & Hl).
  cbn [free_user_ns]. rewrite Ha. cbn [mbind option_bind]. rewrite Hp. cbn [mbind option_bind].
  destruct (free_user_ns_step ext st a x p parent _ Hc Ha Hp Hpar eq_refl) as (Hne & Hdp & Hc').
  rewrite Hdp. cbn [mbind option_bind].
  set (st1 := <[p := _]> _) in *.
  assert (dom st1 = dom st ∖ {[a]}) as Hdom.
  { unfold st1. rewrite dom_insert_L, dom_delete_L. apply elem_of_dom_2 in Hpar. set_solver. }
  case_decide as Hn.
  - assert (counted ext (eq p) st1) as Hc1.
    { intros b y Hb. destruct (Hc' b y Hb) as (? & ? & ? & ?). split_and!; try done. naive_solver. }
    destruct (IH st1 p (set_ns_count parent (ns_count parent - 1)) Hc1) as (st' & -> & Hc2 & Hd).
    { apply lookup_insert_eq. }
    { assert (size st1 = pred (size st)) as ->; [|lia].
      unfold st1. rewrite map_size_insert_Some by done. by rewrite map_size_delete, Ha. }
    exists st'. split_and!; [done..|set_solver].
  - exists st1. split_and!; [done| |set_solver].
    intros b y Hb. destruct (Hc' b y Hb) as (? & ? & ? & ?). split_and!; try done. naive_solver.
Qed.

(** freeing a namespace whose last reference is gone also frees exactly the
    ancestors it was the last to reference: the walk ends, no freed namespace
    is touched again, the counts of the remaining namespaces are the numbers of
    their references and all positive, and no remaining namespace points to a
    freed parent. *)
Theorem free_user_ns_correct ext st a x :
  counted ext (eq a) st → st !! a = Some x →
  ∃ st', free_user_ns (size st) st a = Some st' ∧ counted ext (λ _, False) st' ∧
    dom st' ⊆ dom st ∖ {[a]}.
Proof. intros. by eapply free_user_ns_spec. Qed.

(** * A concrete system *)

Module Demo.
(** An unprivileged owner of namespace 1 below the initial namespace 0. *)
Definition is_admin_of_own (_ : nsmap) (_ : cred) (ns : nat) (c : cap) : bool :=
  bool_decide (ns = 1%nat ∧ c = CAP_SYS_ADMIN).

Global Instance sec : Security := {|
  CAP_EMPTY_SET := [0; 0]; CAP_FULL_SET := [4294967295; 4294967295]; SECUREBITS_DEFAULT := 0;
  cap_issubset a b := bool_decide (Forall2 (λ x y, Z.land x y = x) a b);
  security_capable := is_admin_of_own;
  kuid_has_mapping ns k := bool_decide (from_kuid ns k ≠ INVALID);
  kgid_has_mapping ns k := bool_decide (from_kgid ns k ≠ INVALID);
|}.

Definition isspace (c : ascii) : bool := Ascii.eqb c " "%char.
Fixpoint skip_spaces (s : list ascii) : list ascii :=
  match s with c :: s' => if isspace c then skip_spaces s' else s | [] => [] end.
Definition digit (c : ascii) : option Z :=
  let n := Z.of_N (N_of_ascii c) - 48 in if decide (0 ≤ n ≤ 9) then Some n else None.
Fixpoint strtoul (acc : Z) (s : list ascii) : Z * list ascii :=
  match s with
  | c :: s' => match digit c with Some d => strtoul (10 * acc + d) s' | None => (acc, s) end
  | [] => (acc, [])
  end.

Definition me : cred :=
  Cred 1 1000 1000 1000 1000 1000 1000 1000 1000 0 [0; 0] [0; 0] [0; 0] [0; 0] 0 1 0.
Definition st0 : nsmap := {[ 0%nat := init_user_ns ]}.
Definition st1 : nsmap :=
  <[1%nat := UserNamespace [] [] [] 1 (Some 0%nat) 1 1000 1000]> st0.
Definition text : list ascii :=
  ["0"; " "; "1"; "0"; "0"; "0"; " "; "1"; "010"]%char.
Definition args : write_args := WriteArgs (Some text) 9 0 true.

Lemma create_step : ns_step isspace skip_spaces (strtoul 0) 5 4096 st0 st1.
Proof.
  eapply (step_create _ _ _ _ _ _ (Cred 1 1000 1000 1000 1000 1000 1000 1000 1000 0 [0; 0] [0; 0] [0; 0] [0; 0] 0 0 0)
    false 1%nat Ok); [done|]. by vm_compute.
Qed.

Lemma st1_wf : ns_wf st1.
Proof.
  eapply (ns_step_wf isspace skip_spaces (strtoul 0) 5 4096 st0); [lia| |apply create_step].
  unfold st0. intros a ns [<- <-]%lookup_singleton_Some. split_and!; try done. split_and!; apply init_map_valid.
Qed.
End Demo.

Lemma user_ns_invariant_witness : ns_wf Demo.st1.
Proof.
  apply (user_ns_invariant Demo.isspace Demo.skip_spaces (Demo.strtoul 0) 5 4096 0%nat); [lia|].
  apply rtc_once, Demo.create_step.
Defined.

Definition demo_write :=
  proc_uid_map_write Demo.isspace Demo.skip_spaces (Demo.strtoul 0) 5 4096
    Demo.st1 Demo.me (File Demo.me) 1 1 Demo.args.

Lemma demo_write_ok : ∃ st', demo_write = Some (inr 9, st', 9).
Proof. eexists. vm_compute. reflexivity. Qed.

Lemma uid_map_unprivileged_witness :
  ∃ st' ns' id, demo_write = Some (inr 9, st', 9) ∧ st' !! 1%nat = Some ns' ∧
    uid_map ns' = [Extent id 1000 1].
Proof.
  destruct demo_write_ok as [st' E]. exists st'.
  destruct (uid_map_unprivileged Demo.isspace Demo.skip_spaces (Demo.strtoul 0) 5 4096
    Demo.st1 Demo.me (File Demo.me) 1 1 Demo.args 9 st' 9
    (UserNamespace [] [] [] 1 (Some 0%nat) 1 1000 1000) 0%nat) as (ns' & id & H1 & H2);
    [lia|apply Demo.st1_wf|done|done|by vm_compute|exact E|].
  by exists ns', id.
Defined.

Lemma uid_map_write_show_witness :
  ∃ st' ns' txt, demo_write = Some (inr 9, st', 9) ∧ st' !! 1%nat = Some ns' ∧
    uid_m_show st' 0 1 <$> uid_map ns' =
    (λ e, Some (first e, lower_first e, count e)) <$> txt.
Proof.
  destruct demo_write_ok as [st' E]. exists st'.
  destruct (uid_map_write_show Demo.isspace Demo.skip_spaces (Demo.strtoul 0) 5 4096
    Demo.st1 Demo.me (File Demo.me) 1 1 Demo.args 9 st' 9
    (UserNamespace [] [] [] 1 (Some 0%nat) 1 1000 1000) 0%nat) as (ns' & txt & H1 & _ & H2);
    [lia|apply Demo.st1_wf|done|done|exact E|].
  by exists ns', txt.
Defined.

Definition demo_dead : nsmap :=
  <[1%nat := UserNamespace [] [] [] 0 (Some 0%nat) 1 0 0]>
    {[0%nat := UserNamespace [] [] [] 2 None 0 0 0]}.

Lemma free_user_ns_correct_witness :
  ∃ st', free_user_ns 2 demo_dead 1 = Some st' ∧
    counted (λ a, if decide (a = 0%nat) then 1 else 0) (λ _, False) st' ∧
    dom st' ⊆ dom demo_dead ∖ {[1%nat]}.
Proof.
  apply (free_user_ns_correct _ demo_dead 1%nat (UserNamespace [] [] [] 0 (Some 0%nat) 1 0 0)); [|done].
  intros a x Hx. unfold demo_dead in Hx. apply lookup_insert_Some in Hx as [[<- <-]|[Hne Hx]].
  - split_and!; try done. by eexists.
  - apply lookup_singleton_Some in Hx as [<- <-]. split_and!; try done.
Defined.
