(* ===== verification/User.v ===== *)
(** User: the cache of per-user structures, kernel/user.c.

    A [user_struct] per user id is found through a hash table of chains; it is
    created by the first [alloc_uid] and destroyed when its last reference is
    dropped.  [alloc_uid] looks the id up, allocates without the lock, and looks
    it up again before it inserts: the two critical sections are separate steps
    here, so that other calls can come between them. *)

From S2P Require Import Prelude.

Local Open Scope Z_scope.

(** [struct user_struct] *)
Record user_struct := User {
  __count : Z;
  processes : Z;
  u_uid : Z;
}.

(** The structures and the chains of [uidhash_table]. *)
Record ucache := UCache {
  users : gmap nat user_struct;
  uidhash_table : gmap Z (list nat);
}.

Definition chain (st : ucache) (hashent : Z) : list nat := default [] (uidhash_table st !! hashent).

Definition set_count (u : user_struct) (n : Z) : user_struct := User n (processes u) (u_uid u).
Definition set_processes (u : user_struct) (n : Z) : user_struct := User (__count u) n (u_uid u).

Section user.
(** [CONFIG_BASE_SMALL] *)
Context (CONFIG_BASE_SMALL : bool).

Definition UIDHASH_BITS : Z := if CONFIG_BASE_SMALL then 3 else 7.
Definition UIDHASH_SZ : Z := Z.shiftl 1 UIDHASH_BITS.
Definition UIDHASH_MASK : Z := UIDHASH_SZ - 1.
Definition __uidhashfn (uid : Z) : Z :=
  Z.land (u32 (Z.shiftr uid UIDHASH_BITS + uid)) UIDHASH_MASK.

Definition uid_hash_insert (st : ucache) (up : nat) (hashent : Z) : ucache :=
  UCache (users st) (<[hashent := up :: chain st hashent]> (uidhash_table st)).

(** [hlist_del_init] unlinks the node from the chain it is on. *)
Definition uid_hash_remove (st : ucache) (up : nat) : ucache :=
  UCache (users st) (filter (λ a, a ≠ up) <$> uidhash_table st).

(** The walk over the chain; a dangling entry is [None]. *)
Fixpoint hash_walk (us : gmap nat user_struct) (uid : Z) (l : list nat) : option (option nat) :=
  match l with
  | [] => Some None
  | a :: l' =>
      u ← us !! a;
      if decide (u_uid u = uid) then Some (Some a) else hash_walk us uid l'
  end.

Definition uid_hash_find (st : ucache) (uid hashent : Z) : option (option nat * ucache) :=
  r ← hash_walk (users st) uid (chain st hashent);
  match r with
  | None => Some (None, st)
  | Some a =>
      u ← users st !! a;
      Some (Some a, UCache (<[a := set_count u (__count u + 1)]> (users st)) (uidhash_table st))
  end.

(** [free_user]; the keyrings are not represented. *)
Definition free_user (st : ucache) (up : nat) : ucache :=
  let st1 := uid_hash_remove st up in
  UCache (base.delete up (users st1)) (uidhash_table st1).

Definition find_user (st : ucache) (uid : Z) : option (option nat * ucache) :=
  uid_hash_find st uid (__uidhashfn uid).

Definition free_uid (st : ucache) (up : option nat) : option ucache :=
  match up with
  | None => Some st
  | Some a =>
      u ← users st !! a;
      let n := __count u - 1 in
      let st1 := UCache (<[a := set_count u n]> (users st)) (uidhash_table st) in
      Some (if decide (n = 0) then free_user st1 a else st1)
  end.

(** The second critical section of [alloc_uid], with the new structure at
    [new]. *)
Definition alloc_uid_insert (st : ucache) (uid : Z) (new : nat) : option (nat * ucache) :=
  let hashent := __uidhashfn uid in
  '(up, st1) ← uid_hash_find st uid hashent;
  match up with
  | Some a => Some (a, st1)
  | None =>
      let st2 := UCache (<[new := User 1 0 uid]> (users st1)) (uidhash_table st1) in
      Some (new, uid_hash_insert st2 new hashent)
  end.

(** [alloc_uid] without interference; [alloc] is what [kmem_cache_zalloc]
    returns. *)
Definition alloc_uid (st : ucache) (uid : Z) (alloc : option nat) : option (option nat * ucache) :=
  '(up, st1) ← uid_hash_find st uid (__uidhashfn uid);
  match up with
  | Some a => Some (Some a, st1)
  | None =>
      match alloc with
      | None => Some (None, st1)
      | Some new => '(a, st2) ← alloc_uid_insert st1 uid new; Some (Some a, st2)
      end
  end.

(** [root_user] and [uid_cache_init]; the chains start empty. *)
Definition root_user : user_struct := User 1 1 0.
Definition uid_cache_init (root : nat) : ucache :=
  uid_hash_insert (UCache {[ root := root_user ]} ∅) root (__uidhashfn 0).

(** * The invariant *)

(** Every structure is on the chain of its id and nothing else is; there is one
    structure per id, and the count is the number of references, [held]. *)
Record cache_ok (held : nat → Z) (st : ucache) : Prop := {
  ok_chain : ∀ b a, a ∈ chain st b → ∃ u, users st !! a = Some u ∧ __uidhashfn (u_uid u) = b;
  ok_hashed : ∀ a u, users st !! a = Some u → a ∈ chain st (__uidhashfn (u_uid u));
  ok_unique : ∀ a b u v, users st !! a = Some u → users st !! b = Some v →
    u_uid u = u_uid v → a = b;
  ok_count : ∀ a u, users st !! a = Some u → __count u = held a ∧ 0 < held a;
  ok_free : ∀ a, users st !! a = None → held a = 0;
}.

Definition held_add (held : nat → Z) (a : nat) (n : Z) : nat → Z :=
  λ b, if decide (b = a) then held b + n else held b.

Lemma hash_walk_spec us uid l :
  (∀ a, a ∈ l → is_Some (us !! a)) →
  (∃ a u, hash_walk us uid l = Some (Some a) ∧ a ∈ l ∧ us !! a = Some u ∧ u_uid u = uid) ∨
  (hash_walk us uid l = Some None ∧ ∀ a u, a ∈ l → us !! a = Some u → u_uid u ≠ uid).
Proof.
  induction l as [|a l IH]; intros Hl; [right; set_solver|].
  destruct (Hl a) as [u Hu]; [set_solver|]. simpl. rewrite Hu. cbn [mbind option_bind].
  case_decide as He.
  - left. exists a, u. set_solver.
  - destruct IH as [(b & v & -> & Hb & ?)|[-> Hno]]; [set_solver|left|right].
    + exists b, v. set_solver.
    + split; [done|]. intros b v [->|Hb]%elem_of_cons Hv; [congruence|eauto].
Qed.

(** A lookup takes a reference on the structure of the id, if there is one. *)
Lemma find_user_spec held st uid :
  cache_ok held st →
  (∃ a u, users st !! a = Some u ∧ u_uid u = uid ∧
     find_user st uid = Some (Some a, UCache (<[a := set_count u (__count u + 1)]> (users st)) (uidhash_table st))) ∨
  ((∀ a u, users st !! a = Some u → u_uid u ≠ uid) ∧ find_user st uid = Some (None, st)).
Proof.
  intros [Hc Hh _ _ _]. unfold find_user, uid_hash_find.
  destruct (hash_walk_spec (users st) uid (chain st (__uidhashfn uid))) as [(a & u & -> & Ha & Hu & Hid)|[-> Hno]].
  { intros a Ha. destruct (Hc _ a Ha) as (u & Hu & _). eauto. }
  - left. exists a, u. cbn [mbind option_bind]. rewrite Hu. done.
  - right. split; [|done]. intros a u Hu <-. by apply (Hno a u); [apply Hh|..].
Qed.

(** Changing the count of a structure. *)
Lemma cache_ok_count held st a u n :
  cache_ok held st → users st !! a = Some u → 0 < held a + n →
  cache_ok (held_add held a n)
    (UCache (<[a := set_count u (__count u + n)]> (users st)) (uidhash_table st)).
Proof.
  intros [Hc Hh Hu Hn Hf] Ha Hpos. unfold held_add. split; simpl.
  - intros b x Hx. change (x ∈ chain st b) in Hx. destruct (Hc b x Hx) as (v & Hv & E).
    destruct (decide (x = a)) as [->|].
    + eexists. rewrite lookup_insert_eq. split; [done|]. simpl. congruence.
    + exists v. by rewrite lookup_insert_ne.
  - intros x v Hx. change (x ∈ chain st (__uidhashfn (u_uid v))).
    apply lookup_insert_Some in Hx as [[<- <-]|[_ Hx]]; simpl; eauto.
  - intros x y v w Hv Hw. apply lookup_insert_Some in Hv as [[<- <-]|[_ Hv]];
      apply lookup_insert_Some in Hw as [[<- <-]|[_ Hw]]; simpl; eauto.
  - intros x v Hx. apply lookup_insert_Some in Hx as [[<- <-]|[Hne Hx]]; simpl.
    + rewrite decide_True by done. destruct (Hn a u Ha). lia.
    + rewrite decide_False by done. by apply Hn.
  - intros x Hx. apply lookup_insert_None in Hx as [Hx Hne]. rewrite decide_False by done. by apply Hf.
Qed.

Lemma held_add_ext held held' st :
  (∀ a, held a = held' a) → cache_ok held st → cache_ok held' st.
Proof.
  intros He [H1 H2 H3 H4 H5]. split; try done.
  - intros a u. rewrite <- He. apply H4.
  - intros a. rewrite <- He. apply H5.
Qed.

Lemma find_user_ok held st uid r st' :
  cache_ok held st → find_user st uid = Some (r, st') →
  match r with Some a => cache_ok (held_add held a 1) st' | None => st' = st end.
Proof.
  intros Hok E. destruct (find_user_spec held st uid Hok) as [(a & u & Hu & _ & E')|[_ E']];
    rewrite E in E'; injection E' as -> ->; [|done].
  apply cache_ok_count; [done..|]. destruct (ok_count _ _ Hok a u Hu). lia.
Qed.

Lemma free_uid_spec held st a :
  cache_ok held st → 0 < held a →
  ∃ st', free_uid st (Some a) = Some st' ∧ cache_ok (held_add held a (-1)) st' ∧
    (∀ b u, b ≠ a → users st' !! b = Some u ↔ users st !! b = Some u) ∧
    (users st' !! a = None ↔ held a = 1).
Proof.
  intros Hok Hpos. unfold free_uid.
  destruct (users st !! a) as [u|] eqn:Hu; [|pose proof (ok_free _ _ Hok a Hu); lia].
  cbn [mbind option_bind]. destruct (ok_count _ _ Hok a u Hu) as [Hc _].
  eexists. split; [done|]. case_decide as Hz.
  - assert (held a = 1) as H1 by lia. destruct Hok as [Hch Hh Hun Hn Hf].
    assert (∀ b x, x ∈ chain (UCache (base.delete a (<[a := set_count u (__count u - 1)]> (users st)))
        (filter (λ x, x ≠ a) <$> uidhash_table st)) b ↔ x ∈ chain st b ∧ x ≠ a) as Hchain.
    { intros b x. unfold chain. simpl. rewrite lookup_fmap.
      destruct (uidhash_table st !! b); simpl; [rewrite list_elem_of_filter|]; set_solver. }
    split_and!.
    + split; simpl.
      * intros b x [Hx Hne]%Hchain. destruct (Hch b x Hx) as (v & Hv & E). exists v.
        by rewrite lookup_delete_ne, lookup_insert_ne by done.
      * intros x v Hx. apply lookup_delete_Some in Hx as [Hne Hx].
        rewrite lookup_insert_ne in Hx by done. apply Hchain. split; [by apply Hh|done].
      * intros x y v w Hv Hw. apply lookup_delete_Some in Hv as [? Hv], Hw as [? Hw].
        rewrite lookup_insert_ne in Hv, Hw by done. by apply Hun.
      * intros x v Hx. apply lookup_delete_Some in Hx as [? Hx]. rewrite lookup_insert_ne in Hx by done.
        unfold held_add. rewrite decide_False by done. by apply Hn.
      * intros x Hx. unfold held_add. destruct (decide (x = a)) as [->|]; [lia|].
        rewrite lookup_delete_ne, lookup_insert_ne in Hx by done. by apply Hf.
    + intros b v Hne. simpl. by rewrite lookup_delete_ne, lookup_insert_ne by done.
    + simpl. rewrite lookup_delete_eq. done.
  - split_and!.
    + apply (cache_ok_count held st a u (-1)); [done..|lia].
    + intros b v Hne. simpl. by rewrite lookup_insert_ne.
    + simpl. rewrite lookup_insert_eq. split; [done|lia].
Qed.

Lemma alloc_uid_insert_spec held st uid new :
  cache_ok held st → users st !! new = None →
  ∃ a u st', alloc_uid_insert st uid new = Some (a, st') ∧ users st' !! a = Some u ∧ u_uid u = uid ∧
    cache_ok (held_add held a 1) st'.
Proof.
  intros Hok Hnew. unfold alloc_uid_insert.
  change (uid_hash_find st uid (__uidhashfn uid)) with (find_user st uid).
  destruct (find_user_spec held st uid Hok) as [(a & u & Hu & Hid & E)|[Hno E]]; rewrite E;
    cbn [mbind option_bind].
  - eexists _, _, _. split; [done|]. simpl. rewrite lookup_insert_eq. split_and!; [done..|].
    apply (cache_ok_count held st a u 1); [done..|]. destruct (ok_count _ _ Hok a u Hu). lia.
  - eexists _, _, _. split; [done|]. simpl. rewrite lookup_insert_eq. split_and!; [done..|].
    pose proof (ok_free _ _ Hok new Hnew) as Hz. destruct Hok as [Hch Hh Hun Hn Hf].
    assert (∀ b, chain (uid_hash_insert (UCache (<[new := User 1 0 uid]> (users st)) (uidhash_table st))
      new (__uidhashfn uid)) b = if decide (b = __uidhashfn uid) then new :: chain st b else chain st b) as Hchain.
    { intros b. unfold chain at 1. simpl. destruct (decide (b = __uidhashfn uid)) as [->|].
      - by rewrite lookup_insert_eq.
      - by rewrite lookup_insert_ne. }
    split; simpl.
    + intros b x. rewrite Hchain. case_decide as Hb.
      * intros [->|Hx]%elem_of_cons; [eexists; rewrite lookup_insert_eq; done|].
        destruct (Hch b x Hx) as (v & Hv & E'). exists v. rewrite lookup_insert_ne by congruence. done.
      * intros Hx. destruct (Hch b x Hx) as (v & Hv & E'). exists v.
        rewrite lookup_insert_ne by congruence. done.
    + intros x v Hx. rewrite Hchain. apply lookup_insert_Some in Hx as [[<- <-]|[Hne Hx]]; simpl.
      * rewrite decide_True by done. left.
      * apply Hh in Hx. case_decide; [by right|done].
    + intros x y v w Hv Hw Hvw. apply lookup_insert_Some in Hv as [[<- <-]|[_ Hv]];
        apply lookup_insert_Some in Hw as [[<- <-]|[_ Hw]]; simpl in *; [done| | |by eapply Hun].
      * by destruct (Hno y w Hw).
      * by destruct (Hno x v Hv).
    + intros x v Hx. unfold held_add. apply lookup_insert_Some in Hx as [[<- <-]|[Hne Hx]]; simpl.
      * rewrite decide_True by done. lia.
      * rewrite decide_False by done. by apply Hn.
    + intros x Hx. apply lookup_insert_None in Hx as [Hx Hne]. unfold held_add.
      rewrite decide_False by done. by apply Hf.
Qed.

Lemma alloc_uid_spec held st uid alloc :
  cache_ok held st → (∀ new, alloc = Some new → users st !! new = None) →
  ∃ r st', alloc_uid st uid alloc = Some (r, st') ∧
    match r with
    | Some a => (∃ u, users st' !! a = Some u ∧ u_uid u = uid) ∧ cache_ok (held_add held a 1) st'
    | None => alloc = None ∧ st' = st ∧ ∀ a u, users st !! a = Some u → u_uid u ≠ uid
    end.
Proof.
  intros Hok Hnew.
  unfold alloc_uid. change (uid_hash_find st uid (__uidhashfn uid)) with (find_user st uid).
  destruct (find_user_spec held st uid Hok) as [(a & u & Hu & Hid & E)|[Hno E]]; rewrite E;
    cbn [mbind option_bind].
  - eexists _, _. split; [done|]. split.
    + simpl. rewrite lookup_insert_eq. by eexists.
    + apply (cache_ok_count held st a u 1); [done..|]. destruct (ok_count _ _ Hok a u Hu). lia.
  - destruct alloc as [new|]; [|by eexists _, _].
    destruct (alloc_uid_insert_spec held st uid new Hok (Hnew new eq_refl)) as (a & u & st' & -> & Hu & Hid & Hok').
    cbn [mbind option_bind]. exists (Some a), st'. split; [done|]. split; [by exists u|done].
Qed.

(** A structure exists as long as it is referenced. *)
Lemma cache_ok_is_Some held st a : cache_ok held st → is_Some (users st !! a) ↔ 0 < held a.
Proof.
  intros Hok. split.
  - intros [u Hu]. by apply (ok_count _ _ Hok a u).
  - intros Hpos. destruct (users st !! a) eqn:E; [done|]. pose proof (ok_free _ _ Hok a E). lia.
Qed.

(** ** Which id a structure stands for *)

Definition uids (st : ucache) : gmap nat Z := u_uid <$> users st.

Lemma uids_is_Some st a : is_Some (uids st !! a) ↔ is_Some (users st !! a).
Proof. unfold uids. rewrite lookup_fmap. apply fmap_is_Some. Qed.

Lemma uids_None st a : uids st !! a = None ↔ users st !! a = None.
Proof. unfold uids. rewrite lookup_fmap. apply fmap_None. Qed.

Lemma uids_count st a u n T :
  users st !! a = Some u → uids (UCache (<[a := set_count u n]> (users st)) T) = uids st.
Proof.
  intros Hu. unfold uids. simpl. rewrite fmap_insert, insert_id; [done|]. by rewrite lookup_fmap, Hu.
Qed.

Lemma uid_hash_find_uids st uid h r st' : uid_hash_find st uid h = Some (r, st') → uids st' = uids st.
Proof.
  unfold uid_hash_find. destruct (hash_walk _ _ _) as [[a|]|]; [| |done]; cbn [mbind option_bind].
  - destruct (users st !! a) as [u|] eqn:Hu; [|done]. cbn [mbind option_bind]. intros [= _ <-]. by apply uids_count.
  - by intros [= _ <-].
Qed.

(** [alloc_uid] keeps the ids of all structures there are. *)
Lemma alloc_uid_uids st uid alloc r st' a x :
  (∀ new, alloc = Some new → users st !! new = None) → alloc_uid st uid alloc = Some (r, st') →
  uids st !! a = Some x → uids st' !! a = Some x.
Proof.
  intros Hnew E Ha. unfold alloc_uid in E.
  destruct (uid_hash_find st uid _) as [[[b|] st1]|] eqn:E1; [| |done]; cbn [mbind option_bind] in E;
    apply uid_hash_find_uids in E1.
  - injection E as _ <-. by rewrite E1.
  - destruct alloc as [new|]; [|injection E as _ <-; by rewrite E1]. unfold alloc_uid_insert in E.
    destruct (uid_hash_find st1 uid _) as [[[b|] st2]|] eqn:E2; [| |done]; cbn [mbind option_bind] in E;
      apply uid_hash_find_uids in E2; injection E as _ <-; [by rewrite E2, E1|].
    unfold uids, uid_hash_insert. simpl. rewrite fmap_insert, lookup_insert_ne; [change (uids st2 !! a = Some x); by rewrite E2, E1|].
    intros <-. specialize (Hnew new eq_refl). apply uids_None in Hnew. congruence.
Qed.

(** [free_uid] keeps the ids of the structures that stay. *)
Lemma free_uid_uids st b st' a :
  free_uid st (Some b) = Some st' → is_Some (users st' !! a) → uids st' !! a = uids st !! a.
Proof.
  unfold free_uid. destruct (users st !! b) as [u|] eqn:Hu; [|done]. cbn [mbind option_bind]. intros [= <-].
  rewrite <- (uids_count st b u (__count u - 1) (uidhash_table st)) by done. case_decide; [|done].
  unfold free_user, uids, uid_hash_remove. simpl. intros [v Hv]. apply lookup_delete_Some in Hv as [Hne Hv].
  by rewrite !lookup_fmap, lookup_delete_ne by done.
Qed.

(** * Interleaved calls *)

(** What the processes do: take a reference through a lookup (also the first
    half of [alloc_uid]), the second half of [alloc_uid] with a fresh structure,
    and drop a reference they hold. *)
Inductive ustep : (nat → Z) * ucache → (nat → Z) * ucache → Prop :=
  | ustep_find held st uid a st' :
      find_user st uid = Some (Some a, st') → ustep (held, st) (held_add held a 1, st')
  | ustep_miss held st uid st' :
      find_user st uid = Some (None, st') → ustep (held, st) (held, st')
  | ustep_insert held st uid new a st' :
      users st !! new = None → alloc_uid_insert st uid new = Some (a, st') →
      ustep (held, st) (held_add held a 1, st')
  | ustep_free held st a st' :
      0 < held a → free_uid st (Some a) = Some st' → ustep (held, st) (held_add held a (-1), st').

Lemma ustep_ok s s' : ustep s s' → cache_ok s.1 s.2 → cache_ok s'.1 s'.2.
Proof.
  intros Hs Hok. destruct Hs as [held st uid a st' E|held st uid st' E|held st uid new a st' Hn E|
    held st a st' Hpos E]; cbn [fst snd] in *.
  - by apply (find_user_ok _ _ _ _ _ Hok E).
  - by rewrite (find_user_ok _ _ _ _ _ Hok E).
  - destruct (alloc_uid_insert_spec held st uid new Hok Hn) as (b & u & st2 & E2 & _ & _ & Hok2).
    rewrite E in E2. by injection E2 as <- <-.
  - destruct (free_uid_spec held st a Hok Hpos) as (st2 & E2 & Hok2 & _).
    rewrite E in E2. by injection E2 as <-.
Qed.

Lemma uid_cache_init_ok root :
  cache_ok (λ a, if decide (a = root) then 1 else 0) (uid_cache_init root).
Proof.
  assert (∀ b, chain (uid_cache_init root) b = if decide (b = __uidhashfn 0) then [root] else []) as Hc.
  { intros b. unfold chain, uid_cache_init, uid_hash_insert. simpl. case_decide as Hb.
    - subst b. by rewrite lookup_insert_eq.
    - by rewrite lookup_insert_ne. }
  split; simpl.
  - intros b a. rewrite Hc. case_decide; [|set_solver]. intros ->%list_elem_of_singleton.
    exists root_user. by rewrite lookup_singleton_eq.
  - intros a u [<- <-]%lookup_singleton_Some. rewrite Hc. rewrite decide_True by done. set_solver.
  - intros a b u v [<- _]%lookup_singleton_Some [<- _]%lookup_singleton_Some. done.
  - intros a u [<- <-]%lookup_singleton_Some. by rewrite decide_True.
  - intros a Ha%lookup_singleton_None. by rewrite decide_False.
Qed.

(** C34: whatever lookups, allocations and releases interleave, also between the
    two critical sections of [alloc_uid], the cache keeps one structure per user
    id, on the chain of its hash, whose count is the number of references held;
    hence two holders of the same user id hold the same structure. *)
Theorem user_cache_invariant root held st :
  rtc ustep (λ a, if decide (a = root) then 1 else 0, uid_cache_init root) (held, st) →
  cache_ok held st.
Proof.
  intros Hr. change (cache_ok (held, st).1 (held, st).2).
  pose proof (uid_cache_init_ok root) as Hi.
  remember (λ a, if decide (a = root) then 1 else 0, uid_cache_init root) as s eqn:E.
  assert (cache_ok s.1 s.2) as Hs by by rewrite E. clear E Hi.
  induction Hr; [done|]. eauto using ustep_ok.
Qed.

(** [alloc_uid] always returns a referenced structure of the asked user id,
    unless memory is short and the id is not cached; [free_uid] frees the
    structure exactly when the reference is the last one, and changes no other
    structure. *)
Theorem alloc_free_uid_correct held st uid alloc a0 :
  cache_ok held st → (∀ new, alloc = Some new → users st !! new = None) → 0 < held a0 →
  (∃ r st', alloc_uid st uid alloc = Some (r, st') ∧
     match r with
     | Some a => (∃ u, users st' !! a = Some u ∧ u_uid u = uid) ∧ cache_ok (held_add held a 1) st'
     | None => alloc = None ∧ st' = st ∧ ∀ a u, users st !! a = Some u → u_uid u ≠ uid
     end) ∧
  (∃ st', free_uid st (Some a0) = Some st' ∧ cache_ok (held_add held a0 (-1)) st' ∧
     (∀ b u, b ≠ a0 → users st' !! b = Some u ↔ users st !! b = Some u) ∧
     (users st' !! a0 = None ↔ held a0 = 1)).
Proof.
  intros Hok Hnew Hpos. split; [by apply alloc_uid_spec|by apply free_uid_spec].
Qed.
End user.

Lemma user_cache_invariant_witness :
  ∃ held st, users st !! 7%nat = Some (User 1 0 1000) ∧ cache_ok false held st.
Proof.
  destruct (alloc_uid_insert false (uid_cache_init false 0) 1000 7) as [[a st]|] eqn:E; [|by vm_compute in E].
  eexists _, st. split; cycle 1.
  - apply (user_cache_invariant false 0%nat). eapply rtc_once, ustep_insert, E. done.
  - change (users st !! 7%nat) with (r ← Some (a, st); users r.2 !! 7%nat). rewrite <- E. by vm_compute.
Defined.

Lemma alloc_free_uid_correct_witness :
  ∃ st', alloc_uid false (uid_cache_init false 0) 1000 (Some 7%nat) = Some (Some 7%nat, st') ∧
    ∃ u, users st' !! 7%nat = Some u ∧ u_uid u = 1000.
Proof.
  destruct (alloc_free_uid_correct false _ (uid_cache_init false 0) 1000 (Some 7%nat) 0%nat
    (uid_cache_init_ok false 0)) as [(r & st' & E & Hr) _]; [by intros ? [= <-]|done|].
  exists st'. destruct r as [a|].
  - destruct Hr as [(u & Hu & Hid) _]. assert (a = 7%nat) as ->.
    { apply (f_equal (λ o, r ← o; r.1)) in E. vm_compute in E. congruence. }
    eauto.
  - destruct Hr as [[=] _].
Defined.
