(* ===== verification/CredOps.v ===== *)
(** CredOps: the life of credentials, kernel/cred.c.

    A task points to objective ([real_cred]) and subjective ([cred])
    credentials.  Credentials are copied before they are changed
    ([prepare_creds]), installed with [commit_creds] or given up with
    [abort_creds]; they are counted, and handed to RCU when the last reference
    goes.  A [BUG_ON] that fires, a [panic] and a dangling pointer are [None].
    The references that credentials hold on their namespace, group list,
    keyrings and security blob are not represented, those on their
    [user_struct] are; the debugging fields ([CONFIG_DEBUG_CREDENTIALS]) and
    keyrings ([CONFIG_KEYS]) are left out. *)

From S2P Require Import Prelude UserNs User.

Local Open Scope Z_scope.

(** The fields of [struct task_struct] the code touches; [dumpable] is that of
    the memory map, if the task has one. *)
Record task := Task {
  real_cred : option nat;
  t_cred : option nat;
  pdeath_signal : Z;
  dumpable : option Z;
  PF_NPROC_EXCEEDED : bool;
  PF_SUPERPRIV : bool;
}.

Record kstate := KState {
  creds : gmap nat cred;
  rcu : list nat;            (** credentials given to [call_rcu] *)
  tasks : gmap nat task;
  current : nat;
  uc : ucache;
  nss : nsmap;
}.

Definition with_creds (k : kstate) (c : gmap nat cred) : kstate :=
  KState c (rcu k) (tasks k) (current k) (uc k) (nss k).
Definition with_rcu (k : kstate) (l : list nat) : kstate :=
  KState (creds k) l (tasks k) (current k) (uc k) (nss k).
Definition with_tasks (k : kstate) (t : gmap nat task) : kstate :=
  KState (creds k) (rcu k) t (current k) (uc k) (nss k).
Definition with_uc (k : kstate) (u : ucache) : kstate :=
  KState (creds k) (rcu k) (tasks k) (current k) u (nss k).
Definition with_nss (k : kstate) (n : nsmap) : kstate :=
  KState (creds k) (rcu k) (tasks k) (current k) (uc k) n.

Definition set_cred (k : kstate) (a : nat) (c : cred) : kstate :=
  with_creds k (<[a := c]> (creds k)).
Definition set_task (k : kstate) (p : nat) (t : task) : kstate :=
  with_tasks k (<[p := t]> (tasks k)).

Definition with_usage (c : cred) (n : Z) : cred :=
  Cred n (uid c) (gid c) (suid c) (sgid c) (euid c) (egid c) (fsuid c) (fsgid c) (securebits c)
    (cap_inheritable c) (cap_permitted c) (cap_effective c) (cap_bset c) (user c) (user_ns c)
    (group_info c).

Definition set_ptrs (t : task) (r c : option nat) : task :=
  Task r c (pdeath_signal t) (dumpable t) (PF_NPROC_EXCEEDED t) (PF_SUPERPRIV t).

(** [atomic_inc]/[atomic_dec] of [user->processes] *)
Definition add_processes (k : kstate) (u : nat) (n : Z) : option kstate :=
  us ← users (uc k) !! u;
  Some (with_uc k (UCache (<[u := set_processes us (processes us + n)]> (users (uc k)))
    (uidhash_table (uc k)))).

Section free.
Context (CONFIG_BASE_SMALL : bool).

Definition __put_cred (k : kstate) (a : nat) : option kstate :=
  c ← creds k !! a;
  t ← tasks k !! current k;
  if decide (usage c ≠ 0) then None
  else if decide (t_cred t = Some a) then None
  else if decide (real_cred t = Some a) then None
  else Some (with_rcu k (a :: rcu k)).

(** [put_cred_rcu], run by RCU after the grace period. *)
Definition put_cred_rcu (k : kstate) (a : nat) : option kstate :=
  c ← creds k !! a;
  if decide (usage c ≠ 0) then None
  else
    u ← free_uid (uc k) (Some (user c));
    Some (with_rcu (with_uc (with_creds k (base.delete a (creds k))) u)
      (filter (λ b, b ≠ a) (rcu k))).
End free.

(** linux/cred.h and linux/sched.h: taking and dropping references. *)
Class Refs := {
  get_cred : kstate → nat → option kstate;
  put_cred : kstate → nat → option kstate;
  get_uid : kstate → nat → option kstate;
  get_cred_spec k a c : creds k !! a = Some c →
    get_cred k a = Some (set_cred k a (with_usage c (usage c + 1)));
  put_cred_spec k a c : creds k !! a = Some c →
    put_cred k a =
      let k1 := set_cred k a (with_usage c (usage c - 1)) in
      if decide (usage c - 1 = 0) then __put_cred k1 a else Some k1;
  get_uid_spec k u us : users (uc k) !! u = Some us →
    get_uid k u = Some (with_uc k (UCache (<[u := set_count us (__count us + 1)]> (users (uc k)))
      (uidhash_table (uc k))));
}.

(** The hooks of the security modules: [security_prepare_creds new old] and
    [security_task_fix_setuid new old flags]; [suid_dumpable] is a setting. *)
Inductive lsm_setid := LSM_SETID_ID | LSM_SETID_RE | LSM_SETID_RES | LSM_SETID_FS.

Class CredHooks := {
  security_prepare_creds : cred → cred → bool;
  security_task_fix_setuid : cred → cred → lsm_setid → errno + cred;
  suid_dumpable : Z;
  init_ns : nat;             (** the address of [init_user_ns] *)
  init_cred_addr : nat;      (** the address of [init_cred] *)
}.

Section cred.
Context `{Security, Refs, CredHooks}.

(** [current_cred()] *)
Definition current_cred (k : kstate) : option (nat * cred) :=
  t ← tasks k !! current k; a ← t_cred t; c ← creds k !! a; Some (a, c).

Definition exit_creds (k : kstate) (tsk : nat) : option kstate :=
  t ← tasks k !! tsk;
  r ← real_cred t;
  k1 ← put_cred (set_task k tsk (set_ptrs t None (t_cred t))) r;
  t1 ← tasks k1 !! tsk;
  c ← t_cred t1;
  put_cred (set_task k1 tsk (set_ptrs t1 (real_cred t1) None)) c.

Definition abort_creds (k : kstate) (new : nat) : option kstate :=
  c ← creds k !! new;
  if decide (usage c < 1) then None else put_cred k new.

(** [prepare_creds]; [alloc] is what [kmem_cache_alloc] returns. *)
Definition prepare_creds (k : kstate) (alloc : option nat) : option (option nat * kstate) :=
  '(_, old) ← current_cred k;
  match alloc with
  | None => Some (None, k)
  | Some a =>
      let new := with_usage old 1 in
      k1 ← get_uid (set_cred k a new) (user new);
      if security_prepare_creds new old then Some (Some a, k1)
      else k2 ← abort_creds k1 a; Some (None, k2)
  end.

(** The walk of [cred_cap_issubset] from [subset_ns] to the initial namespace.
    One unit of fuel is used per namespace. *)
Fixpoint owner_walk (fuel : nat) (ns : nsmap) (set_ns : nat) (set_euid : Z) (subset_ns : nat)
    : option bool :=
  match fuel with
  | O => None
  | S fuel' =>
      if decide (subset_ns = init_ns) then Some false
      else
        x ← ns !! subset_ns;
        if decide (ns_parent x = Some set_ns ∧ owner x = set_euid) then Some true
        else p ← ns_parent x; owner_walk fuel' ns set_ns set_euid p
  end.

(** Namespaces nest at most 33 deep, so 34 steps reach the initial one. *)
Definition NS_FUEL : nat := 35.

Definition cred_cap_issubset (k : kstate) (set subset : cred) : option bool :=
  if decide (user_ns set = user_ns subset)
  then Some (cap_issubset (cap_permitted subset) (cap_permitted set))
  else owner_walk NS_FUEL (nss k) (user_ns set) (euid set) (user_ns subset).

(** [commit_creds]; it always returns 0.  The notifications are left out, and
    [cred_cap_issubset], which has no effect, is evaluated also where the comparison of
    the ids decides already. *)
Definition commit_creds (k : kstate) (new : nat) : option kstate :=
  t ← tasks k !! current k;
  old ← real_cred t;
  if decide (t_cred t ≠ Some old) then None else
  oldc ← creds k !! old;
  newc ← creds k !! new;
  if decide (usage newc < 1) then None else
  k1 ← get_cred k new;
  sub ← cred_cap_issubset k oldc newc;
  let dump := bool_decide (euid oldc ≠ euid newc ∨ egid oldc ≠ egid newc ∨
    fsuid oldc ≠ fsuid newc ∨ fsgid oldc ≠ fsgid newc) || negb sub in
  let t1 := if dump
    then Task (real_cred t) (t_cred t) 0 (match dumpable t with Some _ => Some suid_dumpable | None => None end)
           (PF_NPROC_EXCEEDED t) (PF_SUPERPRIV t)
    else t in
  k2 ← (if decide (user newc ≠ user oldc) then add_processes k1 (user newc) 1 else Some k1);
  let k3 := set_task k2 (current k2) (set_ptrs t1 (Some new) (Some new)) in
  k4 ← (if decide (user newc ≠ user oldc) then add_processes k3 (user oldc) (-1) else Some k3);
  k5 ← put_cred k4 old;
  put_cred k5 old.

(** [override_creds]: the old subjective credentials are returned. *)
Definition override_creds (k : kstate) (new : nat) : option (nat * kstate) :=
  t ← tasks k !! current k;
  old ← t_cred t;
  k1 ← get_cred k new;
  Some (old, set_task k1 (current k1) (set_ptrs t (real_cred t) (Some new))).

Definition revert_creds (k : kstate) (old : nat) : option kstate :=
  t ← tasks k !! current k;
  override ← t_cred t;
  let k1 := set_task k (current k) (set_ptrs t (real_cred t) (Some old)) in
  put_cred k1 override.

(** [copy_creds] for the new task [p], whose pointers are those of its parent.
    [a] is what [kmem_cache_alloc] returns, the last three arguments are those
    of [create_user_ns]. *)
Definition copy_creds (k : kstate) (p : nat) (CLONE_THREAD CLONE_NEWUSER : bool)
    (a : option nat) (chrooted : bool) (ns_alloc : option nat) (inum : ret)
    : option (ret * kstate) :=
  t ← tasks k !! p;
  if CLONE_THREAD then
    c ← t_cred t;
    k1 ← get_cred k c;
    let k2 := set_task k1 p (set_ptrs t (Some c) (Some c)) in
    k3 ← get_cred k2 c;
    cc ← creds k3 !! c;
    k4 ← add_processes k3 (user cc) 1;
    Some (Ok, k4)
  else
    '(r, k1) ← prepare_creds k a;
    match r with
    | None => Some (Err ENOMEM, k1)
    | Some new =>
        newc ← creds k1 !! new;
        '(rv, k2) ← (if CLONE_NEWUSER then
            '(rv, ns', c') ← create_user_ns (nss k1) newc chrooted ns_alloc inum;
            Some (rv, set_cred (with_nss k1 ns') new c')
          else Some (Ok, k1));
        match rv with
        | Err e => k3 ← put_cred k2 new; Some (Err e, k3)
        | Ok =>
            newc2 ← creds k2 !! new;
            k3 ← add_processes k2 (user newc2) 1;
            k4 ← get_cred k3 new;
            Some (Ok, set_task k4 p (set_ptrs t (Some new) (Some new)))
        end
    end.

(** [prepare_kernel_cred]; [daemon] is a task or NULL. *)
Definition prepare_kernel_cred (k : kstate) (daemon : option nat) (alloc : option nat)
    : option (option nat * kstate) :=
  match alloc with
  | None => Some (None, k)
  | Some a =>
      old ← match daemon with
            | Some d => t ← tasks k !! d; real_cred t
            | None => Some init_cred_addr
            end;
      k1 ← get_cred k old;
      oldc ← creds k1 !! old;
      let new := with_usage oldc 1 in
      k2 ← get_uid (set_cred k1 a new) (user new);
      if security_prepare_creds new oldc
      then k3 ← put_cred k2 old; Some (Some a, k3)
      else k3 ← put_cred k2 a; k4 ← put_cred k3 old; Some (None, k4)
  end.
End cred.

(** [init_cred] *)
Definition init_cred `{Security} (user user_ns groups : nat) : cred :=
  Cred 4 0 0 0 0 0 0 0 0 SECUREBITS_DEFAULT CAP_EMPTY_SET CAP_FULL_SET CAP_FULL_SET CAP_FULL_SET
    user user_ns groups.

(** * Reference counts *)

(** The references the tasks hold on the credentials at [a]. *)
Definition ptrs (t : task) (a : nat) : Z := ind (real_cred t = Some a) + ind (t_cred t = Some a).
Definition task_refs (k : kstate) (a : nat) : Z :=
  mcount (λ t, real_cred t = Some a) (tasks k) + mcount (λ t, t_cred t = Some a) (tasks k).

(** The count of a set of credentials is the number of task pointers to it plus
    the references [ext] held elsewhere; credentials are with RCU exactly when
    nothing refers to them; no task points to credentials that do not exist. *)
Record cred_ok (ext : nat → Z) (k : kstate) : Prop := {
  ok_usage : ∀ a c, creds k !! a = Some c → usage c = task_refs k a + ext a;
  ok_ptr : ∀ p t a, tasks k !! p = Some t → 0 < ptrs t a → is_Some (creds k !! a);
  ok_rcu : ∀ a, a ∈ rcu k ↔ ∃ c, creds k !! a = Some c ∧ usage c = 0;
  ok_none : ∀ a, creds k !! a = None → ext a = 0;
}.

Lemma ind_range P `{Decision P} : 0 ≤ ind P ≤ 1.
Proof. unfold ind. case_decide; lia. Qed.

Lemma ptrs_range t a : 0 ≤ ptrs t a ≤ 2.
Proof.
  unfold ptrs. pose proof (ind_range (real_cred t = Some a)). pose proof (ind_range (t_cred t = Some a)). lia.
Qed.

Lemma ind_None (a : nat) (d : Decision (None = Some a)) : ind (None = Some a) = 0.
Proof. unfold ind. by case_decide. Qed.

Lemma ind_Some (b a : nat) (d : Decision (Some b = Some a)) : ind (Some b = Some a) = ind (a = b).
Proof. unfold ind. repeat case_decide; congruence. Qed.

Lemma ptrs_set t r c a : ptrs (set_ptrs t r c) a = ind (r = Some a) + ind (c = Some a).
Proof. done. Qed.

Lemma ptrs_is t r c a :
  real_cred t = r → t_cred t = c → ptrs t a = ind (r = Some a) + ind (c = Some a).
Proof. by intros <- <-. Qed.

Lemma task_refs_set k p t t' a :
  tasks k !! p = Some t → task_refs (set_task k p t') a = task_refs k a - ptrs t a + ptrs t' a.
Proof.
  intros Hp. unfold task_refs, ptrs. simpl. rewrite !(mcount_insert _ _ p t) by done. lia.
Qed.

Lemma task_refs_ge k p t a : tasks k !! p = Some t → ptrs t a ≤ task_refs k a.
Proof.
  intros Hp. unfold task_refs, ptrs.
  pose proof (mcount_delete (λ t, real_cred t = Some a) _ _ _ Hp).
  pose proof (mcount_delete (λ t, t_cred t = Some a) _ _ _ Hp).
  pose proof (mcount_nonneg (λ t, real_cred t = Some a) (base.delete p (tasks k))).
  pose proof (mcount_nonneg (λ t, t_cred t = Some a) (base.delete p (tasks k))). simpl in *. lia.
Qed.

Lemma cred_ok_same ext ext' k k' :
  creds k' = creds k → rcu k' = rcu k → tasks k' = tasks k → (∀ a, ext' a = ext a) →
  cred_ok ext k → cred_ok ext' k'.
Proof.
  intros Ec Er Et Ee [H1 H3 H4 H5].
  split; unfold task_refs in *; rewrite ?Ec, ?Er, ?Et; intros; rewrite ?Ee; eauto.
Qed.

Lemma cred_ok_eqv ext ext' k k' :
  cred_ok ext k →
  creds k' = creds k ∧ rcu k' = rcu k ∧ tasks k' = tasks k ∧ (∀ a, ext' a = ext a) → cred_ok ext' k'.
Proof. intros Hok (? & ? & ? & ?). by eapply cred_ok_same. Qed.

(** Moving references between the tasks and the other holders. *)
Lemma cred_ok_set_task ext ext' k p t t' :
  cred_ok ext k → tasks k !! p = Some t → (∀ a, ext' a = ext a + ptrs t a - ptrs t' a) →
  (∀ a, 0 < ptrs t' a → is_Some (creds k !! a)) →
  cred_ok ext' (set_task k p t').
Proof.
  intros [H1 H3 H4 H5] Hp He Hv. split; try done.
  - intros a c Ha. rewrite (task_refs_set k p t) by done. rewrite He, (H1 a c Ha). lia.
  - intros q x a Hq. simpl in Hq. apply lookup_insert_Some in Hq as [[<- <-]|[_ Hq]]; [apply Hv|by eapply H3].
  - intros a Ha. rewrite He, (H5 a Ha). simpl in Ha.
    assert (ptrs t a = 0) as ->.
    { pose proof (ptrs_range t a). destruct (decide (0 < ptrs t a)); [|lia].
      destruct (H3 p t a) as [? ?]; [done..|]. congruence. }
    pose proof (ptrs_range t' a). destruct (decide (0 < ptrs t' a)); [|lia].
    destruct (Hv a) as [? ?]; [done|congruence].
Qed.

Definition ext_add (ext : nat → Z) (a : nat) (n : Z) : nat → Z :=
  λ b, if decide (b = a) then ext b + n else ext b.

(** Taking a reference on credentials that are referenced. *)
Lemma cred_ok_get ext k a c n :
  cred_ok ext k → creds k !! a = Some c → 0 < usage c → 0 < usage c + n →
  cred_ok (ext_add ext a n) (set_cred k a (with_usage c (usage c + n))).
Proof.
  intros [H1 H3 H4 H5] Ha Hpos Hpos'. unfold ext_add.
  split; unfold task_refs in *; simpl.
  - intros b x Hb. apply lookup_insert_Some in Hb as [[<- <-]|[Hne Hb]]; simpl.
    + rewrite decide_True by done. rewrite (H1 a c Ha). lia.
    + rewrite decide_False by done. by apply H1.
  - intros p t b Hp Hb. destruct (decide (b = a)) as [->|].
    + rewrite lookup_insert_eq. done.
    + rewrite lookup_insert_ne by done. by eapply H3.
  - intros b. rewrite H4. destruct (decide (b = a)) as [->|].
    + rewrite lookup_insert_eq, Ha. split; intros (x & [= <-] & Hx); simpl in Hx; lia.
    + by rewrite lookup_insert_ne.
  - intros b Hb. apply lookup_insert_None in Hb as [Hb ?]. rewrite decide_False by done. by apply H5.
Qed.

Section refs.
Context `{Refs}.

(** Dropping a reference held outside the tasks. *)
Lemma put_cred_ok ext k a c :
  cred_ok ext k → creds k !! a = Some c → 1 ≤ ext a → is_Some (tasks k !! current k) →
  ∃ r, put_cred k a = Some (with_rcu (set_cred k a (with_usage c (usage c - 1))) r) ∧
    cred_ok (ext_add ext a (-1)) (with_rcu (set_cred k a (with_usage c (usage c - 1))) r).
Proof.
  intros Hok Ha He [t Ht]. rewrite (put_cred_spec _ _ _ Ha). cbv zeta.
  pose proof (ok_usage _ _ Hok a c Ha) as Hu.
  assert (∀ b, 0 ≤ task_refs k b) as Hnn.
  { intros b. unfold task_refs. pose proof (mcount_nonneg (λ t, real_cred t = Some b) (tasks k)).
    pose proof (mcount_nonneg (λ t, t_cred t = Some b) (tasks k)). simpl in *. lia. }
  specialize (Hnn a). case_decide as Hz.
  - unfold __put_cred. simpl. rewrite lookup_insert_eq. cbn [mbind option_bind]. rewrite Ht. cbn [mbind option_bind].
    rewrite decide_False by (simpl; lia).
    pose proof (task_refs_ge k _ t a Ht) as Hge. unfold ptrs, ind in Hge.
    destruct (decide (t_cred t = Some a)); [repeat case_decide; lia|].
    destruct (decide (real_cred t = Some a)); [lia|].
    eexists. split; [done|]. destruct Hok as [H1 H3 H4 H5].
    unfold ext_add. split; unfold task_refs in *; simpl.
    + intros b x Hb. apply lookup_insert_Some in Hb as [[<- <-]|[Hne Hb]]; simpl.
      * rewrite decide_True by done. lia.
      * rewrite decide_False by done. by apply H1.
    + intros p x b Hp Hb. destruct (decide (b = a)) as [->|].
      * by rewrite lookup_insert_eq.
      * rewrite lookup_insert_ne by done. by eapply H3.
    + intros b. rewrite elem_of_cons, H4. destruct (decide (b = a)) as [->|].
      * rewrite lookup_insert_eq. split; [|by left]. intros _. by eexists.
      * rewrite lookup_insert_ne by done. naive_solver.
    + intros b Hb. apply lookup_insert_None in Hb as [Hb ?]. rewrite decide_False by done. by apply H5.
  - exists (rcu k). split; [done|].
    apply (cred_ok_same (ext_add ext a (-1)) _ (set_cred k a (with_usage c (usage c + -1)))); try done.
    apply cred_ok_get; [done..|lia|lia].
Qed.

Lemma get_cred_ok ext k a c :
  cred_ok ext k → creds k !! a = Some c → 0 < usage c →
  get_cred k a = Some (set_cred k a (with_usage c (usage c + 1))) ∧
  cred_ok (ext_add ext a 1) (set_cred k a (with_usage c (usage c + 1))).
Proof.
  intros Hok Ha Hpos. split; [by apply get_cred_spec|].
  apply cred_ok_get; [done..|lia].
Qed.
End refs.

(** * Installing credentials *)

(** The objects credentials point to exist; the only namespace without a parent
    is the initial one. *)
Definition env_ok `{CredHooks} (k : kstate) : Prop :=
  ns_wf (nss k) ∧
  (∀ a x, nss k !! a = Some x → ns_parent x = None → a = init_ns) ∧
  (∀ a c, creds k !! a = Some c → is_Some (users (uc k) !! user c) ∧ is_Some (nss k !! user_ns c)).

Lemma owner_walk_total `{CredHooks} fuel ns set_ns e a x :
  ns_wf ns → (∀ b y, ns !! b = Some y → ns_parent y = None → b = init_ns) →
  ns !! a = Some x → level x < Z.of_nat fuel → is_Some (owner_walk fuel ns set_ns e a).
Proof.
  intros Hwf Hroot. revert a x. induction fuel as [|fuel IH]; intros a x Ha Hl.
  { destruct (Hwf a x Ha) as (_ & ? & _). lia. }
  cbn [owner_walk]. case_decide as Hi; [done|]. rewrite Ha. cbn [mbind option_bind].
  case_decide; [done|]. destruct (ns_parent x) as [p|] eqn:Hp; [|by destruct Hi; eapply Hroot].
  cbn [mbind option_bind]. destruct (Hwf a x Ha) as (_ & ? & Hx). rewrite Hp in Hx.
  destruct Hx as (y & Hy & _ & _ & _ & Hlev). apply (IH p y); [done|lia].
Qed.

Lemma cred_cap_issubset_total `{Security, CredHooks} k set subset :
  env_ok k → is_Some (nss k !! user_ns subset) → is_Some (cred_cap_issubset k set subset).
Proof.
  intros (Hwf & Hroot & _) [x Hx]. unfold cred_cap_issubset. case_decide; [done|].
  eapply owner_walk_total; [done..|]. destruct (Hwf _ x Hx) as (_ & ? & _). unfold NS_FUEL. lia.
Qed.

(** The same users with the same references; only process counts differ. *)
Definition same_users (st U : ucache) : Prop :=
  uidhash_table U = uidhash_table st ∧
  ∀ v, (λ x, (__count x, u_uid x)) <$> users U !! v = (λ x, (__count x, u_uid x)) <$> users st !! v.

Global Instance same_users_preorder : PreOrder same_users.
Proof.
  split; [by intros st|]. intros st1 st2 st3 [E1 H1] [E2 H2].
  split; [congruence|]. intros v. by rewrite H2.
Qed.

(** [add_processes] under a condition, as one update of the users. *)
Lemma add_processes_if (P : Prop) `{Decision P} k u us n :
  users (uc k) !! u = Some us →
  ∃ U, (if decide P then add_processes k u n else Some k) = Some (with_uc k U) ∧
    same_users (uc k) U ∧
    (∀ v x, users (uc k) !! v = Some x →
       ∃ x', users U !! v = Some x' ∧ __count x' = __count x ∧ u_uid x' = u_uid x ∧
         processes x' = processes x + (if decide (P ∧ v = u) then n else 0)).
Proof.
  intros Hu. case_decide as HP.
  - unfold add_processes. rewrite Hu. eexists. split; [done|]. split.
    { split; [done|]. intros v. simpl. destruct (decide (v = u)) as [->|].
      - by rewrite lookup_insert_eq, Hu.
      - by rewrite lookup_insert_ne. }
    intros v x Hv. simpl. destruct (decide (v = u)) as [->|Hne].
    + rewrite lookup_insert_eq. eexists. split; [done|]. rewrite Hu in Hv. injection Hv as <-. simpl.
      rewrite decide_True by done. done.
    + rewrite lookup_insert_ne by done. exists x. rewrite decide_False by tauto. split_and!; [done..|lia].
  - exists (uc k). split; [by destruct k|]. split; [done|]. intros v x Hv. exists x.
    rewrite decide_False by tauto. split_and!; [done..|lia].
Qed.

Section commit.
Context `{Security, Refs, CredHooks}.

(** What [commit_creds] does to the current task. *)
Definition committed (t t' : task) (new : nat) (oldc newc : cred) : Prop :=
  real_cred t' = Some new ∧ t_cred t' = Some new ∧
  PF_NPROC_EXCEEDED t' = PF_NPROC_EXCEEDED t ∧ PF_SUPERPRIV t' = PF_SUPERPRIV t ∧
  (euid oldc ≠ euid newc ∨ egid oldc ≠ egid newc ∨ fsuid oldc ≠ fsuid newc ∨ fsgid oldc ≠ fsgid newc →
   pdeath_signal t' = 0 ∧ dumpable t' = (match dumpable t with Some _ => Some suid_dumpable | None => None end)).

(** The state after [commit_creds]. *)
Definition commit_result (k k' : kstate) (new : nat) (t : task) (oldc newc : cred) : Prop :=
  (∃ t', tasks k' = <[current k := t']> (tasks k) ∧ committed t t' new oldc newc) ∧
  current k' = current k ∧ nss k' = nss k ∧ same_users (uc k) (uc k') ∧
  (∀ a c, creds k !! a = Some c → ∃ n, creds k' !! a = Some (with_usage c n)) ∧
  (∀ a, creds k !! a = None → creds k' !! a = None) ∧
  (∀ u us, users (uc k) !! u = Some us → ∃ us', users (uc k') !! u = Some us' ∧
     processes us' = processes us + ind (u = user newc) - ind (u = user oldc)).

Lemma with_usage_twice c n m : with_usage (with_usage c n) m = with_usage c m.
Proof. done. Qed.

Lemma set_cred_usage k a c n b x :
  creds k !! a = Some c → creds k !! b = Some x →
  ∃ m, creds (set_cred k a (with_usage c n)) !! b = Some (with_usage x m).
Proof.
  intros Ha Hb. simpl. destruct (decide (b = a)) as [->|].
  - rewrite lookup_insert_eq. exists n. congruence.
  - rewrite lookup_insert_ne by done. exists (usage x). rewrite Hb. by destruct x.
Qed.

Lemma commit_creds_spec ext k new newc t old oldc :
  cred_ok ext k → env_ok k → tasks k !! current k = Some t →
  real_cred t = Some old → t_cred t = Some old →
  creds k !! old = Some oldc → creds k !! new = Some newc → 1 ≤ ext new → 0 ≤ ext old →
  ∃ k', commit_creds k new = Some k' ∧ cred_ok (ext_add ext new (-1)) k' ∧
    commit_result k k' new t oldc newc.
Proof.
  intros Hok Henv Ht Hr Hc Hold Hnew He Heo.
  pose proof Henv as (_ & _ & Hobj). destruct (Hobj _ _ Hnew) as [[un Hun] Hns].
  destruct (Hobj _ _ Hold) as [[uo Huo] _].
  unfold commit_creds. rewrite Ht. cbn [mbind option_bind]. rewrite Hr. cbn [mbind option_bind].
  rewrite decide_False by (intros E; by apply E). rewrite Hold. cbn [mbind option_bind].
  rewrite Hnew. cbn [mbind option_bind].
  assert (0 < usage newc) as Hpos.
  { rewrite (ok_usage _ _ Hok new newc Hnew). pose proof (task_refs_ge k _ t new Ht).
    pose proof (ptrs_range t new). lia. }
  rewrite decide_False by lia.
  destruct (get_cred_ok ext k new newc Hok Hnew Hpos) as [-> Hok1].
  cbn [mbind option_bind].
  destruct (cred_cap_issubset_total k oldc newc Henv Hns) as [sub ->]. cbn [mbind option_bind].
  set (k1 := set_cred k new _) in *.
  set (t1 := if _ || _ then _ else t).
  destruct (add_processes_if (user newc ≠ user oldc) k1 (user newc) un 1) as (U1 & -> & HS1 & HU1); [done|].
  cbn [mbind option_bind].
  set (k3 := set_task (with_uc k1 U1) _ _) in *.
  destruct (HU1 _ _ Huo) as (uo1 & Huo1 & _).
  destruct (add_processes_if (user newc ≠ user oldc) k3 (user oldc) uo1 (-1)) as (U2 & -> & HS2 & HU2); [done|].
  cbn [mbind option_bind].
  set (k4 := with_uc k3 U2) in *.
  assert (∀ a, ptrs t a = 2 * ind (a = old)) as Hpt.
  { intros a. unfold ptrs, ind. rewrite Hr, Hc. destruct (decide (a = old)) as [->|].
    - rewrite !decide_True by done. done.
    - rewrite !decide_False by congruence. done. }
  assert (∀ a, ptrs (set_ptrs t1 (Some new) (Some new)) a = 2 * ind (a = new)) as Hpt'.
  { intros a. unfold ptrs, ind. simpl. destruct (decide (a = new)) as [->|].
    - rewrite !decide_True by done. done.
    - rewrite !decide_False by congruence. done. }
  assert (cred_ok (λ a, ext a + 2 * ind (a = old) - ind (a = new)) k4) as Hok4.
  { apply (cred_ok_same (λ a, ext a + 2 * ind (a = old) - ind (a = new)) _ k3); try done.
    apply (cred_ok_set_task (ext_add ext new 1) _ (with_uc k1 U1) (current k) t).
    - by apply (cred_ok_same (ext_add ext new 1) _ k1).
    - done.
    - intros a. cbv beta. rewrite Hpt, Hpt'. unfold ext_add, ind.
      destruct (decide (a = old)), (decide (a = new)); lia.
    - intros a. rewrite Hpt'. unfold ind. destruct (decide (a = new)) as [->|]; [|lia]. intros _. simpl.
      by rewrite lookup_insert_eq. }
  destruct (set_cred_usage k new newc (usage newc + 1) old oldc Hnew Hold) as (n4 & Hold4).
  assert (tasks k4 !! current k4 = Some (set_ptrs t1 (Some new) (Some new))) as Ht4.
  { simpl. apply lookup_insert_eq. }
  destruct (put_cred_ok _ k4 old (with_usage oldc n4) Hok4) as (r5 & -> & Hok5); [done| |done|].
  { unfold ind. repeat case_decide; subst; lia. }
  cbn [mbind option_bind]. set (k5 := with_rcu _ r5) in *.
  destruct (put_cred_ok _ k5 old (with_usage oldc (n4 - 1)) Hok5) as (r6 & -> & Hok6).
  { simpl. apply lookup_insert_eq. }
  { unfold ext_add, ind. repeat case_decide; subst; lia. }
  { simpl. by rewrite lookup_insert_eq. }
  eexists. split; [done|]. split.
  { eapply cred_ok_same; [done..| |exact Hok6]. intros a. unfold ext_add, ind.
    repeat case_decide; subst; lia. }
  split_and!; try done.
  - eexists. split; [simpl; done|]. unfold committed, t1. split_and!; try done.
    + by destruct (_ || _).
    + by destruct (_ || _).
    + intros Hch. rewrite bool_decide_eq_true_2 by done. done.
  - by transitivity U1.
  - intros a c Ha. simpl. destruct (decide (a = old)) as [->|Hao].
    + rewrite lookup_insert_eq. eexists. rewrite Hold in Ha. by injection Ha as <-.
    + rewrite !lookup_insert_ne by done.
      destruct (set_cred_usage k new newc (usage newc + 1) a c Hnew Ha) as (m & Hm). eauto.
  - intros a Ha. simpl. rewrite !lookup_insert_ne by congruence. done.
  - intros u us Hus. destruct (HU1 u us Hus) as (us1 & Hus1 & _ & _ & E1).
    destruct (HU2 u us1 Hus1) as (us2 & Hus2 & _ & _ & E2). exists us2. split; [done|].
    rewrite E2, E1. unfold ind. repeat case_decide; subst; naive_solver lia.
Qed.

Lemma task_refs_fresh ext k a : cred_ok ext k → creds k !! a = None → task_refs k a = 0.
Proof.
  intros Hok Hfresh. unfold task_refs.
  assert (∀ p x, tasks k !! p = Some x → ptrs x a = 0) as Hno.
  { intros p x Hx. pose proof (ptrs_range x a). destruct (decide (0 < ptrs x a)); [|lia].
    destruct (ok_ptr _ _ Hok p x a Hx) as [? ?]; [done|congruence]. }
  rewrite !mcount_zero; [done|..]; intros p x Hx Hp; specialize (Hno p x Hx); unfold ptrs, ind in Hno;
    rewrite Hp in Hno; rewrite !(decide_True (P := Some a = Some a)) in Hno by done;
    repeat case_decide; lia.
Qed.

(** New credentials, referenced once from outside the tasks. *)
Lemma cred_ok_new ext k a c :
  cred_ok ext k → creds k !! a = None → usage c = 1 → cred_ok (ext_add ext a 1) (set_cred k a c).
Proof.
  intros Hok Hfresh Hu. pose proof (ok_none _ _ Hok a Hfresh) as He0.
  pose proof (task_refs_fresh ext k a Hok Hfresh) as Hz. destruct Hok as [H1' H3' H4' H5'].
  split; simpl.
  - intros b x Hb. unfold ext_add. apply lookup_insert_Some in Hb as [[<- <-]|[Hne Hb]].
    + rewrite decide_True by done. change (task_refs (set_cred k a c) a) with (task_refs k a). lia.
    + rewrite decide_False by done. by apply H1'.
  - intros p x b Hp Hb. destruct (H3' p x b Hp Hb) as [y Hy]. rewrite lookup_insert_ne by congruence. done.
  - intros b. rewrite H4'. destruct (decide (b = a)) as [->|].
    + rewrite lookup_insert_eq, Hfresh. split; [by intros (? & ? & _)|]. intros (x & [= <-] & Hx). lia.
    + by rewrite lookup_insert_ne.
  - intros b Hb. apply lookup_insert_None in Hb as [Hb ?]. unfold ext_add.
    rewrite decide_False by done. by apply H5'.
Qed.

(** The users after [get_uid]. *)
Definition got_uid (st : ucache) (u : nat) (us : user_struct) : ucache :=
  UCache (<[u := set_count us (__count us + 1)]> (users st)) (uidhash_table st).

(** [prepare_creds] returns a copy of the current credentials with one
    reference, the caller's, or fails and leaves no credentials behind but
    those given to RCU. *)
Lemma prepare_creds_spec ext k alloc old oldc t :
  cred_ok ext k → env_ok k → tasks k !! current k = Some t → t_cred t = Some old →
  creds k !! old = Some oldc → (∀ a, alloc = Some a → creds k !! a = None) →
  ∃ r k', prepare_creds k alloc = Some (r, k') ∧ tasks k' = tasks k ∧ current k' = current k ∧
    nss k' = nss k ∧ env_ok k' ∧
    (∀ b, alloc ≠ Some b → creds k' !! b = creds k !! b) ∧
    (∃ us, users (uc k) !! user oldc = Some us ∧
       ((∃ a n, alloc = Some a ∧ creds k' = <[a := with_usage oldc n]> (creds k) ∧
           uc k' = got_uid (uc k) (user oldc) us) ∨
        creds k' = creds k ∧ uc k' = uc k ∧ r = None)) ∧
    match r with
    | Some a => alloc = Some a ∧ creds k' !! a = Some (with_usage oldc 1) ∧
        cred_ok (ext_add ext a 1) k'
    | None => cred_ok ext k'
    end.
Proof.
  intros Hok Henv Ht Hc Hold Hfresh. unfold prepare_creds, current_cred.
  rewrite Ht. cbn [mbind option_bind]. rewrite Hc. cbn [mbind option_bind]. rewrite Hold. cbn [mbind option_bind].
  pose proof Henv as (Hwf & Hroot & Hobj). destruct (Hobj _ _ Hold) as [[us Hus] Hns].
  destruct alloc as [a|]; cycle 1.
  { exists None, k. split_and!; try done. exists us. auto. }
  specialize (Hfresh a eq_refl).
  rewrite (get_uid_spec _ _ us) by done. cbn [mbind option_bind].
  set (k1 := with_uc _ _).
  assert (cred_ok (ext_add ext a 1) k1) as Hok1.
  { apply (cred_ok_same (ext_add ext a 1) _ (set_cred k a (with_usage oldc 1))); try done.
    by apply cred_ok_new. }
  assert (env_ok k1) as Henv1.
  { split_and!; [done..|]. simpl. intros b c Hb.
    assert (∀ v, is_Some (users (uc k) !! v) →
      is_Some (<[user oldc := set_count us (__count us + 1)]> (users (uc k)) !! v)) as Hus'.
    { intros v Hv. destruct (decide (v = user oldc)) as [->|]; [by rewrite lookup_insert_eq|].
      by rewrite lookup_insert_ne. }
    apply lookup_insert_Some in Hb as [[<- <-]|[_ Hb]]; [|destruct (Hobj _ _ Hb); auto].
    simpl. auto. }
  destruct (security_prepare_creds _ _).
  - exists (Some a), k1. split_and!; try done.
    + intros b Hb. simpl. rewrite lookup_insert_ne by congruence. done.
    + exists us. split; [done|]. left. by exists a, 1.
    + simpl. apply lookup_insert_eq.
  - unfold abort_creds. simpl. rewrite lookup_insert_eq. cbn [mbind option_bind].
    rewrite decide_False by (simpl; lia).
    destruct (put_cred_ok _ k1 a (with_usage oldc 1) Hok1) as (r & -> & Hok2).
    { simpl. apply lookup_insert_eq. }
    { unfold ext_add. rewrite decide_True by done. rewrite (ok_none _ _ Hok a Hfresh). lia. }
    { simpl. by rewrite Ht. }
    cbn [mbind option_bind]. eexists None, _. split_and!; try done.
    + destruct Henv1 as (? & ? & Hobj1). split_and!; [done..|]. simpl. intros b c Hb.
      rewrite insert_insert_eq in Hb. apply lookup_insert_Some in Hb as [[<- <-]|[Hne Hb]].
      * apply (Hobj1 a (with_usage oldc 1)). simpl. apply lookup_insert_eq.
      * apply (Hobj1 b c). simpl. by rewrite lookup_insert_ne.
    + intros b Hb. simpl. rewrite !lookup_insert_ne by congruence. done.
    + exists us. split; [done|]. left. eexists a, _. split; [done|]. split; [|done].
      simpl. rewrite insert_insert_eq. done.
    + eapply cred_ok_same; [done..| |exact Hok2]. intros b. unfold ext_add. repeat case_decide; lia.
Qed.

(** C18: installing new credentials keeps all reference counts exact: no BUG_ON
    fires, the caller's reference becomes one of the two of the current task,
    the two references on the old credentials are dropped (and they go to RCU
    when nothing else refers to them), no other task changes, the process
    counts of the two users move by one, and when an id that matters changes
    the task loses its core dumps and its parent-death signal. *)
Theorem commit_creds_correct ext k new newc t old oldc :
  cred_ok ext k → env_ok k → tasks k !! current k = Some t →
  real_cred t = Some old → t_cred t = Some old →
  creds k !! old = Some oldc → creds k !! new = Some newc → 1 ≤ ext new → 0 ≤ ext old →
  ∃ k', commit_creds k new = Some k' ∧ cred_ok (ext_add ext new (-1)) k' ∧
    commit_result k k' new t oldc newc.
Proof. apply commit_creds_spec. Qed.

(** Overriding the subjective credentials and reverting gives back exactly
    the state before: pointers, counts and everything else. *)
Theorem override_revert_creds ext k new newc t old :
  cred_ok ext k → tasks k !! current k = Some t → t_cred t = Some old →
  creds k !! new = Some newc → 0 < usage newc →
  ∃ k1, override_creds k new = Some (old, k1) ∧ revert_creds k1 old = Some k ∧
    (∃ c, current_cred k1 = Some (new, c) ∧ c = with_usage newc (usage newc + 1)).
Proof.
  intros Hok Ht Hc Hnew Hpos. unfold override_creds. rewrite Ht. cbn [mbind option_bind].
  rewrite Hc. cbn [mbind option_bind]. rewrite (get_cred_spec _ _ _ Hnew). cbn [mbind option_bind].
  eexists. split; [done|]. split.
  - unfold revert_creds. simpl. rewrite lookup_insert_eq. cbn [mbind option_bind]. simpl.
    erewrite put_cred_spec by (simpl; apply lookup_insert_eq). cbv zeta. simpl.
    rewrite decide_False by lia. unfold set_cred, set_task, with_creds, with_tasks. simpl.
    f_equal. destruct k as [cs rc ts cur u ns]. simpl in *. f_equal.
    + rewrite insert_insert_eq. apply insert_id. rewrite Hnew. f_equal. destruct newc.
      unfold with_usage. simpl. f_equal. lia.
    + rewrite insert_insert_eq. apply insert_id. rewrite Ht. f_equal. destruct t. simpl in Hc. by subst.
  - eexists. unfold current_cred. simpl. rewrite lookup_insert_eq. cbn [mbind option_bind].
    simpl. rewrite lookup_insert_eq. done.
Qed.

(** the credentials of a task that is gone are released: both its pointers
    are cleared, and every count stays exact. *)
Theorem exit_creds_correct ext k p t r c :
  cred_ok ext k → (∀ a, 0 ≤ ext a) → tasks k !! p = Some t → p ≠ current k →
  is_Some (tasks k !! current k) → real_cred t = Some r → t_cred t = Some c →
  ∃ k' t', exit_creds k p = Some k' ∧ cred_ok ext k' ∧
    tasks k' = <[p := t']> (tasks k) ∧ real_cred t' = None ∧ t_cred t' = None.
Proof.
  intros Hok Hnn Hp Hne [tc Htc] Hr Hc. unfold exit_creds. rewrite Hp. cbn [mbind option_bind].
  rewrite Hr. cbn [mbind option_bind].
  destruct (ok_ptr _ _ Hok p t r Hp) as [rc Hrc].
  { rewrite (ptrs_is t _ _ r Hr Hc), !ind_Some. unfold ind. repeat case_decide; lia || done. }
  set (k0 := set_task k p (set_ptrs t None (t_cred t))).
  assert (cred_ok (ext_add ext r 1) k0) as Hok0.
  { apply (cred_ok_set_task ext _ k p t); try done.
    - intros a. rewrite ptrs_set, (ptrs_is t _ _ a Hr Hc), Hc, !ind_Some, ind_None.
      unfold ext_add, ind. repeat case_decide; lia.
    - intros a Ha. apply (ok_ptr _ _ Hok p t a Hp). rewrite ptrs_set, ind_None in Ha.
      unfold ptrs. pose proof (ind_range (real_cred t = Some a)). lia. }
  pose proof (Hnn r) as Her.
  destruct (put_cred_ok _ k0 r rc Hok0) as (l1 & -> & Hok1); [done| |by simpl; rewrite lookup_insert_ne|].
  { unfold ext_add. rewrite decide_True by done. lia. }
  cbn [mbind option_bind]. set (k1 := with_rcu (set_cred k0 r _) l1) in *.
  set (t1 := set_ptrs t None (t_cred t)) in *.
  assert (tasks k1 !! p = Some t1) as Hp1 by apply lookup_insert_eq.
  rewrite Hp1. cbn [mbind option_bind]. change (t_cred t1) with (t_cred t). rewrite Hc.
  cbn [mbind option_bind]. change (real_cred t1) with (@None nat).
  destruct (ok_ptr _ _ Hok1 p t1 c Hp1) as [cc Hcc].
  { unfold t1. rewrite ptrs_set, Hc, ind_None, ind_Some. unfold ind. by rewrite decide_True. }
  assert (cred_ok (ext_add ext c 1) (set_task k1 p (set_ptrs t1 None None))) as Hok2.
  { apply (cred_ok_set_task _ _ k1 p t1 _ Hok1 Hp1).
    - intros a. unfold t1. rewrite !ptrs_set, Hc, !ind_None, !ind_Some.
      unfold ext_add, ind. repeat case_decide; lia.
    - intros a Ha. rewrite ptrs_set, !ind_None in Ha. lia. }
  destruct (put_cred_ok _ (set_task k1 p (set_ptrs t1 None None)) c cc Hok2) as (l2 & -> & Hok3);
    [done| |by simpl; rewrite !lookup_insert_ne|].
  { unfold ext_add. rewrite decide_True by done. pose proof (Hnn c). lia. }
  eexists _, (set_ptrs t1 None None). split; [done|]. split_and!; try done.
  - eapply cred_ok_same; [done..| |exact Hok3]. intros a. unfold ext_add. repeat case_decide; lia.
  - simpl. by rewrite insert_insert_eq.
Qed.

(** Changing credentials in place. *)
Lemma cred_ok_update ext k a c c' :
  cred_ok ext k → creds k !! a = Some c → usage c' = usage c → cred_ok ext (set_cred k a c').
Proof.
  intros [H1' H3' H4' H5'] Ha Hu. split; simpl.
  - intros b x Hb. apply lookup_insert_Some in Hb as [[<- <-]|[_ Hb]]; [|by apply H1'].
    rewrite Hu. by apply H1'.
  - intros p x b Hp Hb. destruct (decide (b = a)) as [->|]; [by rewrite lookup_insert_eq|].
    rewrite lookup_insert_ne by done. by eapply H3'.
  - intros b. rewrite H4'. destruct (decide (b = a)) as [->|]; [|by rewrite lookup_insert_ne].
    rewrite lookup_insert_eq, Ha. split; intros (x & [= <-] & Hx); eexists; (split; [done|lia]).
  - intros b Hb. apply lookup_insert_None in Hb as [Hb ?]. by apply H5'.
Qed.

Lemma create_user_ns_cases ns new chrooted alloc inum :
  is_Some (ns !! user_ns new) →
  ∃ r ns' new', create_user_ns ns new chrooted alloc inum = Some (r, ns', new') ∧
    usage new' = usage new ∧ user new' = user new.
Proof.
  intros [x Hx]. unfold create_user_ns. rewrite Hx. cbn [mbind option_bind].
  repeat first [case_decide | destruct chrooted | destruct (_ || _) | destruct alloc | destruct inum];
    by eexists _, _, _.
Qed.

(** The pointers a task [p] was given by [dup_task_struct], with no references
    behind them, are taken back. *)
Definition forget (k : kstate) (p : nat) (t : task) : kstate := set_task k p (set_ptrs t None None).

Lemma cred_ok_forget ext k p t :
  tasks k !! p = Some t → cred_ok (λ a, ext a - ptrs t a) k → cred_ok ext (forget k p t).
Proof.
  intros Hp Hok. apply (cred_ok_set_task (λ a, ext a - ptrs t a) _ k p t); try done.
  intros a. rewrite ptrs_set, !ind_None. lia.
Qed.

Lemma cred_ok_unforget ext k p t :
  tasks k !! p = Some t → (∀ a, 0 < ptrs t a → is_Some (creds k !! a)) →
  cred_ok ext (forget k p t) → cred_ok (λ a, ext a - ptrs t a) k.
Proof.
  intros Hp Hv Hok.
  apply (cred_ok_same (λ a, ext a - ptrs t a) _ (set_task (forget k p t) p t)); try done.
  { simpl. rewrite insert_insert_eq. symmetry. by apply insert_id. }
  apply (cred_ok_set_task ext _ (forget k p t) p (set_ptrs t None None)); try done.
  - apply lookup_insert_eq.
  - intros a. rewrite ptrs_set, !ind_None. lia.
Qed.

(** The outcome of [copy_creds] for the task [p] that had the pointers of [t]. *)
Definition copied (ext : nat → Z) (k : kstate) (p : nat) (t : task) (old : nat) (thread : bool) (r : ret) (k' : kstate) : Prop :=
  match r with
  | Ok => cred_ok ext k' ∧ ∃ a t', tasks k' = <[p := t']> (tasks k) ∧
      real_cred t' = Some a ∧ t_cred t' = Some a ∧ (thread = true → a = old)
  | Err _ => tasks k' = tasks k ∧ cred_ok ext (forget k' p t)
  end.

(** The new credentials get a namespace of their own, if one is asked for. *)
Lemma copy_new_ns ext k1 a c (newuser : bool) chrooted ns_alloc inum :
  cred_ok ext k1 → creds k1 !! a = Some c → is_Some (nss k1 !! user_ns c) →
  ∃ rv k2 c2, (if newuser then
        '(rv, ns', c') ← create_user_ns (nss k1) c chrooted ns_alloc inum;
        Some (rv, set_cred (with_nss k1 ns') a c')
      else Some (Ok, k1)) = Some (rv, k2) ∧ tasks k2 = tasks k1 ∧ current k2 = current k1 ∧ uc k2 = uc k1 ∧
    creds k2 !! a = Some c2 ∧ user c2 = user c ∧ usage c2 = usage c ∧ cred_ok ext k2.
Proof.
  intros Hok Ha Hns. destruct newuser; [|by eexists _, _, _; split_and!].
  destruct (create_user_ns_cases (nss k1) c chrooted ns_alloc inum Hns) as (rv & ns' & c' & -> & E1 & E2).
  cbn [mbind option_bind]. eexists _, _, c'. split; [done|]. split_and!; try done; [simpl; apply lookup_insert_eq|].
  apply (cred_ok_update _ (with_nss k1 ns') a c); [|done..]. by apply (cred_ok_eqv _ _ _ _ Hok).
Qed.

Section copy_creds.
Context (ext : nat → Z) (k : kstate) (p : nat) (t tc : task) (old : nat) (oldc : cred).
Context (Hok0 : cred_ok (λ b, ext b - ptrs t b) k) (Henv : env_ok k) (Hp : tasks k !! p = Some t).
Context (Hold : creds k !! old = Some oldc).

Lemma copy_creds_thread newuser alloc chrooted ns_alloc inum :
  t_cred t = Some old → 0 < usage oldc →
  ∃ r k', copy_creds k p true newuser alloc chrooted ns_alloc inum = Some (r, k') ∧ copied ext k p t old true r k'.
Proof.
  intros Hc Hpos. pose proof Henv as (_ & _ & Hobj). unfold copy_creds. rewrite Hp. cbn [mbind option_bind].
  rewrite Hc. cbn [mbind option_bind].
  destruct (get_cred_ok _ k old oldc Hok0 Hold Hpos) as [-> Hok1]. cbn [mbind option_bind].
  set (k1 := set_cred k old _) in *.
  assert (creds (set_task k1 p (set_ptrs t (Some old) (Some old))) !! old =
    Some (with_usage oldc (usage oldc + 1))) as Ho1 by apply lookup_insert_eq.
  assert (cred_ok (ext_add ext old (-1)) (set_task k1 p (set_ptrs t (Some old) (Some old)))) as Hok2.
  { apply (cred_ok_set_task _ _ k1 p t _ Hok1 Hp).
    - intros a. rewrite ptrs_set, !ind_Some. unfold ext_add, ind. repeat case_decide; lia.
    - intros a. rewrite ptrs_set, !ind_Some. unfold ind. destruct (decide (a = old)) as [->|]; [|lia].
      intros _. simpl. by rewrite lookup_insert_eq. }
  destruct (get_cred_ok _ _ old _ Hok2 Ho1) as [-> Hok3]; [simpl; lia|]. cbn [mbind option_bind].
  simpl. rewrite lookup_insert_eq. cbn [mbind option_bind]. destruct (Hobj _ _ Hold) as [[us Hus] _].
  unfold add_processes. simpl. rewrite Hus. cbn [mbind option_bind].
  eexists Ok, _. split; [done|]. split.
  + apply (cred_ok_eqv _ _ _ _ Hok3); split_and!; [done..|]. intros a. unfold ext_add. repeat case_decide; lia.
  + eexists old, _. by split_and!.
Qed.

Lemma copy_creds_fork newuser alloc chrooted ns_alloc inum :
  tasks k !! current k = Some tc → t_cred tc = Some old → (∀ a, alloc = Some a → creds k !! a = None) →
  ∃ r k', copy_creds k p false newuser alloc chrooted ns_alloc inum = Some (r, k') ∧ copied ext k p t old false r k'.
Proof.
  intros Htc Hcc Hfresh. unfold copy_creds. rewrite Hp. cbn [mbind option_bind].
  destruct (prepare_creds_spec _ k alloc old oldc tc Hok0 Henv Htc Hcc Hold Hfresh)
    as (r & k1 & -> & Ht1 & Hcur1 & Hn1 & Henv1 & _ & Hu1 & Hr).
  cbn [mbind option_bind]. assert (tasks k1 !! p = Some t) as Hp1 by by rewrite Ht1.
  destruct r as [a|]; cycle 1.
  { eexists _, _. split; [done|]. split; [done|]. by apply cred_ok_forget. }
  destruct Hr as (Hal & Ha & Hok1). rewrite Ha. cbn [mbind option_bind].
  pose proof Henv1 as (_ & _ & Hobj1). destruct (Hobj1 _ _ Ha) as [[us Hus] Hns].
  destruct (copy_new_ns _ k1 a (with_usage oldc 1) newuser chrooted ns_alloc inum Hok1 Ha Hns)
    as (rv & k2 & c2 & -> & Ht2 & Hc2 & Hu2 & Ha2 & Hus2 & Hus2' & Hok2).
  change (user (with_usage oldc 1)) with (user oldc) in Hus2. change (usage (with_usage oldc 1)) with 1 in Hus2'.
  cbn [mbind option_bind].
  destruct rv as [|e].
  + rewrite Ha2. cbn [mbind option_bind]. unfold add_processes. rewrite Hus2, Hu2.
    change (user (with_usage oldc 1)) with (user oldc) in Hus. rewrite Hus.
    cbn [mbind option_bind]. set (k3 := with_uc k2 _).
    assert (cred_ok (ext_add (λ b, ext b - ptrs t b) a 1) k3) as Hok3
      by (by apply (cred_ok_eqv _ _ _ _ Hok2)).
    destruct (get_cred_ok _ k3 a c2 Hok3 Ha2) as [-> Hok4]; [lia|]. cbn [mbind option_bind].
    eexists _, _. split; [done|]. split.
    * apply (cred_ok_set_task _ _ _ p t _ Hok4).
      { simpl. by rewrite Ht2. }
      { intros b. rewrite ptrs_set, !ind_Some. unfold ext_add, ind. repeat case_decide; lia. }
      { intros b. rewrite ptrs_set, !ind_Some. unfold ind. destruct (decide (b = a)) as [->|]; [|lia].
        intros _. simpl. by rewrite lookup_insert_eq. }
    * exists a, (set_ptrs t (Some a) (Some a)). split_and!; [|done..]. simpl. by rewrite Ht2, Ht1.
  + destruct (put_cred_ok _ k2 a c2 Hok2 Ha2) as (l & -> & Hok3).
    { unfold ext_add. rewrite decide_True by done.
      pose proof (ok_none _ _ Hok0 a (Hfresh a Hal)). lia. }
    { rewrite Ht2, Hc2, Ht1, Hcur1, Htc. done. }
    cbn [mbind option_bind]. eexists _, _. split; [done|]. split; [simpl; by rewrite Ht2|].
    apply cred_ok_forget; [simpl; by rewrite Ht2|].
    apply (cred_ok_eqv _ _ _ _ Hok3); split_and!; [done..|]. intros b. unfold ext_add. repeat case_decide; lia.
Qed.
End copy_creds.

(** A new task gets its credentials with exact reference counts.  The task
    [p] starts with its parent's pointers and no references behind them; after
    [copy_creds] it owns two references, on its parent's credentials (threads)
    or on a fresh copy; if the copy or the new namespace fails, every count is
    as before once [p] is dropped. *)
Theorem copy_creds_correct ext k p t tc old oldc thread newuser alloc chrooted ns_alloc inum :
  cred_ok ext (forget k p t) → env_ok k → tasks k !! p = Some t → t_cred t = Some old →
  tasks k !! current k = Some tc → t_cred tc = Some old →
  (∀ a, 0 < ptrs t a → is_Some (creds k !! a)) →
  creds k !! old = Some oldc → 0 < usage oldc → (∀ a, alloc = Some a → creds k !! a = None) →
  ∃ r k', copy_creds k p thread newuser alloc chrooted ns_alloc inum = Some (r, k') ∧ copied ext k p t old thread r k'.
Proof.
  intros Hok Henv Hp Hc Htc Hcc Hv Hold Hpos Hfresh. pose proof (cred_ok_unforget ext k p t Hp Hv Hok) as Hok0.
  destruct thread; [by eapply copy_creds_thread|by eapply copy_creds_fork].
Qed.
End commit.

(** * A concrete system *)

(** Plain counters meet the contract of the reference operations. *)
Global Program Instance std_refs : Refs := {|
  get_cred k a := c ← creds k !! a; Some (set_cred k a (with_usage c (usage c + 1)));
  put_cred k a := c ← creds k !! a;
    let k1 := set_cred k a (with_usage c (usage c - 1)) in
    if decide (usage c - 1 = 0) then __put_cred k1 a else Some k1;
  get_uid k u := us ← users (uc k) !! u;
    Some (with_uc k (UCache (<[u := set_count us (__count us + 1)]> (users (uc k)))
      (uidhash_table (uc k))));
|}.
Solve All Obligations with intros; simplify_option_eq; done.

Module CredDemo.
Import Demo.

Global Instance hooks : CredHooks := {|
  security_prepare_creds _ _ := true;
  security_task_fix_setuid new _ _ := inr new;
  suid_dumpable := 0; init_ns := 0%nat; init_cred_addr := 0%nat;
|}.

Definition c0 : cred :=
  Cred 2 0 0 0 0 0 0 0 0 0 [0; 0] [0; 0] [0; 0] [0; 0] 0 0 0.
Definition t0 : task := Task (Some 10%nat) (Some 10%nat) 9 (Some 1) false false.

(** A task with credentials 10, and a copy 11 under preparation. *)
Definition k0 : kstate :=
  KState (<[11%nat := with_usage c0 1]> {[ 10%nat := c0 ]}) [] {[ 0%nat := t0 ]} 0
    (uid_cache_init false 0) st0.

Definition ext0 (a : nat) : Z := if decide (a = 11%nat) then 1 else 0.

Lemma k0_ok : cred_ok ext0 k0.
Proof.
  split.
  - intros a c Ha. simpl in Ha. apply lookup_insert_Some in Ha as [[<- <-]|[_ Ha]]; [by vm_compute|].
    apply lookup_singleton_Some in Ha as [<- <-]. by vm_compute.
  - intros p t a Hp Ha. simpl in Hp. apply lookup_singleton_Some in Hp as [<- <-].
    unfold ptrs, t0 in Ha. simpl in Ha. rewrite !ind_Some in Ha. unfold ind in Ha.
    destruct (decide (a = 10%nat)) as [->|]; [done|lia].
  - intros a. split; [set_solver|]. intros (c & Ha & Hz). simpl in Ha.
    apply lookup_insert_Some in Ha as [[<- <-]|[_ Ha]]; [done|].
    by apply lookup_singleton_Some in Ha as [<- <-].
  - intros a Ha. simpl in Ha. apply lookup_insert_None in Ha as [_ Ha]. unfold ext0. by rewrite decide_False.
Qed.

Lemma k0_env : env_ok k0.
Proof.
  split_and!.
  - unfold k0. simpl. unfold st0. intros a ns [<- <-]%lookup_singleton_Some. split_and!; try done.
    split_and!; apply init_map_valid.
  - intros a x. unfold k0. simpl. unfold st0. by intros [<- <-]%lookup_singleton_Some.
  - intros a c Ha. simpl in Ha. apply lookup_insert_Some in Ha as [[<- <-]|[_ Ha]]; [by vm_compute; eauto|].
    apply lookup_singleton_Some in Ha as [<- <-]. vm_compute. eauto.
Qed.
End CredDemo.

Lemma commit_creds_correct_witness :
  ∃ k', commit_creds CredDemo.k0 11 = Some k' ∧ cred_ok (ext_add CredDemo.ext0 11 (-1)) k'.
Proof.
  destruct (commit_creds_correct CredDemo.ext0 CredDemo.k0 11 (with_usage CredDemo.c0 1) CredDemo.t0
    10 CredDemo.c0 CredDemo.k0_ok CredDemo.k0_env) as (k' & E & Hok & _); [done..|by vm_compute|by vm_compute|].
  by exists k'.
Defined.

Lemma override_revert_creds_witness :
  ∃ k1, override_creds CredDemo.k0 11 = Some (10%nat, k1) ∧ revert_creds k1 10 = Some CredDemo.k0.
Proof.
  destruct (override_revert_creds CredDemo.ext0 CredDemo.k0 11 (with_usage CredDemo.c0 1) CredDemo.t0
    10 CredDemo.k0_ok) as (k1 & E1 & E2 & _); [done..|].
  by exists k1.
Defined.

(** A second task that holds the same credentials. *)
Definition demo_two : kstate :=
  KState {[ 10%nat := with_usage CredDemo.c0 4 ]} [] (<[1%nat := CredDemo.t0]> {[ 0%nat := CredDemo.t0 ]}) 0
    (uid_cache_init false 0) Demo.st0.

Lemma demo_two_ok : cred_ok (λ _, 0) demo_two.
Proof.
  split.
  - intros a c Ha. simpl in Ha. apply lookup_singleton_Some in Ha as [<- <-]. by vm_compute.
  - intros p t a Hp Ha. simpl in Hp. assert (t = CredDemo.t0) as ->.
    { apply lookup_insert_Some in Hp as [[_ <-]|[_ Hp]]; [done|].
      by apply lookup_singleton_Some in Hp as [_ <-]. }
    unfold ptrs, CredDemo.t0 in Ha. simpl in Ha. rewrite !ind_Some in Ha. unfold ind in Ha.
    destruct (decide (a = 10%nat)) as [->|]; [done|lia].
  - intros a. split; [set_solver|]. intros (c & Ha & Hz). simpl in Ha.
    by apply lookup_singleton_Some in Ha as [<- <-].
  - done.
Qed.

Lemma exit_creds_correct_witness :
  ∃ k' t', exit_creds demo_two 1 = Some k' ∧ cred_ok (λ _, 0) k' ∧
    tasks k' = <[1%nat := t']> (tasks demo_two) ∧ real_cred t' = None ∧ t_cred t' = None.
Proof.
  apply (exit_creds_correct (λ _, 0) demo_two 1 CredDemo.t0 10 10 demo_two_ok); done.
Defined.

(** Task 1 is being created by task 0: its pointers are not counted yet. *)
Definition demo_fork : kstate :=
  KState {[ 10%nat := CredDemo.c0 ]} [] (<[1%nat := CredDemo.t0]> {[ 0%nat := CredDemo.t0 ]}) 0
    (uid_cache_init false 0) Demo.st0.

Lemma demo_fork_ok : cred_ok (λ _, 0) (forget demo_fork 1 CredDemo.t0).
Proof.
  split.
  - intros a c Ha. simpl in Ha. apply lookup_singleton_Some in Ha as [<- <-]. by vm_compute.
  - intros p t a Hp Ha. simpl in Hp. apply lookup_insert_Some in Hp as [[_ <-]|[Hne Hp]].
    { rewrite ptrs_set, !ind_None in Ha. lia. }
    rewrite lookup_insert_ne in Hp by congruence. apply lookup_singleton_Some in Hp as [_ <-].
    unfold ptrs, CredDemo.t0 in Ha. simpl in Ha. rewrite !ind_Some in Ha. unfold ind in Ha.
    destruct (decide (a = 10%nat)) as [->|]; [done|lia].
  - intros a. split; [set_solver|]. intros (c & Ha & Hz). simpl in Ha.
    by apply lookup_singleton_Some in Ha as [<- <-].
  - done.
Qed.

Lemma copy_creds_correct_witness :
  ∃ r k', copy_creds demo_fork 1 false true (Some 12%nat) false (Some 5%nat) Ok = Some (r, k') ∧
    match r with
    | Ok => cred_ok (λ _, 0) k' ∧ ∃ a t', tasks k' = <[1%nat := t']> (tasks demo_fork) ∧
        real_cred t' = Some a ∧ t_cred t' = Some a ∧ (false = true → a = 10%nat)
    | Err _ => tasks k' = tasks demo_fork ∧ cred_ok (λ _, 0) (forget k' 1 CredDemo.t0)
    end.
Proof.
  apply (copy_creds_correct (λ _, 0) demo_fork 1 CredDemo.t0 CredDemo.t0 10 CredDemo.c0); try done.
  - apply demo_fork_ok.
  - destruct CredDemo.k0_env as (H1 & H2 & H3). split_and!; [exact H1|exact H2|].
    intros a c Ha. simpl in Ha. apply lookup_singleton_Some in Ha as [<- <-]. vm_compute. eauto.
  - intros a Ha. unfold ptrs, CredDemo.t0 in Ha. simpl in Ha. rewrite !ind_Some in Ha. unfold ind in Ha.
    destruct (decide (a = 10%nat)) as [->|]; [done|lia].
  - by intros a [= <-].
Defined.
