(* ===== verification/SetId.v ===== *)
(** SetId: the system calls that change the ids of a process, kernel/sys.c
    ([setregid], [setgid], [setreuid], [setuid], [setresuid], [setresgid],
    [setfsuid], [setfsgid], [set_user] and the calls that read the ids back).

    Every call prepares a copy of the credentials, checks and changes it, and
    commits or aborts.  The specification is a function on the eight ids of a
    process; the calls refine it, with exact error codes, and keep the counts of
    credentials and of user structures exact.  Outcomes the caller does not control are
    arguments: the addresses the allocators return, and the verdicts of the
    security modules. *)

From S2P Require Import Prelude UserNs User CredOps.

Local Open Scope Z_scope.

(** [new->gid = x] and the like *)
Definition set_uid (x : Z) (c : cred) : cred :=
  Cred (usage c) x (gid c) (suid c) (sgid c) (euid c) (egid c) (fsuid c) (fsgid c) (securebits c)
    (cap_inheritable c) (cap_permitted c) (cap_effective c) (cap_bset c) (user c) (user_ns c) (group_info c).
Definition set_gid (x : Z) (c : cred) : cred :=
  Cred (usage c) (uid c) x (suid c) (sgid c) (euid c) (egid c) (fsuid c) (fsgid c) (securebits c)
    (cap_inheritable c) (cap_permitted c) (cap_effective c) (cap_bset c) (user c) (user_ns c) (group_info c).
Definition set_suid (x : Z) (c : cred) : cred :=
  Cred (usage c) (uid c) (gid c) x (sgid c) (euid c) (egid c) (fsuid c) (fsgid c) (securebits c)
    (cap_inheritable c) (cap_permitted c) (cap_effective c) (cap_bset c) (user c) (user_ns c) (group_info c).
Definition set_sgid (x : Z) (c : cred) : cred :=
  Cred (usage c) (uid c) (gid c) (suid c) x (euid c) (egid c) (fsuid c) (fsgid c) (securebits c)
    (cap_inheritable c) (cap_permitted c) (cap_effective c) (cap_bset c) (user c) (user_ns c) (group_info c).
Definition set_euid (x : Z) (c : cred) : cred :=
  Cred (usage c) (uid c) (gid c) (suid c) (sgid c) x (egid c) (fsuid c) (fsgid c) (securebits c)
    (cap_inheritable c) (cap_permitted c) (cap_effective c) (cap_bset c) (user c) (user_ns c) (group_info c).
Definition set_egid (x : Z) (c : cred) : cred :=
  Cred (usage c) (uid c) (gid c) (suid c) (sgid c) (euid c) x (fsuid c) (fsgid c) (securebits c)
    (cap_inheritable c) (cap_permitted c) (cap_effective c) (cap_bset c) (user c) (user_ns c) (group_info c).
Definition set_fsuid (x : Z) (c : cred) : cred :=
  Cred (usage c) (uid c) (gid c) (suid c) (sgid c) (euid c) (egid c) x (fsgid c) (securebits c)
    (cap_inheritable c) (cap_permitted c) (cap_effective c) (cap_bset c) (user c) (user_ns c) (group_info c).
Definition set_fsgid (x : Z) (c : cred) : cred :=
  Cred (usage c) (uid c) (gid c) (suid c) (sgid c) (euid c) (egid c) (fsuid c) x (securebits c)
    (cap_inheritable c) (cap_permitted c) (cap_effective c) (cap_bset c) (user c) (user_ns c) (group_info c).
Definition set_user_ptr (u : nat) (c : cred) : cred :=
  Cred (usage c) (uid c) (gid c) (suid c) (sgid c) (euid c) (egid c) (fsuid c) (fsgid c) (securebits c)
    (cap_inheritable c) (cap_permitted c) (cap_effective c) (cap_bset c) u (user_ns c) (group_info c).

(** [*new = f( *new )] *)
Definition change (k : kstate) (new : nat) (f : cred → cred) : kstate :=
  with_creds k (alter f new (creds k)).

Definition set_superpriv (t : task) : task :=
  Task (real_cred t) (t_cred t) (pdeath_signal t) (dumpable t) (PF_NPROC_EXCEEDED t) true.
Definition set_nproc (b : bool) (t : task) : task :=
  Task (real_cred t) (t_cred t) (pdeath_signal t) (dumpable t) b (PF_SUPERPRIV t).

Section setid.
Context `{Security, Refs, CredHooks}.
Context (CONFIG_BASE_SMALL : bool).
(** [rlimit(RLIMIT_NPROC)] and the address [INIT_USER] *)
Context (RLIMIT_NPROC : Z) (INIT_USER : nat).
Context (overflowuid overflowgid : Z).

(** [ns_capable] for the current task, which it marks (kernel/capability.c). *)
Definition capable_in (k : kstate) (ns : nat) (c : cap) : option (bool * kstate) :=
  '(_, cur) ← current_cred k;
  if security_capable (nss k) cur ns c
  then t ← tasks k !! current k; Some (true, set_task k (current k) (set_superpriv t))
  else Some (false, k).

(** [kid] is one of [own], or the task has the capability. *)
Definition allowed (k : kstate) (old : cred) (own : list Z) (kid : Z) (c : cap)
    : option (bool * kstate) :=
  if decide (kid ∈ own) then Some (true, k) else capable_in k (user_ns old) c.

(** [error: abort_creds(new); return -e;] *)
Definition error (k : kstate) (new : nat) (e : errno) : option (ret * kstate) :=
  k' ← abort_creds k new; Some (Err e, k').

(** [return commit_creds(new);] *)
Definition commit (k : kstate) (new : nat) : option (ret * kstate) :=
  k' ← commit_creds k new; Some (Ok, k').

(** The namespace of the current task. *)
Definition current_user_ns (k : kstate) : option user_namespace :=
  '(_, c) ← current_cred k; nss k !! user_ns c.

(** [retval = security_task_fix_setuid(new, old, flags)], then commit or abort. *)
Definition fix_and_commit (k : kstate) (new : nat) (old : cred) (flags : lsm_setid)
    : option (ret * kstate) :=
  newc ← creds k !! new;
  match security_task_fix_setuid newc old flags with
  | inl e => error k new e
  | inr newc' => commit (set_cred k new newc') new
  end.

Definition sys_setregid (k : kstate) (alloc : option nat) (rgid egid_ : Z) : option (ret * kstate) :=
  ns ← current_user_ns k;
  let krgid := make_kgid ns rgid in
  let kegid := make_kgid ns egid_ in
  if decide (rgid ≠ INVALID ∧ id_valid krgid = false) then Some (Err EINVAL, k) else
  if decide (egid_ ≠ INVALID ∧ id_valid kegid = false) then Some (Err EINVAL, k) else
  '(r, k) ← prepare_creds k alloc;
  match r with
  | None => Some (Err ENOMEM, k)
  | Some new =>
      '(_, old) ← current_cred k;
      '((ok, k) : bool * kstate) ← (if decide (rgid ≠ INVALID)
                  then allowed k old [gid old; egid old] krgid CAP_SETGID else Some (true, k));
      if negb ok then error k new EPERM else
      let k := if decide (rgid ≠ INVALID) then change k new (set_gid krgid) else k in
      '((ok, k) : bool * kstate) ← (if decide (egid_ ≠ INVALID)
                  then allowed k old [gid old; egid old; sgid old] kegid CAP_SETGID else Some (true, k));
      if negb ok then error k new EPERM else
      let k := if decide (egid_ ≠ INVALID) then change k new (set_egid kegid) else k in
      let k := if decide (rgid ≠ INVALID ∨ (egid_ ≠ INVALID ∧ kegid ≠ gid old))
               then change k new (λ c, set_sgid (egid c) c) else k in
      let k := change k new (λ c, set_fsgid (egid c) c) in
      commit k new
  end.

Definition sys_setgid (k : kstate) (alloc : option nat) (gid_ : Z) : option (ret * kstate) :=
  ns ← current_user_ns k;
  let kgid := make_kgid ns gid_ in
  if negb (id_valid kgid) then Some (Err EINVAL, k) else
  '(r, k) ← prepare_creds k alloc;
  match r with
  | None => Some (Err ENOMEM, k)
  | Some new =>
      '(_, old) ← current_cred k;
      '((ok, k) : bool * kstate) ← capable_in k (user_ns old) CAP_SETGID;
      if ok then
        commit (change k new (λ c, set_gid kgid (set_egid kgid (set_sgid kgid (set_fsgid kgid c))))) new
      else if decide (kgid = gid old ∨ kgid = sgid old) then
        commit (change k new (λ c, set_egid kgid (set_fsgid kgid c))) new
      else error k new EPERM
  end.

(** [set_user]; [ualloc] is what the allocator of [alloc_uid] returns. *)
Definition set_user (k : kstate) (new : nat) (ualloc : option nat) : option (ret * kstate) :=
  newc ← creds k !! new;
  '(r, u1) ← alloc_uid CONFIG_BASE_SMALL (uc k) (uid newc) ualloc;
  match r with
  | None => Some (Err EAGAIN, with_uc k u1)
  | Some new_user =>
      us ← users u1 !! new_user;
      t ← tasks k !! current k;
      let over := bool_decide (RLIMIT_NPROC ≤ processes us ∧ new_user ≠ INIT_USER) in
      u2 ← free_uid u1 (Some (user newc));
      Some (Ok, change (set_task (with_uc k u2) (current k) (set_nproc over t)) new
                  (set_user_ptr new_user))
  end.

Definition sys_setreuid (k : kstate) (alloc ualloc : option nat) (ruid euid_ : Z)
    : option (ret * kstate) :=
  ns ← current_user_ns k;
  let kruid := make_kuid ns ruid in
  let keuid := make_kuid ns euid_ in
  if decide (ruid ≠ INVALID ∧ id_valid kruid = false) then Some (Err EINVAL, k) else
  if decide (euid_ ≠ INVALID ∧ id_valid keuid = false) then Some (Err EINVAL, k) else
  '(r, k) ← prepare_creds k alloc;
  match r with
  | None => Some (Err ENOMEM, k)
  | Some new =>
      '(_, old) ← current_cred k;
      let k := if decide (ruid ≠ INVALID) then change k new (set_uid kruid) else k in
      '((ok, k) : bool * kstate) ← (if decide (ruid ≠ INVALID)
                  then allowed k old [uid old; euid old] kruid CAP_SETUID else Some (true, k));
      if negb ok then error k new EPERM else
      let k := if decide (euid_ ≠ INVALID) then change k new (set_euid keuid) else k in
      '((ok, k) : bool * kstate) ← (if decide (euid_ ≠ INVALID)
                  then allowed k old [uid old; euid old; suid old] keuid CAP_SETUID else Some (true, k));
      if negb ok then error k new EPERM else
      newc ← creds k !! new;
      '(r, k) ← (if decide (uid newc ≠ uid old) then set_user k new ualloc else Some (Ok, k));
      match r with
      | Err e => error k new e
      | Ok =>
          let k := if decide (ruid ≠ INVALID ∨ (euid_ ≠ INVALID ∧ keuid ≠ uid old))
                   then change k new (λ c, set_suid (euid c) c) else k in
          let k := change k new (λ c, set_fsuid (euid c) c) in
          fix_and_commit k new old LSM_SETID_RE
      end
  end.

Definition sys_setuid (k : kstate) (alloc ualloc : option nat) (uid_ : Z) : option (ret * kstate) :=
  ns ← current_user_ns k;
  let kuid := make_kuid ns uid_ in
  if negb (id_valid kuid) then Some (Err EINVAL, k) else
  '(r, k) ← prepare_creds k alloc;
  match r with
  | None => Some (Err ENOMEM, k)
  | Some new =>
      '(_, old) ← current_cred k;
      '((ok, k) : bool * kstate) ← capable_in k (user_ns old) CAP_SETUID;
      newc ← creds k !! new;
      '(r, k) ← (if (ok : bool) then
                   let k := change k new (λ c, set_suid kuid (set_uid kuid c)) in
                   if decide (kuid ≠ uid old) then set_user k new ualloc else Some (Ok, k)
                 else if decide (kuid ≠ uid old ∧ kuid ≠ suid newc) then Some (Err EPERM, k)
                 else Some (Ok, k));
      match r with
      | Err e => error k new e
      | Ok =>
          fix_and_commit (change k new (λ c, set_fsuid kuid (set_euid kuid c))) new old LSM_SETID_ID
      end
  end.

(** One of the three checks of [setresuid] and [setresgid] for a task without
    the capability. *)
Definition res_denied (id kid r e s : Z) : Prop := id ≠ INVALID ∧ kid ≠ r ∧ kid ≠ e ∧ kid ≠ s.

Global Instance res_denied_dec id kid r e s : Decision (res_denied id kid r e s).
Proof. unfold res_denied. apply _. Defined.

Definition sys_setresuid (k : kstate) (alloc ualloc : option nat) (ruid euid_ suid_ : Z)
    : option (ret * kstate) :=
  ns ← current_user_ns k;
  let kruid := make_kuid ns ruid in
  let keuid := make_kuid ns euid_ in
  let ksuid := make_kuid ns suid_ in
  if decide (ruid ≠ INVALID ∧ id_valid kruid = false) then Some (Err EINVAL, k) else
  if decide (euid_ ≠ INVALID ∧ id_valid keuid = false) then Some (Err EINVAL, k) else
  if decide (suid_ ≠ INVALID ∧ id_valid ksuid = false) then Some (Err EINVAL, k) else
  '(r, k) ← prepare_creds k alloc;
  match r with
  | None => Some (Err ENOMEM, k)
  | Some new =>
      '(_, old) ← current_cred k;
      '((ok, k) : bool * kstate) ← capable_in k (user_ns old) CAP_SETUID;
      if negb ok && bool_decide (res_denied ruid kruid (uid old) (euid old) (suid old) ∨
           res_denied euid_ keuid (uid old) (euid old) (suid old) ∨
           res_denied suid_ ksuid (uid old) (euid old) (suid old))
      then error k new EPERM else
      '(r, k) ← (if decide (ruid ≠ INVALID) then
                   let k := change k new (set_uid kruid) in
                   if decide (kruid ≠ uid old) then set_user k new ualloc else Some (Ok, k)
                 else Some (Ok, k));
      match r with
      | Err e => error k new e
      | Ok =>
          let k := if decide (euid_ ≠ INVALID) then change k new (set_euid keuid) else k in
          let k := if decide (suid_ ≠ INVALID) then change k new (set_suid ksuid) else k in
          let k := change k new (λ c, set_fsuid (euid c) c) in
          fix_and_commit k new old LSM_SETID_RES
      end
  end.

Definition sys_setresgid (k : kstate) (alloc : option nat) (rgid egid_ sgid_ : Z)
    : option (ret * kstate) :=
  ns ← current_user_ns k;
  let krgid := make_kgid ns rgid in
  let kegid := make_kgid ns egid_ in
  let ksgid := make_kgid ns sgid_ in
  if decide (rgid ≠ INVALID ∧ id_valid krgid = false) then Some (Err EINVAL, k) else
  if decide (egid_ ≠ INVALID ∧ id_valid kegid = false) then Some (Err EINVAL, k) else
  if decide (sgid_ ≠ INVALID ∧ id_valid ksgid = false) then Some (Err EINVAL, k) else
  '(r, k) ← prepare_creds k alloc;
  match r with
  | None => Some (Err ENOMEM, k)
  | Some new =>
      '(_, old) ← current_cred k;
      '((ok, k) : bool * kstate) ← capable_in k (user_ns old) CAP_SETGID;
      if negb ok && bool_decide (res_denied rgid krgid (gid old) (egid old) (sgid old) ∨
           res_denied egid_ kegid (gid old) (egid old) (sgid old) ∨
           res_denied sgid_ ksgid (gid old) (egid old) (sgid old))
      then error k new EPERM else
      let k := if decide (rgid ≠ INVALID) then change k new (set_gid krgid) else k in
      let k := if decide (egid_ ≠ INVALID) then change k new (set_egid kegid) else k in
      let k := if decide (sgid_ ≠ INVALID) then change k new (set_sgid ksgid) else k in
      let k := change k new (λ c, set_fsgid (egid c) c) in
      commit k new
  end.

(** [getresuid], [getresgid]; [put_user] is assumed to succeed. *)
Definition sys_getresuid (k : kstate) : option (Z * Z * Z) :=
  '(_, c) ← current_cred k; ns ← nss k !! user_ns c;
  let m := from_kuid_munged overflowuid ns in Some (m (uid c), m (euid c), m (suid c)).
Definition sys_getresgid (k : kstate) : option (Z * Z * Z) :=
  '(_, c) ← current_cred k; ns ← nss k !! user_ns c;
  let m := from_kgid_munged overflowgid ns in Some (m (gid c), m (egid c), m (sgid c)).

Definition sys_getuid (k : kstate) : option Z :=
  '(_, c) ← current_cred k; ns ← nss k !! user_ns c; Some (from_kuid_munged overflowuid ns (uid c)).
Definition sys_geteuid (k : kstate) : option Z :=
  '(_, c) ← current_cred k; ns ← nss k !! user_ns c; Some (from_kuid_munged overflowuid ns (euid c)).
Definition sys_getgid (k : kstate) : option Z :=
  '(_, c) ← current_cred k; ns ← nss k !! user_ns c; Some (from_kgid_munged overflowgid ns (gid c)).
Definition sys_getegid (k : kstate) : option Z :=
  '(_, c) ← current_cred k; ns ← nss k !! user_ns c; Some (from_kgid_munged overflowgid ns (egid c)).

(** [setfsuid], [setfsgid] return the old id, whatever happens. *)
Definition sys_setfsuid (k : kstate) (alloc : option nat) (uid_ : Z) : option (Z * kstate) :=
  '(_, old) ← current_cred k;
  ns ← nss k !! user_ns old;
  let old_fsuid := from_kuid_munged overflowuid ns (fsuid old) in
  let kuid := make_kuid ns uid_ in
  if negb (id_valid kuid) then Some (old_fsuid, k) else
  '(r, k) ← prepare_creds k alloc;
  match r with
  | None => Some (old_fsuid, k)
  | Some new =>
      '((ok, k) : bool * kstate) ← allowed k old [uid old; euid old; suid old; fsuid old] kuid CAP_SETUID;
      let k := if ok && bool_decide (kuid ≠ fsuid old) then change k new (set_fsuid kuid) else k in
      newc ← creds k !! new;
      if ok && bool_decide (kuid ≠ fsuid old) then
        match security_task_fix_setuid newc old LSM_SETID_FS with
        | inr newc' => '(_, k) ← commit (set_cred k new newc') new; Some (old_fsuid, k)
        | inl _ => k ← abort_creds k new; Some (old_fsuid, k)
        end
      else k ← abort_creds k new; Some (old_fsuid, k)
  end.

Definition sys_setfsgid (k : kstate) (alloc : option nat) (gid_ : Z) : option (Z * kstate) :=
  '(_, old) ← current_cred k;
  ns ← nss k !! user_ns old;
  let old_fsgid := from_kgid_munged overflowgid ns (fsgid old) in
  let kgid := make_kgid ns gid_ in
  if negb (id_valid kgid) then Some (old_fsgid, k) else
  '(r, k) ← prepare_creds k alloc;
  match r with
  | None => Some (old_fsgid, k)
  | Some new =>
      '((ok, k) : bool * kstate) ← allowed k old [gid old; egid old; sgid old; fsgid old] kgid CAP_SETGID;
      if ok && bool_decide (kgid ≠ fsgid old) then
        '(_, k) ← commit (change k new (set_fsgid kgid)) new; Some (old_fsgid, k)
      else k ← abort_creds k new; Some (old_fsgid, k)
  end.

(** * States between calls and within a call *)

(** References to user structures from elsewhere than credentials. *)
Context (extu : nat → Z).

(** All references to the user structure [u]: one from each credentials that
    names it (also those that wait for RCU), and those from elsewhere. *)
Definition user_refs (k : kstate) (u : nat) : Z := extu u + mcount (λ c, user c = u) (creds k).

(** Between calls: the current task has the credentials [c], at [a], as
    objective and subjective credentials, all counts are right, those of the user
    structures too, and the user of [c] is the one of its real user id. *)
Record settled (ext : nat → Z) (k : kstate) (a : nat) (c : cred) : Prop := {
  st_ok : cred_ok ext k;
  st_ext : ∀ b, 0 ≤ ext b;
  st_env : env_ok k;
  st_task : ∃ t, tasks k !! current k = Some t ∧ real_cred t = Some a ∧ t_cred t = Some a;
  st_cred : creds k !! a = Some c;
  st_users : cache_ok CONFIG_BASE_SMALL (user_refs k) (uc k);
  st_extu : ∀ u, 0 ≤ extu u;
  st_name : uids (uc k) !! user c = Some (uid c);
}.

(** Within a call: [new], with contents [c], is under construction. *)
Record pending (ext : nat → Z) (ns : nsmap) (old : nat) (oldc : cred)
    (k : kstate) (new : nat) (c : cred) : Prop := {
  pd_ok : cred_ok (ext_add ext new 1) k;
  pd_ext : ∀ b, 0 ≤ ext b;
  pd_env : env_ok k;
  pd_nss : nss k = ns;
  pd_task : ∃ t, tasks k !! current k = Some t ∧ real_cred t = Some old ∧ t_cred t = Some old;
  pd_old : creds k !! old = Some oldc;
  pd_new : creds k !! new = Some c;
  pd_ne : new ≠ old;
  pd_users : cache_ok CONFIG_BASE_SMALL (user_refs k) (uc k);
  pd_extu : ∀ u, 0 ≤ extu u;
  pd_name : uids (uc k) !! user oldc = Some (uid oldc);
}.

(** The references depend on the users that the credentials name only. *)
Lemma user_refs_same k k' u : user <$> creds k' = user <$> creds k → user_refs k' u = user_refs k u.
Proof.
  intros E. unfold user_refs. f_equal. trans (mcount (λ v, v = u) (user <$> creds k')); [exact (mcount_fmap user (λ v, v = u) _)|].
  rewrite E. symmetry. exact (mcount_fmap user (λ v, v = u) _).
Qed.

Lemma user_refs_update k k' new c c' u :
  creds k !! new = Some c → creds k' = <[new := c']> (creds k) →
  user_refs k' u = user_refs k u - ind (user c = u) + ind (user c' = u).
Proof. intros Hn E. unfold user_refs. rewrite E, (mcount_insert _ _ _ c) by done. lia. Qed.

Lemma user_refs_pos k a c : (∀ u, 0 ≤ extu u) → creds k !! a = Some c → 0 < user_refs k (user c).
Proof.
  intros He Ha. unfold user_refs. specialize (He (user c)).
  pose proof (mcount_pos (λ x, user x = user c) (creds k) a c Ha eq_refl). lia.
Qed.

Lemma user_refs_ok k k' :
  user <$> creds k' = user <$> creds k → uc k' = uc k →
  cache_ok CONFIG_BASE_SMALL (user_refs k) (uc k) → cache_ok CONFIG_BASE_SMALL (user_refs k') (uc k').
Proof. intros E ->. apply held_add_ext. intros u. symmetry. by apply user_refs_same. Qed.

Lemma settled_current ext k a c : settled ext k a c → current_cred k = Some (a, c).
Proof.
  intros [_ _ _ (t & Ht & _ & Hc) Ha _ _ _]. unfold current_cred. rewrite Ht. cbn [mbind option_bind].
  rewrite Hc. cbn [mbind option_bind]. by rewrite Ha.
Qed.

Lemma pending_current ext ns old oldc k new c :
  pending ext ns old oldc k new c → current_cred k = Some (old, oldc).
Proof.
  intros [_ _ _ _ (t & Ht & _ & Hc) Ho _ _ _ _ _]. unfold current_cred. rewrite Ht. cbn [mbind option_bind].
  rewrite Hc. cbn [mbind option_bind]. by rewrite Ho.
Qed.

Lemma cache_ok_get held st u us :
  cache_ok CONFIG_BASE_SMALL held st → users st !! u = Some us →
  cache_ok CONFIG_BASE_SMALL (held_add held u 1)
    (UCache (<[u := set_count us (__count us + 1)]> (users st)) (uidhash_table st)).
Proof.
  intros Hok Hu. apply cache_ok_count; [done..|]. destruct (ok_count _ _ _ Hok u us Hu). lia.
Qed.

(** [prepare_creds] fails when memory is short or the security module refuses. *)
Lemma prepare_creds_none k alloc old oldc k' :
  current_cred k = Some (old, oldc) → prepare_creds k alloc = Some (None, k') →
  alloc = None ∨ security_prepare_creds (with_usage oldc 1) oldc = false.
Proof.
  intros Hc. unfold prepare_creds. rewrite Hc. cbn [mbind option_bind].
  destruct alloc as [a|]; [|by left]. destruct (get_uid _ _); [|done]. cbn [mbind option_bind].
  destruct (security_prepare_creds (with_usage oldc 1) oldc) eqn:E; [done|]. by right.
Qed.

(** The copy takes a reference to the user of the original. *)
Lemma user_refs_copy k k' oldc us a n :
  cache_ok CONFIG_BASE_SMALL (user_refs k) (uc k) → users (uc k) !! user oldc = Some us → creds k !! a = None →
  creds k' = <[a := with_usage oldc n]> (creds k) → uc k' = got_uid (uc k) (user oldc) us →
  cache_ok CONFIG_BASE_SMALL (user_refs k') (uc k') ∧ uids (uc k') = uids (uc k).
Proof.
  intros Hu Hus Ha E ->. split; [|by apply uids_count].
  apply (held_add_ext _ (held_add (user_refs k) (user oldc) 1)); [|by apply cache_ok_get].
  intros u. unfold user_refs. rewrite E, mcount_insert_new by done. unfold held_add, ind. simpl.
  repeat case_decide; subst; try done; lia.
Qed.

Lemma prepare_settled ext k alloc old oldc :
  settled ext k old oldc → (∀ a, alloc = Some a → creds k !! a = None) →
  ∃ r k', prepare_creds k alloc = Some (r, k') ∧
    match r with
    | Some new => pending ext (nss k) old oldc k' new (with_usage oldc 1) ∧ uids (uc k') = uids (uc k)
    | None => settled ext k' old oldc ∧ nss k' = nss k ∧
        (alloc = None ∨ security_prepare_creds (with_usage oldc 1) oldc = false)
    end.
Proof.
  intros Hs Hfresh. pose proof (settled_current _ _ _ _ Hs) as Hcc. destruct Hs as [Hok Hnn Henv (t & Ht & Hr & Hc) Ho Hu Hxu Hnm].
  destruct (prepare_creds_spec ext k alloc old oldc t Hok Henv Ht Hc Ho Hfresh)
    as (r & k' & E & Ht' & Hcur & Hns & Henv' & Hcr & (us & Hus & Huc) & Hres).
  assert (creds k' !! old = Some oldc) as Ho'.
  { rewrite Hcr; [done|]. intros ->. specialize (Hfresh old eq_refl). congruence. }
  assert (∃ t, tasks k' !! current k' = Some t ∧ real_cred t = Some old ∧ t_cred t = Some old) as Htk.
  { exists t. by rewrite Ht', Hcur. }
  assert (cache_ok CONFIG_BASE_SMALL (user_refs k') (uc k') ∧ uids (uc k') = uids (uc k)) as [Hu' Hn'].
  { destruct Huc as [(a & n & Ha & Hcs & Huc)|(Hcs & Huc & _)]; [by eapply user_refs_copy; eauto|].
    split; [|by rewrite Huc]. apply (user_refs_ok k); [by rewrite Hcs|done|done]. }
  exists r, k'. split; [done|]. destruct r as [new|].
  - destruct Hres as (-> & Hnew & Hok'). split; [|done]. split; try done.
    + intros ->. specialize (Hfresh old eq_refl). congruence.
    + by rewrite Hn'.
  - split; [|split; [done|by eapply prepare_creds_none]]. split; try done. by rewrite Hn'.
Qed.

Lemma change_set k new c f : creds k !! new = Some c → change k new f = set_cred k new (f c).
Proof.
  intros Hn. unfold change, set_cred. f_equal. apply map_eq. intros b. destruct (decide (b = new)) as [->|].
  - by rewrite lookup_alter_eq, lookup_insert_eq, Hn.
  - by rewrite lookup_alter_ne, lookup_insert_ne.
Qed.

(** Changing an id of the new credentials. *)
Lemma change_pending ext ns old oldc k new c f :
  pending ext ns old oldc k new c →
  usage (f c) = usage c → user (f c) = user c → user_ns (f c) = user_ns c →
  pending ext ns old oldc (change k new f) new (f c).
Proof.
  intros [Hok Hnn (Hwf & Hroot & Hobj) Hns Ht Ho Hn Hne Hu Hxu Hnm] E1 E2 E3.
  rewrite (change_set k new c) by done.
  split; try done.
  - by eapply cred_ok_update.
  - split_and!; [done..|]. intros b x Hb. simpl in Hb.
    apply lookup_insert_Some in Hb as [[<- <-]|[_ Hb]]; [rewrite E2, E3; by apply (Hobj new)|by apply (Hobj b)].
  - simpl. by rewrite lookup_insert_ne.
  - simpl. apply lookup_insert_eq.
  - apply (user_refs_ok k); [|done|done]. simpl. rewrite fmap_insert, E2. apply insert_id.
    by rewrite lookup_fmap, Hn.
Qed.

(** Changing the flags of the current task. *)
Lemma flag_pending ext ns old oldc k new c t t' :
  pending ext ns old oldc k new c → tasks k !! current k = Some t →
  real_cred t' = real_cred t → t_cred t' = t_cred t →
  pending ext ns old oldc (set_task k (current k) t') new c.
Proof.
  intros [Hok Hnn Henv Hns (t0 & Ht0 & Hr & Hc) Ho Hn Hne Hu Hxu Hnm] Ht E1 E2.
  assert (t0 = t) as -> by congruence. split; try done.
  - apply (cred_ok_set_task _ _ k _ t _ Hok Ht).
    + intros a. unfold ptrs. rewrite E1, E2. lia.
    + intros a. unfold ptrs. rewrite E1, E2. apply (ok_ptr _ _ Hok _ t a Ht).
  - exists t'. simpl. rewrite lookup_insert_eq, E1, E2. done.
Qed.

Lemma capable_pending ext ns old oldc k new c cp :
  pending ext ns old oldc k new c →
  ∃ k', capable_in k (user_ns oldc) cp = Some (security_capable ns oldc (user_ns oldc) cp, k') ∧
    pending ext ns old oldc k' new c ∧ uc k' = uc k.
Proof.
  intros Hp. unfold capable_in. rewrite (pending_current _ _ _ _ _ _ _ Hp). cbn [mbind option_bind].
  rewrite (pd_nss _ _ _ _ _ _ _ Hp). destruct (security_capable _ _ _ _); [|by eauto].
  destruct (pd_task _ _ _ _ _ _ _ Hp) as (t & Ht & Hr & Hc). rewrite Ht. cbn [mbind option_bind].
  eexists. split; [done|]. split; [by eapply flag_pending|done].
Qed.

Lemma allowed_pending ext ns old oldc k new c own kid cp :
  pending ext ns old oldc k new c →
  ∃ k', allowed k oldc own kid cp =
      Some (bool_decide (kid ∈ own) || security_capable ns oldc (user_ns oldc) cp, k') ∧
    pending ext ns old oldc k' new c ∧ uc k' = uc k.
Proof.
  intros Hp. unfold allowed. case_decide as Hin.
  - rewrite bool_decide_eq_true_2 by done. simpl. eauto.
  - rewrite bool_decide_eq_false_2 by done. by apply capable_pending.
Qed.

Lemma error_pending ext ns old oldc k new c e :
  pending ext ns old oldc k new c →
  ∃ k', abort_creds k new = Some k' ∧ error k new e = Some (Err e, k') ∧ settled ext k' old oldc ∧
    nss k' = ns.
Proof.
  intros [Hok Hnn Henv Hns (t & Ht & Hr & Hc) Ho Hn Hne Hu Hxu Hnm].
  unfold error, abort_creds. rewrite Hn. cbn [mbind option_bind].
  assert (0 < usage c) as Hpos.
  { rewrite (ok_usage _ _ Hok new c Hn). unfold ext_add. rewrite decide_True by done.
    pose proof (task_refs_ge k _ t new Ht). pose proof (ptrs_range t new). specialize (Hnn new). lia. }
  rewrite decide_False by lia.
  destruct (put_cred_ok _ k new c Hok Hn) as (l & -> & Hok').
  { unfold ext_add. rewrite decide_True by done. specialize (Hnn new). lia. }
  { eauto. }
  cbn [mbind option_bind]. eexists. split; [done|]. split; [done|]. split; [|done]. split; try done.
  - apply (cred_ok_eqv _ _ _ _ Hok'). split_and!; [done..|]. intros b. unfold ext_add. repeat case_decide; lia.
  - destruct Henv as (Hwf & Hroot & Hobj). split_and!; [done..|]. intros b x Hb. simpl in Hb.
    apply lookup_insert_Some in Hb as [[<- <-]|[_ Hb]]; [by apply (Hobj new c)|by apply (Hobj b)].
  - eauto.
  - simpl. by rewrite lookup_insert_ne.
  - apply (user_refs_ok k); [|done|done]. simpl. rewrite fmap_insert. apply insert_id. by rewrite lookup_fmap, Hn.
Qed.

Lemma cache_ok_processes held st U :
  cache_ok CONFIG_BASE_SMALL held st → same_users st U → cache_ok CONFIG_BASE_SMALL held U.
Proof.
  intros [Hch Hh Hun Hn Hf] [Et E0].
  assert (∀ v, __count <$> users U !! v = __count <$> users st !! v) as Ec.
  { intros v. specialize (E0 v). destruct (users U !! v), (users st !! v); simpl in *; congruence. }
  assert (∀ v, u_uid <$> users U !! v = u_uid <$> users st !! v) as Eu.
  { intros v. specialize (E0 v). destruct (users U !! v), (users st !! v); simpl in *; congruence. }
  assert (∀ b, chain U b = chain st b) as Echain by (intros b; unfold chain; by rewrite Et).
  assert (∀ v x, users U !! v = Some x → ∃ y, users st !! v = Some y ∧ u_uid x = u_uid y ∧ __count x = __count y) as Hback.
  { intros v x Hx. specialize (Ec v). specialize (Eu v). rewrite Hx in Ec, Eu.
    destruct (users st !! v) as [y|]; [|done]. exists y. simpl in *. split_and!; [done|congruence..]. }
  split.
  - intros b a. rewrite Echain. intros Ha. destruct (Hch b a Ha) as (y & Hy & E).
    specialize (Eu a). rewrite Hy in Eu. destruct (users U !! a) as [x|]; [|done].
    exists x. split; [done|]. simpl in Eu. congruence.
  - intros a x Hx. destruct (Hback a x Hx) as (y & Hy & E & _). rewrite Echain, E. by apply Hh.
  - intros a b x y Hx Hy E. destruct (Hback a x Hx) as (x' & ? & ? & _).
    destruct (Hback b y Hy) as (y' & ? & ? & _). apply (Hun a b x' y'); congruence.
  - intros a x Hx. destruct (Hback a x Hx) as (y & Hy & _ & ->). by apply Hn.
  - intros a Ha. apply Hf. specialize (Ec a). rewrite Ha in Ec. by destruct (users st !! a).
Qed.

Lemma same_users_uids st U : same_users st U → uids U = uids st.
Proof.
  intros [_ E]. apply map_eq. intros v. unfold uids. rewrite !lookup_fmap. specialize (E v).
  destruct (users U !! v), (users st !! v); simpl in *; congruence.
Qed.

Lemma commit_pending ext ns old oldc k new c :
  pending ext ns old oldc k new c → uids (uc k) !! user c = Some (uid c) →
  ∃ k' n, commit k new = Some (Ok, k') ∧ settled ext k' new (with_usage c n) ∧ nss k' = ns.
Proof.
  intros [Hok Hnn Henv Hns (t & Ht & Hr & Hc) Ho Hn Hne Hu Hxu _] Hnm.
  destruct (commit_creds_spec _ k new c t old oldc Hok Henv Ht Hr Hc Ho Hn)
    as (k' & E & Hok' & (t' & Ht' & (Hr' & Hc' & _)) & Hcur & Hns' & Hsame & Hcr & Hnone & _).
  { unfold ext_add. rewrite decide_True by done. specialize (Hnn new). lia. }
  { unfold ext_add. rewrite decide_False by done. apply Hnn. }
  destruct (Hcr new c Hn) as [n Hn']. exists k', n. unfold commit. rewrite E. cbn [mbind option_bind].
  split; [done|]. split; [|congruence]. split; try done.
  - apply (cred_ok_eqv _ _ _ _ Hok'). split_and!; [done..|]. intros b. unfold ext_add. repeat case_decide; lia.
  - destruct Henv as (Hwf & Hroot & Hobj). unfold env_ok. rewrite Hns'. split_and!; [done..|].
    intros b x Hb. destruct (creds k !! b) as [y|] eqn:Hy; [|rewrite Hnone in Hb; done].
    destruct (Hcr b y Hy) as [m Hm]. assert (x = with_usage y m) as -> by congruence.
    destruct (Hobj b y Hy) as [[us Hus] ?]. split; [|done]. simpl.
    destruct Hsame as [_ Hsame]. specialize (Hsame (user y)). rewrite Hus in Hsame.
    destruct (users (uc k') !! user y); done.
  - exists t'. rewrite Ht', Hcur, lookup_insert_eq. done.
  - apply (held_add_ext _ (user_refs k)); [|by eapply cache_ok_processes]. intros u. symmetry. apply user_refs_same.
    apply map_eq. intros b. rewrite !lookup_fmap. destruct (creds k !! b) as [y|] eqn:Hy; [|by rewrite Hnone].
    by destruct (Hcr b y Hy) as [m ->].
  - rewrite (same_users_uids _ _ Hsame). exact Hnm.
Qed.

(** [set_user] exchanges the reference to the old user for one to the new. *)
Lemma user_refs_exchange k k' new c nu u2 :
  creds k !! new = Some c → creds k' = <[new := set_user_ptr nu c]> (creds k) → uc k' = u2 →
  cache_ok CONFIG_BASE_SMALL (held_add (held_add (user_refs k) nu 1) (user c) (-1)) u2 →
  cache_ok CONFIG_BASE_SMALL (user_refs k') (uc k').
Proof.
  intros Hn E ->. apply held_add_ext. intros u. rewrite (user_refs_update k k' new c _ u Hn E).
  unfold held_add, ind. simpl. repeat case_decide; subst; try done; lia.
Qed.

Lemma set_user_pending ext ns old oldc k new c ualloc :
  pending ext ns old oldc k new c →
  (∀ u, ualloc = Some u → users (uc k) !! u = None) →
  ∃ r k', set_user k new ualloc = Some (r, k') ∧
    match r with
    | Ok => ∃ u, pending ext ns old oldc k' new (set_user_ptr u c) ∧ uids (uc k') !! u = Some (uid c)
    | Err e => e = EAGAIN ∧ ualloc = None ∧ (∀ u x, uids (uc k) !! u = Some x → x ≠ uid c) ∧
        pending ext ns old oldc k' new c
    end.
Proof.
  intros Hp Hfresh. pose proof Hp as [Hok Hnn (Hwf & Hroot & Hobj) Hns (t & Ht & Hr & Hc) Ho Hn Hne Hu Hxu Hnm].
  unfold set_user. rewrite Hn. cbn [mbind option_bind].
  destruct (alloc_uid_spec _ (user_refs k) (uc k) (uid c) ualloc Hu Hfresh) as (r & u1 & Ea & Hres).
  pose proof (λ a x, alloc_uid_uids _ _ _ _ _ _ a x Hfresh Ea) as Hname1.
  rewrite Ea. cbn [mbind option_bind]. destruct r as [nu|]; cycle 1.
  { destruct Hres as (-> & -> & Hno). eexists _, _. split; [done|]. split_and!; [done..| |by destruct k].
    intros u x Hx. unfold uids in Hx. apply lookup_fmap_Some in Hx as (us & <- & Hus). by eapply Hno. }
  destruct Hres as ((us & Hus & Hid) & Hu1). rewrite Hus. cbn [mbind option_bind]. rewrite Ht. cbn [mbind option_bind].
  pose proof (user_refs_pos k new c Hxu Hn) as Hpos.
  destruct (free_uid_spec _ _ u1 (user c) Hu1) as (u2 & Ef & Hu2 & _); [unfold held_add; case_decide; lia|].
  rewrite Ef. cbn [mbind option_bind]. eexists Ok, _. split; [done|]. exists nu.
  set (t' := set_nproc _ t).
  change (pending ext ns old oldc
    (set_task (change (with_uc k u2) new (set_user_ptr nu)) (current k) t') new (set_user_ptr nu c) ∧
    uids u2 !! nu = Some (uid c)).
  rewrite (change_set (with_uc k u2) new c) by done. set (k2 := set_cred (with_uc k u2) new (set_user_ptr nu c)).
  assert (cache_ok CONFIG_BASE_SMALL (user_refs k2) (uc k2)) as Hu' by by eapply (user_refs_exchange k).
  assert (∀ b x, creds k2 !! b = Some x → is_Some (users u2 !! user x)) as Hlive.
  { intros b x Hb. apply (cache_ok_is_Some _ _ _ _ Hu'). by eapply user_refs_pos. }
  assert (creds k2 !! new = Some (set_user_ptr nu c)) as Hn2 by apply lookup_insert_eq.
  assert (creds k2 !! old = Some oldc) as Ho2 by (simpl; by rewrite lookup_insert_ne).
  split.
  - apply (flag_pending _ _ _ _ k2 _ _ t); [|done..]. split; try done.
    + apply (cred_ok_update _ (with_uc k u2) new c); [|done..]. by apply (cred_ok_eqv _ _ _ _ Hok).
    + split_and!; [done..|]. intros b x Hb. split; [by eapply Hlive|]. simpl in Hb.
      apply lookup_insert_Some in Hb as [[<- <-]|[_ Hb]]; [by apply (Hobj new c)|by apply (Hobj b x)].
    + eauto.
    + simpl. rewrite (free_uid_uids _ _ _ _ Ef) by exact (Hlive old oldc Ho2). by apply Hname1.
  - rewrite (free_uid_uids _ _ _ _ Ef) by exact (Hlive new _ Hn2). unfold uids. by rewrite lookup_fmap, Hus, <- Hid.
Qed.

(** * The specification *)

(** The ids of a process. *)
Record ids := Ids {
  i_uid : Z; i_euid : Z; i_suid : Z; i_fsuid : Z;
  i_gid : Z; i_egid : Z; i_sgid : Z; i_fsgid : Z;
}.

Definition ids_of (c : cred) : ids :=
  Ids (uid c) (euid c) (suid c) (fsuid c) (gid c) (egid c) (sgid c) (fsgid c).

Inductive idcall :=
  | SetReuid (ruid euid : Z) | SetUid (uid : Z) | SetResuid (ruid euid suid : Z) | SetFsuid (uid : Z)
  | SetRegid (rgid egid : Z) | SetGid (gid : Z) | SetResgid (rgid egid sgid : Z) | SetFsgid (gid : Z).

(** An argument that is given, [-1] meaning "leave alone", and what it maps to. *)
Definition pick (id kid cur : Z) : Z := if decide (id = INVALID) then cur else kid.
(** A given argument that maps to no id. *)
Definition bad (id kid : Z) : Prop := id ≠ INVALID ∧ kid = INVALID.
(** A given argument that the process may not use. *)
Definition denied (priv : bool) (id kid : Z) (own : list Z) : Prop :=
  id ≠ INVALID ∧ kid ∉ own ∧ priv = false.

Global Instance bad_dec id kid : Decision (bad id kid).
Proof. unfold bad. apply _. Defined.
Global Instance denied_dec priv id kid own : Decision (denied priv id kid own).
Proof. unfold denied. apply _. Defined.

Definition with_uids (i : ids) (u e s f : Z) : ids :=
  Ids u e s f (i_gid i) (i_egid i) (i_sgid i) (i_fsgid i).
Definition with_gids (i : ids) (g e s f : Z) : ids :=
  Ids (i_uid i) (i_euid i) (i_suid i) (i_fsuid i) g e s f.

(** The BSD, the POSIX and the 4.4BSD-style calls on one family of ids
    [(real, effective, saved)]; the file system id follows the effective one. *)
Definition re_spec (map : Z → Z) (priv : bool) (r e : Z) (ru eu su : Z) : errno + (Z * Z * Z) :=
  if decide (bad r (map r) ∨ bad e (map e)) then inl EINVAL
  else if decide (denied priv r (map r) [ru; eu] ∨ denied priv e (map e) [ru; eu; su]) then inl EPERM
  else let eu' := pick e (map e) eu in
    inr (pick r (map r) ru, eu',
      if decide (r ≠ INVALID ∨ (e ≠ INVALID ∧ map e ≠ ru)) then eu' else su).

Definition id_spec (map : Z → Z) (priv : bool) (u : Z) (ru eu su : Z) : errno + (Z * Z * Z) :=
  if decide (map u = INVALID) then inl EINVAL
  else if priv then inr (map u, map u, map u)
  else if decide (map u = ru ∨ map u = su) then inr (ru, map u, su) else inl EPERM.

Definition res_spec (map : Z → Z) (priv : bool) (r e s : Z) (ru eu su : Z) : errno + (Z * Z * Z) :=
  if decide (bad r (map r) ∨ bad e (map e) ∨ bad s (map s)) then inl EINVAL
  else if decide (denied priv r (map r) [ru; eu; su] ∨ denied priv e (map e) [ru; eu; su] ∨
                  denied priv s (map s) [ru; eu; su]) then inl EPERM
  else inr (pick r (map r) ru, pick e (map e) eu, pick s (map s) su).

(** The file system id alone; it is left alone when it may not be set. *)
Definition fs_spec (map : Z → Z) (priv : bool) (u : Z) (own : list Z) (fs : Z) : Z :=
  if decide (map u = INVALID) then fs
  else if decide (map u ∈ own ∨ priv = true) then map u else fs.

Definition uid_result (i : ids) (r : errno + (Z * Z * Z)) : errno + ids :=
  match r with inl e => inl e | inr (u, e, s) => inr (with_uids i u e s e) end.
Definition gid_result (i : ids) (r : errno + (Z * Z * Z)) : errno + ids :=
  match r with inl e => inl e | inr (g, e, s) => inr (with_gids i g e s e) end.

Definition setid_spec (ns : user_namespace) (pu pg : bool) (call : idcall) (i : ids) : errno + ids :=
  let ku := make_kuid ns in let kg := make_kgid ns in
  match call with
  | SetReuid r e => uid_result i (re_spec ku pu r e (i_uid i) (i_euid i) (i_suid i))
  | SetUid u => uid_result i (id_spec ku pu u (i_uid i) (i_euid i) (i_suid i))
  | SetResuid r e s => uid_result i (res_spec ku pu r e s (i_uid i) (i_euid i) (i_suid i))
  | SetFsuid u => inr (with_uids i (i_uid i) (i_euid i) (i_suid i)
      (fs_spec ku pu u [i_uid i; i_euid i; i_suid i; i_fsuid i] (i_fsuid i)))
  | SetRegid r e => gid_result i (re_spec kg pg r e (i_gid i) (i_egid i) (i_sgid i))
  | SetGid g => gid_result i (id_spec kg pg g (i_gid i) (i_egid i) (i_sgid i))
  | SetResgid r e s => gid_result i (res_spec kg pg r e s (i_gid i) (i_egid i) (i_sgid i))
  | SetFsgid g => inr (with_gids i (i_gid i) (i_egid i) (i_sgid i)
      (fs_spec kg pg g [i_gid i; i_egid i; i_sgid i; i_fsgid i] (i_fsgid i)))
  end.

(** The calls of the system; the last component of a result is the state. *)
Definition do_call (k : kstate) (call : idcall) (alloc ualloc : option nat)
    : option ((errno + Z) * kstate) :=
  let ret0 o := '(r, k') ← o; Some (match r with Ok => inr 0 | Err e => inl e end, k') in
  let retv o := '(v, k') ← o; Some (inr v, k') in
  match call with
  | SetReuid r e => ret0 (sys_setreuid k alloc ualloc r e)
  | SetUid u => ret0 (sys_setuid k alloc ualloc u)
  | SetResuid r e s => ret0 (sys_setresuid k alloc ualloc r e s)
  | SetFsuid u => retv (sys_setfsuid k alloc u)
  | SetRegid r e => ret0 (sys_setregid k alloc r e)
  | SetGid g => ret0 (sys_setgid k alloc g)
  | SetResgid r e s => ret0 (sys_setresgid k alloc r e s)
  | SetFsgid g => retv (sys_setfsgid k alloc g)
  end.

(** * Refinement *)

(** The security hook adjusts capabilities, not ids (as its documentation in
    linux/security.h says). *)
Hypothesis fix_setuid_ids : ∀ new old f new', security_task_fix_setuid new old f = inr new' →
  ids_of new' = ids_of new ∧ usage new' = usage new ∧ user new' = user new ∧ user_ns new' = user_ns new.

Lemma fix_pending ext ns old oldc k new c f :
  pending ext ns old oldc k new c →
  (∃ e, security_task_fix_setuid c oldc f = inl e) ∨
  (∃ c', security_task_fix_setuid c oldc f = inr c' ∧ ids_of c' = ids_of c ∧ user_ns c' = user_ns c ∧
     user c' = user c ∧ pending ext ns old oldc (set_cred k new c') new c').
Proof.
  intros Hp. destruct (security_task_fix_setuid c oldc f) as [e|c'] eqn:E; [by eauto|].
  destruct (fix_setuid_ids _ _ _ _ E) as (E1 & E2 & E3 & E4). right. exists c'. split_and!; [done..|].
  rewrite <- (change_set k new c (λ _, c')) by apply Hp. by apply (change_pending _ _ _ _ _ _ c).
Qed.

(** The environment refuses with the code [e]: no memory for the credentials
    ([-ENOMEM], after the arguments were found valid) or for the structure of a user
    that has none ([-EAGAIN]), or a verdict of the security module on the copy or on
    the new ids. *)
Definition refused (k : kstate) (alloc ualloc : option nat) (oldc : cred) (spec : errno + ids) (e : errno) : Prop :=
  e = ENOMEM ∧ spec ≠ inl EINVAL ∧ (alloc = None ∨ security_prepare_creds (with_usage oldc 1) oldc = false) ∨
  ∃ i, spec = inr i ∧
    (e = EAGAIN ∧ ualloc = None ∧ (∀ u x, uids (uc k) !! u = Some x → x ≠ i_uid i) ∨
     ∃ new f, ids_of new = i ∧ security_task_fix_setuid new oldc f = inl e).

(** The outcome of a call: the one specified, with its error code or with the
    specified ids installed and the value [v0] returned; or nothing changed because
    the environment refused, with the code of the refusal, which only the calls on
    file system ids ([fs]) do not report. *)
Definition outcome (ext : nat → Z) (ns : nsmap) (old : nat) (oldc : cred) (refusal : errno → Prop) (fs : bool) (v0 : Z)
    (spec : errno + ids) (r : errno + Z) (k' : kstate) : Prop :=
  nss k' = ns ∧
  ((∃ i new c, spec = inr i ∧ r = inr v0 ∧ settled ext k' new c ∧ ids_of c = i ∧
      user_ns c = user_ns oldc) ∨
   (settled ext k' old oldc ∧
    ((∃ e, spec = inl e ∧ r = inl e) ∨ (∃ e, refusal e ∧ r = if fs then inr v0 else inl e)))).

Definition as_result (o : option (ret * kstate)) : option ((errno + Z) * kstate) :=
  '(r, k') ← o; Some (match r with Ok => inr 0 | Err e => inl e end, k').

Lemma commit_outcome ext ns old oldc k new c P fs spec :
  pending ext ns old oldc k new c → spec = inr (ids_of c) → user_ns c = user_ns oldc →
  uids (uc k) !! user c = Some (uid c) →
  ∃ r k', as_result (commit k new) = Some (r, k') ∧ outcome ext ns old oldc P fs 0 spec r k'.
Proof.
  intros Hp -> Hu Hnm. destruct (commit_pending _ _ _ _ _ _ _ Hp Hnm) as (k' & n & -> & Hs & Hn).
  eexists _, _. split; [done|]. split; [done|]. left. eexists _, _, _. split_and!; try done.
Qed.

Lemma error_outcome ext ns old oldc k new c e (P : errno → Prop) spec :
  pending ext ns old oldc k new c → spec = inl e ∨ P e →
  ∃ r k', as_result (error k new e) = Some (r, k') ∧ outcome ext ns old oldc P false 0 spec r k'.
Proof.
  intros Hp Hspec. destruct (error_pending _ _ _ _ _ _ _ e Hp) as (k' & _ & -> & Hs & Hn).
  eexists _, _. split; [done|]. split; [done|]. right. split; [done|].
  destruct Hspec as [->|HP]; [left|right]; eauto.
Qed.

Lemma fix_outcome k0 ext ns old oldc k new c f alloc ualloc spec :
  pending ext ns old oldc k new c → spec = inr (ids_of c) → user_ns c = user_ns oldc →
  uids (uc k) !! user c = Some (uid c) →
  ∃ r k', as_result (fix_and_commit k new oldc f) = Some (r, k') ∧
    outcome ext ns old oldc (refused k0 alloc ualloc oldc spec) false 0 spec r k'.
Proof.
  intros Hp -> Hu Hnm. unfold fix_and_commit. rewrite (pd_new _ _ _ _ _ _ _ Hp). cbn [mbind option_bind].
  destruct (fix_pending _ _ _ _ _ _ _ f Hp) as [[e E]|(c' & E & E1 & E2 & E3 & Hp')]; rewrite E.
  - eapply error_outcome; [done|]. right. right. eauto 10.
  - eapply commit_outcome; [done|congruence|congruence|]. rewrite E3. injection E1 as -> _. exact Hnm.
Qed.

Lemma id_valid_false k : id_valid k = false ↔ k = INVALID.
Proof. unfold id_valid. rewrite bool_decide_eq_false. split; [apply dec_stable|naive_solver]. Qed.

(** Nothing happened, and the specification says so too. *)
Lemma early_outcome ext k old oldc P fs v spec e :
  settled ext k old oldc → spec = inl e → outcome ext (nss k) old oldc P fs v spec (inl e) k.
Proof. intros Hs ->. split; [done|]. right. split; [done|]. left. eauto. Qed.

Lemma current_ns ext k old oldc :
  settled ext k old oldc → ∃ ns, nss k !! user_ns oldc = Some ns ∧ current_user_ns k = Some ns.
Proof.
  intros Hs. destruct (st_env _ _ _ _ Hs) as (_ & _ & Hobj).
  destruct (Hobj _ _ (st_cred _ _ _ _ Hs)) as [_ [ns Hns]]. exists ns. split; [done|].
  unfold current_user_ns. rewrite (settled_current _ _ _ _ Hs). cbn [mbind option_bind]. done.
Qed.

Lemma check_pending ext ns old oldc k new c id kid own cp :
  pending ext ns old oldc k new c →
  ∃ k', (if decide (id ≠ INVALID) then allowed k oldc own kid cp else Some (true, k)) =
      Some (negb (bool_decide (denied (security_capable ns oldc (user_ns oldc) cp) id kid own)), k') ∧
    pending ext ns old oldc k' new c ∧ uc k' = uc k.
Proof.
  intros Hp. unfold denied. case_decide as Hid.
  - destruct (allowed_pending _ _ _ _ _ _ _ own kid cp Hp) as (k' & E & Hp' & Hu).
    exists k'. split; [|done]. rewrite E. do 2 f_equal.
    destruct (security_capable _ _ _ _); repeat case_bool_decide; naive_solver.
  - exists k. rewrite bool_decide_eq_false_2 by tauto. done.
Qed.

Lemma change_if_pending (Q : Prop) `{Decision Q} ext ns old oldc k new c f :
  pending ext ns old oldc k new c →
  usage (f c) = usage c → user (f c) = user c → user_ns (f c) = user_ns c →
  pending ext ns old oldc (if decide Q then change k new f else k) new (if decide Q then f c else c).
Proof. intros Hp ? ? ?. case_decide; [by apply change_pending|done]. Qed.

Lemma change_if_uc (Q : Prop) `{Decision Q} k new f : uc (if decide Q then change k new f else k) = uc k.
Proof. by case_decide. Qed.

(** Runs the call up to the new credentials, when the environment provides
    them; otherwise the outcome is a refusal. *)
Ltac prepare_step Hs Hfresh new k1 Hp Hfr :=
  let r := fresh "r" in
  destruct (prepare_settled _ _ _ _ _ Hs Hfresh) as (r & k1 & -> & Hp); cbn [mbind option_bind];
  destruct r as [new|];
    [destruct Hp as [Hp Hfr]; rewrite (pending_current _ _ _ _ _ _ _ Hp); cbn [mbind option_bind]
    |destruct Hp as (? & ? & ?); eexists _, _; split; [reflexivity|]; split; [done|];
     right; split; [done|]; right; exists ENOMEM; split; [left; split; [done|]; split; [|done]|done];
     unfold gid_result, uid_result; try destruct (security_capable _ _ _ _); repeat case_decide; done].

(** An argument that maps to no id. *)
Ltac bad_arg r Hb :=
  destruct (decide (r ≠ INVALID ∧ _)) as [Hb|Hb]; rewrite id_valid_false in Hb;
  [eexists _, _; split; [reflexivity|]; apply early_outcome; [done|];
   rewrite decide_True by (unfold bad; tauto); done|].

(** The next check, with the verdict of the specification. *)
Ltac check_step Hp k2 Hu :=
  match goal with
  | |- context [if decide (?id ≠ INVALID) then allowed ?k ?oldc ?own ?kid ?cp else _] =>
      let E := fresh "E" in let Hp' := fresh "Hp" in
      destruct (check_pending _ _ _ _ k _ _ id kid own cp Hp) as (k2 & E & Hp' & Hu);
      rewrite E; clear E; cbn [mbind option_bind]; rewrite negb_involutive;
      clear Hp; rename Hp' into Hp
  end.

(** The next conditional change of the new credentials. *)
Ltac change_step Hp kc :=
  match goal with
  | |- context [if decide ?Q then change ?k ?new ?f else ?k] =>
      eapply (change_if_pending Q _ _ _ _ k new _ f) in Hp; [|done..];
      set (kc := if decide Q then change k new f else k) in *
  end.

Definition fs_call (call : idcall) : bool :=
  match call with SetFsuid _ | SetFsgid _ => true | _ => false end.

(** What a call returns when it does not fail. *)
Definition ret_value (ns : user_namespace) (oldc : cred) (call : idcall) : Z :=
  match call with
  | SetFsuid _ => from_kuid_munged overflowuid ns (fsuid oldc)
  | SetFsgid _ => from_kgid_munged overflowgid ns (fsgid oldc)
  | _ => 0
  end.

(** The call [o] refines the specification of [call]. *)
Definition refines (ext : nat → Z) (k : kstate) (alloc ualloc : option nat) (old : nat) (oldc : cred)
    (ns : user_namespace) (call : idcall) (o : option ((errno + Z) * kstate)) : Prop :=
  let spec := setid_spec ns (security_capable (nss k) oldc (user_ns oldc) CAP_SETUID)
    (security_capable (nss k) oldc (user_ns oldc) CAP_SETGID) call (ids_of oldc) in
  ∃ v k', o = Some (v, k') ∧
    outcome ext (nss k) old oldc (refused k alloc ualloc oldc spec) (fs_call call) (ret_value ns oldc call) spec v k'.

Section calls.
Context (ext : nat → Z) (k : kstate) (alloc ualloc : option nat) (old : nat) (oldc : cred).
Context (ns : user_namespace).
Hypothesis Hs : settled ext k old oldc.
Hypothesis Hfresh : ∀ a, alloc = Some a → creds k !! a = None.
Hypothesis Hufresh : ∀ u, ualloc = Some u → users (uc k) !! u = None.
Hypothesis Hns : nss k !! user_ns oldc = Some ns.

Lemma current_ns_eq : current_user_ns k = Some ns.
Proof. destruct (current_ns _ _ _ _ Hs) as (ns' & Hns' & ->). congruence. Qed.

Lemma set_user_if (Q : Prop) `{Decision Q} k1 new c :
  pending ext (nss k) old oldc k1 new c → user c = user oldc → (¬ Q → uid c = uid oldc) → uids (uc k1) = uids (uc k) →
  ∃ r k', (if decide Q then set_user k1 new ualloc else Some (Ok, k1)) = Some (r, k') ∧
    match r with
    | Ok => ∃ c', pending ext (nss k) old oldc k' new c' ∧ ids_of c' = ids_of c ∧ user_ns c' = user_ns c ∧
        uids (uc k') !! user c' = Some (uid c')
    | Err e => e = EAGAIN ∧ ualloc = None ∧ (∀ u x, uids (uc k) !! u = Some x → x ≠ uid c) ∧
        pending ext (nss k) old oldc k' new c
    end.
Proof.
  intros Hp Hu Hid Hf. case_decide as HQ.
  - destruct (set_user_pending _ _ _ _ _ _ _ ualloc Hp) as (r & k' & -> & Hr).
    { intros u E. apply uids_None. rewrite Hf. apply uids_None. eauto. }
    eexists _, _. split; [done|]. rewrite Hf in Hr. destruct r; [|done]. destruct Hr as (u & Hr & Hnm).
    by exists (set_user_ptr u c).
  - exists Ok, k1. split; [done|]. exists c. split_and!; [done..|]. rewrite Hu, (Hid HQ). apply Hp.
Qed.

Lemma again_refused spec i :
  spec = inr i → ualloc = None → (∀ u x, uids (uc k) !! u = Some x → x ≠ i_uid i) →
  refused k alloc ualloc oldc spec EAGAIN.
Proof. intros. right. eauto 10. Qed.

(** The equations between the ids of two credentials. *)
Ltac same_ids E := unfold ids_of in E; simpl in E; injection E as ? ? ? ? ? ? ? ?.

(** Equality of resulting ids, branch by branch. *)
Ltac ids_eq :=
  unfold gid_result, uid_result, pick, with_gids, with_uids, ids_of; simpl;
  repeat (case_decide; simpl in * ); try congruence; exfalso; tauto.

Lemma setregid_refines r e :
  refines ext k alloc ualloc old oldc ns (SetRegid r e) (as_result (sys_setregid k alloc r e)).
Proof.
  unfold refines, sys_setregid. rewrite current_ns_eq.
  cbn [mbind option_bind]. cbv zeta. simpl setid_spec. unfold re_spec.
  bad_arg r Hb1.
  bad_arg e Hb2.
  rewrite decide_False by (unfold bad; tauto).
  prepare_step Hs Hfresh new k1 Hp Hfr.
  check_step Hp k2 Hu2. case_bool_decide as Hd1.
  { eapply error_outcome; [done|]. left. by rewrite decide_True by tauto. }
  change_step Hp ka. check_step Hp k3 Hu3. case_bool_decide as Hd2.
  { eapply error_outcome; [done|]. left. by rewrite decide_True by tauto. }
  rewrite (decide_False (P := denied _ _ _ _ ∨ _)) by tauto. change_step Hp kb. change_step Hp kc.
  eapply (change_pending _ _ _ _ _ _ _ (λ c, set_fsgid (egid c) c)) in Hp; [|done..].
  eapply commit_outcome; [exact Hp| |by repeat case_decide|apply pd_name in Hp; by repeat case_decide].
  ids_eq.
Qed.

Lemma setgid_refines g :
  refines ext k alloc ualloc old oldc ns (SetGid g) (as_result (sys_setgid k alloc g)).
Proof.
  unfold refines, sys_setgid. rewrite current_ns_eq.
  cbn [mbind option_bind]. cbv zeta. simpl setid_spec. unfold id_spec.
  destruct (id_valid (make_kgid ns g)) eqn:Hv; cycle 1.
  { apply id_valid_false in Hv. eexists _, _. split; [reflexivity|].
    apply early_outcome; [done|]. by rewrite decide_True. }
  cbn [negb]. rewrite decide_False by (intros E%id_valid_false; congruence).
  prepare_step Hs Hfresh new k1 Hp Hfr.
  destruct (capable_pending _ _ _ _ _ _ _ CAP_SETGID Hp) as (k2 & -> & Hp2 & _). cbn [mbind option_bind].
  destruct (security_capable (nss k) oldc (user_ns oldc) CAP_SETGID).
  { eapply commit_outcome; [eapply change_pending; done|done|done|exact (pd_name _ _ _ _ _ _ _ Hp2)]. }
  destruct (decide (make_kgid ns g = gid oldc ∨ make_kgid ns g = sgid oldc)) as [Hg|Hg].
  - eapply commit_outcome; [eapply change_pending; done|done|done|exact (pd_name _ _ _ _ _ _ _ Hp2)].
  - eapply error_outcome; [done|]. by left.
Qed.

Lemma setreuid_refines r e :
  refines ext k alloc ualloc old oldc ns (SetReuid r e) (as_result (sys_setreuid k alloc ualloc r e)).
Proof.
  unfold refines, sys_setreuid. rewrite current_ns_eq.
  cbn [mbind option_bind]. cbv zeta. simpl setid_spec. unfold re_spec.
  bad_arg r Hb1.
  bad_arg e Hb2.
  rewrite decide_False by (unfold bad; tauto).
  prepare_step Hs Hfresh new k1 Hp Hfr.
  change_step Hp ka. check_step Hp k2 Hu2. case_bool_decide as Hd1.
  { eapply error_outcome; [done|]. left. by rewrite decide_True by tauto. }
  change_step Hp kb. check_step Hp k3 Hu3. case_bool_decide as Hd2.
  { eapply error_outcome; [done|]. left. by rewrite decide_True by tauto. }
  rewrite (decide_False (P := denied _ _ _ _ ∨ _)) by tauto.
  rewrite (pd_new _ _ _ _ _ _ _ Hp). cbn [mbind option_bind].
  match goal with |- context [if decide ?Q then set_user _ _ _ else _] =>
    destruct (set_user_if Q k3 new _ Hp) as (rv & k4 & -> & Hrv) end.
  { by repeat case_decide. }
  { by apply dec_stable. }
  { rewrite Hu3. unfold kb. rewrite change_if_uc, Hu2. unfold ka. by rewrite change_if_uc. }
  cbn [mbind option_bind]. destruct rv as [|er]; cycle 1.
  { destruct Hrv as (-> & Hua & Hno & Hp'). eapply error_outcome; [done|]. right. eapply again_refused; [done|done|].
    intros u x Hx. specialize (Hno u x Hx). simpl in *. unfold pick. repeat case_decide; simpl in *; done. }
  destruct Hrv as (c' & Hp' & Eids & Ens & Hnm). change_step Hp' kc.
  eapply (change_pending _ _ _ _ _ _ _ (λ c, set_fsuid (euid c) c)) in Hp'; [|done..].
  eapply fix_outcome; [exact Hp'| | |].
  - same_ids Eids. ids_eq.
  - transitivity (user_ns c'); [by repeat case_decide|]. rewrite Ens. by repeat case_decide.
  - simpl. unfold kc. rewrite change_if_uc. by repeat case_decide.
Qed.

Lemma setuid_refines u :
  refines ext k alloc ualloc old oldc ns (SetUid u) (as_result (sys_setuid k alloc ualloc u)).
Proof.
  unfold refines, sys_setuid. rewrite current_ns_eq.
  cbn [mbind option_bind]. cbv zeta. simpl setid_spec. unfold id_spec.
  destruct (id_valid (make_kuid ns u)) eqn:Hv; cycle 1.
  { apply id_valid_false in Hv. eexists _, _. split; [reflexivity|].
    apply early_outcome; [done|]. by rewrite decide_True. }
  cbn [negb]. rewrite decide_False by (intros E%id_valid_false; congruence).
  prepare_step Hs Hfresh new k1 Hp Hfr.
  destruct (capable_pending _ _ _ _ _ _ _ CAP_SETUID Hp) as (k2 & -> & Hp2 & Hu2). cbn [mbind option_bind].
  rewrite (pd_new _ _ _ _ _ _ _ Hp2). cbn [mbind option_bind]. clear Hp.
  destruct (security_capable (nss k) oldc (user_ns oldc) CAP_SETUID).
  - eapply (change_pending _ _ _ _ _ _ _ (λ c, set_suid (make_kuid ns u) (set_uid (make_kuid ns u) c))) in Hp2; [|done..].
    match goal with |- context [if decide ?Q then set_user _ _ _ else _] =>
      destruct (set_user_if Q _ new _ Hp2) as (rv & k4 & -> & Hrv) end; [done|by apply dec_stable|by simpl; rewrite Hu2|].
    cbn [mbind option_bind]. destruct rv as [|er]; cycle 1.
    { destruct Hrv as (-> & Hua & Hno & Hp'). eapply error_outcome; [done|]. right. by eapply again_refused. }
    destruct Hrv as (c' & Hp' & Eids & Ens & Hnm).
    eapply fix_outcome; [eapply change_pending; done| |done|exact Hnm]. same_ids Eids. ids_eq.
  - destruct (decide (make_kuid ns u ≠ uid oldc ∧ _)) as [Hd|Hd]; cbn [mbind option_bind].
    + eapply error_outcome; [done|]. left. rewrite decide_False by (simpl in *; tauto). done.
    + eapply fix_outcome; [eapply change_pending; done| |done|exact (pd_name _ _ _ _ _ _ _ Hp2)].
      rewrite decide_True; [done|]. simpl in Hd.
      destruct (decide (make_kuid ns u = uid oldc)), (decide (make_kuid ns u = suid oldc)); tauto.
Qed.

(** The three argument checks of the [setres*id] calls. *)
Lemma res_denied_iff priv id kid r e s :
  priv = false → res_denied id kid r e s ↔ denied priv id kid [r; e; s].
Proof. intros ->. unfold res_denied, denied. set_solver. Qed.

(** The permission check of the [setres*id] calls. *)
Ltac res_check priv Hd :=
  destruct (negb priv && _) eqn:Hd;
  [eapply error_outcome; [done|]; left; apply andb_true_iff in Hd as [? Hd%bool_decide_eq_true];
   rewrite !(res_denied_iff priv) in Hd by (by apply negb_true_iff); by rewrite decide_True|];
  rewrite (decide_False (P := denied _ _ _ _ ∨ _));
  [|let Hx := fresh in intros Hx; destruct priv; [unfold denied in Hx; naive_solver|];
    cbn [negb andb] in Hd; apply bool_decide_eq_false in Hd; apply Hd;
    by rewrite !(res_denied_iff false)].

Lemma setresuid_refines r e s :
  refines ext k alloc ualloc old oldc ns (SetResuid r e s) (as_result (sys_setresuid k alloc ualloc r e s)).
Proof.
  unfold refines, sys_setresuid. rewrite current_ns_eq.
  cbn [mbind option_bind]. cbv zeta. simpl setid_spec. unfold res_spec.
  bad_arg r Hb1.
  bad_arg e Hb2.
  bad_arg s Hb3.
  rewrite decide_False by (unfold bad; tauto).
  prepare_step Hs Hfresh new k1 Hp Hfr.
  destruct (capable_pending _ _ _ _ _ _ _ CAP_SETUID Hp) as (k2 & -> & Hp2 & Hu2). cbn [mbind option_bind].
  clear Hp. set (priv := security_capable _ _ _ _) in *.
  res_check priv Hd.
  assert (∃ rv k4, (if decide (r ≠ INVALID) then
      if decide (make_kuid ns r ≠ uid oldc) then set_user (change k2 new (set_uid (make_kuid ns r))) new ualloc
      else Some (Ok, change k2 new (set_uid (make_kuid ns r))) else Some (Ok, k2)) = Some (rv, k4) ∧
    match rv with
    | Ok => ∃ c', pending ext (nss k) old oldc k4 new c' ∧
        ids_of c' = ids_of (if decide (r ≠ INVALID) then set_uid (make_kuid ns r) oldc else oldc) ∧
        user_ns c' = user_ns oldc ∧ uids (uc k4) !! user c' = Some (uid c')
    | Err e => e = EAGAIN ∧ ualloc = None ∧ (∀ u x, uids (uc k) !! u = Some x → x ≠ pick r (make_kuid ns r) (uid oldc)) ∧
        ∃ c, pending ext (nss k) old oldc k4 new c
    end) as (rv & k4 & -> & Hrv).
  { case_decide; [|eexists _, _; split; [done|]; eexists; split_and!; [done..|exact (pd_name _ _ _ _ _ _ _ Hp2)]].
    eapply (change_pending _ _ _ _ _ _ _ (set_uid (make_kuid ns r))) in Hp2; [|done..].
    match goal with |- context [if decide ?Q then set_user _ _ _ else _] =>
      destruct (set_user_if Q _ new _ Hp2) as (rv & k4 & -> & Hrv) end; [done|by apply dec_stable|by simpl; rewrite Hu2|].
    eexists _, _. split; [done|]. destruct rv; [naive_solver|]. destruct Hrv as (? & ? & Hno & ?).
    unfold pick. rewrite decide_False by done. eauto 10. }
  cbn [mbind option_bind]. destruct rv as [|er]; cycle 1.
  { destruct Hrv as (-> & Hua & Hno & c & Hp'). eapply error_outcome; [done|]. right. by eapply again_refused. }
  destruct Hrv as (c' & Hp' & Eids & Ens & Hnm). change_step Hp' ka. change_step Hp' kb.
  eapply (change_pending _ _ _ _ _ _ _ (λ c, set_fsuid (euid c) c)) in Hp'; [|done..].
  eapply fix_outcome; [exact Hp'| | |].
  - same_ids Eids. ids_eq.
  - transitivity (user_ns c'); [by repeat case_decide|]. done.
  - simpl. unfold kb, ka. rewrite !change_if_uc. by repeat case_decide.
Qed.

Lemma setresgid_refines r e s :
  refines ext k alloc ualloc old oldc ns (SetResgid r e s) (as_result (sys_setresgid k alloc r e s)).
Proof.
  unfold refines, sys_setresgid. rewrite current_ns_eq.
  cbn [mbind option_bind]. cbv zeta. simpl setid_spec. unfold res_spec.
  bad_arg r Hb1.
  bad_arg e Hb2.
  bad_arg s Hb3.
  rewrite decide_False by (unfold bad; tauto).
  prepare_step Hs Hfresh new k1 Hp Hfr.
  destruct (capable_pending _ _ _ _ _ _ _ CAP_SETGID Hp) as (k2 & -> & Hp2 & Hu2). cbn [mbind option_bind].
  clear Hp. set (priv := security_capable _ _ _ CAP_SETGID) in *.
  res_check priv Hd.
  change_step Hp2 ka. change_step Hp2 kb. change_step Hp2 kc.
  eapply (change_pending _ _ _ _ _ _ _ (λ c, set_fsgid (egid c) c)) in Hp2; [|done..].
  eapply commit_outcome; [exact Hp2| |by repeat case_decide|apply pd_name in Hp2; by repeat case_decide]. ids_eq.
Qed.

Lemma fs_denied (own : list Z) (kid : Z) priv :
  (bool_decide (kid ∈ own) || priv) = false → kid ∉ own ∧ priv = false.
Proof. rewrite orb_false_iff, bool_decide_eq_false. done. Qed.

(** A call that gives the new credentials up and returns a value. *)
Lemma abort_value k1 new c v spec :
  pending ext (nss k) old oldc k1 new c →
  spec = inr (ids_of oldc) ∨ (∃ e, refused k alloc ualloc oldc spec e) →
  ∃ w k', ('(x, k') ← (k2 ← abort_creds k1 new; Some (v, k2)); Some (inr x, k')) = Some (w : errno + Z, k') ∧
    outcome ext (nss k) old oldc (refused k alloc ualloc oldc spec) true v spec w k'.
Proof.
  intros Hp Hspec. destruct (error_pending _ _ _ _ _ _ _ EPERM Hp) as (k' & -> & _ & Hst & Hn).
  cbn [mbind option_bind]. eexists _, _. split; [done|]. split; [done|].
  destruct Hspec as [->|[e He]]; [left|right; split; [done|right; by exists e]]. by eexists _, old, oldc.
Qed.

Lemma commit_value k1 new c v spec :
  pending ext (nss k) old oldc k1 new c → spec = inr (ids_of c) → user_ns c = user_ns oldc →
  uids (uc k1) !! user c = Some (uid c) →
  ∃ w k', ('(x, k') ← ('(_, k2) ← commit k1 new; Some (v, k2)); Some (inr x, k')) = Some (w : errno + Z, k') ∧
    outcome ext (nss k) old oldc (refused k alloc ualloc oldc spec) true v spec w k'.
Proof.
  intros Hp -> Hu Hnm. destruct (commit_pending _ _ _ _ _ _ _ Hp Hnm) as (k' & n & -> & Hst & Hn).
  cbn [mbind option_bind]. eexists _, _. split; [done|]. split; [done|]. left.
  by eexists _, new, (with_usage c n).
Qed.

Lemma setfsuid_refines u :
  refines ext k alloc ualloc old oldc ns (SetFsuid u)
    ('(v, k') ← sys_setfsuid k alloc u; Some (inr v, k')).
Proof.
  unfold refines, sys_setfsuid. rewrite (settled_current _ _ _ _ Hs). cbn [mbind option_bind].
  rewrite Hns. cbn [mbind option_bind]. cbv zeta. simpl setid_spec. unfold fs_spec.
  destruct (id_valid (make_kuid ns u)) eqn:Hv; cycle 1.
  { apply id_valid_false in Hv. rewrite decide_True by done. eexists _, _. split; [reflexivity|].
    split; [done|]. left. by eexists _, old, oldc. }
  cbn [negb]. rewrite decide_False by (intros E%id_valid_false; congruence).
  destruct (prepare_settled _ _ _ _ _ Hs Hfresh) as (r & k1 & -> & Hp). cbn [mbind option_bind].
  destruct r as [new|]; cycle 1.
  { destruct Hp as (? & ? & ?). eexists _, _. split; [reflexivity|]. split; [done|].
    right. split; [done|]. right. exists ENOMEM. split; [by left|done]. }
  destruct Hp as [Hp _].
  destruct (allowed_pending _ _ _ _ _ _ _ [uid oldc; euid oldc; suid oldc; fsuid oldc]
    (make_kuid ns u) CAP_SETUID Hp) as (k2 & -> & Hp2 & _). cbn [mbind option_bind]. clear Hp.
  set (ok := bool_decide _ || security_capable _ _ _ CAP_SETUID).
  destruct ok eqn:Hok; cycle 1.
  { apply fs_denied in Hok as [? Hpr]. cbn [andb]. rewrite (pd_new _ _ _ _ _ _ _ Hp2). cbn [mbind option_bind].
    eapply abort_value; [done|]. left. rewrite decide_False by (intros [?|?]; [done|congruence]). done. }
  rewrite decide_True by (unfold ok in Hok; apply orb_true_iff in Hok as [Hok%bool_decide_eq_true|Hok]; auto).
  cbn [andb]. case_bool_decide as Hne; cbn [mbind option_bind]; cycle 1.
  { rewrite (pd_new _ _ _ _ _ _ _ Hp2). cbn [mbind option_bind].
    eapply abort_value; [done|]. left. unfold with_uids, ids_of. simpl. congruence. }
  eapply (change_pending _ _ _ _ _ _ _ (set_fsuid (make_kuid ns u))) in Hp2; [|done..].
  rewrite (pd_new _ _ _ _ _ _ _ Hp2). cbn [mbind option_bind].
  destruct (fix_pending _ _ _ _ _ _ _ LSM_SETID_FS Hp2) as [[e E]|(c' & E & E1 & E2 & E3 & Hp')]; rewrite E.
  - eapply abort_value; [done|]. right. exists e. right. eexists. split; [done|]. right. eexists _, _. split; [|exact E]. done.
  - eapply commit_value; [done| |by rewrite E2|]; [by rewrite E1|]. rewrite E3. injection E1 as -> _. exact (pd_name _ _ _ _ _ _ _ Hp2).
Qed.

Lemma setfsgid_refines g :
  refines ext k alloc ualloc old oldc ns (SetFsgid g)
    ('(v, k') ← sys_setfsgid k alloc g; Some (inr v, k')).
Proof.
  unfold refines, sys_setfsgid. rewrite (settled_current _ _ _ _ Hs). cbn [mbind option_bind].
  rewrite Hns. cbn [mbind option_bind]. cbv zeta. simpl setid_spec. unfold fs_spec.
  destruct (id_valid (make_kgid ns g)) eqn:Hv; cycle 1.
  { apply id_valid_false in Hv. rewrite decide_True by done. eexists _, _. split; [reflexivity|].
    split; [done|]. left. by eexists _, old, oldc. }
  cbn [negb]. rewrite decide_False by (intros E%id_valid_false; congruence).
  destruct (prepare_settled _ _ _ _ _ Hs Hfresh) as (r & k1 & -> & Hp). cbn [mbind option_bind].
  destruct r as [new|]; cycle 1.
  { destruct Hp as (? & ? & ?). eexists _, _. split; [reflexivity|]. split; [done|].
    right. split; [done|]. right. exists ENOMEM. split; [by left|done]. }
  destruct Hp as [Hp _].
  destruct (allowed_pending _ _ _ _ _ _ _ [gid oldc; egid oldc; sgid oldc; fsgid oldc]
    (make_kgid ns g) CAP_SETGID Hp) as (k2 & -> & Hp2 & _). cbn [mbind option_bind]. clear Hp.
  set (ok := bool_decide _ || security_capable _ _ _ CAP_SETGID).
  destruct ok eqn:Hok; cycle 1.
  { apply fs_denied in Hok as [? Hpr]. cbn [andb].
    eapply abort_value; [done|]. left. rewrite decide_False by (intros [?|?]; [done|congruence]). done. }
  rewrite decide_True by (unfold ok in Hok; apply orb_true_iff in Hok as [Hok%bool_decide_eq_true|Hok]; auto).
  cbn [andb]. case_bool_decide as Hne; cbn [mbind option_bind]; cycle 1.
  { eapply abort_value; [done|]. left. unfold with_gids, ids_of. simpl. congruence. }
  eapply commit_value; [eapply change_pending; done|done|done|exact (pd_name _ _ _ _ _ _ _ Hp2)].
Qed.

Lemma do_call_refines call :
  refines ext k alloc ualloc old oldc ns call (do_call k call alloc ualloc).
Proof.
  destruct call; [apply setreuid_refines|apply setuid_refines|apply setresuid_refines|apply setfsuid_refines|
    apply setregid_refines|apply setgid_refines|apply setresgid_refines|apply setfsgid_refines].
Qed.
End calls.

(** C19: every call that changes ids does what the specification says: it
    either installs exactly the specified ids and returns 0 (or the old file system
    id), or returns exactly the specified error with the credentials untouched, or
    is refused, again with the credentials untouched: [-ENOMEM] when there is no
    memory for the credentials or the security module does not let them be copied,
    [-EAGAIN] when there is none for the structure of a user that has none yet, or
    the code that the security module gives for the new ids.  It never runs into a
    BUG_ON and keeps all reference counts exact: those of credentials, and that of
    each user structure, which is the number of credentials that name it plus the
    references from elsewhere; and the user of the credentials that are installed is
    the one of their real user id. *)
Theorem setid_refinement ext k alloc ualloc old oldc ns call :
  settled ext k old oldc → (∀ a, alloc = Some a → creds k !! a = None) →
  (∀ u, ualloc = Some u → users (uc k) !! u = None) → nss k !! user_ns oldc = Some ns →
  let spec := setid_spec ns (security_capable (nss k) oldc (user_ns oldc) CAP_SETUID)
    (security_capable (nss k) oldc (user_ns oldc) CAP_SETGID) call (ids_of oldc) in
  ∃ v k', do_call k call alloc ualloc = Some (v, k') ∧
    outcome ext (nss k) old oldc (refused k alloc ualloc oldc spec) (fs_call call) (ret_value ns oldc call) spec v k'.
Proof. intros Hs Hf Hu Hn. by apply do_call_refines. Qed.

(** * No gain without privilege *)

(** All ids of [i'] come from ids of the same kind of [i]. *)
Definition within (i i' : ids) : Prop :=
  (∀ x, x ∈ [i_uid i'; i_euid i'; i_suid i'] → x ∈ [i_uid i; i_euid i; i_suid i]) ∧
  (∀ x, x ∈ [i_gid i'; i_egid i'; i_sgid i'] → x ∈ [i_gid i; i_egid i; i_sgid i]) ∧
  i_fsuid i' ∈ [i_uid i; i_euid i; i_suid i; i_fsuid i] ∧
  i_fsgid i' ∈ [i_gid i; i_egid i; i_sgid i; i_fsgid i].

Lemma fs_within (u e s f u' e' s' f' x : Z) :
  (∀ x, x ∈ [u'; e'; s'] → x ∈ [u; e; s]) → f' ∈ [u; e; s; f] →
  x ∈ [u'; e'; s'; f'] → x ∈ [u; e; s; f].
Proof.
  intros Hsub Hf Hx. change [u'; e'; s'; f'] with ([u'; e'; s'] ++ [f']) in Hx.
  change [u; e; s; f] with ([u; e; s] ++ [f]).
  apply elem_of_app in Hx as [Hx|Hx%list_elem_of_singleton]; [|by subst x].
  apply elem_of_app. left. by apply Hsub.
Qed.

Lemma last_in_four (a b c d : Z) : d ∈ [a; b; c; d].
Proof. do 3 right. left. Qed.

Lemma three_in_four (x a b c d : Z) : x ∈ [a; b; c] → x ∈ [a; b; c; d].
Proof. rewrite !elem_of_cons, elem_of_nil. tauto. Qed.

Global Instance within_preorder : PreOrder within.
Proof.
  split.
  - intros i. unfold within. split_and!; [done|done|apply last_in_four..].
  - intros i1 i2 i3 (Ha & Hb & Hc & Hd) (Ha' & Hb' & Hc' & Hd'). unfold within.
    split_and!; [by eauto|by eauto|by eapply fs_within|by eapply fs_within].
Qed.

(** One family of ids. *)
Lemma pick_own id kid cur (own L : list Z) :
  ¬ denied false id kid own → cur ∈ L → (∀ x, x ∈ own → x ∈ L) → pick id kid cur ∈ L.
Proof.
  unfold denied, pick. intros Hd Hc Hsub. case_decide; [done|]. apply Hsub.
  destruct (decide (kid ∈ own)); [done|]. by destruct Hd.
Qed.

Lemma in_three (x a b c : Z) : x ∈ [a; b; c] → x = a ∨ x = b ∨ x = c.
Proof. rewrite !elem_of_cons, elem_of_nil. tauto. Qed.

Lemma in_two_three (x a b c : Z) : x ∈ [a; b] → x ∈ [a; b; c].
Proof. rewrite !elem_of_cons, elem_of_nil. tauto. Qed.

Lemma three_1 (a b c : Z) : a ∈ [a; b; c].
Proof. left. Qed.
Lemma three_2 (a b c : Z) : b ∈ [a; b; c].
Proof. right. left. Qed.
Lemma three_3 (a b c : Z) : c ∈ [a; b; c].
Proof. right. right. left. Qed.

Local Hint Resolve three_1 three_2 three_3 in_two_three : kern.

Lemma re_spec_within map r e ru eu su u' e' s' :
  re_spec map false r e ru eu su = inr (u', e', s') →
  ∀ x, x ∈ [u'; e'; s'] → x ∈ [ru; eu; su].
Proof.
  unfold re_spec. case_decide; [done|]. case_decide as Hd; [done|]. intros [= <- <- <-] x Hx.
  assert (pick e (map e) eu ∈ [ru; eu; su]) by (apply (pick_own _ _ _ [ru; eu; su]); [tauto|auto with kern..]).
  apply in_three in Hx as [->|[->| ->]]; [|done|case_decide; auto with kern].
  apply (pick_own _ _ _ [ru; eu]); [tauto|auto with kern..].
Qed.

Lemma id_spec_within map u ru eu su u' e' s' :
  id_spec map false u ru eu su = inr (u', e', s') → ∀ x, x ∈ [u'; e'; s'] → x ∈ [ru; eu; su].
Proof.
  unfold id_spec. case_decide; [done|]. case_decide as Hd; [|done]. intros [= <- <- <-] x Hx.
  apply in_three in Hx as [->|[->| ->]]; [auto with kern| |auto with kern].
  destruct Hd as [-> | ->]; auto with kern.
Qed.

Lemma res_spec_within map r e s ru eu su u' e' s' :
  res_spec map false r e s ru eu su = inr (u', e', s') →
  ∀ x, x ∈ [u'; e'; s'] → x ∈ [ru; eu; su].
Proof.
  unfold res_spec. case_decide; [done|]. case_decide as Hd; [done|]. intros [= <- <- <-] x Hx.
  apply in_three in Hx as [->|[->| ->]]; (apply (pick_own _ _ _ [ru; eu; su]); [tauto|auto with kern..]).
Qed.

Lemma fs_spec_within map u (own : list Z) fs : fs ∈ own → fs_spec map false u own fs ∈ own.
Proof.
  unfold fs_spec. intros Hf. case_decide; [done|]. case_decide as Hd; [|done]. by destruct Hd.
Qed.

Lemma setid_spec_within ns call i i' : setid_spec ns false false call i = inr i' → within i i'.
Proof.
  assert (∀ o, uid_result i o = inr i' → (∀ u e s, o = inr (u, e, s) →
    ∀ x, x ∈ [u; e; s] → x ∈ [i_uid i; i_euid i; i_suid i]) → within i i') as Hu.
  { intros [e|[[u e] s]] Hr Hx; [done|]. injection Hr as <-. specialize (Hx u e s eq_refl).
    unfold within. simpl. split_and!; [done|done| |apply last_in_four].
    apply three_in_four, Hx, three_2. }
  assert (∀ o, gid_result i o = inr i' → (∀ u e s, o = inr (u, e, s) →
    ∀ x, x ∈ [u; e; s] → x ∈ [i_gid i; i_egid i; i_sgid i]) → within i i') as Hg.
  { intros [e|[[u e] s]] Hr Hx; [done|]. injection Hr as <-. specialize (Hx u e s eq_refl).
    unfold within. simpl. split_and!; [done|done|apply last_in_four|].
    apply three_in_four, Hx, three_2. }
  destruct call; simpl; intros E.
  - eapply Hu; [exact E|]. intros. by eapply re_spec_within.
  - eapply Hu; [exact E|]. intros. by eapply id_spec_within.
  - eapply Hu; [exact E|]. intros. by eapply res_spec_within.
  - injection E as <-. unfold within. simpl.
    split_and!; [done|done|..]; apply fs_spec_within || idtac; apply last_in_four.
  - eapply Hg; [exact E|]. intros. by eapply re_spec_within.
  - eapply Hg; [exact E|]. intros. by eapply id_spec_within.
  - eapply Hg; [exact E|]. intros. by eapply res_spec_within.
  - injection E as <-. unfold within. simpl.
    split_and!; [done|done|..]; apply fs_spec_within || idtac; apply last_in_four.
Qed.

(** A call of the current task, with fresh memory where it gets any. *)
Inductive id_step (k k' : kstate) : Prop :=
  | do_step call alloc ualloc v :
      (∀ a, alloc = Some a → creds k !! a = None) →
      (∀ u, ualloc = Some u → users (uc k) !! u = None) →
      do_call k call alloc ualloc = Some (v, k') → id_step k k'.

(** C20: a process without CAP_SETUID and CAP_SETGID never acquires an id: after
    any sequence of these calls its real, effective and saved user ids are
    among the three it started with, its file system user id among those or the
    one it started with, and the same holds of its group ids. *)
Theorem setid_no_gain ext k a c k' :
  (∀ n x ns, security_capable n x ns CAP_SETUID = false) →
  (∀ n x ns, security_capable n x ns CAP_SETGID = false) →
  settled ext k a c → rtc id_step k k' →
  ∃ a' c', settled ext k' a' c' ∧ within (ids_of c) (ids_of c').
Proof.
  intros Hu Hg Hst Hr. revert a c Hst.
  induction Hr as [k|k1 k2 k3 [call alloc ualloc v Hf Huf E] _ IH]; intros a c Hst; [by exists a, c|].
  destruct (current_ns _ _ _ _ Hst) as (ns & Hns & _).
  destruct (do_call_refines ext k1 alloc ualloc a c ns Hst Hf Huf Hns call) as (v' & k' & E' & _ & Ho).
  rewrite E in E'. injection E' as <- <-. rewrite Hu, Hg in Ho.
  destruct Ho as [(i & new & c2 & Espec & _ & Hst2 & Ei & _)|[Hst2 _]]; [|by eapply IH].
  destruct (IH _ _ Hst2) as (a' & c' & Hst' & Hw). exists a', c'. split; [done|].
  etransitivity; [|exact Hw]. rewrite Ei. by eapply setid_spec_within.
Qed.

(** What [setresuid] sets is what [getresuid] returns, in the ids of the
    caller's namespace. *)
Theorem setresuid_getresuid ext k alloc ualloc old oldc ns r e s v k' :
  settled ext k old oldc → (∀ a, alloc = Some a → creds k !! a = None) →
  (∀ u, ualloc = Some u → users (uc k) !! u = None) → nss k !! user_ns oldc = Some ns →
  in_u32 r → in_u32 e → in_u32 s → r ≠ INVALID → e ≠ INVALID → s ≠ INVALID →
  do_call k (SetResuid r e s) alloc ualloc = Some (inr v, k') →
  sys_getresuid k' = Some (r, e, s).
Proof.
  intros Hst Hf Huf Hns Hr He Hss Hri Hei Hsi E.
  destruct (do_call_refines ext k alloc ualloc old oldc ns Hst Hf Huf Hns (SetResuid r e s))
    as (v' & k2 & E' & Hn & Ho). rewrite E in E'. injection E' as <- <-.
  destruct Ho as [(i & new & c & Espec & _ & Hst2 & Ei & Eu)|[_ [(? & ? & ?)|(? & _ & ?)]]]; [|done|done].
  destruct (st_env _ _ _ _ Hst) as (Hwf & _ & _). destruct (Hwf _ _ Hns) as ((Hv & _) & _).
  unfold sys_getresuid. rewrite (settled_current _ _ _ _ Hst2). cbn [mbind option_bind].
  rewrite Eu, Hn, Hns. cbn [mbind option_bind].
  simpl in Espec. unfold res_spec, pick in Espec.
  destruct (decide (bad _ _ ∨ _)) as [|Hbad]; [done|]. destruct (decide (denied _ _ _ _ ∨ _)); [done|].
  rewrite !decide_False in Espec by done. injection Espec as <-. injection Ei as E1 E2 E3 _ _ _ _ _.
  rewrite E1, E2, E3.
  assert (∀ x, in_u32 x → ¬ bad x (make_kuid ns x) → x ≠ INVALID →
    from_kuid_munged overflowuid ns (make_kuid ns x) = x) as Hrt.
  { intros x Hx Hnb Hxi. unfold from_kuid_munged, from_kuid, make_kuid.
    rewrite (proj2 (map_id_down_up _ _ Hv Hx ltac:(unfold bad, make_kuid in Hnb; tauto))).
    by rewrite decide_False. }
  rewrite !Hrt by tauto. done.
Qed.
End setid.

(** * A concrete run *)

Lemma demo_settled :
  settled false (λ _, 0) (λ _, 0) (KState {[ 10%nat := CredDemo.c0 ]} [] {[ 0%nat := CredDemo.t0 ]} 0
    (uid_cache_init false 0) Demo.st0) 10 CredDemo.c0.
Proof.
  split; try done.
  - split.
    + intros a c Ha. simpl in Ha. apply lookup_singleton_Some in Ha as [<- <-]. by vm_compute.
    + intros p t a Hp Ha. simpl in Hp. apply lookup_singleton_Some in Hp as [<- <-].
      unfold ptrs, CredDemo.t0 in Ha. simpl in Ha. rewrite !ind_Some in Ha. unfold ind in Ha.
      destruct (decide (a = 10%nat)) as [->|]; [done|lia].
    + intros a. split; [set_solver|]. intros (c & Ha & Hz). simpl in Ha.
      by apply lookup_singleton_Some in Ha as [<- <-].
    + done.
  - destruct CredDemo.k0_env as (Ha & Hb & Hc). split_and!; [exact Ha|exact Hb|].
    intros a c Hx. simpl in Hx. apply lookup_singleton_Some in Hx as [<- <-]. vm_compute. eauto.
  - by exists CredDemo.t0.
  - apply (held_add_ext _ (λ a, if decide (a = 0%nat) then 1 else 0)); [|apply uid_cache_init_ok].
    intros u. unfold user_refs. cbn [creds]. rewrite <- insert_empty, mcount_insert_new by done.
    unfold mcount, ind. rewrite map_filter_empty, map_size_empty. simpl. repeat case_decide; by subst.
Qed.

Definition demo_k : kstate :=
  KState {[ 10%nat := CredDemo.c0 ]} [] {[ 0%nat := CredDemo.t0 ]} 0 (uid_cache_init false 0) Demo.st0.

Lemma demo_fix new old f new' :
  security_task_fix_setuid new old f = inr new' →
  ids_of new' = ids_of new ∧ usage new' = usage new ∧ user new' = user new ∧ user_ns new' = user_ns new.
Proof. intros [= <-]. done. Qed.

Lemma setid_refinement_witness :
  ∃ v k', do_call false 10 0 65534 65534 demo_k (SetResuid 0 0 0) (Some 11%nat) None = Some (v, k') ∧
    outcome false (λ _, 0) (λ _, 0) Demo.st0 10 CredDemo.c0
      (refused demo_k (Some 11%nat) None CredDemo.c0 (inr (ids_of CredDemo.c0))) false 0
      (inr (ids_of CredDemo.c0)) v k'.
Proof.
  apply (setid_refinement false 10 0 65534 65534 (λ _, 0) demo_fix (λ _, 0) demo_k (Some 11%nat) None 10 CredDemo.c0
    init_user_ns (SetResuid 0 0 0)); [apply demo_settled|by intros a [= <-]|done|done].
Defined.

Lemma setid_no_gain_witness :
  ∃ k' a' c', rtc (id_step false 10 0 65534 65534) demo_k k' ∧ settled false (λ _, 0) (λ _, 0) k' a' c' ∧
    within (ids_of CredDemo.c0) (ids_of c').
Proof.
  destruct (do_call false 10 0 65534 65534 demo_k (SetUid 0) (Some 11%nat) None) as [[v k']|] eqn:E;
    [|by vm_compute in E].
  assert (rtc (id_step false 10 0 65534 65534) demo_k k') as Hr.
  { eapply rtc_once, (do_step _ _ _ _ _ _ _ (SetUid 0) (Some 11%nat) None v); [by intros a [= <-]|done|exact E]. }
  destruct (setid_no_gain false 10 0 65534 65534 (λ _, 0) demo_fix (λ _, 0) demo_k 10 CredDemo.c0 k')
    as (a' & c' & Hst & Hw).
  - intros n x ns. cbn. unfold Demo.is_admin_of_own. apply bool_decide_eq_false. by intros [_ ?].
  - intros n x ns. cbn. unfold Demo.is_admin_of_own. apply bool_decide_eq_false. by intros [_ ?].
  - apply demo_settled.
  - exact Hr.
  - by exists k', a', c'.
Defined.

Lemma setresuid_getresuid_witness :
  ∃ v k', do_call false 10 0 65534 65534 demo_k (SetResuid 0 0 0) (Some 11%nat) None = Some (inr v, k') ∧
    sys_getresuid 65534 k' = Some (0, 0, 0).
Proof.
  destruct (do_call false 10 0 65534 65534 demo_k (SetResuid 0 0 0) (Some 11%nat) None) as [[[er|v] k']|] eqn:E.
  - exfalso. apply (f_equal (λ o, match o with Some (inl _, _) => true | _ => false end)) in E.
    by vm_compute in E.
  - exists v, k'. split; [done|].
    apply (setresuid_getresuid false 10 0 65534 65534 (λ _, 0) demo_fix (λ _, 0) demo_k (Some 11%nat) None 10
      CredDemo.c0 init_user_ns 0 0 0 v k');
      [apply demo_settled|by intros a [= <-]|done|done|by vm_compute|by vm_compute|by vm_compute|done|done|done|exact E].
  - exfalso. apply (f_equal (λ o, match o with None => true | _ => false end)) in E. by vm_compute in E.
Defined.
