(* ===== verification/Groups.v ===== *)
(** Groups: supplementary groups, kernel/groups.c.

    A group list is an array of kernel group ids, sorted when it is installed
    into credentials (a Shell sort with the strides 1, 4, 13, ...) and searched
    by bisection.  The pages behind a large list are modelled for the
    allocation; afterwards the list is its array.  User memory is a function
    from indices to values, [None] being a fault. *)

From S2P Require Import Prelude UserNs User CredOps SetId.

Local Open Scope Z_scope.

(** * Allocation *)

(** [struct group_info]: [blocks] is [None] when [blocks[0]] is [small_block],
    otherwise the pages. *)
Record ginfo := GInfo {
  gi_usage : Z;
  ngroups : nat;
  nblocks : nat;
  blocks : option (list nat);
  gids : list Z;
}.

Section alloc.
Context (NGROUPS_PER_BLOCK NGROUPS_SMALL : nat).

(** The loop of [groups_alloc] for [i], ..., [nblocks - 1]: [pages i] is the
    result of the [i]th [__get_free_page], [live] are the pages in use. *)
Fixpoint get_blocks (pages : nat → option nat) (i n : nat) (live : gset nat) (got : list nat)
    : bool * gset nat * list nat :=
  match n with
  | O => (true, live, got)
  | S n' =>
      match pages i with
      | None => (false, live, got)
      | Some b => get_blocks pages (S i) n' ({[b]} ∪ live) (got ++ [b])
      end
  end.

(** [while (--i >= 0) free_page(blocks[i])]; also the loop of [groups_free]. *)
Definition free_blocks (live : gset nat) (bs : list nat) : gset nat :=
  foldr (λ b l, l ∖ {[b]}) live bs.

(** [groups_alloc]; [kmalloc] tells whether the structure is allocated, [junk]
    is what the memory holds. *)
Definition groups_alloc (gidsetsize : nat) (kmalloc : bool) (pages : nat → option nat) (junk : list Z)
    (live : gset nat) : option ginfo * gset nat :=
  let nb := ((gidsetsize + NGROUPS_PER_BLOCK - 1) / NGROUPS_PER_BLOCK)%nat in
  let nb := if decide (nb = 0%nat) then 1%nat else nb in
  if negb kmalloc then (None, live)
  else if decide (gidsetsize ≤ NGROUPS_SMALL)%nat
  then (Some (GInfo 1 gidsetsize nb None (take gidsetsize junk)), live)
  else
    let '(ok, live', bs) := get_blocks pages 0 nb live [] in
    if ok then (Some (GInfo 1 gidsetsize nb (Some bs) (take gidsetsize junk)), live')
    else (None, free_blocks live' bs).

Definition groups_free (gi : ginfo) (live : gset nat) : gset nat :=
  match blocks gi with
  | None => live
  | Some bs => free_blocks live (take (nblocks gi) bs)
  end.
End alloc.

(** * Sorting and searching *)

(** [gid_gt], [gid_lt] (linux/uidgid.h) compare the values. *)

(** The inner [while] loop of [groups_sort]: shifts the elements greater than
    [tmp] by [stride]; the array and the final [right].  A shift is one unit of
    fuel. *)
Fixpoint shift_loop (fuel : nat) (a : list Z) (left right stride : Z) (tmp : Z) : option (list Z * Z) :=
  match fuel with
  | O => None
  | S fuel' =>
      if decide (0 ≤ left) then
        x ← a !! Z.to_nat left;
        if decide (tmp < x) then
          a' ← aset a (Z.to_nat right) x;
          shift_loop fuel' a' (left - stride) left stride tmp
        else Some (a, right)
      else Some (a, right)
  end.

(** One round of the [for] loop, and the loop for [base], ..., [max - 1]. *)
Definition insert_round (a : list Z) (base stride : Z) : option (list Z) :=
  let right := base + stride in
  tmp ← a !! Z.to_nat right;
  '(a', r) ← shift_loop (S (length a)) a base right stride tmp;
  aset a' (Z.to_nat r) tmp.

Fixpoint stride_pass (n : nat) (a : list Z) (base stride : Z) : option (list Z) :=
  match n with
  | O => Some a
  | S n' => a' ← insert_round a base stride; stride_pass n' a' (base + 1) stride
  end.

(** [for (stride = 1; stride < gidsetsize; stride = 3 * stride + 1);] *)
Fixpoint stride_up (fuel : nat) (stride n : Z) : option Z :=
  match fuel with
  | O => None
  | S fuel' => if decide (stride < n) then stride_up fuel' (3 * stride + 1) n else Some stride
  end.

Fixpoint stride_down (fuel : nat) (a : list Z) (stride : Z) : option (list Z) :=
  match fuel with
  | O => None
  | S fuel' =>
      if decide (stride = 0) then Some a
      else
        let max := Z.of_nat (length a) - stride in
        a' ← stride_pass (Z.to_nat max) a 0 stride;
        stride_down fuel' a' (Z.quot stride 3)
  end.

(** [groups_sort] on the array; the strides grow by a factor of three, so the
    size of the array is enough fuel. *)
Definition groups_sort (a : list Z) : option (list Z) :=
  stride ← stride_up (S (length a)) 1 (Z.of_nat (length a));
  stride_down (S (length a)) a (Z.quot stride 3).

(** The loop of [groups_search]. *)
Fixpoint search_loop (fuel : nat) (a : list Z) (left right : Z) (grp : Z) : option bool :=
  match fuel with
  | O => None
  | S fuel' =>
      if decide (left < right) then
        let mid := u32 (left + right) / 2 in
        x ← a !! Z.to_nat mid;
        if decide (x < grp) then search_loop fuel' a (mid + 1) right grp
        else if decide (grp < x) then search_loop fuel' a left mid grp
        else Some true
      else Some false
  end.

Definition groups_search (gi : option ginfo) (grp : Z) : option bool :=
  match gi with
  | None => Some false
  | Some g => search_loop (S (ngroups g)) (gids g) 0 (Z.of_nat (ngroups g)) grp
  end.

(** * Installing and reading group lists *)

Abbreviation gstore := (gmap nat ginfo).

Definition with_gusage (g : ginfo) (n : Z) : ginfo := GInfo n (ngroups g) (nblocks g) (blocks g) (gids g).
Definition with_gids_list (g : ginfo) (l : list Z) : ginfo :=
  GInfo (gi_usage g) (ngroups g) (nblocks g) (blocks g) l.

(** linux/cred.h: references on group lists; the last one frees the list.  The
    state is the store and the pages in use. *)
Class GroupRefs := {
  get_group_info : gstore → nat → option gstore;
  put_group_info : gstore → gset nat → nat → option (gstore * gset nat);
  get_group_info_spec gs a g : gs !! a = Some g →
    get_group_info gs a = Some (<[a := with_gusage g (gi_usage g + 1)]> gs);
  put_group_info_spec gs live a g : gs !! a = Some g →
    put_group_info gs live a =
      if decide (gi_usage g - 1 = 0) then Some (base.delete a gs, groups_free g live)
      else Some (<[a := with_gusage g (gi_usage g - 1)]> gs, live);
}.

Definition set_group_ptr (a : nat) (c : cred) : cred :=
  Cred (usage c) (uid c) (gid c) (suid c) (sgid c) (euid c) (egid c) (fsuid c) (fsgid c) (securebits c)
    (cap_inheritable c) (cap_permitted c) (cap_effective c) (cap_bset c) (user c) (user_ns c) a.

(** The loop of [groups_from_user] from [i] on: the ids stored so far are [acc]. *)
Fixpoint from_user_loop (ns : user_namespace) (user : nat → option Z) (i n : nat) (acc : list Z)
    : errno + list Z :=
  match n with
  | O => inr acc
  | S n' =>
      match user i with
      | None => inl EFAULT
      | Some gid =>
          let kgid := make_kgid ns gid in
          if negb (id_valid kgid) then inl EINVAL else from_user_loop ns user (S i) n' (acc ++ [kgid])
      end
  end.

Definition groups_from_user (ns : user_namespace) (gi : ginfo) (user : nat → option Z) : errno + ginfo :=
  match from_user_loop ns user 0 (ngroups gi) [] with
  | inl e => inl e
  | inr l => inr (with_gids_list gi l)
  end.

(** The loop of [groups_to_user]: what is written to user memory; [fault i]
    tells that the [i]th write fails. *)
Fixpoint to_user_loop (overflowgid : Z) (ns : user_namespace) (fault : nat → bool) (i : nat) (l : list Z)
    : errno + list Z :=
  match l with
  | [] => inr []
  | kgid :: l' =>
      if fault i then inl EFAULT
      else match to_user_loop overflowgid ns fault (S i) l' with
           | inl e => inl e
           | inr out => inr (from_kgid_munged overflowgid ns kgid :: out)
           end
  end.

Definition groups_to_user (overflowgid : Z) (ns : user_namespace) (fault : nat → bool) (gi : ginfo)
    : errno + list Z :=
  to_user_loop overflowgid ns fault 0 (take (ngroups gi) (gids gi)).

Section calls.
Context `{Security, Refs, CredHooks, GroupRefs}.
Context (CONFIG_BASE_SMALL : bool) (overflowgid : Z).
Context (NGROUPS_MAX : Z) (NGROUPS_PER_BLOCK NGROUPS_SMALL : nat).

(** [set_groups] on the credentials at [new]. *)
Definition set_groups (k : kstate) (gs : gstore) (live : gset nat) (new gi : nat)
    : option (kstate * gstore * gset nat) :=
  newc ← creds k !! new;
  '(gs1, live1) ← put_group_info gs live (group_info newc);
  g ← gs1 !! gi;
  l ← groups_sort (gids g);
  gs3 ← get_group_info (<[gi := with_gids_list g l]> gs1) gi;
  Some (change k new (set_group_ptr gi), gs3, live1).

(** [set_current_groups]; a step of the copy, [get_group_info] of
    [prepare_creds], is written out.  When the security module refuses the copy, the
    code drops that reference again only when RCU runs [put_cred_rcu]; here it is as if
    it had run. *)
Definition set_current_groups (k : kstate) (gs : gstore) (live : gset nat) (alloc : option nat) (gi : nat)
    : option (ret * kstate * gstore * gset nat) :=
  '(r, k1) ← prepare_creds k alloc;
  match r with
  | None => Some (Err ENOMEM, k1, gs, live)
  | Some new =>
      newc ← creds k1 !! new;
      gs1 ← get_group_info gs (group_info newc);
      '(k2, gs2, live2) ← set_groups k1 gs1 live new gi;
      k3 ← commit_creds k2 new;
      Some (Ok, k3, gs2, live2)
  end.

(** The memory the call gets: the address of the new list ([None]: no memory),
    the pages, the old contents, and the new credentials. *)
Record gmem := GMem {
  m_addr : option nat;
  m_pages : nat → option nat;
  m_junk : list Z;
  m_cred : option nat;
}.

Definition sys_setgroups (k : kstate) (gs : gstore) (live : gset nat) (m : gmem)
    (gidsetsize : Z) (user : nat → option Z) : option (ret * kstate * gstore * gset nat) :=
  '(_, cur) ← current_cred k;
  '((ok, k) : bool * kstate) ← capable_in k (user_ns cur) CAP_SETGID;
  if negb ok then Some (Err EPERM, k, gs, live) else
  if decide (NGROUPS_MAX < u32 gidsetsize) then Some (Err EINVAL, k, gs, live) else
  let '(r, live1) := groups_alloc NGROUPS_PER_BLOCK NGROUPS_SMALL (Z.to_nat (u32 gidsetsize))
    (match m_addr m with Some _ => true | None => false end) (m_pages m) (m_junk m) live in
  match r, m_addr m with
  | Some gi, Some a =>
      ns ← nss k !! user_ns cur;
      match groups_from_user ns gi user with
      | inl e =>
          '(gs1, live2) ← put_group_info (<[a := gi]> gs) live1 a;
          Some (Err e, k, gs1, live2)
      | inr gi' =>
          '(rv, k1, gs1, live2) ← set_current_groups k (<[a := gi']> gs) live1 (m_cred m) a;
          '(gs2, live3) ← put_group_info gs1 live2 a;
          Some (rv, k1, gs2, live3)
      end
  | _, _ => Some (Err ENOMEM, k, gs, live1)
  end.

(** [getgroups]: the return value and what was written. *)
Definition sys_getgroups (k : kstate) (gs : gstore) (gidsetsize : Z) (fault : nat → bool)
    : option ((errno + Z) * list Z) :=
  '(_, c) ← current_cred k;
  ns ← nss k !! user_ns c;
  if decide (gidsetsize < 0) then Some (inl EINVAL, []) else
  g ← gs !! group_info c;
  let i := Z.of_nat (ngroups g) in
  if decide (gidsetsize = 0) then Some (inr i, [])
  else if decide (gidsetsize < i) then Some (inl EINVAL, [])
  else match groups_to_user overflowgid ns fault g with
       | inl _ => Some (inl EFAULT, [])
       | inr out => Some (inr i, out)
       end.

Definition in_group_p (k : kstate) (gs : gstore) (grp : Z) : option bool :=
  '(_, c) ← current_cred k;
  if decide (grp = fsgid c) then Some true else groups_search (gs !! group_info c) grp.

Definition in_egroup_p (k : kstate) (gs : gstore) (grp : Z) : option bool :=
  '(_, c) ← current_cred k;
  if decide (grp = egid c) then Some true else groups_search (gs !! group_info c) grp.
End calls.

(** * The sort *)

Lemma insert_perm (l : list Z) i x y : l !! i = Some x → Permutation (y :: l) (x :: <[i := y]> l).
Proof.
  intros Hi. rewrite (insert_split l i y x Hi).
  rewrite <- (take_drop_middle l i x Hi) at 1.
  rewrite <- !Permutation_middle. constructor.
Qed.

(** Moving the hole: [x] moves from [i] to [j], [tmp] takes its place. *)
Lemma hole_perm (a : list Z) i j x tmp :
  (j < length a)%nat → i ≠ j → a !! i = Some x →
  Permutation (<[i := tmp]> (<[j := x]> a)) (<[j := tmp]> a).
Proof.
  intros Hj Hne Hi. set (b := <[j := tmp]> a).
  assert (b !! j = Some tmp) as Hbj by by apply list_lookup_insert_eq.
  assert (<[j := x]> a = <[j := x]> b) as -> by (unfold b; by rewrite list_insert_insert_eq).
  pose proof (insert_perm b j tmp x Hbj) as H1.
  assert (<[j := x]> b !! i = Some x) as Hi'.
  { rewrite list_lookup_insert_ne by done. unfold b. by rewrite list_lookup_insert_ne. }
  pose proof (insert_perm (<[j := x]> b) i x tmp Hi') as H2.
  rewrite H2 in H1. by apply Permutation_cons_inv in H1.
Qed.

Lemma shift_loop_perm fuel a left stride tmp :
  0 < stride → 0 ≤ left + stride < Z.of_nat (length a) → left + 1 < Z.of_nat fuel → (0 < fuel)%nat →
  ∃ a' r, shift_loop fuel a left (left + stride) stride tmp = Some (a', r) ∧
    0 ≤ r < Z.of_nat (length a) ∧ length a' = length a ∧
    Permutation (<[Z.to_nat r := tmp]> a') (<[Z.to_nat (left + stride) := tmp]> a).
Proof.
  intros Hs. revert a left. induction fuel as [|fuel IH]; intros a left Hr Hf Hf0; [lia|].
  cbn [shift_loop]. case_decide as Hl; [|by eexists _, _].
  destruct (lookup_lt_is_Some_2 a (Z.to_nat left)) as [x Hx]; [lia|]. rewrite Hx. cbn [mbind option_bind].
  case_decide as Hgt; [|by eexists _, _].
  rewrite aset_lt by lia. cbn [mbind option_bind].
  set (a1 := <[Z.to_nat (left + stride) := x]> a).
  assert (length a1 = length a) as Hlen by apply length_insert.
  destruct (IH a1 (left - stride)) as (a' & r & E & Hr' & Hlen' & Hp); [lia|lia|lia|].
  replace (left - stride + stride) with left in * by lia.
  exists a', r. rewrite Hlen in Hr'. split_and!; [done|lia|lia|congruence|].
  rewrite Hp. apply hole_perm; [lia|lia|done].
Qed.

Lemma insert_round_perm a base stride :
  0 < stride → 0 ≤ base → base + stride < Z.of_nat (length a) →
  ∃ a', insert_round a base stride = Some a' ∧ Permutation a' a.
Proof.
  intros Hs Hb Hl. unfold insert_round.
  destruct (lookup_lt_is_Some_2 a (Z.to_nat (base + stride))) as [tmp Ht]; [lia|]. rewrite Ht.
  cbn [mbind option_bind].
  destruct (shift_loop_perm (S (length a)) a base stride tmp) as (a' & r & -> & Hr & Hlen & Hp); [lia..|].
  cbn [mbind option_bind]. rewrite aset_lt by lia. eexists. split; [done|].
  rewrite Hp. by rewrite list_insert_id.
Qed.

Lemma stride_pass_perm n a base stride :
  0 < stride → 0 ≤ base → base + Z.of_nat n + stride ≤ Z.of_nat (length a) →
  ∃ a', stride_pass n a base stride = Some a' ∧ Permutation a' a.
Proof.
  intros Hs. revert a base. induction n as [|n IH]; intros a base Hb Hl; [by eexists|].
  cbn [stride_pass]. destruct (insert_round_perm a base stride) as (a1 & -> & Hp1); [lia..|].
  cbn [mbind option_bind]. pose proof (Permutation_length Hp1) as Hlen.
  destruct (IH a1 (base + 1)) as (a2 & -> & Hp2); [lia|lia|]. eexists. split; [done|]. by rewrite Hp2.
Qed.

(** The last stride is 1: an insertion sort. *)

Definition sorted_upto (a : list Z) (n : nat) : Prop :=
  ∀ i j x y, (i < j < n)%nat → a !! i = Some x → a !! j = Some y → x ≤ y.

(** Up to [m], [a] is sorted but for the hole at [h], and [tmp] belongs at or
    before the hole. *)
Definition holed (a : list Z) (h m : nat) (tmp : Z) : Prop :=
  (∀ i j x y, (i < j ≤ m)%nat → i ≠ h → j ≠ h → a !! i = Some x → a !! j = Some y → x ≤ y) ∧
  (∀ j y, (h < j ≤ m)%nat → a !! j = Some y → tmp ≤ y).

Lemma shift_loop_sorted fuel a left m tmp a' r :
  0 ≤ left + 1 ≤ Z.of_nat m → (m < length a)%nat → holed a (Z.to_nat (left + 1)) m tmp →
  shift_loop fuel a left (left + 1) 1 tmp = Some (a', r) →
  sorted_upto (<[Z.to_nat r := tmp]> a') (S m).
Proof.
  revert a left. induction fuel as [|fuel IH]; intros a left Hl Hm [Hs Ht] E; [done|].
  cbn [shift_loop] in E.
  assert (∀ a'' , (∀ i x, (i < Z.to_nat (left + 1))%nat → a !! i = Some x → x ≤ tmp) → a'' = a →
    sorted_upto (<[Z.to_nat (left + 1) := tmp]> a'') (S m)) as Hdone.
  { intros a'' Hle -> i j x y Hij. rewrite !list_lookup_insert_Some.
    intros [(Ei & -> & _)|[Ei Hx]] [(Ej & -> & _)|[Ej Hy]].
    - lia.
    - eapply Ht; [|done]. lia.
    - eapply Hle; [|done]. lia.
    - eapply (Hs i j); [lia|lia|lia|done..]. }
  destruct (decide (0 ≤ left)) as [Hl0|Hl0]; cycle 1.
  { injection E as <- <-. apply Hdone; [|done]. intros i x Hi. lia. }
  destruct (a !! Z.to_nat left) as [v|] eqn:Hv; [|done]. cbn [mbind option_bind] in E.
  destruct (decide (tmp < v)) as [Hgt|Hgt]; cycle 1.
  { injection E as <- <-. apply Hdone; [|done]. intros i x Hi Hx.
    destruct (decide (i = Z.to_nat left)) as [->|]; [simplify_eq; lia|].
    enough (x ≤ v) by lia. eapply (Hs i (Z.to_nat left)); [lia|lia|lia|done..]. }
  rewrite aset_lt in E by lia. cbn [mbind option_bind] in E.
  apply (IH (<[Z.to_nat (left + 1) := v]> a) (left - 1)); rewrite ?length_insert;
    replace (left - 1 + 1) with left by lia; [lia|done| |done]. split.
  - intros i j x y Hij Hi Hj. rewrite !list_lookup_insert_Some.
    intros [(Ei & -> & _)|[Ei Hx]] [(Ej & -> & _)|[Ej Hy]].
    + lia.
    + eapply (Hs (Z.to_nat left) j); [lia|lia|lia|done..].
    + eapply (Hs i (Z.to_nat left)); [lia|lia|lia|done..].
    + eapply (Hs i j); [lia|lia|lia|done..].
  - intros j y Hj. rewrite list_lookup_insert_Some. intros [(Ej & -> & _)|[Ej Hy]]; [lia|].
    eapply Ht; [|done]. lia.
Qed.

Lemma insert_round_sorted a base a' :
  0 ≤ base → base + 1 < Z.of_nat (length a) → sorted_upto a (S (Z.to_nat base)) →
  insert_round a base 1 = Some a' → sorted_upto a' (S (Z.to_nat (base + 1))).
Proof.
  intros Hb Hl Hs E. unfold insert_round in E.
  destruct (a !! Z.to_nat (base + 1)) as [tmp|]; [|done]. cbn [mbind option_bind] in E.
  destruct (shift_loop _ _ _ _ _ _) as [[a1 r]|] eqn:E1; [|done]. cbn [mbind option_bind] in E.
  apply aset_Some in E as [_ ->].
  eapply shift_loop_sorted; [..|exact E1]; [lia|lia|]. split.
  - intros i j x y Hij Hi Hj. apply (Hs i j). lia.
  - intros j y Hj. lia.
Qed.

Lemma stride_pass_sorted n a base a' :
  0 ≤ base → base + Z.of_nat n + 1 ≤ Z.of_nat (length a) → sorted_upto a (S (Z.to_nat base)) →
  stride_pass n a base 1 = Some a' → sorted_upto a' (S (Z.to_nat base + n)).
Proof.
  revert a base. induction n as [|n IH]; intros a base Hb Hl Hs E.
  { injection E as <-. by rewrite Nat.add_0_r. }
  cbn [stride_pass] in E. destruct (insert_round_perm a base 1) as (a1 & E1 & Hp); [lia..|].
  rewrite E1 in E. cbn [mbind option_bind] in E. pose proof (Permutation_length Hp) as Hlen.
  apply IH in E; [|lia|lia|eapply (insert_round_sorted a base); [lia|lia|done|done]].
  replace (S (Z.to_nat base + S n)) with (S (Z.to_nat (base + 1) + n)) by lia. done.
Qed.

(** The strides. *)
Inductive Stride : Z → Prop :=
  | stride_one : Stride 1
  | stride_next s : Stride s → Stride (3 * s + 1).

Lemma Stride_pos s : Stride s → 0 < s.
Proof. induction 1; lia. Qed.

Lemma Stride_quot s : Stride s → Z.quot s 3 = 0 ∧ s = 1 ∨ Stride (Z.quot s 3) ∧ Z.quot s 3 < s.
Proof.
  intros H. destruct H as [|s Hs]; [by left|right]. pose proof (Stride_pos s Hs).
  assert (Z.quot (3 * s + 1) 3 = s) as ->; [|split; [done|lia]].
  rewrite Z.quot_div_nonneg by lia. symmetry. apply (Z.div_unique_pos _ _ _ 1); lia.
Qed.

Lemma stride_up_spec fuel s n :
  Stride s → n - s < Z.of_nat fuel → (0 < fuel)%nat → Z.quot s 3 < Z.max 1 n →
  ∃ s', stride_up fuel s n = Some s' ∧ Stride s' ∧ n ≤ s' ∧ Z.quot s' 3 < Z.max 1 n.
Proof.
  revert s. induction fuel as [|fuel IH]; intros s Hs Hf H0 Hq; [lia|].
  cbn [stride_up]. pose proof (Stride_pos s Hs). case_decide.
  - apply IH; [by constructor|lia|lia|].
    rewrite Z.quot_div_nonneg by lia.
    assert ((3 * s + 1) / 3 = s) as -> by (symmetry; apply (Z.div_unique_pos _ _ _ 1); lia). lia.
  - eexists. split_and!; [done..|lia|done].
Qed.

Lemma stride_down_spec fuel a s :
  Stride s → s < Z.of_nat fuel →
  ∃ a', stride_down fuel a s = Some a' ∧ Permutation a' a ∧ sorted_upto a' (length a').
Proof.
  intros Hs. revert a s Hs. induction fuel as [|fuel IH]; intros a s Hs Hf.
  { pose proof (Stride_pos s Hs). lia. }
  cbn [stride_down]. pose proof (Stride_pos s Hs). rewrite decide_False by lia.
  assert (∃ a1, stride_pass (Z.to_nat (Z.of_nat (length a) - s)) a 0 s = Some a1 ∧ Permutation a1 a) as (a1 & E1 & Hp1).
  { destruct (decide (s ≤ Z.of_nat (length a))); [apply stride_pass_perm; lia|].
    replace (Z.to_nat (Z.of_nat (length a) - s)) with 0%nat by lia. by exists a. }
  rewrite E1. cbn [mbind option_bind]. destruct (Stride_quot s Hs) as [[-> ->]|[Hq Hlt]].
  - destruct fuel as [|fuel]; [lia|]. cbn [stride_down]. rewrite decide_True by done.
    exists a1. split_and!; [done..|].
    pose proof (Permutation_length Hp1) as Hlen. destruct (decide (length a = 0%nat)) as [Hz|Hz].
    { intros i j x y Hij. lia. }
    apply stride_pass_sorted in E1; [|lia|lia|intros i j x y Hij; lia].
    replace (length a1) with (S (Z.to_nat 0 + Z.to_nat (Z.of_nat (length a) - 1))) by lia. done.
  - destruct (IH a1 (Z.quot s 3) Hq) as (a2 & -> & Hp2 & Hs2); [lia|].
    exists a2. split_and!; [done|by rewrite Hp2|done].
Qed.

Lemma sorted_upto_StronglySorted a : sorted_upto a (length a) → StronglySorted Z.le a.
Proof.
  induction a as [|x a IH]; intros Hs; [constructor|]. constructor.
  - apply IH. intros i j u v Hij Hi Hj. apply (Hs (S i) (S j)); [simpl; lia|done..].
  - apply Forall_lookup. intros i y Hy. apply (Hs 0%nat (S i)); [|done..].
    simpl. apply lookup_lt_Some in Hy. lia.
Qed.

Lemma groups_sort_spec a :
  ∃ a', groups_sort a = Some a' ∧ Permutation a' a ∧ StronglySorted Z.le a'.
Proof.
  unfold groups_sort.
  destruct (stride_up_spec (S (length a)) 1 (Z.of_nat (length a))) as (s & -> & Hs & Hn & Hq);
    [constructor|lia|lia|by change (Z.quot 1 3) with 0; lia|].
  cbn [mbind option_bind]. destruct (Stride_quot s Hs) as [[-> Hs1]|[Hq' Hlt]].
  - cbn [stride_down]. rewrite decide_True by done. exists a. split_and!; [done..|].
    apply sorted_upto_StronglySorted. intros i j x y Hij. lia.
  - destruct (stride_down_spec (S (length a)) a (Z.quot s 3) Hq') as (a' & -> & Hp & Hs').
    { pose proof (Stride_pos _ Hq'). lia. }
    exists a'. split_and!; [done..|]. by apply sorted_upto_StronglySorted.
Qed.

(** the Shell sort sorts: for every array it ends without leaving the array
    and returns the same ids in ascending order. *)
Theorem groups_sort_correct a :
  ∃ a', groups_sort a = Some a' ∧ Permutation a' a ∧ StronglySorted Z.le a'.
Proof. apply groups_sort_spec. Qed.

(** * The search *)

Lemma StronglySorted_lookup (a : list Z) i j x y :
  StronglySorted Z.le a → (i ≤ j)%nat → a !! i = Some x → a !! j = Some y → x ≤ y.
Proof.
  intros Hs. revert i j. induction Hs as [|v a Hs IH Hv]; intros i j Hij Hi Hj; [done|].
  destruct i as [|i], j as [|j]; simpl in *; [simplify_eq; lia| |lia|by apply (IH i j); [lia|..]].
  injection Hi as <-. rewrite Forall_forall in Hv. apply Hv. by eapply list_elem_of_lookup_2.
Qed.

Lemma search_loop_spec fuel a left right grp :
  StronglySorted Z.le a → 0 ≤ left → left ≤ right ≤ Z.of_nat (length a) →
  Z.of_nat (length a) < 2 ^ 31 → right - left < Z.of_nat fuel →
  (∀ i x, Z.of_nat i < left → a !! i = Some x → x < grp) →
  (∀ i x, right ≤ Z.of_nat i → a !! i = Some x → grp < x) →
  search_loop fuel a left right grp = Some (bool_decide (grp ∈ a)).
Proof.
  intros Hs. revert left right. induction fuel as [|fuel IH]; intros left right H0 Hlr Hn Hf Hlo Hhi; [lia|].
  cbn [search_loop]. destruct (decide (left < right)) as [Hlt|Hlt].
  - rewrite wrap_small by width.
    assert (left ≤ (left + right) / 2 < right) as Hmid.
    { dlia. }
    set (mid := (left + right) / 2) in *.
    destruct (lookup_lt_is_Some_2 a (Z.to_nat mid)) as [x Hx]; [lia|]. rewrite Hx. cbn [mbind option_bind].
    destruct (decide (x < grp)) as [H1|H1]; [|destruct (decide (grp < x)) as [H2|H2]].
    + apply IH; [lia|lia|done|lia| |done]. intros i y Hi Hy.
      enough (y ≤ x) by lia. eapply (StronglySorted_lookup a i (Z.to_nat mid)); [done|lia|done..].
    + apply IH; [lia|lia|done|lia|done|]. intros i y Hi Hy.
      enough (x ≤ y) by lia. eapply (StronglySorted_lookup a (Z.to_nat mid) i); [done|lia|done..].
    + rewrite bool_decide_eq_true_2; [done|]. assert (grp = x) as -> by lia. by eapply list_elem_of_lookup_2.
  - rewrite bool_decide_eq_false_2; [done|]. intros [i Hi]%list_elem_of_lookup.
    destruct (decide (Z.of_nat i < left)); [specialize (Hlo i grp)|specialize (Hhi i grp)]; naive_solver lia.
Qed.

Lemma groups_search_spec g grp :
  ngroups g = length (gids g) → StronglySorted Z.le (gids g) → Z.of_nat (ngroups g) < 2 ^ 31 →
  groups_search (Some g) grp = Some (bool_decide (grp ∈ gids g)).
Proof.
  intros Hn Hs Hb. unfold groups_search. rewrite Hn in *. apply search_loop_spec; try done; try lia.
  intros i x Hi Hx. apply lookup_lt_Some in Hx. lia.
Qed.

(** on a sorted list the bisection answers membership exactly, inside the
    array and without overflow. *)
Theorem groups_search_correct g grp :
  ngroups g = length (gids g) → StronglySorted Z.le (gids g) → Z.of_nat (ngroups g) < 2 ^ 31 →
  groups_search (Some g) grp = Some (bool_decide (grp ∈ gids g)).
Proof. apply groups_search_spec. Qed.

Lemma groups_search_correct_witness :
  groups_search (Some (GInfo 1 3 1 None [2; 5; 9])) 5 = Some (bool_decide (5 ∈ [2; 5; 9])).
Proof. apply groups_search_correct; [done|repeat constructor; lia|simpl; pow2; lia]. Defined.

(** * Allocation *)

Lemma free_blocks_app live bs b : free_blocks ({[b]} ∪ live) (bs ++ [b]) = free_blocks (live ∖ {[b]}) bs.
Proof. unfold free_blocks. rewrite foldr_app. simpl. f_equal. set_solver. Qed.

Lemma get_blocks_spec pages i n live0 live got ok live' got' :
  (∀ j b, pages j = Some b → b ∉ live0) →
  (∀ j j' b, pages j = Some b → pages j' = Some b → j = j') →
  (∀ b, b ∈ got → ∃ j, (j < i)%nat ∧ pages j = Some b) →
  live = list_to_set got ∪ live0 →
  get_blocks pages i n live got = (ok, live', got') →
  live' = list_to_set got' ∪ live0 ∧ (∀ b, b ∈ got' → b ∉ live0) ∧
  (ok = true → length got' = (length got + n)%nat).
Proof.
  intros Hf Hinj. revert i live got. induction n as [|n IH]; intros i live got Hg -> E; simpl in E.
  { injection E as <- <- <-. split_and!; [done| |lia]. intros b Hb. destruct (Hg b Hb) as (j & _ & Hj). eauto. }
  destruct (pages i) as [b|] eqn:Hb; cycle 1.
  { injection E as <- <- <-. split_and!; [done| |done]. intros b Hbb. destruct (Hg b Hbb) as (j & _ & Hj). eauto. }
  apply IH in E as (-> & Hn & Hl).
  - split_and!; [done..|]. intros Ho. rewrite (Hl Ho), length_app. simpl. lia.
  - intros x [Hx| ->%list_elem_of_singleton]%elem_of_app; [|by exists i; split; [lia|]].
    destruct (Hg x Hx) as (j & ? & ?). exists j. split; [lia|done].
  - rewrite list_to_set_app_L. simpl. set_solver.
Qed.

Lemma free_blocks_all live bs :
  (∀ b, b ∈ bs → b ∉ live) → free_blocks (list_to_set bs ∪ live) bs = live.
Proof.
  intros Hd. unfold free_blocks.
  assert (∀ l cs, foldr (λ b (l : gset nat), l ∖ {[b]}) l cs = l ∖ list_to_set cs) as ->.
  { intros l cs. induction cs as [|c cs IH]; simpl; [set_solver|]. rewrite IH. set_solver. }
  apply set_eq. intros x. rewrite elem_of_difference, elem_of_union, !elem_of_list_to_set. naive_solver.
Qed.

(** an allocation that fails half way leaks no page, and freeing an
    allocated list gives back exactly its pages. *)
Theorem groups_alloc_free per_block small sz kmalloc pages junk live r live' :
  (∀ j b, pages j = Some b → b ∉ live) →
  (∀ j j' b, pages j = Some b → pages j' = Some b → j = j') →
  groups_alloc per_block small sz kmalloc pages junk live = (r, live') →
  match r with
  | None => live' = live
  | Some gi => gi_usage gi = 1 ∧ ngroups gi = sz ∧ groups_free gi live' = live
  end.
Proof.
  intros Hf Hinj E. unfold groups_alloc in E. destruct kmalloc; simpl in E; [|by injection E as <- <-].
  case_decide; [by injection E as <- <-|].
  destruct (get_blocks _ _ _ _ _) as [[ok live1] bs] eqn:Eb.
  apply (get_blocks_spec pages 0 _ live) in Eb as (-> & Hd & Hl); [|done|done|set_solver|set_solver].
  destruct ok; injection E as <- <-.
  - split_and!; [done..|]. unfold groups_free. simpl.
    rewrite take_ge; [by apply free_blocks_all|]. rewrite Hl by done. simpl. lia.
  - by apply free_blocks_all.
Qed.

Lemma groups_alloc_free_witness :
  (groups_alloc 2 1 5 true (λ i, if decide (i < 2)%nat then Some (10 + i)%nat else None) [] ∅).2 = ∅.
Proof.
  pose proof (groups_alloc_free 2 1 5 true
    (λ i, if decide (i < 2)%nat then Some (10 + i)%nat else None) [] ∅) as Hx.
  destruct (groups_alloc _ _ _ _ _ _ _) as [r live'] eqn:E.
  specialize (Hx r live'). destruct r as [gi|].
  - exfalso. apply (f_equal fst) in E. by vm_compute in E.
  - simpl. apply Hx; [set_solver| |done]. intros j j' b. repeat case_decide; intros [= <-] [= ?]; lia.
Defined.

(** * The system calls *)

Lemma from_user_loop_spec ns user i n acc l :
  from_user_loop ns user i n acc = inr l →
  ∃ us, length us = n ∧ (∀ j, (j < n)%nat → user (i + j)%nat = us !! j) ∧ l = acc ++ (make_kgid ns <$> us).
Proof.
  revert i acc. induction n as [|n IH]; intros i acc E; simpl in E.
  { injection E as <-. exists []. split_and!; [done|lia|by rewrite app_nil_r]. }
  destruct (user i) as [g|] eqn:Hg; [|done]. destruct (negb _); [done|].
  apply IH in E as (us & <- & Hus & ->). exists (g :: us). split_and!; [done| |].
  - intros [|j] Hj; [by rewrite Nat.add_0_r|]. simpl. rewrite <- Hus by lia. f_equal. lia.
  - by rewrite <- app_assoc.
Qed.

Section proofs.
Context `{Security, Refs, CredHooks, GroupRefs}.
Context (CONFIG_BASE_SMALL : bool) (overflowgid : Z).
(** References to user structures from elsewhere than credentials. *)
Context (extu : nat → Z).
Context (NGROUPS_MAX : Z) (NGROUPS_PER_BLOCK NGROUPS_SMALL : nat).

Lemma capable_settled ext k old oldc cp :
  settled CONFIG_BASE_SMALL extu ext k old oldc →
  ∃ k', capable_in k (user_ns oldc) cp = Some (security_capable (nss k) oldc (user_ns oldc) cp, k') ∧
    settled CONFIG_BASE_SMALL extu ext k' old oldc ∧ nss k' = nss k ∧ creds k' = creds k.
Proof.
  intros Hs. unfold capable_in. rewrite (settled_current _ _ _ _ _ _ Hs). cbn [mbind option_bind].
  destruct (security_capable _ _ _ _); [|by eauto].
  destruct Hs as [Hok Hnn Henv (t & Ht & Hr & Hc) Ho Hu Hxu Hnm]. rewrite Ht. cbn [mbind option_bind].
  eexists. split; [done|]. split; [|done]. split; try done.
  - apply (cred_ok_set_task _ _ k _ t _ Hok Ht).
    + intros a. unfold ptrs. simpl. lia.
    + intros a Ha. by apply (ok_ptr _ _ Hok _ t a Ht).
  - exists (set_superpriv t). simpl. by rewrite lookup_insert_eq.
Qed.

(** Installing the list at [a], which only the caller references. *)
Lemma set_current_groups_spec ext k gs live alloc a gi old oldc g0 :
  settled CONFIG_BASE_SMALL extu ext k old oldc → (∀ b, alloc = Some b → creds k !! b = None) →
  gs !! group_info oldc = Some g0 → 1 ≤ gi_usage g0 → gs !! a = Some gi → a ≠ group_info oldc →
  ∃ r k' gs', set_current_groups k gs live alloc a = Some (r, k', gs', live) ∧ nss k' = nss k ∧
    match r with
    | Ok => ∃ new c' l, settled CONFIG_BASE_SMALL extu ext k' new c' ∧ ids_of c' = ids_of oldc ∧
        user_ns c' = user_ns oldc ∧ group_info c' = a ∧
        groups_sort (gids gi) = Some l ∧
        gs' = <[a := GInfo (gi_usage gi + 1) (ngroups gi) (nblocks gi) (blocks gi) l]> gs
    | Err e => settled CONFIG_BASE_SMALL extu ext k' old oldc ∧ gs' = gs ∧ e = ENOMEM
    end.
Proof.
  intros Hs Hfresh Hg0 Hu0 Ha Hne. unfold set_current_groups.
  destruct (prepare_settled _ _ _ _ _ _ _ Hs Hfresh) as (r & k1 & -> & Hp). cbn [mbind option_bind].
  destruct r as [new|]; cycle 1.
  { destruct Hp as (Hst & Hn & _). by eexists _, _, _. }
  destruct Hp as [Hp _]. pose proof (pd_new _ _ _ _ _ _ _ _ _ Hp) as Hnew. rewrite Hnew. cbn [mbind option_bind].
  change (group_info (with_usage oldc 1)) with (group_info oldc).
  rewrite (get_group_info_spec _ _ _ Hg0). cbn [mbind option_bind].
  unfold set_groups. rewrite Hnew. cbn [mbind option_bind].
  change (group_info (with_usage oldc 1)) with (group_info oldc).
  erewrite put_group_info_spec by apply lookup_insert_eq. rewrite decide_False by (simpl; lia).
  cbn [mbind option_bind].
  rewrite insert_insert_eq. simpl.
  replace (with_gusage (with_gusage g0 (gi_usage g0 + 1)) (gi_usage g0 + 1 - 1)) with g0; cycle 1.
  { destruct g0. unfold with_gusage. simpl. f_equal. lia. }
  rewrite (insert_id gs) by done. rewrite Ha. cbn [mbind option_bind].
  destruct (groups_sort_spec (gids gi)) as (l & El & _). rewrite El. cbn [mbind option_bind].
  erewrite get_group_info_spec by apply lookup_insert_eq. cbn [mbind option_bind].
  eapply (change_pending _ _ _ _ _ _ _ _ _ (set_group_ptr a)) in Hp; [|done..].
  destruct (commit_pending _ _ _ _ _ _ _ _ _ Hp (pd_name _ _ _ _ _ _ _ _ _ Hp)) as (k' & n & Ec & Hst & Hn). unfold commit in Ec.
  destruct (commit_creds (change k1 new (set_group_ptr a)) new) as [k2|]; [|done].
  injection Ec as ->. cbn [mbind option_bind]. eexists Ok, _, _. split; [done|]. split; [done|].
  eexists new, _, l. split; [exact Hst|]. split_and!; try done. by rewrite insert_insert_eq.
Qed.

(** The state after a successful [setgroups] of the ids [us]. *)
Definition groups_set (ext : nat → Z) (oldc : cred) (ns : user_namespace) (us : list Z)
    (k' : kstate) (gs' : gstore) : Prop :=
  ∃ new c' g, settled CONFIG_BASE_SMALL extu ext k' new c' ∧ ids_of c' = ids_of oldc ∧
    gs' !! group_info c' = Some g ∧ gi_usage g = 1 ∧ ngroups g = length us ∧
    Permutation (gids g) (make_kgid ns <$> us) ∧ StronglySorted Z.le (gids g) ∧
    ∀ grp, in_group_p k' gs' grp = Some (bool_decide (grp = fsgid oldc ∨ grp ∈ make_kgid ns <$> us)).

(** C33: a successful [setgroups] makes the process a member of exactly the
    groups it asked for: [in_group_p] answers for its file system group and
    the given ids and nothing else, and its list is sorted and referenced once.
    Without CAP_SETGID, with too many groups, with an id that maps to nothing,
    on a fault or without memory the credentials and the group list are as
    before. *)
Theorem setgroups_correct ext k gs live m size user old oldc ns g0 a :
  settled CONFIG_BASE_SMALL extu ext k old oldc → nss k !! user_ns oldc = Some ns →
  gs !! group_info oldc = Some g0 → 1 ≤ gi_usage g0 →
  m_addr m = Some a → gs !! a = None → (∀ b, m_cred m = Some b → creds k !! b = None) →
  0 ≤ NGROUPS_MAX < 2 ^ 31 →
  ∃ r k' gs' live',
    sys_setgroups NGROUPS_MAX NGROUPS_PER_BLOCK NGROUPS_SMALL k gs live m size user = Some (r, k', gs', live') ∧
    match r with
    | Ok => security_capable (nss k) oldc (user_ns oldc) CAP_SETGID = true ∧ u32 size ≤ NGROUPS_MAX ∧
        ∃ us, Z.of_nat (length us) = u32 size ∧ (∀ i, (i < length us)%nat → user i = us !! i) ∧
          groups_set ext oldc ns us k' gs'
    | Err _ => settled CONFIG_BASE_SMALL extu ext k' old oldc ∧ gs' = gs
    end.
Proof.
  intros Hs Hns Hg0 Hu0 Ha Hfa Hfc HM. unfold sys_setgroups. rewrite (settled_current _ _ _ _ _ _ Hs).
  cbn [mbind option_bind].
  destruct (capable_settled _ _ _ _ CAP_SETGID Hs) as (k1 & -> & Hs1 & Hn1 & Hc1). cbn [mbind option_bind].
  destruct (security_capable _ _ _ _); [|by eexists _, _, _, _]. cbn [negb].
  case_decide; [by eexists _, _, _, _|]. rewrite Ha.
  pose proof (u32_range size) as Hsz. unfold in_width in Hsz.
  destruct (groups_alloc _ _ _ _ _ _ _) as [[gi|] live1] eqn:Ealloc; [|by eexists _, _, _, _].
  assert (gi_usage gi = 1 ∧ ngroups gi = Z.to_nat (u32 size)) as [Hgu Hgn].
  { unfold groups_alloc in Ealloc. simpl in Ealloc. case_decide; [by injection Ealloc as <- _|].
    destruct (get_blocks _ _ _ _ _) as [[[] ?] ?]; by injection Ealloc as <- _ || done. }
  rewrite Hn1, Hns. cbn [mbind option_bind]. unfold groups_from_user.
  destruct (from_user_loop _ _ _ _ _) as [e|l] eqn:Eu.
  { erewrite put_group_info_spec by apply lookup_insert_eq. rewrite decide_True by lia.
    cbn [mbind option_bind]. eexists _, _, _, _. split; [done|]. split; [done|]. by apply delete_insert_id. }
  apply from_user_loop_spec in Eu as (us & Hlen & Hus & ->).
  destruct (set_current_groups_spec ext k1 (<[a := with_gids_list gi ([] ++ (make_kgid ns <$> us))]> gs) live1
    (m_cred m) a (with_gids_list gi ([] ++ (make_kgid ns <$> us))) old oldc g0 Hs1)
    as (r & k' & gs' & -> & Hn' & Hr).
  { by rewrite Hc1. } { rewrite lookup_insert_ne by congruence. done. } { done. } { apply lookup_insert_eq. } { congruence. }
  cbn [mbind option_bind]. destruct r as [|e]; cycle 1.
  { destruct Hr as (Hst & -> & _). erewrite put_group_info_spec by apply lookup_insert_eq.
    rewrite decide_True by (simpl; lia). cbn [mbind option_bind]. eexists _, _, _, _. split; [done|].
    split; [done|]. by apply delete_insert_id. }
  destruct Hr as (new & c' & ls & Hst & Hids & Hun & Hgi & El & ->).
  erewrite put_group_info_spec by apply lookup_insert_eq. rewrite decide_False by (simpl; lia).
  cbn [mbind option_bind]. eexists Ok, _, _, _. split; [done|]. split; [done|]. split; [lia|].
  exists us. split; [lia|]. split; [intros i Hi; rewrite Hlen in Hi; by apply Hus|].
  destruct (groups_sort_spec (gids (with_gids_list gi ([] ++ (make_kgid ns <$> us))))) as (ls' & El' & Hperm & Hsort).
  rewrite El in El'. injection El' as <-. simpl in Hperm.
  eexists new, c', _. split; [done|]. split; [done|]. rewrite Hgi, lookup_insert_eq.
  split; [done|]. simpl. split; [lia|]. split; [congruence|]. split; [done|]. split; [done|].
  intros grp. unfold in_group_p. rewrite (settled_current _ _ _ _ _ _ Hst). cbn [mbind option_bind].
  assert (fsgid c' = fsgid oldc) as -> by (unfold ids_of in Hids; by injection Hids).
  destruct (decide (grp = fsgid oldc)) as [->|Hne]; [by rewrite bool_decide_eq_true_2 by auto|].
  rewrite Hgi, lookup_insert_eq, groups_search_spec; simpl.
  - f_equal. apply bool_decide_ext. rewrite Hperm. naive_solver.
  - rewrite (Permutation_length Hperm), length_fmap. congruence.
  - done.
  - rewrite Hgn. width.
Qed.
End proofs.

(** Plain counters meet the contract. *)
Global Program Instance std_group_refs : GroupRefs := {|
  get_group_info gs a := g ← gs !! a; Some (<[a := with_gusage g (gi_usage g + 1)]> gs);
  put_group_info gs live a := g ← gs !! a;
    if decide (gi_usage g - 1 = 0) then Some (base.delete a gs, groups_free g live)
    else Some (<[a := with_gusage g (gi_usage g - 1)]> gs, live);
|}.
Solve All Obligations with intros; simplify_option_eq; done.

(** A privileged process sets its groups to 20 and 4. *)
Definition all_powerful : Security := {|
  CAP_EMPTY_SET := [0; 0]; CAP_FULL_SET := [4294967295; 4294967295]; SECUREBITS_DEFAULT := 0;
  cap_issubset _ _ := true;
  security_capable _ _ _ _ := true;
  kuid_has_mapping _ _ := true;
  kgid_has_mapping _ _ := true;
|}.

Definition demo_setgroups :=
  sys_setgroups (H := all_powerful) 65536 512 32 demo_k {[ 0%nat := GInfo 2 0 1 None [] ]} ∅
    (GMem (Some 7%nat) (λ _, None) [0; 0] (Some 11%nat)) 2 (λ i, [20; 4] !! i).

Lemma setgroups_correct_witness :
  ∃ k' gs' live', demo_setgroups = Some (Ok, k', gs', live') ∧
    ∃ us, groups_set false (λ _, 0) (λ _, 0) CredDemo.c0 init_user_ns us k' gs'.
Proof.
  destruct (setgroups_correct (H := all_powerful) false (λ _, 0) 65536 512 32 (λ _, 0) demo_k
    {[ 0%nat := GInfo 2 0 1 None [] ]} ∅
    (GMem (Some 7%nat) (λ _, None) [0; 0] (Some 11%nat)) 2 (λ i, [20; 4] !! i) 10 CredDemo.c0 init_user_ns
    (GInfo 2 0 1 None []) 7) as (r & k' & gs' & live' & E & Hr); try done.
  - apply demo_settled.
  - by intros b [= <-].
  - exists k', gs', live'. destruct r as [|e].
    + split; [exact E|]. destruct Hr as (_ & _ & us & _ & _ & Hg). by exists us.
    + exfalso. apply (f_equal (λ o, match o with Some (Err _, _, _, _) => true | _ => false end)) in E.
      by vm_compute in E.
Defined.
