(* ===== verification/Resource.v ===== *)
(** The resource tree of kernel/resource.c: the address ranges of I/O ports
    and memory, kept as a tree of [struct resource] linked by parent, sibling
    and child pointers.

    The nodes live in a store from addresses to records, so that the pointer
    surgery of the code is modelled pointer by pointer.  A dereference of a
    pointer that is not in the store, and a loop that runs longer than the
    store has nodes, is [None]; the theorems show that neither happens on a
    well-formed tree ([tree_rep]). *)

From stdpp Require Import strings.
From S2P Require Import Prelude.

Local Open Scope Z_scope.

(** * Data *)

(** [resource_size_t] is a 64-bit unsigned integer. *)
Record resource := mkResource {
  r_start : Z;
  r_end : Z;
  r_name : string;
  r_flags : Z;
  r_parent : option nat;
  r_sibling : option nat;
  r_child : option nat;
}.

Global Instance resource_eq_dec : EqDecision resource.
Proof. solve_decision. Defined.

(** What [memset] and [kzalloc] leave. *)
Definition res0 : resource := mkResource 0 0 EmptyString 0 None None None.

Definition set_range (s e : Z) (r : resource) : resource :=
  mkResource s e (r_name r) (r_flags r) (r_parent r) (r_sibling r) (r_child r).
Definition set_parent (p : option nat) (r : resource) : resource :=
  mkResource (r_start r) (r_end r) (r_name r) (r_flags r) p (r_sibling r) (r_child r).
Definition set_sibling (p : option nat) (r : resource) : resource :=
  mkResource (r_start r) (r_end r) (r_name r) (r_flags r) (r_parent r) p (r_child r).
Definition set_child (p : option nat) (r : resource) : resource :=
  mkResource (r_start r) (r_end r) (r_name r) (r_flags r) (r_parent r) (r_sibling r) p.

Abbreviation store := (gmap nat resource).

(** [a->field = ...] *)
Definition upd (m : store) (a : nat) (f : resource → resource) : option store :=
  r ← m !! a; Some (<[a := f r]> m).

(** A [struct resource **]: the address of a child or of a sibling field. *)
Inductive slot := ChildOf (a : nat) | SibOf (a : nat).

Definition rd_slot (m : store) (p : slot) : option (option nat) :=
  match p with
  | ChildOf a => r ← m !! a; Some (r_child r)
  | SibOf a => r ← m !! a; Some (r_sibling r)
  end.

Definition wr_slot (m : store) (p : slot) (v : option nat) : option store :=
  match p with
  | ChildOf a => upd m a (set_child v)
  | SibOf a => upd m a (set_sibling v)
  end.

(** Every loop of the file walks nodes of the store. *)
Definition fuel_of (m : store) : nat := S (size m).

Definition IORESOURCE_IO : Z := 256.
Definition IORESOURCE_MEM : Z := 512.
Definition IORESOURCE_MUXED : Z := 4194304.
Definition IORESOURCE_BUSY : Z := 2147483648.

(** * request_resource *)

Fixpoint request_loop (fuel : nat) (m : store) (root new : nat) (start end_ : Z) (p : slot)
    : option (store * option nat) :=
  match fuel with
  | O => None
  | S fuel =>
      tmp ← rd_slot m p;
      let link :=
        m1 ← upd m new (set_sibling tmp);
        m2 ← wr_slot m1 p (Some new);
        m3 ← upd m2 new (set_parent (Some root));
        Some (m3, None) in
      match tmp with
      | None => link
      | Some t =>
          rt ← m !! t;
          if decide (r_start rt > end_) then link
          else if decide (r_end rt < start)
          then request_loop fuel m root new start end_ (SibOf t)
          else Some (m, Some t)
      end
  end.

(** The pointer returned is the conflicting entry. *)
Definition __request_resource (m : store) (root new : nat) : option (store * option nat) :=
  rn ← m !! new;
  rr ← m !! root;
  let start := r_start rn in
  let end_ := r_end rn in
  if decide (end_ < start) then Some (m, Some root)
  else if decide (start < r_start rr) then Some (m, Some root)
  else if decide (end_ > r_end rr) then Some (m, Some root)
  else request_loop (fuel_of m) m root new start end_ (ChildOf root).

Definition request_resource_conflict := __request_resource.

Definition request_resource (m : store) (root new : nat) : option (store * ret) :=
  '(m', conflict) ← request_resource_conflict m root new;
  Some (m', match conflict with Some _ => Err EBUSY | None => Ok end).

(** * release_resource *)

Fixpoint release_loop (fuel : nat) (m : store) (old : nat) (p : slot) : option (store * ret) :=
  match fuel with
  | O => None
  | S fuel =>
      tmp ← rd_slot m p;
      match tmp with
      | None => Some (m, Err EINVAL)
      | Some t =>
          if decide (t = old) then
            rt ← m !! t;
            m1 ← wr_slot m p (r_sibling rt);
            m2 ← upd m1 old (set_parent None);
            Some (m2, Ok)
          else release_loop fuel m old (SibOf t)
      end
  end.

(** [old->parent->child]: a resource without a parent is dereferenced. *)
Definition __release_resource (m : store) (old : nat) : option (store * ret) :=
  ro ← m !! old;
  par ← r_parent ro;
  release_loop (fuel_of m) m old (ChildOf par).

Definition release_resource := __release_resource.

(** * lookup_resource *)

Fixpoint lookup_loop (fuel : nat) (m : store) (start : Z) (res : option nat)
    : option (option nat) :=
  match fuel with
  | O => None
  | S fuel =>
      match res with
      | None => Some None
      | Some a =>
          r ← m !! a;
          if decide (r_start r = start) then Some (Some a)
          else lookup_loop fuel m start (r_sibling r)
      end
  end.

Definition lookup_resource (m : store) (root : nat) (start : Z) : option (option nat) :=
  r ← m !! root;
  lookup_loop (fuel_of m) m start (r_child r).

(** * insert_resource *)

(** The first loop: go down to the level where [new] does not fit inside the
    entry it conflicts with.  [inl c] is [return c]; [inr (parent, first)]
    leaves the loop. *)
Fixpoint insert_descend (fuel : nat) (m : store) (parent new : nat)
    : option (store * (option nat + nat * nat)) :=
  match fuel with
  | O => None
  | S fuel =>
      '(m', first) ← __request_resource m parent new;
      match first with
      | None => Some (m', inl None)
      | Some f =>
          if decide (f = parent) then Some (m', inl (Some f))
          else if decide (f = new) then Some (m', inl (Some f))
          else
            rf ← m' !! f;
            rn ← m' !! new;
            if decide (r_start rf > r_start rn ∨ r_end rf < r_end rn)
            then Some (m', inr (parent, f))
            else if decide (r_start rf = r_start rn ∧ r_end rf = r_end rn)
            then Some (m', inr (parent, f))
            else insert_descend fuel m' f new
      end
  end.

(** The second loop: the last sibling [new] covers.  [inl c]: a partial
    overlap with [c]. *)
Fixpoint insert_span (fuel : nat) (m : store) (new next : nat) : option (nat + nat) :=
  match fuel with
  | O => None
  | S fuel =>
      rx ← m !! next;
      rn ← m !! new;
      if decide (r_start rx < r_start rn ∨ r_end rx > r_end rn) then Some (inl next)
      else
        match r_sibling rx with
        | None => Some (inr next)
        | Some s =>
            rs ← m !! s;
            if decide (r_start rs > r_end rn) then Some (inr next)
            else insert_span fuel m new s
        end
  end.

(** [for (next = first; next; next = next->sibling) next->parent = new] *)
Fixpoint reparent (fuel : nat) (m : store) (new : nat) (next : option nat) : option store :=
  match fuel with
  | O => None
  | S fuel =>
      match next with
      | None => Some m
      | Some x =>
          m' ← upd m x (set_parent (Some new));
          rx ← m' !! x;
          reparent fuel m' new (r_sibling rx)
      end
  end.

(** [while (next->sibling != first) next = next->sibling] *)
Fixpoint find_pred (fuel : nat) (m : store) (first next : nat) : option nat :=
  match fuel with
  | O => None
  | S fuel =>
      rx ← m !! next;
      if decide (r_sibling rx = Some first) then Some next
      else s ← r_sibling rx; find_pred fuel m first s
  end.

Definition insert_adopt (m : store) (parent new first next : nat) : option store :=
  rx ← m !! next;
  m1 ← upd m new (λ r, set_child (Some first)
                         (set_sibling (r_sibling rx) (set_parent (Some parent) r)));
  m2 ← upd m1 next (set_sibling None);
  m3 ← reparent (fuel_of m2) m2 new (Some first);
  rp ← m3 !! parent;
  if decide (r_child rp = Some first) then upd m3 parent (set_child (Some new))
  else
    c ← r_child rp;
    q ← find_pred (fuel_of m3) m3 first c;
    upd m3 q (set_sibling (Some new)).

Definition __insert_resource (m : store) (parent new : nat) : option (store * option nat) :=
  '(m', r) ← insert_descend (fuel_of m) m parent new;
  match r with
  | inl c => Some (m', c)
  | inr (parent, first) =>
      sp ← insert_span (fuel_of m') m' new first;
      match sp with
      | inl c => Some (m', Some c)
      | inr next => m'' ← insert_adopt m' parent new first next; Some (m'', None)
      end
  end.

Definition insert_resource_conflict := __insert_resource.

Definition insert_resource (m : store) (parent new : nat) : option (store * ret) :=
  '(m', conflict) ← insert_resource_conflict m parent new;
  Some (m', match conflict with Some _ => Err EBUSY | None => Ok end).

(** * adjust_resource *)

(** [for (tmp = res->child; tmp; tmp = tmp->sibling) if (...) goto out] *)
Fixpoint kids_fit (fuel : nat) (m : store) (start end_ : Z) (tmp : option nat) : option bool :=
  match fuel with
  | O => None
  | S fuel =>
      match tmp with
      | None => Some true
      | Some t =>
          rt ← m !! t;
          if decide (r_start rt < start ∨ r_end rt > end_) then Some false
          else kids_fit fuel m start end_ (r_sibling rt)
      end
  end.

(** The tests against the parent and the two neighbours; [false] is
    [goto out]. *)
Definition room_ok (m : store) (res : nat) (rr : resource) (start end_ : Z) : option bool :=
  match r_parent rr with
  | None => Some true
  | Some parent =>
      rp ← m !! parent;
      if decide (start < r_start rp ∨ end_ > r_end rp) then Some false
      else
        right ←
          match r_sibling rr with
          | None => Some true
          | Some s => rs ← m !! s; Some (negb (bool_decide (r_start rs ≤ end_)))
          end;
        if negb right then Some false
        else
          tmp ← r_child rp;
          if decide (tmp = res) then Some true
          else
            q ← find_pred (fuel_of m) m res tmp;
            rq ← m !! q;
            Some (negb (bool_decide (start ≤ r_end rq)))
  end.

Definition __adjust_resource (m : store) (res : nat) (start size : Z) : option (store * ret) :=
  rr ← m !! res;
  let end_ := u64 (start + size - 1) in
  room ← room_ok m res rr start end_;
  if negb room then Some (m, Err EBUSY)
  else
    fit ← kids_fit (fuel_of m) m start end_ (r_child rr);
    if negb fit then Some (m, Err EBUSY)
    else m' ← upd m res (set_range start end_); Some (m', Ok).

Definition adjust_resource := __adjust_resource.

(** * allocate_resource *)

(** [struct resource_constraint]; the alignment function is applied to its
    data argument. *)
Record resource_constraint := {
  c_min : Z;
  c_max : Z;
  c_align : Z;
  c_alignf : resource → Z → Z → Z;
}.

(** The [ALIGN] macro on 64-bit operands. *)
Definition ALIGN (x a : Z) : Z :=
  Z.land (u64 (x + u64 (a - 1))) (u64 (Z.lnot (u64 (a - 1)))).

Definition simple_align_resource (avail : resource) (size align : Z) : Z := r_start avail.

Definition resource_clip (res : resource) (min max : Z) : resource :=
  let res := if decide (r_start res < min) then set_range min (r_end res) res else res in
  if decide (r_end res > max) then set_range (r_start res) max res else res.

Definition resource_contains (res1 res2 : resource) : Prop :=
  r_start res1 ≤ r_start res2 ∧ r_end res1 >= r_end res2.

Global Instance resource_contains_dec r1 r2 : Decision (resource_contains r1 r2).
Proof. unfold resource_contains. apply _. Defined.

(** The weak definition: no architecture reservations. *)
Definition arch_remove_reservations (avail : resource) : resource := avail.

(** One slot [tmp]: the (possibly clipped) [tmp], and the range found. *)
Definition try_slot (new tmp : resource) (size : Z) (c : resource_constraint)
    : resource * option (Z * Z) :=
  if decide (r_end tmp < r_start tmp) then (tmp, None)
  else
    let tmp := arch_remove_reservations (resource_clip tmp (c_min c) (c_max c)) in
    let avail := set_range (ALIGN (r_start tmp) (c_align c)) (r_end tmp) new in
    if decide (r_start avail >= r_start tmp) then
      let alloc_start := c_alignf c avail size (c_align c) in
      let alloc := set_range alloc_start (u64 (alloc_start + size - 1)) res0 in
      if decide (resource_contains avail alloc)
      then (tmp, Some (r_start alloc, r_end alloc)) else (tmp, None)
    else (tmp, None).

(** The [for(;;)] over the children; [Some (s, e)] is the range found, [None]
    is [-EBUSY]. *)
Fixpoint find_loop (fuel : nat) (m : store) (root : nat) (old : option nat) (new : resource)
    (size : Z) (c : resource_constraint) (tmp : resource) (this : option nat)
    : option (option (Z * Z)) :=
  match fuel with
  | O => None
  | S fuel =>
      rr ← m !! root;
      rt ← match this with None => Some None | Some t => r ← m !! t; Some (Some (t, r)) end;
      let tmp := set_range (r_start tmp)
        match rt with
        | Some (t, r) => if decide (old = Some t) then r_end r else u64 (r_start r - 1)
        | None => r_end rr
        end tmp in
      match try_slot new tmp size c with
      | (_, Some found) => Some (Some found)
      | (tmp, None) =>
          match rt with
          | None => Some None
          | Some (t, r) =>
              if decide (r_end r = r_end rr) then Some None
              else
                let tmp := if decide (old = Some t) then tmp
                           else set_range (u64 (r_end r + 1)) (r_end tmp) tmp in
                find_loop fuel m root old new size c tmp (r_sibling r)
          end
      end
  end.

(** The range for [new], a copy of the caller's descriptor. *)
Definition __find_resource (m : store) (root : nat) (old : option nat) (new : resource)
    (size : Z) (c : resource_constraint) : option (option (Z * Z)) :=
  rr ← m !! root;
  let tmp := set_range (r_start rr) (r_end new) new in
  match r_child rr with
  | None => find_loop (fuel_of m) m root old new size c tmp None
  | Some this =>
      rt ← m !! this;
      if decide (r_start rt = r_start rr) then
        let tmp := set_range (if decide (old = Some this) then r_start rt
                              else u64 (r_end rt + 1)) (r_end tmp) tmp in
        find_loop (fuel_of m) m root old new size c tmp (r_sibling rt)
      else find_loop (fuel_of m) m root old new size c tmp (Some this)
  end.

Definition find_resource (m : store) (root : nat) (new : resource) (size : Z)
    (c : resource_constraint) : option (option (Z * Z)) :=
  __find_resource m root None new size c.

(** [BUG_ON(conflict)] is [None]. *)
Definition reallocate_resource (m : store) (root old : nat) (newsize : Z)
    (c : resource_constraint) : option (store * ret) :=
  ro ← m !! old;
  found ← __find_resource m root (Some old) ro newsize c;
  match found with
  | None => Some (m, Err EBUSY)
  | Some (s, e) =>
      let new := set_range s e ro in
      if decide (resource_contains new ro) then
        m' ← upd m old (set_range s e); Some (m', Ok)
      else
        match r_child ro with
        | Some _ => Some (m, Err EBUSY)
        | None =>
            if decide (resource_contains ro new) then
              m' ← upd m old (set_range s e); Some (m', Ok)
            else
              '(m1, _) ← __release_resource m old;
              m2 ← upd m1 old (λ _, new);
              '(m3, conflict) ← __request_resource m2 root old;
              match conflict with
              | Some _ => None
              | None => Some (m3, Ok)
              end
        end
  end.

Definition allocate_resource (m : store) (root new : nat) (size min max align : Z)
    (alignf : option (resource → Z → Z → Z)) : option (store * ret) :=
  let c := {| c_min := min; c_max := max; c_align := align;
              c_alignf := default simple_align_resource alignf |} in
  rn ← m !! new;
  match r_parent rn with
  | Some _ => reallocate_resource m root new size c
  | None =>
      found ← find_resource m root rn size c;
      match found with
      | None => Some (m, Err EBUSY)
      | Some (s, e) =>
          m1 ← upd m new (set_range s e);
          '(m2, conflict) ← __request_resource m1 root new;
          Some (m2, match conflict with Some _ => Err EBUSY | None => Ok end)
      end
  end.

(** * insert_resource_expand_to_fit *)

Fixpoint expand_loop (fuel : nat) (m : store) (root new : nat) : option store :=
  match fuel with
  | O => None
  | S fuel =>
      '(m1, conflict) ← __insert_resource m root new;
      match conflict with
      | None => Some m1
      | Some c =>
          if decide (c = root) then Some m1
          else
            rc ← m1 !! c;
            rn ← m1 !! new;
            let s := if decide (r_start rc < r_start rn) then r_start rc else r_start rn in
            let e := if decide (r_end rc > r_end rn) then r_end rc else r_end rn in
            m2 ← upd m1 new (set_range s e);
            expand_loop fuel m2 root new
      end
  end.

Definition insert_resource_expand_to_fit (m : store) (root new : nat) : option store :=
  rn ← m !! new;
  match r_parent rn with
  | Some _ => Some m
  | None => expand_loop (fuel_of m) m root new
  end.

(** * The tree a store represents

    [K a] is the list of the children of [a], in address order.  [tree_rep m K]
    says that the pointers of [m] spell out [K] and that the ranges nest: the
    child pointer of a node and the sibling pointers of its children chain
    [K a], the parent pointers invert it, siblings are disjoint and increasing,
    children lie inside their parent, and no node is its own ancestor. *)

Definition get (m : store) (a : nat) : resource := default res0 (m !! a).

Definition up (m : store) (b a : nat) : Prop := r_parent (get m b) = Some a.

Definition before (m : store) (x y : nat) : Prop := r_end (get m x) < r_start (get m y).

Record tree_rep (m : store) (K : nat → list nat) : Prop := {
  t_dom a : a ∉ dom m → K a = [];
  t_chi a : a ∈ dom m → r_child (get m a) = head (K a);
  t_sib a l1 b l2 : K a = l1 ++ b :: l2 → r_sibling (get m b) = head l2;
  t_par a b : b ∈ K a ↔ up m b a;
  t_sorted a : StronglySorted (before m) (K a);
  t_in a b : b ∈ K a →
    r_start (get m a) ≤ r_start (get m b) ≤ r_end (get m b) ∧
    r_end (get m b) ≤ r_end (get m a);
  t_wf a : Acc (λ p b, up m b p) a;
  t_width a : in_u64 (r_start (get m a)) ∧ in_u64 (r_end (get m a));
}.

Definition tree_ok (m : store) : Prop := ∃ K, tree_rep m K.

(** The lists of children matter only pointwise. *)
Lemma tree_rep_ext m K K' : (∀ a, K' a = K a) → tree_rep m K → tree_rep m K'.
Proof.
  intros E T. split; intros a; rewrite ?E.
  - apply (t_dom _ _ T).
  - apply (t_chi _ _ T).
  - apply (t_sib _ _ T).
  - apply (t_par _ _ T).
  - apply (t_sorted _ _ T).
  - apply (t_in _ _ T).
  - apply (t_wf _ _ T).
  - apply (t_width _ _ T).
Qed.

Global Instance tree_rep_proper m : Proper (pointwise_relation nat eq ==> iff) (tree_rep m).
Proof. intros K K' E. split; by apply tree_rep_ext. Qed.

Section access.
Implicit Types (m : store) (a x : nat).

Lemma get_some m a r : m !! a = Some r → get m a = r.
Proof. unfold get. by intros ->. Qed.

Lemma get_insert m a r x : get (<[a := r]> m) x = if decide (x = a) then r else get m x.
Proof.
  unfold get. case_decide; subst.
  - by rewrite lookup_insert_eq.
  - by rewrite lookup_insert_ne.
Qed.

Lemma in_lookup m a : a ∈ dom m → m !! a = Some (get m a).
Proof. intros [r E]%elem_of_dom. by rewrite (get_some _ _ _ E). Qed.

Lemma get_in_dom m a : get m a ≠ res0 → a ∈ dom m.
Proof. unfold get. intros H. apply elem_of_dom. destruct (m !! a); [eauto|done]. Qed.

Lemma upd_in m a f : a ∈ dom m → upd m a f = Some (<[a := f (get m a)]> m).
Proof. intros H. unfold upd. by rewrite (in_lookup _ _ H). Qed.

Lemma up_dom m b a : up m b a → b ∈ dom m.
Proof. intros H. apply get_in_dom. intros E. unfold up in H. by rewrite E in H. Qed.
End access.

Section rep.
Context {m : store} {K : nat → list nat}.
Hypothesis T : tree_rep m K.

Lemma kid_dom a b : b ∈ K a → b ∈ dom m.
Proof. intros H%(t_par _ _ T). by eapply up_dom. Qed.

Lemma parent_dom a b : b ∈ K a → a ∈ dom m.
Proof.
  intros H. destruct (decide (a ∈ dom m)) as [|Hn]; [done|].
  rewrite (t_dom _ _ T _ Hn) in H. set_solver.
Qed.

Lemma kid_one_parent a a' b : b ∈ K a → b ∈ K a' → a = a'.
Proof. rewrite !(t_par _ _ T). unfold up. congruence. Qed.

Lemma kids_NoDup a : NoDup (K a).
Proof.
  pose proof (t_sorted _ _ T a) as Hs.
  assert (∀ b, b ∈ K a → r_start (get m b) ≤ r_end (get m b)) as Hle.
  { intros b Hb. pose proof (t_in _ _ T a b Hb). lia. }
  revert Hs Hle. generalize (K a). intros l Hs Hle.
  induction Hs as [|x l Hs IH Hx]; constructor.
  - intros Hin. rewrite Forall_forall in Hx. pose proof (Hx x Hin) as Hb.
    unfold before in Hb. pose proof (Hle x (list_elem_of_here _ _)). lia.
  - apply IH. intros b Hb. apply Hle. by right.
Qed.

Lemma kids_length a : (length (K a) ≤ size m)%nat.
Proof.
  rewrite <- size_dom, <- (size_list_to_set (C := gset nat) _ (kids_NoDup a)).
  apply subseteq_size. intros b Hb%elem_of_list_to_set. by eapply kid_dom.
Qed.

Lemma kids_split a l1 x l2 :
  K a = l1 ++ x :: l2 →
  Forall (λ y, before m y x) l1 ∧ Forall (λ y, before m x y) l2.
Proof.
  intros E. pose proof (t_sorted _ _ T a) as Hs. rewrite E in Hs.
  apply StronglySorted_app in Hs as (Hc & _ & Hs).
  apply StronglySorted_inv in Hs as [_ Hx]. split; [|done].
  apply Forall_forall. intros y Hy. apply Hc; set_solver.
Qed.

Lemma up_irrefl b : ¬ up m b b.
Proof.
  intros H. induction (t_wf _ _ T b) as [b _ IH]. by apply (IH b).
Qed.

(** The slot after the children [l1] of [a], and what it holds. *)
Definition slot_of (a : nat) (l1 : list nat) : slot :=
  match last l1 with None => ChildOf a | Some b => SibOf b end.

Lemma slot_of_snoc a l1 b : slot_of a (l1 ++ [b]) = SibOf b.
Proof. unfold slot_of. by rewrite last_snoc. Qed.

Lemma rd_slot_of a l1 l2 :
  a ∈ dom m → K a = l1 ++ l2 → rd_slot m (slot_of a l1) = Some (head l2).
Proof.
  intros Ha E. destruct l1 as [|b l1 _] using rev_ind.
  - cbn. rewrite (in_lookup _ _ Ha). cbn. by rewrite (t_chi _ _ T), E.
  - rewrite slot_of_snoc. cbn.
    assert (b ∈ K a) as Hb by (rewrite E; set_solver).
    rewrite (in_lookup _ _ (kid_dom _ _ Hb)). cbn.
    rewrite <- app_assoc in E. by rewrite (t_sib _ _ T _ _ _ _ E).
Qed.
End rep.

(** Writing the slot after [l1]: only that pointer changes. *)
Definition slot_upd (a : nat) (l1 : list nat) (v : option nat) (x : nat) (r : resource) : resource :=
  match last l1 with
  | None => if decide (x = a) then set_child v r else r
  | Some b => if decide (x = b) then set_sibling v r else r
  end.

Lemma wr_slot_of m a l1 v :
  a ∈ dom m → (∀ b, b ∈ l1 → b ∈ dom m) →
  ∃ m', wr_slot m (slot_of a l1) v = Some m' ∧ dom m' = dom m ∧
    ∀ x, get m' x = slot_upd a l1 v x (get m x).
Proof.
  intros Ha Hl. unfold slot_of, slot_upd. destruct (last l1) as [b|] eqn:E; cbn [wr_slot].
  - assert (b ∈ dom m) as Hb by by apply Hl, last_Some_elem_of.
    rewrite upd_in by done. eexists. split; [done|]. split; [set_solver|].
    intros x. rewrite get_insert. by destruct (decide (x = b)) as [->|].
  - rewrite upd_in by done. eexists. split; [done|]. split; [set_solver|].
    intros x. rewrite get_insert. by destruct (decide (x = a)) as [->|].
Qed.

(** * Changing one list of children *)

Definition kset (a : nat) (L : list nat) (K : nat → list nat) : nat → list nat :=
  λ x, if decide (x = a) then L else K x.

Lemma kset_eq a L K : kset a L K a = L.
Proof. unfold kset. by rewrite decide_True. Qed.

Lemma kset_ne a L K x : x ≠ a → kset a L K x = K x.
Proof. intros. unfold kset. by rewrite decide_False. Qed.

Definition same_ranges (m m' : store) : Prop :=
  ∀ x, r_start (get m' x) = r_start (get m x) ∧ r_end (get m' x) = r_end (get m x).

Lemma before_same m m' x y : same_ranges m m' → before m' x y ↔ before m x y.
Proof. intros H. unfold before. by rewrite (proj1 (H y)), (proj2 (H x)). Qed.

(** Adding edges from nodes below which [a] does not lie keeps the tree free
    of cycles. *)
Lemma acc_add (m m' : store) (a : nat) (N : nat → Prop) :
  (∀ x, Acc (λ p b, up m b p) x) →
  (∀ b p, up m' b p → up m b p ∨ p = a ∧ N b) →
  (∀ b, N b → ¬ rtc (up m) a b) →
  ∀ x, Acc (λ p b, up m' b p) x.
Proof.
  intros Hwf Hup HN.
  assert (∀ x, rtc (up m) a x → Acc (λ p b, up m' b p) x) as Ha.
  { intros x. induction (Hwf x) as [x _ IH]. intros Hr. constructor. intros p Hp.
    destruct (Hup _ _ Hp) as [Hp'|[-> Hn]].
    - apply IH; [done|]. by eapply rtc_r.
    - by destruct (HN x). }
  intros x. induction (Hwf x) as [x _ IH]. constructor. intros p Hp.
  destruct (Hup _ _ Hp) as [Hp'|[-> _]]; [by apply IH|by apply Ha].
Qed.

(** The parent pointers after the children of [a] become [L']. *)
Lemma par_edit m K m' a L' :
  tree_rep m K →
  (∀ b, r_parent (get m' b) =
     if decide (b ∈ L') then Some a
     else if decide (b ∈ K a) then None else r_parent (get m b)) →
  (∀ b, b ∈ L' → b ∈ K a ∨ r_parent (get m b) = None) →
  ∀ p b, b ∈ kset a L' K p ↔ up m' b p.
Proof.
  intros T Hp HL p b. unfold up. rewrite Hp. pose proof (t_par _ _ T) as HP. unfold up in HP.
  destruct (decide (p = a)) as [->|Hne].
  - rewrite kset_eq. destruct (decide (b ∈ L')) as [|HnL]; [done|].
    destruct (decide (b ∈ K a)) as [|Hn]; [|rewrite HP in Hn]; naive_solver.
  - rewrite kset_ne by done. rewrite HP.
    destruct (decide (b ∈ L')) as [Hb|Hb].
    + destruct (HL b Hb) as [Hk|Hk]; [rewrite HP in Hk|]; rewrite Hk; split; congruence.
    + destruct (decide (b ∈ K a)) as [Hk|Hk]; [|done].
      rewrite HP in Hk. rewrite Hk. split; congruence.
Qed.

Lemma rep_edit m K m' a L' :
  tree_rep m K → dom m' = dom m → same_ranges m m' → a ∈ dom m →
  (∀ x, x ∈ dom m → r_child (get m' x) = if decide (x = a) then head L' else r_child (get m x)) →
  (∀ l1 b l2, L' = l1 ++ b :: l2 → r_sibling (get m' b) = head l2) →
  (∀ b, b ∉ K a → b ∉ L' → r_sibling (get m' b) = r_sibling (get m b)) →
  (∀ b, r_parent (get m' b) =
     if decide (b ∈ L') then Some a
     else if decide (b ∈ K a) then None else r_parent (get m b)) →
  (∀ b, b ∈ L' → b ∈ K a ∨ r_parent (get m b) = None ∧ ¬ rtc (up m) a b) →
  StronglySorted (before m) L' →
  (∀ b, b ∈ L' →
    r_start (get m a) ≤ r_start (get m b) ≤ r_end (get m b) ∧
    r_end (get m b) ≤ r_end (get m a)) →
  tree_rep m' (kset a L' K).
Proof.
  intros T Hd Hr Ha Hc Hs Hs' Hp HL Hso Hin.
  pose proof (par_edit m K m' a L' T Hp ltac:(intros; edestruct HL as [|[? _]]; eauto)) as Hpar.
  split.
  - intros x Hx. rewrite Hd in Hx. rewrite kset_ne by (intros ->; done).
    by apply (t_dom _ _ T).
  - intros x Hx. rewrite Hd in Hx. rewrite Hc by done.
    destruct (decide (x = a)) as [->|Hne]; [by rewrite kset_eq|].
    rewrite kset_ne by done. by apply (t_chi _ _ T).
  - intros x l1 b l2 E. destruct (decide (x = a)) as [->|Hne].
    + rewrite kset_eq in E. by eapply Hs.
    + assert (b ∈ K x) as Hb.
      { rewrite kset_ne in E by done. rewrite E. set_solver. }
      rewrite Hs'.
      * rewrite kset_ne in E by done. by eapply (t_sib _ _ T).
      * intros Hb'. apply Hne. by eapply (kid_one_parent T).
      * intros Hb'. apply Hne. destruct (HL b Hb') as [Hk|[Hk _]].
        -- by eapply (kid_one_parent T).
        -- apply (t_par _ _ T) in Hb. unfold up in Hb. congruence.
  - apply Hpar.
  - intros x. eapply StronglySorted_weaken; [intros ? ? _ _; apply (before_same m m'), Hr|].
    destruct (decide (x = a)) as [->|Hne];
      [by rewrite kset_eq|rewrite kset_ne by done; apply (t_sorted _ _ T)].
  - intros x b Hb. rewrite (proj1 (Hr x)), (proj2 (Hr x)), (proj1 (Hr b)), (proj2 (Hr b)).
    destruct (decide (x = a)) as [->|Hne].
    + rewrite kset_eq in Hb. by apply Hin.
    + rewrite kset_ne in Hb by done. by apply (t_in _ _ T).
  - apply (acc_add m m' a (λ b, b ∈ L' ∧ b ∉ K a)); [apply (t_wf _ _ T)| |].
    + intros b p Hb. apply Hpar in Hb. destruct (decide (p = a)) as [->|Hne].
      * rewrite kset_eq in Hb. destruct (decide (b ∈ K a)) as [Hk|]; [|by right].
        left. by apply (t_par _ _ T).
      * rewrite kset_ne in Hb by done. left. by apply (t_par _ _ T).
    + intros b [Hb Hn]. by destruct (HL b Hb) as [|[_ ?]].
  - intros x. rewrite (proj1 (Hr x)), (proj2 (Hr x)). apply (t_width _ _ T).
Qed.

(** A split of a list against another one. *)
Lemma split_around {A} (l1 l2 : list A) x r1 y r2 :
  l1 ++ x :: l2 = r1 ++ y :: r2 →
  (r1 = l1 ∧ y = x ∧ r2 = l2) ∨
  (∃ r, r1 = l1 ++ x :: r ∧ l2 = r ++ y :: r2) ∨
  (∃ r, l1 = r1 ++ y :: r ∧ r2 = r ++ x :: l2).
Proof.
  revert r1. induction l1 as [|z l1 IH]; intros [|w r1]; cbn; intros E.
  - injection E as -> ->. by left.
  - injection E as -> ->. right; left. by exists r1.
  - injection E as -> <-. right; right. by exists l1.
  - injection E as -> E. destruct (IH r1 E) as [(-> & -> & ->)|[(r & -> & ->)|(r & -> & ->)]].
    + by left.
    + right; left. by exists r.
    + right; right. by exists r.
Qed.

Section slot_upd.
Context (a : nat) (l1 : list nat) (v : option nat).
Implicit Types (x : nat) (r : resource).

Ltac go := unfold slot_upd; destruct (last l1); repeat case_decide; by subst.

Lemma slot_upd_start x r : r_start (slot_upd a l1 v x r) = r_start r.
Proof. go. Qed.
Lemma slot_upd_end x r : r_end (slot_upd a l1 v x r) = r_end r.
Proof. go. Qed.
Lemma slot_upd_flags x r : r_flags (slot_upd a l1 v x r) = r_flags r.
Proof. go. Qed.
Lemma slot_upd_parent x r : r_parent (slot_upd a l1 v x r) = r_parent r.
Proof. go. Qed.

Lemma slot_upd_child x r :
  r_child (slot_upd a l1 v x r) = if decide (l1 = [] ∧ x = a) then v else r_child r.
Proof.
  unfold slot_upd. destruct l1 as [|b l _] using rev_ind; cbn [last].
  - repeat case_decide; by naive_solver.
  - rewrite last_snoc, (decide_False (P := _ ∧ _)) by (intros [? _]; by destruct l).
    by case_decide.
Qed.

Lemma slot_upd_sibling x r :
  r_sibling (slot_upd a l1 v x r) = if decide (last l1 = Some x) then v else r_sibling r.
Proof.
  unfold slot_upd. destruct (last l1) as [b|]; repeat case_decide; by simplify_eq.
Qed.
End slot_upd.

#[export] Hint Rewrite slot_upd_start slot_upd_end slot_upd_flags slot_upd_parent : kern.

Lemma last_in {A} (l : list A) x : last l = Some x → x ∈ l.
Proof. apply last_Some_elem_of. Qed.

(** The sibling pointers of a list of children read off its splits. *)
Lemma last_split {A} (l1 r : list A) y :
  last (l1 ++ y :: r) = Some y → NoDup (l1 ++ y :: r) → r = [].
Proof.
  intros Hl Hn. destruct r as [|z r _] using rev_ind; [done|exfalso].
  rewrite app_comm_cons, app_assoc, last_snoc in Hl. injection Hl as ->.
  apply NoDup_app in Hn as (_ & _ & Hn). apply NoDup_cons in Hn as [Hn _]. set_solver.
Qed.

Section link.
Context {m : store} {K : nat → list nat} (T : tree_rep m K).
Context (root new : nat) (l1 l2 : list nat).
Context (Hroot : root ∈ dom m) (Hnew : new ∈ dom m) (EK : K root = l1 ++ l2).
Context (Hdet : r_parent (get m new) = None) (Hanc : ¬ rtc (up m) root new).

Lemma link_ne : root ≠ new.
Proof. intros E. apply Hanc. by rewrite E. Qed.

Lemma link_new_kid : new ∉ K root.
Proof. intros H%(t_par _ _ T). unfold up in H. congruence. Qed.

(** What the three assignments of the success path of [__request_resource]
    leave. *)
Definition linked (m' : store) : Prop :=
  dom m' = dom m ∧
  ∀ x, get m' x =
    if decide (x = new) then set_parent (Some root) (set_sibling (head l2) (get m new))
    else slot_upd root l1 (Some new) x (get m x).

Lemma link_run : ∃ m',
  (m1 ← upd m new (set_sibling (head l2));
   m2 ← wr_slot m1 (slot_of root l1) (Some new);
   m3 ← upd m2 new (set_parent (Some root));
   Some (m3, None)) = Some (m', @None nat) ∧ linked m'.
Proof.
  rewrite upd_in by done. cbn [mbind option_bind].
  destruct (wr_slot_of (<[new := set_sibling (head l2) (get m new)]> m) root l1 (Some new))
    as (m2 & E2 & D2 & G2).
  { set_solver. }
  { intros b Hb. assert (b ∈ dom m) by (apply (kid_dom T root); rewrite EK; set_solver).
    set_solver. }
  rewrite E2. cbn [mbind option_bind].
  assert (dom m2 = dom m) as D by set_solver.
  rewrite upd_in by set_solver. cbn [mbind option_bind]. eexists. split; [done|].
  split; [set_solver|]. intros x. rewrite get_insert, !G2, !get_insert.
  pose proof link_ne as Hne. pose proof link_new_kid as Hnk.
  destruct (decide (x = new)) as [->|Hx].
  - rewrite decide_True by done. f_equal. unfold slot_upd.
    destruct (last l1) as [b|] eqn:El.
    + rewrite decide_False; [done|]. intros <-. apply last_in in El. apply Hnk.
      rewrite EK. set_solver.
    + by rewrite decide_False.
  - done.
Qed.

Context (Hb : Forall (λ x, before m x new) l1) (Ha : Forall (λ x, before m new x) l2).
Context (Hin : r_start (get m root) ≤ r_start (get m new) ≤ r_end (get m new)
               ∧ r_end (get m new) ≤ r_end (get m root)).

Lemma link_sorted : StronglySorted (before m) (l1 ++ new :: l2).
Proof.
  pose proof (t_sorted _ _ T root) as Hs. rewrite EK in Hs.
  apply StronglySorted_app in Hs as (Hc & H1 & H2). rewrite Forall_forall in *.
  apply StronglySorted_app. split_and!; [|done|].
  - intros x y Hx [->|Hy]%elem_of_cons; [by apply Hb|by apply Hc].
  - constructor; [done|]. by rewrite Forall_forall.
Qed.

Lemma link_rep m' : linked m' → tree_rep m' (kset root (l1 ++ new :: l2) K).
Proof.
  intros [D G]. pose proof link_ne as Hne. pose proof link_new_kid as Hnk.
  pose proof (kids_NoDup T root) as Hnd.
  apply (rep_edit m K); try done.
  - intros x. rewrite G. case_decide; subst; by autorewrite with kern.
  - intros x Hx. rewrite G. destruct (decide (x = new)) as [->|Hxn].
    + by rewrite decide_False.
    + rewrite slot_upd_child. destruct (decide (x = root)) as [->|].
      * destruct l1; [by rewrite decide_True|].
        rewrite decide_False by naive_solver. by rewrite (t_chi _ _ T), EK.
      * by rewrite decide_False by naive_solver.
  - intros r1 b r2 E. rewrite G. destruct (split_around _ _ _ _ _ _ E)
      as [(-> & -> & ->)|[(r & -> & ->)|(r & -> & ->)]].
    + by rewrite decide_True.
    + rewrite decide_False, slot_upd_sibling, decide_False.
      * apply (t_sib _ _ T root (l1 ++ r)). by rewrite EK, <- app_assoc.
      * intros Hl%last_in. rewrite EK in Hnd. apply NoDup_app in Hnd as (_ & Hd & _).
        apply (Hd _ Hl). set_solver.
      * intros ->. apply Hnk. rewrite EK. set_solver.
    + rewrite decide_False, slot_upd_sibling.
      * destruct r as [|z r].
        -- rewrite last_snoc, decide_True by done. done.
        -- rewrite decide_False.
           ++ rewrite (t_sib _ _ T root r1 b ((z :: r) ++ l2)); [done|].
              by rewrite EK, <- app_assoc.
           ++ intros Hl%last_split; [done|]. rewrite EK in Hnd. by apply NoDup_app in Hnd as [? _].
      * intros ->. apply Hnk. rewrite EK. set_solver.
  - intros b Hb1 Hb2. rewrite G, decide_False, slot_upd_sibling, decide_False; [done| |].
    + intros Hl%last_in. set_solver.
    + set_solver.
  - intros b. rewrite G. destruct (decide (b = new)) as [->|Hbn].
    + by rewrite decide_True by set_solver.
    + autorewrite with kern. destruct (decide (b ∈ l1 ++ new :: l2)) as [Hb1|Hb1].
      * apply (t_par _ _ T). rewrite EK. set_solver.
      * rewrite decide_False; [done|]. rewrite EK. set_solver.
  - intros b Hb1. destruct (decide (b = new)) as [->|]; [by right|left]. rewrite EK. set_solver.
  - apply link_sorted.
  - intros b Hb1. destruct (decide (b = new)) as [->|]; [done|]. apply (t_in _ _ T).
    rewrite EK. set_solver.
Qed.
End link.

(** ** request_resource *)

(** [new] is a range of its own and lies inside [root]. *)
Definition fits (m : store) (root new : nat) : Prop :=
  r_start (get m root) ≤ r_start (get m new) ≤ r_end (get m new) ∧
  r_end (get m new) ≤ r_end (get m root).

Global Instance fits_dec m root new : Decision (fits m root new).
Proof. unfold fits. apply _. Defined.

(** The two ranges have an address in common. *)
Definition overlap (m : store) (x y : nat) : Prop :=
  r_start (get m x) ≤ r_end (get m y) ∧ r_start (get m y) ≤ r_end (get m x).

(** [new] is not in the tree: it has no parent, and [root] is not below it. *)
Definition detached (m : store) (root new : nat) : Prop :=
  new ∈ dom m ∧ r_parent (get m new) = None ∧ ¬ rtc (up m) root new.

Section request.
Context {m : store} {K : nat → list nat} (T : tree_rep m K).
Context (root new : nat).

(** The first child of [root] that [new] overlaps. *)
Definition first_conflict (c : nat) : Prop :=
  ∃ l1 l2, K root = l1 ++ c :: l2 ∧
    Forall (λ x, before m x new) l1 ∧ overlap m c new.

Definition request_result (r : store * option nat) : Prop :=
  match r with
  | (m', None) =>
      ∃ l1 l2, K root = l1 ++ l2 ∧ linked (m := m) root new l1 l2 m' ∧
        Forall (λ x, before m x new) l1 ∧ Forall (λ x, before m new x) l2
  | (m', Some c) => m' = m ∧ first_conflict c
  end.

Context (Hroot : root ∈ dom m) (Hdet : detached m root new).

Lemma request_loop_spec l1 l2 fuel :
  K root = l1 ++ l2 → Forall (λ x, before m x new) l1 → (length l2 < fuel)%nat →
  ∃ r, request_loop fuel m root new (r_start (get m new)) (r_end (get m new))
         (slot_of root l1) = Some r ∧ request_result r.
Proof.
  destruct Hdet as (Hnew & Hpar & Hanc).
  revert l1 fuel. induction l2 as [|t l2 IH]; intros l1 [|fuel] EK Hb Hf; cbn in Hf; try lia;
    cbn [request_loop]; rewrite (rd_slot_of T _ _ _ Hroot EK); cbn [head mbind option_bind].
  - destruct (link_run T root new l1 [] Hroot Hnew EK Hpar Hanc) as (m' & E & L).
    exists (m', None). split; [exact E|]. exists l1, []. by split_and!.
  - assert (t ∈ K root) as Ht by (rewrite EK; set_solver).
    rewrite (in_lookup _ _ (kid_dom T _ _ Ht)). cbn [mbind option_bind].
    destruct (decide (r_start (get m t) > r_end (get m new))) as [Hgt|Hgt].
    { destruct (link_run T root new l1 (t :: l2) Hroot Hnew EK Hpar Hanc) as (m' & E & L).
      exists (m', None). split; [exact E|]. exists l1, (t :: l2). split_and!; try done.
      assert (before m new t) as Hbt by (unfold before; lia).
      destruct (kids_split T _ _ _ _ EK) as [_ Hl2]. constructor; [done|].
      eapply Forall_impl; [done|]. intros y. pose proof (t_in _ _ T _ _ Ht).
      unfold before in *. lia. }
    destruct (decide (r_end (get m t) < r_start (get m new))) as [Hlt|Hlt].
    + rewrite <- (slot_of_snoc root l1 t). apply IH; [by rewrite <- app_assoc| |lia].
      apply Forall_app. by repeat constructor.
    + exists (m, Some t). split; [done|]. split; [done|]. exists l1, l2. split_and!; try done.
      unfold overlap. lia.
Qed.

(** [__request_resource] on every branch. *)
Lemma request_spec :
  (¬ fits m root new ∧ __request_resource m root new = Some (m, Some root)) ∨
  (fits m root new ∧ ∃ r, __request_resource m root new = Some r ∧ request_result r).
Proof.
  destruct Hdet as (Hnew & Hpar & Hanc).
  unfold __request_resource. rewrite (in_lookup _ _ Hnew), (in_lookup _ _ Hroot).
  cbn [mbind option_bind]. unfold fits.
  destruct (decide (r_end (get m new) < r_start (get m new))); [left; split; [lia|done]|].
  destruct (decide (r_start (get m new) < r_start (get m root))); [left; split; [lia|done]|].
  destruct (decide (r_end (get m new) > r_end (get m root))); [left; split; [lia|done]|].
  right. split; [lia|]. apply (request_loop_spec [] (K root)); [done|constructor|].
  pose proof (kids_length T root). unfold fuel_of. lia.
Qed.
End request.

(** A successful request grows the tree by one leaf. *)
Lemma request_linked_rep m K root new l1 l2 m' :
  tree_rep m K → root ∈ dom m → detached m root new → fits m root new →
  K root = l1 ++ l2 → Forall (λ x, before m x new) l1 → Forall (λ x, before m new x) l2 →
  linked (m := m) root new l1 l2 m' →
  tree_rep m' (kset root (l1 ++ new :: l2) K).
Proof.
  intros T Hr (Hn & Hp & Ha) Hf EK Hb Hl L.
  exact (link_rep T root new l1 l2 Hr Hn EK Hp Ha Hb Hl Hf m' L).
Qed.

(** ** release_resource *)

Section release.
Context {m : store} {K : nat → list nat} (T : tree_rep m K).
Context (a old : nat) (k1 k2 : list nat) (EK : K a = k1 ++ old :: k2).

Definition unlinked (m' : store) : Prop :=
  dom m' = dom m ∧
  ∀ x, get m' x =
    if decide (x = old) then set_parent None (get m old)
    else slot_upd a k1 (head k2) x (get m x).

Lemma unlink_kid : old ∈ K a.
Proof. rewrite EK. set_solver. Qed.

Lemma unlink_notin : old ∉ k1 ∧ old ∉ k2 ∧ (∀ x, x ∈ k1 → x ∉ k2).
Proof.
  pose proof (kids_NoDup T a) as Hn. rewrite EK in Hn.
  apply NoDup_app in Hn as (_ & H1 & H2). apply NoDup_cons in H2 as [H2 _].
  split_and!; [|done|].
  - intros H%H1. set_solver.
  - intros x Hx%H1. set_solver.
Qed.

Lemma unlink_ne : a ≠ old.
Proof.
  intros E. apply (up_irrefl T old). apply (t_par _ _ T). rewrite <- E at 2. apply unlink_kid.
Qed.

Lemma unlink_rep m' : unlinked m' → tree_rep m' (kset a (k1 ++ k2) K).
Proof.
  intros [D G]. destruct unlink_notin as (N1 & N2 & N3). pose proof unlink_ne as Hne.
  pose proof (parent_dom T _ _ unlink_kid) as Ha. pose proof (kids_NoDup T a) as Hnd.
  rewrite EK in Hnd.
  apply (rep_edit m K); try done.
  - intros x. rewrite G. case_decide; subst; by autorewrite with kern.
  - intros x Hx. rewrite G. destruct (decide (x = old)) as [->|Hxo].
    + by rewrite decide_False.
    + rewrite slot_upd_child. destruct (decide (x = a)) as [->|].
      * destruct k1 as [|z k1']; [by rewrite decide_True|].
        rewrite decide_False by naive_solver. by rewrite (t_chi _ _ T), EK.
      * by rewrite decide_False by naive_solver.
  - intros r1 b r2 E. rewrite G.
    assert (b ∈ k1 ++ k2) as Hb by (rewrite E; set_solver).
    rewrite decide_False by set_solver. rewrite slot_upd_sibling.
    apply app_eq_inv in E as [(k & -> & E)|(k & -> & E)].
    + destruct k as [|z k]; cbn in E; [destruct k2 as [|z k2']; [done|]|].
      * injection E as <- <-. rewrite decide_False.
        -- rewrite (t_sib _ _ T a (r1 ++ [old]) b r2); [done|].
           by rewrite EK, <- !app_assoc.
        -- intros Hl%last_in. apply (N3 _ Hl). set_solver.
      * injection E as <- ->. destruct k as [|y k].
        -- rewrite last_snoc, decide_True by done. done.
        -- rewrite decide_False.
           ++ rewrite (t_sib _ _ T a r1 b ((y :: k) ++ old :: k2)); [done|].
              by rewrite EK, <- app_assoc.
           ++ intros Hl%last_split; [done|]. by apply NoDup_app in Hnd as [? _].
    + rewrite decide_False.
      * apply (t_sib _ _ T a (k1 ++ old :: k)). rewrite EK, E, <- !app_assoc. done.
      * intros Hl%last_in. apply (N3 _ Hl). set_solver.
  - intros b Hb1 Hb2. rewrite G, decide_False, slot_upd_sibling, decide_False; [done| |].
    + intros Hl%last_in. set_solver.
    + intros ->. by apply Hb1, unlink_kid.
  - intros b. rewrite G. destruct (decide (b = old)) as [->|Hbn].
    + rewrite decide_False by set_solver. by rewrite decide_True by apply unlink_kid.
    + autorewrite with kern. destruct (decide (b ∈ k1 ++ k2)) as [Hb1|Hb1].
      * apply (t_par _ _ T). rewrite EK. set_solver.
      * rewrite decide_False; [done|]. rewrite EK. set_solver.
  - intros b Hb. left. rewrite EK. set_solver.
  - pose proof (t_sorted _ _ T a) as Hs. rewrite EK in Hs.
    apply StronglySorted_app in Hs as (H1 & H2 & [H3 _]%StronglySorted_inv).
    apply StronglySorted_app. split_and!; [|done..]. intros x y Hx Hy. apply H1; set_solver.
  - intros b Hb. apply (t_in _ _ T). rewrite EK. set_solver.
Qed.

Lemma release_loop_spec l1 l2 fuel :
  k1 = l1 ++ l2 → (length l2 < fuel)%nat →
  ∃ m', release_loop fuel m old (slot_of a l1) = Some (m', Ok) ∧ unlinked m'.
Proof.
  destruct unlink_notin as (N1 & N2 & N3). pose proof unlink_ne as Hne.
  pose proof (parent_dom T _ _ unlink_kid) as Ha. pose proof (kid_dom T _ _ unlink_kid) as Ho.
  revert l1 fuel. induction l2 as [|t l2 IH]; intros l1 [|fuel] E Hf; cbn in Hf; try lia;
    cbn [release_loop].
  - rewrite app_nil_r in E. subst l1. rewrite (rd_slot_of T _ _ _ Ha EK).
    cbn [head mbind option_bind]. rewrite decide_True by done. rewrite (in_lookup _ _ Ho).
    cbn [mbind option_bind]. rewrite (t_sib _ _ T _ _ _ _ EK).
    destruct (wr_slot_of m a k1 (head k2) Ha) as (m1 & E1 & D1 & G1).
    { intros b Hb. apply (kid_dom T a). rewrite EK. set_solver. }
    rewrite E1. cbn [mbind option_bind]. rewrite upd_in by by rewrite D1.
    cbn [mbind option_bind]. eexists. split; [done|]. split; [set_solver|].
    intros x. rewrite get_insert, !G1. destruct (decide (x = old)) as [->|]; [|done].
    f_equal. unfold slot_upd. destruct (last k1) as [b|] eqn:El; rewrite decide_False; try done.
    apply last_in in El. by intros ->.
  - assert (K a = l1 ++ t :: (l2 ++ old :: k2)) as EK' by (rewrite EK, E, <- app_assoc; done).
    rewrite (rd_slot_of T _ _ _ Ha EK'). cbn [head mbind option_bind].
    rewrite decide_False by (intros ->; apply N1; rewrite E; set_solver).
    rewrite <- (slot_of_snoc a l1 t).
    apply IH; [by rewrite <- app_assoc|lia].
Qed.

Lemma release_spec :
  ∃ m', __release_resource m old = Some (m', Ok) ∧ unlinked m' ∧
    tree_rep m' (kset a (k1 ++ k2) K).
Proof.
  destruct (release_loop_spec [] k1 (fuel_of m) eq_refl) as (m' & E & U).
  { pose proof (kids_length T a) as Hl. rewrite EK, length_app in Hl. unfold fuel_of. lia. }
  exists m'. split_and!; [|done|by apply unlink_rep].
  unfold __release_resource. rewrite (in_lookup _ _ (kid_dom T _ _ unlink_kid)).
  cbn [mbind option_bind]. pose proof unlink_kid as Hk. apply (t_par _ _ T) in Hk.
  unfold up in Hk. by rewrite Hk.
Qed.
End release.

(** ** Walking a chain of siblings *)

(** The nodes [l] are chained by their sibling pointers, the last one pointing
    to [e]. *)
Fixpoint seg (m : store) (l : list nat) (e : option nat) : Prop :=
  match l with
  | [] => True
  | b :: l' => b ∈ dom m ∧ r_sibling (get m b) = (if l' is c :: _ then Some c else e) ∧ seg m l' e
  end.

Lemma seg_kids {m K} (T : tree_rep m K) a l1 l l2 :
  K a = l1 ++ l ++ l2 → seg m l (head l2).
Proof.
  revert l1. induction l as [|b l IH]; intros l1 EK; [done|]. cbn [seg]. split_and!.
  - apply (kid_dom T a). rewrite EK. set_solver.
  - rewrite (t_sib _ _ T a l1 b (l ++ l2)) by done. by destruct l.
  - apply (IH (l1 ++ [b])). by rewrite EK, <- app_assoc.
Qed.

Lemma seg_mono m m' l e :
  (∀ b, b ∈ l → (b ∈ dom m → b ∈ dom m') ∧ r_sibling (get m' b) = r_sibling (get m b)) →
  seg m l e → seg m' l e.
Proof.
  induction l as [|b l IH]; intros H; [done|]. cbn [seg]. intros (H1 & H2 & H3).
  destruct (H b) as [Hd Hs]; [by left|]. rewrite Hs. split_and!; [by apply Hd|done|].
  apply IH; [|done]. intros c Hc. apply H. by right.
Qed.

(** The chain cut after [x]. *)
Lemma seg_cut m m' l x :
  seg m l (Some x) → x ∈ dom m' → r_sibling (get m' x) = None →
  (∀ c, c ∈ l → c ∈ dom m' ∧ r_sibling (get m' c) = r_sibling (get m c)) →
  seg m' (l ++ [x]) None.
Proof.
  intros Hs Hx Hn. induction l as [|c l IH]; cbn [app seg]; intros Hl; [by split_and!|].
  destruct Hs as (_ & Hc & Hs). destruct (Hl c) as [Hd ->]; [by left|]. rewrite Hc.
  split_and!; [done|by destruct l|]. apply IH; [done|]. intros y Hy. apply Hl. by right.
Qed.

(** The node before [first]. *)
Lemma find_pred_spec m first l1 fuel c :
  seg m l1 (Some first) → first ∉ l1 → head l1 = Some c → (length l1 ≤ fuel)%nat →
  ∃ q, find_pred fuel m first c = Some q ∧ last l1 = Some q.
Proof.
  revert fuel c. induction l1 as [|b l1 IH]; intros fuel c Hs Hn Hc Hf; [done|].
  cbn in Hc. injection Hc as <-. destruct fuel as [|fuel]; cbn in Hf; [lia|].
  destruct Hs as (Hd & Hb & Hs). cbn [find_pred].
  rewrite (in_lookup _ _ Hd). cbn [mbind option_bind]. rewrite Hb.
  destruct l1 as [|d l1].
  - rewrite decide_True by done. by exists b.
  - rewrite decide_False by set_solver. cbn [mbind option_bind].
    destruct (IH fuel d Hs) as (q & E & Hl); [set_solver|done|lia|].
    exists q. split; [done|]. by rewrite last_cons_cons.
Qed.

Lemma reparent_spec new l m fuel :
  seg m l None → NoDup l → (length l < fuel)%nat →
  ∃ m', reparent fuel m new (head l) = Some m' ∧ dom m' = dom m ∧
    ∀ x, get m' x = if decide (x ∈ l) then set_parent (Some new) (get m x) else get m x.
Proof.
  revert m fuel. induction l as [|b l IH]; intros m [|fuel] Hs Hn Hf; cbn in Hf; try lia;
    cbn [reparent head].
  - exists m. split_and!; [done..|]. intros x. by rewrite decide_False by set_solver.
  - destruct Hs as (Hd & Hb & Hs). apply NoDup_cons in Hn as [Hbl Hn].
    rewrite upd_in by done. cbn [mbind option_bind]. rewrite lookup_insert_eq.
    cbn [mbind option_bind set_parent r_sibling]. rewrite Hb.
    destruct (IH (<[b := set_parent (Some new) (get m b)]> m) fuel) as (m' & E & D & G).
    { eapply seg_mono; [|done]. intros c Hc. split; [set_solver|].
      rewrite get_insert. case_decide; [set_solver|done]. }
    { done. }
    { lia. }
    exists m'. split_and!.
    + rewrite <- E. by destruct l.
    + set_solver.
    + intros x. rewrite G, get_insert. destruct (decide (x = b)) as [->|Hx].
      * rewrite decide_False, decide_True by set_solver. done.
      * destruct (decide (x ∈ l)).
        -- by rewrite decide_True by set_solver.
        -- by rewrite decide_False by set_solver.
Qed.

(** Whether all of a chain lies in a range. *)
Lemma kids_fit_spec m l s e fuel :
  seg m l None → (length l < fuel)%nat →
  kids_fit fuel m s e (head l) =
    Some (bool_decide (Forall (λ c, s ≤ r_start (get m c) ∧ r_end (get m c) ≤ e) l)).
Proof.
  revert fuel. induction l as [|b l IH]; intros [|fuel] Hs Hf; cbn in Hf; try lia;
    cbn [kids_fit head].
  - by rewrite bool_decide_eq_true_2.
  - destruct Hs as (Hd & Hb & Hs). rewrite (in_lookup _ _ Hd). cbn [mbind option_bind].
    destruct (decide (r_start (get m b) < s ∨ r_end (get m b) > e)) as [Hx|Hx].
    + rewrite bool_decide_eq_false_2; [done|]. intros [H _]%Forall_cons. lia.
    + rewrite Hb. destruct l as [|c l].
      * rewrite bool_decide_eq_true_2; [by destruct fuel; [lia|]|].
        repeat constructor; lia.
      * change (Some c) with (head (c :: l)). rewrite IH by (done || lia).
        f_equal. apply bool_decide_ext. rewrite (Forall_cons _ b). intuition lia.
Qed.

Lemma lookup_loop_spec m l s fuel :
  seg m l None → (length l < fuel)%nat →
  ∃ r, lookup_loop fuel m s (head l) = Some r ∧
    match r with
    | Some a => ∃ l1 l2, l = l1 ++ a :: l2 ∧ r_start (get m a) = s ∧
        Forall (λ c, r_start (get m c) ≠ s) l1
    | None => Forall (λ c, r_start (get m c) ≠ s) l
    end.
Proof.
  revert fuel. induction l as [|b l IH]; intros [|fuel] Hs Hf; cbn in Hf; try lia;
    cbn [lookup_loop head].
  - by exists None.
  - destruct Hs as (Hd & Hb & Hs). rewrite (in_lookup _ _ Hd). cbn [mbind option_bind].
    destruct (decide (r_start (get m b) = s)) as [Hx|Hx].
    + exists (Some b). split; [done|]. exists [], l. by split_and!.
    + destruct (IH fuel Hs) as ([a|] & E & H); [lia|exists (Some a)|exists None];
        (split; [rewrite <- E, Hb; by destruct l|]).
      * destruct H as (l1 & l2 & -> & ? & ?). exists (b :: l1), l2. split_and!; try done.
        by constructor.
      * by constructor.
Qed.

(** * Theorems on request_resource and release_resource *)

(** What [slot_upd] writes back it undoes. *)
Lemma slot_upd_back {m K} (T : tree_rep m K) a l1 l2 v x :
  K a = l1 ++ l2 → a ∈ dom m →
  slot_upd a l1 (head l2) x (slot_upd a l1 v x (get m x)) = get m x.
Proof.
  intros EK Ha. unfold slot_upd. destruct l1 as [|b l1 _] using rev_ind.
  - cbn [last]. repeat case_decide; subst; try done.
    pose proof (t_chi _ _ T a Ha) as Hc. rewrite EK in Hc. cbn in Hc.
    unfold set_child. destruct (get m a). cbn in *. by rewrite Hc.
  - rewrite last_snoc. repeat case_decide; subst; try done.
    rewrite <- app_assoc in EK. pose proof (t_sib _ _ T _ _ _ _ EK) as Hs.
    unfold set_sibling. destruct (get m b). cbn in *. by rewrite Hs.
Qed.

Lemma linked_ranges m root new l1 l2 m' :
  linked (m := m) root new l1 l2 m' → same_ranges m m'.
Proof. intros [_ G] x. rewrite G. case_decide; subst; by autorewrite with kern. Qed.

(** The entry a child list holds at a start address. *)
Lemma lookup_spec {m K} (T : tree_rep m K) root x :
  root ∈ dom m → x ∈ K root → lookup_resource m root (r_start (get m x)) = Some (Some x).
Proof.
  intros Hr Hx. unfold lookup_resource. rewrite (in_lookup _ _ Hr). cbn [mbind option_bind].
  rewrite (t_chi _ _ T _ Hr).
  destruct (lookup_loop_spec m (K root) (r_start (get m x)) (fuel_of m)) as (r & -> & H).
  - apply (seg_kids T root [] (K root) []). by rewrite app_nil_r.
  - pose proof (kids_length T root). unfold fuel_of. lia.
  - destruct r as [a|]; [|rewrite Forall_forall in H; by destruct (H x Hx)].
    destruct H as (l1 & l2 & E & Hs & _). do 2 f_equal.
    destruct (decide (a = x)) as [|Hne]; [done|exfalso].
    assert (a ∈ K root) as Ha by (rewrite E; set_solver).
    pose proof (t_in _ _ T _ _ Ha). pose proof (t_in _ _ T _ _ Hx).
    destruct (kids_split T _ _ _ _ E) as [H1 H2]. rewrite Forall_forall in H1, H2.
    rewrite E in Hx. apply elem_of_app in Hx as [Hx|[->|Hx]%elem_of_cons]; [|done|].
    + pose proof (H1 x Hx) as Hb. unfold before in Hb. lia.
    + pose proof (H2 x Hx) as Hb. unfold before in Hb. lia.
Qed.

(** Two nodes in order do not overlap. *)
Lemma before_not_overlap m x y :
  before m x y ∨ before m y x → ¬ overlap m x y.
Proof. unfold before, overlap. lia. Qed.

Lemma request_ok_iff {m K} (T : tree_rep m K) root new r :
  request_result (K := K) (m := m) root new r →
  r.2 = None ↔ ∀ x, x ∈ K root → ¬ overlap m x new.
Proof.
  destruct r as [m' [c|]]; cbn [request_result snd].
  - intros (_ & l1 & l2 & E & _ & Ho). split; [done|]. intros H. destruct (H c); [|done].
    rewrite E. set_solver.
  - intros (l1 & l2 & E & _ & Hb & Ha). split; [|done]. intros _ x Hx.
    rewrite Forall_forall in Hb, Ha. rewrite E in Hx. apply before_not_overlap.
    apply elem_of_app in Hx as [Hx|Hx]; [left; by apply Hb|right; by apply Ha].
Qed.

(** [request_resource] on a well-formed tree, for a descriptor that is not
    in it, always returns: it succeeds exactly when the range is proper, lies
    inside [root] and meets no child of [root].  On success the descriptor is
    linked between the children before and after it, the result is again a
    well-formed tree, and [lookup_resource] finds it at its start address; on
    failure nothing changes and the conflicting entry is [root] itself or the
    lowest child that overlaps. *)
Theorem request_resource_correct m K root new :
  tree_rep m K → root ∈ dom m → detached m root new →
  ∃ m' c, request_resource_conflict m root new = Some (m', c) ∧
    request_resource m root new = Some (m', if c then Err EBUSY else Ok) ∧
    (c = None ↔ fits m root new ∧ ∀ x, x ∈ K root → ¬ overlap m x new) ∧
    match c with
    | None =>
        ∃ l1 l2, K root = l1 ++ l2 ∧ tree_rep m' (kset root (l1 ++ new :: l2) K) ∧
          same_ranges m m' ∧ lookup_resource m' root (r_start (get m new)) = Some (Some new)
    | Some c => m' = m ∧
        (c = root ∧ ¬ fits m root new ∨ first_conflict (m := m) (K := K) root new c)
    end.
Proof.
  intros T Hr Hd. unfold request_resource, request_resource_conflict.
  destruct (request_spec T root new Hr Hd) as [[Hn ->]|(Hf & [m' c] & -> & Hres)];
    cbn [mbind option_bind].
  - exists m, (Some root). split_and!; try done; [|by left]. split; [done|]. by intros [? _].
  - exists m', c. split_and!; [done|by destruct c| |].
    { rewrite (request_ok_iff T root new (m', c) Hres). tauto. }
    destruct c as [c|]; [destruct Hres; by split; [|right]|].
    destruct Hres as (l1 & l2 & EK & L & Hb & Ha).
    pose proof (request_linked_rep m K root new l1 l2 m' T Hr Hd Hf EK Hb Ha L) as T'.
    exists l1, l2. split_and!; [done|done|by eapply linked_ranges|].
    destruct (linked_ranges _ _ _ _ _ _ L new) as [<- _]. apply (lookup_spec T').
    + by rewrite (proj1 L).
    + rewrite kset_eq. set_solver.
Qed.

(** releasing a resource that was just requested succeeds and restores
    every node of the tree as it was before the request, pointer for pointer;
    only the sibling pointer of the released descriptor itself is left over. *)
Theorem request_release_roundtrip m K root new m1 :
  tree_rep m K → root ∈ dom m → detached m root new →
  request_resource m root new = Some (m1, Ok) →
  ∃ m2, release_resource m1 new = Some (m2, Ok) ∧ tree_rep m2 K ∧
    (∀ x, x ≠ new → get m2 x = get m x) ∧
    set_sibling None (get m2 new) = set_sibling None (get m new).
Proof.
  intros T Hr Hd. unfold request_resource, request_resource_conflict.
  destruct (request_spec T root new Hr Hd) as [[Hn ->]|(Hf & [m' c] & -> & Hres)];
    cbn [mbind option_bind]; [by intros [=]|]. destruct c as [c|]; intros [= <-].
  destruct Hres as (l1 & l2 & EK & L & Hb & Ha).
  pose proof (request_linked_rep m K root new l1 l2 m' T Hr Hd Hf EK Hb Ha L) as T'.
  destruct (release_spec T' root new l1 l2 (kset_eq _ _ _)) as (m2 & E & [D2 G2] & T2).
  assert (∀ x, x ≠ new → get m2 x = get m x) as Hx.
  { intros x Hx. rewrite G2, decide_False, (proj2 L), decide_False by done.
    by apply (slot_upd_back T). }
  exists m2. split_and!; [exact E| |done|].
  - eapply tree_rep_ext; [|exact T2]. intros a. unfold kset. repeat case_decide; by subst.
  - rewrite G2, decide_True, (proj2 L), decide_True by done. destruct (get m new) eqn:En.
    unfold set_sibling, set_parent. cbn. destruct Hd as (_ & Hp & _). rewrite En in Hp. cbn in Hp.
    by rewrite Hp.
Qed.

(** * A concrete tree *)

(** Descriptors without links form a tree each. *)
Lemma rep_flat (m : store) :
  (∀ a r, m !! a = Some r →
    r_parent r = None ∧ r_child r = None ∧ in_u64 (r_start r) ∧ in_u64 (r_end r)) →
  tree_rep m (λ _, []).
Proof.
  intros H.
  assert (∀ a, r_parent (get m a) = None ∧ r_child (get m a) = None ∧
    in_u64 (r_start (get m a)) ∧ in_u64 (r_end (get m a))) as Hg.
  { intros a. unfold get. destruct (m !! a) as [r|] eqn:E; [by eapply H|]. cbn.
    split_and!; try done; by split. }
  assert (∀ x y, ¬ up m x y) as Hup.
  { intros x y. unfold up. by rewrite (proj1 (Hg x)). }
  split.
  - done.
  - intros a _. apply Hg.
  - intros a [|? ?] b l2 E; discriminate.
  - intros a b. split; [set_solver|]. intros Hu. by destruct (Hup _ _ Hu).
  - constructor.
  - set_solver.
  - intros a. constructor. intros y Hy. by destruct (Hup _ _ Hy).
  - intros a. destruct (Hg a) as (_ & _ & ? & ?). by split.
Qed.

Lemma flat_detached (m : store) root new :
  tree_rep m (λ _, []) → new ∈ dom m → root ≠ new → detached m root new.
Proof.
  intros T Hn Hne.
  assert (∀ x y, ¬ up m x y) as Hup by (intros x y H%(t_par _ _ T); set_solver).
  split_and!; [done| |].
  - destruct (r_parent (get m new)) as [p|] eqn:E; [|done]. by destruct (Hup new p).
  - intros H. inversion H as [|? z ? Hz]; subst; [done|]. by destruct (Hup root z).
Qed.

Module ResDemo.

(** The memory space [0, 2^64), a bridge window and three devices. *)
Definition res (s e : Z) : resource := mkResource s e EmptyString IORESOURCE_MEM None None None.

Definition demo : store :=
  <[0%nat := res 0 18446744073709551615]> (<[1%nat := res 4096 8191]>
  (<[2%nat := res 4096 4351]> (<[3%nat := res 8192 12287]> ∅))).

Lemma demo_rep : tree_rep demo (λ _, []).
Proof.
  apply rep_flat. intros a r. unfold demo.
  intros H; repeat (apply lookup_insert_Some in H as [[<- <-]|[_ H]];
    [vm_compute; split_and!; done|]); done.
Qed.

Lemma demo_dom a : (a < 4)%nat → a ∈ dom demo.
Proof.
  intros Ha. apply elem_of_dom. do 4 (destruct a as [|a]; [eexists; reflexivity|]). lia.
Qed.

Lemma demo_detached new : (0 < new < 4)%nat → detached demo 0%nat new.
Proof. intros H. apply flat_detached; [apply demo_rep|apply demo_dom; lia|lia]. Qed.

Lemma request_resource_correct_witness :
  ∃ m' c, request_resource_conflict demo 0%nat 1%nat = Some (m', c) ∧
    request_resource demo 0%nat 1%nat = Some (m', if c then Err EBUSY else Ok) ∧
    (c = None ↔ fits demo 0%nat 1%nat ∧ ∀ x, x ∈ ([] : list nat) → ¬ overlap demo x 1%nat).
Proof.
  destruct (request_resource_correct demo (λ _, []) 0%nat 1%nat demo_rep)
    as (m' & c & H1 & H2 & H3 & _).
  - apply demo_dom. lia.
  - apply demo_detached. lia.
  - by exists m', c.
Defined.

(** The store after the bridge window was requested. *)
Definition demo1 : store := default ∅ (fst <$> request_resource demo 0%nat 1%nat).

Lemma request_release_roundtrip_witness :
  ∃ m2, release_resource demo1 1%nat = Some (m2, Ok) ∧ tree_rep m2 (λ _, []).
Proof.
  destruct (request_release_roundtrip demo (λ _, []) 0%nat 1%nat demo1 demo_rep)
    as (m2 & H1 & H2 & _).
  - apply demo_dom. lia.
  - apply demo_detached. lia.
  - vm_compute. reflexivity.
  - by exists m2.
Defined.

(** The window, the first device inside it, the second beside it, and the
    window again: refused. *)
Example demo_run :
  (m1 ← request_resource demo 0%nat 2%nat;
   m2 ← insert_resource m1.1 0%nat 1%nat;
   m3 ← request_resource m2.1 0%nat 3%nat;
   m4 ← release_resource m3.1 1%nat;
   Some (m1.2, m2.2, m3.2, m4.2, r_child (get m3.1 1%nat), r_sibling (get m3.1 1%nat),
         r_child (get m4.1 0%nat)))
  = Some (Ok, Ok, Ok, Ok, Some 2%nat, Some 3%nat, Some 3%nat).
Proof. vm_compute. reflexivity. Qed.
End ResDemo.
