(* ===== verification/ResourceAlloc.v ===== *)
(** insert_resource, adjust_resource and allocate_resource of
    kernel/resource.c on a well-formed tree.  The definitions are in
    [Resource]; here are the lemmas on the pointer updates of
    [__insert_resource], on changes of range, and on the search for a free
    place, and the theorems on the three operations. *)

From S2P Require Import Prelude Resource.

Local Open Scope Z_scope.

(** ** insert_resource *)

Section adopt.
Context {m : store} {K : nat → list nat} (T : tree_rep m K).
Context (p new : nat) (l1 mid l2 : list nat) (first next : nat).
Context (Hnew : new ∈ dom m) (Hdet : r_parent (get m new) = None) (Hanc : ¬ rtc (up m) p new).
Context (Hleaf : K new = []) (EK : K p = l1 ++ mid ++ l2).
Context (Hfirst : head mid = Some first) (Hnext : last mid = Some next).

(** What the assignments of [__insert_resource] leave. *)
Definition adopted (m' : store) : Prop :=
  dom m' = dom m ∧
  ∀ x, get m' x =
    if decide (x = new) then
      set_child (Some first) (set_sibling (head l2) (set_parent (Some p) (get m new)))
    else if decide (x ∈ mid) then
      set_parent (Some new)
        (if decide (x = next) then set_sibling None (get m x) else get m x)
    else slot_upd p l1 (Some new) x (get m x).

Lemma adopt_in x : x ∈ mid → x ∈ K p.
Proof. rewrite EK. set_solver. Qed.

Lemma adopt_new x : x ∈ K p → x ≠ new.
Proof. intros Hx%(t_par _ _ T) ->. unfold up in Hx. congruence. Qed.

Lemma adopt_disj :
  NoDup l1 ∧ NoDup mid ∧ NoDup l2 ∧ (∀ x, x ∈ mid → x ∉ l1 ∧ x ∉ l2) ∧ (∀ x, x ∈ l1 → x ∉ l2).
Proof.
  pose proof (kids_NoDup T p) as Hn. rewrite EK in Hn.
  apply NoDup_app in Hn as (H1 & H2 & H3). apply NoDup_app in H3 as (H3 & H4 & H5).
  split_and!; try done.
  - intros x Hx. split; [|by apply H4]. intros Hx1%H2. set_solver.
  - intros x Hx%H2. set_solver.
Qed.

Lemma adopt_kids : first ∈ mid ∧ next ∈ mid.
Proof. split; [by apply head_Some_elem_of|by apply last_in]. Qed.

Lemma adopt_p : p ∈ dom m ∧ p ≠ new ∧ p ∉ mid.
Proof.
  destruct adopt_kids as [Hf _]. split_and!.
  - by apply (parent_dom T _ first), adopt_in.
  - intros E. apply Hanc. by rewrite E.
  - intros H. apply (up_irrefl T p), (t_par _ _ T). by apply adopt_in.
Qed.

(** The stores of the three steps before the last assignment. *)
Lemma adopt_mid : ∃ m3,
  (m1 ← upd m new (λ r, set_child (Some first)
                          (set_sibling (head l2) (set_parent (Some p) r)));
   m2 ← upd m1 next (set_sibling None);
   reparent (fuel_of m2) m2 new (Some first)) = Some m3 ∧ dom m3 = dom m ∧
  ∀ x, get m3 x =
    if decide (x = new) then
      set_child (Some first) (set_sibling (head l2) (set_parent (Some p) (get m new)))
    else if decide (x ∈ mid) then
      set_parent (Some new)
        (if decide (x = next) then set_sibling None (get m x) else get m x)
    else get m x.
Proof.
  destruct adopt_kids as [Hf Hn]. destruct adopt_disj as (_ & Hnm & _ & Hd & _).
  pose proof (λ x H, adopt_new x (adopt_in x H)) as Hnew'.
  assert (∀ c, c ∈ mid → c ∈ dom m) as Hdm by (intros; by apply (kid_dom T p), adopt_in).
  pose proof (Hdm next Hn) as Hnd.
  rewrite upd_in by done. cbn [mbind option_bind]. rewrite upd_in by set_solver.
  cbn [mbind option_bind].
  set (m1 := <[new := _]> m). set (m2 := <[next := _]> m1).
  assert (∀ x, get m2 x = if decide (x = next) then set_sibling None (get m x) else get m1 x) as G2.
  { intros x. unfold m2. rewrite get_insert. destruct (decide (x = next)) as [->|]; [|done].
    unfold m1. rewrite get_insert, decide_False; [done|]. by apply Hnew'. }
  assert (seg m2 mid None) as Hseg.
  { destruct mid as [|b mm _] using rev_ind; [done|]. rewrite last_snoc in Hnext.
    injection Hnext as ->. apply NoDup_app in Hnm as (_ & Hnm & _).
    apply (seg_cut m).
    - apply (seg_kids T p l1 mm ([next] ++ l2)). by rewrite EK, <- app_assoc.
    - unfold m2, m1. set_solver.
    - by rewrite G2, decide_True.
    - intros c Hc. assert (c ∈ dom m) by (apply Hdm; set_solver).
      split; [unfold m2, m1; set_solver|]. rewrite G2, decide_False by set_solver.
      unfold m1. rewrite get_insert, decide_False; [done|]. apply Hnew'. set_solver. }
  destruct (reparent_spec new mid m2 (fuel_of m2) Hseg Hnm) as (m3 & E3 & D3 & G3).
  { unfold fuel_of. assert (size m2 = size m) as -> by (rewrite <- !size_dom; f_equal; unfold m2, m1; set_solver).
    pose proof (kids_length T p) as Hl. rewrite EK, !length_app in Hl. lia. }
  rewrite Hfirst in E3. exists m3. split_and!; [done|unfold m2, m1 in *; set_solver|].
  intros x. rewrite G3, G2. unfold m1. rewrite get_insert.
  destruct (decide (x = new)) as [->|Hx].
  - rewrite !decide_False; [done|..].
    + intros E. by apply (Hnew' next).
    + intros H. by apply (Hnew' new).
  - destruct (decide (x ∈ mid)) as [Hm|Hm]; [done|]. rewrite decide_False; [done|]. by intros ->.
Qed.

Lemma adopt_run : ∃ m', insert_adopt m p new first next = Some m' ∧ adopted m'.
Proof.
  destruct adopt_mid as (m3 & E3 & D3 & G3). destruct adopt_kids as [Hf Hn].
  destruct adopt_disj as (_ & _ & _ & Hd & _). destruct adopt_p as (Hp & Hpn & Hpm).
  assert (next ∈ dom m) as Hnd by by apply (kid_dom T p), adopt_in.
  unfold insert_adopt. rewrite (in_lookup _ _ Hnd). cbn [mbind option_bind].
  assert (r_sibling (get m next) = head l2) as ->.
  { destruct mid as [|b mm _] using rev_ind; [done|]. rewrite last_snoc in Hnext.
    injection Hnext as ->. apply (t_sib _ _ T p (l1 ++ mm)). rewrite EK. by rewrite <- !app_assoc. }
  destruct (upd m new _) as [m1|] eqn:E1; [|done]. cbn [mbind option_bind] in *.
  destruct (upd m1 next _) as [m2|] eqn:E2; [|done]. cbn [mbind option_bind] in *.
  rewrite E3. cbn [mbind option_bind].
  rewrite (in_lookup m3 p) by by rewrite D3. cbn [mbind option_bind].
  assert (get m3 p = get m p) as Gp by by rewrite G3, !decide_False.
  rewrite Gp, (t_chi _ _ T p Hp), EK.
  assert (∀ m' q, last l1 = q →
    dom m' = dom m3 ∧ (∀ x, get m' x = slot_upd p l1 (Some new) x (get m3 x)) → adopted m') as Hfin.
  { intros m' q Hq [D G]. split; [by rewrite D|]. intros x. rewrite G, G3.
    destruct (decide (x = new)) as [->|Hx]; [|destruct (decide (x ∈ mid)) as [Hm|Hm]; [|done]];
      unfold slot_upd; destruct (last l1) as [b|] eqn:El; rewrite decide_False; try done.
    - intros E. apply (adopt_new b); [|done]. rewrite EK. apply last_in in El. set_solver.
    - intros E. apply (proj1 (Hd _ Hm)), last_in. by rewrite E.
    - intros E. by rewrite E in Hm. }
  destruct l1 as [|c l1']; cbn [app head].
  - destruct mid as [|b mm]; [done|]. cbn in Hfirst. cbn [app head].
    injection Hfirst as ->. rewrite decide_True by done. rewrite upd_in by by rewrite D3.
    eexists. split; [done|]. apply (Hfin _ None); [done|]. split; [set_solver|].
    intros x. rewrite get_insert. cbn. by destruct (decide (x = p)) as [->|].
  - assert (first ∉ c :: l1') as Hfl by by apply Hd.
    rewrite decide_False by (intros [= ->]; apply Hfl; by left). cbn [mbind option_bind].
    destruct (find_pred_spec m3 first (c :: l1') (fuel_of m3) c) as (q & Eq & Hq).
    { eapply seg_mono; [|replace (Some first) with (head (mid ++ l2));
        [apply (seg_kids T p [] (c :: l1')); by rewrite EK|by destruct mid]].
      intros b Hb. rewrite D3. split; [done|]. rewrite G3, !decide_False; [done|..].
      - intros H. by apply (Hd b) in Hb.
      - intros ->. apply (adopt_new new); [|done]. rewrite EK. set_solver. }
    { done. }
    { done. }
    { unfold fuel_of. rewrite <- size_dom, D3, size_dom. pose proof (kids_length T p) as Hl.
      rewrite EK, length_app in Hl. lia. }
    rewrite Eq. cbn [mbind option_bind].
    assert (q ∈ dom m) as Hqd by (apply (kid_dom T p); rewrite EK; apply last_in in Hq; set_solver).
    rewrite upd_in by by rewrite D3. eexists. split; [done|].
    apply (Hfin _ (Some q)); [done|]. split; [set_solver|].
    intros x. rewrite get_insert. unfold slot_upd. rewrite Hq. by destruct (decide (x = q)) as [->|].
Qed.

Context (Hmid : Forall (fits m new) mid) (Hfit : fits m p new).
Context (Hb : Forall (λ x, before m x new) l1) (Ha : Forall (λ x, before m new x) l2).

Definition adoptK : nat → list nat := kset p (l1 ++ new :: l2) (kset new mid K).

Lemma adoptK_p : adoptK p = l1 ++ new :: l2.
Proof. apply kset_eq. Qed.

Lemma adoptK_new : adoptK new = mid.
Proof. destruct adopt_p as (_ & Hp & _). unfold adoptK. by rewrite kset_ne, kset_eq. Qed.

Lemma adoptK_other a : a ≠ p → a ≠ new → adoptK a = K a.
Proof. intros. unfold adoptK. by rewrite !kset_ne. Qed.

Lemma adopt_ranges m' : adopted m' → same_ranges m m'.
Proof. intros [_ G] x. rewrite G. repeat case_decide; subst; by autorewrite with kern. Qed.

Lemma adopt_chi m' a : adopted m' → a ∈ dom m → r_child (get m' a) = head (adoptK a).
Proof.
  intros [_ G] Hd. destruct adopt_p as (Hp & Hpn & Hpm). rewrite G.
  destruct (decide (a = new)) as [->|Hn]; [by rewrite adoptK_new|].
  destruct (decide (a = p)) as [->|Hap].
  - rewrite decide_False by done. rewrite slot_upd_child, adoptK_p.
    destruct (decide (l1 = [] ∧ p = p)) as [[-> _]|Hl]; [done|].
    rewrite (t_chi _ _ T _ Hp), EK. destruct l1; [by destruct Hl|done].
  - rewrite adoptK_other, <- (t_chi _ _ T _ Hd) by done.
    destruct (decide (a ∈ mid)); [by case_decide|].
    rewrite slot_upd_child, decide_False; [done|]. by intros [_ ?].
Qed.

Lemma adopt_sib_p m' r1 b r2 :
  adopted m' → l1 ++ new :: l2 = r1 ++ b :: r2 → r_sibling (get m' b) = head r2.
Proof.
  intros [_ G] E. destruct adopt_disj as (N1 & _ & _ & Hd & Hd12). rewrite G.
  assert (∀ x, x ∈ l1 ++ l2 → x ≠ new) as Hne.
  { intros x Hx. apply adopt_new. rewrite EK. set_solver. }
  destruct (split_around _ _ _ _ _ _ E) as [(-> & -> & ->)|[(r & -> & El)|(r & El & ->)]].
  - by rewrite decide_True.
  - assert (b ∈ l2) as Hb2 by (rewrite El; set_solver).
    rewrite decide_False by (apply Hne; set_solver).
    rewrite decide_False by (intros H; by apply Hd in H as [_ H]).
    rewrite slot_upd_sibling, decide_False by (intros Hl%last_in; by apply (Hd12 b)).
    apply (t_sib _ _ T p (l1 ++ mid ++ r)). by rewrite EK, El, <- !app_assoc.
  - assert (b ∈ l1) as Hb1 by (rewrite El; set_solver).
    rewrite decide_False by (apply Hne; set_solver).
    rewrite decide_False by (intros H; by apply Hd in H as [H _]).
    rewrite slot_upd_sibling. destruct r as [|z r].
    + by rewrite El, last_snoc, decide_True.
    + rewrite decide_False.
      * rewrite (t_sib _ _ T p r1 b ((z :: r) ++ mid ++ l2)); [done|].
        by rewrite EK, El, <- app_assoc.
      * rewrite El. intros Hl%last_split; [done|]. by rewrite <- El.
Qed.

Lemma adopt_sib_new m' r1 b r2 :
  adopted m' → mid = r1 ++ b :: r2 → r_sibling (get m' b) = head r2.
Proof.
  intros [_ G] E. destruct adopt_disj as (_ & Nm & _ & Hd & _).
  assert (b ∈ mid) as Hbm by (rewrite E; set_solver). rewrite G.
  rewrite decide_False, decide_True by (try done; by apply adopt_new, adopt_in).
  cbn [set_parent r_sibling]. destruct r2 as [|c r2].
  - rewrite decide_True; [done|]. rewrite E, last_snoc in Hnext. by injection Hnext.
  - rewrite decide_False.
    + apply (t_sib _ _ T p (l1 ++ r1) b (c :: r2 ++ l2)). by rewrite EK, E, <- !app_assoc.
    + intros ->. rewrite E in Hnext, Nm. by apply last_split in Hnext.
Qed.

Lemma adopt_par m' a b : adopted m' → b ∈ adoptK a ↔ up m' b a.
Proof.
  intros [_ G]. pose proof adopt_p as (Hp & Hpn & Hpm). unfold up. rewrite G.
  pose proof (t_par _ _ T) as HP. unfold up in HP.
  destruct (decide (b = new)) as [->|Hbn]; [cbn|destruct (decide (b ∈ mid)) as [Hm|Hm]; [cbn|]].
  - destruct (decide (a = p)) as [->|Hap]; [rewrite adoptK_p; split; [done|set_solver]|].
    destruct (decide (a = new)) as [->|Han].
    + rewrite adoptK_new. split; [|congruence]. intros H. by destruct (adopt_new new (adopt_in _ H)).
    + rewrite adoptK_other by done. rewrite HP, Hdet. split; congruence.
  - destruct (decide (a = p)) as [->|Hap].
    { rewrite adoptK_p. split; [|congruence]. destruct adopt_disj as (_ & _ & _ & Hd & _).
      destruct (Hd b Hm). set_solver. }
    destruct (decide (a = new)) as [->|Han]; [by rewrite adoptK_new|].
    rewrite adoptK_other by done. split; [|congruence]. intros H.
    destruct Hap. by apply (kid_one_parent T _ _ b), adopt_in.
  - rewrite slot_upd_parent. destruct (decide (a = p)) as [->|Hap].
    { rewrite adoptK_p, <- HP, EK. set_solver. }
    destruct (decide (a = new)) as [->|Han]; [|by rewrite adoptK_other, HP].
    rewrite adoptK_new, <- HP, Hleaf. set_solver.
Qed.

Lemma tc_irrefl b : ¬ tc (up m) b b.
Proof.
  assert (∀ x y, tc (up m) x y → Acc (λ q c, up m c q) x → x = y → False) as H; [|by eauto using t_wf].
  intros x y Hxy HA. revert y Hxy. induction HA as [x _ IH]. intros y Hxy ->.
  inversion Hxy as [? z Hz|? z ? Hz Hzy]; subst.
  - by apply (IH y Hz y).
  - apply (IH z Hz z); [|done]. by eapply tc_r.
Qed.

Lemma adopt_wf m' a : adopted m' → Acc (λ q b, up m' b q) a.
Proof.
  intros A. pose proof adopt_p as (Hp & Hpn & Hpm).
  assert (∀ b q, up m' b q → up m b q ∨ b = new ∧ q = p ∨ b ∈ mid ∧ q = new) as Hup.
  { intros b q H. apply (adopt_par _ _ _ A) in H. destruct (decide (q = p)) as [->|Hq].
    - rewrite adoptK_p in H. destruct (decide (b = new)) as [->|]; [by right; left|].
      left. apply (t_par _ _ T). rewrite EK. set_solver.
    - destruct (decide (q = new)) as [->|Hqn].
      + rewrite adoptK_new in H. by right; right.
      + rewrite adoptK_other in H by done. left. by apply (t_par _ _ T). }
  assert (∀ x, rtc (up m) p x → Acc (λ q b, up m' b q) x) as H1.
  { intros x. induction (t_wf _ _ T x) as [x _ IH]. intros Hr. constructor. intros q Hq.
    destruct (Hup _ _ Hq) as [H|[[-> _]|[H _]]].
    - apply IH; [done|]. by eapply rtc_r.
    - done.
    - destruct (tc_irrefl p). eapply tc_rtc_l; [done|]. apply tc_once, (t_par _ _ T). by apply adopt_in. }
  assert (Acc (λ q b, up m' b q) new) as H2.
  { constructor. intros q Hq. destruct (Hup _ _ Hq) as [H|[[_ ->]|[H _]]].
    - unfold up in H. congruence.
    - by apply H1.
    - by destruct (adopt_new new (adopt_in _ H)). }
  induction (t_wf _ _ T a) as [x _ IH]. constructor. intros q Hq.
  destruct (Hup _ _ Hq) as [H|[[_ ->]|[_ ->]]]; [by apply IH|by apply H1|done].
Qed.

Lemma adopt_rep m' : adopted m' → tree_rep m' adoptK.
Proof.
  intros A. pose proof (adopt_ranges _ A) as Hr. pose proof adopt_p as (Hp & Hpn & Hpm).
  pose proof (t_sorted _ _ T p) as Hs. rewrite EK in Hs.
  apply StronglySorted_app in Hs as (S1 & S2 & S3). apply StronglySorted_app in S3 as (S4 & S5 & S6).
  pose proof (proj1 (Forall_forall _ _) Hb) as Hb'.
  pose proof (proj1 (Forall_forall _ _) Hmid) as Hmid'. split.
  - intros a Hd. rewrite (proj1 A) in Hd. rewrite adoptK_other by (by intros ->).
    by apply (t_dom _ _ T).
  - intros a Hd. rewrite (proj1 A) in Hd. by apply adopt_chi.
  - intros a r1 b r2 E. destruct (decide (a = p)) as [->|Hap].
    { rewrite adoptK_p in E. by eapply adopt_sib_p. }
    destruct (decide (a = new)) as [->|Han].
    { rewrite adoptK_new in E. by eapply adopt_sib_new. }
    rewrite adoptK_other in E by done. assert (b ∈ K a) as Hba by (rewrite E; set_solver).
    rewrite (proj2 A), !decide_False, slot_upd_sibling, decide_False.
    + by apply (t_sib _ _ T _ _ _ _ E).
    + intros Hl%last_in. apply Hap, (kid_one_parent T _ _ b Hba). rewrite EK. set_solver.
    + intros Hm. by apply Hap, (kid_one_parent T _ _ b Hba), adopt_in.
    + intros ->. apply (t_par _ _ T) in Hba. unfold up in Hba. congruence.
  - intros a b. by apply adopt_par.
  - intros a. eapply StronglySorted_weaken; [intros ? ? _ _; apply (before_same m m'), Hr|].
    destruct (decide (a = p)) as [->|Hap].
    { rewrite adoptK_p. apply StronglySorted_app. split_and!; [|done|].
      - intros x y Hx [->|Hy]%elem_of_cons; [by apply Hb'|apply S1; set_solver].
      - by constructor. }
    destruct (decide (a = new)) as [->|Han]; [by rewrite adoptK_new|].
    rewrite adoptK_other by done. apply (t_sorted _ _ T).
  - intros a b Hba. rewrite (proj1 (Hr a)), (proj2 (Hr a)), (proj1 (Hr b)), (proj2 (Hr b)).
    destruct (decide (a = p)) as [->|Hap].
    { rewrite adoptK_p in Hba. destruct (decide (b = new)) as [->|]; [done|].
      apply (t_in _ _ T). rewrite EK. set_solver. }
    destruct (decide (a = new)) as [->|Han].
    { rewrite adoptK_new in Hba. by apply Hmid'. }
    rewrite adoptK_other in Hba by done. by apply (t_in _ _ T).
  - intros a. by apply adopt_wf.
  - intros a. rewrite (proj1 (Hr a)), (proj2 (Hr a)). apply (t_width _ _ T).
Qed.
End adopt.

(** A node below [root] is detached from [new] when [root] is. *)
Lemma detached_below m p root new :
  rtc (up m) p root → detached m root new → detached m p new.
Proof.
  intros Hr (Hn & Hp & Ha). split_and!; try done. intros Hx. apply Ha.
  revert Hx. induction Hr as [p|p q root Hpq Hq IH]; [done|]. intros Hx. apply IH; [done|].
  inversion Hx as [|? z ? Hz Hzn]; subst.
  - unfold up in Hpq. congruence.
  - unfold up in *. by replace q with z by congruence.
Qed.

Section insert.
Context {m : store} {K : nat → list nat} (T : tree_rep m K).
Context (root new : nat) (Hroot : root ∈ dom m) (Hdet : detached m root new).
Context (Hleaf : K new = []).

(** [c] is a child of [p] where the descent stops: [new] meets it first among
    the children of [p] and does not fit properly inside it. *)
Definition stops_at (p c : nat) : Prop :=
  fits m p new ∧ ∃ l1 l2, K p = l1 ++ c :: l2 ∧ Forall (λ x, before m x new) l1 ∧
    overlap m c new ∧
    (¬ fits m c new ∨
     r_start (get m c) = r_start (get m new) ∧ r_end (get m c) = r_end (get m new)).

Definition descend_result (r : store * (option nat + nat * nat)) : Prop :=
  match r with
  | (m', inl None) =>
      ∃ p l1 l2, rtc (up m) p root ∧ fits m p new ∧ K p = l1 ++ l2 ∧
        Forall (λ x, before m x new) l1 ∧ Forall (λ x, before m new x) l2 ∧
        linked (m := m) p new l1 l2 m'
  | (m', inl (Some c)) => m' = m ∧ c = root ∧ ¬ fits m root new
  | (m', inr (p, c)) => m' = m ∧ rtc (up m) p root ∧ stops_at p c
  end.

Lemma descend_spec (V : gset nat) p fuel :
  rtc (up m) p root → p ∈ dom m → fits m p new ∨ p = root → V ⊆ dom m →
  (∀ v, v ∈ V → tc (up m) p v) → (size m < fuel + size V)%nat →
  ∃ r, insert_descend fuel m p new = Some r ∧ descend_result r.
Proof.
  revert V p. induction fuel as [|fuel IH]; intros V p Hr Hp Hf HV Htc Hsz.
  { apply subseteq_size in HV. rewrite size_dom in HV. lia. }
  pose proof (detached_below _ _ _ _ Hr Hdet) as Hdp.
  assert (new ∈ dom m) as Hnew by apply Hdet.
  cbn [insert_descend].
  destruct (request_spec T p new Hp Hdp) as [[Hnf ->]|(Hfp & [m' c] & -> & Hres)];
    cbn [mbind option_bind].
  { rewrite decide_True by done. eexists. split; [done|].
    destruct Hf as [Hf| ->]; [done|]. by split_and!. }
  destruct c as [c|].
  2:{ destruct Hres as (l1 & l2 & EK & L & Hb & Ha). eexists. split; [done|].
      exists p, l1, l2. by split_and!. }
  destruct Hres as (-> & l1 & l2 & EK & Hb & Ho).
  assert (c ∈ K p) as Hc by (rewrite EK; set_solver).
  assert (up m c p) as Hup by by apply (t_par _ _ T).
  rewrite decide_False by (intros ->; by apply (up_irrefl T p)).
  rewrite decide_False by (intros ->; destruct Hdet as (_ & Hn & _); unfold up in Hup; congruence).
  rewrite (in_lookup _ _ (kid_dom T _ _ Hc)), (in_lookup _ _ Hnew). cbn [mbind option_bind].
  destruct (decide (r_start (get m c) > r_start (get m new) ∨ r_end (get m c) < r_end (get m new))) as [Hn|Hn].
  { eexists. split; [done|]. split_and!; [done..|]. split; [done|]. exists l1, l2.
    split_and!; try done. left. unfold fits. lia. }
  destruct (decide (r_start (get m c) = r_start (get m new) ∧ r_end (get m c) = r_end (get m new))) as [He|He].
  { eexists. split; [done|]. split_and!; [done..|]. split; [done|]. exists l1, l2.
    split_and!; try done. by right. }
  assert (p ∉ V) as HpV by (intros H%Htc; by apply (tc_irrefl T p)).
  apply (IH ({[p]} ∪ V)).
  - by eapply rtc_l.
  - by apply (kid_dom T p).
  - left. unfold fits in *. lia.
  - set_solver.
  - intros v [->%elem_of_singleton|Hv]%elem_of_union; [by apply tc_once|].
    eapply tc_l; [done|by apply Htc].
  - rewrite size_union by set_solver. rewrite size_singleton. lia.
Qed.

(** The siblings of the entry found, as far as [new] covers them. *)
Lemma span_spec p l1 x r fuel :
  K p = l1 ++ x :: r → overlap m x new → (length r < fuel)%nat →
  ∃ s, insert_span fuel m new x = Some s ∧
    match s with
    | inl c => c ∈ x :: r ∧ overlap m c new ∧ ¬ fits m new c
    | inr y => ∃ mid l2, x :: r = (mid ++ [y]) ++ l2 ∧ Forall (fits m new) (mid ++ [y]) ∧
        Forall (λ z, before m new z) l2
    end.
Proof.
  assert (new ∈ dom m) as Hnew by apply Hdet.
  revert l1 x fuel. induction r as [|s r IH]; intros l1 x [|fuel] EK Ho Hf; cbn in Hf; try lia;
    cbn [insert_span];
    (assert (x ∈ K p) as Hx by (rewrite EK; set_solver));
    rewrite (in_lookup _ _ (kid_dom T _ _ Hx)), (in_lookup _ _ Hnew); cbn [mbind option_bind];
    pose proof (t_in _ _ T _ _ Hx) as Hix;
    (destruct (decide (r_start (get m x) < r_start (get m new) ∨ r_end (get m x) > r_end (get m new))) as [Hd|Hd];
     [exists (inl x); split_and!; [done|by left|done|unfold fits; lia]|]);
    (assert (fits m new x) as Hfx by (unfold fits; lia));
    rewrite (t_sib _ _ T _ _ _ _ EK); cbn [head].
  - exists (inr x). split; [done|]. exists [], []. split_and!; [done| |done]. by apply Forall_singleton.
  - assert (s ∈ K p) as Hs by (rewrite EK; set_solver).
    rewrite (in_lookup _ _ (kid_dom T _ _ Hs)). cbn [mbind option_bind].
    destruct (kids_split T _ _ _ _ EK) as [_ [Hxs _]%Forall_cons].
    assert (K p = (l1 ++ [x]) ++ s :: r) as EK' by by rewrite <- app_assoc.
    pose proof (t_in _ _ T _ _ Hs) as His.
    destruct (decide (r_start (get m s) > r_end (get m new))) as [Hg|Hg].
    + exists (inr x). split; [done|]. exists [], (s :: r). split_and!; [done|by apply Forall_singleton|].
      destruct (kids_split T _ _ _ _ EK') as [_ Hr]. constructor; [unfold before; lia|].
      eapply Forall_impl; [exact Hr|]. intros z. unfold before in *. lia.
    + destruct (IH (l1 ++ [x]) s fuel EK') as (o & E & H); [|lia|].
      { unfold overlap, before, fits in *. lia. }
      exists o. split; [done|]. destruct o as [c|y].
      * destruct H as (H1 & H2). split; [by right|done].
      * destruct H as (mid & l2 & E2 & H2 & H3). exists (x :: mid), l2. rewrite E2.
        split_and!; [done| |done]. by constructor.
Qed.

(** [__insert_resource] on every branch: [new] goes between a node [p] and the
    children [mid] of [p] that it covers, or nothing changes. *)
Definition insert_result (r : store * option nat) : Prop :=
  match r with
  | (m', None) =>
      ∃ p l1 mid l2, rtc (up m) p root ∧ fits m p new ∧ K p = l1 ++ mid ++ l2 ∧
        Forall (λ x, before m x new) l1 ∧ Forall (fits m new) mid ∧
        Forall (λ x, before m new x) l2 ∧
        dom m' = dom m ∧ same_ranges m m' ∧
        tree_rep m' (kset p (l1 ++ new :: l2) (kset new mid K))
  | (m', Some c) =>
      m' = m ∧ (c = root ∧ ¬ fits m root new ∨
        ∃ p, rtc (up m) p root ∧ fits m p new ∧ c ∈ K p ∧
          overlap m c new ∧ ¬ fits m new c ∧ ¬ fits m c new)
  end.

Lemma insert_resource_spec :
  ∃ r, __insert_resource m root new = Some r ∧ insert_result r.
Proof.
  destruct Hdet as (Hnew & Hpar & _). unfold __insert_resource.
  destruct (descend_spec ∅ root (fuel_of m)) as ([m' o] & -> & Hres);
    [done|done|by right|set_solver..|unfold fuel_of; rewrite size_empty; lia|].
  cbn [mbind option_bind]. destruct o as [[c|]|[p c]].
  - destruct Hres as (-> & -> & Hn). eexists. split; [done|]. split; [done|]. by left.
  - destruct Hres as (p & l1 & l2 & Hr & Hf & EK & Hb & Ha & L). eexists. split; [done|].
    pose proof (detached_below _ _ _ _ Hr Hdet) as Hdp.
    assert (p ∈ dom m) as Hp.
    { apply rtc_inv in Hr as [->|(q & Hq & _)]; [done|by eapply up_dom]. }
    exists p, l1, [], l2.
    split_and!; [exact Hr|exact Hf|exact EK|exact Hb|constructor|exact Ha|apply L| |].
    + intros x. rewrite (proj2 L). case_decide; subst; by autorewrite with kern.
    + eapply tree_rep_ext; [|exact (request_linked_rep m K p new l1 l2 m' T Hp Hdp Hf EK Hb Ha L)].
      intros a. unfold kset. repeat case_decide; subst; congruence.
  - destruct Hres as (-> & Hr & Hf & l1 & l2 & EK & Hb & Ho & Hc).
    destruct (span_spec p l1 c l2 (fuel_of m) EK Ho) as (s & -> & Hs).
    { pose proof (kids_length T p) as Hl. rewrite EK, length_app in Hl. cbn in Hl.
      unfold fuel_of. lia. }
    cbn [mbind option_bind]. destruct s as [d|y].
    + eexists. split; [done|]. split; [done|]. right. exists p. destruct Hs as (H1 & H2 & H3).
      split_and!; try done; [rewrite EK; set_solver|].
      destruct (decide (d = c)) as [->|Hdc].
      { destruct Hc as [|[E1 E2]]; [done|]. destruct H3. unfold fits in *. lia. }
      assert (d ∈ l2) as Hd by set_solver. destruct (kids_split T _ _ _ _ EK) as [_ Hl2].
      rewrite Forall_forall in Hl2. pose proof (Hl2 _ Hd) as Hcd. unfold before, overlap, fits in *.
      lia.
    + destruct Hs as (mid & l3 & E & Hm & Hl3).
      assert (K p = l1 ++ (mid ++ [y]) ++ l3) as EK' by by rewrite EK, E.
      assert (head (mid ++ [y]) = Some c) as Hfst by (destruct mid; cbn in *; congruence).
      destruct (detached_below _ _ _ _ Hr Hdet) as (_ & _ & Hanc).
      destruct (adopt_run T p new l1 (mid ++ [y]) l3 c y) as (m'' & -> & A); try done.
      { by rewrite last_snoc. }
      cbn [mbind option_bind]. eexists. split; [done|].
      exists p, l1, (mid ++ [y]), l3.
      split_and!; [exact Hr|exact Hf|exact EK'|exact Hb|exact Hm|exact Hl3|apply A| |].
      * by apply (adopt_ranges p new l1 (mid ++ [y]) l3 c y).
      * eapply adopt_rep; try done. by rewrite last_snoc.
Qed.
End insert.

(** ** adjust_resource *)

Section range.
Context {m : store} (res : nat) (s e : Z) (Hres : res ∈ dom m).

Definition reranged : store := <[res := set_range s e (get m res)]> m.

Lemma reranged_dom : dom reranged = dom m.
Proof. unfold reranged. set_solver. Qed.

Lemma reranged_get x : get reranged x = if decide (x = res) then set_range s e (get m res) else get m x.
Proof. apply get_insert. Qed.

Lemma reranged_ptr x :
  r_parent (get reranged x) = r_parent (get m x) ∧
  r_sibling (get reranged x) = r_sibling (get m x) ∧
  r_child (get reranged x) = r_child (get m x).
Proof. rewrite reranged_get. by case_decide; subst. Qed.

Context {K : nat → list nat} (T : tree_rep m K).

(** A new range for [res] keeps the tree in order when it stays between the
    neighbours and inside the parent, and covers the children. *)
Context (Hw : in_u64 s ∧ in_u64 e).
Context (Hnb : ∀ a k1 k2, K a = k1 ++ res :: k2 →
  Forall (λ x, r_end (get m x) < s) k1 ∧ Forall (λ y, e < r_start (get m y)) k2 ∧
  r_start (get m a) ≤ s ≤ e ∧ e ≤ r_end (get m a)).
Context (Hkids : Forall (λ c, s ≤ r_start (get m c) ∧ r_end (get m c) ≤ e) (K res)).

Lemma range_sorted a : StronglySorted (before reranged) (K a).
Proof.
  destruct (decide (res ∈ K a)) as [Hin|Hin].
  - apply list_elem_of_split in Hin as (k1 & k2 & E).
    destruct (Hnb _ _ _ E) as (H1 & H2 & _). pose proof (kids_NoDup T a) as Hnd.
    pose proof (t_sorted _ _ T a) as Hs. rewrite E in *.
    apply NoDup_app in Hnd as (_ & N1 & N2). apply NoDup_cons in N2 as [N2 _].
    apply StronglySorted_app in Hs as (S1 & S2 & [S3 _]%StronglySorted_inv).
    rewrite Forall_forall in H1, H2.
    assert (∀ x, x ∈ k1 → x ≠ res) as Hk1 by (intros x Hx ->; apply (N1 _ Hx); by left).
    assert (∀ x, x ∈ k2 → x ≠ res) as Hk2 by (intros x Hx ->; done).
    apply StronglySorted_app. split_and!.
    * intros x y Hx Hy. unfold before. rewrite !reranged_get.
      rewrite (decide_False (P := x = res)) by by apply Hk1.
      apply elem_of_cons in Hy as [->|Hy]; [rewrite decide_True by done; by apply H1|].
      rewrite decide_False by by apply Hk2. apply S1; [done|by right].
    * eapply StronglySorted_weaken; [|done]. intros x y Hx Hy. unfold before.
      rewrite !reranged_get, !decide_False by by apply Hk1. done.
    * constructor.
      -- eapply StronglySorted_weaken; [|done]. intros x y Hx Hy. unfold before.
         rewrite !reranged_get, !decide_False by by apply Hk2. done.
      -- apply Forall_forall. intros y Hy. unfold before.
         rewrite !reranged_get, decide_True, decide_False by (done || by apply Hk2).
         by apply H2.
  - eapply StronglySorted_weaken; [|apply (t_sorted _ _ T)]. intros x y Hx Hy. unfold before.
    rewrite !reranged_get, !decide_False by (by intros ->). done.
Qed.

Lemma range_rep : tree_rep reranged K.
Proof.
  assert (∀ x y, up reranged x y ↔ up m x y) as Hup.
  { intros x y. unfold up. by rewrite (proj1 (reranged_ptr x)). }
  split.
  - intros a. rewrite reranged_dom. apply (t_dom _ _ T).
  - intros a. rewrite reranged_dom, (proj2 (proj2 (reranged_ptr a))). apply (t_chi _ _ T).
  - intros a k1 b k2. rewrite (proj1 (proj2 (reranged_ptr b))). apply (t_sib _ _ T).
  - intros a b. rewrite Hup. apply (t_par _ _ T).
  - apply range_sorted.
  - intros a b Hb. pose proof (t_in _ _ T _ _ Hb) as Hi. rewrite !reranged_get.
    rewrite Forall_forall in Hkids.
    destruct (decide (b = res)) as [->|Hbr]; destruct (decide (a = res)) as [->|Har]; cbn.
    + destruct (up_irrefl T res). by apply (t_par _ _ T).
    + apply list_elem_of_split in Hb as (k1 & k2 & E). by destruct (Hnb _ _ _ E) as (_ & _ & ?).
    + destruct (Hkids _ Hb). lia.
    + done.
  - apply (acc_add m reranged res (λ _, False)); [apply (t_wf _ _ T)| |done].
    intros b p Hb. left. by apply Hup.
  - intros a. rewrite reranged_get. case_decide; [done|apply (t_width _ _ T)].
Qed.
End range.

(** The neighbours and the parent of [res] leave room for [s, e]. *)
Definition room (m : store) (K : nat → list nat) (res : nat) (s e : Z) : Prop :=
  ∀ a k1 k2, K a = k1 ++ res :: k2 →
    r_start (get m a) ≤ s ∧ e ≤ r_end (get m a) ∧
    Forall (λ x, r_end (get m x) < s) k1 ∧ Forall (λ y, e < r_start (get m y)) k2.

Section adjust.
Context {m : store} {K : nat → list nat} (T : tree_rep m K).
Context (res : nat) (Hres : res ∈ dom m).

(** Against sorted siblings the nearest one decides. *)
Lemma last_before a k1 k2 s :
  K a = k1 ++ k2 →
  Forall (λ x, r_end (get m x) < s) k1 ↔
  (∀ q, last k1 = Some q → r_end (get m q) < s).
Proof.
  intros E. rewrite Forall_forall. split; [intros H q Hq%last_in; by apply H|].
  intros H. destruct k1 as [|q k1 _] using rev_ind; [set_solver|].
  specialize (H q). rewrite last_snoc in H. specialize (H eq_refl).
  rewrite <- app_assoc in E. cbn in E. destruct (kids_split T _ _ _ _ E) as [Hk _].
  rewrite Forall_forall in Hk.
  assert (q ∈ K a) as Hq by (rewrite E; set_solver). pose proof (t_in _ _ T _ _ Hq).
  intros x [Hx| ->%list_elem_of_singleton]%elem_of_app; [|done].
  pose proof (Hk _ Hx) as Hb. unfold before in Hb. lia.
Qed.

Lemma head_after a k1 k2 e :
  K a = k1 ++ k2 →
  Forall (λ y, e < r_start (get m y)) k2 ↔
  (∀ q, head k2 = Some q → e < r_start (get m q)).
Proof.
  intros E. destruct k2 as [|q k2]; [by split; [|constructor]|].
  destruct (kids_split T _ _ _ _ E) as [_ Hk]. rewrite Forall_cons. split.
  - intros [H _] ? [= <-]. done.
  - intros H. specialize (H q eq_refl). split; [done|]. eapply Forall_impl; [exact Hk|].
    assert (q ∈ K a) as Hq by (rewrite E; set_solver). pose proof (t_in _ _ T _ _ Hq).
    intros y Hb. unfold before in Hb. cbn. lia.
Qed.

Lemma room_near a k1 k2 s e :
  K a = k1 ++ res :: k2 →
  room m K res s e ↔
  r_start (get m a) ≤ s ∧ e ≤ r_end (get m a) ∧
  (∀ q, last k1 = Some q → r_end (get m q) < s) ∧
  (∀ q, head k2 = Some q → e < r_start (get m q)).
Proof.
  intros E. rewrite <- (last_before a k1 (res :: k2) s E).
  rewrite <- (head_after a (k1 ++ [res]) k2 e) by by rewrite <- app_assoc.
  split; [intros H; by apply H|]. intros H a' r1 r2 E'.
  assert (a' = a) as -> by (apply (kid_one_parent T _ _ res); [rewrite E'|rewrite E]; set_solver).
  rewrite E in E'. pose proof (kids_NoDup T a) as Hnd. rewrite E in Hnd.
  apply NoDup_app in Hnd as (_ & N1 & N2). apply NoDup_cons in N2 as [N2 _].
  destruct (split_around _ _ _ _ _ _ E') as [(-> & _ & ->)|[(r & -> & ->)|(r & -> & ->)]]; [done|..].
  - destruct N2. set_solver.
  - destruct (N1 res); set_solver.
Qed.

Lemma room_ok_spec s e :
  ∃ b, room_ok m res (get m res) s e = Some b ∧ (b = true ↔ room m K res s e).
Proof.
  unfold room_ok. destruct (r_parent (get m res)) as [a|] eqn:Ea.
  2:{ exists true. split; [done|]. split; [|done]. intros _ a k1 k2 E.
      assert (up m res a) as Hu by (apply (t_par _ _ T); rewrite E; set_solver).
      unfold up in Hu. congruence. }
  assert (res ∈ K a) as Hin by by apply (t_par _ _ T).
  pose proof (parent_dom T _ _ Hin) as Ha. rewrite (in_lookup _ _ Ha). cbn [mbind option_bind].
  apply list_elem_of_split in Hin as (k1 & k2 & E).
  setoid_rewrite (room_near a k1 k2 s e E).
  destruct (decide (s < r_start (get m a) ∨ e > r_end (get m a))) as [Ho|Ho].
  { exists false. split; [done|]. split; [done|]. lia. }
  rewrite (t_sib _ _ T _ _ _ _ E).
  assert (∃ rb, match head k2 with None => Some true
      | Some y => rs ← m !! y; Some (negb (bool_decide (r_start rs ≤ e))) end = Some rb ∧
      (rb = true ↔ ∀ q, head k2 = Some q → e < r_start (get m q))) as (rb & -> & Hrb).
  { destruct k2 as [|y k2]; cbn [head].
    - exists true. split; [done|]. by split.
    - rewrite (in_lookup m y) by (apply (kid_dom T a); rewrite E; set_solver).
      eexists. split; [done|]. rewrite negb_true_iff, bool_decide_eq_false. split.
      + intros H ? [= <-]. lia.
      + intros H. specialize (H y eq_refl). lia. }
  cbn [mbind option_bind]. setoid_rewrite <- Hrb. clear Hrb.
  destruct rb; cbn [negb]; [|exists false; naive_solver].
  rewrite (t_chi _ _ T _ Ha), E. destruct k1 as [|c k1]; cbn [app head mbind option_bind].
  { rewrite decide_True by done. exists true. split; [done|]. split; [|done].
    intros _. split_and!; [lia|lia|by intros ? [=]|done]. }
  pose proof (kids_NoDup T a) as Hnd. rewrite E in Hnd.
  assert (res ∉ c :: k1) as Hn.
  { intros H. apply NoDup_app in Hnd as (_ & N1 & _). apply (N1 _ H). by left. }
  rewrite decide_False by (intros ->; apply Hn; by left).
  destruct (find_pred_spec m res (c :: k1) (fuel_of m) c) as (q & -> & Hq); try done.
  { apply (seg_kids T a [] (c :: k1) (res :: k2)). done. }
  { unfold fuel_of. pose proof (kids_length T a) as Hl. rewrite E, length_app in Hl. lia. }
  cbn [mbind option_bind].
  rewrite (in_lookup m q) by (apply (kid_dom T a); rewrite E; apply last_in in Hq; set_solver).
  eexists. split; [done|]. rewrite negb_true_iff, bool_decide_eq_false, Hq. split.
  - intros H. split_and!; [lia|lia| |done]. intros ? [= <-]. lia.
  - intros (_ & _ & H & _). specialize (H q eq_refl). lia.
Qed.

Lemma adjust_spec start size :
  let e := u64 (start + size - 1) in
  let kids := Forall (λ c, start ≤ r_start (get m c) ∧ r_end (get m c) ≤ e) (K res) in
  (room m K res start e ∧ kids ∧
    __adjust_resource m res start size = Some (reranged (m := m) res start e, Ok)) ∨
  (¬ (room m K res start e ∧ kids) ∧ __adjust_resource m res start size = Some (m, Err EBUSY)).
Proof.
  intros e kids. unfold __adjust_resource. rewrite (in_lookup _ _ Hres).
  cbn [mbind option_bind]. fold e.
  destruct (room_ok_spec start e) as (b & -> & Hb). cbn [mbind option_bind].
  destruct b; cbn [negb]; [|right; split; [intros [H%Hb _]; done|done]].
  rewrite (t_chi _ _ T _ Hres), (kids_fit_spec m (K res)).
  - cbn [mbind option_bind]. destruct (bool_decide _) eqn:Ek; cbn [negb].
    + apply bool_decide_eq_true in Ek. left. split_and!; [by apply Hb|done|].
      by rewrite upd_in.
    + apply bool_decide_eq_false in Ek. right. split; [by intros [_ ?]|done].
  - apply (seg_kids T res [] (K res) []). by rewrite app_nil_r.
  - pose proof (kids_length T res). unfold fuel_of. lia.
Qed.

Lemma adjust_rep s e :
  in_u64 s → in_u64 e → s ≤ e → room m K res s e →
  Forall (λ c, s ≤ r_start (get m c) ∧ r_end (get m c) ≤ e) (K res) →
  tree_rep (reranged (m := m) res s e) K.
Proof.
  intros H1 H2 Hse Hr Hk. apply range_rep; try done.
  intros a k1 k2 E. destruct (Hr _ _ _ E) as (? & ? & ? & ?). split_and!; done || lia.
Qed.
End adjust.

(** ** allocate_resource *)

Lemma land_u64 y z : in_u64 y → Z.land y (u64 z) = Z.land y z.
Proof.
  intros Hy. unfold wrap. rewrite <- Z.land_ones by lia.
  rewrite (Z.land_comm z), Z.land_assoc, Z.land_ones by lia. f_equal.
  apply Z.mod_small. exact Hy.
Qed.

(** [ALIGN] rounds up to a multiple of a power of two, modulo 2^64. *)
Lemma ALIGN_pow2 x k :
  0 ≤ k < 64 → ALIGN x (2 ^ k) = u64 (x + (2 ^ k - 1)) / 2 ^ k * 2 ^ k.
Proof.
  intros Hk. unfold ALIGN.
  assert (0 < 2 ^ k < 2 ^ 64) as Hp.
  { split; [apply Z.pow_pos_nonneg; lia|apply Z.pow_lt_mono_r; lia]. }
  rewrite (wrap_small 64 (2 ^ k - 1)) by (unfold in_width; lia).
  rewrite land_u64 by apply u64_range.
  replace (2 ^ k - 1) with (Z.ones k) at 2 by (rewrite Z.ones_equiv; lia).
  rewrite <- Z.ldiff_land, Z.ldiff_ones_r by lia.
  by rewrite Z.shiftl_mul_pow2, Z.shiftr_div_pow2 by lia.
Qed.

(** It is the least multiple from [x] on, when there is one in range. *)
Lemma ALIGN_spec x k s :
  0 ≤ k < 64 → in_u64 x →
  (2 ^ k | ALIGN x (2 ^ k)) ∧ in_u64 (ALIGN x (2 ^ k)) ∧
  (in_u64 s → (2 ^ k | s) → x ≤ s → x ≤ ALIGN x (2 ^ k) ≤ s).
Proof.
  intros Hk Hx. rewrite ALIGN_pow2 by done.
  assert (0 < 2 ^ k < 2 ^ 64) as Hp.
  { split; [apply Z.pow_pos_nonneg; lia|apply Z.pow_lt_mono_r; lia]. }
  set (a := 2 ^ k) in *. split_and!.
  - by exists (u64 (x + (a - 1)) / a).
  - pose proof (u64_range (x + (a - 1))) as [? ?].
    pose proof (Z.mul_div_le (u64 (x + (a - 1))) a). split; [|lia].
    apply Z.mul_nonneg_nonneg; [|lia]. apply Z.div_pos; lia.
  - intros Hs [q ->] Hle. unfold in_width in *.
    assert (2 ^ 64 = 2 ^ (64 - k) * a) as E64.
    { unfold a. rewrite <- Z.pow_add_r by lia. f_equal. lia. }
    assert (q < 2 ^ (64 - k)) by nia.
    rewrite (wrap_small 64 (x + (a - 1))) by (unfold in_width; nia).
    pose proof (Z.div_mod (x + (a - 1)) a). pose proof (Z.mod_pos_bound (x + (a - 1)) a).
    split; [lia|]. apply Z.mul_le_mono_nonneg_r; [lia|].
    apply Z.lt_succ_r, Z.div_lt_upper_bound; lia.
Qed.

Section find.
Context {m : store} {K : nat → list nat} (T : tree_rep m K).
Context (root : nat) (old : option nat) (new : resource) (size k min max : Z).
Context (Hroot : root ∈ dom m) (Hk : 0 ≤ k < 64) (Hsize : 1 ≤ size) (Hmin : in_u64 min).

Definition constr : resource_constraint :=
  {| c_min := min; c_max := max; c_align := 2 ^ k; c_alignf := simple_align_resource |}.

(** [s] is an aligned place for [size] addresses within the bounds and free
    among the children of [root] (leaving [old] out of account). *)
Definition place (s : Z) : Prop :=
  min ≤ s ∧ s + size - 1 ≤ max ∧ (2 ^ k | s) ∧
  r_start (get m root) ≤ s ∧ s + size - 1 ≤ r_end (get m root) ∧
  ∀ x, x ∈ K root → old ≠ Some x →
    r_end (get m x) < s ∨ s + size - 1 < r_start (get m x).

(** A range found: aligned and within the bounds. *)
Definition good_range (r : Z * Z) : Prop :=
  min ≤ r.1 ∧ in_u64 r.1 ∧ (2 ^ k | r.1) ∧ r.2 = u64 (r.1 + size - 1) ∧ r.2 ≤ max.

Lemma place_u64 s : place s → in_u64 s ∧ in_u64 (s + size - 1).
Proof.
  intros (_ & _ & _ & H1 & H2 & _). pose proof (t_width _ _ T root) as [H3 H4].
  unfold in_width in *. lia.
Qed.

Lemma try_slot_spec tmp :
  in_u64 (r_start tmp) →
  match try_slot new tmp size constr with
  | (_, Some r) => good_range r ∧ r_start tmp ≤ r.1 ∧ r.2 ≤ r_end tmp ∧
      ∀ s, place s → r_start tmp ≤ s → r.1 ≤ s
  | (tmp', None) =>
      in_u64 (r_start tmp') ∧ r_start tmp ≤ r_start tmp' ∧
      ∀ s, place s → r_start tmp ≤ s → r_start tmp' ≤ s ∧ r_end tmp < s + size - 1
  end.
Proof.
  intros Ht. unfold try_slot.
  destruct (decide (r_end tmp < r_start tmp)) as [He|He].
  { split_and!; [done|lia|]. intros s Hs Hle. lia. }
  unfold arch_remove_reservations. set (tmp' := resource_clip tmp _ _).
  assert (r_start tmp' = Z.max (r_start tmp) min ∧ r_end tmp' = Z.min (r_end tmp) max) as [E1 E2].
  { unfold tmp', resource_clip. cbn. repeat case_decide; cbn in *; lia. }
  assert (in_u64 (r_start tmp')) as Ht' by (unfold in_width in *; lia).
  cbn [c_align c_alignf constr set_range r_start r_end]. unfold simple_align_resource.
  cbn [set_range r_start r_end]. unfold resource_contains. cbn [set_range r_start r_end].
  set (A := ALIGN (r_start tmp') (2 ^ k)).
  destruct (ALIGN_spec (r_start tmp') k 0 Hk Ht') as (HA1 & HA2 & _). fold A in HA1, HA2.
  assert (∀ s, place s → r_start tmp ≤ s → r_start tmp' ≤ s ∧ r_start tmp' ≤ A ≤ s) as Hpl.
  { intros s Hs Hle. destruct (place_u64 s Hs) as [Hu _]. destruct Hs as (H1 & H2 & H3 & _).
    assert (r_start tmp' ≤ s) by lia. split; [done|].
    by apply (ALIGN_spec (r_start tmp') k s Hk Ht'). }
  destruct (decide (A >= r_start tmp')) as [Hge|Hge].
  2:{ split_and!; [done|lia|]. intros s Hs Hle. destruct (Hpl s Hs Hle). lia. }
  destruct (decide _) as [Hc|Hc].
  - unfold good_range. cbn. split_and!; [lia|done|done|done|lia|lia|lia|].
    intros s Hs Hle. by apply Hpl.
  - split_and!; [done|lia|]. intros s Hs Hle. destruct (Hpl s Hs Hle) as [? HA]. split; [done|].
    destruct (place_u64 s Hs) as [Hu1 Hu2]. destruct Hs as (_ & Hmx & _).
    rewrite wrap_small in Hc by (unfold in_width in *; lia). lia.
Qed.

(** The range keeps clear of the children of [root] other than [old]. *)
Definition free_range (r : Z * Z) : Prop :=
  r_start (get m root) ≤ r.1 ∧ r.2 ≤ r_end (get m root) ∧
  ∀ x, x ∈ K root → old ≠ Some x → r_end (get m x) < r.1 ∨ r.2 < r_start (get m x).

(** The search has passed the children [l1]. *)
Definition passed (tmp : resource) (l1 : list nat) : Prop :=
  r_start (get m root) ≤ r_start tmp ∧
  ∀ x, x ∈ l1 → old ≠ Some x → r_end (get m x) < r_start tmp.

Definition slot_end (this : option nat) : Z :=
  match this with
  | Some t => if decide (old = Some t) then r_end (get m t) else r_start (get m t) - 1
  | None => r_end (get m root)
  end.

(** A range that ends inside the slot before [l2] is free. *)
Lemma slot_free l1 l2 tmp r :
  K root = l1 ++ l2 → passed tmp l1 → r_start tmp ≤ r.1 → r.2 ≤ slot_end (head l2) →
  free_range r.
Proof.
  intros EK [Hp1 Hp2] H1 H2. split; [lia|].
  destruct l2 as [|t l2]; cbn [head slot_end] in H2.
  - split; [done|]. intros x Hx Ho. rewrite EK, app_nil_r in Hx. left.
    pose proof (Hp2 x Hx Ho). lia.
  - assert (t ∈ K root) as Ht by (rewrite EK; set_solver). pose proof (t_in _ _ T _ _ Ht) as Hti.
    destruct (kids_split T _ _ _ _ EK) as [_ Hl2]. rewrite Forall_forall in Hl2.
    split; [destruct (decide (old = Some t)); lia|].
    intros x Hx Ho. rewrite EK in Hx. apply elem_of_app in Hx as [Hx|[->|Hx]%elem_of_cons].
    + left. pose proof (Hp2 x Hx Ho). lia.
    + right. rewrite decide_False in H2 by done. lia.
    + right. pose proof (Hl2 x Hx) as Hb. unfold before in Hb.
      destruct (decide (old = Some t)); lia.
Qed.

(** The tail of the search that the loop sees at [l2]. *)
Lemma slot_search_spec l2 l1 tmp fuel :
  K root = l1 ++ l2 → (length l2 < fuel)%nat → in_u64 (r_start tmp) →
  (∀ t, head l2 = Some t → 1 ≤ r_start (get m t)) →
  (∀ s, place s → r_start tmp ≤ s) →
  ∃ r, find_loop fuel m root old new size constr tmp (head l2) = Some r ∧
    match r with
    | Some rg => good_range rg ∧ (∀ s, place s → rg.1 ≤ s) ∧ (passed tmp l1 → free_range rg)
    | None => ∀ s, ¬ place s
    end.
Proof.
  revert l1 tmp fuel. induction l2 as [|t l2 IH]; intros l1 tmp [|fuel] EK Hf Ht H1 Hpl;
    cbn in Hf; try lia; cbn [find_loop head]; rewrite (in_lookup _ _ Hroot); cbn [mbind option_bind].
  - pose proof (try_slot_spec (set_range (r_start tmp) (r_end (get m root)) tmp) Ht) as Hs.
    destruct (try_slot _ _ _ _) as [tmp' [rg|]]; cbn [set_range r_start r_end] in Hs.
    + exists (Some rg). split; [done|]. destruct Hs as (? & ? & ? & Hmn).
      split_and!; [done|eauto|]. intros Hp. by eapply (slot_free l1 []).
    + exists None. split; [done|]. intros s Hs'. destruct Hs as (_ & _ & Hs).
      destruct (Hs s Hs' (Hpl s Hs')). destruct Hs' as (_ & _ & _ & _ & ? & _). lia.
  - assert (t ∈ K root) as Htk by (rewrite EK; set_solver).
    pose proof (t_in _ _ T _ _ Htk) as Hti. pose proof (t_width _ _ T t) as [Hw1 Hw2].
    pose proof (t_width _ _ T root) as [_ Hwr]. specialize (H1 t eq_refl).
    rewrite (in_lookup _ _ (kid_dom T _ _ Htk)). cbn [mbind option_bind].
    rewrite (wrap_small 64 (r_start (get m t) - 1)) by (unfold in_width in *; lia).
    set (e := if decide (old = Some t) then _ else _).
    pose proof (try_slot_spec (set_range (r_start tmp) e tmp) Ht) as Hs.
    destruct (try_slot _ _ _ _) as [tmp' [rg|]]; cbn [set_range r_start r_end] in Hs.
    { exists (Some rg). split; [done|]. destruct Hs as (? & ? & ? & Hmn).
      split_and!; [done|eauto|]. intros Hp. by eapply (slot_free l1 (t :: l2)). }
    destruct Hs as (Hu & Hmono & Hs).
    assert (∀ s, place s → old ≠ Some t → r_end (get m t) < s) as Hskip.
    { intros s Hp Ho. destruct (Hs s Hp (Hpl s Hp)) as [_ He].
      destruct Hp as (_ & _ & _ & _ & _ & Hx). destruct (Hx t Htk Ho) as [|Hlt]; [done|].
      unfold e in He. rewrite decide_False in He by done. lia. }
    destruct (decide (r_end (get m t) = r_end (get m root))) as [Hend|Hend].
    { exists None. split; [done|]. intros s Hp. destruct (Hs s Hp (Hpl s Hp)) as [_ He].
      pose proof (Hskip s Hp) as Hk'. destruct Hp as (_ & _ & _ & _ & Hr & _).
      unfold e in He. destruct (decide (old = Some t)); [lia|]. specialize (Hk' ltac:(done)). lia. }
    rewrite (t_sib _ _ T _ _ _ _ EK).
    rewrite (wrap_small 64 (r_end (get m t) + 1)) by (unfold in_width in *; lia).
    set (tmp2 := if decide (old = Some t) then _ else _).
    assert (passed tmp l1 → passed tmp2 (l1 ++ [t])) as Hpass.
    { intros [P1 P2]. destruct (kids_split T _ _ _ _ EK) as [Hl1 _]. rewrite Forall_forall in Hl1.
      unfold passed, tmp2. destruct (decide (old = Some t)) as [Ho|Ho]; cbn; (split; [lia|]);
        intros x [Hx| ->%list_elem_of_singleton]%elem_of_app Hox; try done; try lia.
      - pose proof (P2 x Hx Hox). lia.
      - pose proof (Hl1 x Hx) as Hb. unfold before in Hb. lia. }
    destruct (IH (l1 ++ [t]) tmp2 fuel) as (r & Er & Hr).
    + by rewrite <- app_assoc.
    + lia.
    + unfold tmp2. destruct (decide (old = Some t)); [done|]. cbn. unfold in_width in *. lia.
    + intros u Hu2. destruct l2 as [|v l2]; [done|]. cbn in Hu2. injection Hu2 as ->.
      destruct (kids_split T _ _ _ _ EK) as [_ [Hb _]%Forall_cons].
      unfold before, in_width in *. lia.
    + intros s Hp. unfold tmp2. destruct (decide (old = Some t)); [by apply Hs, Hpl|]. cbn.
      pose proof (Hskip s Hp ltac:(done)). lia.
    + exists r. split; [exact Er|]. destruct r as [rg|]; [|done]. destruct Hr as (? & ? & Hr).
      split_and!; [done|done|]. intros Hp. by apply Hr, Hpass.
Qed.

(** [__find_resource]: the lowest place, or none. *)
Lemma find_resource_spec :
  ∃ r, __find_resource m root old new size constr = Some r ∧
    match r with
    | Some rg => good_range rg ∧ (∀ s, place s → rg.1 ≤ s) ∧
        ((r_end (get m root) < 2 ^ 64 - 1 ∨ ∃ s, place s) → free_range rg)
    | None => ∀ s, ¬ place s
    end.
Proof.
  unfold __find_resource. rewrite (in_lookup _ _ Hroot). cbn [mbind option_bind].
  rewrite (t_chi _ _ T _ Hroot). pose proof (t_width _ _ T root) as [Hw1 Hw2].
  assert (∀ s, place s → r_start (get m root) ≤ s) as Hlow by by intros s (_ & _ & _ & ? & _).
  pose proof (kids_length T root) as Hlen.
  destruct (K root) as [|t l2] eqn:EK; cbn [head]; cbn in Hlen.
  { destruct (slot_search_spec [] [] (set_range (r_start (get m root)) (r_end new) new) (fuel_of m))
      as (r & Er & Hr); [done|unfold fuel_of; cbn; lia|done..|].
    exists r. split; [exact Er|]. destruct r; [|done]. destruct Hr as (? & ? & Hr).
    split_and!; [done..|]. intros _. apply Hr. split; [done|set_solver]. }
  assert (t ∈ K root) as Htk by (rewrite EK; set_solver).
  pose proof (t_in _ _ T _ _ Htk) as Hti. pose proof (t_width _ _ T t) as [Hv1 Hv2].
  rewrite (in_lookup _ _ (kid_dom T _ _ Htk)). cbn [mbind option_bind].
  assert ((l2 = [] ∧ head l2 = None ∨ ∃ v, head l2 = Some v ∧ r_end (get m t) < r_start (get m v))) as Hnext.
  { destruct l2 as [|v l2]; [by left|right]. exists v. split; [done|].
    destruct (kids_split T root [] t (v :: l2) EK) as [_ [Hb _]%Forall_cons]. exact Hb. }
  destruct (decide (r_start (get m t) = r_start (get m root))) as [Heq|Hne].
  - rewrite (t_sib _ _ T root [] t l2 EK). set (tmp := set_range _ _ _).
    assert (∀ s, place s → old ≠ Some t → r_end (get m t) < s) as Hsk.
    { intros s Hp Ho. pose proof (Hlow s Hp). destruct Hp as (_ & _ & _ & _ & _ & Hx).
      destruct (Hx t Htk Ho); lia. }
    destruct (slot_search_spec l2 [t] tmp (fuel_of m)) as (r & -> & Hr).
    + done.
    + unfold fuel_of. lia.
    + unfold tmp. cbn. case_decide; [done|apply u64_range].
    + intros v Hv. destruct Hnext as [[-> _]|(v' & Hv' & Hlt)]; [done|].
      rewrite Hv in Hv'. injection Hv' as ->. unfold in_width in *. lia.
    + intros s Hp. unfold tmp. cbn. destruct (decide (old = Some t)) as [Ho|Ho].
      * rewrite Heq. by apply Hlow.
      * pose proof (Hsk s Hp Ho). destruct (place_u64 s Hp) as [Hu _].
        rewrite wrap_small by (unfold in_width in *; lia). lia.
    + exists r. split; [done|]. destruct r; [|done]. destruct Hr as (? & ? & Hr).
      split_and!; [done..|]. intros Hnw. apply Hr. unfold passed, tmp. cbn.
      destruct (decide (old = Some t)) as [Ho|Ho].
      { split; [lia|]. by intros x ->%list_elem_of_singleton Hx. }
      assert (r_end (get m t) < 2 ^ 64 - 1).
      { destruct Hnw as [|[s Hp]]; [lia|]. pose proof (Hsk s Hp Ho).
        destruct (place_u64 s Hp) as [Hu _]. unfold in_width in Hu. lia. }
      rewrite wrap_small by (unfold in_width in *; lia). split; [lia|].
      intros x ->%list_elem_of_singleton Hx. lia.
  - destruct (slot_search_spec (t :: l2) [] (set_range (r_start (get m root)) (r_end new) new) (fuel_of m))
      as (r & Er & Hr); [done|unfold fuel_of; cbn; lia|done| |done|].
    { intros ? [= <-]. unfold in_width in *. lia. }
    exists r. split; [exact Er|]. destruct r; [|done]. destruct Hr as (? & ? & Hr).
    split_and!; [done..|]. intros _. apply Hr. split; [done|set_solver].
Qed.
End find.

(** Giving a leaf outside the tree a range. *)
Lemma rerange_leaf {m K} (T : tree_rep m K) root new s e :
  detached m root new → K new = [] → in_u64 s → in_u64 e →
  tree_rep (reranged (m := m) new s e) K ∧ detached (reranged (m := m) new s e) root new.
Proof.
  intros (Hn & Hp & Ha) Hl Hs He. split.
  - apply range_rep; [done|done|done| |by rewrite Hl].
    intros a k1 k2 E. assert (up m new a) as Hu by (apply (t_par _ _ T); rewrite E; set_solver).
    unfold up in Hu. congruence.
  - split_and!.
    + by rewrite reranged_dom.
    + by rewrite (proj1 (reranged_ptr new s e new)).
    + intros H. apply Ha. eapply (rtc_subrel _ _ _ _ _ H). Unshelve.
      intros x y. unfold up. by rewrite (proj1 (reranged_ptr new s e x)).
Qed.

(** A requested range is the one found: what [allocate_resource] does once
    [find_resource] has returned [s, e]. *)
Lemma allocate_request {m K} (T : tree_rep m K) root new s e :
  root ∈ dom m → detached m root new → K new = [] → in_u64 s → in_u64 e →
  let m1 := reranged (m := m) new s e in
  tree_rep m1 K ∧
  ∃ m2 c, __request_resource m1 root new = Some (m2, c) ∧ same_ranges m1 m2 ∧
    (c = None ↔ s ≤ e ∧ free_range (m := m) (K := K) root None (s, e)) ∧
    match c with
    | None => ∃ l1 l2, K root = l1 ++ l2 ∧ tree_rep m2 (kset root (l1 ++ new :: l2) K)
    | Some _ => m2 = m1
    end.
Proof.
  intros Hr Hd Hl Hs He m1. destruct (rerange_leaf T root new s e Hd Hl Hs He) as [T1 Hd1].
  fold m1 in T1, Hd1. split; [done|].
  assert (new ∉ K root) as Hnk.
  { intros H%(t_par _ _ T). destruct Hd as (_ & Hp & _). unfold up in H. congruence. }
  assert (root ≠ new) as Hne by (intros ->; destruct Hd as (_ & _ & Ha); by apply Ha).
  assert (∀ x, x ≠ new → get m1 x = get m x) as Hx.
  { intros x Hx. unfold m1. by rewrite reranged_get, decide_False. }
  assert (get m1 new = set_range s e (get m new)) as Hg.
  { unfold m1. by rewrite reranged_get, decide_True. }
  assert (fits m1 root new ∧ (∀ x, x ∈ K root → ¬ overlap m1 x new) ↔
          s ≤ e ∧ free_range (m := m) (K := K) root None (s, e)) as Hiff.
  { unfold fits, free_range, overlap. rewrite Hg, (Hx root) by done. cbn. split.
    - intros [H1 H2]. split_and!; [lia..|]. intros x Hxk _. specialize (H2 x Hxk).
      rewrite Hx in H2 by (by intros ->). lia.
    - intros (H0 & H1 & H2 & H3). split; [lia|]. intros x Hxk.
      rewrite Hx by (by intros ->). specialize (H3 x Hxk ltac:(done)). lia. }
  assert (root ∈ dom m1) as Hr1 by (unfold m1; rewrite reranged_dom; [done|apply Hd]).
  destruct (request_spec T1 root new Hr1 Hd1) as [[Hn E]|(Hf & [m2 c] & E & Hres)].
  - exists m1, (Some root). split_and!; try done. rewrite <- Hiff. split; [done|]. by intros [? _].
  - exists m2, c. split_and!; [done| | |].
    + destruct c; [by destruct Hres as [-> _]|]. destruct Hres as (l1 & l2 & _ & L & _).
      by eapply linked_ranges.
    + rewrite <- Hiff, (request_ok_iff T1 root new (m2, c) Hres). tauto.
    + destruct c; [by destruct Hres as [-> _]|]. destruct Hres as (l1 & l2 & EK & L & Hb & Ha).
      exists l1, l2. split; [done|]. by eapply (request_linked_rep m1 K root new).
Qed.

(** Every range but that of [new] is as before. *)
Definition others_kept (m m' : store) (new : nat) : Prop :=
  ∀ x, x ≠ new → r_start (get m' x) = r_start (get m x) ∧ r_end (get m' x) = r_end (get m x).

(** ** Any alignment function *)

Definition u64_valued (alignf : option (resource → Z → Z → Z)) : Prop :=
  ∀ f avail size align, alignf = Some f → in_u64 (r_start avail) → in_u64 (f avail size align).

Lemma ALIGN_range x a : in_u64 (ALIGN x a).
Proof. apply land_u64_range; apply u64_range. Qed.

(** A search ends on every list of children; a range it finds is [size] long. *)
Lemma find_loop_any {m K} (T : tree_rep m K) root old new size c l2 :
  root ∈ dom m → (∀ avail size align, in_u64 (r_start avail) → in_u64 (c_alignf c avail size align)) →
  ∀ l1 tmp fuel, K root = l1 ++ l2 → (length l2 < fuel)%nat →
  ∃ r, find_loop fuel m root old new size c tmp (head l2) = Some r ∧
    ∀ s e, r = Some (s, e) → in_u64 s ∧ e = u64 (s + size - 1).
Proof.
  intros Hroot Hc. assert (∀ tmp, ∀ s e, (try_slot new tmp size c).2 = Some (s, e) → in_u64 s ∧ e = u64 (s + size - 1)) as Hslot.
  { intros tmp s e. unfold try_slot. repeat case_decide; cbn [snd]; try done. intros [= <- <-]. split; [|done].
    apply Hc, ALIGN_range. }
  induction l2 as [|t l2 IH]; intros l1 tmp [|fuel] EK Hf; cbn in Hf; try lia; cbn [find_loop head];
    rewrite (in_lookup _ _ Hroot); cbn [mbind option_bind].
  - destruct (try_slot _ _ _ _) as [tmp' [rg|]] eqn:Et; eexists; (split; [done|]); [|done].
    intros s e [= ->]. eapply Hslot. by rewrite Et.
  - rewrite (in_lookup _ _ (kid_dom T root t ltac:(rewrite EK; set_solver))). cbn [mbind option_bind].
    destruct (try_slot _ _ _ _) as [tmp' [rg|]] eqn:Et.
    { eexists. split; [done|]. intros s e [= ->]. eapply Hslot. by rewrite Et. }
    destruct (decide (r_end (get m t) = r_end (get m root))); [exists None; by split|]. rewrite (t_sib _ _ T _ _ _ _ EK).
    apply (IH (l1 ++ [t])); [by rewrite <- app_assoc|lia].
Qed.

Lemma find_any {m K} (T : tree_rep m K) root old new size c :
  root ∈ dom m → (∀ avail size align, in_u64 (r_start avail) → in_u64 (c_alignf c avail size align)) →
  ∃ r, __find_resource m root old new size c = Some r ∧
    ∀ s e, r = Some (s, e) → in_u64 s ∧ e = u64 (s + size - 1).
Proof.
  intros Hroot Hc. unfold __find_resource. rewrite (in_lookup _ _ Hroot). cbn [mbind option_bind].
  rewrite (t_chi _ _ T _ Hroot). pose proof (kids_length T root) as Hlen.
  pose proof (λ l1 l2, find_loop_any T root old new size c l2 Hroot Hc l1) as Hloop.
  destruct (K root) as [|t l2] eqn:EK; cbn [head]; cbn in Hlen.
  { apply (Hloop [] []); [done|unfold fuel_of; cbn; lia]. }
  rewrite (in_lookup _ _ (kid_dom T root t ltac:(rewrite EK; set_solver))). cbn [mbind option_bind].
  case_decide.
  - rewrite (t_sib _ _ T root [] t l2 EK). apply (Hloop [t] l2); [done|unfold fuel_of; lia].
  - apply (Hloop [] (t :: l2)); [done|unfold fuel_of; cbn; lia].
Qed.

(** With any alignment function the descriptor ends up in the tree with a range of
    the size asked for, or the tree is as before. *)
Lemma allocate_any {m K} (T : tree_rep m K) root new size min max align alignf :
  root ∈ dom m → detached m root new → K new = [] → u64_valued alignf →
  ∃ m' r, allocate_resource m root new size min max align alignf = Some (m', r) ∧
    others_kept m m' new ∧
    (r = Ok ∧ r_end (get m' new) = u64 (r_start (get m' new) + size - 1) ∧
       (∃ l1 l2, K root = l1 ++ l2 ∧ tree_rep m' (kset root (l1 ++ new :: l2) K)) ∨
     r = Err EBUSY ∧ tree_rep m' K).
Proof.
  intros Hr Hd Hl Hu. unfold allocate_resource, find_resource. set (c := {| c_min := min |}).
  pose proof Hd as (Hn & Hp & _). rewrite (in_lookup _ _ Hn). cbn [mbind option_bind]. rewrite Hp.
  destruct (find_any T root None (get m new) size c Hr) as (r & -> & H).
  { intros avail sz al Ha. unfold c. cbn [c_alignf]. destruct alignf as [f|]; [by apply Hu|exact Ha]. }
  cbn [mbind option_bind]. destruct r as [[s e]|]; [|exists m, (Err EBUSY); split_and!; [done|done|by right]].
  destruct (H s e eq_refl) as [Hus Ee]. assert (in_u64 e) as Hue by (rewrite Ee; apply u64_range).
  rewrite upd_in by done. cbn [mbind option_bind].
  destruct (allocate_request T root new s e Hr Hd Hl Hus Hue) as (T1 & m2 & cf & E & Hsr & _ & Hres).
  pose proof (λ x, reranged_get (m := m) new s e x) as Hg.
  unfold reranged in *. rewrite E. cbn [mbind option_bind]. eexists _, _. split; [done|].
  split.
  { intros x Hx. destruct (Hsr x) as [-> ->]. by rewrite Hg, decide_False. }
  destruct cf; [right; subst m2; by split|left]. split; [done|]. split; [|done].
  destruct (Hsr new) as [-> ->]. by rewrite Hg, decide_True.
Qed.

(** C28: [allocate_resource] of a descriptor outside the tree, with the default
    alignment function and an alignment that is a power of two, is a first-fit
    allocator: it succeeds exactly when some
    aligned place of the requested size lies in [root] and in the bounds and is
    free; the descriptor then gets the lowest such place and the tree gains it
    as a child of [root].  When it fails with [-EBUSY] there is no such place
    and the tree is as before (only the range of the descriptor itself may have
    been overwritten). *)
Theorem allocate_resource_first_fit m K root new size k min max :
  tree_rep m K → root ∈ dom m → detached m root new → K new = [] →
  0 ≤ k < 64 → 1 ≤ size → in_u64 size → in_u64 min →
  ∃ m' r, allocate_resource m root new size min max (2 ^ k) None = Some (m', r) ∧
    others_kept m m' new ∧
    (r = Ok ∧
      (∃ s, place (m := m) (K := K) root None size k min max s ∧
        (∀ s', place (m := m) (K := K) root None size k min max s' → s ≤ s') ∧
        r_start (get m' new) = s ∧ r_end (get m' new) = s + size - 1) ∧
      (∃ l1 l2, K root = l1 ++ l2 ∧ tree_rep m' (kset root (l1 ++ new :: l2) K)) ∨
     r = Err EBUSY ∧ tree_rep m' K ∧
      ∀ s, ¬ place (m := m) (K := K) root None size k min max s).
Proof.
  intros T Hr Hd Hl Hk Hs Hsw Hm. unfold allocate_resource. cbn [default from_option].
  pose proof Hd as (Hn & Hp & _). rewrite (in_lookup _ _ Hn). cbn [mbind option_bind].
  rewrite Hp. unfold find_resource.
  destruct (find_resource_spec T root None (get m new) size k min max Hr Hk Hs Hm) as (r & E & H).
  unfold constr, id in E. unfold id. rewrite E. clear E.
  destruct r as [[s e]|]; cbn [mbind option_bind].
  2:{ exists m, (Err EBUSY). split_and!; try done. right. by split_and!. }
  destruct H as ((Hmin & Hus & Hal & Eu & Hmax) & Hlow & Hfree). cbn [fst snd] in *.
  rewrite upd_in by done. cbn [mbind option_bind].
  assert (in_u64 e) as Hue by (rewrite Eu; apply u64_range).
  destruct (allocate_request T root new s e Hr Hd Hl Hus Hue) as (T1 & m2 & c & E & Hsr & Hc & Hres).
  unfold reranged in *. rewrite E. cbn [mbind option_bind]. eexists _, _. split; [done|].
  set (m1 := <[new := _]> m) in *.
  assert (∀ x, x ≠ new → get m1 x = get m x) as Hx.
  { intros x Hx. unfold m1. by rewrite get_insert, decide_False. }
  assert (get m1 new = set_range s e (get m new)) as Hg by (unfold m1; by rewrite get_insert, decide_True).
  split.
  { intros x Hxn. destruct (Hsr x) as [-> ->]. by rewrite Hx. }
  destruct c as [c|].
  - right. subst m2. split_and!; [done|done|]. intros s' Hp'.
    assert (in_u64 (s + size - 1)) as Hu2.
    { edestruct (place_u64 T root None size k min max) as [_ Hu]; [done..|].
      pose proof (Hlow s' Hp'). unfold in_width in *. lia. }
    rewrite wrap_small in Eu by done. assert (Some c = None); [|done]. apply Hc.
    split; [lia|]. apply Hfree. right. by exists s'.
  - left. destruct (proj1 Hc eq_refl) as [Hse Hfr]. destruct (Hsr new) as [-> ->].
    rewrite Hg. cbn [set_range r_start r_end].
    assert (e = s + size - 1) as Ee.
    { unfold in_width in *. destruct (Z_lt_dec (s + size - 1) (2 ^ 64)).
      - by rewrite wrap_small in Eu by (unfold in_width; lia).
      - rewrite wrap_over in Eu by lia. lia. }
    split_and!; [done| |done]. exists s. split_and!; try done. rewrite Ee in *.
    destruct Hfr as (F1 & F2 & F3). cbn [fst snd] in *. unfold place. split_and!; done || lia.
Qed.

(** ** Theorems on insert_resource *)

(** The ranges overlap and neither contains the other. *)
Definition partial_overlap (m : store) (x y : nat) : Prop :=
  overlap m x y ∧ ¬ fits m x y ∧ ¬ fits m y x.

(** C29: [insert_resource] of a descriptor without children, outside the tree,
    always returns.  On success the descriptor lies between a node [p] below
    [root] that contains it and the children [mid] of [p] that it covers, all
    ranges are unchanged and the tree is well-formed.  On failure nothing
    changes, and the entry returned is [root], which does not contain the
    descriptor, or one below [root] that overlaps it partially; so when [root]
    contains the range and no node overlaps it partially the call succeeds. *)
Theorem insert_resource_correct m K root new :
  tree_rep m K → root ∈ dom m → detached m root new → K new = [] →
  ∃ m' c, insert_resource_conflict m root new = Some (m', c) ∧
    insert_resource m root new = Some (m', if c then Err EBUSY else Ok) ∧
    (fits m root new → (∀ x, x ∈ dom m → ¬ partial_overlap m x new) → c = None) ∧
    match c with
    | None =>
        ∃ p l1 mid l2, rtc (up m) p root ∧ fits m p new ∧ K p = l1 ++ mid ++ l2 ∧
          Forall (λ x, before m x new) l1 ∧ Forall (fits m new) mid ∧
          Forall (λ x, before m new x) l2 ∧ same_ranges m m' ∧
          tree_rep m' (kset p (l1 ++ new :: l2) (kset new mid K))
    | Some c => m' = m ∧ (c = root ∧ ¬ fits m root new ∨
        rtc (up m) c root ∧ partial_overlap m c new)
    end.
Proof.
  intros T Hr Hd Hl. unfold insert_resource, insert_resource_conflict.
  destruct (insert_resource_spec T root new Hr Hd Hl) as ([m' c] & -> & H). cbn [mbind option_bind].
  exists m', c. split_and!; [done|by destruct c| |].
  - destruct c as [c|]; [|done]. intros Hf Hno. exfalso.
    destruct H as (_ & [[_ Hn]|(p & _ & _ & Hc & Ho & H1 & H2)]); [done|].
    apply (Hno c); [by apply (kid_dom T p)|by split].
  - destruct c as [c|].
    + destruct H as (-> & [Hn|(p & Hp & _ & Hc & Ho & H1 & H2)]); (split; [done|]); [by left|right].
      split; [|by split]. eapply rtc_l; [by apply (t_par _ _ T)|done].
    + destruct H as (p & l1 & mid & l2 & ? & ? & ? & ? & ? & ? & _ & ? & ?).
      by exists p, l1, mid, l2.
Qed.

(** The nodes whose range [new] covers. *)
Definition covered (m : store) (new : nat) : gset nat := filter (fits m new) (dom m).

Lemma hull_fits (s e s' e' : Z) :
  let ms := if decide (s' < s) then s' else s in
  let me := if decide (e' > e) then e' else e in
  ms = Z.min s s' ∧ me = Z.max e e'.
Proof. intros ms me. unfold ms, me. repeat case_decide; lia. Qed.

Lemma below_inside {m K} (T : tree_rep m K) x root :
  rtc (up m) x root →
  r_start (get m root) ≤ r_start (get m x) ∧ r_end (get m x) ≤ r_end (get m root).
Proof.
  induction 1 as [|x y z Hxy _ IH]; [lia|].
  apply (t_par _ _ T) in Hxy. pose proof (t_in _ _ T _ _ Hxy). lia.
Qed.

(** Growing over one more node covers more nodes. *)
Lemma covered_grow m new c s e :
  new ∈ dom m → c ∈ dom m → c ≠ new → ¬ fits m new c →
  r_start (get m c) ≤ r_end (get m c) →
  s ≤ r_start (get m new) → r_end (get m new) ≤ e →
  s ≤ r_start (get m c) → r_end (get m c) ≤ e →
  covered m new ⊂ covered (reranged (m := m) new s e) new.
Proof.
  intros Hn Hc Hcn Hnf Hle H1 H2 H3 H4. unfold covered. rewrite reranged_dom by done. split.
  - intros x. rewrite !elem_of_filter. intros [Hxf Hxd]. split; [|done].
    unfold fits in *. rewrite !reranged_get, (decide_True (P := new = new)) by done.
    destruct (decide (x = new)) as [->|]; cbn; lia.
  - intros Hsub. specialize (Hsub c). rewrite !elem_of_filter in Hsub.
    apply Hnf, Hsub. split; [|done]. unfold fits.
    rewrite !reranged_get, decide_True, decide_False by done. cbn. lia.
Qed.

(** A range outside [root] is given up in the first round. *)
Lemma expand_loop_outside fuel m K root new :
  tree_rep m K → root ∈ dom m → detached m root new → K new = [] → ¬ fits m root new →
  expand_loop (S fuel) m root new = Some m.
Proof.
  intros T Hr Hd Hl Hf. cbn [expand_loop].
  assert (∀ p, rtc (up m) p root → ¬ fits m p new) as Hno.
  { intros p Hp Hfp. apply Hf. pose proof (below_inside T p root Hp). unfold fits in *. lia. }
  destruct (insert_resource_spec T root new Hr Hd Hl) as ([m1 [c|]] & -> & H); cbn [mbind option_bind].
  - destruct H as (-> & [[-> _]|(p & Hp & Hfp & _)]); [by rewrite decide_True|by apply (Hno p) in Hfp].
  - destruct H as (p & l1 & mid & l2 & Hp & Hfp & _). by apply (Hno p) in Hfp.
Qed.

Lemma expand_loop_spec fuel m K root new :
  tree_rep m K → root ∈ dom m → detached m root new → K new = [] → fits m root new →
  (size m < fuel + size (covered m new))%nat →
  ∃ m' K', expand_loop fuel m root new = Some m' ∧ tree_rep m' K' ∧
    r_parent (get m' new) ≠ None ∧
    r_start (get m root) ≤ r_start (get m' new) ≤ r_start (get m new) ∧
    r_end (get m new) ≤ r_end (get m' new) ≤ r_end (get m root) ∧
    others_kept m m' new.
Proof.
  revert m. induction fuel as [|fuel IH]; intros m T Hr Hd Hl Hf Hsz.
  { assert (covered m new ⊆ dom m) as Hs%subseteq_size by (unfold covered; set_solver).
    rewrite size_dom in Hs. lia. }
  cbn [expand_loop]. destruct (insert_resource_spec T root new Hr Hd Hl) as ([m1 c] & -> & H).
  cbn [mbind option_bind]. destruct c as [c|].
  2:{ destruct H as (p & l1 & mid & l2 & Hp & Hfp & EK & _ & _ & _ & _ & Hsr & T').
      eexists m1, _. split; [done|]. split; [exact T'|].
      assert (up m1 new p) as Hu.
      { apply (t_par _ _ T'). rewrite kset_eq. set_solver. }
      unfold up in Hu. rewrite Hu. destruct (Hsr new) as [-> ->]. unfold fits in Hf.
      split_and!; try done; try lia. intros x _. apply Hsr. }
  destruct H as (-> & [[-> Hn]|(p & Hp & Hfp & Hc & Ho & H1 & H2)]); [done|].
  assert (root ≠ new) as Hrn by (intros ->; destruct Hd as (_ & _ & Ha); by apply Ha).
  assert (rtc (up m) c root) as Hcr by (eapply rtc_l; [by apply (t_par _ _ T)|done]).
  rewrite decide_False.
  2:{ intros ->. unfold fits, overlap in *. lia. }
  rewrite (in_lookup m c) by by apply (kid_dom T p).
  rewrite (in_lookup m new) by apply Hd. cbn [mbind option_bind].
  destruct (hull_fits (r_start (get m new)) (r_end (get m new)) (r_start (get m c)) (r_end (get m c))) as [-> ->].
  rewrite upd_in by apply Hd. cbn [mbind option_bind].
  set (s := Z.min _ _). set (e := Z.max _ _).
  pose proof (t_width _ _ T c) as [Wc1 Wc2]. pose proof (t_width _ _ T new) as [Wn1 Wn2].
  assert (in_u64 s ∧ in_u64 e) as [Hs He] by (unfold s, e, in_width in *; lia).
  destruct (rerange_leaf T root new s e Hd Hl Hs He) as [T2 Hd2].
  change (<[new := set_range s e (get m new)]> m) with (reranged (m := m) new s e).
  set (m2 := reranged new s e) in *.
  assert (∀ x, x ≠ new → get m2 x = get m x) as Hx by (intros x Hx; unfold m2; by rewrite reranged_get, decide_False).
  assert (get m2 new = set_range s e (get m new)) as Hg by (unfold m2; by rewrite reranged_get, decide_True).
  assert (dom m2 = dom m) as D2 by (unfold m2; rewrite reranged_dom; [done|apply Hd]).
  pose proof (t_in _ _ T _ _ Hc) as Hci. destruct (below_inside T c root Hcr) as [Hb1 Hb2].
  assert (c ≠ new) as Hcn.
  { intros ->. apply (t_par _ _ T) in Hc. destruct Hd as (_ & Hpn & _). unfold up in Hc. congruence. }
  destruct (IH m2) as (m' & K' & E & T' & Hpar & R1 & R2 & R3); [done|by rewrite D2|done|done|..].
  - unfold fits in *. rewrite Hg, (Hx root) by done. cbn. unfold s, e. lia.
  - assert (covered m new ⊂ covered m2 new) as Hsub%subset_size.
    { apply (covered_grow m new c s e); unfold s, e; try done; try lia; [apply Hd|by apply (kid_dom T p)]. }
    assert (size m2 = size m) as Hs2 by by rewrite <- !size_dom, D2.
    lia.
  - exists m', K'. rewrite Hg in R1, R2. rewrite (Hx root) in R1, R2 by done. cbn in R1, R2.
    split_and!; try done; try (unfold s, e in *; lia).
    all: intros x Hxn; rewrite <- (Hx x Hxn); by apply R3.
Qed.

Lemma expand_to_fit_ok m K root new :
  tree_rep m K → root ∈ dom m → detached m root new → K new = [] →
  ∃ m', insert_resource_expand_to_fit m root new = Some m' ∧ tree_ok m' ∧
    others_kept m m' new ∧ (¬ fits m root new → m' = m) ∧
    (fits m root new → r_parent (get m' new) ≠ None ∧
      r_start (get m root) ≤ r_start (get m' new) ≤ r_start (get m new) ∧
      r_end (get m new) ≤ r_end (get m' new) ≤ r_end (get m root)).
Proof.
  intros T Hr Hd Hl. unfold insert_resource_expand_to_fit.
  pose proof Hd as (Hn & Hp & _). rewrite (in_lookup _ _ Hn). cbn [mbind option_bind]. rewrite Hp.
  destruct (decide (fits m root new)) as [Hf|Hf].
  - destruct (expand_loop_spec (fuel_of m) m K root new T Hr Hd Hl Hf) as (m' & K' & -> & T' & Hp1 & Hs1 & He1 & Hk1);
      [unfold fuel_of; lia|].
    exists m'. split; [done|]. split; [by exists K'|]. by split_and!; [done|done|intros _].
  - unfold fuel_of. rewrite (expand_loop_outside _ m K) by done.
    exists m. split_and!; [done|by exists K|done|done|done].
Qed.

(** C35: [insert_resource_expand_to_fit] of a descriptor outside the tree terminates
    on every well-formed tree (the number of nodes the growing range covers bounds
    its rounds).  When [root] contains the range it ends with the descriptor in the
    tree: its range has grown to one inside [root] that contains the original, and
    no other range has changed.  When [root] does not contain it, the call returns
    with everything as it was: the descriptor is not put in. *)
Theorem expand_to_fit_terminates m K root new :
  tree_rep m K → root ∈ dom m → detached m root new → K new = [] →
  ∃ m', insert_resource_expand_to_fit m root new = Some m' ∧ tree_ok m' ∧
    others_kept m m' new ∧ (¬ fits m root new → m' = m) ∧
    (fits m root new → r_parent (get m' new) ≠ None ∧
      r_start (get m root) ≤ r_start (get m' new) ≤ r_start (get m new) ∧
      r_end (get m new) ≤ r_end (get m' new) ≤ r_end (get m root)).
Proof. apply expand_to_fit_ok. Qed.

(** ** The tree invariant *)

(** The calls on descriptors the caller owns. *)
Inductive res_op :=
  | Request (root new : nat)
  | Release (old : nat)
  | Insert (parent new : nat)
  | Expand (root new : nat)
  | Adjust (res : nat) (start size : Z)
  | Allocate (root new : nat) (size min max align : Z) (alignf : option (resource → Z → Z → Z)).

Definition res_exec (m : store) (o : res_op) : option store :=
  match o with
  | Request root new => fst <$> request_resource m root new
  | Release old => fst <$> release_resource m old
  | Insert parent new => fst <$> insert_resource m parent new
  | Expand root new => insert_resource_expand_to_fit m root new
  | Adjust res start size => fst <$> adjust_resource m res start size
  | Allocate root new size min max align alignf =>
      fst <$> allocate_resource m root new size min max align alignf
  end.

(** What a caller has to see to: a descriptor to be put in is not in the tree
    (and has no children where it may adopt some or get a range), one to be taken
    out is, a range set by [adjust_resource] has at least one address and does not
    wrap, and an alignment function returns 64-bit values, as its type says. *)
Definition res_allowed (m : store) (o : res_op) : Prop :=
  match o with
  | Request root new => root ∈ dom m ∧ detached m root new
  | Release old => r_parent (get m old) ≠ None
  | Insert parent new => parent ∈ dom m ∧ detached m parent new ∧ r_child (get m new) = None
  | Expand root new =>
      root ∈ dom m ∧ detached m root new ∧ r_child (get m new) = None
  | Adjust res start size => res ∈ dom m ∧ in_u64 start ∧ 1 ≤ size ∧ start + size ≤ 2 ^ 64
  | Allocate root new size min max align alignf =>
      root ∈ dom m ∧ detached m root new ∧ r_child (get m new) = None ∧ u64_valued alignf
  end.

Lemma leaf_kids {m K} (T : tree_rep m K) a : a ∈ dom m → r_child (get m a) = None → K a = [].
Proof. intros Ha. rewrite (t_chi _ _ T _ Ha). by destruct (K a). Qed.

Lemma res_exec_ok m o :
  tree_ok m → res_allowed m o → ∃ m', res_exec m o = Some m' ∧ tree_ok m'.
Proof.
  intros [K T] Ha. destruct o as [root new|old|parent new|root new|res start size|root new size min max align alignf];
    cbn [res_exec res_allowed] in *.
  - destruct Ha as [Hr Hd]. unfold request_resource, request_resource_conflict.
    destruct (request_spec T root new Hr Hd) as [[_ ->]|(Hf & [m' c] & -> & Hres)];
      cbn [mbind option_bind]; eexists; (split; [done|]); [by exists K|].
    destruct c; [destruct Hres as [-> _]; by exists K|].
    destruct Hres as (l1 & l2 & EK & L & Hb & Hl). eexists.
    exact (request_linked_rep m K root new l1 l2 m' T Hr Hd Hf EK Hb Hl L).
  - destruct (r_parent (get m old)) as [a|] eqn:Ep; [|done].
    assert (old ∈ K a) as Hin by by apply (t_par _ _ T).
    apply list_elem_of_split in Hin as (k1 & k2 & E).
    destruct (release_spec T a old k1 k2 E) as (m' & Er & _ & T').
    exists m'. unfold release_resource. rewrite Er. split; [done|]. by eexists.
  - destruct Ha as (Hr & Hd & Hc). pose proof (leaf_kids T new (proj1 Hd) Hc) as Hl.
    unfold insert_resource, insert_resource_conflict.
    destruct (insert_resource_spec T parent new Hr Hd Hl) as ([m' c] & -> & H). cbn [mbind option_bind].
    exists m'. split; [done|]. destruct c; [destruct H as [-> _]; by exists K|].
    destruct H as (p & l1 & mid & l2 & _ & _ & _ & _ & _ & _ & _ & _ & T'). by eexists.
  - destruct Ha as (Hr & Hd & Hc).
    destruct (expand_to_fit_ok m K root new T Hr Hd (leaf_kids T new (proj1 Hd) Hc)) as (m' & E & T' & _). by exists m'.
  - destruct Ha as (Hr & Hs & H1 & H2). unfold adjust_resource.
    assert (u64 (start + size - 1) = start + size - 1) as Ee.
    { apply wrap_small. unfold in_width in *. lia. }
    destruct (adjust_spec T res Hr start size) as [(Hro & Hk & ->)|(_ & ->)];
      eexists; (split; [done|]); exists K; [|done].
    rewrite Ee in *. apply adjust_rep; try done; unfold in_width in *; lia.
  - destruct Ha as (Hr & Hd & Hc & Hu).
    destruct (allocate_any T root new size min max align alignf Hr Hd (leaf_kids T new (proj1 Hd) Hc) Hu)
      as (m' & r & -> & _ & [(_ & _ & l1 & l2 & _ & T')|[_ T']]); exists m'; (split; [done|]); by eexists.
Qed.

Fixpoint res_run (m : store) (ops : list res_op) : option store :=
  match ops with
  | [] => Some m
  | o :: ops => m' ← res_exec m o; res_run m' ops
  end.

(** Every call is allowed when its turn comes. *)
Fixpoint run_allowed (m : store) (ops : list res_op) : Prop :=
  match ops with
  | [] => True
  | o :: ops => res_allowed m o ∧ ∀ m', res_exec m o = Some m' → run_allowed m' ops
  end.

(** C17: no sequence of requests, releases, insertions, expansions, adjustments
    and allocations whose callers keep to the rules ([run_allowed]) leads the code out
    of the store, into an endless loop, or to a malformed tree: every call returns and
    parent, sibling and child pointers, the order and nesting of the ranges and
    the absence of cycles are preserved throughout.  The rules: a descriptor that is put
    in is not in the tree, and has no children unless it is requested; one that is
    released is in it; [adjust_resource] gets a range with at least one address that does
    not wrap; any size, alignment and alignment function may be used to allocate. *)
Theorem resource_tree_invariant m ops :
  tree_ok m → run_allowed m ops → ∃ m', res_run m ops = Some m' ∧ tree_ok m'.
Proof.
  revert m. induction ops as [|o ops IH]; intros m Ht Ha; [by exists m|].
  destruct Ha as [Ha Hn]. destruct (res_exec_ok m o Ht Ha) as (m1 & E & Ht1).
  cbn [res_run]. rewrite E. cbn [mbind option_bind]. by apply IH; [|apply Hn].
Qed.

(** * Witnesses *)

Module AllocDemo.
Import ResDemo.

Lemma demo_leaf : (λ _ : nat, @nil nat) 1%nat = [].
Proof. reflexivity. Qed.

Lemma insert_resource_correct_witness :
  ∃ m' c, insert_resource_conflict demo 0%nat 1%nat = Some (m', c) ∧
    (fits demo 0%nat 1%nat → (∀ x, x ∈ dom demo → ¬ partial_overlap demo x 1%nat) → c = None).
Proof.
  destruct (insert_resource_correct demo (λ _, []) 0%nat 1%nat demo_rep) as (m' & c & H1 & _ & H2 & _).
  - apply demo_dom. lia.
  - apply demo_detached. lia.
  - exact demo_leaf.
  - by exists m', c.
Defined.

Lemma allocate_resource_first_fit_witness :
  ∃ m' r, allocate_resource demo 0%nat 1%nat 4096 100 100000 (2 ^ 12) None = Some (m', r).
Proof.
  destruct (allocate_resource_first_fit demo (λ _, []) 0%nat 1%nat 4096 12 100 100000 demo_rep)
    as (m' & r & E & _).
  - apply demo_dom. lia.
  - apply demo_detached. lia.
  - exact demo_leaf.
  - lia.
  - lia.
  - split; reflexivity || lia.
  - split; reflexivity || lia.
  - by exists m', r.
Defined.

Lemma expand_to_fit_terminates_witness :
  ∃ m', insert_resource_expand_to_fit demo 0%nat 1%nat = Some m' ∧ tree_ok m' ∧
    r_parent (get m' 1%nat) ≠ None.
Proof.
  destruct (expand_to_fit_terminates demo (λ _, []) 0%nat 1%nat demo_rep) as (m' & H1 & H2 & _ & _ & H3).
  - apply demo_dom. lia.
  - apply demo_detached. lia.
  - exact demo_leaf.
  - exists m'. split; [exact H1|]. split; [exact H2|]. apply H3. vm_compute. split_and!; discriminate.
Defined.

Lemma resource_tree_invariant_witness :
  ∃ m', res_run demo [Request 0 1; Release 1] = Some m' ∧ tree_ok m'.
Proof.
  apply (resource_tree_invariant demo [Request 0 1; Release 1]).
  - exists (λ _, []). apply demo_rep.
  - split; [split; [apply demo_dom; lia|apply demo_detached; lia]|].
    intros m' E. vm_compute in E. injection E as <-. split; [|done]. vm_compute. discriminate.
Defined.

(** The window takes over the device inside it, grows over the one it cuts,
    and a block of 4096 bytes goes to the first aligned gap. *)
Example demo_alloc :
  (m1 ← res_run demo [Request 0 3; Insert 0 2; Insert 0 1; Release 3; Allocate 0 3 4096 1 100000 4096 None];
   Some (r_child (get m1 1%nat), r_start (get m1 3%nat), r_end (get m1 3%nat)))
  = Some (Some 2%nat, 8192, 12287).
Proof. vm_compute. reflexivity. Qed.
End AllocDemo.
