(* ===== verification/ResourceRegion.v ===== *)
(** The region calls of kernel/resource.c: descriptors allocated by the
    resource code itself ([alloc_resource], [free_resource]), busy regions
    ([__request_region], [__check_region], [__release_region]) and boot-time
    reservations that go around what is there already
    ([reserve_region_with_split]). *)

From stdpp Require Import strings.
From S2P Require Import Prelude Resource ResourceAlloc.

Local Open Scope Z_scope.

(** * State *)

(** The nodes, and the descriptors of boot memory kept for reuse.  The code
    chains the latter through their sibling fields, as a stack; a descriptor on
    the stack is not in the store. *)
Record rstate := mkRstate {
  mem : store;
  bootmem_resource_free : list nat;
}.

(** The allocator: [kzalloc] may fail and returns an address not in use;
    [PageSlab] tells whether a descriptor came from it. *)
Class ResAlloc := {
  kzalloc : rstate → option nat;
  PageSlab : nat → bool;
  kzalloc_fresh s a :
    kzalloc s = Some a → a ∉ dom (mem s) ∧ a ∉ bootmem_resource_free s;
}.

Section alloc.
Context `{ResAlloc}.

Definition free_resource (s : rstate) (res : option nat) : rstate :=
  match res with
  | None => s
  | Some r =>
      if negb (PageSlab r)
      then mkRstate (base.delete r (mem s)) (r :: bootmem_resource_free s)
      else mkRstate (base.delete r (mem s)) (bootmem_resource_free s)
  end.

Definition alloc_resource (s : rstate) : option nat * rstate :=
  match bootmem_resource_free s with
  | r :: rest => (Some r, mkRstate (<[r := res0]> (mem s)) rest)
  | [] =>
      match kzalloc s with
      | Some r => (Some r, mkRstate (<[r := res0]> (mem s)) [])
      | None => (None, s)
      end
  end.

(** * Busy regions *)

(** How [__request_region] leaves its locked section: with a result, or asleep
    on [muxed_resource_wait], to go on with [res] and [parent] later. *)
Inductive region_outcome := RDone (res : option nat) | RSleep (res parent : nat).

Fixpoint region_loop (fuel : nat) (s : rstate) (parent res : nat) (flags : Z)
    : option (rstate * region_outcome) :=
  match fuel with
  | O => None
  | S fuel =>
      '(m', conflict) ← __request_resource (mem s) parent res;
      let s' := mkRstate m' (bootmem_resource_free s) in
      match conflict with
      | None => Some (s', RDone (Some res))
      | Some c =>
          rc ← m' !! c;
          if decide (c ≠ parent ∧ Z.land (r_flags rc) IORESOURCE_BUSY = 0)
          then region_loop fuel s' c res flags
          else if decide (Z.land (Z.land (r_flags rc) (u64 flags)) IORESOURCE_MUXED ≠ 0)
          then Some (s', RSleep res c)
          else Some (free_resource s' (Some res), RDone None)
      end
  end.

Definition __request_region (s : rstate) (parent : nat) (start n : Z) (name : string)
    (flags : Z) : option (rstate * region_outcome) :=
  match alloc_resource s with
  | (None, s1) => Some (s1, RDone None)
  | (Some res, s1) =>
      m2 ← upd (mem s1) res (λ r,
        mkResource start (u64 (start + n - 1)) name (Z.lor IORESOURCE_BUSY (u64 flags))
          (r_parent r) (r_sibling r) (r_child r));
      region_loop (fuel_of m2) (mkRstate m2 (bootmem_resource_free s1)) parent res flags
  end.

(** Back from [schedule()]: the loop goes on with the saved [parent]. *)
Definition request_region_wake (s : rstate) (parent res : nat) (flags : Z)
    : option (rstate * region_outcome) :=
  region_loop (fuel_of (mem s)) s parent res flags.

(** [check_region] passes no flags, so it does not sleep. *)
Definition __check_region (s : rstate) (parent : nat) (start n : Z) : option (rstate * ret) :=
  '(s1, o) ← __request_region s parent start n "check-region" 0;
  match o with
  | RDone None => Some (s1, Err EBUSY)
  | RDone (Some res) =>
      '(m2, _) ← release_resource (mem s1) res;
      Some (free_resource (mkRstate m2 (bootmem_resource_free s1)) (Some res), Ok)
  | RSleep _ _ => None
  end.

(** [true]: a region was released (and sleepers woken when it was muxed);
    [false]: the warning about a nonexistent resource. *)
Fixpoint release_region_loop (fuel : nat) (s : rstate) (start end_ : Z) (p : slot)
    : option (rstate * bool) :=
  match fuel with
  | O => None
  | S fuel =>
      tmp ← rd_slot (mem s) p;
      match tmp with
      | None => Some (s, false)
      | Some res =>
          r ← mem s !! res;
          if decide (r_start r ≤ start ∧ r_end r >= end_) then
            if decide (Z.land (r_flags r) IORESOURCE_BUSY = 0)
            then release_region_loop fuel s start end_ (ChildOf res)
            else if decide (r_start r ≠ start ∨ r_end r ≠ end_) then Some (s, false)
            else
              m' ← wr_slot (mem s) p (r_sibling r);
              Some (free_resource (mkRstate m' (bootmem_resource_free s)) (Some res), true)
          else release_region_loop fuel s start end_ (SibOf res)
      end
  end.

Definition __release_region (s : rstate) (parent : nat) (start n : Z)
    : option (rstate * bool) :=
  release_region_loop (fuel_of (mem s) * fuel_of (mem s)) s start (u64 (start + n - 1)) (ChildOf parent).

(** * Reservations around conflicts *)

Definition busy_fields (name : string) (start end_ : Z) (r : resource) : resource :=
  mkResource start end_ name IORESOURCE_BUSY (r_parent r) (r_sibling r) (r_child r).

Fixpoint split_loop (fuel : nat) (s : rstate) (parent res : nat) (next_res : option nat)
    (name : string) : option rstate :=
  match fuel with
  | O => None
  | S fuel =>
      '(m1, conflict) ← __request_resource (mem s) parent res;
      let s1 := mkRstate m1 (bootmem_resource_free s) in
      match conflict with
      | None =>
          match next_res with
          | None => Some s1
          | Some nx => split_loop fuel s1 parent nx None name
          end
      | Some c =>
          rc ← m1 !! c;
          rr ← m1 !! res;
          if decide (r_start rc ≤ r_start rr ∧ r_end rc >= r_end rr)
          then Some (free_resource s1 (Some res))
          else if decide (r_start rc > r_start rr) then
            let end_ := r_end rr in
            m2 ← upd m1 res (set_range (r_start rr) (u64 (r_start rc - 1)));
            let s2 := mkRstate m2 (bootmem_resource_free s) in
            if decide (r_end rc < end_) then
              match alloc_resource s2 with
              | (None, s3) => Some (free_resource s3 (Some res))
              | (Some nx, s3) =>
                  m4 ← upd (mem s3) nx (busy_fields name (u64 (r_end rc + 1)) end_);
                  split_loop fuel (mkRstate m4 (bootmem_resource_free s3)) parent res (Some nx) name
              end
            else split_loop fuel s2 parent res next_res name
          else
            m2 ← upd m1 res (set_range (u64 (r_end rc + 1)) (r_end rr));
            split_loop fuel (mkRstate m2 (bootmem_resource_free s)) parent res next_res name
      end
  end.

(** At most two rounds for each child in the way. *)
Definition __reserve_region_with_split (s : rstate) (root : nat) (start end_ : Z) (name : string)
    : option rstate :=
  match alloc_resource s with
  | (None, s1) => Some s1
  | (Some res, s1) =>
      m2 ← upd (mem s1) res (busy_fields name start end_);
      split_loop (2 * fuel_of m2) (mkRstate m2 (bootmem_resource_free s1)) root res None name
  end.

Definition reserve_region_with_split (s : rstate) (root : nat) (start end_ : Z) (name : string)
    : option rstate :=
  rr ← mem s !! root;
  if decide (r_start rr > start ∨ r_end rr < end_) then
    if decide (start > r_end rr ∨ end_ < r_start rr) then Some s
    else
      let end_ := if decide (end_ > r_end rr) then r_end rr else end_ in
      let start := if decide (start < r_start rr) then r_start rr else start in
      __reserve_region_with_split s root start end_ name
  else __reserve_region_with_split s root start end_ name.
End alloc.

(** * Descriptors enter and leave the store *)

Definition boot_ok (s : rstate) : Prop :=
  NoDup (bootmem_resource_free s) ∧
  ∀ a, a ∈ bootmem_resource_free s → a ∉ dom (mem s).

Lemma store_eq (m m' : store) : dom m = dom m' → (∀ x, get m x = get m' x) → m = m'.
Proof.
  intros Hd Hg. apply map_eq. intros x. destruct (decide (x ∈ dom m)) as [Hx|Hx].
  - rewrite (in_lookup _ _ Hx), Hg, (in_lookup m' x); [done|]. by rewrite <- Hd.
  - rewrite (not_elem_of_dom_1 _ _ Hx). symmetry. apply not_elem_of_dom. by rewrite <- Hd.
Qed.

Lemma get_delete m a x : get (base.delete a m) x = if decide (x = a) then res0 else get m x.
Proof.
  unfold get. case_decide; subst; [by rewrite lookup_delete_eq|by rewrite lookup_delete_ne].
Qed.

(** A descriptor without links. *)
Definition unlinked_res (r : resource) : Prop :=
  r_parent r = None ∧ r_child r = None ∧ in_u64 (r_start r) ∧ in_u64 (r_end r).

(** [m'] has the nodes of [m], and the unlinked node [a] or not. *)
Lemma rep_swap m m' K a :
  tree_rep m K → r_parent (get m a) = None → K a = [] →
  (∀ x, x ≠ a → (x ∈ dom m' ↔ x ∈ dom m) ∧ get m' x = get m x) →
  unlinked_res (get m' a) → tree_rep m' K.
Proof.
  intros T Hp Hl Hx (H1 & H2 & H3 & H4).
  assert (∀ b, ¬ up m a b) as Hna by (intros b; unfold up; congruence).
  assert (∀ b, a ∉ K b) as Hnk by (intros b H%(t_par _ _ T); by apply (Hna b)).
  assert (∀ x y, up m' x y ↔ up m x y) as Hup.
  { intros x y. destruct (decide (x = a)) as [->|Hxa].
    - unfold up. by rewrite H1, Hp.
    - unfold up. by rewrite (proj2 (Hx x Hxa)). }
  assert (∀ p b, b ∈ K p → b ≠ a ∧ p ≠ a) as Hba.
  { intros p b Hb. split; intros ->; [by apply (Hnk p)|]. rewrite Hl in Hb. set_solver. }
  split.
  - intros p Hd. destruct (decide (p = a)) as [->|Hpa]; [done|]. apply (t_dom _ _ T).
    by rewrite <- (proj1 (Hx p Hpa)).
  - intros p Hd. destruct (decide (p = a)) as [->|Hpa]; [by rewrite H2, Hl|].
    destruct (Hx p Hpa) as [Hd' ->]. apply (t_chi _ _ T). by apply Hd'.
  - intros p l1 b l2 E. destruct (Hba p b) as [Hb _]; [rewrite E; set_solver|].
    rewrite (proj2 (Hx b Hb)). by apply (t_sib _ _ T _ _ _ _ E).
  - intros p b. rewrite Hup. apply (t_par _ _ T).
  - intros p. eapply StronglySorted_weaken; [|apply (t_sorted _ _ T)].
    intros x y Hxp Hyp. unfold before.
    by rewrite (proj2 (Hx x (proj1 (Hba _ _ Hxp)))), (proj2 (Hx y (proj1 (Hba _ _ Hyp)))).
  - intros p b Hb. destruct (Hba _ _ Hb) as [Hb' Hp'].
    rewrite (proj2 (Hx _ Hb')), (proj2 (Hx _ Hp')). by apply (t_in _ _ T).
  - apply (acc_add m m' a (λ _, False)); [apply (t_wf _ _ T)| |done].
    intros x y H. left. by apply Hup.
  - intros p. destruct (decide (p = a)) as [->|Hpa]; [done|]. rewrite (proj2 (Hx p Hpa)).
    apply (t_width _ _ T).
Qed.

Lemma rep_insert m K a r :
  tree_rep m K → a ∉ dom m → unlinked_res r → tree_rep (<[a := r]> m) K.
Proof.
  intros T Ha Hr.
  assert (get m a = res0) as Hg by (unfold get; by rewrite (not_elem_of_dom_1 _ _ Ha)).
  apply (rep_swap m _ K a); [done|by rewrite Hg|by apply (t_dom _ _ T)| |].
  - intros x Hx. rewrite get_insert, decide_False by done. set_solver.
  - by rewrite get_insert, decide_True.
Qed.

Lemma rep_delete m K a :
  tree_rep m K → r_parent (get m a) = None → K a = [] → tree_rep (base.delete a m) K.
Proof.
  intros T Hp Hl. apply (rep_swap m _ K a); [done..| |].
  - intros x Hx. rewrite get_delete, decide_False by done. set_solver.
  - rewrite get_delete, decide_True by done. split_and!; try done; by split.
Qed.

(** A leaf without a parent is detached from every other node. *)
Lemma leaf_detached {m K} (T : tree_rep m K) root a :
  a ∈ dom m → r_parent (get m a) = None → K a = [] → root ≠ a → detached m root a.
Proof.
  intros Ha Hp Hl Hne. split_and!; [done..|]. intros H.
  apply rtc_inv_r in H as [->|(z & _ & Hz)]; [done|].
  apply (t_par _ _ T) in Hz. rewrite Hl in Hz. set_solver.
Qed.

(** Another fresh node does not matter. *)
Lemma insert_fresh_get (m : store) a r y : a ∉ dom m → y ∈ dom m → get (<[a := r]> m) y = get m y.
Proof. intros Ha Hy. rewrite get_insert, decide_False; [done|]. by intros ->. Qed.

Lemma insert_fresh_up (m : store) a r x y :
  a ∉ dom m → r_parent r = None → up (<[a := r]> m) x y ↔ up m x y.
Proof.
  intros Ha Hr. unfold up. rewrite get_insert. destruct (decide (x = a)) as [->|]; [|done].
  rewrite Hr. unfold get. by rewrite (not_elem_of_dom_1 _ _ Ha).
Qed.

Lemma insert_fresh_detached (m : store) a r root res :
  a ∉ dom m → r_parent r = None → detached m root res → detached (<[a := r]> m) root res.
Proof.
  intros Ha Hr (Hn & Hp & Hanc). split_and!; [set_solver|by rewrite insert_fresh_get|].
  intros Hx. apply Hanc. apply (rtc_subrel _ _ _ _ (λ x y, proj1 (insert_fresh_up m a r x y Ha Hr)) Hx).
Qed.

Section alloc_lemmas.
Context `{ResAlloc}.

Lemma alloc_resource_spec s :
  boot_ok s →
  match alloc_resource s with
  | (Some a, s') => a ∉ dom (mem s) ∧ mem s' = <[a := res0]> (mem s) ∧ boot_ok s'
  | (None, s') => s' = s ∧ kzalloc s = None
  end.
Proof.
  intros [Hn Hd]. unfold alloc_resource.
  destruct (bootmem_resource_free s) as [|r rest] eqn:E.
  - destruct (kzalloc s) as [a|] eqn:Ek; [|done].
    destruct (kzalloc_fresh s a Ek) as [Ha _]. split_and!; [done..|]. cbn. split; [constructor|set_solver].
  - apply NoDup_cons in Hn as [Hr Hn]. cbn. split_and!; [apply Hd; set_solver|done|].
    split; [done|]. cbn. intros a Ha. specialize (Hd a). set_solver.
Qed.

Lemma free_resource_mem s r : mem (free_resource s (Some r)) = base.delete r (mem s).
Proof. unfold free_resource. by destruct (PageSlab r). Qed.

Lemma free_resource_boot s r :
  boot_ok s → r ∈ dom (mem s) → boot_ok (free_resource s (Some r)).
Proof.
  intros [Hn Hd] Hr. unfold boot_ok. rewrite free_resource_mem.
  assert (r ∉ bootmem_resource_free s) as Hnr by (intros Hx; by apply (Hd r)).
  unfold free_resource. destruct (PageSlab r); cbn; split.
  - done.
  - intros a Ha. specialize (Hd a Ha). set_solver.
  - by constructor.
  - intros a [->|Ha]%elem_of_cons; [set_solver|]. specialize (Hd a Ha). set_solver.
Qed.
End alloc_lemmas.

(** * Reservations go around what is there *)

Lemma split_unique {A} (P : A → Prop) l1 l2 k1 k2 :
  l1 ++ l2 = k1 ++ k2 → Forall P l1 → Forall (λ x, ¬ P x) l2 →
  Forall P k1 → Forall (λ x, ¬ P x) k2 → l1 = k1 ∧ l2 = k2.
Proof.
  revert k1. induction l1 as [|x l1 IH]; intros [|y k1] E H1 H2 H3 H4; cbn in E.
  - done.
  - subst l2. apply Forall_cons in H2 as [H2 _]. by apply Forall_cons in H3 as [? _].
  - subst k2. apply Forall_cons in H4 as [H4 _]. by apply Forall_cons in H1 as [? _].
  - injection E as -> E. apply Forall_cons in H1 as [? ?]. apply Forall_cons in H3 as [? ?].
    by destruct (IH k1 E) as [-> ->].
Qed.

(** A request at a known gap succeeds there. *)
Lemma request_gap {m K} (T : tree_rep m K) root res k1 k2 :
  root ∈ dom m → detached m root res → fits m root res → K root = k1 ++ k2 →
  Forall (λ x, before m x res) k1 → Forall (λ x, before m res x) k2 →
  ∃ m', __request_resource m root res = Some (m', None) ∧
    linked (m := m) root res k1 k2 m' ∧ tree_rep m' (kset root (k1 ++ res :: k2) K).
Proof.
  intros Hr Hd Hf EK Hb Ha.
  destruct (request_spec T root res Hr Hd) as [[? _]|(_ & [m' c] & -> & Hres)]; [done|].
  destruct c as [c|].
  { destruct (request_ok_iff T root res (m', Some c) Hres) as [_ Hno]. exfalso.
    discriminate Hno. intros x Hx. rewrite EK in Hx. rewrite Forall_forall in Hb, Ha.
    apply before_not_overlap. apply elem_of_app in Hx as [Hx|Hx]; [left|right]; auto. }
  destruct Hres as (l1 & l2 & EK' & L & Hb' & Ha').
  assert (∀ l, (∀ x, x ∈ l → x ∈ K root) → Forall (λ x, before m res x) l →
    Forall (λ x, ¬ before m x res) l) as Hex.
  { intros l Hin. rewrite !Forall_forall. intros Hl x Hx. specialize (Hl x Hx).
    pose proof (t_in _ _ T _ _ (Hin x Hx)). unfold before, fits in *. lia. }
  destruct (split_unique (λ x, before m x res) l1 l2 k1 k2) as [-> ->]; try done.
  - by rewrite <- EK'.
  - apply Hex; [|done]. intros x Hx. rewrite EK'. set_solver.
  - apply Hex; [|done]. intros x Hx. rewrite EK. set_solver.
  - exists m'. split_and!; [done..|].
    exact (request_linked_rep m K root res k1 k2 m' T Hr Hd Hf EK Hb Ha L).
Qed.

(** What a run of the splitting loop leaves: the nodes that were there keep
    their range, the children of [root] stay children, and unless memory ran
    out [lo, hi] is covered by children of [root]. *)
Section split.
Context `{ResAlloc} (root : nat) (name : string).

Definition split_result (m : store) (K : nat → list nat) (res : nat) (lo hi : Z) (s' : rstate) : Prop :=
  ∃ K', tree_rep (mem s') K' ∧ boot_ok s' ∧
    (∀ y, y ∈ dom m → y ≠ res → y ∈ dom (mem s') ∧
       r_start (get (mem s') y) = r_start (get m y) ∧ r_end (get (mem s') y) = r_end (get m y)) ∧
    (∀ y, y ∈ K root → y ∈ K' root) ∧
    ((∀ s, kzalloc s ≠ None) → ∀ x, lo ≤ x ≤ hi →
       ∃ c, c ∈ K' root ∧ r_start (get (mem s') c) ≤ x ≤ r_end (get (mem s') c)).

(** The whole range is inside one child: the descriptor is given back. *)
Lemma split_covered s K res c :
  tree_rep (mem s) K → boot_ok s → detached (mem s) root res → K res = [] →
  c ∈ K root → fits (mem s) c res →
  split_result (mem s) K res (r_start (get (mem s) res)) (r_end (get (mem s) res))
    (free_resource s (Some res)).
Proof.
  intros T Hb (Hr & Hp & _) Hl Hc Hf. unfold split_result. rewrite free_resource_mem.
  assert (∀ y, y ≠ res → get (base.delete res (mem s)) y = get (mem s) y) as Hg.
  { intros y Hy. by rewrite get_delete, decide_False. }
  assert (c ≠ res) as Hcr.
  { intros ->. apply (t_par _ _ T) in Hc. unfold up in Hc. congruence. }
  exists K. split_and!.
  - by apply rep_delete.
  - by apply free_resource_boot.
  - intros y Hy Hne. rewrite Hg by done. split; [set_solver|done].
  - done.
  - intros _ x Hx. exists c. rewrite Hg by done. unfold fits in Hf. split; [done|lia].
Qed.

(** The descriptor went in. *)
Lemma split_linked m K res k1 k2 m' s' :
  root ∈ dom m → K root = k1 ++ k2 → linked (m := m) root res k1 k2 m' →
  tree_rep m' (kset root (k1 ++ res :: k2) K) → mem s' = m' → boot_ok s' →
  ∀ hi, (∀ x, r_end (get m res) < x ≤ hi → ∃ c, c ∈ K root ∧ c ≠ res ∧
    r_start (get m c) ≤ x ≤ r_end (get m c)) →
  split_result m K res (r_start (get m res)) hi s'.
Proof.
  intros Hr EK L T' <- Hb hi Hhi. pose proof (linked_ranges _ _ _ _ _ _ L) as Hs.
  exists (kset root (k1 ++ res :: k2) K). split_and!; try done.
  - intros y Hy _. rewrite (proj1 L). split; [done|apply Hs].
  - intros y. rewrite kset_eq, EK. set_solver.
  - intros _ x Hx. destruct (decide (x ≤ r_end (get m res))) as [Hle|Hgt].
    + exists res. rewrite kset_eq. destruct (Hs res) as [-> ->]. split; [set_solver|lia].
    + destruct (Hhi x) as (c & Hc & _ & Hcx); [lia|]. exists c. destruct (Hs c) as [-> ->].
      rewrite kset_eq. rewrite EK in Hc. split; [set_solver|lia].
Qed.
(** No memory for the second descriptor: the first is given back too. *)
Lemma split_nomem s K res :
  tree_rep (mem s) K → boot_ok s → detached (mem s) root res → K res = [] →
  kzalloc s = None → ∀ lo hi, split_result (mem s) K res lo hi (free_resource s (Some res)).
Proof.
  intros T Hb (Hr & Hp & _) Hl Hk lo hi. unfold split_result. rewrite free_resource_mem.
  exists K. split_and!.
  - by apply rep_delete.
  - by apply free_resource_boot.
  - intros y Hy Hne. rewrite get_delete, decide_False by done. split; [set_solver|done].
  - done.
  - intros Hall. by destruct (Hall s).
Qed.

(** One round: the addresses below [lo'] are dealt with, the rest is left to
    [res']. *)
Lemma split_round m K res lo hi m' K' res' lo' s' :
  split_result m' K' res' lo' hi s' →
  (∀ y, y ∈ dom m → y ≠ res → y ∈ dom m' ∧ y ≠ res' ∧
     r_start (get m' y) = r_start (get m y) ∧ r_end (get m' y) = r_end (get m y)) →
  (∀ y, y ∈ K root → y ∈ K' root) →
  (∀ x, lo ≤ x < lo' → ∃ c, c ∈ K' root ∧ c ∈ dom m' ∧ c ≠ res' ∧
     r_start (get m' c) ≤ x ≤ r_end (get m' c)) →
  split_result m K res lo hi s'.
Proof.
  intros (K2 & T2 & B2 & R2 & C2 & V2) HR HC HV. exists K2. split_and!; [done|done| | |].
  - intros y Hy Hne. destruct (HR y Hy Hne) as (Hd & Hn & <- & <-). by apply R2.
  - auto.
  - intros Hk x Hx. destruct (decide (x < lo')) as [Hlt|Hge]; [|apply (V2 Hk); lia].
    destruct (HV x) as (c & Hc & Hd & Hn & Hcx); [lia|]. exists c. split; [auto|].
    destruct (R2 c Hd Hn) as (_ & -> & ->). done.
Qed.

(** The descriptor cut down to the gap before [c] goes in at the next round. *)
Lemma split_gap m K res k1 c k2 :
  tree_rep m K → root ∈ dom m → detached m root res → K res = [] → fits m root res →
  K root = k1 ++ c :: k2 → Forall (λ x, before m x res) k1 →
  r_start (get m res) < r_start (get m c) → r_start (get m c) ≤ r_end (get m res) →
  let m2 := reranged (m := m) res (r_start (get m res)) (r_start (get m c) - 1) in
  tree_rep m2 K ∧ dom m2 = dom m ∧ detached m2 root res ∧ fits m2 root res ∧
  get m2 res = set_range (r_start (get m res)) (r_start (get m c) - 1) (get m res) ∧
  (∀ y, y ≠ res → get m2 y = get m y) ∧
  Forall (λ x, before m2 x res) k1 ∧ Forall (λ x, before m2 res x) (c :: k2).
Proof.
  intros T Hr Hd Hl Hf EK Hb H1 H2 m2.
  assert (c ∈ K root) as Hc by (rewrite EK; set_solver).
  pose proof (t_width _ _ T res) as [W1 _]. pose proof (t_width _ _ T c) as [W2 _].
  destruct (rerange_leaf T root res (r_start (get m res)) (r_start (get m c) - 1) Hd Hl)
    as [T2 Hd2]; [unfold in_width in *; lia..|].
  assert (∀ b, b ∈ K root → b ≠ res) as Hne.
  { intros b Hbk ->. apply (t_par _ _ T) in Hbk. destruct Hd as (_ & Hp & _).
    unfold up in Hbk. congruence. }
  assert (∀ y, y ≠ res → get m2 y = get m y) as Hg.
  { intros y Hy. unfold m2. by rewrite reranged_get, decide_False. }
  assert (get m2 res = set_range (r_start (get m res)) (r_start (get m c) - 1) (get m res)) as Hgr.
  { unfold m2. by rewrite reranged_get, decide_True. }
  assert (root ≠ res) as Hrr by (intros ->; destruct Hd as (_ & _ & Ha); by apply Ha).
  split_and!; try done.
  - apply reranged_dom, Hd.
  - unfold fits in *. rewrite Hgr, Hg by done. cbn. lia.
  - rewrite Forall_forall in *. intros x Hx. specialize (Hb x Hx). unfold before in *.
    rewrite Hgr, Hg by (apply Hne; rewrite EK; set_solver). done.
  - destruct (kids_split T _ _ _ _ EK) as [_ Hk2]. rewrite Forall_forall in *.
    pose proof (t_in _ _ T _ _ Hc).
    intros x Hx. unfold before in *. rewrite Hgr, Hg by (apply Hne; rewrite EK; set_solver). cbn.
    apply elem_of_cons in Hx as [->|Hx]; [lia|]. specialize (Hk2 x Hx). lia.
Qed.

(** The descriptor moved past [c]. *)
Lemma split_tail m K res k1 c k2 :
  tree_rep m K → root ∈ dom m → detached m root res → K res = [] → fits m root res →
  K root = k1 ++ c :: k2 → Forall (λ x, before m x res) k1 → c ≠ res →
  r_start (get m res) ≤ r_end (get m c) < r_end (get m res) →
  let m2 := reranged (m := m) res (r_end (get m c) + 1) (r_end (get m res)) in
  tree_rep m2 K ∧ dom m2 = dom m ∧ detached m2 root res ∧ fits m2 root res ∧
  get m2 res = set_range (r_end (get m c) + 1) (r_end (get m res)) (get m res) ∧
  (∀ y, y ≠ res → get m2 y = get m y) ∧
  Forall (λ x, before m2 x res) (k1 ++ [c]).
Proof.
  intros T Hr Hd Hl Hf EK Hb Hcr H1 m2.
  pose proof (t_width _ _ T res) as [W1 W2]. pose proof (t_width _ _ T c) as [W3 W4].
  destruct (rerange_leaf T root res (r_end (get m c) + 1) (r_end (get m res)) Hd Hl) as [T2 Hd2];
    [unfold in_width in *; lia|done|].
  assert (∀ y, y ≠ res → get m2 y = get m y) as G2.
  { intros y Hy. unfold m2. by rewrite reranged_get, decide_False. }
  assert (get m2 res = set_range (r_end (get m c) + 1) (r_end (get m res)) (get m res)) as Gr.
  { unfold m2. by rewrite reranged_get, decide_True. }
  assert (root ≠ res) as Hrr by (intros ->; destruct Hd as (_ & _ & Ha); by apply Ha).
  split_and!; try done.
  - apply reranged_dom, Hd.
  - unfold fits in *. rewrite Gr, G2 by done. cbn. lia.
  - rewrite Forall_forall in *. intros x Hx. unfold before in *. rewrite Gr. cbn.
    apply elem_of_app in Hx as [Hx| ->%list_elem_of_singleton]; [|rewrite G2 by done; lia].
    rewrite G2.
    + specialize (Hb x Hx). lia.
    + intros ->. specialize (Hb res Hx). unfold fits in Hf. lia.
Qed.

(** A conflict lies behind the children already passed. *)
Lemma conflict_later m res c l1 l2 k1 k2 :
  l1 ++ l2 = k1 ++ c :: k2 → Forall (λ x, before m x res) l1 → overlap m c res →
  (length k2 < length l2)%nat.
Proof.
  intros E Hb Ho. apply app_eq_inv in E as [(k & -> & E)|(k & -> & E)].
  - destruct k as [|z k]; cbn in E; [rewrite <- E; cbn; lia|].
    injection E as <- E. apply Forall_app in Hb as [_ [Hb _]%Forall_cons].
    unfold before, overlap in *. lia.
  - rewrite E, length_app. cbn. lia.
Qed.

(** The round that splits the range: the part above [c] gets a descriptor of
    its own, the part below goes in. *)
Lemma split_two s K res k1 c k2 nx s3 hi :
  tree_rep (mem s) K → root ∈ dom (mem s) → detached (mem s) root res → K res = [] →
  fits (mem s) root res → K root = k1 ++ c :: k2 →
  Forall (λ x, before (mem s) x res) k1 →
  r_start (get (mem s) res) < r_start (get (mem s) c) →
  r_end (get (mem s) c) < r_end (get (mem s) res) → hi = r_end (get (mem s) res) →
  let m2 := reranged (m := mem s) res (r_start (get (mem s) res)) (r_start (get (mem s) c) - 1) in
  nx ∉ dom m2 → mem s3 = <[nx := res0]> m2 → boot_ok s3 →
  let m4 := <[nx := busy_fields name (r_end (get (mem s) c) + 1) hi res0]> (mem s3) in
  ∃ m5, __request_resource m4 root res = Some (m5, None) ∧
    let K5 := kset root (k1 ++ res :: c :: k2) K in
    tree_rep m5 K5 ∧ boot_ok (mkRstate m5 (bootmem_resource_free s3)) ∧ root ∈ dom m5 ∧
    detached m5 root nx ∧ K5 nx = [] ∧ fits m5 root nx ∧
    Forall (λ x, before m5 x nx) (k1 ++ [res; c]) ∧
    r_start (get m5 nx) = r_end (get (mem s) c) + 1 ∧ r_end (get m5 nx) = hi ∧
    res ≠ nx ∧ r_start (get m5 res) = r_start (get (mem s) res) ∧
    r_end (get m5 res) = r_start (get (mem s) c) - 1 ∧
    (∀ y, y ∈ dom (mem s) → y ≠ res → y ∈ dom m5 ∧ y ≠ nx ∧
      r_start (get m5 y) = r_start (get (mem s) y) ∧ r_end (get m5 y) = r_end (get (mem s) y)).
Proof.
  set (m := mem s). intros T Hr Hd Hl Hf EK Hb H1 H2 -> m2 Hnx E3 Hbo m4.
  assert (c ∈ K root) as Hc by (rewrite EK; set_solver). pose proof (t_in _ _ T _ _ Hc) as Hci.
  destruct (split_gap m K res k1 c k2 T Hr Hd Hl Hf EK Hb H1) as (T2 & D2 & Hd2 & Hf2 & Gr & G2 & B1 & B2); [lia|].
  fold m2 in T2, D2, Hd2, Hf2, Gr, G2, B1, B2.
  pose proof (t_width _ _ T res) as [W1 W2]. pose proof (t_width _ _ T c) as [W3 W4].
  set (rx := busy_fields name (r_end (get m c) + 1) (r_end (get m res)) res0) in *.
  assert (unlinked_res rx) as Hux.
  { unfold rx. split_and!; cbn; try done; unfold in_width in *; lia. }
  assert (m4 = <[nx := rx]> m2) as -> by (unfold m4; rewrite E3; apply insert_insert_eq).
  set (m4 := <[nx := rx]> m2).
  assert (root ∈ dom m2) as Hr2 by by rewrite D2. assert (res ∈ dom m2) as Hres2 by apply Hd2.
  assert (∀ y, y ∈ dom m2 → get m4 y = get m2 y) as G4 by (intros; by apply insert_fresh_get).
  assert (∀ y, y ∈ k1 ++ c :: k2 → y ∈ dom m2) as Hkd.
  { intros y Hy. rewrite D2. apply (kid_dom T root). by rewrite EK. }
  assert (get m4 nx = rx) as Gx by (unfold m4; by rewrite get_insert, decide_True).
  destruct (request_gap (rep_insert m2 K nx rx T2 Hnx Hux) root res k1 (c :: k2)) as (m5 & E5 & L5 & T5).
  - unfold m4. set_solver.
  - apply insert_fresh_detached; [done|apply Hux|done].
  - fold m4. unfold fits in *. by rewrite !G4 by done.
  - done.
  - fold m4. rewrite Forall_forall in *. intros x Hx. specialize (B1 x Hx). unfold before in *.
    rewrite !G4; [done|done|]. apply Hkd. set_solver.
  - fold m4. rewrite Forall_forall in *. intros x Hx. specialize (B2 x Hx). unfold before in *.
    rewrite !G4; [done| |done]. apply Hkd. set_solver.
  - fold m4 in E5, L5. pose proof (linked_ranges _ _ _ _ _ _ L5) as S5.
    assert (nx ∉ dom m) as Hnm by by rewrite <- D2.
    assert (root ≠ nx ∧ res ≠ nx ∧ c ≠ nx) as (N1 & N2 & N3).
    { split_and!; intros ->; try done. apply Hnx, Hkd. set_solver. }
    assert (dom m5 = {[nx]} ∪ dom m) as D5.
    { rewrite (proj1 L5). unfold m4. rewrite dom_insert_L. by rewrite D2. }
    assert (∀ y, y ∈ dom m → y ≠ res → r_start (get m5 y) = r_start (get m y) ∧
                                      r_end (get m5 y) = r_end (get m y)) as R5.
    { intros y Hy Hne. destruct (S5 y) as [-> ->]. by rewrite G4, G2 by (done || by rewrite D2). }
    destruct (S5 res) as [Rr1 Rr2]. rewrite G4, Gr in Rr1, Rr2 by done. cbn in Rr1, Rr2.
    destruct (S5 nx) as [Rx1 Rx2]. rewrite Gx in Rx1, Rx2. cbn in Rx1, Rx2.
    assert (kset root (k1 ++ res :: c :: k2) K nx = []) as Hkx.
    { rewrite kset_ne by done. by apply (t_dom _ _ T). }
    destruct (R5 root Hr) as [Rt1 Rt2]; [intros ->; by destruct Hd as (_ & _ & []) |].
    exists m5. split; [exact E5|]. cbn zeta. split_and!; try done.
    + split; [apply Hbo|]. cbn. intros a Ha. destruct Hbo as [_ Hbo]. specialize (Hbo a Ha).
      rewrite E3, dom_insert_L, D2 in Hbo. by rewrite D5.
    + rewrite D5. set_solver.
    + apply (leaf_detached T5); [rewrite D5; set_solver| |done|done].
      rewrite (proj2 L5), decide_False, slot_upd_parent, Gx by done. done.
    + unfold fits. rewrite Rx1, Rx2, Rt1, Rt2. unfold fits in Hf. lia.
    + rewrite Forall_forall in *. intros x Hx. unfold before. rewrite Rx1.
      apply elem_of_app in Hx as [Hx|Hx].
      * destruct (R5 x) as [_ ->].
        { rewrite <- D2. apply Hkd. set_solver. }
        { intros ->. specialize (B1 res Hx). unfold before in B1.
          rewrite Gr in B1. cbn in B1. lia. }
        specialize (Hb x Hx). unfold before in Hb. lia.
      * apply elem_of_cons in Hx as [->|Hx%list_elem_of_singleton]; [lia|]. subst x.
        destruct (R5 c) as [_ ->]; [by apply (kid_dom T root)| |lia].
        intros ->. lia.
    + intros y Hy Hne. split_and!; [rewrite D5; set_solver|by intros ->|by apply R5..].
Qed.

(** The loop does its work when at most [n] children lie ahead. *)
Definition loop_ok (n : nat) : Prop := ∀ s K l1 l2 res fuel,
  (length l2 ≤ n)%nat →
  tree_rep (mem s) K → boot_ok s → root ∈ dom (mem s) → detached (mem s) root res →
  K res = [] → fits (mem s) root res → K root = l1 ++ l2 →
  Forall (λ x, before (mem s) x res) l1 → (2 * length l2 + 1 ≤ fuel)%nat →
  ∃ s', split_loop fuel s root res None name = Some s' ∧
    split_result (mem s) K res (r_start (get (mem s) res)) (r_end (get (mem s) res)) s'.

(** The rounds after a conflict with [c]. *)
Section round.
Context (s : rstate) (K : nat → list nat) (res c : nat) (k1 k2 : list nat) (fuel : nat).
Context (T : tree_rep (mem s) K) (Hbo : boot_ok s) (Hr : root ∈ dom (mem s)) (Hd : detached (mem s) root res).
Context (Hl : K res = []) (Hf : fits (mem s) root res) (EK : K root = k1 ++ c :: k2).
Context (Hb : Forall (λ x, before (mem s) x res) k1) (Hc : c ∈ K root) (Hcr : c ≠ res).

(** Nothing is left above [c]. *)
Lemma split_front :
  r_start (get (mem s) res) < r_start (get (mem s) c) → r_start (get (mem s) c) ≤ r_end (get (mem s) res) →
  r_end (get (mem s) res) ≤ r_end (get (mem s) c) →
  let m2 := reranged (m := mem s) res (r_start (get (mem s) res)) (r_start (get (mem s) c) - 1) in
  ∃ s', split_loop (S fuel) (mkRstate m2 (bootmem_resource_free s)) root res None name = Some s' ∧
    split_result (mem s) K res (r_start (get (mem s) res)) (r_end (get (mem s) res)) s'.
Proof.
  set (m := mem s) in *. intros Hgt Hin Hge m2.
  destruct (split_gap m K res k1 c k2 T Hr Hd Hl Hf EK Hb) as (T2 & D2 & Hd2 & Hf2 & Gr & G2 & B1 & B2); [lia..|].
  fold m2 in T2, D2, Hd2, Hf2, Gr, G2, B1, B2. cbn [split_loop mem bootmem_resource_free].
  destruct (request_gap T2 root res k1 (c :: k2)) as (m3 & -> & L3 & T3); try done.
  { by rewrite D2. }
  cbn [mbind option_bind]. eexists. split; [done|].
  apply (split_round m K res _ _ m2 K res (r_start (get m2 res))).
  - apply (split_linked m2 K res k1 (c :: k2) m3 _ ltac:(by rewrite D2) EK L3 T3); [reflexivity| |].
    { split; [apply Hbo|]. cbn. rewrite (proj1 L3), D2. apply Hbo. }
    intros x Hx. exists c. rewrite Gr in Hx. cbn in Hx. rewrite G2 by done. split_and!; [done|done|lia|lia].
  - intros y Hy Hne. rewrite D2, G2 by done. done.
  - done.
  - intros x Hx. rewrite Gr in Hx. cbn in Hx. lia.
Qed.

(** The part above [c] has the descriptor [nx]. *)
Lemma split_middle nx s3 :
  loop_ok (length k2) → (2 * length k2 + 1 ≤ fuel)%nat →
  r_start (get (mem s) res) < r_start (get (mem s) c) → r_end (get (mem s) c) < r_end (get (mem s) res) →
  let m2 := reranged (m := mem s) res (r_start (get (mem s) res)) (r_start (get (mem s) c) - 1) in
  nx ∉ dom m2 → mem s3 = <[nx := res0]> m2 → boot_ok s3 →
  let m4 := <[nx := busy_fields name (r_end (get (mem s) c) + 1) (r_end (get (mem s) res)) res0]> (mem s3) in
  ∃ s', split_loop (S fuel) (mkRstate m4 (bootmem_resource_free s3)) root res (Some nx) name = Some s' ∧
    split_result (mem s) K res (r_start (get (mem s) res)) (r_end (get (mem s) res)) s'.
Proof.
  set (m := mem s) in *. intros IH Hfuel Hgt Hlt m2 Hnx E3 Hbo3 m4. pose proof (t_in _ _ T _ _ Hc) as Hci.
  destruct (split_two s K res k1 c k2 nx s3 (r_end (get m res)) T Hr Hd Hl Hf EK Hb)
    as (m5 & E5 & T5 & Hbo5 & Hr5 & Hd5 & Hl5 & Hf5 & B5 & Rx1 & Rx2 & Hne & R1 & R2 & R5); try done.
  fold m in E5, R1, R2, R5, Rx1. fold m4 in E5. cbn [split_loop mem bootmem_resource_free]. rewrite E5. cbn [mbind option_bind].
  destruct (IH (mkRstate m5 (bootmem_resource_free s3)) _ (k1 ++ [res; c]) k2 nx fuel ltac:(done) T5 Hbo5 Hr5 Hd5 Hl5 Hf5)
    as (s' & E' & HR).
  { rewrite kset_eq. by rewrite <- app_assoc. }
  { done. }
  { done. }
  exists s'. split; [done|]. cbn [mem] in HR. rewrite Rx1, Rx2 in HR.
  eapply (split_round m K res _ _ m5 _ nx); [exact HR|exact R5| |].
  - intros y Hy. rewrite kset_eq. rewrite EK in Hy. set_solver.
  - intros x Hx. rewrite kset_eq. destruct (decide (x < r_start (get m c))).
    + exists res. split_and!; [set_solver| |done|lia|lia].
      apply (kid_dom T5 root). rewrite kset_eq. set_solver.
    + destruct (R5 c) as (Hcd & Hcn & Rc1 & Rc2); [by apply (kid_dom T root)|done|].
      exists c. split_and!; [set_solver|done|done|lia|lia].
Qed.

(** Nothing is left below [c]. *)
Lemma split_end :
  loop_ok (length k2) → (2 * length k2 + 1 ≤ fuel)%nat →
  r_start (get (mem s) c) ≤ r_start (get (mem s) res) ≤ r_end (get (mem s) c) → r_end (get (mem s) c) < r_end (get (mem s) res) →
  let m2 := reranged (m := mem s) res (r_end (get (mem s) c) + 1) (r_end (get (mem s) res)) in
  ∃ s', split_loop fuel (mkRstate m2 (bootmem_resource_free s)) root res None name = Some s' ∧
    split_result (mem s) K res (r_start (get (mem s) res)) (r_end (get (mem s) res)) s'.
Proof.
  set (m := mem s) in *. intros IH Hfuel Hle Hlt m2.
  destruct (split_tail m K res k1 c k2 T Hr Hd Hl Hf EK Hb) as (T2 & D2 & Hd2 & Hf2 & Gr & G2 & B2); [done|lia|].
  fold m2 in T2, D2, Hd2, Hf2, Gr, G2, B2. set (s2 := mkRstate m2 (bootmem_resource_free s)).
  destruct (IH s2 K (k1 ++ [c]) k2 res fuel ltac:(done) T2) as (s' & E' & HR); try done.
  - split; [apply Hbo|]. cbn. rewrite D2. apply Hbo.
  - cbn. by rewrite D2.
  - by rewrite <- app_assoc.
  - exists s'. split; [exact E'|]. cbn [mem s2] in HR. rewrite Gr in HR. cbn [set_range r_start r_end] in HR.
    eapply (split_round m K res _ _ m2 K res); [exact HR| |done|].
    + intros y Hy Hne. rewrite D2, G2 by done. done.
    + intros x Hx. exists c. rewrite D2, G2 by done.
      split_and!; [done|by apply (kid_dom T root)|done|lia|lia].
Qed.
End round.

Lemma split_loop_spec n : loop_ok n.
Proof.
  induction n as [n IH] using lt_wf_ind.
  intros s K l1 l2 res fuel Hn T Hbo Hr Hd Hl Hf EK Hb Hfuel. set (m := mem s) in *.
  destruct fuel as [|fuel]; [lia|]. cbn [split_loop]. fold m.
  destruct (request_spec T root res Hr Hd) as [[? _]|(_ & [m1 c] & -> & Hres)]; [done|].
  cbn [mbind option_bind]. destruct c as [c|].
  2:{ destruct Hres as (k1 & k2 & EK' & L & Hb' & Ha'). eexists. split; [done|].
      pose proof (request_linked_rep m K root res k1 k2 m1 T Hr Hd Hf EK' Hb' Ha' L) as T'.
      apply (split_linked m K res k1 k2 m1 _ Hr EK' L T'); [reflexivity| |].
      - split; [apply Hbo|]. cbn. rewrite (proj1 L). apply Hbo.
      - intros x Hx. lia. }
  destruct Hres as (-> & k1 & k2 & EK' & Hb' & Ho).
  assert (c ∈ K root) as Hc by (rewrite EK'; set_solver). pose proof (t_in _ _ T _ _ Hc) as Hci.
  assert (c ≠ res) as Hcr.
  { intros ->. apply (t_par _ _ T) in Hc. destruct Hd as (_ & Hp & _). unfold up in Hc. congruence. }
  pose proof (conflict_later m res c l1 l2 k1 k2 ltac:(by rewrite <- EK) Hb Ho) as Hlen.
  pose proof (t_width _ _ T res) as [W1 W2]. pose proof (t_width _ _ T c) as [W3 W4].
  rewrite (in_lookup m c) by by apply (kid_dom T root).
  rewrite (in_lookup m res) by apply Hd. cbn [mbind option_bind].
  assert (mkRstate m (bootmem_resource_free s) = s) as -> by by destruct s.
  destruct (decide (r_start (get m c) ≤ r_start (get m res) ∧ r_end (get m c) >= r_end (get m res))) as [Hcov|Hcov].
  { eexists. split; [done|]. apply (split_covered s K res c); try done. unfold fits in *. fold m. lia. }
  unfold overlap in Ho. destruct (decide (r_start (get m c) > r_start (get m res))) as [Hgt|Hgt]; cycle 1.
  { rewrite (wrap_small 64 (r_end (get m c) + 1)) by (unfold in_width in *; lia). rewrite upd_in by apply Hd. cbn [mbind option_bind].
    apply (split_end s K res c k1 k2); try done; [apply IH; lia|lia|fold m; lia..]. }
  rewrite (wrap_small 64 (r_start (get m c) - 1)) by (unfold in_width in *; lia). rewrite upd_in by apply Hd. cbn [mbind option_bind].
  change (<[res := set_range _ _ (get m res)]> m) with (reranged (m := m) res (r_start (get m res)) (r_start (get m c) - 1)).
  destruct fuel as [|fuel]; [lia|]. destruct (decide (r_end (get m c) < r_end (get m res))) as [Hlt|Hge];
    [|apply (split_front s K res c k1 k2); try done; fold m; lia].
  destruct (split_gap m K res k1 c k2 T Hr Hd Hl Hf EK' Hb') as (T2 & D2 & Hd2 & Hf2 & Gr & G2 & _ & _); [lia..|].
  set (m2 := reranged res _ _) in *. set (s2 := mkRstate m2 (bootmem_resource_free s)).
  assert (boot_ok s2) as Hbo2 by (split; [apply Hbo|]; cbn; rewrite D2; apply Hbo).
  pose proof (alloc_resource_spec s2 Hbo2) as Hal. destruct (alloc_resource s2) as [[nx|] s3].
  - destruct Hal as (Hnx & E3 & Hbo3). cbn [mem s2] in Hnx, E3.
    rewrite (wrap_small 64 (r_end (get m c) + 1)) by (unfold in_width in *; lia).
    rewrite upd_in by (rewrite E3; set_solver). cbn [mbind option_bind].
    assert (get (mem s3) nx = res0) as -> by (rewrite E3, get_insert, decide_True; done).
    apply (split_middle s K res c k1 k2); try done; [apply IH; lia|lia|fold m; lia].
  - destruct Hal as [-> Hk]. eexists. split; [done|].
    pose proof (split_nomem s2 K res T2 Hbo2 Hd2 Hl Hk) as HR.
    eapply (split_round m K res _ _ m2 K res); [exact (HR (r_start (get m res)) _)| |done|lia].
    intros y Hy Hne. rewrite D2, G2 by done. done.
Qed.
End split.

Section reserve.
Context `{ResAlloc} (root : nat) (name : string).

Lemma reserve_spec s K lo hi :
  tree_rep (mem s) K → boot_ok s → root ∈ dom (mem s) → in_u64 lo → in_u64 hi →
  r_start (get (mem s) root) ≤ lo ≤ hi → hi ≤ r_end (get (mem s) root) →
  ∃ s' K', __reserve_region_with_split s root lo hi name = Some s' ∧
    tree_rep (mem s') K' ∧ boot_ok s' ∧
    (∀ y, y ∈ dom (mem s) → y ∈ dom (mem s') ∧
       r_start (get (mem s') y) = r_start (get (mem s) y) ∧
       r_end (get (mem s') y) = r_end (get (mem s) y)) ∧
    (∀ y, y ∈ K root → y ∈ K' root) ∧
    ((∀ s, kzalloc s ≠ None) → ∀ x, lo ≤ x ≤ hi →
       ∃ c, c ∈ K' root ∧ r_start (get (mem s') c) ≤ x ≤ r_end (get (mem s') c)).
Proof.
  intros T Hb Hr Hlo Hhi H1 H2. unfold __reserve_region_with_split.
  pose proof (alloc_resource_spec s Hb) as Hal. destruct (alloc_resource s) as [[res|] s1].
  2:{ destruct Hal as [-> Hk]. exists s, K. split_and!; try done. intros Hall. by destruct (Hall s). }
  destruct Hal as (Hres & E1 & Hb1).
  rewrite upd_in by (rewrite E1; set_solver). cbn [mbind option_bind].
  assert (get (mem s1) res = res0) as -> by by rewrite E1, get_insert, decide_True.
  set (r := busy_fields name lo hi res0). rewrite E1, insert_insert_eq.
  assert (unlinked_res r) as Hu by by unfold r; split_and!.
  pose proof (rep_insert _ K res r T Hres Hu) as T2. set (m2 := <[res := r]> (mem s)) in *.
  assert (root ≠ res) as Hne by (by intros ->).
  assert (K res = []) as Hl by by apply (t_dom _ _ T).
  assert (get m2 res = r) as Gr by (unfold m2; by rewrite get_insert, decide_True).
  assert (∀ y, y ∈ dom (mem s) → get m2 y = get (mem s) y) as G2 by (intros; by apply insert_fresh_get).
  destruct (split_loop_spec root name (length (K root)) (mkRstate m2 (bootmem_resource_free s1))
    K [] (K root) res (2 * fuel_of m2)%nat) as (s' & -> & K' & T' & B' & R' & C' & V'); cbn [mem].
  - done.
  - done.
  - split; [apply Hb1|]. cbn. intros a Ha. destruct Hb1 as [_ Hb1]. specialize (Hb1 a Ha).
    rewrite E1 in Hb1. unfold m2. set_solver.
  - unfold m2. set_solver.
  - apply (leaf_detached T2); [unfold m2; set_solver|by rewrite Gr|done|done].
  - done.
  - unfold fits. rewrite Gr, G2 by done. cbn. lia.
  - done.
  - constructor.
  - pose proof (kids_length T2 root). unfold fuel_of. lia.
  - exists s', K'. cbn [mem] in R', V'. rewrite Gr in V'. cbn in V'. split_and!; try done.
    intros y Hy. rewrite <- (G2 y Hy). apply R'; [unfold m2; set_solver|]. by intros ->.
Qed.

(** [reserve_region_with_split] terminates on a well-formed tree and never
    touches what is there: every node keeps its range and every child of [root]
    stays one.  When the allocator does not run out of memory, every address of
    the requested range that lies in [root] ends up inside a child of [root]. *)
Theorem reserve_region_covers s K start end_ :
  tree_rep (mem s) K → boot_ok s → root ∈ dom (mem s) →
  r_start (get (mem s) root) ≤ r_end (get (mem s) root) →
  in_u64 start → in_u64 end_ → start ≤ end_ →
  ∃ s' K', reserve_region_with_split s root start end_ name = Some s' ∧
    tree_rep (mem s') K' ∧ boot_ok s' ∧
    (∀ y, y ∈ dom (mem s) → y ∈ dom (mem s') ∧
       r_start (get (mem s') y) = r_start (get (mem s) y) ∧
       r_end (get (mem s') y) = r_end (get (mem s) y)) ∧
    (∀ y, y ∈ K root → y ∈ K' root) ∧
    ((∀ s, kzalloc s ≠ None) → ∀ x, start ≤ x ≤ end_ →
       r_start (get (mem s) root) ≤ x ≤ r_end (get (mem s) root) →
       ∃ c, c ∈ K' root ∧ r_start (get (mem s') c) ≤ x ≤ r_end (get (mem s') c)).
Proof.
  intros T Hb Hr Hrr Hs He Hle. unfold reserve_region_with_split.
  rewrite (in_lookup _ _ Hr). cbn [mbind option_bind]. set (rr := get (mem s) root) in *.
  pose proof (t_width _ _ T root) as [W1 W2]. fold rr in W1, W2.
  destruct (decide (r_start rr > start ∨ r_end rr < end_)) as [Hout|Hin].
  - destruct (decide (start > r_end rr ∨ end_ < r_start rr)) as [Hab|Hab].
    { exists s, K. split_and!; try done. intros _ x Hx1 Hx2. lia. }
    set (e := if decide (end_ > r_end rr) then _ else _).
    set (b := if decide (start < r_start rr) then _ else _).
    assert (e = Z.min end_ (r_end rr) ∧ b = Z.max start (r_start rr)) as [Ee Eb]
      by (unfold e, b; repeat case_decide; lia).
    destruct (reserve_spec s K b e T Hb Hr) as (s' & K' & -> & ? & ? & ? & ? & V);
      [unfold in_width in *; lia|unfold in_width in *; lia|fold rr; lia|fold rr; lia|].
    exists s', K'. split_and!; try done. intros Hk x Hx1 Hx2. apply (V Hk). lia.
  - destruct (reserve_spec s K start end_ T Hb Hr Hs He) as (s' & K' & -> & ? & ? & ? & ? & V);
      [fold rr; lia|fold rr; lia|].
    exists s', K'. split_and!; try done. intros Hk x Hx1 Hx2. apply (V Hk). lia.
Qed.
End reserve.

(** * An allocator *)

(** Always the least address not in use. *)
Definition fresh_addr (s : rstate) : nat :=
  fresh (dom (mem s) ∪ list_to_set (bootmem_resource_free s) : gset nat).

Lemma fresh_addr_spec s a :
  Some (fresh_addr s) = Some a → a ∉ dom (mem s) ∧ a ∉ bootmem_resource_free s.
Proof.
  intros [= <-]. unfold fresh_addr.
  pose proof (is_fresh (dom (mem s) ∪ list_to_set (bootmem_resource_free s) : gset nat)) as Hf.
  rewrite not_elem_of_union, not_elem_of_list_to_set in Hf. done.
Qed.

Definition slab_alloc : ResAlloc := {|
  kzalloc s := Some (fresh_addr s);
  PageSlab _ := true;
  kzalloc_fresh := fresh_addr_spec;
|}.

(** * Busy regions come and go *)

(** The way down from [q] to [p], [d] levels, through entries that contain
    [new] and are not busy. *)
Inductive region_path (m : store) (K : nat → list nat) (new : nat) : nat → nat → nat → Prop :=
  | rp_here p : region_path m K new 0 p p
  | rp_down d q c p k1 k2 :
      K q = k1 ++ c :: k2 → Forall (λ x, before m x new) k1 → fits m c new →
      Z.land (r_flags (get m c)) IORESOURCE_BUSY = 0 →
      region_path m K new d c p → region_path m K new (S d) q p.

Lemma region_path_up {m K} (T : tree_rep m K) new d q p :
  region_path m K new d q p → rtc (up m) p q.
Proof.
  induction 1 as [|d q c p k1 k2 E _ _ _ _ IH]; [done|].
  eapply rtc_r; [exact IH|]. apply (t_par _ _ T). rewrite E. set_solver.
Qed.

Section region.
Context `{ResAlloc}.

Definition muxed (m : store) (c : nat) (flags : Z) : Prop :=
  Z.land (Z.land (r_flags (get m c)) (u64 flags)) IORESOURCE_MUXED ≠ 0.

(** How the loop of [__request_region] can end from [q]. *)
Definition region_result (s : rstate) (K : nat → list nat) (fuel q res : nat) (flags : Z)
    (r : rstate * region_outcome) : Prop :=
  let m := mem s in
  match r with
  | (s', RDone (Some a)) =>
      a = res ∧ bootmem_resource_free s' = bootmem_resource_free s ∧ fits m q res ∧
      ∃ d p l1 l2, (d < fuel)%nat ∧ region_path m K res d q p ∧ fits m p res ∧
        K p = l1 ++ l2 ∧ Forall (λ x, before m x res) l1 ∧ Forall (λ x, before m res x) l2 ∧
        linked (m := m) p res l1 l2 (mem s')
  | (s', RDone None) => s' = free_resource s (Some res)
  | (s', RSleep a c) => a = res ∧ s' = s ∧ c ∈ dom m ∧ muxed m c flags
  end.

Lemma region_loop_spec s K root res flags (V : gset nat) q fuel :
  tree_rep (mem s) K → detached (mem s) root res →
  rtc (up (mem s)) q root → q ∈ dom (mem s) → V ⊆ dom (mem s) →
  (∀ v, v ∈ V → tc (up (mem s)) q v) → (size (mem s) < fuel + size V)%nat →
  ∃ r, region_loop fuel s q res flags = Some r ∧ region_result s K fuel q res flags r.
Proof.
  intros T Hd. revert V q. induction fuel as [|fuel IH]; intros V q Hr Hq HV Htc Hsz.
  { apply subseteq_size in HV. rewrite size_dom in HV. lia. }
  pose proof (detached_below _ _ _ _ Hr Hd) as Hdq. cbn [region_loop].
  assert (mkRstate (mem s) (bootmem_resource_free s) = s) as Es by by destruct s.
  assert (∀ c, c ∈ dom (mem s) → ¬ (c ≠ q ∧ Z.land (r_flags (get (mem s) c)) IORESOURCE_BUSY = 0) →
    ∃ r, (rc ← mem s !! c;
      if decide (c ≠ q ∧ Z.land (r_flags rc) IORESOURCE_BUSY = 0)
      then region_loop fuel s c res flags
      else if decide (Z.land (Z.land (r_flags rc) (u64 flags)) IORESOURCE_MUXED ≠ 0)
      then Some (s, RSleep res c) else Some (free_resource s (Some res), RDone None)) = Some r ∧
      region_result s K (S fuel) q res flags r) as Hstop.
  { intros c Hc Hn. rewrite (in_lookup _ _ Hc). cbn [mbind option_bind].
    rewrite (decide_False (P := c ≠ q ∧ _)) by done.
    destruct (decide _) as [Hm|Hm]; eexists; (split; [done|]); by cbn. }
  destruct (request_spec T q res Hq Hdq) as [[Hnf ->]|(Hf & [m1 c] & -> & Hres)];
    cbn [mbind option_bind].
  { rewrite Es. apply (Hstop q Hq). by intros [? _]. }
  destruct c as [c|].
  2:{ destruct Hres as (l1 & l2 & EK & L & Hb & Ha). eexists. split; [done|].
      split_and!; [done..|]. exists 0%nat, q, l1, l2.
      split_and!; [lia|constructor|exact Hf|exact EK|exact Hb|exact Ha|exact L]. }
  destruct Hres as (-> & l1 & l2 & EK & Hb & Ho). rewrite Es.
  assert (c ∈ K q) as Hc by (rewrite EK; set_solver). pose proof (kid_dom T _ _ Hc) as Hcd.
  assert (up (mem s) c q) as Hup by by apply (t_par _ _ T).
  destruct (decide (Z.land (r_flags (get (mem s) c)) IORESOURCE_BUSY = 0)) as [Hnb|Hbusy].
  2:{ apply Hstop; [done|]. by intros [_ ?]. }
  rewrite (in_lookup _ _ Hcd). cbn [mbind option_bind].
  rewrite decide_True by (split; [intros ->; by apply (up_irrefl T q)|done]).
  assert (q ∉ V) as HqV by (intros Hv%Htc; by apply (tc_irrefl T q)).
  destruct (IH ({[q]} ∪ V) c) as ([s' o] & E & HR).
  - by eapply rtc_l.
  - done.
  - set_solver.
  - intros v [->%elem_of_singleton|Hv]%elem_of_union; [by apply tc_once|].
    eapply tc_l; [done|by apply Htc].
  - rewrite size_union by set_solver. rewrite size_singleton. lia.
  - exists (s', o). split; [done|]. destruct o as [[a|]|a c']; [|done..].
    destruct HR as (Ha & Hbo & Hfc & d & p & k1 & k2 & Hdf & Hp & HR).
    split; [done|]. split; [done|]. split; [done|]. exists (S d), p, k1, k2.
    split; [lia|]. split; [by eapply rp_down|exact HR].
Qed.

(** Releasing walks past the children that end before the region. *)
Lemma release_skip s K q l1 l l2 st en fuel :
  tree_rep (mem s) K → q ∈ dom (mem s) → K q = l1 ++ l ++ l2 → st ≤ en →
  Forall (λ x, r_end (get (mem s) x) < st) l →
  release_region_loop (length l + fuel) s st en (slot_of q l1) =
  release_region_loop fuel s st en (slot_of q (l1 ++ l)).
Proof.
  intros T Hq EK Hle Hl. revert l1 EK. induction l as [|x l IH]; intros l1 EK.
  { by rewrite app_nil_r. }
  apply Forall_cons in Hl as [Hx Hl]. cbn [length Nat.add release_region_loop].
  rewrite (rd_slot_of T q l1 (x :: l ++ l2)) by done. cbn [head mbind option_bind].
  rewrite (in_lookup (mem s) x) by (apply (kid_dom T q); rewrite EK; set_solver).
  cbn [mbind option_bind]. rewrite decide_False by lia.
  rewrite <- (slot_of_snoc q l1 x). rewrite IH by (done || by rewrite <- app_assoc).
  by rewrite <- app_assoc.
Qed.

Section release_path.
Context (s : rstate) (K1 : nat → list nat) (a p : nat) (l1 l2 : list nat).
Context (T : tree_rep (mem s) K1) (Ep : K1 p = l1 ++ a :: l2).
Context (Hle : r_start (get (mem s) a) ≤ r_end (get (mem s) a)).
Context (Hbusy : Z.land (r_flags (get (mem s) a)) IORESOURCE_BUSY ≠ 0).
Context (Hb : Forall (λ x, before (mem s) x a) l1).

Lemma release_here fuel m' :
  wr_slot (mem s) (slot_of p l1) (head l2) = Some m' → (length l1 < fuel)%nat →
  release_region_loop fuel s (r_start (get (mem s) a)) (r_end (get (mem s) a)) (ChildOf p) =
  Some (free_resource (mkRstate m' (bootmem_resource_free s)) (Some a), true).
Proof.
  intros Hw Hf. assert (a ∈ K1 p) as Ha by (rewrite Ep; set_solver).
  pose proof (parent_dom T _ _ Ha) as Hp.
  destruct fuel as [|fuel]; [lia|]. replace (S fuel) with (length l1 + S (fuel - length l1))%nat by lia.
  change (ChildOf p) with (slot_of p []).
  rewrite (release_skip s K1 p [] l1 (a :: l2)) by done. cbn [app release_region_loop].
  rewrite (rd_slot_of T p l1 (a :: l2)) by done. cbn [head mbind option_bind].
  rewrite (in_lookup _ _ (kid_dom T _ _ Ha)). cbn [mbind option_bind].
  rewrite decide_True by lia. rewrite decide_False by done. rewrite decide_False by lia.
  rewrite (t_sib _ _ T _ _ _ _ Ep), Hw. done.
Qed.

Lemma release_path d q p' fuel m' :
  region_path (mem s) K1 a d q p' → p' = p →
  wr_slot (mem s) (slot_of p l1) (head l2) = Some m' →
  ((d + 1) * S (size (mem s)) ≤ fuel)%nat →
  release_region_loop fuel s (r_start (get (mem s) a)) (r_end (get (mem s) a)) (ChildOf q) =
  Some (free_resource (mkRstate m' (bootmem_resource_free s)) (Some a), true).
Proof.
  intros Hpath Heq Hw. revert fuel.
  induction Hpath as [p'|d q c p' k1 k2 E Hk1 Hf Hnb _ IH]; intros fuel Hfuel; rewrite ?Heq.
  { apply release_here; [done|]. pose proof (kids_length T p) as Hl.
    rewrite Ep, length_app in Hl. lia. }
  assert (c ∈ K1 q) as Hc by (rewrite E; set_solver).
  pose proof (kids_length T q) as Hl. rewrite E, length_app in Hl. cbn in Hl.
  destruct fuel as [|fuel]; [lia|]. replace (S fuel) with (length k1 + S (fuel - length k1))%nat by lia.
  change (ChildOf q) with (slot_of q []).
  rewrite (release_skip s K1 q [] k1 (c :: k2)); [|done|by apply (parent_dom T _ c)|done|done|done].
  cbn [app release_region_loop].
  rewrite (rd_slot_of T q k1 (c :: k2)); [|by apply (parent_dom T _ c)|done].
  cbn [head mbind option_bind].
  rewrite (in_lookup _ _ (kid_dom T _ _ Hc)). cbn [mbind option_bind].
  unfold fits in Hf. rewrite decide_True by lia. rewrite decide_True by done.
  apply IH; [done|]. lia.
Qed.
End release_path.
End region.

(** The way down is the same after the region went in. *)
Lemma path_linked {m K} (T : tree_rep m K) a p l1 l2 m' d q p' :
  linked (m := m) p a l1 l2 m' → region_path m K a d q p' → p' = p →
  region_path m' (kset p (l1 ++ a :: l2) K) a d q p'.
Proof.
  intros L Hp. pose proof (linked_ranges _ _ _ _ _ _ L) as Hs.
  assert (∀ x, r_flags (get m' x) = r_flags (get m x)) as Hfl.
  { intros x. rewrite (proj2 L). case_decide; subst; by autorewrite with kern. }
  induction Hp as [p'|d q c p' k1 k2 E Hk Hf Hnb Hp IH]; intros ->; [constructor|].
  assert (q ≠ p) as Hne.
  { intros ->. apply (tc_irrefl T p). eapply tc_rtc_l; [by eapply (region_path_up T)|].
    apply tc_once, (t_par _ _ T). rewrite E. set_solver. }
  apply (rp_down _ _ _ _ _ c _ k1 k2).
  - by rewrite kset_ne.
  - eapply Forall_impl; [exact Hk|]. intros x Hx. by apply (before_same m m').
  - unfold fits. by rewrite (proj1 (Hs c)), (proj2 (Hs c)), (proj1 (Hs a)), (proj2 (Hs a)).
  - by rewrite Hfl.
  - by apply IH.
Qed.

Section region_theorem.
Context `{ResAlloc}.

Lemma busy_flag flags : Z.land (Z.lor IORESOURCE_BUSY (u64 flags)) IORESOURCE_BUSY ≠ 0.
Proof. rewrite Z.land_comm, Z.land_lor_distr_r. intros [E _]%Z.lor_eq_0_iff. discriminate. Qed.

(** Unlinking a region that was just linked and freeing it. *)
Lemma release_linked {m K} (T : tree_rep m K) a p l1 l2 m1 m' :
  p ∈ dom m → K p = l1 ++ l2 → a ∈ dom m → (∀ x, x ∈ K p → x ≠ a) → p ≠ a →
  linked (m := m) p a l1 l2 m1 → wr_slot m1 (slot_of p l1) (head l2) = Some m' →
  base.delete a m' = base.delete a m.
Proof.
  intros Hp EK Ha Hk Hpa L Hw.
  assert (∀ b, b ∈ l1 → b ∈ dom m) as Hl1 by (intros b Hb; apply (kid_dom T p); rewrite EK; set_solver).
  destruct (wr_slot_of m1 p l1 (head l2)) as (m2 & E2 & D2 & G2).
  { by rewrite (proj1 L). }
  { intros b Hb. rewrite (proj1 L). by apply Hl1. }
  rewrite Hw in E2. injection E2 as <-. apply store_eq.
  - rewrite !dom_delete_L, D2. by rewrite (proj1 L).
  - intros x. rewrite !get_delete. destruct (decide (x = a)) as [|Hx]; [done|].
    rewrite G2, (proj2 L), decide_False by done. by apply (slot_upd_back T).
Qed.

(** Releasing a region just granted: the walk finds it, and freeing it leaves
    the store without it. *)
Lemma region_restored {m K} (T : tree_rep m K) a parent p l1 l2 d s1 :
  parent ∈ dom m → detached m parent a → (d < fuel_of m)%nat →
  region_path m K a d parent p → fits m p a → K p = l1 ++ l2 →
  Forall (λ x, before m x a) l1 → Forall (λ x, before m a x) l2 →
  linked (m := m) p a l1 l2 (mem s1) →
  Z.land (r_flags (get m a)) IORESOURCE_BUSY ≠ 0 →
  let K1 := kset p (l1 ++ a :: l2) K in
  tree_rep (mem s1) K1 ∧ region_path (mem s1) K1 a d parent p ∧
  r_start (get (mem s1) a) = r_start (get m a) ∧ r_end (get (mem s1) a) = r_end (get m a) ∧
  r_flags (get (mem s1) a) = r_flags (get m a) ∧
  ∃ s2, release_region_loop (fuel_of (mem s1) * fuel_of (mem s1)) s1
          (r_start (get (mem s1) a)) (r_end (get (mem s1) a)) (ChildOf parent) = Some (s2, true) ∧
    mem s2 = base.delete a m.
Proof.
  intros Hpar Hd Hdf Hpath Hf EK Hb Ha L Hbusy K1.
  pose proof (region_path_up T _ _ _ _ Hpath) as Hup.
  assert (p ∈ dom m) as Hp by (apply rtc_inv in Hup as [->|(z & Hz & _)]; [done|by eapply up_dom]).
  pose proof (detached_below _ _ _ _ Hup Hd) as Hdp.
  pose proof (request_linked_rep m K p a l1 l2 (mem s1) T Hp Hdp Hf EK Hb Ha L) as T1.
  destruct (linked_ranges _ _ _ _ _ _ L a) as [R1 R2].
  assert (r_flags (get (mem s1) a) = r_flags (get m a)) as R3 by by rewrite (proj2 L), decide_True.
  pose proof (path_linked T a p l1 l2 (mem s1) d parent p L Hpath eq_refl) as Hpath1.
  split_and!; [done..|].
  destruct (wr_slot_of (mem s1) p l1 (head l2)) as (m' & Ew & _); [by rewrite (proj1 L)| |].
  { intros b Hbl. rewrite (proj1 L). apply (kid_dom T p). rewrite EK. set_solver. }
  exists (free_resource (mkRstate m' (bootmem_resource_free s1)) (Some a)). split.
  - apply (release_path s1 _ a p l1 l2 T1 (kset_eq _ _ _)) with (d := d) (p' := p) (m' := m'); try done.
    + rewrite R1, R2. unfold fits in Hf. lia.
    + by rewrite R3.
    + eapply Forall_impl; [exact Hb|]. intros x Hx.
      by apply (before_same m); [eapply linked_ranges|].
    + unfold fuel_of in *. rewrite <- !size_dom, (proj1 L), !size_dom. nia.
  - rewrite free_resource_mem. apply (release_linked T a p l1 l2 (mem s1)); try done.
    + apply Hd.
    + intros x Hx ->. apply (t_par _ _ T) in Hx. destruct Hd as (_ & Hpn & _). unfold up in Hx. congruence.
    + intros ->. by destruct Hdp as (_ & _ & []).
Qed.

(** [__request_region] on a well-formed tree returns or goes to sleep.
    When it returns a region, that region is new, is linked below [parent]
    through entries that are not busy, has the range asked for and is busy, and
    the tree is well-formed; [__release_region] of the same range then finds
    and frees it and the store is exactly as before the request.  When it
    returns NULL the store is as before.  When it sleeps, the region is
    allocated but not linked, and the entry it waits for is muxed. *)
Theorem request_release_region s K parent start n name flags :
  tree_rep (mem s) K → boot_ok s → parent ∈ dom (mem s) → in_u64 start →
  ∃ s1 o, __request_region s parent start n name flags = Some (s1, o) ∧
    match o with
    | RDone None => mem s1 = mem s
    | RDone (Some a) =>
        a ∉ dom (mem s) ∧ r_start (get (mem s1) a) = start ∧
        r_end (get (mem s1) a) = u64 (start + n - 1) ∧
        Z.land (r_flags (get (mem s1) a)) IORESOURCE_BUSY ≠ 0 ∧
        (∃ d p l1 l2, K p = l1 ++ l2 ∧ region_path (mem s1) (kset p (l1 ++ a :: l2) K) a d parent p ∧
           tree_rep (mem s1) (kset p (l1 ++ a :: l2) K)) ∧
        ∃ s2, __release_region s1 parent start n = Some (s2, true) ∧ mem s2 = mem s
    | RSleep a c =>
        tree_rep (mem s1) K ∧ detached (mem s1) parent a ∧ c ∈ dom (mem s1) ∧
        muxed (mem s1) c flags
    end.
Proof.
  intros T Hb Hpar Hst. unfold __request_region.
  pose proof (alloc_resource_spec s Hb) as Hal. destruct (alloc_resource s) as [[a|] s0].
  2:{ destruct Hal as [-> _]. by eexists s, _. }
  destruct Hal as (Ha & E0 & Hb0).
  rewrite upd_in by (rewrite E0; set_solver). cbn [mbind option_bind].
  assert (get (mem s0) a = res0) as -> by by rewrite E0, get_insert, decide_True.
  cbn [r_parent r_sibling r_child res0].
  set (r := mkResource _ _ _ _ _ _ _). rewrite E0, insert_insert_eq.
  assert (unlinked_res r) as Hu by (split_and!; [done|done|done|apply u64_range]).
  pose proof (rep_insert _ K a r T Ha Hu) as T2. set (m2 := <[a := r]> (mem s)) in *.
  assert (parent ≠ a) as Hne by (by intros ->).
  assert (K a = []) as Hl by by apply (t_dom _ _ T).
  assert (get m2 a = r) as Gr by (unfold m2; by rewrite get_insert, decide_True).
  assert (dom m2 = {[a]} ∪ dom (mem s)) as D2 by (unfold m2; set_solver).
  assert (detached m2 parent a) as Hd2.
  { apply (leaf_detached T2); [rewrite D2; set_solver|by rewrite Gr|done|done]. }
  assert (base.delete a m2 = mem s) as Edel.
  { unfold m2. apply delete_insert_id. by apply not_elem_of_dom. }
  destruct (region_loop_spec (mkRstate m2 (bootmem_resource_free s0)) K parent a flags ∅ parent
    (fuel_of m2)) as ([s1 o] & E & HR); cbn [mem] in *;
    [done|done|done|rewrite D2; set_solver|set_solver|set_solver|unfold fuel_of; rewrite size_empty; lia|].
  exists s1, o. split; [exact E|].
  destruct o as [[a'|]|a' c]; cbn [region_result] in HR.
  - destruct HR as (-> & _ & _ & d & p & l1 & l2 & Hdf & Hpath & Hf & EK & Hb1 & Ha1 & L). cbn [mem] in *.
    destruct (region_restored T2 a parent p l1 l2 d s1) as (T1 & Hpath1 & R1 & R2 & R3 & s2 & Er & Em);
      try done; [rewrite D2; set_solver|by rewrite Gr; apply busy_flag|].
    rewrite Gr in R1, R2, R3. cbn in R1, R2, R3. split_and!; [done|done|done|rewrite R3; apply busy_flag|by exists d, p, l1, l2|].
    exists s2. unfold __release_region. rewrite <- Edel. split; [|done].
    rewrite <- R2, <- R1. exact Er.
  - subst s1. rewrite free_resource_mem. exact Edel.
  - destruct HR as (-> & -> & Hc & Hm). cbn [mem] in *. by split_and!.
Qed.
End region_theorem.

(** * Muxed regions *)

(** C39: a task that slept in [__request_region] goes on with [parent] set to
    the region it conflicted with.  If that region is still held (and has no
    children) when the task wakes, the retry is made among its children and
    grants the same addresses to a second owner; if the region has been
    released in the meantime, the retry dereferences a node that is no longer
    there. *)
Theorem muxed_wake_double_grant `{ResAlloc} s K c res flags :
  tree_rep (mem s) K → K c = [] → detached (mem s) c res →
  (c ∈ dom (mem s) → fits (mem s) c res →
    ∃ s', request_region_wake s c res flags = Some (s', RDone (Some res)) ∧
      up (mem s') res c) ∧
  (c ∉ dom (mem s) → request_region_wake s c res flags = None).
Proof.
  intros T Hl Hd. unfold request_region_wake, fuel_of. cbn [region_loop]. split.
  - intros Hc Hf. destruct (request_gap T c res [] [] Hc Hd Hf Hl) as (m' & -> & _ & T'); [constructor..|].
    cbn [mbind option_bind]. eexists. split; [done|]. cbn [mem]. apply (t_par _ _ T').
    rewrite kset_eq. set_solver.
  - intros Hc%not_elem_of_dom. unfold __request_resource.
    rewrite (in_lookup _ _ (proj1 Hd)). cbn [mbind option_bind]. by rewrite Hc.
Qed.

(** * Witnesses *)

Module RegionDemo.
Import ResDemo.

#[local] Existing Instance slab_alloc.

Definition s0 : rstate := mkRstate demo [].

Lemma s0_boot : boot_ok s0.
Proof. split; [constructor|]. intros a Ha. by apply elem_of_nil in Ha. Qed.

Lemma reserve_region_covers_witness :
  ∃ s' K', reserve_region_with_split s0 0%nat 5000 6000 "reserved" = Some s' ∧
    tree_rep (mem s') K' ∧
    ∃ c, c ∈ K' 0%nat ∧ r_start (get (mem s') c) ≤ 5500 ≤ r_end (get (mem s') c).
Proof.
  destruct (reserve_region_covers 0%nat "reserved" s0 (λ _, []) 5000 6000 demo_rep s0_boot)
    as (s' & K' & E & T' & _ & _ & _ & V).
  - apply demo_dom. lia.
  - vm_compute. discriminate.
  - split; reflexivity || lia.
  - split; reflexivity || lia.
  - lia.
  - exists s', K'. split_and!; [done..|]. apply V; [done|lia|].
    vm_compute. split; discriminate.
Defined.

Lemma request_release_region_witness :
  ∃ s1 o, __request_region s0 0%nat 5000 16 "serial" 0 = Some (s1, o) ∧
    ∃ s2, __release_region s1 0%nat 5000 16 = Some (s2, true) ∧ mem s2 = demo.
Proof.
  destruct (request_release_region s0 (λ _, []) 0%nat 5000 16 "serial" 0 demo_rep s0_boot)
    as (s1 & o & E & H).
  - apply demo_dom. lia.
  - split; reflexivity || lia.
  - exists s1, o. split; [done|]. vm_compute in E. injection E as <- <-.
    destruct H as (_ & _ & _ & _ & _ & H). exact H.
Defined.

(** Two busy regions and a reservation around them. *)
Example demo_reserve :
  ('(s1, _) ← __request_region s0 0%nat 5000 16 "a" 0;
   '(s2, _) ← __request_region s1 0%nat 5100 16 "b" 0;
   s3 ← reserve_region_with_split s2 0%nat 4990 5200 "boot";
   Some ((λ a, (r_start (get (mem s3) a), r_end (get (mem s3) a))) <$> seq 4 5))
  = Some [(5000, 5015); (5100, 5115); (4990, 4999); (5016, 5099); (5116, 5200)].
Proof. vm_compute. reflexivity. Qed.

(** A second request for a muxed port pair. *)
Definition muxed_twice : option (rstate * region_outcome * rstate) :=
  '(s1, _) ← __request_region s0 0%nat 46 2 "first" IORESOURCE_MUXED;
  '(s2, o2) ← __request_region s1 0%nat 46 2 "second" IORESOURCE_MUXED;
  Some (s2, o2, s1).

Lemma muxed_sleeps :
  (snd ∘ fst <$> muxed_twice) = Some (RSleep 5 4).
Proof. vm_compute. reflexivity. Qed.

Example muxed_two_owners :
  ('(s2, _, _) ← muxed_twice;
   '(s3, o) ← request_region_wake s2 4%nat 5%nat IORESOURCE_MUXED;
   Some (o, (λ a, (r_start (get (mem s3) a), r_end (get (mem s3) a), r_parent (get (mem s3) a)))
              <$> [4%nat; 5%nat]))
  = Some (RDone (Some 5%nat), [(46, 47, Some 0%nat); (46, 47, Some 4%nat)]).
Proof. vm_compute. reflexivity. Qed.

Example muxed_freed_parent :
  ('(s2, _, _) ← muxed_twice;
   '(s3, released) ← __release_region s2 0%nat 46 2;
   Some (released, request_region_wake s3 4%nat 5%nat IORESOURCE_MUXED))
  = Some (true, None).
Proof. vm_compute. reflexivity. Qed.

(** The state of [s0] with an unlinked descriptor inside the window. *)
Lemma muxed_wake_double_grant_witness :
  ∃ s', request_region_wake s0 1%nat 2%nat IORESOURCE_MUXED = Some (s', RDone (Some 2%nat)) ∧
    up (mem s') 2%nat 1%nat.
Proof.
  destruct (muxed_wake_double_grant s0 (λ _, []) 1%nat 2%nat IORESOURCE_MUXED) as (Hg & _).
  - exact demo_rep.
  - reflexivity.
  - apply flat_detached; [apply demo_rep|apply demo_dom; lia|lia].
  - apply Hg; [apply demo_dom; lia|]. vm_compute. split_and!; discriminate.
Defined.
End RegionDemo.
