(* ===== verification/TimerWheel.v ===== *)
(** The timer wheel of kernel/timer.c: one CPU's [tvec_base], the calls that
    start, move and stop timers, the cascades and [__run_timers].

    A timer is a number; its fields are in a map, and so is the content of
    every bucket.  The work list of [__run_timers] is part of the state, since
    handlers (which run with the lock dropped) may stop timers that are on it.
    A handler is a sequence of calls to the timer functions, given as a
    parameter; [jiffies] does not move while [__run_timers] works.  Migration
    between CPUs is not modelled: all timers belong to this base.

    After the definitions: what it means that a wheel holds timers with given
    due ticks ([wheel_rep]), and that adding, detaching, cascading and starting
    a tick keep it. *)

From S2P Require Import Prelude.

Local Open Scope Z_scope.

(** * Data *)

Definition TVR_BITS : Z := 8.
Definition TVN_BITS : Z := 6.
Definition TVR_SIZE : Z := 256.
Definition TVR_MASK : Z := 255.
Definition TVN_MASK : Z := 63.
Definition MAX_TVAL : Z := 4294967295.

Record timer_list := mkTimer {
  expires : Z;
  slack : Z;
  deferrable : bool;
}.

(** [buckets] holds the list at [tv1.vec + i] under [(0, i)], that at
    [tv2.vec + i] under [(1, i)] and so on to [tv5]; a timer is in [pending]
    when its [entry.next] is not NULL. *)
Record tvec_base := mkBase {
  running_timer : option nat;
  timer_jiffies : Z;
  next_timer : Z;
  active_timers : Z;
  buckets : gmap (nat * Z) (list nat);
  work_list : list nat;
  pending : gset nat;
  timers : gmap nat timer_list;
}.

Definition vec (b : tvec_base) (k : nat * Z) : list nat := default [] (buckets b !! k).

Definition set_running (r : option nat) (b : tvec_base) : tvec_base :=
  mkBase r (timer_jiffies b) (next_timer b) (active_timers b) (buckets b) (work_list b)
    (pending b) (timers b).
Definition set_jiffies (j : Z) (b : tvec_base) : tvec_base :=
  mkBase (running_timer b) j (next_timer b) (active_timers b) (buckets b) (work_list b)
    (pending b) (timers b).
Definition set_counts (nt at_ : Z) (b : tvec_base) : tvec_base :=
  mkBase (running_timer b) (timer_jiffies b) nt at_ (buckets b) (work_list b)
    (pending b) (timers b).
Definition set_lists (v : gmap (nat * Z) (list nat)) (w : list nat) (p : gset nat)
    (b : tvec_base) : tvec_base :=
  mkBase (running_timer b) (timer_jiffies b) (next_timer b) (active_timers b) v w p (timers b).
Definition set_expires (t : nat) (tm : timer_list) (e : Z) (b : tvec_base) : tvec_base :=
  mkBase (running_timer b) (timer_jiffies b) (next_timer b) (active_timers b) (buckets b)
    (work_list b) (pending b) (<[t := mkTimer e (slack tm) (deferrable tm)]> (timers b)).

(** The base [init_timers_cpu] leaves, with the timers the callers have set up. *)
Definition init_timers_cpu (jiffies : Z) (tms : gmap nat timer_list) : tvec_base :=
  mkBase None jiffies jiffies 0 ∅ [] ∅ tms.

Definition time_before (a b : Z) : Prop := s64 (a - b) < 0.
Definition time_after_eq (a b : Z) : Prop := 0 ≤ s64 (a - b).

Global Instance time_before_dec a b : Decision (time_before a b).
Proof. unfold time_before. apply _. Defined.
Global Instance time_after_eq_dec a b : Decision (time_after_eq a b).
Proof. unfold time_after_eq. apply _. Defined.

(** * Adding and detaching *)

(** The vector [__internal_add_timer] picks. *)
Definition slot_for (tj e : Z) : nat * Z :=
  let idx := u64 (e - tj) in
  if decide (idx < TVR_SIZE) then (0%nat, Z.land e TVR_MASK)
  else if decide (idx < 2 ^ 14) then (1%nat, Z.land (Z.shiftr e 8) TVN_MASK)
  else if decide (idx < 2 ^ 20) then (2%nat, Z.land (Z.shiftr e 14) TVN_MASK)
  else if decide (idx < 2 ^ 26) then (3%nat, Z.land (Z.shiftr e 20) TVN_MASK)
  else if decide (s64 idx < 0) then (0%nat, Z.land tj TVR_MASK)
  else
    let e := if decide (idx > MAX_TVAL) then u64 (MAX_TVAL + tj) else e in
    (4%nat, Z.land (Z.shiftr e 26) TVN_MASK).

(** [list_add_tail(&timer->entry, vec)] *)
Definition add_tail (b : tvec_base) (k : nat * Z) (t : nat) : tvec_base :=
  set_lists (<[k := vec b k ++ [t]]> (buckets b)) (work_list b) ({[t]} ∪ pending b) b.

Definition __internal_add_timer (b : tvec_base) (t : nat) : option tvec_base :=
  tm ← timers b !! t;
  Some (add_tail b (slot_for (timer_jiffies b) (expires tm)) t).

Definition internal_add_timer (b : tvec_base) (t : nat) : option tvec_base :=
  tm ← timers b !! t;
  b ← __internal_add_timer b t;
  Some (if deferrable tm then b
        else set_counts (if decide (time_before (expires tm) (next_timer b))
                         then expires tm else next_timer b)
                        (u64 (active_timers b + 1)) b).

(** The entry leaves the list it is on, a bucket or the work list. *)
Definition detach_timer (b : tvec_base) (t : nat) (clear_pending : bool) : tvec_base :=
  set_lists (filter (λ x, x ≠ t) <$> buckets b) (filter (λ x, x ≠ t) (work_list b))
    (if clear_pending then pending b ∖ {[t]} else pending b) b.

Definition detach_expired_timer (b : tvec_base) (t : nat) : option tvec_base :=
  tm ← timers b !! t;
  let b := detach_timer b t true in
  Some (if deferrable tm then b else set_counts (next_timer b) (u64 (active_timers b - 1)) b).

Definition detach_if_pending (b : tvec_base) (t : nat) (clear_pending : bool)
    : option (tvec_base * Z) :=
  if decide (t ∉ pending b) then Some (b, 0)
  else
    tm ← timers b !! t;
    let b := detach_timer b t clear_pending in
    Some (if deferrable tm then b
          else set_counts (if decide (expires tm = next_timer b) then timer_jiffies b else next_timer b)
                 (u64 (active_timers b - 1)) b, 1).

(** * The calls *)

Definition __mod_timer (b : tvec_base) (t : nat) (e : Z) (pending_only : bool)
    : option (tvec_base * Z) :=
  '(b, ret) ← detach_if_pending b t false;
  if decide (ret = 0 ∧ pending_only = true) then Some (b, ret)
  else
    tm ← timers b !! t;
    b ← internal_add_timer (set_expires t tm e b) t;
    Some (b, ret).

Definition mod_timer_pending (b : tvec_base) (t : nat) (e : Z) : option (tvec_base * Z) :=
  __mod_timer b t e true.

Section slack.
(** The value of the int expression [(1 << bit) - 1] for a [bit] of 31 or more,
    which the language does not define. *)
Context (shift_overflow : Z → Z).

(** The rounding at the end of [apply_slack]. *)
Definition slack_round (e expires_limit : Z) : Z :=
  let mask := Z.lxor e expires_limit in
  if decide (mask = 0) then e
  else
    let bit := Z.log2 mask in
    let mask := if decide (bit < 31) then 2 ^ bit - 1 else u64 (shift_overflow bit) in
    Z.land expires_limit (u64 (Z.lnot mask)).

Definition apply_slack (jiffies : Z) (tm : timer_list) (e : Z) : Z :=
  if decide (0 ≤ slack tm) then slack_round e (u64 (e + slack tm))
  else
    let delta := s64 (e - jiffies) in
    if decide (delta < 256) then e else slack_round e (u64 (e + Z.quot delta 256)).

Definition mod_timer (jiffies : Z) (b : tvec_base) (t : nat) (e : Z) : option (tvec_base * Z) :=
  tm ← timers b !! t;
  let e := apply_slack jiffies tm e in
  if decide (t ∈ pending b ∧ expires tm = e) then Some (b, 1)
  else __mod_timer b t e false.

Definition mod_timer_pinned (b : tvec_base) (t : nat) (e : Z) : option (tvec_base * Z) :=
  tm ← timers b !! t;
  if decide (expires tm = e ∧ t ∈ pending b) then Some (b, 1)
  else __mod_timer b t e false.

(** [BUG_ON(timer_pending(timer))] is [None]. *)
Definition add_timer (jiffies : Z) (b : tvec_base) (t : nat) : option (tvec_base * Z) :=
  if decide (t ∈ pending b) then None
  else tm ← timers b !! t; mod_timer jiffies b t (expires tm).

Definition add_timer_on (b : tvec_base) (t : nat) : option (tvec_base * Z) :=
  if decide (t ∈ pending b) then None
  else b ← internal_add_timer b t; Some (b, 0).

Definition del_timer (b : tvec_base) (t : nat) : option (tvec_base * Z) :=
  if decide (t ∈ pending b) then detach_if_pending b t true else Some (b, 0).

(** [-1] while the handler of the timer runs. *)
Definition try_to_del_timer_sync (b : tvec_base) (t : nat) : option (tvec_base * Z) :=
  if decide (running_timer b = Some t) then Some (b, -1)
  else detach_if_pending b t true.

(** A call to one of the timer functions. *)
Inductive timer_op :=
  | ModPending (t : nat) (e : Z)
  | Mod (t : nat) (e : Z)
  | ModPinned (t : nat) (e : Z)
  | Add (t : nat)
  | AddOn (t : nat)
  | Del (t : nat)
  | TryDel (t : nat).

Definition exec_op (jiffies : Z) (b : tvec_base) (o : timer_op) : option (tvec_base * Z) :=
  match o with
  | ModPending t e => mod_timer_pending b t e
  | Mod t e => mod_timer jiffies b t e
  | ModPinned t e => mod_timer_pinned b t e
  | Add t => add_timer jiffies b t
  | AddOn t => add_timer_on b t
  | Del t => del_timer b t
  | TryDel t => try_to_del_timer_sync b t
  end.

Fixpoint exec_ops (jiffies : Z) (b : tvec_base) (os : list timer_op) : option tvec_base :=
  match os with
  | [] => Some b
  | o :: os => '(b, _) ← exec_op jiffies b o; exec_ops jiffies b os
  end.

(** * Running *)

Fixpoint add_all (b : tvec_base) (ts : list nat) : option tvec_base :=
  match ts with
  | [] => Some b
  | t :: ts => b ← __internal_add_timer b t; add_all b ts
  end.

(** [tv] is [tv2] to [tv5] for [n] from 1 to 4. *)
Definition cascade (b : tvec_base) (n : nat) (index : Z) : option (tvec_base * Z) :=
  let tv_list := vec b (n, index) in
  b ← add_all (set_lists (<[(n, index) := []]> (buckets b)) (work_list b) (pending b) b) tv_list;
  Some (b, index).

Definition INDEX (b : tvec_base) (n : Z) : Z :=
  Z.land (Z.shiftr (timer_jiffies b) (TVR_BITS + n * TVN_BITS)) TVN_MASK.

(** The condition of the [if] with its four cascades. *)
Definition cascades (b : tvec_base) : option tvec_base :=
  if decide (Z.land (timer_jiffies b) TVR_MASK ≠ 0) then Some b
  else
    '(b, i) ← cascade b 1 (INDEX b 0);
    if decide (i ≠ 0) then Some b
    else
      '(b, i) ← cascade b 2 (INDEX b 1);
      if decide (i ≠ 0) then Some b
      else
        '(b, i) ← cascade b 3 (INDEX b 2);
        if decide (i ≠ 0) then Some b
        else '(b, _) ← cascade b 4 (INDEX b 3); Some b.

(** One round of the outer loop up to [list_replace_init]. *)
Definition start_tick (b : tvec_base) : option tvec_base :=
  let index := Z.land (timer_jiffies b) TVR_MASK in
  b ← cascades b;
  let b := set_jiffies (u64 (timer_jiffies b + 1)) b in
  Some (set_lists (<[(0%nat, index) := []]> (buckets b)) (vec b (0%nat, index)) (pending b) b).

(** What the function of a timer does. *)
Context (handler : nat → list timer_op).

(** The inner loop; the timers whose function was called, in order. *)
Fixpoint run_work (fuel : nat) (jiffies : Z) (b : tvec_base) : option (tvec_base * list nat) :=
  match work_list b with
  | [] => Some (b, [])
  | t :: _ =>
      match fuel with
      | O => None
      | S fuel =>
          b ← detach_expired_timer (set_running (Some t) b) t;
          b ← exec_ops jiffies b (handler t);
          '(b, calls) ← run_work fuel jiffies b;
          Some (b, t :: calls)
      end
  end.

(** The calls made, each with the tick it was made for. *)
Fixpoint run_loop (fuel : nat) (jiffies : Z) (b : tvec_base)
    : option (tvec_base * list (Z * nat)) :=
  if decide (time_after_eq jiffies (timer_jiffies b)) then
    match fuel with
    | O => None
    | S fuel =>
        let tick := timer_jiffies b in
        b ← start_tick b;
        '(b, calls) ← run_work (length (work_list b)) jiffies b;
        '(b, more) ← run_loop fuel jiffies b;
        Some (b, (pair tick <$> calls) ++ more)
    end
  else Some (b, []).

Definition __run_timers (jiffies : Z) (b : tvec_base) : option (tvec_base * list (Z * nat)) :=
  '(b, calls) ← run_loop (Z.to_nat (s64 (jiffies - timer_jiffies b) + 1)) jiffies b;
  Some (set_running None b, calls).
End slack.

(** * Where timers are

    The times below are unbounded; the wheel's [timer_jiffies] is [now] modulo
    2^64. *)

Inductive place := InVec (k : nat * Z) | InWork.

Global Instance place_eq_dec : EqDecision place.
Proof. solve_decision. Defined.

(** Bits of a bucket time below the index at level [n]. *)
Definition sh (n : nat) : Z := match n with O => 0 | S m => TVR_BITS + Z.of_nat m * TVN_BITS end.

Ltac wheel_pow :=
  unfold TVR_SIZE, MAX_TVAL in *; pow2;
  change (2 ^ 14) with 16384 in *; change (2 ^ 20) with 1048576 in *;
  change (2 ^ 26) with 67108864 in *;
  change (2 ^ sh 1) with 256 in *; change (2 ^ (sh 1 + 6)) with 16384 in *;
  change (2 ^ sh 2) with 16384 in *; change (2 ^ (sh 2 + 6)) with 1048576 in *;
  change (2 ^ sh 3) with 1048576 in *; change (2 ^ (sh 3 + 6)) with 67108864 in *;
  change (2 ^ sh 4) with 67108864 in *; change (2 ^ (sh 4 + 6)) with 4294967296 in *.

(** The tick at which a timer that is added with [e] at tick [now] runs: [e],
    or the next tick if [e] has passed. *)
Definition due_of (now e : Z) : Z :=
  let idx := u64 (e - now) in if decide (idx < 2 ^ 63) then now + idx else now.

(** A timer due at [x] may be in bucket [i] of level [n]: in [tv1] at its own
    slot; above, in a bucket that is cascaded at a tick [B] before [x] but not
    before [now] (after [now], for the levels up to [d]); up to [tv4] the bucket
    is that of [x], in [tv5] it may be an earlier one. *)
Definition loc_ok (d : nat) (now : Z) (k : nat * Z) (x : Z) : Prop :=
  match k.1 with
  | O => now ≤ x < now + 256 ∧ k.2 = x mod 256
  | S _ => (k.1 ≤ 4)%nat ∧ ∃ B, (if decide (k.1 ≤ d)%nat then now < B else now ≤ B) ∧ B ≤ x ∧
      B < now + 2 ^ (sh k.1 + 6) ∧ (2 ^ sh k.1 | B) ∧ k.2 = (B / 2 ^ sh k.1) mod 64 ∧
      ((k.1 < 4)%nat → x < B + 2 ^ sh k.1)
  end.

(** The deadline of a timer that is due at [x]: [x] itself, or a time in the
    past if it is due now. *)
Definition deadline_ok (now : Z) (k : nat * Z) (x e : Z) : Prop :=
  x < now + 2 ^ 63 ∧ e = u64 x ∨ k.1 = 0%nat ∧ x = now ∧ s64 (e - now) < 0.

(** The bits of a time do not depend on its reduction modulo 2^64. *)
Lemma bits_u64 x s w :
  0 ≤ s → 0 ≤ w → s + w ≤ 64 →
  Z.land (Z.shiftr (u64 x) s) (Z.ones w) = (x / 2 ^ s) mod 2 ^ w.
Proof.
  intros Hs Hw Hsw. rewrite Z.land_ones, Z.shiftr_div_pow2 by lia. unfold wrap.
  assert (2 ^ 64 = 2 ^ s * 2 ^ (64 - s)) as E by (rewrite <- Z.pow_add_r by lia; f_equal; lia).
  assert (0 < 2 ^ s) by (apply Z.pow_pos_nonneg; lia).
  assert (0 < 2 ^ (64 - s)) by (apply Z.pow_pos_nonneg; lia).
  rewrite E, Z.rem_mul_r by lia.
  rewrite (Z.mul_comm (2 ^ s) (_ mod _)), Z.div_add by lia.
  rewrite (Z.div_small (x mod 2 ^ s)) by (apply Z.mod_pos_bound; lia).
  rewrite Z.add_0_l. symmetry. apply Znumtheory.Zmod_div_mod.
  - apply Z.pow_pos_nonneg; lia.
  - apply Z.pow_pos_nonneg; lia.
  - exists (2 ^ (64 - s - w)). rewrite <- Z.pow_add_r by lia. f_equal. lia.
Qed.

Lemma tvr_bits x : Z.land (u64 x) TVR_MASK = x mod 256.
Proof.
  pose proof (bits_u64 x 0 8 ltac:(lia) ltac:(lia) ltac:(lia)) as E.
  rewrite Z.shiftr_0_r, Z.pow_0_r, Z.div_1_r in E. exact E.
Qed.

Lemma tvn_bits x s : 0 ≤ s ≤ 58 → Z.land (Z.shiftr (u64 x) s) TVN_MASK = (x / 2 ^ s) mod 64.
Proof. intros. apply (bits_u64 x s 6); lia. Qed.

Lemma due_of_range now e : now ≤ due_of now e < now + 2 ^ 63.
Proof.
  unfold due_of. pose proof (u64_range (e - now)) as [H _]. case_decide; lia.
Qed.

Lemma due_of_exact now x : now ≤ x < now + 2 ^ 63 → due_of now (u64 x) = x.
Proof.
  intros H. unfold due_of. assert (u64 (u64 x - now) = x - now) as ->.
  { unfold wrap. rewrite Zminus_mod_idemp_l. apply Z.mod_small. lia. }
  rewrite decide_True by lia. lia.
Qed.

(** The bucket of a time [y] in the window of level [n]. *)
Lemma floor_loc (n : nat) now y x :
  (1 ≤ n ≤ 4)%nat → now + 2 ^ sh n ≤ y < now + 2 ^ (sh n + 6) → y ≤ x → (n = 4%nat ∨ y = x) →
  loc_ok 4 now (n, (y / 2 ^ sh n) mod 64) x.
Proof.
  intros Hn Hy Hx Hyx. unfold loc_ok. cbn [fst snd]. destruct n as [|m]; [lia|].
  split; [lia|]. set (p := 2 ^ sh (S m)) in *.
  assert (0 < p) by (apply Z.pow_pos_nonneg; unfold sh, TVR_BITS, TVN_BITS; lia).
  pose proof (Z.mul_div_le y p). pose proof (Z.mod_pos_bound y p). pose proof (Z.div_mod y p).
  exists (y / p * p). rewrite decide_True by lia. split_and!; try lia.
  - by exists (y / p).
  - by rewrite Z.div_mul by lia.
Qed.

(** [__internal_add_timer] puts a timer where it belongs. *)
Lemma slot_for_ok now e :
  in_u64 e →
  let k := slot_for (u64 now) e in
  let x := due_of now e in
  loc_ok 4 now k x ∧ deadline_ok now k x e.
Proof.
  intros He k x. unfold k, slot_for.
  assert (u64 (e - u64 now) = u64 (e - now)) as -> by (unfold wrap; apply Zminus_mod_idemp_r).
  pose proof (u64_range (e - now)) as [Hi0 Hi1]. unfold x, due_of. set (idx := u64 (e - now)) in *.
  assert (e = u64 (now + idx)) as Ee.
  { unfold idx, wrap. rewrite Zplus_mod_idemp_r.
    replace (now + (e - now)) with e by lia. symmetry. by apply Z.mod_small. }
  assert (∀ n, (1 ≤ n ≤ 4)%nat → 2 ^ sh n ≤ idx < 2 ^ (sh n + 6) →
    loc_ok 4 now (n, Z.land (Z.shiftr e (sh n)) TVN_MASK) (now + idx)) as Hlev.
  { intros n Hn Hidx. rewrite Ee, tvn_bits.
    - apply floor_loc; lia || by right.
    - destruct n as [|m]; unfold sh, TVR_BITS, TVN_BITS; lia. }
  assert (∀ k, idx < 2 ^ 63 → deadline_ok now k (now + idx) e) as Hdl by (intros k' ?; left; split; [lia|done]).
  wheel_pow.
  destruct (decide (idx < 256)) as [H0|H0].
  { rewrite decide_True by lia. split; [|apply Hdl; lia]. cbn. rewrite Ee, tvr_bits. split; [lia|done]. }
  destruct (decide (idx < 16384)) as [H1|H1].
  { rewrite decide_True by lia. split; [apply (Hlev 1%nat); wheel_pow; lia|apply Hdl; lia]. }
  destruct (decide (idx < 1048576)) as [H2|H2].
  { rewrite decide_True by lia. split; [apply (Hlev 2%nat); wheel_pow; lia|apply Hdl; lia]. }
  destruct (decide (idx < 67108864)) as [H3|H3].
  { rewrite decide_True by lia. split; [apply (Hlev 3%nat); wheel_pow; lia|apply Hdl; lia]. }
  assert (s64 idx < 0 ↔ ¬ idx < 9223372036854775808) as Hs.
  { unfold swrap. pow2. split; intros Hx.
    - intros Hlt. rewrite Z.mod_small in Hx by lia. lia.
    - replace (idx + 9223372036854775808)
        with (idx - 9223372036854775808 + 1 * 18446744073709551616) by lia.
      rewrite Z_mod_plus_full, Z.mod_small by lia. lia. }
  destruct (decide (s64 idx < 0)) as [H4|H4].
  { rewrite decide_False by (by apply Hs).
    split; [|right; split_and!; [done|done|by rewrite <- swrap_wrap by lia]]. cbn. rewrite tvr_bits. split; [lia|done]. }
  assert (idx < 9223372036854775808) as H63 by (apply Z.nle_gt; intros ?; apply H4, Hs; lia).
  rewrite (decide_True (P := idx < 9223372036854775808)) by done.
  destruct (decide (idx > 4294967295)) as [H5|H5]; (split; [|by apply Hdl]).
  - replace (u64 (4294967295 + u64 now)) with (u64 (now + 4294967295)).
    + rewrite tvn_bits by lia. apply (floor_loc 4 now (now + 4294967295)); wheel_pow; lia || by left.
    + unfold wrap. rewrite Zplus_mod_idemp_r. f_equal. lia.
  - apply (Hlev 4%nat); wheel_pow; lia.
Qed.

(** * The wheel holds a set of timers with their due ticks *)

(** [G] gives every timer on the wheel its place and its due tick.  [d] is the
    number of levels already cascaded at tick [now]. *)
Record wheel_rep (b : tvec_base) (G : gmap nat (place * Z)) (now : Z) (d : nat) : Prop := {
  w_vec k t : t ∈ vec b k ↔ ∃ x, G !! t = Some (InVec k, x);
  w_work t : t ∈ work_list b ↔ ∃ x, G !! t = Some (InWork, x);
  w_nodup k : NoDup (vec b k);
  w_nodup_work : NoDup (work_list b);
  w_loc t k x : G !! t = Some (InVec k, x) →
    loc_ok d now k x ∧
    ∃ tm, timers b !! t = Some tm ∧ deadline_ok now k x (expires tm);
  w_late t x : G !! t = Some (InWork, x) → x = now - 1;
  w_timers t : t ∈ dom G → t ∈ dom (timers b);
  w_jiffies : timer_jiffies b = u64 now;
}.

Lemma vec_insert b k l w p k' :
  vec (set_lists (<[k := l]> (buckets b)) w p b) k' = if decide (k' = k) then l else vec b k'.
Proof.
  unfold vec. cbn. case_decide; subst; [by rewrite lookup_insert_eq|by rewrite lookup_insert_ne].
Qed.

Lemma vec_filter b w p t k :
  vec (set_lists (filter (λ x, x ≠ t) <$> buckets b) w p b) k = filter (λ x, x ≠ t) (vec b k).
Proof. unfold vec. cbn. rewrite lookup_fmap. by destruct (buckets b !! k). Qed.

(** The fields the lists do not touch. *)
Definition same_fields (b b' : tvec_base) : Prop :=
  timers b' = timers b ∧ timer_jiffies b' = timer_jiffies b ∧
  next_timer b' = next_timer b ∧ active_timers b' = active_timers b ∧
  running_timer b' = running_timer b.

(** Changing the other fields. *)
Lemma rep_fields b b' G now d :
  wheel_rep b G now d → buckets b' = buckets b → work_list b' = work_list b →
  timer_jiffies b' = timer_jiffies b →
  (∀ t, t ∈ dom G → timers b' !! t = timers b !! t) → wheel_rep b' G now d.
Proof.
  intros W Eb Ew Ej Et.
  assert (∀ k, vec b' k = vec b k) as Ev by (intros k; unfold vec; by rewrite Eb).
  split.
  - intros k t. rewrite Ev. apply (w_vec _ _ _ _ W).
  - intros t. rewrite Ew. apply (w_work _ _ _ _ W).
  - intros k. rewrite Ev. apply (w_nodup _ _ _ _ W).
  - rewrite Ew. apply (w_nodup_work _ _ _ _ W).
  - intros t k x E. rewrite Et by by eapply elem_of_dom_2. by apply (w_loc _ _ _ _ W).
  - apply (w_late _ _ _ _ W).
  - intros t Ht. pose proof (w_timers _ _ _ _ W t Ht) as H. apply elem_of_dom in H as [tm H].
    apply elem_of_dom. exists tm. by rewrite Et.
  - rewrite Ej. apply (w_jiffies _ _ _ _ W).
Qed.

(** A timer that is on no list goes to the end of a bucket. *)
Lemma rep_add b G now d k t x :
  wheel_rep b G now d → G !! t = None → t ∈ dom (timers b) → loc_ok d now k x →
  (∃ tm, timers b !! t = Some tm ∧ deadline_ok now k x (expires tm)) →
  wheel_rep (add_tail b k t) (<[t := (InVec k, x)]> G) now d.
Proof.
  intros W Ht Htm Hl He. unfold add_tail.
  assert (∀ k, t ∉ vec b k) as Hv.
  { intros k' H%(w_vec _ _ _ _ W). naive_solver. }
  assert (t ∉ work_list b) as Hw.
  { intros H%(w_work _ _ _ _ W). naive_solver. }
  split.
  - intros k' t'. rewrite vec_insert. destruct (decide (t' = t)) as [->|Hne].
    + rewrite lookup_insert_eq. destruct (decide (k' = k)) as [->|Hk].
      * split; [by eexists|set_solver].
      * split; [intros H; by destruct (Hv k')|]. by intros (? & [= -> ?]).
    + rewrite lookup_insert_ne by done. rewrite <- (w_vec _ _ _ _ W).
      destruct (decide (k' = k)) as [->|]; [set_solver|done].
  - intros t'. cbn [work_list set_lists]. rewrite (w_work _ _ _ _ W).
    destruct (decide (t' = t)) as [->|Hne]; [|by rewrite lookup_insert_ne].
    rewrite lookup_insert_eq, Ht. split; intros [? [=]].
  - intros k'. rewrite vec_insert. destruct (decide (k' = k)) as [->|]; [|apply (w_nodup _ _ _ _ W)].
    apply NoDup_app. split_and!; [apply (w_nodup _ _ _ _ W)| |apply NoDup_singleton].
    intros y Hy ->%list_elem_of_singleton. by apply (Hv k).
  - apply (w_nodup_work _ _ _ _ W).
  - intros t' k' x' E. destruct (decide (t' = t)) as [->|Hne].
    + rewrite lookup_insert_eq in E. injection E as <- <-. done.
    + rewrite lookup_insert_ne in E by done. by apply (w_loc _ _ _ _ W).
  - intros t' x' E. destruct (decide (t' = t)) as [->|Hne].
    + by rewrite lookup_insert_eq in E.
    + rewrite lookup_insert_ne in E by done. by apply (w_late _ _ _ _ W t').
  - intros t'. rewrite dom_insert. intros [->%elem_of_singleton|H]%elem_of_union; [done|].
    by apply (w_timers _ _ _ _ W).
  - apply (w_jiffies _ _ _ _ W).
Qed.

(** A timer leaves its list. *)
Lemma rep_detach b G now d t c :
  wheel_rep b G now d → wheel_rep (detach_timer b t c) (base.delete t G) now d.
Proof.
  intros W. unfold detach_timer. split.
  - intros k t'. rewrite vec_filter, list_elem_of_filter, (w_vec _ _ _ _ W).
    destruct (decide (t' = t)) as [->|Hne].
    + rewrite lookup_delete_eq. split; [by intros [? _]|by intros [? [=]]].
    + rewrite lookup_delete_ne by done. naive_solver.
  - intros t'. cbn [work_list set_lists]. rewrite list_elem_of_filter, (w_work _ _ _ _ W).
    destruct (decide (t' = t)) as [->|Hne].
    + rewrite lookup_delete_eq. split; [by intros [? _]|by intros [? [=]]].
    + rewrite lookup_delete_ne by done. naive_solver.
  - intros k. rewrite vec_filter. apply NoDup_filter, (w_nodup _ _ _ _ W).
  - cbn. apply NoDup_filter, (w_nodup_work _ _ _ _ W).
  - intros t' k x [_ E]%lookup_delete_Some. by apply (w_loc _ _ _ _ W).
  - intros t' x [_ E]%lookup_delete_Some. by apply (w_late _ _ _ _ W t').
  - intros t' H. apply (w_timers _ _ _ _ W). set_solver.
  - apply (w_jiffies _ _ _ _ W).
Qed.

(** ** Cascades *)

Lemma loc_ok_weaken d now k x : loc_ok 4 now k x → loc_ok d now k x.
Proof.
  unfold loc_ok. destruct k as [[|m] i]; cbn [fst snd]; [done|].
  intros (Hm & B & HB & H). split; [done|]. exists B. rewrite decide_True in HB by done.
  split; [case_decide; lia|done].
Qed.

(** Every timer has a deadline that fits an unsigned long. *)
Definition timers_ok (b : tvec_base) : Prop :=
  ∀ t tm, timers b !! t = Some tm → in_u64 (expires tm).

Lemma internal_add_ok b G now d t tm :
  wheel_rep b G now d → timers_ok b → G !! t = None → timers b !! t = Some tm →
  ∃ k, __internal_add_timer b t = Some (add_tail b k t) ∧
    wheel_rep (add_tail b k t) (<[t := (InVec k, due_of now (expires tm))]> G) now d.
Proof.
  intros W Hok Ht Htm. unfold __internal_add_timer. rewrite Htm. cbn [mbind option_bind].
  rewrite (w_jiffies _ _ _ _ W). eexists. split; [done|].
  destruct (slot_for_ok now (expires tm) (Hok _ _ Htm)) as [Hl He].
  apply rep_add; try done.
  - by eapply elem_of_dom_2.
  - by apply loc_ok_weaken.
  - by exists tm.
Qed.

(** Two assignments agree on when timers are due. *)
Definition due (G : gmap nat (place * Z)) (t : nat) : option Z := snd <$> G !! t.

Lemma add_all_ok ts b G now d (xs : nat → Z) :
  wheel_rep b G now d → timers_ok b → NoDup ts →
  (∀ t, t ∈ ts → G !! t = None ∧ now ≤ xs t < now + 2 ^ 63 ∧
     ∃ tm, timers b !! t = Some tm ∧ expires tm = u64 (xs t)) →
  ∃ b' G', add_all b ts = Some b' ∧ wheel_rep b' G' now d ∧ same_fields b b' ∧
    work_list b' = work_list b ∧ pending b' = pending b ∪ list_to_set ts ∧
    (∀ t, t ∉ ts → G' !! t = G !! t) ∧
    (∀ t, t ∈ ts → ∃ k, G' !! t = Some (InVec k, xs t)).
Proof.
  revert b G. induction ts as [|t ts IH]; intros b G W Hok Hnd Hts.
  { exists b, G. split_and!; try done; [set_solver|]. intros t Ht. by apply elem_of_nil in Ht. }
  apply NoDup_cons in Hnd as [Ht Hnd].
  destruct (Hts t) as (Hn & Hx & tm & Htm & He); [by left|].
  destruct (internal_add_ok b G now d t tm W Hok Hn Htm) as (k & E & W1).
  rewrite He, due_of_exact in W1 by done.
  destruct (IH (add_tail b k t) (<[t := (InVec k, xs t)]> G)) as (b' & G' & E' & W' & S' & Ew & Ep & H1 & H2);
    [done|done|done| |].
  { intros t' Ht'. destruct (Hts t') as (Hn' & Hx' & Hm'); [by right|].
    rewrite lookup_insert_ne by (intros ->; done). done. }
  exists b', G'. cbn [add_all]. rewrite E. cbn [mbind option_bind].
  split_and!; [done|done|done|done| | |].
  - rewrite Ep. cbn. set_solver.
  - intros t' Ht'. rewrite H1 by set_solver. rewrite lookup_insert_ne by set_solver. done.
  - intros t' [->|Ht']%elem_of_cons; [|by apply H2].
    exists k. rewrite H1 by done. by rewrite lookup_insert_eq.
Qed.

(** Emptying the bucket of level [d + 1] whose time has come. *)
Lemma rep_take_bucket b G now d i :
  wheel_rep b G now d → (d < 4)%nat → (2 ^ sh (S d) | now) → i = (now / 2 ^ sh (S d)) mod 64 →
  wheel_rep (set_lists (<[(S d, i) := []]> (buckets b)) (work_list b) (pending b) b)
    (filter (λ kv : nat * (place * Z), kv.2.1 ≠ InVec (S d, i)) G) now (S d).
Proof.
  intros W Hd Hdiv Hi.
  assert (∀ t p x, filter (λ kv : nat * (place * Z), kv.2.1 ≠ InVec (S d, i)) G !! t = Some (p, x) ↔
    G !! t = Some (p, x) ∧ p ≠ InVec (S d, i)) as HF.
  { intros t p x. by rewrite map_lookup_filter_Some. }
  split.
  - intros k t. rewrite vec_insert. setoid_rewrite HF.
    destruct (decide (k = (S d, i))) as [->|Hk].
    + split; [intros H; by apply elem_of_nil in H|]. by intros (? & _ & ?).
    + rewrite (w_vec _ _ _ _ W). split; [|naive_solver]. intros [x Hx]. exists x.
      split; [done|]. congruence.
  - intros t. setoid_rewrite HF. cbn [work_list set_lists].
    rewrite (w_work _ _ _ _ W). split; [|naive_solver]. intros [x Hx]. by exists x.
  - intros k. rewrite vec_insert. case_decide; [constructor|apply (w_nodup _ _ _ _ W)].
  - apply (w_nodup_work _ _ _ _ W).
  - intros t k x [E Hk]%HF. destruct (w_loc _ _ _ _ W t k x E) as [Hl He]. split; [|done].
    unfold loc_ok in *. destruct k as [[|n] j]; cbn [fst snd] in *; [done|].
    destruct Hl as (Hn & B & HB & H1 & H2 & H3 & H4 & H5). split; [done|]. exists B.
    split_and!; try done.
    destruct (decide (S n ≤ d)%nat) as [Hnd|Hnd]; [rewrite decide_True by lia; done|].
    destruct (decide (S n ≤ S d)%nat) as [Hns|Hns]; [|done].
    assert (n = d) as -> by lia. destruct (decide (B = now)) as [->|]; [|lia].
    destruct Hk. by rewrite H4, Hi.
  - intros t x [E _]%HF. by apply (w_late _ _ _ _ W t).
  - intros t [[p x] [E _]%HF]%elem_of_dom. apply (w_timers _ _ _ _ W). by eapply elem_of_dom_2.
  - apply (w_jiffies _ _ _ _ W).
Qed.

(** One cascade: the same timers are due at the same ticks. *)
Lemma cascade_ok b G now d :
  wheel_rep b G now d → timers_ok b → (d < 4)%nat → (2 ^ sh (S d) | now) →
  pending b = dom G →
  ∃ b' G', cascade b (S d) (INDEX b (Z.of_nat d)) = Some (b', (now / 2 ^ sh (S d)) mod 64) ∧
    wheel_rep b' G' now (S d) ∧ same_fields b b' ∧ work_list b' = work_list b ∧
    pending b' = dom G' ∧ (∀ t, due G' t = due G t).
Proof.
  intros W Hok Hd Hdiv Hp. unfold cascade.
  assert (INDEX b (Z.of_nat d) = (now / 2 ^ sh (S d)) mod 64) as ->.
  { unfold INDEX. rewrite (w_jiffies _ _ _ _ W). apply (tvn_bits now (sh (S d))). unfold sh, TVR_BITS, TVN_BITS. lia. }
  set (i := _ mod 64). pose proof (rep_take_bucket b G now d i W Hd Hdiv eq_refl) as W0.
  set (b0 := set_lists _ _ _ _) in *. set (G0 := filter _ G) in *.
  assert (∀ t, t ∈ vec b (S d, i) → ∃ x, G !! t = Some (InVec (S d, i), x)) as Hv
    by (intros t Ht; by apply (w_vec _ _ _ _ W)).
  destruct (add_all_ok (vec b (S d, i)) b0 G0 now (S d) (λ t, default 0 (due G t)))
    as (b' & G' & E & W' & S' & Ew & Ep & H1 & H2); [done|done|apply (w_nodup _ _ _ _ W)| |].
  { intros t Ht. destruct (Hv t Ht) as [x Hx]. unfold due. rewrite Hx. cbn [fmap option_fmap option_map snd default].
    split.
    - unfold G0. apply map_lookup_filter_None. right. rewrite Hx. intros ? [= <-]. cbn. naive_solver.
    - destruct (w_loc _ _ _ _ W t _ x Hx) as [Hl He]. destruct He as (tm & Htm & [[Hlt He]|[[=] _]]).
      destruct Hl as (_ & B & HB & HBx & _). split; [|by exists tm]. case_decide; cbn in *; lia. }
  exists b', G'. rewrite E. cbn [mbind option_bind].
  assert (∀ t, due G' t = due G t) as Hdue.
  { intros t. destruct (decide (t ∈ vec b (S d, i))) as [Ht|Ht].
    - destruct (H2 t Ht) as [k Hk]. destruct (Hv t Ht) as [x Hx]. unfold due in *. by rewrite Hk, Hx.
    - unfold due. rewrite H1 by done. unfold G0.
      destruct (G !! t) as [[p x]|] eqn:Eg.
      + rewrite (map_lookup_filter_Some_2 _ G t (p, x)); [done|done|]. cbn.
        intros ->. apply Ht, (w_vec _ _ _ _ W). by exists x.
      + rewrite map_lookup_filter_None_2; [done|by left]. }
  split_and!; try done.
  apply set_eq. intros t. rewrite Ep. cbn [pending b0 set_lists]. rewrite Hp.
  rewrite elem_of_union, elem_of_list_to_set, !elem_of_dom.
  specialize (Hdue t). unfold due in Hdue. split.
  - intros [Ht|Ht].
    + destruct Ht as [y Hy]. rewrite Hy in Hdue. destruct (G' !! t); [done|discriminate].
    + destruct (H2 t Ht) as [k ->]. done.
  - intros [y Hy]. left. rewrite Hy in Hdue. destruct (G !! t); [done|]. discriminate.
Qed.

Lemma div_next s now :
  0 ≤ s → (2 ^ s | now) → (now / 2 ^ s) mod 64 = 0 ↔ (2 ^ (s + 6) | now).
Proof.
  intros Hs [q ->]. assert (0 < 2 ^ s) by (apply Z.pow_pos_nonneg; lia).
  rewrite Z.div_mul by lia. rewrite Z.pow_add_r by lia. change (2 ^ 6) with 64.
  rewrite Z.mod_divide by lia. split.
  - intros [r ->]. exists r. lia.
  - intros [r E]. exists r. apply (Z.mul_cancel_r _ _ (2 ^ s)); lia.
Qed.

Lemma sh_step n : (1 ≤ n)%nat → sh (S n) = sh n + 6.
Proof. intros. destruct n; [lia|]. unfold sh, TVR_BITS, TVN_BITS. lia. Qed.

Lemma sh_divide n m : (1 ≤ n ≤ m)%nat → (2 ^ sh n | 2 ^ sh m).
Proof.
  intros [Hn Hm]. induction Hm as [|m Hm IH]; [done|]. rewrite sh_step by lia.
  destruct m as [|m]; [lia|]. rewrite Z.pow_add_r by (unfold sh, TVR_BITS, TVN_BITS; lia).
  by apply Z.divide_mul_l.
Qed.

(** When [now] is not a bucket time of level [d + 1] nothing is to be cascaded
    from there on. *)
Lemma rep_skip b G now d :
  wheel_rep b G now d → ¬ (2 ^ sh (S d) | now) → wheel_rep b G now 4.
Proof.
  intros W Hn. split; try apply W. intros t k x E.
  destruct (w_loc _ _ _ _ W t k x E) as [Hl He]. split; [|done].
  unfold loc_ok in *. destruct k as [[|n] j]; cbn [fst snd] in *; [done|].
  destruct Hl as (Hn4 & B & HB & H1 & H2 & H3 & H4 & H5). split; [done|]. exists B.
  rewrite decide_True by done. split_and!; try done.
  destruct (decide (S n ≤ d)%nat) as [|Hd]; [done|].
  destruct (decide (B = now)) as [->|]; [|lia]. destruct Hn.
  etrans; [apply (sh_divide (S d) (S n)); lia|done].
Qed.

(** What the cascades and the start of a tick leave as it was. *)
Definition same_dues (b b' : tvec_base) (G G' : gmap nat (place * Z)) : Prop :=
  timers b' = timers b ∧ next_timer b' = next_timer b ∧ active_timers b' = active_timers b ∧
  running_timer b' = running_timer b ∧ pending b' = dom G' ∧ ∀ t, due G' t = due G t.

(** The relation between the states before and after cascades. *)
Definition cascaded (b b' : tvec_base) (G G' : gmap nat (place * Z)) : Prop :=
  same_dues b b' G G' ∧ work_list b' = work_list b ∧ timer_jiffies b' = timer_jiffies b.

Lemma cascaded_trans b b1 b2 G G1 G2 :
  cascaded b b1 G G1 → cascaded b1 b2 G1 G2 → cascaded b b2 G G2.
Proof.
  intros ((? & ? & ? & ? & ? & Hd1) & ? & ?) ((? & ? & ? & ? & ? & Hd2) & ? & ?).
  split_and!; try congruence. split_and!; congruence.
Qed.

(** One level, and the levels after it when its index is zero. *)
Lemma cascade_then b G now d (rest : tvec_base → option tvec_base) :
  wheel_rep b G now d → timers_ok b → pending b = dom G → (d < 4)%nat → (2 ^ sh (S d) | now) →
  (∀ b1 G1, wheel_rep b1 G1 now (S d) → timers_ok b1 → pending b1 = dom G1 →
     (2 ^ sh (S (S d)) | now) →
     ∃ b' G', rest b1 = Some b' ∧ wheel_rep b' G' now 4 ∧ cascaded b1 b' G1 G') →
  ∃ b' G', ('(b, i) ← cascade b (S d) (INDEX b (Z.of_nat d));
            if decide (i ≠ 0) then Some b else rest b) = Some b' ∧
    wheel_rep b' G' now 4 ∧ cascaded b b' G G'.
Proof.
  intros W Hok Hp Hd D Hrest.
  destruct (cascade_ok b G now d W Hok Hd D Hp) as (b1 & G1 & E1 & W1 & (St & Sj & Sn & Sa & Sr) & L1 & P1 & Q1).
  rewrite E1. cbn [mbind option_bind].
  assert (cascaded b b1 G G1) as C1 by by split_and!.
  assert (0 ≤ sh (S d)) by (unfold sh, TVR_BITS, TVN_BITS; lia).
  pose proof (div_next (sh (S d)) now ltac:(done) D) as Hnext. rewrite <- sh_step in Hnext by lia.
  destruct (decide ((now / 2 ^ sh (S d)) mod 64 ≠ 0)) as [H1|H1].
  - exists b1, G1. split_and!; [done| |done]. apply (rep_skip b1 G1 now (S d) W1).
    intros Hx. by apply H1, Hnext.
  - destruct (Hrest b1 G1) as (b' & G' & E & W' & C'); [done| |done| |].
    + intros t tm. rewrite St. apply Hok.
    + apply Hnext. by destruct (decide ((now / 2 ^ sh (S d)) mod 64 = 0)).
    + exists b', G'. split_and!; [done|done|]. by eapply cascaded_trans.
Qed.

Lemma cascades_ok b G now :
  wheel_rep b G now 0 → timers_ok b → pending b = dom G →
  ∃ b' G', cascades b = Some b' ∧ wheel_rep b' G' now 4 ∧ cascaded b b' G G'.
Proof.
  intros W Hok Hp. unfold cascades. rewrite (w_jiffies _ _ _ _ W), tvr_bits.
  destruct (decide (now mod 256 ≠ 0)) as [H0|H0].
  { exists b, G. split_and!; try done.
    apply (rep_skip b G now 0 W). intros Hx. apply H0. by apply Z.mod_divide. }
  assert (2 ^ sh 1 | now) as D1.
  { change (2 ^ sh 1) with 256. apply Z.mod_divide; [lia|]. by destruct (decide (now mod 256 = 0)). }
  apply (cascade_then b G now 0); try done; [lia|]. intros b1 G1 W1 Hok1 Hp1 D2.
  apply (cascade_then b1 G1 now 1); try done; [lia|]. intros b2 G2 W2 Hok2 Hp2 D3.
  apply (cascade_then b2 G2 now 2); try done; [lia|]. intros b3 G3 W3 Hok3 Hp3 D4.
  destruct (cascade_ok b3 G3 now 3 W3 Hok3 ltac:(lia) D4 Hp3)
    as (b4 & G4 & E4 & W4 & (? & ? & ? & ? & ?) & L4 & P4 & Q4).
  change (Z.of_nat 3) with 3 in E4. rewrite E4. cbn [mbind option_bind].
  exists b4, G4. by split_and!.
Qed.

(** ** The start of a tick *)

(** The timers due now go to the work list, the others stay for later. *)
Lemma start_tick_ok b G now :
  wheel_rep b G now 0 → timers_ok b → pending b = dom G → work_list b = [] →
  ∃ b' G', start_tick b = Some b' ∧ wheel_rep b' G' (now + 1) 0 ∧ same_dues b b' G G' ∧
    ∀ t, t ∈ work_list b' ↔ due G t = Some now.
Proof.
  intros W Hok Hp Hw. unfold start_tick.
  destruct (cascades_ok b G now W Hok Hp) as (b1 & G1 & E1 & W1 & (St & Sn & Sa & Sr & Sp & Sd) & Sw & Sj).
  rewrite E1. cbn [mbind option_bind]. rewrite (w_jiffies _ _ _ _ W), tvr_bits.
  set (i := now mod 256). set (b2 := set_lists _ _ _ _).
  set (mv := λ px : place * Z, if decide (px.1 = InVec (0%nat, i)) then (InWork, px.2) else px).
  exists b2, (mv <$> G1). split; [done|].
  assert (∀ t, t ∉ work_list b1) as Hnw by (intros t; rewrite Sw, Hw; apply not_elem_of_nil).
  assert (∀ t p x, (mv <$> G1) !! t = Some (p, x) ↔
    (G1 !! t = Some (p, x) ∧ p ≠ InVec (0%nat, i) ∨
     p = InWork ∧ G1 !! t = Some (InVec (0%nat, i), x))) as HM.
  { intros t p x. rewrite lookup_fmap. destruct (G1 !! t) as [[q y]|] eqn:Eg; cbn; [|naive_solver].
    assert (q ≠ InWork) as Hq.
    { intros ->. apply (Hnw t), (w_work _ _ _ _ W1). by exists y. }
    unfold mv. cbn. case_decide; naive_solver. }
  assert (∀ k, vec b2 k = if decide (k = (0%nat, i)) then [] else vec b1 k) as Hv2.
  { intros k. unfold b2. rewrite vec_insert. by case_decide. }
  assert (∀ t x, G1 !! t = Some (InVec (0%nat, i), x) → x = now) as Hnow.
  { intros t x Hx. destruct (w_loc _ _ _ _ W1 t _ x Hx) as [[H1 H2] _]. cbn in H2.
    unfold i in H2. dlia. }
  assert (∀ t, due (mv <$> G1) t = due G1 t) as Hdue.
  { intros t. unfold due. rewrite lookup_fmap. destruct (G1 !! t) as [[p x]|]; [|done]. cbn.
    unfold mv. by case_decide. }
  split; [split|split].
  - intros k t. rewrite Hv2. setoid_rewrite HM. destruct (decide (k = (0%nat, i))) as [->|Hk].
    + split; [intros H; by apply elem_of_nil in H|]. intros (x & [[_ []]|[[=] _]]); done.
    + rewrite (w_vec _ _ _ _ W1). split; [|naive_solver].
      intros [x Hx]. exists x. left. split; [done|congruence].
  - intros t. setoid_rewrite HM. cbn [work_list b2 set_lists]. change (vec _ (0%nat, i)) with (vec b1 (0%nat, i)).
    rewrite (w_vec _ _ _ _ W1). split; [naive_solver|]. intros (x & [[Hx _]|[_ Hx]]); [|by exists x].
    destruct (Hnw t). apply (w_work _ _ _ _ W1). by exists x.
  - intros k. rewrite Hv2. case_decide; [constructor|apply (w_nodup _ _ _ _ W1)].
  - apply (w_nodup _ _ _ _ W1 (0%nat, i)).
  - intros t k x [[Hx Hk]|[? _]]%HM; [|done]. destruct (w_loc _ _ _ _ W1 t k x Hx) as [Hl He].
    split; [|destruct He as (tm & Htm & [[H1 H2]|(H1 & H2 & _)]); (exists tm; split; [done|left]); [split; [lia|done]|];
      destruct k as [n j]; cbn in H1; subst n; subst x; destruct Hl as [_ Hl]; cbn in Hl; subst j; by destruct Hk].
    unfold loc_ok in *. destruct k as [[|n] j]; cbn [fst snd] in *.
    + destruct Hl as [H1 ->]. assert (x ≠ now) by (intros ->; by apply Hk).
      split; [|done]. lia.
    + destruct Hl as (Hn & B & HB & H1 & H2 & H3 & H4 & H5). split; [done|]. exists B.
      rewrite decide_True in HB by done. split_and!; [case_decide; lia|done|lia|done|done|done].
  - intros t x [[Hx _]|[_ Hx]]%HM; [|apply Hnow in Hx; lia].
    destruct (Hnw t). apply (w_work _ _ _ _ W1). by exists x.
  - intros t. rewrite dom_fmap. apply (w_timers _ _ _ _ W1).
  - cbn. rewrite (w_jiffies _ _ _ _ W1). unfold wrap. by rewrite Zplus_mod_idemp_l.
  - split_and!; try done.
    + cbn. rewrite Sp. by rewrite dom_fmap_L.
    + intros t. by rewrite Hdue.
  - intros t. cbn [work_list b2 set_lists]. change (vec _ (0%nat, i)) with (vec b1 (0%nat, i)).
    rewrite (w_vec _ _ _ _ W1), <- Sd. unfold due. split.
    + intros [x Hx]. rewrite Hx. cbn. f_equal. by eapply Hnow.
    + destruct (G1 !! t) as [[p x]|] eqn:Eg; [|done]. cbn. intros [= ->]. exists now.
      destruct p as [k|]; [|by destruct (Hnw t); apply (w_work _ _ _ _ W1); exists now].
      destruct (w_loc _ _ _ _ W1 t k now Eg) as [Hl _]. unfold loc_ok in Hl.
      destruct k as [[|n] j]; cbn in Hl; [destruct Hl as [_ ->]; done|].
      destruct Hl as (Hn & B & HB & H1 & _). rewrite decide_True in HB by done. lia.
Qed.
