(* ===== verification/TimerRun.v ===== *)
(** The contract of the timer wheel: a machine that keeps a map from pending
    timers to due ticks and walks through the ticks one by one ([a_op],
    [fires], [ticks]), and the theorems that the calls and [__run_timers] of
    [TimerWheel] refine it; also the bounds of [apply_slack]. *)

From S2P Require Import Prelude TimerWheel.

Local Open Scope Z_scope.

(** * The reference: timers with due ticks *)

(** Instead of a wheel, a map from the pending timers to the ticks they are due
    at. *)
Record astate := mkA {
  a_now : Z;
  a_due : gmap nat Z;
  a_timers : gmap nat timer_list;
  a_running : option nat;
}.

Definition a_sched (a : astate) (t : nat) (tm : timer_list) (e : Z) : astate :=
  mkA (a_now a) (<[t := due_of (a_now a) e]> (a_due a))
    (<[t := mkTimer e (slack tm) (deferrable tm)]> (a_timers a)) (a_running a).

Definition a_cancel (a : astate) (t : nat) : astate :=
  mkA (a_now a) (base.delete t (a_due a)) (a_timers a) (a_running a).

(** 1 when the timer was pending. *)
Definition a_was (a : astate) (t : nat) : Z := if decide (t ∈ dom (a_due a)) then 1 else 0.

Definition a_op (sov : Z → Z) (jiffies : Z) (a : astate) (o : timer_op) : option (astate * Z) :=
  match o with
  | ModPending t e =>
      tm ← a_timers a !! t;
      Some (if decide (t ∈ dom (a_due a)) then (a_sched a t tm e, 1) else (a, 0))
  | Mod t e =>
      tm ← a_timers a !! t;
      let e := apply_slack sov jiffies tm e in
      Some (if decide (t ∈ dom (a_due a) ∧ expires tm = e) then (a, 1)
            else (a_sched a t tm e, a_was a t))
  | ModPinned t e =>
      tm ← a_timers a !! t;
      Some (if decide (expires tm = e ∧ t ∈ dom (a_due a)) then (a, 1)
            else (a_sched a t tm e, a_was a t))
  | Add t =>
      tm ← a_timers a !! t;
      if decide (t ∈ dom (a_due a)) then None
      else Some (a_sched a t tm (apply_slack sov jiffies tm (expires tm)), 0)
  | AddOn t =>
      tm ← a_timers a !! t;
      if decide (t ∈ dom (a_due a)) then None
      else Some (a_sched a t tm (expires tm), 0)
  | Del t => Some (a_cancel a t, a_was a t)
  | TryDel t =>
      Some (if decide (a_running a = Some t) then (a, -1) else (a_cancel a t, a_was a t))
  end.

Fixpoint a_ops (sov : Z → Z) (jiffies : Z) (a : astate) (os : list timer_op) : option astate :=
  match os with
  | [] => Some a
  | o :: os => '(a, _) ← a_op sov jiffies a o; a_ops sov jiffies a os
  end.

(** The pending timers that keep the tick going. *)
Definition counts (tms : gmap nat timer_list) (t : nat) : Prop :=
  deferrable <$> tms !! t = Some false.

Global Instance counts_dec tms t : Decision (counts tms t).
Proof. unfold counts. apply _. Defined.

Definition active_count (tms : gmap nat timer_list) (P : gset nat) : Z :=
  Z.of_nat (size (filter (counts tms) P)).

Definition refines (b : tvec_base) (a : astate) : Prop :=
  ∃ G, wheel_rep b G (a_now a) 0 ∧ timers_ok b ∧ pending b = dom G ∧
    (∀ t, a_due a !! t = due G t) ∧ a_timers a = timers b ∧ a_running a = running_timer b ∧
    active_timers b = u64 (active_count (timers b) (pending b)).

Lemma count_insert tms P t :
  t ∉ P → active_count tms ({[t]} ∪ P) = active_count tms P + ind (counts tms t).
Proof.
  intros Ht. unfold active_count, ind. destruct (decide (counts tms t)) as [Hc|Hc].
  - assert (filter (counts tms) ({[t]} ∪ P) = {[t]} ∪ filter (counts tms) P) as ->.
    { apply set_eq. intros x. rewrite elem_of_union, !elem_of_filter, elem_of_union. set_solver. }
    rewrite size_union by set_solver. rewrite size_singleton. lia.
  - assert (filter (counts tms) ({[t]} ∪ P) = filter (counts tms) P) as ->; [|lia].
    apply set_eq. intros x. rewrite !elem_of_filter, elem_of_union. set_solver.
Qed.

Lemma count_delete tms P t :
  t ∈ P → active_count tms (P ∖ {[t]}) = active_count tms P - ind (counts tms t).
Proof.
  intros Ht. assert (P = {[t]} ∪ P ∖ {[t]}) as E.
  { apply set_eq. intros x. destruct (decide (x = t)); set_solver. }
  rewrite E at 2. rewrite count_insert by set_solver. lia.
Qed.

Lemma count_ext tms tms' P :
  (∀ t, t ∈ P → deferrable <$> tms' !! t = deferrable <$> tms !! t) →
  active_count tms' P = active_count tms P.
Proof.
  intros H. unfold active_count. do 2 f_equal. apply set_eq. intros x.
  rewrite !elem_of_filter. unfold counts. split; intros [H1 H2]; (split; [|done]).
  - by rewrite <- H.
  - by rewrite H.
Qed.

Lemma u64_add x y : u64 (u64 x + y) = u64 (x + y).
Proof. unfold wrap. apply Zplus_mod_idemp_l. Qed.

Lemma u64_sub x y : u64 (u64 x - y) = u64 (x - y).
Proof. unfold wrap. apply Zminus_mod_idemp_l. Qed.

Lemma due_insert G t p x t' :
  due (<[t := (p, x)]> G) t' = if decide (t' = t) then Some x else due G t'.
Proof. unfold due. case_decide; subst; [by rewrite lookup_insert_eq|by rewrite lookup_insert_ne]. Qed.

Lemma due_delete G t t' : due (base.delete t G) t' = if decide (t' = t) then None else due G t'.
Proof. unfold due. case_decide; subst; [by rewrite lookup_delete_eq|by rewrite lookup_delete_ne]. Qed.

Lemma due_dom (a : astate) G t : (∀ t, a_due a !! t = due G t) → t ∈ dom (a_due a) ↔ t ∈ dom G.
Proof. intros H. rewrite !elem_of_dom, H. unfold due. apply fmap_is_Some. Qed.

Lemma counts_ind tms t tm : tms !! t = Some tm → ind (counts tms t) = if deferrable tm then 0 else 1.
Proof.
  intros E. unfold ind. destruct (decide (counts tms t)) as [Hc|Hc]; unfold counts in Hc;
    rewrite E in Hc; cbn in Hc; destruct (deferrable tm); congruence.
Qed.

(** The counters do not matter to the lists. *)
Lemma rep_count_if (c : bool) nt na b G now d :
  wheel_rep b G now d → wheel_rep (if c then b else set_counts nt na b) G now d.
Proof. intros W. destruct c; [done|]. by eapply rep_fields. Qed.

(** Stopping a timer. *)
Lemma detach_if_pending_ok b a t :
  refines b a →
  ∃ b', detach_if_pending b t true = Some (b', a_was a t) ∧ refines b' (a_cancel a t) ∧
    (length (work_list b') ≤ length (work_list b))%nat.
Proof.
  intros (G & W & Hok & Hp & Hd & Ht & Hr & Ha). unfold detach_if_pending, a_was.
  pose proof (due_dom a G t Hd) as Hdt.
  destruct (decide (t ∉ pending b)) as [Hn|Hin].
  { rewrite decide_False by (rewrite Hdt, <- Hp; done). exists b. split; [done|]. split; [|lia].
    exists G. split_and!; try done. intros t'. cbn. rewrite <- Hd.
    destruct (decide (t' = t)) as [->|]; [|by rewrite lookup_delete_ne].
    rewrite lookup_delete_eq. symmetry. apply not_elem_of_dom. by rewrite Hdt, <- Hp. }
  destruct (decide (t ∈ pending b)) as [Hi|]; [|done]. clear Hin.
  rewrite decide_True by (rewrite Hdt, <- Hp; done).
  assert (t ∈ dom (timers b)) as Htd by (apply (w_timers _ _ _ _ W); by rewrite <- Hp).
  apply elem_of_dom in Htd as [tm Htm]. rewrite Htm. cbn [mbind option_bind].
  eexists. split; [done|]. set (bd := detach_timer b t true).
  set (b' := if deferrable tm then bd else _).
  assert (work_list b' = work_list bd ∧ timers b' = timers b ∧ pending b' = pending bd ∧
    running_timer b' = running_timer b) as (Ew & Et & Epd & Er) by (unfold b'; by destruct (deferrable tm)).
  split; [|rewrite Ew; cbn; apply length_filter].
  exists (base.delete t G). split_and!.
  - unfold b'. apply rep_count_if, rep_detach. done.
  - intros t' tm'. rewrite Et. apply Hok.
  - rewrite Epd. cbn. rewrite Hp, dom_delete_L. done.
  - intros t'. cbn. rewrite due_delete. destruct (decide (t' = t)) as [->|].
    + apply lookup_delete_eq.
    + by rewrite lookup_delete_ne.
  - by rewrite Et.
  - by rewrite Er.
  - rewrite Et, Epd. cbn [pending bd detach_timer set_lists]. rewrite count_delete by done.
    rewrite (counts_ind _ _ _ Htm). unfold b'. destruct (deferrable tm); cbn; rewrite Ha.
    + f_equal. lia.
    + by rewrite u64_sub.
Qed.

(** ** The calls refine the reference *)

(** Starting a timer that is on no list. *)
Lemma sched_ok b G now t tm e :
  wheel_rep b G now 0 → timers_ok b → G !! t = None → timers b !! t = Some tm → in_u64 e →
  ∃ b' k, internal_add_timer (set_expires t tm e b) t = Some b' ∧
    wheel_rep b' (<[t := (InVec k, due_of now e)]> G) now 0 ∧ timers_ok b' ∧
    timers b' = <[t := mkTimer e (slack tm) (deferrable tm)]> (timers b) ∧
    work_list b' = work_list b ∧ pending b' = {[t]} ∪ pending b ∧
    running_timer b' = running_timer b ∧
    active_timers b' = if deferrable tm then active_timers b else u64 (active_timers b + 1).
Proof.
  intros W Hok Hn Htm He. set (b0 := set_expires t tm e b).
  set (tm' := mkTimer e (slack tm) (deferrable tm)).
  assert (timers b0 !! t = Some tm') as Htm0 by apply lookup_insert_eq.
  assert (timers_ok b0) as Hok0.
  { intros t' x. cbn. destruct (decide (t' = t)) as [->|].
    - rewrite lookup_insert_eq. intros [= <-]. done.
    - rewrite lookup_insert_ne by done. apply Hok. }
  assert (wheel_rep b0 G now 0) as W0.
  { eapply rep_fields; [exact W|done..|]. intros t' Ht'. cbn. rewrite lookup_insert_ne; [done|].
    intros <-. rewrite elem_of_dom, Hn in Ht'. by destruct Ht'. }
  destruct (internal_add_ok b0 G now 0 t tm' W0 Hok0 Hn Htm0) as (k & E & W1).
  unfold internal_add_timer. rewrite Htm0. cbn [mbind option_bind]. rewrite E. cbn [mbind option_bind].
  eexists _, k. split; [done|]. cbn [expires tm' deferrable] in *. split; [by apply rep_count_if|].
  split_and!; try (by destruct (deferrable tm)).
  transitivity (timers b0); [by destruct (deferrable tm)|done].
Qed.

Lemma refines_pending b a t : refines b a → t ∈ pending b ↔ t ∈ dom (a_due a).
Proof. intros (G & _ & _ & Hp & Hd & _). by rewrite (due_dom a G t Hd), Hp. Qed.

(** The timer is rescheduled whether it was pending or not. *)
Lemma mod_timer_ok b a t tm e :
  refines b a → timers b !! t = Some tm → in_u64 e →
  ∃ b', __mod_timer b t e false = Some (b', a_was a t) ∧ refines b' (a_sched a t tm e) ∧
    (length (work_list b') ≤ length (work_list b))%nat.
Proof.
  intros Href Htm He. pose proof (refines_pending b a t Href) as Hpd.
  destruct Href as (G & W & Hok & Hp & Hd & Ht & Hr & Ha).
  assert (∀ (b1 : tvec_base) (G1 : gmap nat (place * Z)) c,
    wheel_rep b1 G1 (a_now a) 0 → G1 = base.delete t G → timers b1 = timers b →
    running_timer b1 = running_timer b → pending b1 = pending b →
    active_timers b1 = u64 c →
    (c + (if deferrable tm then 0 else 1) = active_count (timers b) ({[t]} ∪ pending b)) →
    (length (work_list b1) ≤ length (work_list b))%nat →
    ∃ b', internal_add_timer (set_expires t tm e b1) t = Some b' ∧ refines b' (a_sched a t tm e) ∧
      (length (work_list b') ≤ length (work_list b))%nat) as Hadd.
  { intros b1 G1 c W1 EG Et1 Er1 Ep1 Ea1 Ec El.
    assert (G1 !! t = None) as Hn by (rewrite EG; apply lookup_delete_eq).
    destruct (sched_ok b1 G1 (a_now a) t tm e W1) as (b' & k & E & W' & Hok' & Et & Ew & Epd & Er & Eact);
      [intros t' x; rewrite Et1; apply Hok|done|by rewrite Et1|done|].
    exists b'. split; [done|]. split; [|by rewrite Ew].
    exists (<[t := (InVec k, due_of (a_now a) e)]> G1). split_and!; try done.
    - rewrite Epd, Ep1, Hp, dom_insert_L, EG, dom_delete_L. apply set_eq. intros x.
      destruct (decide (x = t)); set_solver.
    - intros t'. cbn. rewrite due_insert, EG, due_delete, <- Hd.
      destruct (decide (t' = t)) as [->|]; [by rewrite lookup_insert_eq|by rewrite lookup_insert_ne].
    - cbn. by rewrite Et, Et1, Ht.
    - cbn. by rewrite Er, Er1.
    - rewrite Eact, Ea1, Et, Et1, Epd, Ep1.
      rewrite (count_ext (timers b) (<[t := _]> (timers b))).
      + rewrite <- Ec. destruct (deferrable tm); [f_equal; lia|by rewrite u64_add].
      + intros t' _. destruct (decide (t' = t)) as [->|]; [by rewrite lookup_insert_eq, Htm|].
        by rewrite lookup_insert_ne. }
  unfold __mod_timer, detach_if_pending, a_was.
  destruct (decide (t ∉ pending b)) as [Hn|Hin].
  - cbn [mbind option_bind]. rewrite (decide_False (P := _ ∧ _)) by naive_solver.
    rewrite (decide_False (P := t ∈ dom _)) by (by rewrite <- Hpd).
    rewrite Htm. cbn [mbind option_bind].
    assert (base.delete t G = G) as Edel.
    { apply delete_id, not_elem_of_dom. by rewrite <- Hp. }
    destruct (Hadd b G (active_count (timers b) (pending b)) W) as (b' & -> & H1 & H2); try done.
    { rewrite count_insert by done. by rewrite (counts_ind _ _ _ Htm). }
    cbn [mbind option_bind]. by exists b'.
  - assert (t ∈ pending b) as Hi by (by destruct (decide (t ∈ pending b))).
    rewrite Htm. cbn [mbind option_bind]. set (bd := detach_timer b t false).
    set (b1 := if deferrable tm then bd else _).
    assert (timers b1 = timers b ∧ pending b1 = pending b ∧ running_timer b1 = running_timer b ∧
      work_list b1 = work_list bd) as (Et1 & Ep1 & Er1 & Ew1) by (unfold b1; by destruct (deferrable tm)).
    rewrite (decide_False (P := _ ∧ _)) by naive_solver.
    rewrite (decide_True (P := t ∈ dom _)) by (by rewrite <- Hpd).
    rewrite Et1, Htm. cbn [mbind option_bind].
    destruct (Hadd b1 (base.delete t G)
      (active_count (timers b) (pending b) - (if deferrable tm then 0 else 1))) as (b' & -> & H1 & H2); try done.
    + unfold b1. by apply rep_count_if, rep_detach.
    + unfold b1. destruct (deferrable tm); cbn; rewrite Ha; [f_equal; lia|by rewrite u64_sub].
    + assert ({[t]} ∪ pending b = pending b) as -> by set_solver. lia.
    + rewrite Ew1. cbn. apply length_filter.
    + cbn [mbind option_bind]. by exists b'.
Qed.

Lemma apply_slack_u64 sov j tm e : in_u64 e → in_u64 (apply_slack sov j tm e).
Proof.
  intros He. unfold apply_slack, slack_round. repeat case_decide; try done;
    (apply land_u64_range; [apply u64_range|apply u64_range]).
Qed.

(** A call on an existing timer, with a deadline that fits; [add_timer] only on
    a timer that is not pending. *)
Definition op_pre (a : astate) (o : timer_op) : Prop :=
  match o with
  | ModPending t e | Mod t e | ModPinned t e => t ∈ dom (a_timers a) ∧ in_u64 e
  | Add t | AddOn t => t ∈ dom (a_timers a) ∧ t ∉ dom (a_due a)
  | Del t | TryDel t => True
  end.

Lemma was_0 a t : t ∉ dom (a_due a) → a_was a t = 0.
Proof. intros. unfold a_was. by rewrite decide_False. Qed.

Lemma was_1 a t : t ∈ dom (a_due a) → a_was a t = 1.
Proof. intros. unfold a_was. by rewrite decide_True. Qed.

(** [__mod_timer] with [pending_only]. *)
Lemma mod_pending_eq b t e :
  t ∈ pending b → __mod_timer b t e true = __mod_timer b t e false.
Proof.
  intros Ht. unfold __mod_timer, detach_if_pending. rewrite (decide_False (P := _ ∉ _)) by (by intros ?).
  destruct (timers b !! t) as [tm|]; [|done]. cbn [mbind option_bind].
  by rewrite !(decide_False (P := _ ∧ _)) by naive_solver.
Qed.

(** A call does on the wheel what it does on the reference, with the same
    result, and never puts a timer on the work list. *)
Definition op_sim (b : tvec_base) (a : astate) (rb : option (tvec_base * Z))
    (ra : option (astate * Z)) : Prop :=
  ∃ b' a' r, rb = Some (b', r) ∧ ra = Some (a', r) ∧ refines b' a' ∧
    (length (work_list b') ≤ length (work_list b))%nat ∧
    a_now a' = a_now a ∧ dom (a_timers a') = dom (a_timers a).

Section calls.
Context (b : tvec_base) (a : astate) (Href : refines b a).

Lemma refines_timers t : timers b !! t = a_timers a !! t.
Proof using Href. by destruct Href as (G & _ & _ & _ & _ & -> & _). Qed.

Lemma refines_running : running_timer b = a_running a.
Proof using Href. by destruct Href as (G & _ & _ & _ & _ & _ & -> & _). Qed.

Lemma refines_expires t tm : a_timers a !! t = Some tm → in_u64 (expires tm).
Proof using Href. rewrite <- refines_timers. destruct Href as (G & _ & Hok & _). apply Hok. Qed.

Lemma sim_same r : op_sim b a (Some (b, r)) (Some (a, r)).
Proof using Href. by exists b, a, r. Qed.

Lemma sim_mod t tm e :
  a_timers a !! t = Some tm → in_u64 e →
  op_sim b a (__mod_timer b t e false) (Some (a_sched a t tm e, a_was a t)).
Proof using Href.
  intros Htm He. destruct (mod_timer_ok b a t tm e Href) as (b' & E & R & L);
    [by rewrite refines_timers|done|].
  exists b', (a_sched a t tm e), (a_was a t). split_and!; try done. cbn. rewrite dom_insert_L.
  apply elem_of_dom_2 in Htm. set_solver.
Qed.

Lemma sim_detach t : op_sim b a (detach_if_pending b t true) (Some (a_cancel a t, a_was a t)).
Proof using Href.
  destruct (detach_if_pending_ok b a t Href) as (b' & E & R & L).
  by exists b', (a_cancel a t), (a_was a t).
Qed.

Lemma sim_mod_pending t tm e :
  a_timers a !! t = Some tm → in_u64 e →
  op_sim b a (mod_timer_pending b t e)
    (Some (if decide (t ∈ dom (a_due a)) then (a_sched a t tm e, 1) else (a, 0))).
Proof using Href.
  intros Htm He. unfold mod_timer_pending. pose proof (refines_pending b a t Href) as Hpd.
  destruct (decide (t ∈ dom (a_due a))) as [Hd|Hd].
  - rewrite mod_pending_eq by (by apply Hpd). rewrite <- (was_1 a t) by done. by apply sim_mod.
  - unfold __mod_timer, detach_if_pending. rewrite decide_True by (by rewrite Hpd).
    cbn [mbind option_bind]. rewrite decide_True by done. apply sim_same.
Qed.

Lemma sim_mod_timer sov j t tm e :
  a_timers a !! t = Some tm → in_u64 e →
  op_sim b a (mod_timer sov j b t e)
    (let e := apply_slack sov j tm e in
     Some (if decide (t ∈ dom (a_due a) ∧ expires tm = e) then (a, 1)
           else (a_sched a t tm e, a_was a t))).
Proof using Href.
  intros Htm He. unfold mod_timer. rewrite refines_timers, Htm. cbn [mbind option_bind].
  pose proof (refines_pending b a t Href) as Hpd. set (e' := apply_slack _ _ _ _).
  destruct (decide (t ∈ pending b ∧ expires tm = e')) as [[H1 H2]|Hn].
  - rewrite decide_True by (by rewrite <- Hpd). apply sim_same.
  - rewrite decide_False by (by rewrite <- Hpd). apply sim_mod; [done|by apply apply_slack_u64].
Qed.

Lemma sim_add_on t tm :
  a_timers a !! t = Some tm → t ∉ dom (a_due a) →
  op_sim b a (add_timer_on b t) (Some (a_sched a t tm (expires tm), 0)).
Proof using Href.
  intros Htm Hn. unfold add_timer_on. pose proof (refines_pending b a t Href) as Hpd.
  rewrite decide_False by (by rewrite Hpd).
  assert (timers b !! t = Some tm) as Htb by by rewrite refines_timers.
  assert (set_expires t tm (expires tm) b = b) as Eb.
  { unfold set_expires. rewrite insert_id by (by destruct tm). by destruct b. }
  destruct (sim_mod t tm (expires tm)) as (b' & a' & r & E & Ea & H); [done|by eapply refines_expires|].
  unfold __mod_timer, detach_if_pending in E. rewrite decide_True in E by (by rewrite Hpd).
  cbn [mbind option_bind] in E. rewrite (decide_False (P := _ ∧ _)) in E by naive_solver.
  rewrite Htb in E. cbn [mbind option_bind] in E. rewrite Eb in E. rewrite was_0 in Ea by done.
  destruct (internal_add_timer b t) as [b1|]; [|done]. cbn [mbind option_bind] in *.
  injection E as -> <-. by exists b', a', 0.
Qed.

Lemma exec_op_ok sov j o : op_pre a o → op_sim b a (exec_op sov j b o) (a_op sov j a o).
Proof using Href.
  destruct o as [t e|t e|t e|t|t|t|t]; cbn [exec_op a_op op_pre];
    pose proof (refines_pending b a t Href) as Hpd.
  - intros [[tm Htm]%elem_of_dom He]. rewrite Htm. by apply sim_mod_pending.
  - intros [[tm Htm]%elem_of_dom He]. rewrite Htm. by apply sim_mod_timer.
  - intros [[tm Htm]%elem_of_dom He]. rewrite Htm. unfold mod_timer_pinned.
    rewrite refines_timers, Htm. cbn [mbind option_bind].
    destruct (decide (expires tm = e ∧ t ∈ pending b)) as [[H1 H2]|Hn].
    + rewrite decide_True by (by rewrite <- Hpd). apply sim_same.
    + rewrite decide_False by (by rewrite <- Hpd). by apply sim_mod.
  - intros [[tm Htm]%elem_of_dom Hn]. unfold add_timer.
    rewrite decide_False by (by rewrite Hpd). rewrite Htm, refines_timers, Htm. cbn [mbind option_bind].
    rewrite (decide_False (P := t ∈ dom _)) by done.
    pose proof (sim_mod_timer sov j t tm (expires tm) Htm (refines_expires t tm Htm)) as H.
    cbn zeta in H. rewrite (decide_False (P := _ ∧ _)) in H by naive_solver.
    by rewrite was_0 in H.
  - intros [[tm Htm]%elem_of_dom Hn]. rewrite Htm. cbn [mbind option_bind].
    rewrite decide_False by done. by apply sim_add_on.
  - intros _. unfold del_timer. destruct (decide (t ∈ pending b)) as [Hi|Hi]; [apply sim_detach|].
    pose proof (sim_detach t) as H. unfold detach_if_pending in H. by rewrite decide_True in H.
  - intros _. unfold try_to_del_timer_sync. rewrite refines_running.
    destruct (decide (a_running a = Some t)); [apply sim_same|apply sim_detach].
Qed.
End calls.

(** ** A tick *)

(** [ops_pre a os]: no call of the sequence is an error. *)
Fixpoint ops_pre (sov : Z → Z) (jiffies : Z) (a : astate) (os : list timer_op) : Prop :=
  match os with
  | [] => True
  | o :: os => op_pre a o ∧ ∀ a' r, a_op sov jiffies a o = Some (a', r) → ops_pre sov jiffies a' os
  end.

Lemma exec_ops_ok sov j os : ∀ b a,
  refines b a → ops_pre sov j a os →
  ∃ b' a', exec_ops sov j b os = Some b' ∧ a_ops sov j a os = Some a' ∧ refines b' a' ∧
    (length (work_list b') ≤ length (work_list b))%nat ∧
    a_now a' = a_now a ∧ dom (a_timers a') = dom (a_timers a).
Proof.
  induction os as [|o os IH]; intros b a Href Hpre; [by exists b, a|].
  destruct Hpre as [Ho Hos].
  destruct (exec_op_ok b a Href sov j o Ho) as (b1 & a1 & r & E1 & E2 & R1 & L1 & N1 & D1).
  destruct (IH b1 a1 R1 (Hos _ _ E2)) as (b2 & a2 & F1 & F2 & R2 & L2 & N2 & D2).
  exists b2, a2. cbn [exec_ops a_ops]. rewrite E1, E2. cbn [mbind option_bind].
  split_and!; try done; [lia|congruence..].
Qed.

(** The function of [t] is about to be called. *)
Definition a_start (a : astate) (t : nat) : astate :=
  mkA (a_now a) (base.delete t (a_due a)) (a_timers a) (Some t).

Lemma refines_late b a t : refines b a → t ∈ work_list b ↔ a_due a !! t = Some (a_now a - 1).
Proof.
  intros (G & W & _ & _ & Hd & _). rewrite (w_work _ _ _ _ W), Hd. unfold due. split.
  - intros [x Hx]. rewrite Hx. cbn. by rewrite (w_late _ _ _ _ W t x Hx).
  - destruct (G !! t) as [[p x]|] eqn:Eg; [|done]. cbn. intros [= ->].
    destruct p as [[n i]|]; [|by eexists]. exfalso.
    destruct (w_loc _ _ _ _ W t _ _ Eg) as [Hl _]. unfold loc_ok in Hl.
    destruct n as [|n]; cbn in Hl; [lia|]. destruct Hl as (_ & B & HB & H & _). case_decide; lia.
Qed.

(** The timer at the head of the work list leaves it. *)
Lemma detach_expired_ok b a t w :
  refines b a → work_list b = t :: w →
  ∃ b', detach_expired_timer (set_running (Some t) b) t = Some b' ∧ refines b' (a_start a t) ∧
    (length (work_list b') ≤ length w)%nat.
Proof.
  intros Href Hw.
  destruct Href as (G & W & Hok & Hp & Hd & Ht & Hr & Ha).
  assert (t ∈ dom G) as Hi.
  { destruct (proj1 (w_work _ _ _ _ W t)) as [x Hx]; [rewrite Hw; by left|]. by eapply elem_of_dom_2. }
  pose proof (w_timers _ _ _ _ W t Hi) as [tm Htm]%elem_of_dom.
  unfold detach_expired_timer. cbn [timers set_running]. rewrite Htm. cbn [mbind option_bind].
  eexists. split; [done|]. set (bd := detach_timer _ t true). set (b' := if deferrable tm then bd else _).
  assert (work_list b' = work_list bd ∧ timers b' = timers b ∧ pending b' = pending bd ∧
    running_timer b' = Some t) as (Ew & Et & Epd & Er) by (unfold b'; by destruct (deferrable tm)).
  split; [exists (base.delete t G); split_and!|].
  - unfold b'. apply rep_count_if, rep_detach. by eapply rep_fields.
  - intros t' tm'. rewrite Et. apply Hok.
  - rewrite Epd. cbn. rewrite Hp, dom_delete_L. done.
  - intros t'. cbn. rewrite due_delete. destruct (decide (t' = t)) as [->|].
    + apply lookup_delete_eq.
    + by rewrite lookup_delete_ne.
  - by rewrite Et.
  - by rewrite Er.
  - rewrite Et, Epd. cbn [pending bd detach_timer set_lists set_running].
    rewrite count_delete by (by rewrite Hp). rewrite (counts_ind _ _ _ Htm).
    unfold b'. destruct (deferrable tm); cbn; rewrite Ha; [f_equal; lia|by rewrite u64_sub].
  - rewrite Ew. cbn. rewrite Hw, filter_cons_False by naive_solver. apply length_filter.
Qed.

(** Differences of reduced times. *)
Lemma s64_diff x y : - 2 ^ 63 ≤ x - y < 2 ^ 63 → s64 (u64 x - u64 y) = x - y.
Proof.
  intros H. rewrite <- (s64_small (x - y)) by (unfold in_swidth; lia).
  rewrite <- (swrap_wrap 64 (_ - _)), <- (swrap_wrap 64 (x - y)) by lia. f_equal. unfold wrap.
  by rewrite <- Zminus_mod.
Qed.

Section machine.
Context (sov : Z → Z) (handler : nat → list timer_op) (jiffies : Z).

(** The calls of one tick, in some order: each timer that is due and still
    pending when its turn comes is taken off and its function called. *)
Inductive fires : astate → list nat → astate → Prop :=
  | fires_none a : (∀ t, a_due a !! t ≠ Some (a_now a - 1)) → fires a [] a
  | fires_one a t a1 l a2 :
      a_due a !! t = Some (a_now a - 1) →
      a_ops sov jiffies (a_start a t) (handler t) = Some a1 →
      fires a1 l a2 → fires a (t :: l) a2.

Definition a_tick (a : astate) : astate := mkA (a_now a + 1) (a_due a) (a_timers a) (a_running a).

(** The ticks up to [J], one by one. *)
Inductive ticks (J : Z) : astate → list (Z * nat) → astate → Prop :=
  | ticks_done a : J < a_now a → ticks J a [] a
  | ticks_one a l a1 l' a2 :
      a_now a ≤ J → fires (a_tick a) l a1 → ticks J a1 l' a2 →
      ticks J a ((pair (a_now a) <$> l) ++ l') a2.

(** The functions of the timers in [D] make no wrong calls: [add_timer] only
    when not pending, deadlines that fit.  The timer itself is not pending when
    its function starts. *)
Definition handlers_ok (D : gset nat) : Prop :=
  ∀ t a, dom (a_timers a) = D → t ∉ dom (a_due a) → ops_pre sov jiffies a (handler t).

Context (D : gset nat) (Hh : handlers_ok D).

Lemma run_work_ok fuel : ∀ b a,
  refines b a → dom (a_timers a) = D → (length (work_list b) ≤ fuel)%nat →
  ∃ b' calls a', run_work sov handler fuel jiffies b = Some (b', calls) ∧ fires a calls a' ∧
    refines b' a' ∧ work_list b' = [] ∧ a_now a' = a_now a ∧ dom (a_timers a') = D.
Proof using Hh.
  induction fuel as [|fuel IH]; intros b a Href HD Hf.
  all: cbn [run_work]; destruct (work_list b) as [|t w] eqn:Ew;
    [exists b, [], a; split_and!; try done; constructor; intros t Ht;
      apply (refines_late b a t Href) in Ht; rewrite Ew in Ht; by apply elem_of_nil in Ht|].
  { cbn in Hf. lia. }
  destruct (detach_expired_ok b a t w Href Ew) as (b1 & -> & R1 & L1). cbn [mbind option_bind].
  destruct (exec_ops_ok sov jiffies (handler t) b1 (a_start a t) R1) as (b2 & a2 & -> & E2 & R2 & L2 & N2 & D2).
  { apply Hh; [done|]. cbn. rewrite dom_delete_L. set_solver. }
  cbn [mbind option_bind]. destruct (IH b2 a2 R2) as (b3 & calls & a3 & -> & F3 & R3 & W3 & N3 & D3).
  { by rewrite D2. }
  { cbn in Hf. lia. }
  cbn [mbind option_bind]. exists b3, (t :: calls), a3. split_and!; try done.
  - eapply fires_one; [|done|done]. apply (refines_late b a t Href). rewrite Ew. by left.
  - by rewrite N3, N2.
Qed.

Lemma refines_tick b a :
  refines b a → work_list b = [] → ∃ b', start_tick b = Some b' ∧ refines b' (a_tick a).
Proof.
  intros (G & W & Hok & Hp & Hd & Ht & Hr & Ha) Hw.
  destruct (start_tick_ok b G (a_now a) W Hok Hp Hw) as (b' & G' & E & W' & (St & Sn & Sa & Sr & Sp & Sd) & _).
  exists b'. split; [done|]. exists G'. split_and!; try done.
  - intros t tm. rewrite St. apply Hok.
  - intros t. cbn. by rewrite Sd.
  - cbn. by rewrite St.
  - cbn. by rewrite Sr.
  - rewrite Sa, Ha, St. f_equal. f_equal. rewrite Sp, Hp. apply set_eq. intros t.
    rewrite !elem_of_dom. specialize (Sd t). unfold due in Sd.
    rewrite <- (fmap_is_Some snd), <- Sd, fmap_is_Some. done.
Qed.

Lemma run_loop_ok J fuel : ∀ b a,
  jiffies = u64 J → refines b a → dom (a_timers a) = D → work_list b = [] →
  - 2 ^ 63 ≤ J - a_now a < 2 ^ 63 → J - a_now a < Z.of_nat fuel →
  ∃ b' calls a', run_loop sov handler fuel jiffies b = Some (b', prod_map u64 id <$> calls) ∧
    ticks J a calls a' ∧ refines b' a' ∧ work_list b' = [].
Proof using Hh.
  induction fuel as [|fuel IH]; intros b a HJ Href HD Hw Hr Hf.
  all: assert (timer_jiffies b = u64 (a_now a)) as Ej by (destruct Href as (G & W & _); apply (w_jiffies _ _ _ _ W)).
  all: assert (time_after_eq jiffies (timer_jiffies b) ↔ a_now a ≤ J) as Hta
    by (unfold time_after_eq; rewrite HJ, Ej, s64_diff by done; lia).
  all: cbn [run_loop].
  { rewrite decide_False by (rewrite Hta; lia). exists b, [], a. split_and!; try done. constructor. lia. }
  destruct (decide (time_after_eq _ _)) as [Hle%Hta|Hgt].
  2: { exists b, [], a. rewrite Hta in Hgt. split_and!; try done. constructor. lia. }
  destruct (refines_tick b a Href Hw) as (b1 & -> & R1). cbn [mbind option_bind].
  destruct (run_work_ok (length (work_list b1)) b1 (a_tick a) R1) as (b2 & l & a2 & -> & F2 & R2 & W2 & N2 & D2);
    [done|lia|]. cbn [mbind option_bind].
  destruct (IH b2 a2) as (b3 & l' & a3 & -> & T3 & R3 & W3); try done.
  { rewrite N2. cbn. lia. }
  { rewrite N2. cbn. lia. }
  cbn [mbind option_bind]. exists b3, ((pair (a_now a) <$> l) ++ l'), a3. split_and!; try done.
  - rewrite Ej. rewrite fmap_app. do 3 f_equal. rewrite <- list_fmap_compose. done.
  - econstructor; [lia|done|done].
Qed.
End machine.

(** * The theorems *)

Definition a_idle (a : astate) : astate := mkA (a_now a) (a_due a) (a_timers a) None.

Lemma run_timers_ok sov handler J b a :
  refines b a → work_list b = [] → handlers_ok sov handler (u64 J) (dom (a_timers a)) →
  - 2 ^ 63 ≤ J - a_now a < 2 ^ 63 →
  ∃ b' calls a',
    __run_timers sov handler (u64 J) b = Some (b', prod_map u64 id <$> calls) ∧
    ticks sov handler (u64 J) J a calls a' ∧ refines b' (a_idle a') ∧ work_list b' = [].
Proof.
  intros Href Hw Hh Hr.
  assert (timer_jiffies b = u64 (a_now a)) as Ej by (destruct Href as (G & W & _); apply (w_jiffies _ _ _ _ W)).
  unfold __run_timers. rewrite Ej, s64_diff by done.
  destruct (run_loop_ok sov handler (u64 J) _ Hh J (Z.to_nat (J - a_now a + 1)) b a)
    as (b' & calls & a' & -> & T & (G & W & Hok & Hp & Hd & Ht & Hrun & Ha) & W'); try done; [lia|].
  cbn [mbind option_bind]. exists (set_running None b'), calls, a'. split_and!; try done.
  exists G. split_and!; try done. by eapply rep_fields.
Qed.

(** ** On time *)

(** The timer a call is about. *)
Definition op_target (o : timer_op) : nat :=
  match o with
  | ModPending t _ | Mod t _ | ModPinned t _ | Add t | AddOn t | Del t | TryDel t => t
  end.

Lemma a_op_frame sov j a o a' r t :
  op_target o ≠ t → a_op sov j a o = Some (a', r) →
  a_due a' !! t = a_due a !! t ∧ a_now a' = a_now a.
Proof.
  intros Ht E. destruct o as [u e|u e|u e|u|u|u|u]; cbn in Ht, E;
    try (destruct (a_timers a !! u) as [tm|]; [cbn in E|done]);
    repeat case_decide; simplify_eq; cbn; rewrite ?lookup_insert_ne, ?lookup_delete_ne by done; done.
Qed.

Lemma a_ops_frame sov j os t : ∀ a a',
  Forall (λ o, op_target o ≠ t) os → a_ops sov j a os = Some a' →
  a_due a' !! t = a_due a !! t ∧ a_now a' = a_now a.
Proof.
  induction os as [|o os IH]; intros a a' Hf E; [by injection E as <-|].
  apply Forall_cons in Hf as [Ho Hf]. cbn in E.
  destruct (a_op sov j a o) as [[a1 r]|] eqn:E1; [|done]. cbn in E.
  destruct (a_op_frame sov j a o a1 r t Ho E1) as [<- <-]. by apply IH.
Qed.

Section on_time.
Context (sov : Z → Z) (handler : nat → list timer_op) (jiffies : Z) (t : nat).
Context (Hfree : ∀ u, Forall (λ o, op_target o ≠ t) (handler u)).

Lemma fires_once a l a' :
  fires sov handler jiffies a l a' →
  a_now a' = a_now a ∧
  (if decide (a_due a !! t = Some (a_now a - 1))
   then filter (λ u, u = t) l = [t] ∧ a_due a' !! t = None
   else filter (λ u, u = t) l = [] ∧ a_due a' !! t = a_due a !! t).
Proof using Hfree.
  induction 1 as [a Hn|a u a1 l a2 Hu E F [IHn IH]].
  { by rewrite decide_False by apply Hn. }
  destruct (a_ops_frame sov jiffies (handler u) t _ _ (Hfree u) E) as [Ed En]. cbn in Ed, En.
  rewrite En in *. split; [done|]. rewrite Ed in IH. destruct (decide (u = t)) as [->|Hne].
  - rewrite decide_True by done. rewrite filter_cons_True by done.
    rewrite lookup_delete_eq in IH. rewrite decide_False in IH by done. destruct IH as [-> ->]. done.
  - rewrite lookup_delete_ne in IH by done. by rewrite filter_cons_False by done.
Qed.

Lemma ticks_once J a calls a' :
  ticks sov handler jiffies J a calls a' →
  (∀ x, a_due a !! t = Some x → a_now a ≤ x) →
  filter (λ c, c.2 = t) calls =
    match a_due a !! t with Some x => if decide (x ≤ J) then [(x, t)] else [] | None => [] end ∧
  a_due a' !! t =
    match a_due a !! t with Some x => if decide (x ≤ J) then None else Some x | None => None end.
Proof using Hfree.
  induction 1 as [a Hj|a l a1 l' a2 Hj F T IH]; intros Hd.
  { destruct (a_due a !! t) as [x|]; [|done]. specialize (Hd x eq_refl).
    by rewrite !decide_False by lia. }
  destruct (fires_once _ _ _ F) as [En H]. cbn in En, H. rewrite filter_app.
  assert (filter (λ c : Z * nat, c.2 = t) (pair (a_now a) <$> l) =
    pair (a_now a) <$> filter (λ u, u = t) l) as ->.
  { clear. induction l as [|u l IH]; [done|]. rewrite fmap_cons, !filter_cons. cbn.
    case_decide; [by rewrite fmap_cons, IH|done]. }
  replace (a_now a + 1 - 1) with (a_now a) in H by lia.
  destruct (decide (a_due a !! t = Some (a_now a))) as [E|Hne]; destruct H as [-> H].
  - rewrite H in IH. destruct IH as [-> ->]; [done|]. by rewrite E, !decide_True by lia.
  - rewrite H in IH. apply IH. intros x Hx. rewrite En. specialize (Hd x Hx).
    assert (x ≠ a_now a) by congruence. lia.
Qed.
End on_time.

Lemma refines_due_ge b a t x :
  refines b a → work_list b = [] → a_due a !! t = Some x → a_now a ≤ x.
Proof.
  intros Href Hw Hx. destruct (decide (x = a_now a - 1)) as [->|Hne].
  { apply (refines_late b a t Href) in Hx. rewrite Hw in Hx. by apply elem_of_nil in Hx. }
  destruct Href as (G & W & _ & _ & Hd & _). rewrite Hd in Hx. unfold due in Hx.
  destruct (G !! t) as [[p y]|] eqn:Eg; [|done]. cbn in Hx. simplify_eq.
  destruct p as [[[|n] i]|]; [..|by apply (w_late _ _ _ _ W) in Eg].
  - destruct (w_loc _ _ _ _ W t _ _ Eg) as [[H _] _]. lia.
  - destruct (w_loc _ _ _ _ W t _ _ Eg) as [(_ & B & HB & H & _) _]. case_decide; lia.
Qed.

(** ** The empty wheel *)

Lemma init_refines now tms :
  map_Forall (λ _ tm, in_u64 (expires tm)) tms →
  refines (init_timers_cpu (u64 now) tms) (mkA now ∅ tms None).
Proof.
  intros Hok. exists ∅. split_and!; try done.
  split; try done.
  - intros k t. rewrite lookup_empty. split; [intros H; by apply elem_of_nil in H|naive_solver].
  - intros t. rewrite lookup_empty. split; [intros H; by apply elem_of_nil in H|naive_solver].
  - intros k. constructor.
  - constructor.
Qed.

(** ** Slack *)

Lemma land_lnot_ones x k :
  in_u64 x → 0 ≤ k → Z.land x (u64 (Z.lnot (2 ^ k - 1))) = x / 2 ^ k * 2 ^ k.
Proof.
  intros Hx Hk. unfold wrap. rewrite <- Z.land_ones by lia.
  replace (2 ^ k - 1) with (Z.ones k) by (rewrite Z.ones_equiv; lia).
  rewrite (Z.land_comm (Z.lnot _)), Z.land_assoc, Z.land_ones by lia.
  rewrite (Z.mod_small x) by (unfold in_width in Hx; lia).
  rewrite <- Z.ldiff_land, Z.ldiff_ones_r, Z.shiftl_mul_pow2, Z.shiftr_div_pow2 by lia. done.
Qed.

(** Clearing the bits of the limit below the highest one that differs from the
    deadline does not go below the deadline. *)
Lemma round_down_ge e lim :
  0 ≤ e < lim → e < lim / 2 ^ Z.log2 (Z.lxor e lim) * 2 ^ Z.log2 (Z.lxor e lim) ≤ lim.
Proof.
  intros He. set (m := Z.lxor e lim). set (k := Z.log2 m).
  assert (0 ≤ m) as Hm by (apply Z.lxor_nonneg; lia).
  assert (m ≠ 0) as Hm0 by (intros H%Z.lxor_eq; lia).
  pose proof (Z.log2_nonneg m) as Hk. fold k in Hk.
  assert (0 < 2 ^ k) by (apply Z.pow_pos_nonneg; lia).
  assert (Z.shiftr m k ≠ 0) as Hs.
  { rewrite Z.shiftr_div_pow2 by lia. pose proof (Z.log2_spec m ltac:(lia)) as [H1 _]. fold k in H1.
    assert (1 ≤ m / 2 ^ k) by (apply Z.div_le_lower_bound; lia). lia. }
  unfold m in Hs. rewrite Z.shiftr_lxor, !Z.shiftr_div_pow2 in Hs by lia.
  assert (e / 2 ^ k ≠ lim / 2 ^ k) as Hne by (intros Hx; by rewrite Hx, Z.lxor_nilpotent in Hs).
  assert (e / 2 ^ k ≤ lim / 2 ^ k) by (apply Z.div_le_mono; lia).
  pose proof (Z.mul_div_le lim (2 ^ k) ltac:(lia)).
  pose proof (Z.mul_succ_div_gt e (2 ^ k) ltac:(lia)). nia.
Qed.

(** The latest time [apply_slack] may pick. *)
Definition slack_limit (jiffies : Z) (tm : timer_list) (e : Z) : Z :=
  if decide (0 ≤ slack tm) then e + slack tm
  else if decide (s64 (e - jiffies) < 256) then e else e + Z.quot (s64 (e - jiffies)) 256.

(** [apply_slack] moves a deadline later by at most the slack (the timer's
    own, or 1/256 of the time left when the timer asks for the default), to a
    multiple of the highest power of two in that window, provided the shift that makes the
    mask stays within an int and the limit within an unsigned long. *)
Theorem apply_slack_bounds sov j tm e
    (He : 0 ≤ e) (Hlim : slack_limit j tm e < 2 ^ 64)
    (Hbit : Z.log2 (Z.lxor e (slack_limit j tm e)) < 31) :
  e ≤ apply_slack sov j tm e ≤ slack_limit j tm e ∧
  (e ≠ slack_limit j tm e →
   (2 ^ Z.log2 (Z.lxor e (slack_limit j tm e)) | apply_slack sov j tm e)).
Proof.
  unfold apply_slack. set (lim := slack_limit j tm e) in *.
  assert (e ≤ lim) as Hle.
  { unfold lim, slack_limit. repeat case_decide; lia. }
  assert (e ≤ slack_round sov e lim ≤ lim ∧
    (e ≠ lim → (2 ^ Z.log2 (Z.lxor e lim) | slack_round sov e lim))) as Hround.
  { unfold slack_round. destruct (decide (Z.lxor e lim = 0)) as [H0%Z.lxor_eq|H0]; [split; [lia|done]|].
    assert (e ≠ lim) by (intros Hx; rewrite Hx, Z.lxor_nilpotent in H0; done).
    rewrite decide_True by done. rewrite land_lnot_ones by (unfold in_width; lia || apply Z.log2_nonneg).
    pose proof (round_down_ge e lim ltac:(lia)). split; [lia|]. intros _. by eexists. }
  assert (u64 lim = lim) as Eu by (apply wrap_small; unfold in_width; lia).
  unfold lim, slack_limit in *.
  destruct (decide (0 ≤ slack tm)); [by rewrite Eu|].
  destruct (decide (s64 (e - j) < 256)); [split; [lia|done]|by rewrite Eu].
Qed.

(** every call ([mod_timer], [mod_timer_pending], [mod_timer_pinned],
    [add_timer], [add_timer_on], [del_timer], [try_to_del_timer_sync]) does on
    the wheel exactly what it does on a map from the pending timers to their due
    ticks, with the same result: wherever the timer is (a bucket, the work list
    or nowhere), it is moved to the bucket of its new deadline or taken off, and
    the counter of the timers that keep the tick going follows. *)
Theorem timer_calls_refine sov j b a o (Href : refines b a) (Hpre : op_pre a o) :
  ∃ b' a' r, exec_op sov j b o = Some (b', r) ∧ a_op sov j a o = Some (a', r) ∧ refines b' a'.
Proof.
  destruct (exec_op_ok b a Href sov j o Hpre) as (b' & a' & r & H1 & H2 & H3 & _).
  by exists b', a', r.
Qed.

(** C9: [__run_timers] at jiffies [J] terminates and refines the machine that
    goes through the ticks up to [J] one by one and calls at each tick the
    timers due at it: the cascades move every timer down in time, deadlines
    beyond the range of the wheel included, and timers that the called
    functions start, move or stop (also those waiting on the work list) are
    treated as the reference treats them.  The jiffies counter may wrap. *)
Theorem timer_wheel_refines sov handler J b a
    (Href : refines b a) (Hw : work_list b = [])
    (Hh : handlers_ok sov handler (u64 J) (dom (a_timers a)))
    (Hr : - 2 ^ 63 ≤ J - a_now a < 2 ^ 63) :
  ∃ b' calls a',
    __run_timers sov handler (u64 J) b = Some (b', prod_map u64 id <$> calls) ∧
    ticks sov handler (u64 J) J a calls a' ∧ refines b' (a_idle a') ∧ work_list b' = [].
Proof. by apply run_timers_ok. Qed.

(** C21: a timer that the functions of the timers leave alone is called by
    [__run_timers] exactly once, at its due tick, if that has come, and is off
    the wheel afterwards; if its tick has not come, or it was not pending, it
    is not called and stays as it was. *)
Theorem timer_fires_on_time sov handler J b a t
    (Href : refines b a) (Hw : work_list b = [])
    (Hh : handlers_ok sov handler (u64 J) (dom (a_timers a)))
    (Hr : - 2 ^ 63 ≤ J - a_now a < 2 ^ 63)
    (Hfree : ∀ u, Forall (λ o, op_target o ≠ t) (handler u)) :
  ∃ b' calls, __run_timers sov handler (u64 J) b = Some (b', calls) ∧
    match a_due a !! t with
    | Some x =>
        if decide (x ≤ J) then filter (λ c, c.2 = t) calls = [(u64 x, t)] ∧ t ∉ pending b'
        else filter (λ c, c.2 = t) calls = [] ∧ t ∈ pending b'
    | None => filter (λ c, c.2 = t) calls = [] ∧ t ∉ pending b'
    end.
Proof.
  destruct (run_timers_ok sov handler J b a Href Hw Hh Hr) as (b' & calls & a' & E & T & R & _).
  destruct (ticks_once sov handler (u64 J) t Hfree J a calls a' T) as [Hc Hd].
  { intros x. by apply (refines_due_ge b a t x Href Hw). }
  exists b', (prod_map u64 id <$> calls). split; [done|].
  assert (filter (λ c : Z * nat, c.2 = t) (prod_map u64 id <$> calls) =
    prod_map u64 id <$> filter (λ c, c.2 = t) calls) as ->.
  { clear. induction calls as [|[x u] l IH]; [done|]. rewrite fmap_cons, !filter_cons. cbn.
    case_decide; [by rewrite fmap_cons, IH|done]. }
  pose proof (refines_pending b' (a_idle a') t R) as Hp. rewrite elem_of_dom in Hp. cbn in Hp.
  rewrite Hd in Hp. rewrite Hc. destruct (a_due a !! t) as [x|]; [case_decide|]; rewrite Hp;
    by (split; [|by eexists || intros [? ?]]).
Qed.

(** * Examples *)

Module TimerDemo.

Definition no_overflow (_ : Z) : Z := 0.

(** One timer for the next ticks, one further out, a deferrable one beyond
    the range of [tv2], and one beyond that of the wheel. *)
Definition tms : gmap nat timer_list :=
  {[0%nat := mkTimer 5 0 false; 1%nat := mkTimer 300 0 false;
    2%nat := mkTimer 20000 0 true; 3%nat := mkTimer 4294969295 0 false]}.

(** Timer 0 starts itself again for later; timer 1 stops timer 3. *)
Definition handler (t : nat) : list timer_op :=
  match t with 0%nat => [Mod 0 100000] | 1%nat => [Del 3] | _ => [] end.

Definition ops : list timer_op := [Add 0; Add 1; Add 2; Add 3].
Definition b0 : tvec_base :=
  default (init_timers_cpu 0 tms) (exec_ops no_overflow 0 (init_timers_cpu 0 tms) ops).
Definition a0 : astate :=
  default (mkA 0 ∅ tms None) (a_ops no_overflow 0 (mkA 0 ∅ tms None) ops).

Lemma b0_refines : refines b0 a0.
Proof.
  destruct (exec_ops_ok no_overflow 0 ops (init_timers_cpu 0 tms) (mkA 0 ∅ tms None))
    as (b & a & Eb & Ea & R & _).
  - apply (init_refines 0). apply map_Forall_lookup. intros t tm Ht. revert Ht.
    unfold tms. repeat (rewrite lookup_insert_Some; intros [[_ <-]|[_ Ht]]; [done|]; revert Ht).
    rewrite lookup_singleton_Some. by intros [_ <-].
  - split; [split; by vm_compute|]. intros a1 r1 [= <- <-].
    split; [split; by vm_compute|]. intros a2 r2 [= <- <-].
    split; [split; by vm_compute|]. intros a3 r3 [= <- <-].
    split; [split; by vm_compute|]. done.
  - unfold b0, a0. rewrite Eb, Ea. done.
Qed.

Lemma handler_ok : handlers_ok no_overflow handler (u64 20500) (dom (a_timers a0)).
Proof.
  intros t a HD _. destruct t as [|[|t]]; cbn; [|done..].
  split; [|done]. split; [rewrite HD; by vm_compute|]. split; [done|by vm_compute].
Qed.

Lemma run_result :
  (λ r, (pending r.1, r.2)) <$> __run_timers no_overflow handler (u64 20500) b0 =
  Some ({[0%nat]}, [(5, 0%nat); (300, 1%nat); (20000, 2%nat)]).
Proof. vm_compute. reflexivity. Qed.

(** Timers 0 and 1 run, the deferrable one runs at 20000, timer 3 has been
    stopped and timer 0 is pending again. *)
Lemma timer_wheel_refines_witness :
  ∃ b' calls a',
    __run_timers no_overflow handler (u64 20500) b0 = Some (b', prod_map u64 id <$> calls) ∧
    ticks no_overflow handler (u64 20500) 20500 a0 calls a' ∧
    prod_map u64 id <$> calls = [(5, 0%nat); (300, 1%nat); (20000, 2%nat)] ∧
    pending b' = {[0%nat]}.
Proof.
  destruct (timer_wheel_refines no_overflow handler 20500 b0 a0 b0_refines) as (b' & calls & a' & E & T & _).
  - by vm_compute.
  - exact handler_ok.
  - by vm_compute.
  - exists b', calls, a'. split; [exact E|]. split; [exact T|]. revert E.
    generalize (prod_map u64 id <$> calls). intros l E. pose proof run_result as H.
    rewrite E in H. clear E T. injection H as -> ->. by split.
Defined.

Lemma timer_fires_on_time_witness :
  ∃ b' calls, __run_timers no_overflow handler (u64 20500) b0 = Some (b', calls) ∧
    filter (λ c, c.2 = 2%nat) calls = [(20000, 2%nat)] ∧ 2%nat ∉ pending b'.
Proof.
  assert (∀ u, Forall (λ o, op_target o ≠ 2%nat) (handler u)) as Hf.
  { intros [|[|u]]; cbn; repeat constructor; done. }
  pose proof (timer_fires_on_time no_overflow handler 20500 b0 a0 2 b0_refines eq_refl handler_ok
    ltac:(by vm_compute) Hf) as H.
  assert (a_due a0 !! 2%nat = Some 20000) as Hdue by (by vm_compute).
  rewrite Hdue in H. destruct H as (b' & calls & E & H). rewrite decide_True in H by lia.
  exists b', calls. split; [exact E|exact H].
Defined.

Lemma timer_calls_refine_witness :
  ∃ b' a' r, exec_op no_overflow 0 b0 (Mod 1 70000) = Some (b', r) ∧
    a_op no_overflow 0 a0 (Mod 1 70000) = Some (a', r) ∧ refines b' a'.
Proof.
  apply (timer_calls_refine no_overflow 0 b0 a0 (Mod 1 70000) b0_refines).
  split; [by vm_compute|]. by split; vm_compute.
Defined.

(** 1000 with a slack of 30: the window 1000 to 1030 holds 1024. *)
Lemma apply_slack_bounds_witness :
  apply_slack no_overflow 0 (mkTimer 1000 30 false) 1000 = 1024 ∧
  (2 ^ 10 | apply_slack no_overflow 0 (mkTimer 1000 30 false) 1000).
Proof.
  split; [by vm_compute|].
  destruct (apply_slack_bounds no_overflow 0 (mkTimer 1000 30 false) 1000) as [_ H];
    [lia|by vm_compute|by vm_compute|]. apply H. by vm_compute.
Defined.
End TimerDemo.
