(* ===== verification/TimerNext.v ===== *)
(** The next timer event: [__next_timer_interrupt], [cmp_next_hrtimer_event]
    and [get_next_timer_interrupt] of kernel/timer.c, on the wheel of
    [TimerWheel].

    An idle CPU asks for the first deadline of the timers that are not
    deferrable.  The search goes through the first vector and then, level by
    level, only through the buckets that can hold something earlier.  The
    theorems: the answer is the earliest due tick (at most
    [NEXT_TIMER_MAX_DELTA] away) when every deadline is within the range of the
    wheel; and with a timer parked in [tv5] because its deadline is beyond that
    range, the answer can be later than the first deadline. *)

From S2P Require Import Prelude TimerWheel TimerRun.

Local Open Scope Z_scope.

(** * The search *)

Definition NEXT_TIMER_MAX_DELTA : Z := 2 ^ 30 - 1.
Definition TVN_SIZE : Z := 64.

(** The deadline of the first timer of a bucket that is not deferrable. *)
Definition first_active (b : tvec_base) (k : nat * Z) : option Z :=
  t ← head (filter (counts (timers b)) (vec b k)); expires <$> timers b !! t.

(** The loop over [tv1]: the deadline found and its slot. *)
Fixpoint scan_tv1 (fuel : nat) (b : tvec_base) (index slot : Z) : option (option (Z * Z)) :=
  match fuel with
  | O => None
  | S fuel =>
      match first_active b (0%nat, slot) with
      | Some e => Some (Some (e, slot))
      | None =>
          let slot := Z.land (slot + 1) TVR_MASK in
          if decide (slot ≠ index) then scan_tv1 fuel b index slot else Some None
      end
  end.

(** The loop over one bucket of a higher level. *)
Definition bucket_step (b : tvec_base) (fe : bool * Z) (t : nat) : bool * Z :=
  match timers b !! t with
  | Some tm =>
      if deferrable tm then fe
      else (true, if decide (time_before (expires tm) fe.2) then expires tm else fe.2)
  | None => fe
  end.

Definition bucket_min (b : tvec_base) (k : nat * Z) (fe : bool * Z) : bool * Z :=
  fold_left (bucket_step b) (vec b k) fe.

(** How the search of a level ends: [return expires], or on to the next level. *)
Inductive scan_end := Return (e : Z) | Next (found : bool) (e : Z).

Fixpoint scan_tv (fuel : nat) (b : tvec_base) (n : nat) (index slot : Z) (fe : bool * Z)
    : option scan_end :=
  match fuel with
  | O => None
  | S fuel =>
      let '(found, e) := bucket_min b (n, slot) fe in
      if found : bool then
        if decide (index = 0 ∨ slot < index) then Some (Next true e) else Some (Return e)
      else
        let slot := Z.land (slot + 1) TVN_MASK in
        if decide (slot ≠ index) then scan_tv fuel b n index slot (found, e)
        else Some (Next found e)
  end.

(** [timer_jiffies] in units of the next level, rounded up. *)
Definition next_unit (tj index size bits : Z) : Z :=
  Z.shiftr (if decide (index ≠ 0) then u64 (tj + (size - index)) else tj) bits.

Fixpoint scan_arrays (b : tvec_base) (arrays : list nat) (tj : Z) (fe : bool * Z) : option Z :=
  match arrays with
  | [] => Some fe.2
  | n :: arrays =>
      let index := Z.land tj TVN_MASK in
      r ← scan_tv 64 b n index index fe;
      match r with
      | Return e => Some e
      | Next found e => scan_arrays b arrays (next_unit tj index TVN_SIZE TVN_BITS) (found, e)
      end
  end.

Definition __next_timer_interrupt (b : tvec_base) : option Z :=
  let tj := timer_jiffies b in
  let e := u64 (tj + NEXT_TIMER_MAX_DELTA) in
  let index := Z.land tj TVR_MASK in
  let cascade fe := scan_arrays b [1; 2; 3; 4]%nat (next_unit tj index TVR_SIZE TVR_BITS) fe in
  r ← scan_tv1 256 b index index;
  match r with
  | Some (e, slot) => if decide (index = 0 ∨ slot < index) then cascade (true, e) else Some e
  | None => cascade (false, e)
  end.

(** [hr_delta] is the time to the next high resolution timer in nanoseconds,
    [None] for [KTIME_MAX]; [to_jiffies] converts it. *)
Definition cmp_next_hrtimer_event (to_jiffies : Z → Z) (hr_delta : option Z) (now e : Z) : Z :=
  match hr_delta with
  | None => e
  | Some d =>
      if decide (d ≤ 0) then u64 (now + 1)
      else
        let delta := to_jiffies d in
        let delta := if decide (delta > NEXT_TIMER_MAX_DELTA) then NEXT_TIMER_MAX_DELTA else delta in
        let delta := if decide (delta < 1) then 1 else delta in
        let now := u64 (now + delta) in
        if decide (time_before now e) then now else e
  end.

Definition get_next_timer_interrupt (to_jiffies : Z → Z) (hr_delta : option Z)
    (cpu_offline : bool) (b : tvec_base) (now : Z) : option (tvec_base * Z) :=
  let e := u64 (now + NEXT_TIMER_MAX_DELTA) in
  if cpu_offline then Some (b, e)
  else
    '(b, e) ← (if decide (active_timers b ≠ 0) then
                 b ← (if decide (time_after_eq (timer_jiffies b) (next_timer b)) then
                        nt ← __next_timer_interrupt b;
                        Some (set_counts nt (active_timers b) b)
                      else Some b);
                 Some (b, next_timer b)
               else Some (b, e));
    if decide (time_after_eq now e) then Some (b, now)
    else Some (b, cmp_next_hrtimer_event to_jiffies hr_delta now e).

(** * Buckets in the order of the search *)

(** Every deadline is within the range of the wheel, and timers in [tv5] are in
    the bucket of their deadline. *)
Definition wheel_near (b : tvec_base) : Prop :=
  ∀ t tm, t ∈ pending b → timers b !! t = Some tm →
    - 2 ^ 62 ≤ s64 (expires tm - timer_jiffies b) ≤ MAX_TVAL ∧
    ∀ i, t ∈ vec b (4%nat, i) → i = Z.land (Z.shiftr (expires tm) 26) TVN_MASK.

(** [now] in units of level [n], rounded up. *)
Definition unit_of (now : Z) (n : nat) : Z := (now + 2 ^ sh n - 1) / 2 ^ sh n.

Lemma sh_pos n : 0 < 2 ^ sh n.
Proof. apply Z.pow_pos_nonneg; [lia|]. destruct n; unfold sh, TVR_BITS, TVN_BITS; lia. Qed.

Lemma unit_of_bound now n : now ≤ unit_of now n * 2 ^ sh n < now + 2 ^ sh n.
Proof.
  pose proof (sh_pos n). unfold unit_of.
  pose proof (Z.div_mod (now + 2 ^ sh n - 1) (2 ^ sh n) ltac:(lia)).
  pose proof (Z.mod_pos_bound (now + 2 ^ sh n - 1) (2 ^ sh n) ltac:(lia)). lia.
Qed.

Lemma unit_of_least now n q : now ≤ q * 2 ^ sh n → unit_of now n ≤ q.
Proof. pose proof (sh_pos n). pose proof (unit_of_bound now n). nia. Qed.

(** From one level to the next. *)
Lemma unit_of_step now n :
  (1 ≤ n)%nat →
  let N := unit_of now n in
  unit_of now (S n) = (if decide (N mod 64 ≠ 0) then N + (64 - N mod 64) else N) / 64.
Proof.
  intros Hn N. pose proof (sh_pos n). pose proof (unit_of_bound now n) as HN. fold N in HN.
  set (q := (if decide _ then _ else _) / 64).
  assert (64 * q - 64 < N ≤ 64 * q) as Hq by (unfold q; case_decide; dlia).
  assert (2 ^ sh (S n) = 64 * 2 ^ sh n) as E.
  { rewrite sh_step by done. rewrite Z.pow_add_r by (destruct n; unfold sh, TVR_BITS, TVN_BITS; lia). lia. }
  pose proof (unit_of_bound now (S n)) as HM. rewrite E in HM. set (M := unit_of now (S n)) in *.
  assert (M ≤ q) by (apply unit_of_least; rewrite E; nia).
  assert (q ≤ M); [|lia]. nia.
Qed.

Section search.
Context (b : tvec_base) (G : gmap nat (place * Z)) (now : Z).
Context (W : wheel_rep b G now 0) (Hp : pending b = dom G) (Hnear : wheel_near b).

(** A timer that is not deferrable, in bucket [i] of level [n], due at [x]. *)
Definition active_at (n : nat) (i : Z) (t : nat) (x : Z) : Prop :=
  counts (timers b) t ∧ G !! t = Some (InVec (n, i), x).

Lemma active_vec n i t x : active_at n i t x → t ∈ vec b (n, i) ∧ counts (timers b) t.
Proof using W. intros [Hc Hg]. split; [|done]. apply (w_vec _ _ _ _ W). by exists x. Qed.

Lemma vec_active n i t : t ∈ vec b (n, i) → counts (timers b) t → ∃ x, active_at n i t x.
Proof using W. intros [x Hx]%(w_vec _ _ _ _ W) Hc. by exists x. Qed.

Lemma counts_timer t : counts (timers b) t → ∃ tm, timers b !! t = Some tm ∧ deferrable tm = false.
Proof. unfold counts. destruct (timers b !! t) as [tm|]; [|done]. cbn. intros [= H]. by exists tm. Qed.

(** The deadline of a timer of a higher level. *)
Lemma active_expires n i t x :
  active_at (S n) i t x →
  now ≤ x ≤ now + MAX_TVAL ∧ ∃ tm, timers b !! t = Some tm ∧ deferrable tm = false ∧ expires tm = u64 x.
Proof using W Hp Hnear.
  intros [Hc Hg]. destruct (counts_timer t Hc) as (tm & Htm & Hdf).
  destruct (w_loc _ _ _ _ W t _ x Hg) as [Hl (tm' & Htm' & [[Hx He]|[[=] _]])]. simplify_eq.
  assert (now ≤ x) as Hnx by (destruct Hl as (_ & B & HB & HBx & _); case_decide; lia).
  split; [|by exists tm].
  destruct (Hnear t tm) as [[_ Hn] _]; [rewrite Hp; by eapply elem_of_dom_2|done|].
  rewrite He, (w_jiffies _ _ _ _ W), s64_diff in Hn by lia. lia.
Qed.

(** The buckets of level [n] from the first one that is still to be cascaded. *)
Lemma active_bucket n i t x :
  active_at (S n) i t x →
  let N := unit_of now (S n) in
  ∃ j, 0 ≤ j < 64 ∧ i = (N + j) mod 64 ∧
    (N + j) * 2 ^ sh (S n) ≤ x < (N + j + 1) * 2 ^ sh (S n).
Proof using W Hp Hnear.
  intros Ha N. destruct (active_expires n i t x Ha) as ([Hx0 Hx1] & tm & Htm & _ & He).
  destruct Ha as [Hc Hg]. destruct (w_loc _ _ _ _ W t _ x Hg) as [(Hn & B & HB & HBx & HB6 & [q HBq] & Hi & Hlt) _].
  cbn [fst snd] in *. rewrite decide_False in HB by lia. pose proof (sh_pos (S n)) as Hpos.
  set (p := 2 ^ sh (S n)) in *. rewrite HBq, Z.div_mul in Hi by lia.
  assert (x < (q + 1) * p) as Hxp.
  { destruct (decide (S n < 4)%nat) as [H4|H4]; [specialize (Hlt H4); lia|].
    assert (n = 3%nat) as -> by lia.
    destruct (Hnear t tm) as [_ H5]; [rewrite Hp; by eapply elem_of_dom_2|done|].
    specialize (H5 i). rewrite He, (tvn_bits x 26) in H5 by lia.
    assert (i = (x / 2 ^ 26) mod 64) as Hi2 by (apply H5, (w_vec _ _ _ _ W); by exists x).
    unfold p in *. clear H5 Hlt HB6. wheel_pow. dlia. }
  pose proof (unit_of_bound now (S n)) as HN. fold N p in HN.
  assert (N ≤ q) by (apply unit_of_least; fold p; lia).
  exists (q - N). rewrite Z.pow_add_r in HB6 by (unfold sh, TVR_BITS, TVN_BITS; lia). fold p in HB6.
  change (2 ^ 6) with 64 in HB6. split_and!; [lia|nia|rewrite Hi; f_equal; lia|nia|nia].
Qed.

(** ** One bucket *)

Lemma time_before_u64 x y : - 2 ^ 63 ≤ x - y < 2 ^ 63 → time_before (u64 x) (u64 y) ↔ x < y.
Proof. intros H. unfold time_before. rewrite s64_diff by done. lia. Qed.

(** Times that can be compared: not too far back, within the range of the wheel. *)
Definition comparable (V : Z) : Prop := now - 2 ^ 62 ≤ V ≤ now + 2 ^ 32.

Lemma bucket_fold_ok n i l : ∀ (found : bool) V,
  (∀ t, t ∈ l → t ∈ vec b (S n, i)) → comparable V →
  ∃ found' V', fold_left (bucket_step b) l (found, u64 V) = (found', u64 V') ∧ comparable V' ∧
    ((found' : bool) ↔ found ∨ ∃ t x, t ∈ l ∧ active_at (S n) i t x) ∧
    V' ≤ V ∧ (∀ t x, t ∈ l → active_at (S n) i t x → V' ≤ x) ∧
    (V' = V ∨ ∃ t, active_at (S n) i t V').
Proof using W Hp Hnear.
  induction l as [|t l IH]; intros found V Hl HV.
  { exists found, V. split_and!; try done; [| |by left].
    - split; [by left|]. intros [?|(t & x & Ht & _)]; [done|]. by apply elem_of_nil in Ht.
    - intros t x Ht. by apply elem_of_nil in Ht. }
  assert (∀ u, u ∈ l → u ∈ vec b (S n, i)) as Hl' by (intros u Hu; apply Hl; by right).
  cbn [fold_left]. unfold bucket_step at 2. cbn [fst snd].
  destruct (decide (counts (timers b) t)) as [Hc|Hc].
  - destruct (vec_active (S n) i t) as [x Hx]; [apply Hl; by left|done|].
    destruct (active_expires n i t x Hx) as (Hxr & tm & -> & -> & ->). unfold MAX_TVAL in Hxr.
    assert ((if decide (time_before (u64 x) (u64 V)) then u64 x else u64 V) = u64 (Z.min x V)) as ->.
    { pose proof (time_before_u64 x V ltac:(unfold comparable in *; lia)) as Htb. case_decide as Hd; rewrite Htb in Hd; f_equal; lia. }
    destruct (IH true (Z.min x V) Hl' ltac:(unfold comparable in *; lia)) as (f' & V' & E & HR & Hf & H1 & H2 & H3).
    exists f', V'. split_and!; try done; [|lia| |].
    + split; [intros _; right; exists t, x; split; [by left|done]|]. intros _. apply Hf. by left.
    + intros u y [->|Hu]%elem_of_cons Hy; [|by eapply H2]. destruct Hx, Hy. simplify_eq. lia.
    + destruct H3 as [->|?]; [|by right]. destruct (Z.min_spec x V) as [[_ ->]|[_ ->]]; [right; by exists t|by left].
  - assert (match timers b !! t with
      | Some tm => if deferrable tm then (found, u64 V)
                   else (true, if decide (time_before (expires tm) (u64 V)) then expires tm else u64 V)
      | None => (found, u64 V) end = (found, u64 V)) as ->.
    { unfold counts in Hc. destruct (timers b !! t) as [tm|]; [|done]. cbn in Hc. by destruct (deferrable tm). }
    destruct (IH found V Hl' HV) as (f' & V' & E & HR & Hf & H1 & H2 & H3).
    exists f', V'. split_and!; try done.
    + rewrite Hf. split; (intros [?|(u & x & Hu & Hx)]; [by left|right]); exists u, x.
      * split; [by right|done].
      * apply elem_of_cons in Hu as [->|Hu]; [by destruct Hx|done].
    + intros u y [->|Hu]%elem_of_cons Hy; [by destruct Hy|by eapply H2].
Qed.

Lemma bucket_min_ok n i (found : bool) V :
  comparable V →
  ∃ found' V', bucket_min b (S n, i) (found, u64 V) = (found', u64 V') ∧ comparable V' ∧
    ((found' : bool) ↔ found ∨ ∃ t x, active_at (S n) i t x) ∧
    V' ≤ V ∧ (∀ t x, active_at (S n) i t x → V' ≤ x) ∧
    (V' = V ∨ ∃ t, active_at (S n) i t V').
Proof using W Hp Hnear.
  intros HV. destruct (bucket_fold_ok n i (vec b (S n, i)) found V) as (f' & V' & E & HR & Hf & H1 & H2 & H3);
    [done|done|]. exists f', V'. split_and!; try done.
  - rewrite Hf. split; (intros [?|(t & x & H)]; [by left|right]); exists t, x; [apply H|].
    split; [|done]. by eapply active_vec.
  - intros t x Hx. eapply H2; [|done]. by eapply active_vec.
Qed.

(** ** One level *)

Lemma tvn_next x : Z.land (x mod 64 + 1) TVN_MASK = (x + 1) mod 64.
Proof. change TVN_MASK with (Z.ones 6). rewrite Z.land_ones by lia. change (2 ^ 6) with 64. apply Zplus_mod_idemp_l. Qed.

Lemma sh_pow n : (1 ≤ n)%nat → 2 ^ sh (S n) = 64 * 2 ^ sh n.
Proof.
  intros Hn. rewrite sh_step by done.
  rewrite Z.pow_add_r by (destruct n; unfold sh, TVR_BITS, TVN_BITS; lia). lia.
Qed.

(** What the search of a level leaves to the next ones. *)
Definition level_end (n : nat) (found : bool) (V V' : Z) (r : scan_end) : Prop :=
  match r with
  | Return e => e = u64 V' ∧ V' < unit_of now (S n) * 2 ^ sh (S n)
  | Next f e => e = u64 V' ∧ (f → V' < (unit_of now (S n) + 1) * 2 ^ sh (S n)) ∧
      (f = false → found = false ∧ V' = V)
  end.

(** [V'] is the minimum of [V] and the due ticks of the timers at the levels
    for which [L] holds. *)
Definition min_over (L : nat → Prop) (V V' : Z) : Prop :=
  comparable V' ∧ V' ≤ V ∧ (∀ m i t x, L m → active_at m i t x → V' ≤ x) ∧
  (V' = V ∨ ∃ m i t, active_at m i t V').

(** The last bucket looked at is number [j]. *)
Lemma level_stop n j V' e :
  let N := unit_of now (S n) in
  0 ≤ j < 64 → e = u64 V' → V' < (N + j + 1) * 2 ^ sh (S n) →
  level_end (S n) true V' V'
    (if decide (N mod 64 = 0 ∨ (N + j) mod 64 < N mod 64) then Next true e else Return e).
Proof.
  intros N Hj -> HV. pose proof (sh_pos (S n)) as Hpos.
  pose proof (unit_of_step now (S n) ltac:(lia)) as HM. fold N in HM. cbn zeta in HM.
  pose proof (sh_pow (S n) ltac:(lia)) as Hsp.
  set (M := unit_of now (S (S n))) in *. set (p := 2 ^ sh (S n)) in *. unfold level_end. fold M. rewrite Hsp.
  assert (N ≤ 64 * M) by (rewrite HM; case_decide; dlia).
  destruct (decide (_ ∨ _)) as [Hi|Hi].
  - split_and!; [done| |done]. intros _. nia.
  - split; [done|]. rewrite decide_True in HM by tauto.
    assert (N + j + 1 ≤ 64 * M) by dlia. nia.
Qed.

Lemma scan_tv_ok n fuel : ∀ j (found : bool) V,
  let N := unit_of now (S n) in
  0 ≤ j < 64 → Z.of_nat fuel = 64 - j → comparable V →
  (found → j = 0 ∧ V < (N + 1) * 2 ^ sh (S n)) →
  (∀ i t x, active_at (S n) i t x → (N + j) * 2 ^ sh (S n) ≤ x) →
  ∃ r V', scan_tv fuel b (S n) (N mod 64) ((N + j) mod 64) (found, u64 V) = Some r ∧
    min_over (eq (S n)) V V' ∧ level_end (S n) found V V' r.
Proof using W Hp Hnear.
  induction fuel as [|fuel IH]; intros j found V N Hj Hf HV Hfd Hlow; [lia|].
  pose proof (sh_pos (S n)) as Hpos. cbn [scan_tv].
  assert (∀ i t x, active_at (S n) i t x → i = (N + j) mod 64 ∧ x < (N + j + 1) * 2 ^ sh (S n) ∨
    (N + j + 1) * 2 ^ sh (S n) ≤ x) as Hcase.
  { intros i t x Ha. specialize (Hlow i t x Ha).
    destruct (active_bucket n i t x Ha) as (j' & Hj' & -> & Hx). fold N in Hx.
    assert (j ≤ j') by nia. destruct (decide (j' = j)) as [->|]; [left; split; [done|apply Hx]|right; nia]. }
  destruct (bucket_min_ok n ((N + j) mod 64) found V HV) as (f' & V' & -> & HR & Hf' & H1 & H2 & H3).
  destruct f'.
  - assert (V' < (N + j + 1) * 2 ^ sh (S n)) as HV'.
    { destruct (proj1 Hf' I) as [Hfo|(t & x & Ha)]; [destruct (Hfd Hfo) as [-> ?]; nia|].
      specialize (H2 t x Ha). destruct (active_bucket n _ t x Ha) as (j' & Hj' & Hi & Hx). fold N in Hi, Hx.
      assert (j' = j) as -> by dlia. nia. }
    pose proof (level_stop n j V' (u64 V') Hj eq_refl HV') as Hend. fold N in Hend.
    assert (min_over (eq (S n)) V V') as Hm.
    { split_and!; try done.
      - intros m i t x <- Ha. destruct (Hcase i t x Ha) as [[-> _]|?]; [by eapply H2|lia].
      - destruct H3 as [->|[t Ha]]; [by left|right; eauto]. }
    destruct (decide (_ ∨ _)); eexists _, V'; (split; [done|]); (split; [done|]); [|exact Hend].
    destruct Hend as (He & Hn & _). by split_and!.
  - destruct found; [by destruct (proj2 Hf' (or_introl I))|].
    assert (∀ t x, ¬ active_at (S n) ((N + j) mod 64) t x) as Hnone.
    { intros t x Ha. destruct (proj2 Hf'). right. by exists t, x. }
    assert (V' = V) as -> by (destruct H3 as [?|[t Ha]]; [done|by destruct (Hnone _ _ Ha)]).
    assert (∀ i t x, active_at (S n) i t x → (N + (j + 1)) * 2 ^ sh (S n) ≤ x) as Hlow'.
    { intros i t x Ha. destruct (Hcase i t x Ha) as [[-> _]|?]; [by destruct (Hnone _ _ Ha)|].
      by rewrite Z.add_assoc. }
    rewrite tvn_next, <- Z.add_assoc. destruct (decide _) as [Hne|Heq].
    + assert (j + 1 < 64) by (destruct (decide (j = 63)) as [->|]; [destruct Hne; dlia|lia]).
      apply IH; try done; lia.
    + assert ((N + (j + 1)) mod 64 = N mod 64) as Heq' by (by destruct (decide ((N + (j + 1)) mod 64 = N mod 64))).
      assert (j = 63) as -> by dlia. eexists _, V. split; [done|]. split; [|by split_and!].
      split_and!; try done; [|by left]. intros m i t x <- Ha. exfalso.
      specialize (Hlow' i t x Ha). destruct (active_bucket n i t x Ha) as (j' & Hj' & _ & Hx). fold N in Hx. nia.
Qed.

(** ** All levels *)

(** [tj] is the unit [X] modulo the bits that are left. *)
Definition unit_repr (tj X w : Z) : Prop := ∃ k, tj = X + k * 2 ^ w.

Lemma repr_mask tj X w bits :
  unit_repr tj X w → 0 ≤ bits ≤ w → Z.land tj (Z.ones bits) = X mod 2 ^ bits.
Proof.
  intros [k ->] Hb. rewrite Z.land_ones by lia.
  assert (2 ^ w = 2 ^ (w - bits) * 2 ^ bits) as -> by (rewrite <- Z.pow_add_r by lia; f_equal; lia).
  rewrite Z.mul_assoc. apply Z_mod_plus_full.
Qed.

Lemma next_unit_repr tj X w bits :
  unit_repr tj X w → 0 ≤ bits ≤ w → w ≤ 64 →
  let i := X mod 2 ^ bits in
  unit_repr (next_unit tj i (2 ^ bits) bits)
    ((if decide (i ≠ 0) then X + (2 ^ bits - i) else X) / 2 ^ bits) (w - bits).
Proof.
  intros [k ->] Hb Hw i. unfold next_unit, unit_repr.
  assert (0 < 2 ^ bits) by (apply Z.pow_pos_nonneg; lia).
  assert (2 ^ w = 2 ^ (w - bits) * 2 ^ bits) as Ew by (rewrite <- Z.pow_add_r by lia; f_equal; lia).
  assert (2 ^ 64 = 2 ^ (64 - w) * 2 ^ w) as E64 by (rewrite <- Z.pow_add_r by lia; f_equal; lia).
  rewrite Z.shiftr_div_pow2 by lia. case_decide.
  - set (y := X + k * 2 ^ w + _). exists (k - y / 2 ^ 64 * 2 ^ (64 - w)).
    assert (u64 y = X + (2 ^ bits - i) + (k - y / 2 ^ 64 * 2 ^ (64 - w)) * 2 ^ (w - bits) * 2 ^ bits) as ->.
    { unfold wrap. pose proof (Z.div_mod y (2 ^ 64) ltac:(lia)) as Hy.
      rewrite <- Z.mul_assoc, <- Ew, Z.mul_sub_distr_r, <- Z.mul_assoc, <- E64. unfold y at 1 in Hy. lia. }
    rewrite Z.div_add by lia. done.
  - exists k. rewrite Ew, Z.mul_assoc, Z.div_add by lia. done.
Qed.

Lemma unit_mono n m :
  (1 ≤ n ≤ m)%nat → unit_of now n * 2 ^ sh n ≤ unit_of now m * 2 ^ sh m.
Proof.
  intros Hnm. destruct (sh_divide n m Hnm) as [q Hq]. pose proof (unit_of_bound now m) as Hm.
  pose proof (sh_pos n). rewrite Hq, Z.mul_assoc in *.
  apply Z.mul_le_mono_nonneg_r; [lia|]. apply unit_of_least. lia.
Qed.

Lemma scan_arrays_ok k : ∀ n tj (found : bool) V,
  (1 ≤ n)%nat → (n + k = 5)%nat → unit_repr tj (unit_of now n) (64 - sh n) → comparable V →
  (found → V < (unit_of now n + 1) * 2 ^ sh n) →
  ∃ V', scan_arrays b (seq n k) tj (found, u64 V) = Some (u64 V') ∧
    min_over (λ m, (n ≤ m)%nat) V V'.
Proof using W Hp Hnear.
  induction k as [|k IH]; intros n tj found V Hn Hk Htj HV Hf; cbn [seq scan_arrays].
  { exists V. split; [done|]. split_and!; [done|done| |by left]. intros m i t x Hm [_ Hg].
    destruct (w_loc _ _ _ _ W t _ x Hg) as [Hl _]. destruct m as [|m]; [lia|]. destruct Hl as [Hl _]. cbn in Hl. lia. }
  destruct n as [|n]; [lia|]. set (N := unit_of now (S n)) in *.
  assert (0 ≤ sh (S n) ≤ 26) as Hsh by (unfold sh, TVR_BITS, TVN_BITS; lia).
  assert (Z.land tj TVN_MASK = N mod 64) as -> by (apply (repr_mask tj N (64 - sh (S n)) 6); [done|lia]).
  destruct (scan_tv_ok n 64 0 found V) as (r & V1 & E & (HR1 & Hle1 & Hlow1 & Hat1) & Hend); try done.
  { intros Hx. split; [done|]. by apply Hf. }
  { intros i t x Ha. destruct (active_bucket n i t x Ha) as (j & Hj & _ & Hx). pose proof (sh_pos (S n)). nia. }
  fold N in E. rewrite Z.add_0_r in E. rewrite E. cbn [mbind option_bind].
  destruct r as [e|f e]; destruct Hend as (-> & Hend).
  - exists V1. split; [done|]. split_and!; [done|done| |done].
    intros m i t x Hm Ha. destruct (decide (m = S n)) as [->|Hne]; [by eapply Hlow1|].
    destruct m as [|m]; [lia|]. destruct (active_bucket m i t x Ha) as (j & Hj & _ & Hx).
    pose proof (unit_mono (S (S n)) (S m) ltac:(lia)). pose proof (sh_pos (S m)). nia.
  - destruct Hend as [Hend _]. pose proof (next_unit_repr tj N (64 - sh (S n)) 6 Htj ltac:(lia) ltac:(lia)) as Hnu.
    cbn zeta in Hnu. change (2 ^ 6) with TVN_SIZE in Hnu. unfold N in Hnu at 4.
    assert (64 - sh (S n) - 6 = 64 - sh (S (S n))) as Es by (rewrite (sh_step (S n)) by lia; lia).
    rewrite Es in Hnu. pose proof (unit_of_step now (S n) ltac:(lia)) as HM. cbn zeta in HM.
    change 64 with TVN_SIZE in HM. fold N in HM, Hnu. rewrite <- HM in Hnu.
    destruct (IH (S (S n)) _ f V1 ltac:(lia) ltac:(lia) Hnu HR1 Hend) as (V2 & E2 & HR2 & Hle2 & Hlow2 & Hat2).
    exists V2. split; [exact E2|]. split_and!; [done|lia| |].
    + intros m i t x Hm Ha. destruct (decide (m = S n)) as [->|Hne].
      * specialize (Hlow1 (S n) i t x eq_refl Ha). lia.
      * eapply Hlow2; [|done]. lia.
    + destruct Hat2 as [->|?]; [done|by right].
Qed.

(** ** The first vector *)

Context (Hok : timers_ok b).

Lemma tvr_next x : Z.land (x mod 256 + 1) TVR_MASK = (x + 1) mod 256.
Proof. change TVR_MASK with (Z.ones 8). rewrite Z.land_ones by lia. change (2 ^ 8) with 256. apply Zplus_mod_idemp_l. Qed.

Lemma active_tv1 i t x : active_at 0 i t x → now ≤ x < now + 256 ∧ i = x mod 256.
Proof using W. intros [_ Hg]. by destruct (w_loc _ _ _ _ W t _ x Hg) as [Hl _]. Qed.

(** The deadline of a timer in [tv1], as a time that may be in the past. *)
Lemma tv1_deadline i t x :
  active_at 0 i t x →
  ∃ tm V, timers b !! t = Some tm ∧ expires tm = u64 V ∧ comparable V ∧ Z.max now V = x.
Proof using W Hp Hnear Hok.
  intros Ha. destruct (active_tv1 i t x Ha) as [Hx _]. destruct Ha as [_ Hg].
  destruct (w_loc _ _ _ _ W t _ x Hg) as [_ (tm & Htm & [[_ He]|(_ & -> & He)])]; unfold comparable.
  { exists tm, x. split_and!; try done; lia. }
  destruct (Hnear t tm) as [[Hn _] _]; [rewrite Hp; by eapply elem_of_dom_2|done|].
  rewrite (w_jiffies _ _ _ _ W) in Hn.
  assert (s64 (expires tm - u64 now) = s64 (expires tm - now)) as Es.
  { rewrite <- (swrap_wrap 64), <- (swrap_wrap 64 (_ - now)) by lia. f_equal. unfold wrap. apply Zminus_mod_idemp_r. }
  rewrite Es in Hn. exists tm, (now + s64 (expires tm - now)). split_and!; [done| |lia|lia|lia].
  pose proof (Hok t tm Htm) as [H0 H1]. unfold swrap, wrap.
  rewrite Z.add_sub_assoc, Zminus_mod, Zplus_mod_idemp_r, <- Zminus_mod.
  replace (now + (expires tm - now + 2 ^ (64 - 1)) - 2 ^ (64 - 1)) with (expires tm) by lia.
  symmetry. by apply Z.mod_small.
Qed.

Lemma first_active_ok i :
  match first_active b (0%nat, i) with
  | None => ∀ t x, ¬ active_at 0 i t x
  | Some e => ∃ t x V, active_at 0 i t x ∧ e = u64 V ∧ comparable V ∧ Z.max now V = x
  end.
Proof using W Hp Hnear Hok.
  unfold first_active. destruct (filter (counts (timers b)) (vec b (0%nat, i))) as [|t l] eqn:El; cbn [head mbind option_bind].
  - intros t x [Hv Hc]%active_vec. apply (not_elem_of_nil t). rewrite <- El. by apply list_elem_of_filter.
  - assert (t ∈ filter (counts (timers b)) (vec b (0%nat, i))) as [Hc Hv]%list_elem_of_filter by (rewrite El; by left).
    destruct (vec_active 0 i t Hv Hc) as [x Ha].
    destruct (tv1_deadline i t x Ha) as (tm & V & -> & He & HV & Hx). cbn. by exists t, x, V.
Qed.

Lemma scan_tv1_ok fuel : ∀ j,
  0 ≤ j < 256 → Z.of_nat fuel = 256 - j →
  (∀ i t x, active_at 0 i t x → now + j ≤ x) →
  ∃ r, scan_tv1 fuel b (now mod 256) ((now + j) mod 256) = Some r ∧
    match r with
    | None => ∀ i t x, ¬ active_at 0 i t x
    | Some (e, slot) => ∃ j' t V, 0 ≤ j' < 256 ∧ slot = (now + j') mod 256 ∧ e = u64 V ∧ comparable V ∧
        Z.max now V = now + j' ∧ active_at 0 slot t (now + j') ∧
        ∀ i t x, active_at 0 i t x → now + j' ≤ x
    end.
Proof using W Hp Hnear Hok.
  induction fuel as [|fuel IH]; intros j Hj Hf Hlow; [lia|]. cbn [scan_tv1].
  pose proof (first_active_ok ((now + j) mod 256)) as Hfa.
  destruct (first_active b (0%nat, (now + j) mod 256)) as [e|].
  - destruct Hfa as (t & x & V & Ha & -> & HV & Hm). destruct (active_tv1 _ t x Ha) as [Hx Hi].
    assert (x = now + j) as -> by dlia. eexists. split; [done|]. exists j, t, V. split_and!; done || lia.
  - assert (∀ i t x, active_at 0 i t x → now + (j + 1) ≤ x) as Hlow'.
    { intros i t x Ha. specialize (Hlow i t x Ha). destruct (active_tv1 i t x Ha) as [Hx Hi].
      destruct (decide (x = now + j)) as [->|]; [|lia]. rewrite Hi in Ha. by destruct (Hfa _ _ Ha). }
    rewrite tvr_next, <- Z.add_assoc. destruct (decide _) as [Hne|Heq].
    + apply IH; try done; [|lia].
      assert (j ≠ 255) by (intros ->; destruct Hne; dlia). lia.
    + eexists. split; [done|]. intros i t x Ha. specialize (Hlow' i t x Ha). destruct (active_tv1 i t x Ha).
      assert ((now + (j + 1)) mod 256 = now mod 256) as Heq' by (by destruct (decide ((now + (j + 1)) mod 256 = now mod 256))).
      assert (j = 255) by dlia. lia.
Qed.

Lemma unit_of_1 : unit_of now 1 = (if decide (now mod 256 ≠ 0) then now + (256 - now mod 256) else now) / 256.
Proof. unfold unit_of. change (2 ^ sh 1) with 256. case_decide; dlia. Qed.

(** The answer, as a time [V] that may be in the past. *)
Lemma next_timer_ok :
  ∃ V, __next_timer_interrupt b = Some (u64 V) ∧ comparable V ∧ V ≤ now + NEXT_TIMER_MAX_DELTA ∧
    (∀ m i t x, active_at m i t x → Z.max now V ≤ x) ∧
    (V = now + NEXT_TIMER_MAX_DELTA ∨ ∃ m i t, active_at m i t (Z.max now V)).
Proof using W Hp Hnear Hok.
  unfold __next_timer_interrupt. rewrite (w_jiffies _ _ _ _ W), tvr_bits.
  set (D := now + NEXT_TIMER_MAX_DELTA).
  assert (u64 (u64 now + NEXT_TIMER_MAX_DELTA) = u64 D) as -> by apply u64_add.
  assert (comparable D) as HD by (unfold comparable, D, NEXT_TIMER_MAX_DELTA; lia).
  assert (unit_repr (next_unit (u64 now) (now mod 256) TVR_SIZE TVR_BITS) (unit_of now 1) (64 - sh 1)) as Htj.
  { rewrite unit_of_1. apply (next_unit_repr (u64 now) now 64 8); [|lia..]. exists (- (now / 2 ^ 64)).
    unfold wrap. rewrite Z.mod_eq by lia. lia. }
  destruct (scan_tv1_ok 256 0) as (r & E & Hr); [lia|done|intros i t x Ha; destruct (active_tv1 i t x Ha); lia|].
  rewrite Z.add_0_r in E. rewrite E. cbn [mbind option_bind].
  destruct r as [[e slot]|].
  - destruct Hr as (j & t & V & Hj & Hslot & -> & HV & Hm & Ha & Hlow).
    pose proof (unit_of_bound now 1) as HU. change (2 ^ sh 1) with 256 in HU.
    destruct (decide (now mod 256 = 0 ∨ slot < now mod 256)) as [Hw|Hw].
    + destruct (scan_arrays_ok 4 1 _ true V ltac:(lia) eq_refl Htj HV) as (V' & E' & HV' & Hle & Hl' & Hat).
      { intros _. change (2 ^ sh 1) with 256. lia. }
      exists V'. split_and!; [exact E'|exact HV'|unfold D, NEXT_TIMER_MAX_DELTA; lia| |].
      * intros [|m] i u x Hu; [specialize (Hlow i u x Hu); lia|].
        specialize (Hl' (S m) i u x ltac:(lia) Hu). destruct (active_expires m i u x Hu). lia.
      * destruct Hat as [->|(m & i & u & Hu)]; [right; exists 0%nat, slot, t; by rewrite Hm|].
        right. exists m, i, u. replace (Z.max now V') with V'; [done|].
        destruct m as [|m]; [destruct (active_tv1 i u V' Hu); lia|destruct (active_expires m i u V' Hu); lia].
    + exists V. split_and!; [done|exact HV|unfold D, NEXT_TIMER_MAX_DELTA; lia| |].
      * intros [|m] i u x Hu; [specialize (Hlow i u x Hu); lia|].
        destruct (active_bucket m i u x Hu) as (j' & Hj' & _ & Hx).
        pose proof (unit_mono 1 (S m) ltac:(lia)) as Hmono. change (2 ^ sh 1) with 256 in Hmono.
        pose proof (sh_pos (S m)). assert (unit_of now (S m) * 2 ^ sh (S m) ≤ x) by nia.
        assert (now + j < unit_of now 1 * 256) by (subst slot; dlia). lia.
      * right. exists 0%nat, slot, t. by rewrite Hm.
  - destruct (scan_arrays_ok 4 1 _ false D ltac:(lia) eq_refl Htj HD) as (V' & E' & HV' & Hle & Hl' & Hat); [done|].
    exists V'. split_and!; [exact E'|exact HV'|exact Hle| |].
    + intros [|m] i u x Hu; [by destruct (Hr i u x)|].
      specialize (Hl' (S m) i u x ltac:(lia) Hu). destruct (active_expires m i u x Hu). lia.
    + destruct Hat as [->|(m & i & u & Hu)]; [by left|]. right. exists m, i, u.
      replace (Z.max now V') with V'; [done|].
      destruct m as [|m]; [destruct (active_tv1 i u V' Hu); lia|destruct (active_expires m i u V' Hu); lia].
Qed.
End search.

Lemma due_of_max now V : now - 2 ^ 62 ≤ V ≤ now + 2 ^ 32 → due_of now (u64 V) = Z.max now V.
Proof.
  intros HV. destruct (decide (now ≤ V)); [rewrite due_of_exact by lia; lia|].
  unfold due_of. assert (u64 (u64 V - now) = V - now + 2 ^ 64) as ->.
  { rewrite u64_sub. apply wrap_under; lia. }
  rewrite decide_False by lia. lia.
Qed.

(** C26: [__next_timer_interrupt] returns the deadline of a timer that is due
    first among those that are not deferrable, or the time
    [NEXT_TIMER_MAX_DELTA] ticks away if none is due before it, and never one
    further away: the buckets it skips hold nothing earlier, whatever their timers and
    wherever the jiffies counter wraps.  This holds when [wheel_near] does: every
    deadline is at most [MAX_TVAL] ticks ahead, and every timer in [tv5] is in the
    bucket of its deadline, which one that was put there with a deadline beyond the
    range is not. *)
Theorem next_timer_interrupt_correct b a
    (Href : refines b a) (Hw : work_list b = []) (Hnear : wheel_near b) :
  ∃ r, __next_timer_interrupt b = Some r ∧
    due_of (a_now a) r ≤ a_now a + NEXT_TIMER_MAX_DELTA ∧
    (∀ t x, counts (a_timers a) t → a_due a !! t = Some x → due_of (a_now a) r ≤ x) ∧
    (r = u64 (a_now a + NEXT_TIMER_MAX_DELTA) ∨
     ∃ t, counts (a_timers a) t ∧ a_due a !! t = Some (due_of (a_now a) r)).
Proof.
  destruct Href as (G & W & Hok & Hp & Hd & Ht & _).
  destruct (next_timer_ok b G (a_now a) W Hp Hnear Hok) as (V & E & HV & Hmax & Hlow & Hat).
  exists (u64 V). split; [done|]. rewrite due_of_max by apply HV. rewrite Ht.
  split; [unfold NEXT_TIMER_MAX_DELTA in *; lia|]. split.
  - intros t x Hc Hx. rewrite Hd in Hx. unfold due in Hx.
    destruct (G !! t) as [[[[m i]|] y]|] eqn:Eg; cbn in Hx; simplify_eq.
    + by apply (Hlow m i t x).
    + exfalso. apply (not_elem_of_nil t). rewrite <- Hw. apply (w_work _ _ _ _ W). by exists x.
  - destruct Hat as [->|(m & i & t & Hc & Hg)]; [by left|right]. exists t. split; [done|].
    rewrite Hd. unfold due. by rewrite Hg.
Qed.

(** * A timer beyond the range of the wheel *)

(** The search depends on the buckets only through their lists. *)
Section extensional.
Context (b b' : tvec_base).
Context (Ev : ∀ k, vec b k = vec b' k) (Et : timers b = timers b').

Lemma scan_tv1_ext fuel : ∀ index slot, scan_tv1 fuel b index slot = scan_tv1 fuel b' index slot.
Proof using Ev Et.
  induction fuel as [|fuel IH]; intros index slot; [done|]. cbn [scan_tv1].
  assert (first_active b (0%nat, slot) = first_active b' (0%nat, slot)) as ->
    by (unfold first_active; by rewrite Ev, Et).
  destruct (first_active _ _); [done|]. case_decide; [apply IH|done].
Qed.

Lemma bucket_min_ext k fe : bucket_min b k fe = bucket_min b' k fe.
Proof using Ev Et.
  unfold bucket_min. rewrite Ev. generalize (vec b' k). intros l. revert fe.
  induction l as [|t l IH]; intros fe; [done|]. cbn [fold_left]. rewrite IH. unfold bucket_step. by rewrite Et.
Qed.

Lemma scan_tv_ext fuel n : ∀ index slot fe,
  scan_tv fuel b n index slot fe = scan_tv fuel b' n index slot fe.
Proof using Ev Et.
  induction fuel as [|fuel IH]; intros index slot fe; [done|]. cbn [scan_tv]. rewrite bucket_min_ext.
  destruct (bucket_min b' _ fe) as [[] e]; [done|]. case_decide; [apply IH|done].
Qed.

Lemma scan_arrays_ext l : ∀ tj fe, scan_arrays b l tj fe = scan_arrays b' l tj fe.
Proof using Ev Et.
  induction l as [|n l IH]; intros tj fe; [done|]. cbn [scan_arrays]. rewrite scan_tv_ext.
  destruct (scan_tv 64 b' n _ _ fe) as [[e|f e]|]; [done| |done]. apply IH.
Qed.

Lemma next_timer_ext :
  timer_jiffies b = timer_jiffies b' → __next_timer_interrupt b = __next_timer_interrupt b'.
Proof using Ev Et.
  intros Ej. unfold __next_timer_interrupt. rewrite Ej, scan_tv1_ext.
  destruct (scan_tv1 256 b' _ _) as [[[e slot]|]|]; cbn [mbind option_bind]; [|apply scan_arrays_ext|done].
  case_decide; [apply scan_arrays_ext|done].
Qed.
End extensional.

Module FarTimer.

(** Timer 0 is started at 2^27 for 2^40, far beyond the range of the wheel;
    timer 1 is for 2^32 + 2^27 + 5. *)
Definition tms : gmap nat timer_list :=
  {[0%nat := mkTimer (2 ^ 40) 0 false; 1%nat := mkTimer (2 ^ 32 + 2 ^ 27 + 5) 0 false]}.
Definition sov (_ : Z) : Z := 0.
Definition no_calls (_ : nat) : list timer_op := [].

(** Timer 0 alone on the wheel, in its bucket of [tv5]. *)
Definition parked_vec (k : nat * Z) : list nat := if decide (k = (4%nat, 1)) then [0%nat] else [].

Definition parked (b : tvec_base) (now : Z) : Prop :=
  (∀ k, vec b k = parked_vec k) ∧ work_list b = [] ∧ timer_jiffies b = now ∧
  timers b = tms ∧ pending b = {[0%nat]} ∧ running_timer b = None ∧
  next_timer b = 2 ^ 27 ∧ active_timers b = 1.

(** Emptying a bucket other than that of timer 0. *)
Lemma parked_clear b now k w :
  parked b now → k ≠ (4%nat, 1) → w = [] → parked (set_lists (<[k := []]> (buckets b)) w (pending b) b) now.
Proof.
  intros (Hv & ? & ? & ? & ? & ? & ? & ?) Hk ->. split_and!; try done.
  intros k'. rewrite vec_insert. case_decide as E; [|apply Hv]. subst k'. unfold parked_vec. by rewrite decide_False.
Qed.

Lemma parked_cascade b now n i :
  parked b now → (n, i) ≠ (4%nat, 1) → ∃ b', cascade b n i = Some (b', i) ∧ parked b' now.
Proof.
  intros P Hk. unfold cascade. destruct P as (Hv & Hw & P'). rewrite Hv. unfold parked_vec.
  rewrite decide_False by done. cbn [add_all mbind option_bind]. eexists. split; [done|].
  apply parked_clear; [exact (conj Hv (conj Hw P'))|done|done].
Qed.

Lemma parked_cascades b now :
  parked b now → 2 ^ 27 ≤ now ≤ 2 ^ 32 → ∃ b', cascades b = Some b' ∧ parked b' now.
Proof.
  intros P Hnow. unfold cascades. destruct (decide (_ ≠ 0)); [by exists b|].
  destruct (parked_cascade b now 1 (INDEX b 0) P) as (b1 & -> & P1); [done|]. cbn [mbind option_bind].
  destruct (decide (_ ≠ 0)); [by exists b1|].
  destruct (parked_cascade b1 now 2 (INDEX b1 1) P1) as (b2 & -> & P2); [done|]. cbn [mbind option_bind].
  destruct (decide (_ ≠ 0)); [by exists b2|].
  destruct (parked_cascade b2 now 3 (INDEX b2 2) P2) as (b3 & -> & P3); [done|]. cbn [mbind option_bind].
  destruct (decide (_ ≠ 0)); [by exists b3|].
  destruct (parked_cascade b3 now 4 (INDEX b3 3) P3) as (b4 & -> & P4); [|by exists b4].
  intros [= Hi]. unfold INDEX in Hi. destruct P3 as (_ & _ & Hj & _). rewrite Hj in Hi.
  rewrite <- (wrap_small 64 now) in Hi by (unfold in_width; lia). unfold TVR_BITS, TVN_BITS in Hi.
  change (8 + 3 * 6) with 26 in Hi. rewrite (tvn_bits now 26) in Hi by lia.
  change (2 ^ 26) with 67108864 in Hi. change (2 ^ 27) with 134217728 in Hnow. change (2 ^ 32) with 4294967296 in Hnow. dlia.
Qed.

Lemma parked_run fuel : ∀ b now,
  parked b now → 2 ^ 27 ≤ now ≤ 2 ^ 32 + 1 → 2 ^ 32 - now < Z.of_nat fuel →
  ∃ b', run_loop sov no_calls fuel (2 ^ 32) b = Some (b', []) ∧ parked b' (2 ^ 32 + 1).
Proof.
  induction fuel as [|fuel IH]; intros b now P Hnow Hf; pose proof P as (_ & _ & Hj & _).
  all: assert (time_after_eq (2 ^ 32) (timer_jiffies b) ↔ now ≤ 2 ^ 32) as Hta
    by (unfold time_after_eq; rewrite Hj, s64_small by (unfold in_swidth; lia); lia).
  all: cbn [run_loop].
  { rewrite decide_False by (rewrite Hta; lia). assert (now = 2 ^ 32 + 1) as -> by lia. by exists b. }
  destruct (decide (time_after_eq _ _)) as [Hle%Hta|Hgt].
  2: { rewrite Hta in Hgt. assert (now = 2 ^ 32 + 1) as -> by lia. by exists b. }
  unfold start_tick. destruct (parked_cascades b now P ltac:(lia)) as (b1 & -> & P1). cbn [mbind option_bind].
  set (b2 := set_lists _ _ _ _).
  assert (parked b2 (now + 1)) as P2.
  { pose proof P1 as (Hv & Hw & Hj1 & Q). unfold b2. apply parked_clear; [|done|by apply Hv].
    split_and!; try apply Q; try done. cbn. rewrite Hj1. apply wrap_small. unfold in_width. lia. }
  pose proof P2 as (_ & Hw & _). rewrite Hw. cbn [run_work length]. rewrite Hw. cbn [mbind option_bind].
  destruct (IH b2 (now + 1) P2 ltac:(lia) ltac:(lia)) as (b' & -> & P'). by exists b'.
Qed.

(** Starting timer 1 then. *)
Lemma parked_add b :
  parked b (2 ^ 32 + 1) →
  ∃ b', exec_op sov (2 ^ 32) b (Add 1) = Some (b', 0) ∧ timers b' = tms ∧ 1%nat ∈ pending b' ∧
    timer_jiffies b' = 2 ^ 32 + 1 ∧ next_timer b' = 2 ^ 27 ∧ active_timers b' = 2 ∧
    ∀ k, vec b' k = if decide (k = (4%nat, 2)) then [1%nat] else parked_vec k.
Proof.
  intros (Hv & _ & Hj & Ht & Hpd & _ & Hn & Ha).
  cbn [exec_op]. unfold add_timer. rewrite Hpd, decide_False by (by vm_compute).
  assert (timers b !! 1%nat = Some (mkTimer (2 ^ 32 + 2 ^ 27 + 5) 0 false)) as H1 by (by rewrite Ht; vm_compute).
  rewrite H1. cbn [mbind option_bind]. unfold mod_timer. rewrite H1. cbn [mbind option_bind].
  set (e := apply_slack _ _ _ _). vm_compute in e.
  rewrite decide_False by (rewrite Hpd; intros [Hx _]; by apply elem_of_singleton in Hx).
  unfold __mod_timer, detach_if_pending. rewrite decide_True by (rewrite Hpd; by vm_compute).
  cbn [mbind option_bind]. rewrite decide_False by (by intros [_ [=]]). rewrite H1. cbn [mbind option_bind].
  unfold internal_add_timer, __internal_add_timer. cbn [timers set_expires]. rewrite lookup_insert_eq.
  cbn [mbind option_bind deferrable expires timer_jiffies set_expires]. rewrite Hj.
  set (k := slot_for _ _). vm_compute in k. eexists. split; [done|].
  cbn [timers set_counts add_tail set_lists set_expires pending timer_jiffies next_timer active_timers].
  split_and!.
  - rewrite Ht. by vm_compute.
  - set_solver.
  - done.
  - rewrite Hn. by vm_compute.
  - rewrite Ha. by vm_compute.
  - intros k'. unfold vec at 1. cbn [buckets set_counts add_tail set_lists set_expires].
    change (vec (set_expires 1 _ e b) k) with (vec b k). rewrite Hv.
    destruct (decide (k' = (4%nat, 2))) as [->|Hne].
    + rewrite lookup_insert_eq. by vm_compute.
    + rewrite lookup_insert_ne by done. apply Hv.
Qed.

(** The answer then. *)
Lemma parked_next to_jiffies b :
  timers b = tms → timer_jiffies b = 2 ^ 32 + 1 → next_timer b = 2 ^ 27 → active_timers b = 2 →
  (∀ k, vec b k = if decide (k = (4%nat, 2)) then [1%nat] else parked_vec k) →
  get_next_timer_interrupt to_jiffies None false b (2 ^ 32) =
    Some (set_counts (2 ^ 32 + 2 ^ 30) 2 b, 2 ^ 32 + 2 ^ 30).
Proof.
  intros Ht Hj Hn Ha Hv.
  set (b' := mkBase None (2 ^ 32 + 1) 0 0 {[(4%nat, 1) := [0%nat]; (4%nat, 2) := [1%nat]]} [] ∅ tms).
  assert (__next_timer_interrupt b = Some (2 ^ 32 + 2 ^ 30)) as En.
  { rewrite (next_timer_ext b b'); [by vm_compute| |done|done].
    intros k. rewrite Hv. unfold vec, parked_vec. cbn [buckets b'].
    destruct (decide (k = (4%nat, 1))) as [->|]; [by vm_compute|]. rewrite lookup_insert_ne by done.
    case_decide; subst; [by rewrite lookup_singleton_eq|by rewrite lookup_singleton_ne]. }
  unfold get_next_timer_interrupt. rewrite Ha, Hj, Hn, En. clear En.
  rewrite decide_True by done. rewrite decide_True by (vm_compute; intros [=]).
  cbn [mbind option_bind next_timer set_counts].
  rewrite decide_False by (vm_compute; intros H; by apply H). done.
Qed.

(** C40: the search can miss the first deadline.  A timer whose deadline is beyond
    the range of the wheel waits in a bucket of [tv5] that comes long before the
    deadline.  The search of [tv5] stops at the first bucket that holds a
    timer, so with such a timer there [get_next_timer_interrupt] overlooks one
    in the next bucket and answers [NEXT_TIMER_MAX_DELTA], more than 900 million
    ticks after the deadline of a pending timer. *)
Theorem next_timer_interrupt_late to_jiffies :
  ∃ b1 b2 b3 b4 r,
    exec_op sov (2 ^ 27) (init_timers_cpu (2 ^ 27) tms) (Add 0) = Some (b1, 0) ∧
    __run_timers sov no_calls (2 ^ 32) b1 = Some (b2, []) ∧
    exec_op sov (2 ^ 32) b2 (Add 1) = Some (b3, 0) ∧
    get_next_timer_interrupt to_jiffies None false b3 (2 ^ 32) = Some (b4, r) ∧
    1%nat ∈ pending b3 ∧ timers b3 !! 1%nat = Some (mkTimer (2 ^ 32 + 2 ^ 27 + 5) 0 false) ∧
    r = 2 ^ 32 + 2 ^ 30.
Proof.
  set (b1 := mkBase None (2 ^ 27) (2 ^ 27) 1 {[(4%nat, 1) := [0%nat]]} [] {[0%nat]} tms).
  assert (parked b1 (2 ^ 27)) as P1.
  { split_and!; try done. intros k. unfold vec, parked_vec. cbn [buckets b1].
    case_decide; subst; [by rewrite lookup_singleton_eq|by rewrite lookup_singleton_ne]. }
  destruct (parked_run (Z.to_nat (s64 (2 ^ 32 - 2 ^ 27) + 1)) b1 (2 ^ 27) P1) as (b2 & E2 & P2); [lia| |].
  { rewrite Z2Nat.id, s64_small by (rewrite ?s64_small; unfold in_swidth; lia). lia. }
  assert (parked (set_running None b2) (2 ^ 32 + 1)) as P2'.
  { destruct P2 as (? & ? & ? & ? & ? & ? & ? & ?). by split_and!. }
  destruct (parked_add _ P2') as (b3 & E3 & Ht3 & Hp3 & Hj3 & Hn3 & Ha3 & Hv3).
  exists b1, (set_running None b2), b3, (set_counts (2 ^ 32 + 2 ^ 30) 2 b3), (2 ^ 32 + 2 ^ 30).
  split; [clear; by vm_compute|]. split; [|split; [exact E3|]].
  { unfold __run_timers. change (timer_jiffies b1) with (2 ^ 27). rewrite E2. reflexivity. }
  split; [by apply parked_next|]. split; [exact Hp3|]. split; [|reflexivity].
  rewrite Ht3. clear. by vm_compute.
Qed.

End FarTimer.

Module NextDemo.

(** At tick 250: a timer of [tv2], one of [tv1] behind the wrap of the slots,
    and an earlier one that is deferrable. *)
Definition tms : gmap nat timer_list :=
  {[0%nat := mkTimer 600 0 false; 1%nat := mkTimer 260 0 false; 2%nat := mkTimer 255 0 true]}.
Definition ops : list timer_op := [Add 0; Add 1; Add 2].
Definition sov (_ : Z) : Z := 0.
Definition b0 : tvec_base :=
  default (init_timers_cpu 250 tms) (exec_ops sov 250 (init_timers_cpu 250 tms) ops).
Definition a0 : astate :=
  default (mkA 250 ∅ tms None) (a_ops sov 250 (mkA 250 ∅ tms None) ops).

Lemma tms_cases t tm :
  tms !! t = Some tm →
  t = 0%nat ∧ tm = mkTimer 600 0 false ∨ t = 1%nat ∧ tm = mkTimer 260 0 false ∨
  t = 2%nat ∧ tm = mkTimer 255 0 true.
Proof.
  unfold tms. intros [[<- <-]|[_ H]]%lookup_insert_Some; [by left|].
  apply lookup_insert_Some in H as [[<- <-]|[_ H]]; [by right; left|].
  apply lookup_singleton_Some in H as [<- <-]. by right; right.
Qed.

Lemma next_b0_refines : refines b0 a0.
Proof.
  destruct (exec_ops_ok sov 250 ops (init_timers_cpu 250 tms) (mkA 250 ∅ tms None))
    as (b & a & Eb & Ea & R & _).
  - apply (init_refines 250). intros t tm [[_ ->]|[[_ ->]|[_ ->]]]%tms_cases; done.
  - split; [split; by vm_compute|]. intros a1 r1 [= <- <-].
    split; [split; by vm_compute|]. intros a2 r2 [= <- <-].
    split; [split; by vm_compute|]. done.
  - unfold b0, a0. rewrite Eb, Ea. done.
Qed.

Lemma b0_near : wheel_near b0.
Proof.
  assert (timers b0 = tms) as Et by (by vm_compute).
  intros t tm Hp Ht. rewrite Et in Ht. split.
  - apply tms_cases in Ht as [[_ ->]|[[_ ->]|[_ ->]]]; vm_compute; split; intros [=].
  - intros i Hi. exfalso. assert ((4%nat, i) ∈ dom (buckets b0)) as Hd.
    { unfold vec in Hi. destruct (buckets b0 !! (4%nat, i)) eqn:E; [by eapply elem_of_dom_2|].
      by apply elem_of_nil in Hi. }
    assert (dom (buckets b0) = {[(1%nat, 2); (0%nat, 4); (0%nat, 255)]}) as Ed by (by vm_compute).
    rewrite Ed in Hd. set_solver.
Qed.

Lemma next_timer_interrupt_correct_witness :
  ∃ r, __next_timer_interrupt b0 = Some r ∧ r = 260 ∧
    ∃ t, counts (a_timers a0) t ∧ a_due a0 !! t = Some (due_of (a_now a0) r).
Proof.
  destruct (next_timer_interrupt_correct b0 a0 next_b0_refines eq_refl b0_near) as (r & E & _ & _ & Hat).
  exists r. split; [exact E|]. assert (r = 260) as ->.
  { assert (__next_timer_interrupt b0 = Some 260) as E' by (by vm_compute). congruence. }
  split; [done|]. destruct Hat as [H|H]; [by vm_compute in H|exact H].
Defined.
End NextDemo.
