(* ===== verification/PrintkLog.v ===== *)
(** The record buffer of kernel/printk/printk.c: [log_store], [log_next],
    [log_from_idx], and readers that keep a position in it ([devkmsg_read],
    [devkmsg_llseek]).

    The buffer is bytes.  A record is a 16 byte header (time, lengths, facility,
    flags and level), text, dictionary and padding; records follow each other,
    and a header of length 0 says that the next record is at the start of the
    buffer.  A read or write outside of the buffer is [None].  The theorems: the
    buffer is a queue of records that drops the oldest ones when it needs room,
    and a reader's position stays good whatever is stored meanwhile. *)

From S2P Require Import Prelude.

Local Open Scope Z_scope.

(** * Bytes *)

(** The [n] byte little-endian number at [a]. *)
Fixpoint fld (m : Z → Z) (a : Z) (n : nat) : Z :=
  match n with O => 0 | S n => m a + 256 * fld m (a + 1) n end.

Fixpoint le (n : nat) (z : Z) : list Z :=
  match n with O => [] | S n => z mod 256 :: le n (z / 256) end.

Definition put (m : Z → Z) (a : Z) (bs : list Z) : Z → Z := λ x,
  if decide (a ≤ x < a + Z.of_nat (length bs)) then nth (Z.to_nat (x - a)) bs 0 else m x.

Definition get (m : Z → Z) (a : Z) (n : nat) : list Z := (λ i, m (a + Z.of_nat i)) <$> seq 0 n.

(** * The record buffer *)

Record log_state := mkLog {
  log_buf : Z → Z;
  log_buf_len : Z;
  log_first_seq : Z;
  log_first_idx : Z;
  log_next_seq : Z;
  log_next_idx : Z;
}.

(** [sizeof(struct printk_log)], and the offsets of its fields: [ts_nsec] 0,
    [len] 8, [text_len] 10, [dict_len] 12, [facility] 14, [flags] and [level] 15. *)
Definition HDR : Z := 16.

Definition LOG_NOCONS : Z := 1.
Definition LOG_NEWLINE : Z := 2.
Definition LOG_PREFIX : Z := 4.
Definition LOG_CONT : Z := 8.

Definition set_first (s : log_state) (seq idx : Z) : log_state :=
  mkLog (log_buf s) (log_buf_len s) seq idx (log_next_seq s) (log_next_idx s).
Definition set_next (s : log_state) (seq idx : Z) : log_state :=
  mkLog (log_buf s) (log_buf_len s) (log_first_seq s) (log_first_idx s) seq idx.

(** A store to the buffer. *)
Definition wr (s : log_state) (a : Z) (bs : list Z) : option log_state :=
  if decide (0 ≤ a ∧ a + Z.of_nat (length bs) ≤ log_buf_len s)
  then Some (mkLog (put (log_buf s) a bs) (log_buf_len s) (log_first_seq s) (log_first_idx s)
               (log_next_seq s) (log_next_idx s))
  else None.

(** [msg->len] of the header at [idx]. *)
Definition msg_len (s : log_state) (idx : Z) : option Z :=
  if decide (0 ≤ idx ∧ idx + HDR ≤ log_buf_len s) then Some (fld (log_buf s) (idx + 8) 2) else None.

Definition log_from_idx (s : log_state) (idx : Z) : option Z :=
  l ← msg_len s idx; Some (if decide (l = 0) then 0 else idx).

Definition log_next (s : log_state) (idx : Z) : option Z :=
  l ← msg_len s idx; if decide (l = 0) then msg_len s 0 else Some (u32 (idx + l)).

(** The other fields of the record at address [a]. *)
Definition msg_ts (s : log_state) (a : Z) : Z := fld (log_buf s) a 8.
Definition msg_facility (s : log_state) (a : Z) : Z := log_buf s (a + 14).
Definition msg_flags (s : log_state) (a : Z) : Z := Z.land (log_buf s (a + 15)) 31.
Definition msg_level (s : log_state) (a : Z) : Z := Z.shiftr (log_buf s (a + 15)) 5.
Definition msg_text_len (s : log_state) (a : Z) : Z := fld (log_buf s) (a + 10) 2.
Definition msg_dict_len (s : log_state) (a : Z) : Z := fld (log_buf s) (a + 12) 2.
Definition log_text (s : log_state) (a : Z) : list Z :=
  get (log_buf s) (a + HDR) (Z.to_nat (msg_text_len s a)).
Definition log_dict (s : log_state) (a : Z) : list Z :=
  get (log_buf s) (a + HDR + msg_text_len s a) (Z.to_nat (msg_dict_len s a)).

Section log.
(** 4 or 8, with the architecture. *)
Context (LOG_ALIGN : Z).

(** Padding to the next message. *)
Definition pad_of (size : Z) : Z := Z.land (u32 (- size)) (LOG_ALIGN - 1).

(** The loop that drops old messages. *)
Fixpoint make_room (fuel : nat) (s : log_state) (size : Z) : option log_state :=
  if decide (log_first_seq s < log_next_seq s) then
    match fuel with
    | O => None
    | S fuel =>
        let free :=
          if decide (log_next_idx s > log_first_idx s)
          then Z.max (u32 (log_buf_len s - log_next_idx s)) (log_first_idx s)
          else u32 (log_first_idx s - log_next_idx s) in
        if decide (free > size + HDR) then Some s
        else
          idx ← log_next s (log_first_idx s);
          make_room fuel (set_first s (u64 (log_first_seq s + 1)) idx) size
    end
  else Some s.

(** The record is written at [msg], field by field.  [text_len] and [dict_len]
    are the lengths of the lists. *)
Definition fill_message (s : log_state) (msg facility level flags ts : Z) (dict text : list Z)
    : option log_state :=
  let text_len := Z.of_nat (length text) in
  let dict_len := Z.of_nat (length dict) in
  let pad_len := pad_of (HDR + text_len + dict_len) in
  s ← wr s (msg + HDR) text;
  s ← wr s (msg + 10) (le 2 text_len);
  s ← wr s (msg + HDR + text_len) dict;
  s ← wr s (msg + 12) (le 2 dict_len);
  s ← wr s (msg + 14) [facility mod 256];
  s ← wr s (msg + 15) [Z.land flags 31 + 32 * Z.land level 7];
  s ← wr s msg (le 8 ts);
  s ← wr s (msg + HDR + text_len + dict_len) (replicate (Z.to_nat pad_len) 0);
  wr s (msg + 8) (le 2 (wrap 16 (HDR + text_len + dict_len + pad_len))).

(** [local_clock] is the value of [local_clock()]. *)
Definition log_store (s : log_state) (facility level flags ts_nsec local_clock : Z)
    (dict text : list Z) : option log_state :=
  let size := HDR + Z.of_nat (length text) + Z.of_nat (length dict) in
  let pad_len := pad_of size in
  let size := u32 (size + pad_len) in
  s ← make_room (Z.to_nat (log_next_seq s - log_first_seq s)) s size;
  s ← (if decide (u32 (log_next_idx s + size) + HDR >= log_buf_len s) then
         s ← wr s (log_next_idx s) (replicate 16 0);
         Some (set_next s (log_next_seq s) 0)
       else Some s);
  s ← fill_message s (log_next_idx s) facility level flags
        (if decide (ts_nsec > 0) then ts_nsec else local_clock) dict text;
  len ← msg_len s (log_next_idx s);
  Some (set_next s (u64 (log_next_seq s + 1)) (u32 (log_next_idx s + len))).
End log.

(** * Lemmas on bytes *)

Lemma put_out m a bs x : ¬ (a ≤ x < a + Z.of_nat (length bs)) → put m a bs x = m x.
Proof. intros. unfold put. by rewrite decide_False. Qed.

Lemma put_in m a bs (i : nat) b : bs !! i = Some b → put m a bs (a + Z.of_nat i) = b.
Proof.
  intros H. unfold put. pose proof (lookup_lt_Some _ _ _ H). rewrite decide_True by lia.
  replace (Z.to_nat (a + Z.of_nat i - a)) with i by lia. by apply nth_lookup_Some.
Qed.

Lemma fld_ext m m' n : ∀ a, (∀ x, a ≤ x < a + Z.of_nat n → m x = m' x) → fld m a n = fld m' a n.
Proof.
  induction n as [|n IH]; intros a H; [done|]. cbn [fld]. rewrite H, (IH (a + 1)); [done| |lia].
  intros x Hx. apply H. lia.
Qed.

Lemma get_ext m m' a n : (∀ x, a ≤ x < a + Z.of_nat n → m x = m' x) → get m a n = get m' a n.
Proof.
  intros H. apply list_fmap_ext. intros i x Hx. apply lookup_seq in Hx as [-> Hi]. apply H. lia.
Qed.

(** Two ranges of bytes that do not meet. *)
Definition apart (a n b k : Z) : Prop := a + n ≤ b ∨ b + k ≤ a.

Lemma fld_put_other m a bs b n :
  apart b (Z.of_nat n) a (Z.of_nat (length bs)) → fld (put m a bs) b n = fld m b n.
Proof. unfold apart. intros H. apply fld_ext. intros x Hx. apply put_out. lia. Qed.

Lemma get_put_other m a bs b n :
  apart b (Z.of_nat n) a (Z.of_nat (length bs)) → get (put m a bs) b n = get m b n.
Proof. unfold apart. intros H. apply get_ext. intros x Hx. apply put_out. lia. Qed.

Lemma get_put m a bs : get (put m a bs) a (length bs) = bs.
Proof.
  apply list_eq. intros i. unfold get. rewrite list_lookup_fmap.
  destruct (decide (i < length bs)%nat) as [Hi|Hi].
  - rewrite lookup_seq_lt by done. cbn. destruct (lookup_lt_is_Some_2 bs i Hi) as [b Hb].
    rewrite Hb. f_equal. by apply put_in.
  - rewrite lookup_seq_ge by lia. cbn. symmetry. apply lookup_ge_None. lia.
Qed.

Lemma length_le n : ∀ z, length (le n z) = n.
Proof. induction n as [|n IH]; intros z; [done|]. cbn. by rewrite IH. Qed.

Lemma fld_bytes m n : ∀ a bs,
  length bs = n → (∀ i b, bs !! i = Some b → m (a + Z.of_nat i) = b) →
  fld m a n = fold_right (λ b r, b + 256 * r) 0 bs.
Proof.
  induction n as [|n IH]; intros a bs Hl H; (destruct bs as [|b bs]; cbn in Hl; try lia); [done|].
  cbn [fld fold_right]. rewrite (IH (a + 1) bs); [|lia|].
  - rewrite <- (H 0%nat b eq_refl). by rewrite Z.add_0_r.
  - intros i c Hc. rewrite <- (H (S i) c Hc). f_equal. lia.
Qed.

Lemma le_value n : ∀ z, 0 ≤ z < 256 ^ Z.of_nat n → fold_right (λ b r, b + 256 * r) 0 (le n z) = z.
Proof.
  induction n as [|n IH]; intros z Hz; [cbn in *; lia|]. cbn [le fold_right].
  rewrite Nat2Z.inj_succ, Z.pow_succ_r in Hz by lia.
  rewrite IH; [pose proof (Z.div_mod z 256); lia|].
  split; [apply Z.div_pos; lia|apply Z.div_lt_upper_bound; lia].
Qed.

Lemma fld_put m a n z : 0 ≤ z < 256 ^ Z.of_nat n → fld (put m a (le n z)) a n = z.
Proof.
  intros Hz. rewrite (fld_bytes _ n a (le n z)); [by apply le_value|apply length_le|].
  intros i b Hb. by apply put_in.
Qed.

(** * Records *)

Record record := Rec {
  r_ts : Z;
  r_facility : Z;
  r_level : Z;
  r_flags : Z;
  r_text : list Z;
  r_dict : list Z;
}.

Section ring.
Context (LOG_ALIGN : Z) (Halign : LOG_ALIGN = 4 ∨ LOG_ALIGN = 8).
Local Abbreviation log_store := (log_store LOG_ALIGN).
Local Abbreviation pad_of := (pad_of LOG_ALIGN).

Definition raw_size (r : record) : Z := HDR + Z.of_nat (length (r_text r)) + Z.of_nat (length (r_dict r)).
Definition rsize (r : record) : Z := raw_size r + pad_of (raw_size r).

(** The fields fit the header. *)
Definition rec_ok (r : record) : Prop :=
  in_u64 (r_ts r) ∧ 0 ≤ r_facility r < 256 ∧ 0 ≤ r_level r < 8 ∧ 0 ≤ r_flags r < 32 ∧
  rsize r < 2 ^ 16.

(** The record is stored at [a]. *)
Definition rec_at (m : Z → Z) (a : Z) (r : record) : Prop :=
  fld m a 8 = r_ts r ∧ fld m (a + 8) 2 = rsize r ∧
  fld m (a + 10) 2 = Z.of_nat (length (r_text r)) ∧ fld m (a + 12) 2 = Z.of_nat (length (r_dict r)) ∧
  m (a + 14) = r_facility r ∧ m (a + 15) = r_flags r + 32 * r_level r ∧
  get m (a + HDR) (length (r_text r)) = r_text r ∧
  get m (a + HDR + Z.of_nat (length (r_text r))) (length (r_dict r)) = r_dict r.

Lemma pad_range x : 0 ≤ pad_of x < LOG_ALIGN.
Proof using Halign.
  unfold pad_of. destruct Halign as [-> | ->].
  - change (4 - 1) with (Z.ones 2). rewrite Z.land_ones by lia. apply Z.mod_pos_bound. lia.
  - change (8 - 1) with (Z.ones 3). rewrite Z.land_ones by lia. apply Z.mod_pos_bound. lia.
Qed.

Lemma rsize_range r : HDR + Z.of_nat (length (r_text r)) + Z.of_nat (length (r_dict r)) ≤ rsize r ∧ HDR ≤ rsize r.
Proof using Halign. unfold rsize. pose proof (pad_range (raw_size r)). unfold raw_size, HDR in *. lia. Qed.

Lemma rec_at_frame m m' a r :
  (∀ x, a ≤ x < a + rsize r → m' x = m x) → rec_at m a r → rec_at m' a r.
Proof using Halign.
  intros H (H1 & H2 & H3 & H4 & H5 & H6 & H7 & H8). pose proof (rsize_range r) as Hs. unfold HDR in *.
  split_and!.
  - rewrite <- H1. apply fld_ext. intros x Hx. apply H. lia.
  - rewrite <- H2. apply fld_ext. intros x Hx. apply H. lia.
  - rewrite <- H3. apply fld_ext. intros x Hx. apply H. lia.
  - rewrite <- H4. apply fld_ext. intros x Hx. apply H. lia.
  - rewrite <- H5. apply H. lia.
  - rewrite <- H6. apply H. lia.
  - rewrite <- H7 at 2. apply get_ext. intros x Hx. apply H. unfold HDR in *. lia.
  - rewrite <- H8 at 2. apply get_ext. intros x Hx. apply H. unfold HDR in *. lia.
Qed.

(** ** The stores of [log_store] make a record *)

Definition fill (m : Z → Z) (a : Z) (r : record) : Z → Z :=
  let tl := Z.of_nat (length (r_text r)) in
  let dl := Z.of_nat (length (r_dict r)) in
  let m := put m (a + HDR) (r_text r) in
  let m := put m (a + 10) (le 2 tl) in
  let m := put m (a + HDR + tl) (r_dict r) in
  let m := put m (a + 12) (le 2 dl) in
  let m := put m (a + 14) [r_facility r] in
  let m := put m (a + 15) [r_flags r + 32 * r_level r] in
  let m := put m a (le 8 (r_ts r)) in
  let m := put m (a + HDR + tl + dl) (replicate (Z.to_nat (pad_of (raw_size r))) 0) in
  put m (a + 8) (le 2 (rsize r)).

Ltac away := rewrite ?fld_put_other, ?get_put_other by
  (unfold apart; rewrite ?length_le, ?length_replicate; cbn [length]; lia).

Lemma fill_rec m a r : rec_ok r → rec_at (fill m a r) a r.
Proof using Halign.
  intros (H1 & H2 & H3 & H4 & H5). pose proof (rsize_range r) as Hs. pose proof (pad_range (raw_size r)) as Hpd.
  unfold fill, HDR in *. cbn zeta. set (tl := Z.of_nat (length (r_text r))) in *.
  set (dl := Z.of_nat (length (r_dict r))) in *. unfold rec_at, HDR. fold tl dl. split_and!.
  - away. apply fld_put. exact H1.
  - apply fld_put. change (256 ^ Z.of_nat 2) with (2 ^ 16). lia.
  - away. apply fld_put. change (256 ^ Z.of_nat 2) with (2 ^ 16). lia.
  - away. apply fld_put. change (256 ^ Z.of_nat 2) with (2 ^ 16). lia.
  - do 4 (rewrite put_out by (rewrite ?length_le, ?length_replicate; cbn [length]; lia)).
    rewrite <- (Z.add_0_r (a + 14)) at 2. by apply (put_in _ _ _ 0).
  - do 3 (rewrite put_out by (rewrite ?length_le, ?length_replicate; cbn [length]; lia)).
    rewrite <- (Z.add_0_r (a + 15)) at 2. by apply (put_in _ _ _ 0).
  - away. apply get_put.
  - away. apply get_put.
Qed.

Lemma fill_out m a r x : ¬ (a ≤ x < a + rsize r) → fill m a r x = m x.
Proof using Halign.
  intros Hx. pose proof (rsize_range r) as Hs. pose proof (pad_range (raw_size r)) as Hpd.
  assert (rsize r = 16 + Z.of_nat (length (r_text r)) + Z.of_nat (length (r_dict r)) + pad_of (raw_size r)) as E
    by (unfold rsize, raw_size, HDR; lia).
  unfold fill, HDR in *. cbn zeta.
  rewrite !put_out; [done|..]; rewrite ?length_le, ?length_replicate; cbn [length]; lia.
Qed.

(** * The buffer is a queue of records *)

(** Records one after the other, from [cur] to [stop]. *)
Fixpoint flat (m : Z → Z) (cur : Z) (L : list record) (stop : Z) : Prop :=
  match L with
  | [] => cur = stop
  | r :: L => rec_at m cur r ∧ flat m (cur + rsize r) L stop
  end.

(** Where the records are: from the first to the next index, or ([Some n]) with
    the first [n] up to a header of length 0 and the others from the start. *)
Definition laid_out (s : log_state) (L : list record) (w : option nat) : Prop :=
  match w with
  | None => flat (log_buf s) (log_first_idx s) L (log_next_idx s)
  | Some n => (n < length L)%nat ∧ log_next_idx s < log_first_idx s ∧ ∃ e,
      flat (log_buf s) (log_first_idx s) (take n L) e ∧ fld (log_buf s) (e + 8) 2 = 0 ∧
      e + HDR ≤ log_buf_len s ∧ flat (log_buf s) 0 (drop n L) (log_next_idx s)
  end.

Record ring (s : log_state) (L : list record) (w : option nat) : Prop := {
  g_idx : 0 ≤ log_first_idx s ∧ 0 ≤ log_next_idx s ∧ log_next_idx s + HDR ≤ log_buf_len s < 2 ^ 31;
  g_seq : 0 ≤ log_first_seq s ∧ log_next_seq s = log_first_seq s + Z.of_nat (length L) ∧
    log_next_seq s < 2 ^ 64;
  g_recs : Forall rec_ok L;
  g_lay : laid_out s L w;
}.

Lemma flat_le m L : ∀ cur stop, flat m cur L stop → cur ≤ stop ∧ (L ≠ [] → cur < stop).
Proof using Halign.
  induction L as [|r L IH]; intros cur stop H; cbn in H; [subst; split; [lia|done]|].
  destruct H as [_ H]. apply IH in H as [H _]. pose proof (rsize_range r) as Hs. unfold HDR in Hs.
  split; [lia|]. intros _. lia.
Qed.

Lemma flat_frame m m' L : ∀ cur stop,
  (∀ x, cur ≤ x < stop → m' x = m x) → flat m cur L stop → flat m' cur L stop.
Proof using Halign.
  induction L as [|r L IH]; intros cur stop Hm H; cbn in *; [done|].
  destruct H as [Hr H]. pose proof (rsize_range r) as Hs. unfold HDR in Hs.
  pose proof (flat_le m L _ _ H) as [Hle _]. split.
  - apply (rec_at_frame m); [|done]. intros x Hx. apply Hm. lia.
  - apply IH; [|done]. intros x Hx. apply Hm. lia.
Qed.

Lemma flat_snoc m L r : ∀ cur stop,
  flat m cur L stop → rec_at m stop r → flat m cur (L ++ [r]) (stop + rsize r).
Proof.
  induction L as [|q L IH]; intros cur stop H Hr; cbn in *; [by subst|].
  destruct H as [Hq H]. split; [done|]. by apply IH.
Qed.

(** ** The first record *)

Lemma msg_len_at s a r :
  rec_at (log_buf s) a r → 0 ≤ a → a + rsize r ≤ log_buf_len s → msg_len s a = Some (rsize r).
Proof using Halign.
  intros (_ & H & _) Ha Hl. pose proof (rsize_range r). unfold msg_len.
  rewrite decide_True by (unfold HDR in *; lia). by rewrite H.
Qed.

(** The first record, where it is, and the queue without it. *)
Lemma ring_head s r L w :
  ring s (r :: L) w →
  ∃ a idx w', log_from_idx s (log_first_idx s) = Some a ∧ rec_at (log_buf s) a r ∧
    0 ≤ a ∧ a + rsize r ≤ log_buf_len s ∧
    log_next s (log_first_idx s) = Some idx ∧
    ring (set_first s (u64 (log_first_seq s + 1)) idx) L w' ∧
    w' = match w with Some (S n) => Some n | _ => None end ∧
    idx = match w with Some O => rsize r | _ => log_first_idx s + rsize r end.
Proof using Halign.
  intros [(Hf & Hn & Hb) (Hs0 & Hs1 & Hs2) [Hr HL]%Forall_cons Hlay].
  cbn [length] in Hs1. rewrite Nat2Z.inj_succ in Hs1. pose proof (rsize_range r) as Hsz. unfold HDR in *.
  assert (u64 (log_first_seq s + 1) = log_first_seq s + 1) as Eu by (apply wrap_small; unfold in_width; lia).
  assert (∀ a, rec_at (log_buf s) a r → 0 ≤ a → a + rsize r ≤ log_buf_len s →
    log_from_idx s a = Some a ∧ log_next s a = Some (a + rsize r)) as Hat.
  { intros a Ha Ha0 Hal. unfold log_from_idx, log_next. rewrite (msg_len_at s a r Ha Ha0 Hal).
    cbn [mbind option_bind]. rewrite !decide_False by lia.
    by rewrite wrap_small by (unfold in_width; lia). }
  destruct w as [[|n]|]; cbn [laid_out] in Hlay.
  - destruct Hlay as (_ & Hnf & e & He & Hmk & Hel & [H0 Hrest]). cbn in He. subst e.
    cbn [drop] in *. pose proof (flat_le _ _ _ _ Hrest) as [Hle _].
    assert (msg_len s (log_first_idx s) = Some 0) as E0
      by (unfold msg_len; rewrite decide_True by (unfold HDR in *; lia); by rewrite Hmk).
    exists 0, (rsize r), None. split_and!; try done; try lia.
    + unfold log_from_idx. by rewrite E0.
    + unfold log_next. rewrite E0. cbn [mbind option_bind]. rewrite decide_True by done.
      apply msg_len_at; [done|lia|lia].
    + split; cbn; [unfold HDR in *; lia|rewrite Eu; lia|done|done].
  - destruct Hlay as (Hnl & Hnf & e & [H0 He] & Hmk & Hel & Hrest). cbn in Hnl.
    pose proof (flat_le _ _ _ _ He) as [Hle _].
    destruct (Hat _ H0) as [E1 E2]; [lia|unfold HDR in *; lia|].
    exists (log_first_idx s), (log_first_idx s + rsize r), (Some n). split_and!; try done; [unfold HDR in *; lia|].
    split; cbn; [unfold HDR in *; lia|rewrite Eu; lia|done|]. split; [lia|]. split; [lia|]. by exists e.
  - destruct Hlay as [H0 Hrest]. pose proof (flat_le _ _ _ _ Hrest) as [Hle _].
    destruct (Hat _ H0) as [E1 E2]; [lia|lia|].
    exists (log_first_idx s), (log_first_idx s + rsize r), None. split_and!; try done; [lia|].
    split; cbn; [unfold HDR in *; lia|rewrite Eu; lia|done|done].
Qed.

(** ** Making room *)

(** The contiguous bytes [log_store] may use, in a buffer that is not empty. *)
Definition free_of (s : log_state) : Z :=
  if decide (log_next_idx s > log_first_idx s)
  then Z.max (log_buf_len s - log_next_idx s) (log_first_idx s)
  else log_first_idx s - log_next_idx s.

(** Index of the record number [j]. *)
Definition span (L : list record) : Z := foldr (λ r n, rsize r + n) 0 L.
Definition pos (first : Z) (L : list record) (w : option nat) (j : nat) : Z :=
  match w with
  | None => first + span (take j L)
  | Some n => if decide (j ≤ n)%nat then first + span (take j L) else span (take (j - n) (drop n L))
  end.

(** The bytes that would be free with the first [j] records dropped. *)
Definition free_after (s : log_state) (L : list record) (w : option nat) (j : nat) : Z :=
  free_of (set_first s (log_first_seq s + Z.of_nat j) (pos (log_first_idx s) L w j)).

Lemma pos_0 first L w : pos first L w 0 = first.
Proof. unfold pos. destruct w as [n|]; [rewrite decide_True by lia|]; apply Z.add_0_r. Qed.

Lemma pos_head first r L w j :
  let first' := match w with Some O => rsize r | _ => first + rsize r end in
  let w' := match w with Some (S n) => Some n | _ => None end in
  pos first' L w' j = pos first (r :: L) w (S j).
Proof.
  unfold pos, span. destruct w as [[|n]|]; cbn zeta.
  - rewrite decide_False by lia. done.
  - destruct (decide (j ≤ n)%nat) as [H|H]; [rewrite decide_True by lia; cbn; lia|by rewrite decide_False by lia].
  - cbn. lia.
Qed.

Lemma flat_bounds s L w :
  ring s L w →
  log_first_idx s + HDR ≤ log_buf_len s ∧
  (log_next_idx s > log_first_idx s ↔ w = None ∧ L ≠ []).
Proof using Halign.
  intros [(Hf & Hn & Hb) _ _ Hlay]. destruct w as [n|]; cbn [laid_out] in Hlay.
  - destruct Hlay as (Hnl & Hnf & e & He & _ & Hel & _). apply flat_le in He as [He _].
    split; [lia|]. split; [lia|by intros [[=] _]].
  - pose proof (flat_le _ _ _ _ Hlay) as [Hle Hlt]. split; [lia|].
    split; [|intros [_ Hne]; specialize (Hlt Hne); lia].
    intros Hgt. split; [done|]. intros ->. cbn in *. lia.
Qed.

Lemma ring_empty s w : ring s [] w → w = None ∧ log_next_idx s = log_first_idx s.
Proof. intros [_ _ _ Hlay]. destruct w as [n|]; cbn in Hlay; [destruct Hlay as (? & _); lia|done]. Qed.

Lemma make_room_ok size fuel : ∀ s L w,
  ring s L w → (length L ≤ fuel)%nat →
  ∃ k s' w', make_room fuel s size = Some s' ∧ (k ≤ length L)%nat ∧ ring s' (drop k L) w' ∧
    s' = set_first s (log_first_seq s + Z.of_nat k) (log_first_idx s') ∧
    (∀ j, pos (log_first_idx s') (drop k L) w' j = pos (log_first_idx s) L w (k + j)) ∧
    (drop k L = [] ∨ free_of s' > size + HDR) ∧
    ∀ j, (j < k)%nat → free_after s L w j ≤ size + HDR.
Proof using Halign.
  induction fuel as [|fuel IH]; intros s L w R Hf.
  all: assert (s = set_first s (log_first_seq s + Z.of_nat 0) (log_first_idx s)) as Es
    by (change (Z.of_nat 0) with 0; rewrite Z.add_0_r; by destruct s).
  all: destruct (g_seq _ _ _ R) as (Hs0 & Hs1 & Hs2); destruct (flat_bounds s L w R) as [Hfb _].
  - destruct L; [|cbn in Hf; lia]. cbn in Hs1. exists 0%nat, s, w. cbn [make_room].
    rewrite decide_False by lia. split_and!; try done; [by left|lia].
  - destruct L as [|r L].
    { cbn in Hs1. exists 0%nat, s, w. cbn [make_room]. rewrite decide_False by lia. split_and!; try done; [by left|lia]. }
    cbn [make_room]. cbn [length] in Hs1, Hf. rewrite decide_True by lia.
    destruct (g_idx _ _ _ R) as (Hi1 & Hi2 & Hi3).
    assert ((if decide (log_next_idx s > log_first_idx s)
       then Z.max (u32 (log_buf_len s - log_next_idx s)) (log_first_idx s)
       else u32 (log_first_idx s - log_next_idx s)) = free_of s) as Hfree.
    { unfold free_of, HDR in *. case_decide; rewrite wrap_small by (unfold in_width; lia); lia. }
    cbn zeta. rewrite Hfree. destruct (decide (free_of s > size + HDR)) as [Hr|Hr].
    { exists 0%nat, s, w. split_and!; try done; [cbn; lia|by right|lia]. }
    destruct (ring_head s r L w R) as (a & idx & w1 & _ & _ & _ & _ & -> & R1 & Hw1 & Hi).
    cbn [mbind option_bind].
    destruct (IH _ L w1 R1 ltac:(lia)) as (k & s' & w' & E & Hk & R' & Es' & Hpos & Hroom & Hmin).
    exists (S k), s', w'. split_and!; try done; [cbn; lia| | |].
    + rewrite Es'. unfold set_first. cbn. f_equal. rewrite wrap_small by (unfold in_width; lia). lia.
    + intros j. cbn [drop Nat.add]. rewrite Hpos. cbn [log_first_idx set_first].
      rewrite Hi, Hw1. apply pos_head.
    + intros [|j] Hj; unfold free_after.
      * rewrite pos_0, Z.add_0_r. unfold free_of in *. cbn. lia.
      * specialize (Hmin j ltac:(lia)). unfold free_after in Hmin. cbn [set_first log_first_idx log_first_seq] in Hmin.
        rewrite Hi, Hw1, pos_head in Hmin. exact Hmin.
Qed.

(** ** Adding a record at the end *)

Definition with_buf (s : log_state) (m : Z → Z) : log_state :=
  mkLog m (log_buf_len s) (log_first_seq s) (log_first_idx s) (log_next_seq s) (log_next_idx s).

Lemma wr_ok s a bs :
  0 ≤ a → a + Z.of_nat (length bs) ≤ log_buf_len s → wr s a bs = Some (with_buf s (put (log_buf s) a bs)).
Proof. intros. unfold wr. by rewrite decide_True by lia. Qed.

(** The record made of the arguments. *)
Definition stored (facility level flags ts : Z) (dict text : list Z) : record :=
  Rec ts (facility mod 256) (Z.land level 7) (Z.land flags 31) text dict.

Lemma fill_message_ok s a facility level flags ts dict text :
  let r := stored facility level flags ts dict text in
  rsize r < 2 ^ 16 → 0 ≤ a → a + rsize r ≤ log_buf_len s →
  fill_message LOG_ALIGN s a facility level flags ts dict text = Some (with_buf s (fill (log_buf s) a r)).
Proof using Halign.
  intros r H16 Hn Hl. pose proof (rsize_range r) as Hs. pose proof (pad_range (raw_size r)) as Hpd.
  assert (rsize r = raw_size r + pad_of (raw_size r)) as E by done.
  unfold fill_message. cbn zeta.
  change (HDR + Z.of_nat (length text) + Z.of_nat (length dict)) with (raw_size r).
  rewrite (wrap_small 16) by (unfold in_width, HDR in *; lia).
  assert (raw_size r = 16 + Z.of_nat (length text) + Z.of_nat (length dict)) as Er by done.
  cbn [r_text r_dict r stored] in Hs. unfold HDR in *.
  repeat (rewrite wr_ok by (rewrite ?length_le, ?length_replicate; cbn [length log_buf_len with_buf]; lia);
    cbn [mbind option_bind]). done.
Qed.

Ltac lcbn := cbn [log_buf log_buf_len log_first_seq log_first_idx log_next_seq log_next_idx
  set_next set_first with_buf laid_out].

(** The new record goes behind the last one, or to the start if it does not fit
    there. *)
Lemma append_ok s L w r :
  ring s L w → rec_ok r → 2 * rsize r + HDR < log_buf_len s → log_next_seq s + 1 < 2 ^ 64 →
  (L = [] ∨ free_of s > rsize r + HDR) →
  let s1 := if decide (log_next_idx s + rsize r + HDR >= log_buf_len s)
            then set_next (with_buf s (put (log_buf s) (log_next_idx s) (replicate 16 0))) (log_next_seq s) 0
            else s in
  let m := fill (log_buf s1) (log_next_idx s1) r in
  ∃ w', ring (set_next (with_buf s1 m) (log_next_seq s + 1) (log_next_idx s1 + rsize r)) (L ++ [r]) w' ∧
    log_next_idx s1 + rsize r + HDR ≤ log_buf_len s ∧
    ∀ j, (j ≤ length L)%nat → pos (log_first_idx s) (L ++ [r]) w' j = pos (log_first_idx s) L w j.
Proof using Halign.
  intros R Hr Hfit Hseq Hroom s1 m. pose proof (rsize_range r) as [_ Hs].
  destruct (flat_bounds s L w R) as [Hfb Hgt]. destruct R as [(Hi1 & Hi2 & Hi3) (Hs0 & Hs1 & Hs2) HL Hlay].
  assert (∀ n, (n ≤ length L)%nat → take n (L ++ [r]) = take n L) as Htake.
  { intros n Hn. rewrite take_app. replace (n - length L)%nat with 0%nat by lia. by rewrite app_nil_r. }
  assert (Forall rec_ok (L ++ [r])) as HL' by (apply Forall_app; split; [done|by apply Forall_singleton]).
  assert (Z.of_nat (length (L ++ [r])) = Z.of_nat (length L) + 1) as El by (rewrite length_app; cbn; lia).
  unfold free_of in Hroom.
  unfold s1 in *; clear s1. destruct (decide (log_next_idx s + rsize r + HDR >= log_buf_len s)) as [Hwrap|Hend].
  - (* to the start *)
    cbn [log_next_idx set_next with_buf log_buf] in *.
    assert (w = None ∧ rsize r < log_first_idx s) as [-> Hfirst].
    { destruct Hroom as [->|Hroom].
      - assert (ring s [] w) as R by (by split). destruct (ring_empty s w R) as [-> Hnf]. split; [done|]. unfold HDR in *. lia.
      - unfold HDR in *. case_decide; [|lia]. split; [tauto|lia]. }
    cbn [laid_out] in Hlay. pose proof (flat_le _ _ _ _ Hlay) as [Hle _].
    assert (∀ x, rsize r ≤ x < log_next_idx s → m x = log_buf s x) as Hm.
    { intros x Hx. unfold m. rewrite fill_out by lia. apply put_out. rewrite length_replicate. lia. }
    exists (Some (length L)). split_and!.
    + split; lcbn; [unfold HDR in *; lia|lia|done|].
      split; [rewrite length_app; cbn; lia|]. split; [lia|]. exists (log_next_idx s). split_and!.
      * rewrite take_app_length. apply (flat_frame (log_buf s)); [|done]. intros x Hx. apply Hm. lia.
      * unfold m. rewrite (fld_ext _ (put (log_buf s) (log_next_idx s) (replicate 16 0))).
        -- transitivity (fld (λ _, 0) (log_next_idx s + 8) 2); [|done]. apply fld_ext. intros x Hx.
           replace x with (log_next_idx s + Z.of_nat (Z.to_nat (x - log_next_idx s))) by lia.
           apply put_in. apply lookup_replicate. split; [done|lia].
        -- intros x Hx. apply fill_out. lia.
      * lia.
      * rewrite drop_app_length. cbn. split; [|done]. by apply fill_rec.
    + unfold HDR in *. lia.
    + intros j Hj. cbn [pos]. rewrite decide_True by lia. by rewrite Htake by lia.
  - (* behind the last one *)
    assert (∀ x, ¬ (log_next_idx s ≤ x < log_next_idx s + rsize r) → m x = log_buf s x) as Hm
      by (intros x Hx; by apply fill_out).
    assert (rec_at m (log_next_idx s) r) as Hrec by (by apply fill_rec).
    exists w. split_and!; [|lia|].
    + split; lcbn; [unfold HDR in *; lia|lia|done|]. destruct w as [n|]; cbn [laid_out] in *.
      * destruct Hlay as (Hnl & Hnf & e & He & Hmk & Hel & Hrest).
        pose proof (flat_le _ _ _ _ He) as [Hle _]. pose proof (flat_le _ _ _ _ Hrest) as [Hle' _].
        destruct Hroom as [->|Hroom]; [cbn in Hnl; lia|]. rewrite decide_False in Hroom by lia.
        split; [rewrite length_app; lia|]. split; [lcbn; unfold HDR in *; lia|]. exists e. lcbn.
        split_and!; [rewrite take_app_le by lia|..]; [| |done|].
        -- apply (flat_frame (log_buf s)); [|done]. intros x Hx. apply Hm. unfold HDR in *. lia.
        -- rewrite <- Hmk. apply fld_ext. intros x Hx. apply Hm. unfold HDR in *. lia.
        -- rewrite drop_app_le by lia. apply flat_snoc; [|done].
           apply (flat_frame (log_buf s)); [|done]. intros x Hx. apply Hm. lia.
      * apply flat_snoc; [|done]. apply (flat_frame (log_buf s)); [|done]. intros x Hx. apply Hm. cbn in *. lia.
    + intros j Hj. destruct w as [n|]; cbn [pos]; [|by rewrite Htake by lia].
      destruct Hlay as (Hnl & _). destruct (decide (j ≤ n)%nat); [by rewrite Htake by lia|].
      rewrite drop_app_le by lia. rewrite take_app_le; [done|]. rewrite length_drop. lia.
Qed.

Lemma stored_ok facility level flags ts dict text :
  let r := stored facility level flags ts dict text in
  in_u64 ts → rsize r < 2 ^ 16 → rec_ok r.
Proof.
  intros r Hts Hs. split_and!; try done; try (apply Z.mod_pos_bound; lia); cbn.
  - change 7 with (Z.ones 3). rewrite Z.land_ones by lia. apply Z.mod_pos_bound. lia.
  - change 7 with (Z.ones 3). rewrite Z.land_ones by lia. apply Z.mod_pos_bound. lia.
  - change 31 with (Z.ones 5). rewrite Z.land_ones by lia. apply Z.mod_pos_bound. lia.
  - change 31 with (Z.ones 5). rewrite Z.land_ones by lia. apply Z.mod_pos_bound. lia.
Qed.

Lemma log_store_ok s L w facility level flags ts_nsec local_clock dict text :
  let ts := if decide (ts_nsec > 0) then ts_nsec else local_clock in
  let r := stored facility level flags ts dict text in
  ring s L w → in_u64 ts → rsize r < 2 ^ 16 → 2 * rsize r + HDR < log_buf_len s →
  log_next_seq s + 1 < 2 ^ 64 →
  ∃ k s' w', log_store s facility level flags ts_nsec local_clock dict text = Some s' ∧
    (k ≤ length L)%nat ∧ ring s' (drop k L ++ [r]) w' ∧ log_buf_len s' = log_buf_len s ∧
    log_first_seq s' = log_first_seq s + Z.of_nat k ∧
    (k = length L ∨ free_after s L w k > rsize r + HDR) ∧
    (∀ j, (j < k)%nat → free_after s L w j ≤ rsize r + HDR) ∧
    ∀ j, (k ≤ j ≤ length L)%nat →
      pos (log_first_idx s') (drop k L ++ [r]) w' (j - k) = pos (log_first_idx s) L w j.
Proof using Halign.
  intros ts r R Hts H16 Hfit Hseq. pose proof (stored_ok _ _ _ _ _ _ Hts H16) as Hr. fold r in Hr.
  pose proof (rsize_range r) as [Hs1 Hs2].
  unfold PrintkLog.log_store. cbn zeta. change (HDR + Z.of_nat (length text) + Z.of_nat (length dict)) with (raw_size r).
  change (raw_size r + PrintkLog.pad_of LOG_ALIGN (raw_size r)) with (rsize r).
  assert (u32 (rsize r) = rsize r) as -> by (apply wrap_small; unfold in_width, HDR in *; lia).
  destruct (g_seq _ _ _ R) as (Hq0 & Hq1 & Hq2).
  replace (Z.to_nat (log_next_seq s - log_first_seq s)) with (length L) by lia.
  destruct (make_room_ok (rsize r) (length L) s L w R ltac:(lia))
    as (k & s1 & w1 & -> & Hk & R1 & Es1 & Hpos1 & Hroom & Hmin).
  cbn [mbind option_bind].
  assert (log_next_seq s1 = log_next_seq s ∧ log_buf_len s1 = log_buf_len s ∧
    log_first_seq s1 = log_first_seq s + Z.of_nat k) as (En1 & El1 & Ef1) by (by rewrite Es1).
  destruct (append_ok s1 (drop k L) w1 r R1 Hr) as (w' & R' & Hend & Hpos'); [lia|lia|done|].
  destruct (g_idx _ _ _ R1) as (Hi1 & Hi2 & Hi3).
  assert (u32 (log_next_idx s1 + rsize r) = log_next_idx s1 + rsize r) as ->.
  { apply wrap_small. unfold in_width, HDR in *. lia. }
  set (s2 := if decide _ then _ else s1) in R', Hend.
  assert ((if decide (log_next_idx s1 + rsize r + HDR >= log_buf_len s1)
     then s ← wr s1 (log_next_idx s1) (replicate 16 0); Some (set_next s (log_next_seq s) 0)
     else Some s1) = Some s2) as ->.
  { unfold s2. case_decide; [|done]. rewrite wr_ok; [done|lia|]. rewrite length_replicate. unfold HDR in *. lia. }
  cbn [mbind option_bind].
  assert (log_buf_len s2 = log_buf_len s1 ∧ log_next_seq s2 = log_next_seq s1 ∧ 0 ≤ log_next_idx s2 ∧
    log_first_idx s2 = log_first_idx s1 ∧ log_first_seq s2 = log_first_seq s1) as (El2 & En2 & Hn2 & Efi2 & Ef2).
  { unfold s2. case_decide; cbn; split_and!; done || lia. }
  rewrite fill_message_ok by (fold ts r; unfold HDR in *; lia). fold ts r. cbn [mbind option_bind].
  set (m := fill (log_buf s2) (log_next_idx s2) r) in *.
  rewrite (msg_len_at _ _ r); [|by apply fill_rec|done|cbn; unfold HDR in *; lia].
  cbn [mbind option_bind]. lcbn. rewrite !wrap_small by (unfold in_width, HDR in *; lia). rewrite En2.
  eexists k, _, w'. split; [done|]. split_and!; [done|exact R'|cbn; congruence|cbn; congruence| |exact Hmin|].
  { destruct Hroom as [Hnil|Hroom]; [left; apply (f_equal length) in Hnil; rewrite length_drop in Hnil; cbn in Hnil; lia|right].
    unfold free_after. pose proof (Hpos1 0%nat) as H0. rewrite pos_0, Nat.add_0_r in H0. rewrite <- H0, <- Es1. exact Hroom. }
  intros j Hj. lcbn. rewrite Efi2, Hpos' by (rewrite length_drop; lia).
  rewrite Hpos1. f_equal. lia.
Qed.

(** ** Positions *)

Fixpoint idx_at (s : log_state) (i : nat) (idx : Z) : option Z :=
  match i with O => Some idx | S i => idx' ← log_next s idx; idx_at s i idx' end.

Lemma idx_at_first s q f i : ∀ idx, idx_at (set_first s q f) i idx = idx_at s i idx.
Proof.
  induction i as [|i IH]; intros idx; [done|]. cbn [idx_at].
  change (log_next (set_first s q f) idx) with (log_next s idx).
  destruct (log_next s idx); [apply IH|done].
Qed.

Lemma ring_idx s L w i :
  ring s L w → (i ≤ length L)%nat → idx_at s i (log_first_idx s) = Some (pos (log_first_idx s) L w i).
Proof using Halign.
  revert s L w. induction i as [|i IH]; intros s L w R Hi.
  { cbn. destruct w as [n|]; cbn; [rewrite decide_True by lia|]; f_equal; rewrite take_0; cbn; lia. }
  destruct L as [|r L]; [cbn in Hi; lia|].
  destruct (ring_head s r L w R) as (a & idx & w1 & _ & _ & _ & _ & E & R1 & Hw1 & Hi1).
  cbn [idx_at]. rewrite E. cbn [mbind option_bind].
  rewrite <- (idx_at_first s (u64 (log_first_seq s + 1)) idx). cbn in Hi.
  specialize (IH _ L w1 R1 ltac:(lia)). cbn [log_first_idx set_first] in IH. rewrite IH. f_equal.
  rewrite Hi1, Hw1. apply pos_head.
Qed.

(** The record number [i] is found at its index. *)
Lemma ring_read s L w i r :
  ring s L w → L !! i = Some r →
  ∃ a idx, log_from_idx s (pos (log_first_idx s) L w i) = Some a ∧ rec_at (log_buf s) a r ∧
    0 ≤ a ∧ a + rsize r ≤ log_buf_len s ∧
    log_next s (pos (log_first_idx s) L w i) = Some idx ∧ idx = pos (log_first_idx s) L w (S i).
Proof using Halign.
  revert s L w. induction i as [|i IH]; intros s L w R Hr; (destruct L as [|q L]; [done|]);
    destruct (ring_head s q L w R) as (a & idx & w1 & E1 & Ha & Ha0 & Hal & E & R1 & Hw1 & Hi1).
  - injection Hr as ->.
    assert (pos (log_first_idx s) (r :: L) w 0 = log_first_idx s) as ->.
    { destruct w as [n|]; cbn; [rewrite decide_True by lia|]; lia. }
    exists a, idx. split_and!; try done.
    rewrite <- pos_head. cbn zeta. rewrite <- Hi1, <- Hw1.
    destruct w1 as [n|]; cbn; [rewrite decide_True by lia|]; rewrite take_0; cbn; lia.
  - cbn in Hr. destruct (IH _ L w1 R1 Hr) as (a' & idx' & F1 & Ha' & Hb & Hc & F2 & Hi').
    cbn [log_first_idx set_first] in *. rewrite Hi1, Hw1, !pos_head in *. by exists a', idx'.
Qed.

Lemma span_app L1 L2 : span (L1 ++ L2) = span L1 + span L2.
Proof. induction L1 as [|r L1 IH]; [done|]. cbn in *. unfold span in *. lia. Qed.

Lemma span_nonneg L : 0 ≤ span L.
Proof using Halign. induction L as [|r L IH]; [done|]. cbn. pose proof (rsize_range r). unfold HDR, span in *. lia. Qed.

Lemma flat_span m L : ∀ cur stop, flat m cur L stop → stop = cur + span L.
Proof.
  induction L as [|r L IH]; intros cur stop H; cbn in *; [lia|]. destruct H as [_ H]. apply IH in H.
  unfold span in *. lia.
Qed.

Lemma span_take_lt L i : (i < length L)%nat → span (take i L) < span L.
Proof using Halign.
  intros Hi. rewrite <- (take_drop i L) at 2. rewrite span_app.
  destruct (drop i L) as [|r l] eqn:E; [apply (f_equal length) in E; rewrite length_drop in E; cbn in E; lia|].
  cbn. pose proof (rsize_range r). pose proof (span_nonneg l). unfold HDR, span in *. lia.
Qed.

(** Only the position behind the last record is the next index. *)
Lemma pos_next s L w i :
  ring s L w → (i ≤ length L)%nat →
  pos (log_first_idx s) L w i = log_next_idx s ↔ i = length L.
Proof using Halign.
  intros [_ _ _ Hlay] Hi. destruct w as [n|]; cbn [pos laid_out] in *.
  - destruct Hlay as (Hn & Hnf & e & _ & _ & _ & H2). apply flat_span in H2.
    destruct (decide (i ≤ n)%nat) as [Hle|Hgt].
    + pose proof (span_nonneg (take i L)). split; lia.
    + rewrite H2. destruct (decide (i = length L)) as [->|Hne].
      * rewrite take_ge by (rewrite length_drop; lia). split; lia.
      * pose proof (span_take_lt (drop n L) (i - n) ltac:(rewrite length_drop; lia)). split; lia.
  - apply flat_span in Hlay. rewrite Hlay. destruct (decide (i = length L)) as [->|Hne].
    + rewrite take_ge by lia. split; lia.
    + pose proof (span_take_lt L i ltac:(lia)). split; lia.
Qed.

Lemma pos_range s L w i :
  ring s L w → (i ≤ length L)%nat → 0 ≤ pos (log_first_idx s) L w i ≤ log_buf_len s.
Proof using Halign.
  intros [(Hf & Hn & Hb) _ _ Hlay] Hi. unfold HDR in *.
  assert (∀ l k, span (take k l) ≤ span l) as Hle.
  { intros l k. rewrite <- (take_drop k l) at 2. rewrite span_app. pose proof (span_nonneg (drop k l)). lia. }
  destruct w as [n|]; cbn [pos laid_out] in *.
  - destruct Hlay as (Hn' & Hnf & e & H1 & _ & He & H2). apply flat_span in H1, H2. unfold HDR in *.
    pose proof (span_nonneg (take (i - n) (drop n L))). pose proof (Hle (drop n L) (i - n)%nat).
    pose proof (span_nonneg (take i L)). case_decide as Hd; [|lia].
    assert (take i L = take i (take n L)) as -> by (rewrite take_take; f_equal; lia).
    pose proof (Hle (take n L) i). pose proof (span_nonneg (take i (take n L))). lia.
  - apply flat_span in Hlay. pose proof (Hle L i). pose proof (span_nonneg (take i L)). lia.
Qed.
End ring.

(** * Readers *)

(** A position that a reader keeps: the number of the next record to read, and
    its index. *)
Definition reader_ok (s : log_state) (seq idx : Z) : Prop :=
  seq < log_first_seq s ∨
  log_first_seq s ≤ seq ≤ log_next_seq s ∧
  idx_at s (Z.to_nat (seq - log_first_seq s)) (log_first_idx s) = Some idx.

Section readers.
Context (LOG_ALIGN : Z) (Halign : LOG_ALIGN = 4 ∨ LOG_ALIGN = 8).
Context (s : log_state) (L : list record) (w : option nat) (R : ring LOG_ALIGN s L w).

Lemma reader_pos seq idx :
  reader_ok s seq idx → log_first_seq s ≤ seq →
  ∃ i, (i ≤ length L)%nat ∧ seq = log_first_seq s + Z.of_nat i ∧
    idx = pos LOG_ALIGN (log_first_idx s) L w i.
Proof using Halign R.
  intros [?|[Hs Hi]] Hle; [lia|]. destruct (g_seq _ _ _ _ R) as (_ & Hq & _).
  exists (Z.to_nat (seq - log_first_seq s)). split; [lia|]. split; [lia|].
  rewrite (ring_idx LOG_ALIGN Halign s L w _ R) in Hi by lia. by injection Hi.
Qed.

Lemma pos_reader i :
  (i ≤ length L)%nat →
  reader_ok s (log_first_seq s + Z.of_nat i) (pos LOG_ALIGN (log_first_idx s) L w i).
Proof using Halign R.
  intros Hi. right. destruct (g_seq _ _ _ _ R) as (_ & Hq & _). split; [lia|].
  replace (Z.to_nat (log_first_seq s + Z.of_nat i - log_first_seq s)) with i by lia.
  by apply ring_idx.
Qed.

Lemma first_reader : reader_ok s (log_first_seq s) (log_first_idx s).
Proof using R.
  right. destruct (g_seq _ _ _ _ R) as (_ & Hq & _). split; [lia|]. by rewrite Z.sub_diag.
Qed.

(** A reader that has not read everything finds its record. *)
Lemma reader_read seq idx :
  reader_ok s seq idx → log_first_seq s ≤ seq < log_next_seq s →
  ∃ r a idx', L !! Z.to_nat (seq - log_first_seq s) = Some r ∧ log_from_idx s idx = Some a ∧
    rec_at LOG_ALIGN (log_buf s) a r ∧ 0 ≤ a ∧ a + rsize LOG_ALIGN r ≤ log_buf_len s ∧
    log_next s idx = Some idx' ∧ reader_ok s (seq + 1) idx'.
Proof using Halign R.
  intros Hok Hs. destruct (reader_pos seq idx Hok ltac:(lia)) as (i & Hi & -> & ->).
  destruct (g_seq _ _ _ _ R) as (_ & Hq & _).
  replace (Z.to_nat (log_first_seq s + Z.of_nat i - log_first_seq s)) with i by lia.
  destruct (lookup_lt_is_Some_2 L i ltac:(lia)) as [r Hr].
  destruct (ring_read LOG_ALIGN Halign s L w i r R Hr) as (a & idx' & E1 & Ha & Ha0 & Hal & E2 & ->).
  exists r, a, (pos LOG_ALIGN (log_first_idx s) L w (S i)). split_and!; try done.
  replace (log_first_seq s + Z.of_nat i + 1) with (log_first_seq s + Z.of_nat (S i)) by lia.
  apply pos_reader. lia.
Qed.

(** A reader's position stays good when the first [k] records go. *)
Lemma reader_kept s' L' w' k seq idx :
  ring LOG_ALIGN s' L' w' → log_first_seq s' = log_first_seq s + Z.of_nat k →
  (length L - k ≤ length L')%nat →
  (∀ j, (k ≤ j ≤ length L)%nat →
    pos LOG_ALIGN (log_first_idx s') L' w' (j - k) = pos LOG_ALIGN (log_first_idx s) L w j) →
  reader_ok s seq idx → reader_ok s' seq idx.
Proof using Halign R.
  intros R' Hf Hlen Hpos Hreader. destruct (decide (seq < log_first_seq s')) as [Hlt|Hge]; [by left|].
  destruct (reader_pos seq idx Hreader) as (i & Hi & -> & ->); [lia|].
  rewrite <- (Hpos i) by lia.
  replace (log_first_seq s + Z.of_nat i) with (log_first_seq s' + Z.of_nat (i - k)) by lia.
  destruct (g_seq _ _ _ _ R') as (_ & Hq' & _). right. split; [lia|].
  replace (Z.to_nat (log_first_seq s' + Z.of_nat (i - k) - log_first_seq s')) with (i - k)%nat by lia.
  apply ring_idx; [done|done|lia].
Qed.
End readers.

(** The fields of a stored record read back. *)
Lemma rec_fields LOG_ALIGN s a r :
  rec_at LOG_ALIGN (log_buf s) a r → rec_ok LOG_ALIGN r →
  msg_ts s a = r_ts r ∧ msg_facility s a = r_facility r ∧ msg_flags s a = r_flags r ∧
  msg_level s a = r_level r ∧ log_text s a = r_text r ∧ log_dict s a = r_dict r.
Proof.
  intros (H1 & H2 & H3 & H4 & H5 & H6 & H7 & H8) (_ & _ & Hl & Hf & _).
  unfold msg_ts, msg_facility, msg_flags, msg_level, log_text, log_dict, msg_text_len, msg_dict_len.
  rewrite H1, H3, H4, H5, H6, !Nat2Z.id, H7, H8. split_and!; try done.
  - change 31 with (Z.ones 5). rewrite Z.land_ones by lia. change (2 ^ 5) with 32. dlia.
  - rewrite Z.shiftr_div_pow2 by lia. change (2 ^ 5) with 32. dlia.
Qed.

(** With room for it in the buffer as it is, no record is dropped. *)
Lemma free_none LOG_ALIGN s L w k size :
  (∀ j, (j < k)%nat → free_after LOG_ALIGN s L w j ≤ size) → free_of s > size → k = 0%nat.
Proof.
  intros Hmin Hfree. destruct k as [|k]; [done|]. specialize (Hmin 0%nat ltac:(lia)).
  unfold free_after, free_of in *. rewrite pos_0 in Hmin. cbn in Hmin. lia.
Qed.

(** The empty buffer. *)
Definition log_init (len : Z) : log_state := mkLog (λ _, 0) len 0 0 0 0.

Lemma ring_init LOG_ALIGN len : HDR ≤ len < 2 ^ 31 → ring LOG_ALIGN (log_init len) [] None.
Proof. intros H. split; cbn; [unfold HDR in *; lia|lia|constructor|done]. Qed.

(** C4: [log_store] keeps the buffer a queue of records: it drops the [k] oldest
    ones, puts the new one at the end, and [k] is the least number that leaves
    the room: with any fewer dropped the free bytes are too few, and with [k]
    dropped they suffice or no record is left.  It writes only inside the buffer, and every reader's
    position stays good: it still names the same record, or is before the first
    record and will be noticed. *)
Theorem log_store_queue LOG_ALIGN s L w facility level flags ts_nsec local_clock dict text seq idx
    (Halign : LOG_ALIGN = 4 ∨ LOG_ALIGN = 8) (R : ring LOG_ALIGN s L w)
    (Hts : in_u64 (if decide (ts_nsec > 0) then ts_nsec else local_clock))
    (H16 : HDR + Z.of_nat (length text) + Z.of_nat (length dict) + LOG_ALIGN ≤ 2 ^ 16)
    (Hfit : 2 * (HDR + Z.of_nat (length text) + Z.of_nat (length dict) + LOG_ALIGN) + HDR ≤ log_buf_len s)
    (Hseq : log_next_seq s + 1 < 2 ^ 64) (Hreader : reader_ok s seq idx) :
  let r := Rec (if decide (ts_nsec > 0) then ts_nsec else local_clock) (facility mod 256)
             (Z.land level 7) (Z.land flags 31) text dict in
  ∃ k s' w', log_store LOG_ALIGN s facility level flags ts_nsec local_clock dict text = Some s' ∧
    (k ≤ length L)%nat ∧ ring LOG_ALIGN s' (drop k L ++ [r]) w' ∧
    log_first_seq s' = log_first_seq s + Z.of_nat k ∧ log_next_seq s' = log_next_seq s + 1 ∧
    (k = length L ∨ free_after LOG_ALIGN s L w k > rsize LOG_ALIGN r + HDR) ∧
    (∀ j, (j < k)%nat → free_after LOG_ALIGN s L w j ≤ rsize LOG_ALIGN r + HDR) ∧
    (free_of s > rsize LOG_ALIGN r + HDR → k = 0%nat) ∧ reader_ok s' seq idx.
Proof.
  intros r. change r with (stored facility level flags (if decide (ts_nsec > 0) then ts_nsec else local_clock) dict text).
  set (ts := if decide (ts_nsec > 0) then ts_nsec else local_clock) in *.
  assert (rsize LOG_ALIGN (stored facility level flags ts dict text) <
    HDR + Z.of_nat (length text) + Z.of_nat (length dict) + LOG_ALIGN) as Hs.
  { pose proof (pad_range LOG_ALIGN Halign (raw_size (stored facility level flags ts dict text))).
    unfold rsize. unfold raw_size at 1. cbn [r_text r_dict stored]. lia. }
  destruct (log_store_ok LOG_ALIGN Halign s L w facility level flags ts_nsec local_clock dict text R Hts)
    as (k & s' & w' & E & Hk & R' & Hlen & Hf & Hroom & Hmin & Hpos); fold ts; [lia|lia|done|].
  exists k, s', w'. pose proof (g_seq _ _ _ _ R) as (_ & Hq & _). pose proof (g_seq _ _ _ _ R') as (_ & Hq' & _).
  rewrite length_app, length_drop in Hq'. cbn in Hq'. split_and!; try done; [lia| |].
  { intros Hfree. exact (free_none _ _ _ _ _ _ Hmin Hfree). }
  apply (reader_kept LOG_ALIGN Halign s L w R s' (drop k L ++ [r]) w' k); try done.
  rewrite length_app, length_drop. lia.
Qed.

(** * Examples *)

Module LogDemo.

(** Texts of 20 bytes in a buffer of 128: three fit, the fourth goes to the
    start. *)
Definition text (c : Z) : list Z := replicate 20 c.
Definition store (s : log_state) (c : Z) : option log_state := log_store 4 s 0 6 6 0 1000 [] (text c).
Definition s3 : log_state :=
  default (log_init 128) (s ← store (log_init 128) 65; s ← store s 66; store s 67).

Definition rec (c : Z) : record := stored 0 6 6 1000 [] (text c).

(** With room for it, a record is added and none dropped. *)
Lemma store_ring s L w c :
  ring 4 s L w → log_buf_len s = 128 → log_next_seq s + 1 < 2 ^ 64 → (L = [] ∨ free_of s > 52) →
  ∃ s' w', store s c = Some s' ∧ ring 4 s' (L ++ [rec c]) w'.
Proof.
  intros R Hl Hq Hroom.
  destruct (log_store_ok 4 (or_introl eq_refl) s L w 0 6 6 0 1000 [] (text c) R)
    as (k & s' & w' & E & Hk & R' & Hl' & Hf & _ & Hmin & _); [done|by vm_compute|rewrite Hl; by vm_compute|done|].
  assert (drop k L = L) as Hd.
  { destruct Hroom as [->|Hroom]; [by destruct k|]. enough (k = 0%nat) as -> by done.
    refine (free_none _ _ _ _ _ _ Hmin _). change (free_of s > 52). exact Hroom. }
  exists s', w'. split; [done|]. rewrite Hd in R'. exact R'.
Qed.

Lemma s3_ring : ∃ w, ring 4 s3 [rec 65; rec 66; rec 67] w.
Proof.
  destruct (store_ring (log_init 128) [] None 65) as (s1 & w1 & E1 & R1);
    [apply ring_init; done|done|done|by left|].
  assert (log_buf_len s1 = 128 ∧ log_next_seq s1 = 1 ∧ free_of s1 = 92) as (A1 & A2 & A3).
  { assert (s1 = default (log_init 128) (store (log_init 128) 65)) as -> by (by rewrite E1).
    split_and!; by vm_compute. }
  destruct (store_ring s1 _ w1 66 R1) as (s2 & w2 & E2 & R2); [done|rewrite A2; done|right; rewrite A3; done|].
  assert (log_buf_len s2 = 128 ∧ log_next_seq s2 = 2 ∧ free_of s2 = 56) as (B1 & B2 & B3).
  { assert (s2 = default (log_init 128) (s ← store (log_init 128) 65; store s 66)) as -> by (rewrite E1; cbn; by rewrite E2).
    split_and!; by vm_compute. }
  destruct (store_ring s2 _ w2 67 R2) as (s' & w3 & E3 & R3); [done|rewrite B2; done|right; rewrite B3; done|].
  exists w3. unfold s3. rewrite E1. cbn [mbind option_bind]. rewrite E2. cbn [mbind option_bind]. by rewrite E3.
Qed.

(** A reader that waits for record 3 finds it at the start; two old records went. *)
Lemma log_store_queue_witness :
  ∃ k s', log_store 4 s3 0 6 6 0 1000 [] (text 68) = Some s' ∧ k = 2%nat ∧
    log_first_seq s' = Z.of_nat k ∧ reader_ok s' 3 108 ∧ log_from_idx s' 108 = Some 0.
Proof.
  destruct s3_ring as (w & R).
  destruct (log_store_queue 4 s3 _ w 0 6 6 0 1000 [] (text 68) 3 108 (or_introl eq_refl) R)
    as (k & s' & w' & E & Hk & R' & Hf & Hn & _ & _ & _ & Hr); [by vm_compute..| |].
  { right. split; [split; by vm_compute|by vm_compute]. }
  exists k, s'. assert (log_first_seq s3 = 0) as F0 by (by vm_compute).
  assert (log_first_seq <$> log_store 4 s3 0 6 6 0 1000 [] (text 68) = Some 2) as F2 by (by vm_compute).
  assert ((s ← log_store 4 s3 0 6 6 0 1000 [] (text 68); log_from_idx s 108) = Some 0) as F3 by (by vm_compute).
  rewrite E in F2, F3. cbn in F2, F3. injection F2 as F2.  split; [exact E|]. split; [lia|]. split; [lia|]. by split.
Defined.
End LogDemo.
