(* ===== verification/PrintkText.v ===== *)
(** The text of log records, kernel/printk/printk.c: [print_time],
    [print_prefix], [msg_print_text], and the readers that hand text out: the
    syslog system call ([syslog_print], [SYSLOG_ACTION_SIZE_UNREAD]) and the
    dumpers ([kmsg_dump_get_line], [kmsg_dump_get_buffer], [kmsg_dump_rewind]).

    [msg_print_text] formats a record line by line into a buffer, or only
    computes the length when there is none.  The theorems: the two agree, a
    buffer is never overrun, successive [syslog_print]s hand out the texts of
    all records as one stream, and [kmsg_dump_get_buffer] hands out the youngest
    records that fit; but the last line is lost when they fit exactly. *)

From S2P Require Import Prelude PrintkLog.

Local Open Scope Z_scope.

(** * sprintf *)

Fixpoint digits (fuel : nat) (n : Z) : list Z :=
  match fuel with
  | O => []
  | S fuel => if decide (n < 10) then [48 + n] else digits fuel (n / 10) ++ [48 + n mod 10]
  end.

(** [%u] and its like, for values of up to 64 bits. *)
Definition dec (n : Z) : list Z := digits 20 n.

(** A minimal field width, filled with [c]. *)
Definition padl (w : nat) (c : Z) (l : list Z) : list Z := replicate (w - length l) c ++ l.

(** * Formatting a record *)

Section text.
Context (printk_time : bool).

Definition print_time (ts : Z) : list Z :=
  if printk_time
  then [91] ++ padl 5 32 (dec (ts / 1000000000)) ++ [46] ++
       padl 6 48 (dec (ts mod 1000000000 / 1000)) ++ [93; 32]
  else [].

(** [print_time] without a buffer: the length of ["[%5lu.000000] "]. *)
Definition print_time_len (ts : Z) : Z :=
  if printk_time
  then Z.of_nat (length ([91] ++ padl 5 32 (dec (ts / 1000000000)) ++ [46; 48; 48; 48; 48; 48; 48; 93; 32]))
  else 0.

Definition prefix_value (r : record) : Z := Z.lor (Z.shiftl (r_facility r) 3) (r_level r).

Definition print_prefix (r : record) (syslog : bool) : list Z :=
  (if syslog then [60] ++ dec (prefix_value r) ++ [62] else []) ++ print_time (r_ts r).

(** [print_prefix] without a buffer. *)
Definition print_prefix_len (r : record) (syslog : bool) : Z :=
  (if syslog then
     let prefix := prefix_value r in
     3 + (if decide (prefix > 999) then 3 else if decide (prefix > 99) then 2
          else if decide (prefix > 9) then 1 else 0)
   else 0) + print_time_len (r_ts r).

(** The text up to a newline, and what follows it. *)
Fixpoint split_nl (text : list Z) : list Z * option (list Z) :=
  match text with
  | [] => ([], None)
  | c :: text =>
      if decide (c = 10) then ([], Some text)
      else let '(line, next) := split_nl text in (c :: line, next)
  end.

(** The loop; [buf] is the size of the buffer, [None] when there is none. *)
Fixpoint print_lines (fuel : nat) (r : record) (syslog : bool) (buf : option Z)
    (prefix newline : bool) (text out : list Z) (len : Z) : option (list Z * Z) :=
  match fuel with
  | O => None
  | S fuel =>
      let '(line, next) := split_nl text in
      let text_len := Z.of_nat (length line) in
      let nl := match next with Some _ => true | None => newline end in
      let go out len :=
        match next with
        | Some text => print_lines fuel r syslog buf true newline text out len
        | None => Some (out, len)
        end in
      match buf with
      | Some size =>
          if decide (print_prefix_len r syslog + text_len + 1 >= u64 (size - len)) then Some (out, len)
          else
            let p := if prefix then print_prefix r syslog else [] in
            let n := if nl : bool then [10] else [] in
            go (out ++ p ++ line ++ n) (len + Z.of_nat (length p) + text_len + Z.of_nat (length n))
      | None =>
          go out (len + (if prefix then print_prefix_len r syslog else 0) + text_len +
                  (if nl : bool then 1 else 0))
      end
  end.

Definition has (flags flag : Z) : bool := bool_decide (Z.land flags flag ≠ 0).

(** Whether the first line gets a prefix, and the last one a newline. *)
Definition first_prefix (r : record) (prev : Z) : bool :=
  negb (has prev LOG_CONT && negb (has (r_flags r) LOG_PREFIX)) &&
  negb (has (r_flags r) LOG_CONT && (has prev LOG_CONT && negb (has prev LOG_NEWLINE))).
Definition last_newline (r : record) : bool :=
  negb (has (r_flags r) LOG_CONT && negb (has (r_flags r) LOG_NEWLINE)).

(** The bytes put into the buffer, and the length returned. *)
Definition msg_print_text (r : record) (prev : Z) (syslog : bool) (buf : option Z)
    : option (list Z * Z) :=
  print_lines (S (length (r_text r))) r syslog buf (first_prefix r prev) (last_newline r)
    (r_text r) [] 0.

(** * The reference: the lines of a record *)

Fixpoint lines_of (text : list Z) : list (list Z) :=
  match text with
  | [] => [[]]
  | c :: text =>
      if decide (c = 10) then [] :: lines_of text
      else match lines_of text with l :: ls => (c :: l) :: ls | [] => [[c]] end
  end.

Fixpoint line_texts (P : list Z) (prefix newline : bool) (ls : list (list Z)) : list (list Z) :=
  match ls with
  | [] => []
  | l :: ls =>
      ((if prefix then P else []) ++ l ++
       (if match ls with [] => newline | _ => true end then [10] else [])) ::
      line_texts P true newline ls
  end.

Definition rec_lines (r : record) (prev : Z) (syslog : bool) : list (list Z) :=
  line_texts (print_prefix r syslog) (first_prefix r prev) (last_newline r) (lines_of (r_text r)).

(** The whole text of a record. *)
Definition full_text (r : record) (prev : Z) (syslog : bool) : list Z :=
  concat (rec_lines r prev syslog).

(** ** Lemmas on sprintf *)

Lemma digits_length_le fuel : ∀ n k, (1 ≤ k)%nat → n < 10 ^ Z.of_nat k → (length (digits fuel n) ≤ k)%nat.
Proof.
  induction fuel as [|fuel IH]; intros n k Hk Hn; cbn [digits length]; [lia|].
  case_decide; [cbn; lia|]. rewrite length_app. cbn [length].
  destruct k as [|[|k]]; [lia|cbn in Hn; lia|].
  assert (length (digits fuel (n / 10)) ≤ S k)%nat; [|lia]. apply IH; [lia|].
  rewrite Nat2Z.inj_succ, Z.pow_succ_r in Hn by lia. apply Z.div_lt_upper_bound; lia.
Qed.

Lemma digits_length_ge fuel : ∀ n k,
  (k < fuel)%nat → 10 ^ Z.of_nat k ≤ n → (k < length (digits fuel n))%nat.
Proof.
  induction fuel as [|fuel IH]; intros n k Hk Hn; [lia|]. cbn [digits].
  case_decide as Hd.
  - destruct k; [cbn; lia|]. rewrite Nat2Z.inj_succ, Z.pow_succ_r in Hn by lia.
    assert (0 < 10 ^ Z.of_nat k) by (apply Z.pow_pos_nonneg; lia). lia.
  - rewrite length_app. cbn [length]. destruct k as [|k]; [lia|].
    rewrite Nat2Z.inj_succ, Z.pow_succ_r in Hn by lia.
    assert (k < length (digits fuel (n / 10)))%nat; [|lia]. apply IH; [lia|].
    apply Z.div_le_lower_bound; lia.
Qed.

Lemma dec_length n k :
  (k < 19)%nat → (k = 0%nat ∨ 10 ^ Z.of_nat k ≤ n) → n < 10 ^ Z.of_nat (S k) → length (dec n) = S k.
Proof.
  intros Hk Hlo Hhi. unfold dec. pose proof (digits_length_le 20 n (S k) ltac:(lia) Hhi).
  destruct Hlo as [-> |Hlo]; [|pose proof (digits_length_ge 20 n k ltac:(lia) Hlo); lia].
  enough (0 < length (digits 20 n))%nat by lia.
  cbn [digits]. case_decide; [cbn; lia|]. rewrite length_app. cbn. lia.
Qed.

Lemma padl_length w c l : (length l ≤ w)%nat → length (padl w c l) = w.
Proof. intros. unfold padl. rewrite length_app, length_replicate. lia. Qed.

(** The fields of a record header. *)
Definition hdr_ok (r : record) : Prop :=
  0 ≤ r_ts r ∧ 0 ≤ r_facility r < 256 ∧ 0 ≤ r_level r < 8.

Lemma prefix_value_eq r : hdr_ok r → prefix_value r = 8 * r_facility r + r_level r.
Proof.
  intros (_ & Hf & Hl). unfold prefix_value. rewrite Z.shiftl_mul_pow2 by lia. change (2 ^ 3) with 8.
  pose proof (Z.add_lor_land (r_facility r * 8) (r_level r)) as H.
  enough (Z.land (r_facility r * 8) (r_level r) = 0) by lia. clear H.
  apply Z.bits_inj'. intros i Hi. rewrite Z.land_spec, Z.bits_0.
  change 8 with (2 ^ 3). rewrite <- Z.shiftl_mul_pow2 by lia. destruct (decide (i < 3)) as [Hi3|Hi3].
  - by rewrite Z.shiftl_spec_low by lia.
  - rewrite (Z.bits_above_log2 (r_level r)); [by rewrite andb_false_r|lia|].
    destruct (decide (r_level r = 0)) as [->|]; [cbn; lia|]. apply Z.log2_lt_pow2; [lia|].
    apply Z.lt_le_trans with (2 ^ 3); [lia|]. apply Z.pow_le_mono_r; lia.
Qed.

(** The lengths computed without a buffer are those of the bytes written. *)
Lemma prefix_len_eq r syslog :
  hdr_ok r → print_prefix_len r syslog = Z.of_nat (length (print_prefix r syslog)).
Proof.
  intros Hr. pose proof (prefix_value_eq r Hr) as Hv. destruct Hr as (Ht & Hf & Hl).
  unfold print_prefix_len, print_prefix. rewrite length_app, Nat2Z.inj_add. f_equal.
  - destruct syslog; [|done]. cbn zeta. rewrite !length_app. cbn [length].
    set (v := prefix_value r) in *. repeat case_decide.
    + rewrite (dec_length v 3) by (lia || right; cbn; lia || cbn; lia). lia.
    + rewrite (dec_length v 2) by (lia || right; cbn; lia || cbn; lia). lia.
    + rewrite (dec_length v 1) by (lia || right; cbn; lia || cbn; lia). lia.
    + rewrite (dec_length v 0) by (lia || by left || cbn; lia). lia.
  - unfold print_time_len, print_time. destruct printk_time; [|done].
    rewrite !length_app. rewrite (padl_length 6); [cbn [length]; lia|].
    apply digits_length_le; [lia|]. change (10 ^ Z.of_nat 6) with 1000000.
    pose proof (Z.mod_pos_bound (r_ts r) 1000000000 ltac:(lia)). apply Z.div_lt_upper_bound; lia.
Qed.

(** ** The loop *)

Lemma split_lines text :
  match split_nl text with
  | (l, None) => lines_of text = [l]
  | (l, Some t) => lines_of text = l :: lines_of t ∧ (length t < length text)%nat
  end.
Proof.
  induction text as [|c text IH]; [done|]. cbn [split_nl lines_of]. case_decide; [split; [done|cbn; lia]|].
  destruct (split_nl text) as [l [t|]]; [destruct IH as [-> Hl]; split; [done|cbn; lia]|by rewrite IH].
Qed.

Lemma lines_of_ne text : lines_of text ≠ [].
Proof. pose proof (split_lines text) as H. destruct (split_nl text) as [l [t|]]; [destruct H as [-> _]|rewrite H]; done. Qed.

Section lines.
Context (r : record) (syslog newline : bool) (Hr : hdr_ok r).
Local Abbreviation P := (print_prefix r syslog).

(** The text of the first line, and of the others. *)
Lemma line_texts_split prefix text :
  let '(line, next) := split_nl text in
  let nl := match next with Some _ => true | None => newline end in
  line_texts P prefix newline (lines_of text) =
    ((if prefix then P else []) ++ line ++ (if nl : bool then [10] else [])) ::
    match next with Some t => line_texts P true newline (lines_of t) | None => [] end.
Proof using.
  pose proof (split_lines text) as H. destruct (split_nl text) as [l [t|]]; cbn zeta.
  - destruct H as [-> _]. cbn [line_texts]. pose proof (lines_of_ne t).
    destruct (lines_of t) as [|l' ls]; done.
  - by rewrite H.
Qed.

Lemma print_lines_len fuel : ∀ prefix text out len,
  (length text < fuel)%nat →
  print_lines fuel r syslog None prefix newline text out len =
    Some (out, len + Z.of_nat (length (concat (line_texts P prefix newline (lines_of text))))).
Proof using Hr.
  induction fuel as [|fuel IH]; intros prefix text out len Hf; [lia|]. cbn [print_lines].
  pose proof (line_texts_split prefix text) as Hl. pose proof (split_lines text) as Hs.
  destruct (split_nl text) as [l [t|]]; cbn zeta in Hl; rewrite Hl; cbn [concat];
    rewrite ?length_app, prefix_len_eq by done.
  - destruct Hs as [_ Hs]. rewrite IH by lia. do 2 f_equal.
    destruct prefix; cbn [length app]; lia.
  - do 2 f_equal. destruct prefix, newline; cbn [length app]; lia.
Qed.

(** What the condition of the loop keeps back. *)
Definition slack_of (prefix : bool) : Z :=
  (if prefix then 0 else Z.of_nat (length P)) + (if newline then 0 else 1).

Lemma print_lines_out size fuel : ∀ prefix text out len,
  (length text < fuel)%nat → len = Z.of_nat (length out) → len ≤ size < 2 ^ 64 →
  ∃ k out', print_lines fuel r syslog (Some size) prefix newline text out len =
      Some (out', Z.of_nat (length out')) ∧
    out' = out ++ concat (take k (line_texts P prefix newline (lines_of text))) ∧
    (out' = out ∨ Z.of_nat (length out') < size) ∧
    (len + Z.of_nat (length (concat (line_texts P prefix newline (lines_of text)))) + slack_of prefix < size →
     take k (line_texts P prefix newline (lines_of text)) = line_texts P prefix newline (lines_of text)).
Proof using Hr.
  induction fuel as [|fuel IH]; intros prefix text out len Hf Hlen Hsz; [lia|]. cbn [print_lines].
  pose proof (line_texts_split prefix text) as Hl. pose proof (split_lines text) as Hs.
  destruct (split_nl text) as [l next] eqn:Esp. cbn zeta in Hl |- *.
  rewrite prefix_len_eq by done. rewrite (wrap_small 64) by (unfold in_width; lia).
  set (p := if prefix then P else []) in *. set (nl := match next with Some _ => true | None => newline end) in *.
  set (n := if nl then [10] else []) in *.
  assert (Z.of_nat (length p) ≤ Z.of_nat (length P) ∧ (length n ≤ 1)%nat) as [Hp Hn].
  { split; [unfold p; destruct prefix; cbn; lia|unfold n; destruct nl; cbn; lia]. }
  destruct (decide (_ >= size - len)) as [Hfull|Hroom].
  { exists 0%nat, out. split_and!; [by rewrite Hlen|by rewrite app_nil_r|by left|].
    rewrite Hl. cbn [concat]. rewrite !length_app. intros Hx. exfalso. unfold slack_of in Hx.
    unfold p in *. unfold n, nl in *. destruct prefix, next, newline; cbn [length] in *; lia. }
  rewrite Hl.
  assert (len + Z.of_nat (length p) + Z.of_nat (length l) + Z.of_nat (length n) =
    Z.of_nat (length (out ++ p ++ l ++ n))) as Hlen' by (rewrite !length_app; lia).
  destruct next as [t|].
  - destruct Hs as [_ Hs].
    destruct (IH true t (out ++ p ++ l ++ n) _ ltac:(lia) Hlen' ltac:(lia)) as (k & out' & E & Eo & Hb & Hall).
    exists (S k), out'. split_and!; [done| | |].
    + rewrite Eo. cbn [take concat]. by rewrite !app_assoc.
    + right. destruct Hb as [->|?]; [|done]. rewrite !length_app. lia.
    + cbn [concat take]. rewrite length_app. intros Hx. f_equal. apply Hall. unfold slack_of in *.
      rewrite !length_app in *. destruct prefix; lia.
  - exists 1%nat, (out ++ p ++ l ++ n). split_and!; [by rewrite Hlen'| | |done].
    + cbn [take concat]. by rewrite app_nil_r.
    + right. rewrite !length_app. lia.
Qed.
End lines.

Lemma print_len_ok r prev syslog :
  hdr_ok r → msg_print_text r prev syslog None = Some ([], Z.of_nat (length (full_text r prev syslog))).
Proof. intros Hr. unfold msg_print_text. rewrite print_lines_len by (done || lia). done. Qed.

Lemma print_text_ok r prev syslog size :
  hdr_ok r → 0 ≤ size < 2 ^ 64 →
  ∃ k out, msg_print_text r prev syslog (Some size) = Some (out, Z.of_nat (length out)) ∧
    out = concat (take k (rec_lines r prev syslog)) ∧ (out = [] ∨ Z.of_nat (length out) < size) ∧
    (Z.of_nat (length (full_text r prev syslog)) +
       slack_of r syslog (last_newline r) (first_prefix r prev) < size → out = full_text r prev syslog).
Proof.
  intros Hr Hs.
  destruct (print_lines_out r syslog (last_newline r) Hr size (S (length (r_text r)))
    (first_prefix r prev) (r_text r) [] 0 ltac:(lia) eq_refl Hs) as (k & out & E & Eo & Hb & Hall).
  exists k, out. split_and!; [done|done|done|]. intros Hx. rewrite Eo. cbn [app].
  rewrite Hall by exact Hx. done.
Qed.

(** * The syslog system call *)

(** The position of the syslog readers. *)
Record syslog_state := mkSyslog {
  syslog_seq : Z;
  syslog_idx : Z;
  syslog_prev : Z;
  syslog_partial : Z;
}.

Definition LOG_LINE_MAX : Z := 1024 - 32.
Definition PREFIX_MAX : Z := 32.

(** The record at address [a]. *)
Definition msg_view (s : log_state) (a : Z) : record :=
  Rec (msg_ts s a) (msg_facility s a) (msg_level s a) (msg_flags s a) (log_text s a) (log_dict s a).

(** "messages are gone, move to first one" *)
Definition syslog_catch_up (s : log_state) (y : syslog_state) : syslog_state :=
  if decide (syslog_seq y < log_first_seq s) then mkSyslog (log_first_seq s) (log_first_idx s) 0 0 else y.

(** The loop of [syslog_print].  [out] is what has been copied, [fault n] says
    that copying to offset [n] of the user's buffer fails.  The result is the
    reader's position, the bytes copied and the value returned. *)
Fixpoint syslog_loop (fuel : nat) (s : log_state) (y : syslog_state) (fault : Z → bool) (size : Z)
    (out : list Z) : option (syslog_state * list Z * Z) :=
  let len := Z.of_nat (length out) in
  if decide (size > 0) then
    match fuel with
    | O => None
    | S fuel =>
        let y := syslog_catch_up s y in
        if decide (syslog_seq y = log_next_seq s) then Some (y, out, len)
        else
          let skip := syslog_partial y in
          a ← log_from_idx s (syslog_idx y);
          let msg := msg_view s a in
          '(text, n) ← msg_print_text msg (syslog_prev y) true (Some (LOG_LINE_MAX + PREFIX_MAX));
          '(y, n) ← (if decide (u64 (n - syslog_partial y) ≤ size) then
                       idx ← log_next s (syslog_idx y);
                       Some (mkSyslog (u64 (syslog_seq y + 1)) idx (r_flags msg) 0,
                             u64 (n - syslog_partial y))
                     else if decide (len = 0) then
                       Some (mkSyslog (syslog_seq y) (syslog_idx y) (syslog_prev y)
                               (u64 (syslog_partial y + size)), size)
                     else Some (y, 0));
          if decide (n = 0) then Some (y, out, len)
          else if fault len then Some (y, out, if decide (len = 0) then -14 else len)
          else syslog_loop fuel s y fault (size - n)
                 (out ++ take (Z.to_nat n) (drop (Z.to_nat skip) text))
    end
  else Some (y, out, len).

Definition syslog_print (s : log_state) (y : syslog_state) (alloc_ok : bool) (fault : Z → bool)
    (size : Z) : option (syslog_state * list Z * Z) :=
  if negb alloc_ok then Some (y, [], -12)
  else syslog_loop (Z.to_nat (log_next_seq s - log_first_seq s) + 2) s y fault size [].

(** [SYSLOG_ACTION_SIZE_UNREAD] from /proc/kmsg. *)
Definition size_unread_file (s : log_state) (y : syslog_state) : syslog_state * Z :=
  let y := syslog_catch_up s y in (y, s32 (log_next_idx s - syslog_idx y)).

(** [SYSLOG_ACTION_SIZE_UNREAD] from the system call. *)
Fixpoint unread_loop (fuel : nat) (s : log_state) (seq idx prev error : Z) : option Z :=
  if decide (seq < log_next_seq s) then
    match fuel with
    | O => None
    | S fuel =>
        a ← log_from_idx s idx;
        let msg := msg_view s a in
        '(_, n) ← msg_print_text msg prev true None;
        idx ← log_next s idx;
        unread_loop fuel s (u64 (seq + 1)) idx (r_flags msg) (error + n)
    end
  else Some error.

Definition size_unread (s : log_state) (y : syslog_state) : option (syslog_state * Z) :=
  let y := syslog_catch_up s y in
  e ← unread_loop (Z.to_nat (log_next_seq s - log_first_seq s)) s (syslog_seq y) (syslog_idx y)
        (syslog_prev y) 0;
  Some (y, s32 (e - syslog_partial y)).

(** ** The stream of texts *)

(** What [syslog_print] makes of a record. *)
Definition cut_text (r : record) (prev : Z) : list Z :=
  default [] (fst <$> msg_print_text r prev true (Some (LOG_LINE_MAX + PREFIX_MAX))).

Fixpoint texts (prev : Z) (L : list record) : list (list Z) :=
  match L with [] => [] | r :: L => cut_text r prev :: texts (r_flags r) L end.

Lemma cut_text_ok r prev :
  hdr_ok r →
  msg_print_text r prev true (Some (LOG_LINE_MAX + PREFIX_MAX)) =
    Some (cut_text r prev, Z.of_nat (length (cut_text r prev))) ∧
  Z.of_nat (length (cut_text r prev)) < 1024.
Proof.
  intros Hr. destruct (print_text_ok r prev true (LOG_LINE_MAX + PREFIX_MAX) Hr) as (k & out & E & _ & Hb & _);
    [unfold LOG_LINE_MAX, PREFIX_MAX; lia|].
  unfold cut_text. rewrite E. cbn. split; [done|]. unfold LOG_LINE_MAX, PREFIX_MAX in Hb.
  destruct Hb as [->|Hb]; [cbn; lia|lia].
Qed.

Section stream.
Context (LOG_ALIGN : Z) (Halign : LOG_ALIGN = 4 ∨ LOG_ALIGN = 8).
Context (s : log_state) (L : list record) (w : option nat) (R : ring LOG_ALIGN s L w).

(** The records from number [seq] on. *)
Definition rest (seq : Z) : list record := drop (Z.to_nat (seq - log_first_seq s)) L.

(** What is still to be read. *)
Definition stream (y : syslog_state) : list Z :=
  drop (Z.to_nat (syslog_partial y)) (concat (texts (syslog_prev y) (rest (syslog_seq y)))).

(** The position is good, and the partial read within the text of its record. *)
Definition syslog_ok (y : syslog_state) : Prop :=
  log_first_seq s ≤ syslog_seq y ∧ reader_ok s (syslog_seq y) (syslog_idx y) ∧
  0 ≤ syslog_partial y ≤
    match rest (syslog_seq y) with [] => 0 | r :: _ => Z.of_nat (length (cut_text r (syslog_prev y))) end.

Lemma rec_view a r : rec_at LOG_ALIGN (log_buf s) a r → r ∈ L → msg_view s a = r ∧ hdr_ok r.
Proof using R.
  intros Ha Hr. pose proof (g_recs _ _ _ _ R) as HL. rewrite Forall_forall in HL. specialize (HL r Hr).
  destruct (rec_fields LOG_ALIGN s a r Ha HL) as (H1 & H2 & H3 & H4 & H5 & H6).
  unfold msg_view. rewrite H1, H2, H3, H4, H5, H6. split; [by destruct r|].
  destruct HL as (Ht & Hf & Hl & _). split; [apply Ht|by split].
Qed.

(** One record further. *)
Lemma rest_step seq idx :
  reader_ok s seq idx → log_first_seq s ≤ seq → seq ≠ log_next_seq s →
  ∃ r a idx', rest seq = r :: rest (seq + 1) ∧ log_from_idx s idx = Some a ∧ msg_view s a = r ∧
    hdr_ok r ∧ log_next s idx = Some idx' ∧ reader_ok s (seq + 1) idx' ∧ seq < log_next_seq s.
Proof using Halign R.
  intros Hok Hle Hne. assert (seq < log_next_seq s) as Hlt by (destruct Hok as [?|[? _]]; lia).
  destruct (reader_read LOG_ALIGN Halign s L w R seq idx Hok ltac:(lia)) as (r & a & idx' & Hr & E1 & Ha & _ & _ & E2 & Hok').
  destruct (rec_view a r Ha (list_elem_of_lookup_2 _ _ _ Hr)) as [Hv Hh].
  exists r, a, idx'. split_and!; try done. unfold rest.
  replace (Z.to_nat (seq + 1 - log_first_seq s)) with (S (Z.to_nat (seq - log_first_seq s))) by lia.
  by apply drop_S.
Qed.

Lemma rest_end seq : seq = log_next_seq s → rest seq = [].
Proof using R. intros ->. destruct (g_seq _ _ _ _ R) as (_ & Hq & _). unfold rest. apply drop_ge. lia. Qed.

Lemma caught_up y : syslog_ok y → syslog_catch_up s y = y.
Proof. intros [H _]. unfold syslog_catch_up. by rewrite decide_False by lia. Qed.

(** The outcome of a read: [data] is taken from the front of the stream. *)
Definition read_ok (size : Z) (out : list Z) (y : syslog_state) (res : option (syslog_state * list Z * Z)) : Prop :=
  ∃ y' data, res = Some (y', out ++ data, Z.of_nat (length (out ++ data))) ∧ syslog_ok y' ∧
    data ++ stream y' = stream y ∧ Z.of_nat (length data) ≤ size ∧
    (out = [] → 0 < size → stream y ≠ [] → data ≠ [] ∨ syslog_seq y < syslog_seq y').

Lemma read_stop size out y res :
  res = Some (y, out, Z.of_nat (length out)) → syslog_ok y → 0 ≤ size →
  (out = [] → 0 < size → stream y = []) → read_ok size out y res.
Proof.
  intros -> Hok Hs Hp. exists y, []. rewrite !app_nil_r. split_and!; try done.
  intros Ho H0 Hne. by destruct Hne, Hp.
Qed.

Lemma syslog_loop_ok fuel : ∀ y size out,
  syslog_ok y → 0 ≤ size < 2 ^ 31 → (length (rest (syslog_seq y)) < fuel)%nat →
  read_ok size out y (syslog_loop fuel s y (λ _, false) size out).
Proof using Halign R.
  induction fuel as [|fuel IH]; intros y size out Hok Hs Hf; [lia|]. cbn [syslog_loop].
  destruct (decide (size > 0)) as [Hpos|Hz]; [|apply read_stop; (done || lia)].
  rewrite (caught_up y Hok). destruct Hok as (Hfst & Hrd & Hpart).
  destruct (decide (syslog_seq y = log_next_seq s)) as [He|Hne].
  { pose proof (rest_end _ He) as Hre. apply read_stop; [done|exact (conj Hfst (conj Hrd Hpart))|lia|].
    intros _ _. unfold stream. rewrite Hre. by destruct (Z.to_nat _). }
  destruct (rest_step _ _ Hrd Hfst Hne) as (r & a & idx' & Hrest & -> & Hview & Hh & Enext & Hrd' & Hlt).
  cbn [mbind option_bind]. rewrite Hview. destruct (cut_text_ok r (syslog_prev y) Hh) as [-> Hcut].
  cbn [mbind option_bind]. set (T := cut_text r (syslog_prev y)) in *. rewrite Hrest in Hpart, Hf. fold T in Hpart.
  destruct (g_seq _ _ _ _ R) as (Hq0 & _ & Hq2).
  rewrite (wrap_small 64 (Z.of_nat (length T) - _)) by (unfold in_width; lia).
  assert (stream y = drop (Z.to_nat (syslog_partial y)) T ++ concat (texts (r_flags r) (rest (syslog_seq y + 1)))) as Hst.
  { unfold stream. rewrite Hrest. cbn [texts concat]. fold T. rewrite drop_app_le by lia. done. }
  destruct (decide (Z.of_nat (length T) - syslog_partial y ≤ size)) as [Hfits|Htoo].
  - rewrite Enext. cbn [mbind option_bind]. rewrite wrap_small by (unfold in_width; lia).
    set (y' := mkSyslog _ _ _ _).
    assert (syslog_ok y') as Hok'.
    { split; [cbn; lia|]. split; [done|]. cbn. destruct (rest _); lia. }
    assert (stream y' = concat (texts (r_flags r) (rest (syslog_seq y + 1)))) as Hst' by done.
    destruct (decide (Z.of_nat (length T) - syslog_partial y = 0)) as [H0|H0].
    { exists y', []. rewrite !app_nil_r. split_and!; try done; [|cbn; lia|intros; right; cbn; lia].
      rewrite Hst, Hst', drop_ge by lia. done. }
    destruct (IH y' (size - (Z.of_nat (length T) - syslog_partial y))
      (out ++ take (Z.to_nat (Z.of_nat (length T) - syslog_partial y)) (drop (Z.to_nat (syslog_partial y)) T)) Hok')
      as (y2 & d2 & E2 & Hok2 & Hst2 & Hl2 & _); [lia|cbn [syslog_seq y' length] in *; lia|].
    rewrite take_ge in * by (rewrite length_drop; lia).
    exists y2, (drop (Z.to_nat (syslog_partial y)) T ++ d2). rewrite E2, <- !app_assoc. split_and!; try done.
    + by rewrite Hst2, Hst', Hst.
    + rewrite length_app, length_drop. lia.
    + intros _ _ _. left. intros [Hn _]%app_nil. apply (f_equal length) in Hn. rewrite length_drop in Hn. cbn [length] in Hn. lia.
  - destruct (decide (Z.of_nat (length out) = 0)) as [Hl0|Hl0].
    + assert (out = []) as -> by (destruct out; [done|cbn in Hl0; lia]). cbn [mbind option_bind].
      rewrite decide_False by lia. rewrite Z.sub_diag. rewrite wrap_small by (unfold in_width; lia).
      set (y' := mkSyslog _ _ _ _). set (d := take _ _).
      assert (syslog_ok y') as Hok'.
      { split; [done|]. split; [done|]. cbn [syslog_seq syslog_prev syslog_partial y']. rewrite Hrest. fold T. lia. }
      assert (length d = Z.to_nat size) as Hd by (unfold d; rewrite length_take, length_drop; lia).
      assert (syslog_loop fuel s y' (λ _, false) 0 ([] ++ d) = Some (y', d, Z.of_nat (length d))) as ->
        by (destruct fuel; done).
      exists y', d. split_and!; try done; [|cbn; lia|].
      * unfold stream. cbn [syslog_partial syslog_prev syslog_seq y'].
        rewrite Z2Nat.inj_add by lia. rewrite <- drop_drop. fold (stream y). rewrite Hst.
        rewrite drop_app_le by (rewrite length_drop; lia). unfold d. by rewrite app_assoc, take_drop.
      * intros _ _ _. left. intros Hn. rewrite Hn in Hd. cbn in Hd. lia.
    + cbn [mbind option_bind]. rewrite decide_True by done.
      apply read_stop; [done| |lia|intros ->; done]. split; [done|]. split; [done|]. rewrite Hrest. exact Hpart.
Qed.
End stream.

(** * Dumpers *)

Record kmsg_dumper := mkDumper {
  d_active : bool;
  d_cur_seq : Z;
  d_cur_idx : Z;
  d_next_seq : Z;
  d_next_idx : Z;
}.

(** "messages are gone, move to first available one" *)
Definition dumper_catch_up (s : log_state) (d : kmsg_dumper) : kmsg_dumper :=
  if decide (d_cur_seq d < log_first_seq s)
  then mkDumper (d_active d) (log_first_seq s) (log_first_idx s) (d_next_seq d) (d_next_idx d)
  else d.

(** One record into [line], which has [size] bytes; the text, and whether there
    was a record. *)
Definition kmsg_dump_get_line_nolock (s : log_state) (d : kmsg_dumper) (syslog : bool) (size : Z)
    : option (kmsg_dumper * list Z * bool) :=
  if negb (d_active d) then Some (d, [], false)
  else
    let d := dumper_catch_up s d in
    if decide (d_cur_seq d >= log_next_seq s) then Some (d, [], false)
    else
      a ← log_from_idx s (d_cur_idx d);
      '(text, _) ← msg_print_text (msg_view s a) 0 syslog (Some size);
      idx ← log_next s (d_cur_idx d);
      Some (mkDumper (d_active d) (u64 (d_cur_seq d + 1)) idx (d_next_seq d) (d_next_idx d), text, true).

(** "calculate length of entire buffer" *)
Fixpoint sum_loop (fuel : nat) (s : log_state) (seq next idx prev l : Z) : option Z :=
  if decide (seq < next) then
    match fuel with
    | O => None
    | S fuel =>
        a ← log_from_idx s idx;
        '(_, n) ← msg_print_text (msg_view s a) prev true None;
        idx ← log_next s idx;
        sum_loop fuel s (u64 (seq + 1)) next idx (r_flags (msg_view s a)) (u64 (l + n))
    end
  else Some l.

(** "move first record forward until length fits into the buffer" *)
Fixpoint skip_loop (fuel : nat) (s : log_state) (size seq next idx prev l : Z) : option (Z * Z * Z) :=
  if decide (l > size ∧ seq < next) then
    match fuel with
    | O => None
    | S fuel =>
        a ← log_from_idx s idx;
        '(_, n) ← msg_print_text (msg_view s a) prev true None;
        idx ← log_next s idx;
        skip_loop fuel s size (u64 (seq + 1)) next idx (r_flags (msg_view s a)) (u64 (l - n))
    end
  else Some (seq, idx, prev).

Fixpoint copy_loop (fuel : nat) (s : log_state) (syslog : bool) (size seq next idx prev : Z)
    (out : list Z) : option (list Z) :=
  if decide (seq < next) then
    match fuel with
    | O => None
    | S fuel =>
        a ← log_from_idx s idx;
        '(text, _) ← msg_print_text (msg_view s a) prev syslog (Some (u64 (size - Z.of_nat (length out))));
        idx ← log_next s idx;
        copy_loop fuel s syslog size (u64 (seq + 1)) next idx (r_flags (msg_view s a)) (out ++ text)
    end
  else Some out.

Definition kmsg_dump_get_buffer (s : log_state) (d : kmsg_dumper) (syslog : bool) (size : Z)
    : option (kmsg_dumper * list Z * bool) :=
  if negb (d_active d) then Some (d, [], false)
  else
    let d := dumper_catch_up s d in
    if decide (d_cur_seq d >= d_next_seq d) then Some (d, [], false)
    else
      let fuel := Z.to_nat (d_next_seq d - d_cur_seq d) in
      l ← sum_loop fuel s (d_cur_seq d) (d_next_seq d) (d_cur_idx d) 0 0;
      '(seq, idx, prev) ← skip_loop fuel s size (d_cur_seq d) (d_next_seq d) (d_cur_idx d) 0 l;
      out ← copy_loop fuel s syslog size seq (d_next_seq d) idx prev [];
      Some (mkDumper (d_active d) (d_cur_seq d) (d_cur_idx d) seq idx, out, true).

(** [clear_seq], [clear_idx]: the first record after the last clear. *)
Definition kmsg_dump_rewind (s : log_state) (clear_seq clear_idx : Z) (d : kmsg_dumper) : kmsg_dumper :=
  mkDumper (d_active d) clear_seq clear_idx (log_next_seq s) (log_next_idx s).

(** ** What the loops compute *)

(** The whole texts of a run of records. *)
Fixpoint ftexts (syslog : bool) (prev : Z) (L : list record) : list (list Z) :=
  match L with [] => [] | r :: L => full_text r prev syslog :: ftexts syslog (r_flags r) L end.

Definition total (l : list (list Z)) : Z := Z.of_nat (length (concat l)).

Lemma total_cons t l : total (t :: l) = Z.of_nat (length t) + total l.
Proof. unfold total. cbn. rewrite length_app. lia. Qed.

Section dump.
Context (LOG_ALIGN : Z) (Halign : LOG_ALIGN = 4 ∨ LOG_ALIGN = 8).
Context (s : log_state) (L : list record) (w : option nat) (R : ring LOG_ALIGN s L w).

(** The records from [seq] to before [next]. *)
Definition between (seq next : Z) : list record := take (Z.to_nat (next - seq)) (rest s L seq).

Lemma between_step seq next idx :
  reader_ok s seq idx → log_first_seq s ≤ seq → seq < next ≤ log_next_seq s →
  ∃ r a idx', between seq next = r :: between (seq + 1) next ∧ log_from_idx s idx = Some a ∧
    msg_view s a = r ∧ hdr_ok r ∧ log_next s idx = Some idx' ∧ reader_ok s (seq + 1) idx' ∧
    u64 (seq + 1) = seq + 1.
Proof using Halign R.
  intros Hok Hle Hlt. destruct (g_seq _ _ _ _ R) as (Hq0 & _ & Hq2).
  destruct (rest_step LOG_ALIGN Halign s L w R seq idx Hok Hle ltac:(lia))
    as (r & a & idx' & Hr & E1 & Hv & Hh & E2 & Hok' & _).
  exists r, a, idx'. split_and!; try done; [|apply wrap_small; unfold in_width; lia].
  unfold between. rewrite Hr. replace (Z.to_nat (next - seq)) with (S (Z.to_nat (next - (seq + 1)))) by lia. done.
Qed.

Lemma between_nil seq next : next ≤ seq → between seq next = [].
Proof. intros. unfold between. replace (Z.to_nat (next - seq)) with 0%nat by lia. done. Qed.

Lemma sum_loop_ok next fuel : ∀ seq idx prev l,
  reader_ok s seq idx → log_first_seq s ≤ seq → next ≤ log_next_seq s → next - seq ≤ Z.of_nat fuel →
  0 ≤ l → l + total (ftexts true prev (between seq next)) < 2 ^ 64 →
  sum_loop fuel s seq next idx prev l = Some (l + total (ftexts true prev (between seq next))).
Proof using Halign R.
  induction fuel as [|fuel IH]; intros seq idx prev l Hok Hle Hnext Hf Hl Hb; cbn [sum_loop].
  - rewrite decide_False by lia. rewrite between_nil by lia. cbn. f_equal. unfold total. cbn. lia.
  - destruct (decide (seq < next)) as [Hlt|Hge].
    2: { rewrite between_nil by lia. cbn. f_equal. unfold total. cbn. lia. }
    destruct (between_step seq next idx Hok Hle ltac:(lia)) as (r & a & idx' & Hbt & -> & Hv & Hh & -> & Hok' & ->).
    rewrite Hbt in *. cbn [ftexts] in *. rewrite total_cons in *. cbn [mbind option_bind]. rewrite Hv.
    rewrite print_len_ok by done. cbn [mbind option_bind].
    assert (0 ≤ total (ftexts true (r_flags r) (between (seq + 1) next))) by (unfold total; lia).
    rewrite wrap_small by (unfold in_width; lia). rewrite IH by (done || lia). f_equal. lia.
Qed.

(** The loop stops at the first place from which the texts fit. *)
Lemma skip_loop_ok size next fuel : ∀ seq idx prev,
  reader_ok s seq idx → log_first_seq s ≤ seq → next ≤ log_next_seq s → seq ≤ next → next - seq ≤ Z.of_nat fuel →
  0 ≤ size → total (ftexts true prev (between seq next)) < 2 ^ 64 →
  let F := ftexts true prev (between seq next) in
  ∃ n idx' prev', skip_loop fuel s size seq next idx prev (total F) = Some (seq + Z.of_nat n, idx', prev') ∧
    (Z.of_nat n ≤ next - seq) ∧ reader_ok s (seq + Z.of_nat n) idx' ∧
    total (drop n F) ≤ size ∧ (∀ k, (k < n)%nat → total (drop k F) > size) ∧
    ∀ syslog, drop n (ftexts syslog prev (between seq next)) =
              ftexts syslog prev' (between (seq + Z.of_nat n) next).
Proof using Halign R.
  induction fuel as [|fuel IH]; intros seq idx prev Hok Hle Hnext Hsn Hf Hsz Hb F; cbn [skip_loop].
  - assert (F = []) as HF by (unfold F; rewrite between_nil by lia; done). rewrite decide_False by lia.
    exists 0%nat, idx, prev. rewrite Z.add_0_r, HF. split_and!; try done; try lia; unfold total; cbn; lia.
  - destruct (decide (total F > size ∧ seq < next)) as [[Hbig Hlt]|Hstop].
    2: { exists 0%nat, idx, prev. rewrite Z.add_0_r. split_and!; try done; try lia.
      change (total (drop 0 F)) with (total F). destruct (decide (seq < next)) as [Hlt|]; [by apply Znot_gt_le; intros ?; apply Hstop|]. unfold F. rewrite between_nil by lia. unfold total. cbn. lia. }
    destruct (between_step seq next idx Hok Hle ltac:(lia)) as (r & a & idx1 & Hbt & -> & Hv & Hh & -> & Hok' & ->).
    unfold F in *. clear F. rewrite Hbt in *. cbn [ftexts] in *. rewrite total_cons in *. cbn [mbind option_bind]. rewrite Hv.
    rewrite print_len_ok by done. cbn [mbind option_bind].
    set (F := ftexts true (r_flags r) (between (seq + 1) next)) in *.
    assert (0 ≤ total F) by (unfold total; lia).
    replace (u64 (Z.of_nat (length (full_text r prev true)) + total F - Z.of_nat (length (full_text r prev true))))
      with (total F) by (rewrite wrap_small by (unfold in_width; lia); lia).
    destruct (IH (seq + 1) idx1 (r_flags r) Hok' ltac:(lia) Hnext ltac:(lia) ltac:(lia) Hsz ltac:(fold F; lia))
      as (n & idx' & prev' & E & Hn & Hok2 & Htot & Hleast & Hdrop). fold F in E, Htot, Hleast.
    exists (S n), idx', prev'. replace (seq + Z.of_nat (S n)) with (seq + 1 + Z.of_nat n) by lia.
    split_and!; try done; [lia|].
    intros [|k] Hk; cbn [drop]; [rewrite total_cons; lia|]. apply Hleast. lia.
Qed.

(** The prefix fits into [PREFIX_MAX]. *)
Lemma prefix_bound r syslog :
  hdr_ok r → r_ts r < 2 ^ 64 → (length (print_prefix r syslog) ≤ 27)%nat.
Proof.
  intros Hr Ht. pose proof (prefix_value_eq r Hr) as Hv. destruct Hr as (Ht0 & Hf & Hl).
  unfold print_prefix, print_time. rewrite length_app.
  assert (Z.of_nat (length (if syslog then [60] ++ dec (prefix_value r) ++ [62] else [])) ≤ 6).
  { destruct syslog; [|cbn; lia]. rewrite !length_app. cbn [length].
    pose proof (digits_length_le 20 (prefix_value r) 4 ltac:(lia) ltac:(cbn; lia)). unfold dec. lia. }
  enough (Z.of_nat (length (if printk_time then [91] ++ padl 5 32 (dec (r_ts r / 1000000000)) ++ [46] ++
    padl 6 48 (dec (r_ts r mod 1000000000 / 1000)) ++ [93; 32] else [])) ≤ 21) by lia.
  destruct printk_time; [|cbn; lia]. rewrite !length_app. cbn [length].
  assert (length (dec (r_ts r / 1000000000)) ≤ 11)%nat as H1.
  { apply digits_length_le; [lia|]. apply Z.div_lt_upper_bound; [lia|]. cbn in *. lia. }
  assert (length (dec (r_ts r mod 1000000000 / 1000)) ≤ 6)%nat as H2.
  { apply digits_length_le; [lia|]. pose proof (Z.mod_pos_bound (r_ts r) 1000000000 ltac:(lia)).
    apply Z.div_lt_upper_bound; [lia|]. cbn. lia. }
  rewrite (padl_length 6) by done. unfold padl. rewrite length_app, length_replicate. lia.
Qed.

(** Without the syslog prefix the text is shorter. *)
Lemma line_texts_mono P Q newline ls : ∀ prefix,
  (length P ≤ length Q)%nat →
  (length (concat (line_texts P prefix newline ls)) ≤ length (concat (line_texts Q prefix newline ls)))%nat.
Proof.
  induction ls as [|l ls IH]; intros prefix H; [done|]. cbn [line_texts concat]. rewrite !length_app.
  specialize (IH true H). destruct prefix; cbn [length]; lia.
Qed.

Lemma full_text_mono r prev syslog :
  (length (full_text r prev syslog) ≤ length (full_text r prev true))%nat.
Proof.
  apply line_texts_mono. unfold print_prefix. destruct syslog; rewrite !length_app; cbn [length]; lia.
Qed.

Lemma ftexts_mono syslog Ls : ∀ prev, total (ftexts syslog prev Ls) ≤ total (ftexts true prev Ls).
Proof.
  induction Ls as [|r Ls IH]; intros prev; [done|]. cbn [ftexts]. rewrite !total_cons.
  pose proof (full_text_mono r prev syslog). specialize (IH (r_flags r)). lia.
Qed.

Lemma between_in seq next r : r ∈ between seq next → r ∈ L.
Proof.
  unfold between, rest. intros [i H]%list_elem_of_lookup_1. apply lookup_take_Some in H as [H _].
  rewrite lookup_drop in H. by eapply list_elem_of_lookup_2.
Qed.

Lemma copy_loop_ok syslog size next fuel : ∀ seq idx prev out,
  reader_ok s seq idx → log_first_seq s ≤ seq → next ≤ log_next_seq s → next - seq ≤ Z.of_nat fuel →
  0 ≤ size < 2 ^ 64 → Z.of_nat (length out) ≤ size →
  ∃ out', copy_loop fuel s syslog size seq next idx prev out = Some (out ++ out') ∧
    Z.of_nat (length (out ++ out')) ≤ size ∧
    (Z.of_nat (length out) + total (ftexts true prev (between seq next)) + PREFIX_MAX ≤ size →
     out' = concat (ftexts syslog prev (between seq next))).
Proof using Halign R.
  induction fuel as [|fuel IH]; intros seq idx prev out Hok Hle Hnext Hf Hs Ho; cbn [copy_loop].
  { rewrite decide_False by lia. exists []. rewrite app_nil_r, between_nil by lia. by split_and!. }
  destruct (decide (seq < next)) as [Hlt|Hge].
  2: { exists []. rewrite app_nil_r, between_nil by lia. by split_and!. }
  destruct (between_step seq next idx Hok Hle ltac:(lia)) as (r & a & idx' & Hbt & -> & Hv & Hh & -> & Hok' & ->).
  assert (r_ts r < 2 ^ 64) as Hts.
  { assert (r ∈ L) as Hin by (apply (between_in seq next); rewrite Hbt; by left).
    pose proof (g_recs _ _ _ _ R) as HL. rewrite Forall_forall in HL. destruct (HL r Hin) as [[_ ?] _]. done. }
  rewrite Hbt. cbn [ftexts concat mbind option_bind]. rewrite total_cons, Hv.
  rewrite wrap_small by (unfold in_width; lia).
  destruct (print_text_ok r prev syslog (size - Z.of_nat (length out)) Hh ltac:(lia)) as (k & t & -> & _ & Hb & Hall).
  cbn [mbind option_bind].
  assert (Z.of_nat (length (out ++ t)) ≤ size) as Ho'.
  { rewrite length_app. destruct Hb as [->|?]; [cbn|]; lia. }
  destruct (IH (seq + 1) idx' (r_flags r) (out ++ t) Hok' ltac:(lia) Hnext ltac:(lia) Hs Ho') as (out' & E & Hl & Hx).
  exists (t ++ out'). rewrite E, <- app_assoc. split_and!; [done|by rewrite app_assoc|].
  intros Hroom. pose proof (prefix_bound r syslog Hh Hts) as Hpb. pose proof (full_text_mono r prev syslog) as Hmono.
  assert (0 ≤ total (ftexts true (r_flags r) (between (seq + 1) next))) by (unfold total; lia).
  assert (t = full_text r prev syslog) as ->.
  { apply Hall. unfold slack_of, PREFIX_MAX in *. destruct (first_prefix r prev), (last_newline r); lia. }
  f_equal. apply Hx. rewrite length_app. lia.
Qed.
End dump.
End text.

(** C27: [msg_print_text] without a buffer returns exactly the length of the
    text of the record; with a buffer of [size] bytes it writes whole lines,
    never reaches the end of the buffer, and writes the whole text when that
    leaves [PREFIX_MAX] bytes free. *)
Theorem msg_print_text_correct printk_time r prev syslog size
    (Hr : 0 ≤ r_ts r < 2 ^ 64 ∧ 0 ≤ r_facility r < 256 ∧ 0 ≤ r_level r < 8) (Hs : 0 ≤ size < 2 ^ 64) :
  msg_print_text printk_time r prev syslog None =
    Some ([], Z.of_nat (length (full_text printk_time r prev syslog))) ∧
  ∃ k out, msg_print_text printk_time r prev syslog (Some size) = Some (out, Z.of_nat (length out)) ∧
    out = concat (take k (rec_lines printk_time r prev syslog)) ∧
    (out = [] ∨ Z.of_nat (length out) < size) ∧
    (Z.of_nat (length (full_text printk_time r prev syslog)) + PREFIX_MAX ≤ size →
     out = full_text printk_time r prev syslog).
Proof.
  assert (hdr_ok r) as Hh by (split; [lia|apply Hr]). split; [by apply print_len_ok|].
  destruct (print_text_ok printk_time r prev syslog size Hh Hs) as (k & out & E & Eo & Hb & Hall).
  exists k, out. split_and!; try done. intros Hx. apply Hall.
  pose proof (prefix_bound printk_time r syslog Hh ltac:(lia)). unfold slack_of, PREFIX_MAX in *.
  destruct (first_prefix r prev), (last_newline r); lia.
Qed.

(** successive calls of [syslog_print] hand out the texts of the records as
    one stream, cut into pieces as the callers' buffers require: what a call
    copies and what is left is what was left before, it never copies more than
    asked for, and it makes progress (an empty text is skipped).  A reader that
    fell behind goes on with the first record. *)
Theorem syslog_print_stream printk_time LOG_ALIGN s L w y size
    (Halign : LOG_ALIGN = 4 ∨ LOG_ALIGN = 8) (R : ring LOG_ALIGN s L w)
    (Hy : syslog_ok printk_time s L (syslog_catch_up s y)) (Hs : 0 < size < 2 ^ 31) :
  ∃ y' data, syslog_print printk_time s y true (λ _, false) size =
      Some (y', data, Z.of_nat (length data)) ∧ syslog_ok printk_time s L y' ∧
    data ++ stream printk_time s L y' = stream printk_time s L (syslog_catch_up s y) ∧
    Z.of_nat (length data) ≤ size ∧
    (stream printk_time s L (syslog_catch_up s y) ≠ [] →
     data ≠ [] ∨ syslog_seq (syslog_catch_up s y) < syslog_seq y').
Proof.
  unfold syslog_print. cbn [negb]. set (fuel := (_ + 2)%nat).
  assert (syslog_loop printk_time fuel s y (λ _, false) size [] =
    syslog_loop printk_time fuel s (syslog_catch_up s y) (λ _, false) size []) as ->.
  { unfold fuel. rewrite Nat.add_comm. cbn [Nat.add syslog_loop]. destruct (decide (size > 0)); [|lia].
    rewrite (caught_up printk_time s L _ Hy).
    reflexivity. }
  destruct (syslog_loop_ok printk_time LOG_ALIGN Halign s L w R fuel (syslog_catch_up s y) size [] Hy)
    as (y' & data & E & Hok & Hst & Hl & Hp); [lia| |].
  { unfold rest. rewrite length_drop. destruct (g_seq _ _ _ _ R) as (_ & Hq & _). unfold fuel. lia. }
  exists y', data. split_and!; try done. intros Hne. apply Hp; [done|lia|done].
Qed.

(** the quick test for unread records in [SYSLOG_ACTION_SIZE_UNREAD], the
    difference of two indices, is non-zero exactly when there is a record to
    read, also when the records wrap around. *)
Theorem size_unread_pending LOG_ALIGN s L w y
    (Halign : LOG_ALIGN = 4 ∨ LOG_ALIGN = 8) (R : ring LOG_ALIGN s L w)
    (Hy : reader_ok s (syslog_seq y) (syslog_idx y)) :
  (size_unread_file s y).2 ≠ 0 ↔ syslog_seq (syslog_catch_up s y) < log_next_seq s.
Proof.
  unfold size_unread_file. cbn. set (y' := syslog_catch_up s y).
  assert (log_first_seq s ≤ syslog_seq y' ∧ reader_ok s (syslog_seq y') (syslog_idx y')) as [Hle Hok].
  { unfold y', syslog_catch_up. case_decide; cbn; [split; [lia|by eapply first_reader]|split; [lia|done]]. }
  destruct (reader_pos LOG_ALIGN Halign s L w R _ _ Hok Hle) as (i & Hi & Hseq & Hidx).
  pose proof (pos_next LOG_ALIGN Halign s L w i R Hi) as Hpos. rewrite <- Hidx in Hpos.
  destruct (g_seq _ _ _ _ R) as (_ & Hq & _). destruct (g_idx _ _ _ _ R) as (_ & Hn & Hb).
  assert (0 ≤ syslog_idx y' ≤ log_buf_len s) as Hr.
  { rewrite Hidx. by apply (pos_range LOG_ALIGN Halign s L w i R). }
  rewrite s32_small by (unfold in_swidth, HDR in *; lia). split; [intros Hx|intros Hx].
  - assert (i ≠ length L) by (intros ->; apply Hx; rewrite (proj2 Hpos eq_refl); lia). lia.
  - assert (i ≠ length L) as Hne by lia. intros H0. apply Hne, Hpos. lia.
Qed.

(** [kmsg_dump_get_buffer] takes the youngest records whose texts fit into
    the buffer (the computed lengths include the syslog prefix), leaves the older
    ones for the next call, and never overruns the buffer.  It copies all of
    those texts when they leave [PREFIX_MAX] bytes of the buffer free. *)
Theorem kmsg_dump_get_buffer_youngest printk_time LOG_ALIGN s L w d syslog size
    (Halign : LOG_ALIGN = 4 ∨ LOG_ALIGN = 8) (R : ring LOG_ALIGN s L w) (Hact : d_active d = true)
    (Hcur : log_first_seq s ≤ d_cur_seq d < d_next_seq d ∧ d_next_seq d ≤ log_next_seq s)
    (Hok : reader_ok s (d_cur_seq d) (d_cur_idx d)) (Hs : 0 ≤ size < 2 ^ 64)
    (Htot : total (ftexts printk_time true 0 (between s L (d_cur_seq d) (d_next_seq d))) < 2 ^ 64) :
  let F sy := ftexts printk_time sy 0 (between s L (d_cur_seq d) (d_next_seq d)) in
  ∃ n d' out, kmsg_dump_get_buffer printk_time s d syslog size = Some (d', out, true) ∧
    d_cur_seq d' = d_cur_seq d ∧ d_next_seq d' = d_cur_seq d + Z.of_nat n ∧
    Z.of_nat (length out) ≤ size ∧
    total (drop n (F true)) ≤ size ∧ (∀ k, (k < n)%nat → total (drop k (F true)) > size) ∧
    (total (drop n (F true)) + PREFIX_MAX ≤ size → out = concat (drop n (F syslog))).
Proof.
  intros F. unfold kmsg_dump_get_buffer. rewrite Hact. cbn [negb].
  assert (dumper_catch_up s d = d) as -> by (unfold dumper_catch_up; by rewrite decide_False by lia).
  cbn zeta. rewrite decide_False by lia.
  rewrite (sum_loop_ok printk_time LOG_ALIGN Halign s L w R) by (done || lia). cbn [mbind option_bind].
  rewrite Z.add_0_l.
  destruct (skip_loop_ok printk_time LOG_ALIGN Halign s L w R size (d_next_seq d)
    (Z.to_nat (d_next_seq d - d_cur_seq d)) (d_cur_seq d) (d_cur_idx d) 0)
    as (n & idx' & prev' & -> & Hn & Hok' & Hfit & Hleast & Hdrop); try done; try lia.
  cbn [mbind option_bind].
  destruct (copy_loop_ok printk_time LOG_ALIGN Halign s L w R syslog size (d_next_seq d)
    (Z.to_nat (d_next_seq d - d_cur_seq d)) (d_cur_seq d + Z.of_nat n) idx' prev' [])
    as (out & -> & Hl & Hall); try done; try lia; [cbn; lia|].
  cbn [mbind option_bind]. exists n. eexists _, _. split; [done|]. split_and!; try done.
  intros Hx. unfold F in *. rewrite Hdrop in Hx. rewrite Hdrop. apply Hall. cbn. lia.
Qed.

(** * Examples *)

Module TextDemo.
Import LogDemo.

(** Three records of 24 bytes each as text, and a dumper that starts with them. *)
Definition d0 : kmsg_dumper := kmsg_dump_rewind s3 0 0 (mkDumper true 0 0 0 0).
Definition three : list record := [rec 65; rec 66; rec 67].

(** [kmsg_dump_get_buffer] loses the youngest record when the texts fill the
    buffer exactly: it selects all three records for a buffer of the 72 bytes
    they need, but [msg_print_text] does not use the last byte of a buffer and
    leaves the last record out; the next call reports that there is nothing more.
    One more byte and all of it is copied. *)
Theorem kmsg_dump_last_line_lost :
  let F := ftexts false true 0 three in
  total F = 72 ∧
  ∃ d1 d2, kmsg_dump_get_buffer false s3 d0 true 72 = Some (d1, concat (take 2 F), true) ∧
    kmsg_dump_get_buffer false s3 d1 true 72 = Some (d1, [], false) ∧
    kmsg_dump_get_buffer false s3 d0 true 73 = Some (d2, concat F, true).
Proof.
  split; [by vm_compute|]. exists (mkDumper true 0 0 0 0), (mkDumper true 0 0 0 0).
  split; [vm_compute; reflexivity|]. split; vm_compute; reflexivity.
Qed.

Lemma msg_print_text_correct_witness :
  msg_print_text true (rec 65) 0 true None = Some ([], 39) ∧
  ∃ k out, msg_print_text true (rec 65) 0 true (Some 100) = Some (out, Z.of_nat (length out)) ∧
    out = concat (take k (rec_lines true (rec 65) 0 true)) ∧ length out = 39%nat.
Proof.
  destruct (msg_print_text_correct true (rec 65) 0 true 100) as [H1 (k & out & E & Eo & _ & Hall)];
    [by vm_compute|lia|].
  split; [rewrite H1; by vm_compute|]. exists k, out. split; [exact E|]. split; [exact Eo|].
  rewrite Hall; by vm_compute.
Defined.

Definition y0 : syslog_state := mkSyslog 0 0 0 0.

(** 30 bytes: the first text, and not yet the second. *)
Lemma syslog_print_stream_witness :
  ∃ y' data, syslog_print false s3 y0 true (λ _, false) 30 = Some (y', data, Z.of_nat (length data)) ∧
    data ++ stream false s3 three y' = stream false s3 three y0 ∧ length data = 24%nat.
Proof.
  destruct s3_ring as (w & R).
  destruct (syslog_print_stream false 4 s3 three w y0 30 (or_introl eq_refl) R) as (y' & data & E & _ & Hst & _).
  - split; [by vm_compute|]. split; [right; split; by vm_compute|]. by vm_compute.
  - lia.
  - exists y', data. split; [exact E|]. split; [exact Hst|].
    assert ((λ r, length r.1.2) <$> syslog_print false s3 y0 true (λ _, false) 30 = Some 24%nat) as F by (by vm_compute).
    rewrite E in F. by injection F.
Defined.

Lemma size_unread_pending_witness :
  (size_unread_file s3 y0).2 = 108 ∧ syslog_seq (syslog_catch_up s3 y0) < log_next_seq s3.
Proof.
  split; [by vm_compute|]. destruct s3_ring as (w & R).
  apply (size_unread_pending 4 s3 three w y0 (or_introl eq_refl) R).
  - right. split; by vm_compute.
  - by vm_compute.
Defined.

Lemma kmsg_dump_get_buffer_youngest_witness :
  ∃ n d' out, kmsg_dump_get_buffer false s3 d0 true 104 = Some (d', out, true) ∧ n = 0%nat ∧
    d_next_seq d' = 0 ∧ out = concat (drop n (ftexts false true 0 three)).
Proof.
  destruct s3_ring as (w & R).
  destruct (kmsg_dump_get_buffer_youngest false 4 s3 three w d0 true 104 (or_introl eq_refl) R eq_refl)
    as (n & d' & out & E & _ & Hn & _ & _ & _ & Hall).
  - by vm_compute.
  - right. split; by vm_compute.
  - lia.
  - by vm_compute.
  - exists n, d', out.
    assert ((λ r, d_next_seq r.1.1) <$> kmsg_dump_get_buffer false s3 d0 true 104 = Some 0) as F by (by vm_compute).
    rewrite E in F. injection F as F. rewrite F in Hn. change (d_cur_seq d0) with 0 in Hn.
    assert (n = 0%nat) as -> by lia. split; [exact E|]. split; [reflexivity|]. split; [exact F|].
    apply Hall. by vm_compute.
Defined.
End TextDemo.
