(* ===== verification/PrintkDev.v ===== *)
(** /dev/kmsg, kernel/printk/printk.c: [devkmsg_read] and [devkmsg_llseek].

    Every open file has its own position in the record buffer.  A read hands out
    one record as a line of numbers and text, with the bytes that are not
    printable escaped; a reader whose record has been overwritten gets -EPIPE
    once and goes on with the first record.  The theorems: whatever is stored
    between the reads, a reader sees the records that were stored, in order, each
    at most once, and learns of those it missed; the text of a record can be read
    back from the line; the line fits the buffer of the file. *)

From S2P Require Import Prelude PrintkLog PrintkText.

Local Open Scope Z_scope.

(** * Reading *)

(** [struct devkmsg_user] without its mutex and buffer. *)
Record devkmsg_user := mkUser {
  u_seq : Z;
  u_idx : Z;
  u_prev : Z;
}.

Definition hex (d : Z) : Z := if decide (d < 10) then 48 + d else 87 + d.

(** Bytes that are not printable, and the backslash, as [\x%02x]. *)
Definition escape (c : Z) : list Z :=
  if decide (c < 32 ∨ c >= 127 ∨ c = 92) then [92; 120; hex (c / 16); hex (c mod 16)] else [c].

(** The loop over the dictionary. *)
Fixpoint dict_lines (line : bool) (dict : list Z) : list Z :=
  match dict with
  | [] => []
  | c :: dict =>
      (if line then [32] else []) ++
      (if decide (c = 0) then 10 :: dict_lines true dict else escape c ++ dict_lines false dict)
  end.

Definition cont_mark (flags prev : Z) : Z :=
  if has flags LOG_CONT && negb (has prev LOG_CONT) then 99
  else if has flags LOG_CONT || (has prev LOG_CONT && negb (has flags LOG_PREFIX)) then 43
  else 45.

(** The line [devkmsg_read] makes of a record. *)
Definition kmsg_line (r : record) (seq prev : Z) : list Z :=
  dec (prefix_value r) ++ [44] ++ dec seq ++ [44] ++ dec (r_ts r / 1000) ++ [44] ++
  [cont_mark (r_flags r) prev; 59] ++ concat (escape <$> r_text r) ++ [10] ++
  (if decide (length (r_dict r) ≠ 0%nat) then dict_lines true (r_dict r) ++ [10] else []).

(** [user->buf] *)
Definition KMSG_BUF : Z := 8192.

(** [Data] is the number of bytes returned, with the bytes. *)
Inductive read_result := Fail (e : errno) | Data (l : list Z).

(** A read without blocking of at most [count] bytes; [fault] is the outcome of
    [copy_to_user].  A line that overruns [user->buf] (with the byte that ends
    the last [sprintf]) is [None]. *)
Definition devkmsg_read (s : log_state) (user : devkmsg_user) (count : Z) (fault : bool)
    : option (devkmsg_user * read_result) :=
  if decide (u_seq user = log_next_seq s) then Some (user, Fail EAGAIN)
  else if decide (u_seq user < log_first_seq s)
  then Some (mkUser (log_first_seq s) (log_first_idx s) (u_prev user), Fail EPIPE)
  else
    a ← log_from_idx s (u_idx user);
    let msg := msg_view s a in
    let buf := kmsg_line msg (u_seq user) (u_prev user) in
    if decide (Z.of_nat (length buf) + 1 > KMSG_BUF) then None
    else
      idx ← log_next s (u_idx user);
      let user := mkUser (u64 (u_seq user + 1)) idx (r_flags msg) in
      Some (user, if decide (Z.of_nat (length buf) > count) then Fail EINVAL
                  else if fault then Fail EFAULT else Data buf).

Inductive whence := SEEK_SET | SEEK_DATA | SEEK_END | SEEK_OTHER.

(** [clear_seq], [clear_idx]: the first record after the last clear. *)
Definition devkmsg_llseek (s : log_state) (clear_seq clear_idx : Z) (user : devkmsg_user)
    (offset : Z) (wh : whence) : devkmsg_user * ret :=
  if decide (offset ≠ 0) then (user, Err ESPIPE)
  else match wh with
  | SEEK_SET => (mkUser (log_first_seq s) (log_first_idx s) (u_prev user), Ok)
  | SEEK_DATA => (mkUser clear_seq clear_idx (u_prev user), Ok)
  | SEEK_END => (mkUser (log_next_seq s) (log_next_idx s) (u_prev user), Ok)
  | SEEK_OTHER => (user, Err EINVAL)
  end.

(** * Lines *)

Lemma escape_length c : (length (escape c) ≤ 4)%nat.
Proof. unfold escape. case_decide; cbn; lia. Qed.

Lemma escape_text_length l : (length (concat (escape <$> l)) ≤ 4 * length l)%nat.
Proof.
  induction l as [|c l IH]; [done|]. rewrite fmap_cons. cbn [concat length]. rewrite length_app.
  pose proof (escape_length c). lia.
Qed.

Lemma dict_lines_length dict : ∀ line, (length (dict_lines line dict) ≤ 5 * length dict)%nat.
Proof.
  induction dict as [|c dict IH]; intros line; [done|]. cbn [dict_lines]. rewrite length_app.
  pose proof (escape_length c). pose proof (IH true). pose proof (IH false).
  case_decide; rewrite ?length_app; destruct line; cbn [length]; lia.
Qed.

(** A record whose line fits. *)
Definition line_fits (r : record) : Prop :=
  4 * Z.of_nat (length (r_text r)) + 5 * Z.of_nat (length (r_dict r)) ≤ 8000.

Lemma kmsg_line_length r seq prev :
  hdr_ok r → r_ts r < 2 ^ 64 → 0 ≤ seq < 2 ^ 64 → line_fits r →
  Z.of_nat (length (kmsg_line r seq prev)) + 1 ≤ KMSG_BUF.
Proof.
  intros Hr Ht Hs Hf. pose proof (prefix_value_eq r Hr) as Hv. destruct Hr as (Ht0 & Hfa & Hl).
  unfold kmsg_line, line_fits, KMSG_BUF in *. rewrite !length_app. cbn [length].
  pose proof (escape_text_length (r_text r)). pose proof (dict_lines_length (r_dict r) true).
  assert (length (dec (prefix_value r)) ≤ 4)%nat by (apply digits_length_le; [lia|cbn; lia]).
  assert (length (dec seq) ≤ 20)%nat by (apply digits_length_le; [lia|cbn in *; lia]).
  assert (length (dec (r_ts r / 1000)) ≤ 20)%nat.
  { apply digits_length_le; [lia|]. apply Z.div_lt_upper_bound; [lia|]. cbn in *. lia. }
  case_decide; rewrite ?length_app; cbn [length]; lia.
Qed.

(** ** Reading the text back *)

Definition unhex (c : Z) : Z := if decide (c < 58) then c - 48 else c - 87.

(** What a program does that reads the text of a line. *)
Fixpoint unescape (l : list Z) : list Z :=
  match l with
  | 92 :: 120 :: h :: d :: l => (16 * unhex h + unhex d) :: unescape l
  | c :: l => c :: unescape l
  | [] => []
  end.

Lemma unhex_hex d : 0 ≤ d < 16 → unhex (hex d) = d.
Proof. intros H. unfold hex, unhex. repeat case_decide; lia. Qed.

Lemma unescape_plain c l : c ≠ 92 → unescape (c :: l) = c :: unescape l.
Proof. intros Hc. destruct c as [|p|p]; [done| |done]. cbn. repeat (destruct p as [p|p|]; try done). Qed.

Lemma unescape_text l : Forall (λ c, 0 ≤ c < 256) l → unescape (concat (escape <$> l)) = l.
Proof.
  induction 1 as [|c l Hc _ IH]; [done|]. rewrite fmap_cons. cbn [concat]. unfold escape at 1.
  case_decide as Hd.
  - cbn [app]. change (unescape (92 :: 120 :: hex (c / 16) :: hex (c mod 16) :: concat (escape <$> l)))
      with ((16 * unhex (hex (c / 16)) + unhex (hex (c mod 16))) :: unescape (concat (escape <$> l))).
    rewrite IH. rewrite !unhex_hex by dlia. f_equal. dlia.
  - cbn [app]. rewrite unescape_plain by tauto. f_equal. exact IH.
Qed.

(** The escaped text has no newline, so it ends where the line does. *)
Lemma escape_text_line l : Forall (λ c, 0 ≤ c < 256) l → 10 ∉ concat (escape <$> l).
Proof.
  induction 1 as [|c l Hc _ IH]; [cbn; intros H; by apply elem_of_nil in H|].
  rewrite fmap_cons. cbn [concat]. intros [H|H]%elem_of_app; [|by apply IH].
  unfold escape in H. case_decide as Hd; [|set_solver by lia].
  unfold hex in H. repeat (apply elem_of_cons in H as [H|H]); try (by apply elem_of_nil in H); try lia.
  all: repeat case_decide; dlia.
Qed.

(** the text of a record can be read back from the line that [devkmsg_read]
    makes of it: it stands between the semicolon and the first newline, escaped
    in a way that is undone by reading [\x] and two hexadecimal digits as a
    byte. *)
Theorem kmsg_text_roundtrip r seq prev (Ht : Forall (λ c, 0 ≤ c < 256) (r_text r)) :
  ∃ front back esc, kmsg_line r seq prev = front ++ [59] ++ esc ++ [10] ++ back ∧
    10 ∉ esc ∧ unescape esc = r_text r.
Proof.
  exists (dec (prefix_value r) ++ [44] ++ dec seq ++ [44] ++ dec (r_ts r / 1000) ++ [44] ++ [cont_mark (r_flags r) prev]).
  eexists _, (concat (escape <$> r_text r)). split.
  - unfold kmsg_line. rewrite <- !app_assoc. cbn [app]. reflexivity.
  - split; [by apply escape_text_line|by apply unescape_text].
Qed.

(** * A reader and the log *)

(** What happens: a record is stored, or the file is read. *)
Inductive kmsg_op :=
  | Store (facility level flags ts_nsec local_clock : Z) (dict text : list Z)
  | Read (count : Z) (fault : bool).

Section run.
Context (LOG_ALIGN : Z).

Fixpoint run_ops (s : log_state) (u : devkmsg_user) (ops : list kmsg_op)
    : option (log_state * devkmsg_user * list read_result) :=
  match ops with
  | [] => Some (s, u, [])
  | Store facility level flags ts_nsec local_clock dict text :: ops =>
      s ← log_store LOG_ALIGN s facility level flags ts_nsec local_clock dict text;
      run_ops s u ops
  | Read count fault :: ops =>
      '(u, res) ← devkmsg_read s u count fault;
      '(s, u, l) ← run_ops s u ops;
      Some (s, u, res :: l)
  end.

(** ** The reference *)

(** All the records ever stored, by number; those before [k_first] are gone;
    the reader's next record and the flags of the one it read last. *)
Record kmsg_state := mkKmsg {
  k_all : list record;
  k_first : nat;
  k_seq : nat;
  k_prev : Z;
}.

Definition deliver (count : Z) (fault : bool) (line : list Z) : read_result :=
  if decide (Z.of_nat (length line) > count) then Fail EINVAL
  else if fault then Fail EFAULT else Data line.

Inductive kmsg_run : kmsg_state → list kmsg_op → list read_result → kmsg_state → Prop :=
  | run_done k : kmsg_run k [] [] k
  | run_store H f q p facility level flags ts_nsec local_clock dict text f' ops l k :
      (f ≤ f' ≤ length H)%nat →
      kmsg_run (mkKmsg (H ++ [stored facility level flags
        (if decide (ts_nsec > 0) then ts_nsec else local_clock) dict text]) f' q p) ops l k →
      kmsg_run (mkKmsg H f q p) (Store facility level flags ts_nsec local_clock dict text :: ops) l k
  | run_none H f p count fault ops l k :
      kmsg_run (mkKmsg H f (length H) p) ops l k →
      kmsg_run (mkKmsg H f (length H) p) (Read count fault :: ops) (Fail EAGAIN :: l) k
  | run_missed H f q p count fault ops l k :
      (q < f)%nat → kmsg_run (mkKmsg H f f p) ops l k →
      kmsg_run (mkKmsg H f q p) (Read count fault :: ops) (Fail EPIPE :: l) k
  | run_read H f q p r count fault ops l k :
      (f ≤ q)%nat → H !! q = Some r → kmsg_run (mkKmsg H f (S q) (r_flags r)) ops l k →
      kmsg_run (mkKmsg H f q p) (Read count fault :: ops)
        (deliver count fault (kmsg_line r (Z.of_nat q) p) :: l) k.

(** Records that the buffer and the lines can hold. *)
Definition op_ok (len : Z) (o : kmsg_op) : Prop :=
  match o with
  | Store _ _ _ ts_nsec local_clock dict text =>
      let size := HDR + Z.of_nat (length text) + Z.of_nat (length dict) + LOG_ALIGN in
      in_u64 (if decide (ts_nsec > 0) then ts_nsec else local_clock) ∧
      size ≤ 2 ^ 16 ∧ 2 * size + HDR ≤ len ∧
      4 * Z.of_nat (length text) + 5 * Z.of_nat (length dict) ≤ 8000
  | Read _ _ => True
  end.

Context (Halign : LOG_ALIGN = 4 ∨ LOG_ALIGN = 8).

(** The log and the reader stand for the reference. *)
Definition kmsg_rel (s : log_state) (u : devkmsg_user) (k : kmsg_state) : Prop :=
  ∃ w, ring LOG_ALIGN s (drop (k_first k) (k_all k)) w ∧ Forall line_fits (k_all k) ∧
    log_first_seq s = Z.of_nat (k_first k) ∧ (k_first k ≤ length (k_all k))%nat ∧
    u_seq u = Z.of_nat (k_seq k) ∧ u_prev u = k_prev k ∧ reader_ok s (u_seq u) (u_idx u).

Lemma kmsg_rel_next s u k : kmsg_rel s u k → log_next_seq s = Z.of_nat (length (k_all k)).
Proof.
  intros (w & R & _ & Hf & Hle & _). destruct (g_seq _ _ _ _ R) as (_ & Hq & _).
  rewrite length_drop in Hq. lia.
Qed.

Lemma store_rel s u k facility level flags ts_nsec local_clock dict text :
  kmsg_rel s u k → op_ok (log_buf_len s) (Store facility level flags ts_nsec local_clock dict text) →
  log_next_seq s + 1 < 2 ^ 64 →
  ∃ s' f', log_store LOG_ALIGN s facility level flags ts_nsec local_clock dict text = Some s' ∧
    (k_first k ≤ f' ≤ length (k_all k))%nat ∧ log_buf_len s' = log_buf_len s ∧
    log_next_seq s' = log_next_seq s + 1 ∧
    kmsg_rel s' u (mkKmsg (k_all k ++ [stored facility level flags
      (if decide (ts_nsec > 0) then ts_nsec else local_clock) dict text]) f' (k_seq k) (k_prev k)).
Proof using Halign.
  intros (w & R & Hfit & Hf & Hle & Hs & Hpv & Hrd) (Hts & H16 & Hlen & Hline) Hq.
  set (ts := if decide (ts_nsec > 0) then ts_nsec else local_clock) in *.
  set (r := stored facility level flags ts dict text).
  assert (rsize LOG_ALIGN r < HDR + Z.of_nat (length text) + Z.of_nat (length dict) + LOG_ALIGN) as Hsz.
  { pose proof (pad_range LOG_ALIGN Halign (raw_size r)). unfold rsize. unfold raw_size at 1. cbn [r_text r_dict r stored]. lia. }
  destruct (log_store_ok LOG_ALIGN Halign s _ w facility level flags ts_nsec local_clock dict text R Hts)
    as (j & s' & w' & E & Hj & R' & El & Ef & _ & _ & Hpos); fold ts r; [lia|lia|done|]. fold ts r in R', Hpos.
  rewrite length_drop in Hj. exists s', (k_first k + j)%nat.
  pose proof (g_seq _ _ _ _ R) as (_ & Hq1 & _). pose proof (g_seq _ _ _ _ R') as (_ & Hq2 & _).
  rewrite length_app, !length_drop in Hq2. rewrite length_drop in Hq1. cbn [length] in Hq2.
  split_and!; try done; try lia. exists w'. cbn [k_all k_first k_seq k_prev].
  rewrite drop_drop in R'. rewrite drop_app_le by lia.
  split_and!; try done; [|lia|rewrite length_app; cbn; lia|].
  - apply Forall_app. split; [done|]. by apply Forall_singleton.
  - destruct (decide (u_seq u < log_first_seq s')) as [|Hge]; [by left|].
    destruct (reader_pos LOG_ALIGN Halign s _ w R _ _ Hrd) as (i & Hi & Hseq & Hidx); [lia|].
    rewrite length_drop in Hi. rewrite drop_drop in Hpos. rewrite Hidx, <- (Hpos i) by (rewrite length_drop; lia).
    replace (u_seq u) with (log_first_seq s' + Z.of_nat (i - j)) by lia.
    apply pos_reader; [done|done|]. rewrite length_app, length_drop. cbn. lia.
Qed.

Lemma read_rel s u k count fault :
  kmsg_rel s u k →
  ∃ u' res k', devkmsg_read s u count fault = Some (u', res) ∧ kmsg_rel s u' k' ∧
    k_all k' = k_all k ∧
    ∀ ops l kf, kmsg_run k' ops l kf → kmsg_run k (Read count fault :: ops) (res :: l) kf.
Proof using Halign.
  intros Hrel. pose proof (kmsg_rel_next s u k Hrel) as Hnext.
  destruct Hrel as (w & R & Hfit & Hf & Hle & Hs & Hpv & Hrd). destruct k as [H f q p]. cbn [k_all k_first k_seq k_prev] in *.
  destruct (g_seq _ _ _ _ R) as (Hq0 & _ & Hq2). unfold devkmsg_read.
  destruct (decide (u_seq u = log_next_seq s)) as [He|Hne].
  { exists u, (Fail EAGAIN), (mkKmsg H f q p). split_and!; try done; [by exists w|].
    intros ops l kf Hrun. assert (q = length H) as -> by lia. by constructor. }
  destruct (decide (u_seq u < log_first_seq s)) as [Hmiss|Hin].
  { eexists _, (Fail EPIPE), (mkKmsg H f f p). split; [done|]. split_and!; try done.
    - exists w. cbn. split_and!; try done. by eapply first_reader.
    - intros ops l kf Hrun. constructor; [lia|done]. }
  assert (u_seq u < log_next_seq s) as Hlt by (destruct Hrd as [?|[? _]]; lia).
  destruct (reader_read LOG_ALIGN Halign s _ w R _ _ Hrd ltac:(lia)) as (r & a & idx' & Hr & -> & Ha & _ & _ & Hnx & Hrd').
  pose proof (list_elem_of_lookup_2 _ _ _ Hr) as Hin'.
  destruct (rec_view LOG_ALIGN s _ w R a r Ha Hin') as [Hv Hh].
  rewrite lookup_drop in Hr. replace (f + Z.to_nat (u_seq u - log_first_seq s))%nat with q in Hr by lia.
  pose proof (g_recs _ _ _ _ R) as HL. rewrite Forall_forall in HL. destruct (HL r Hin') as [[_ Hts] _].
  rewrite Forall_forall in Hfit. pose proof (Hfit r (list_elem_of_lookup_2 _ _ _ Hr)) as Hlf.
  cbn [mbind option_bind]. cbn zeta. rewrite Hv. rewrite decide_False
    by (pose proof (kmsg_line_length r (u_seq u) (u_prev u) Hh Hts ltac:(lia) Hlf); lia).
  rewrite Hnx. cbn [mbind option_bind]. rewrite wrap_small by (unfold in_width; lia).
  eexists _, _, (mkKmsg H f (S q) (r_flags r)). split; [done|]. split_and!; try done.
  - exists w. cbn [k_all k_first k_seq k_prev u_seq u_idx u_prev].
    split_and!; try done; [by apply Forall_forall|lia].
  - intros ops l kf Hrun. rewrite Hs, Hpv.
    apply (run_read H f q p r count fault ops l kf); [lia|done|done].
Qed.

Lemma run_ops_ok ops : ∀ s u k,
  kmsg_rel s u k → Forall (op_ok (log_buf_len s)) ops → log_next_seq s + Z.of_nat (length ops) < 2 ^ 64 →
  ∃ s' u' l k', run_ops s u ops = Some (s', u', l) ∧ kmsg_run k ops l k' ∧ kmsg_rel s' u' k'.
Proof using Halign.
  induction ops as [|o ops IH]; intros s u k Hrel Hops Hq.
  { exists s, u, [], k. split_and!; try done. constructor. }
  apply Forall_cons in Hops as [Ho Hops]. cbn [length] in Hq.
  destruct o as [facility level flags ts_nsec local_clock dict text|count fault]; cbn [run_ops].
  - destruct (store_rel s u k _ _ _ _ _ _ _ Hrel Ho ltac:(lia)) as (s1 & f' & -> & Hf & El & En & Hrel1).
    cbn [mbind option_bind]. destruct k as [H f q p].
    destruct (IH s1 u _ Hrel1) as (s' & u' & l & k' & E & Hrun & Hrel'); [by rewrite El|lia|].
    exists s', u', l, k'. split_and!; try done. by eapply run_store.
  - destruct (read_rel s u k count fault Hrel) as (u1 & res & k1 & -> & Hrel1 & _ & Hstep).
    cbn [mbind option_bind].
    destruct (IH s u1 k1 Hrel1 Hops ltac:(lia)) as (s' & u' & l & k' & E & Hrun & Hrel').
    rewrite E. cbn [mbind option_bind]. exists s', u', (res :: l), k'. split_and!; try done. by apply Hstep.
Qed.
End run.

(** C10: for any sequence of stores and reads, what a reader of /dev/kmsg gets is
    what the reference gives: the lines of the stored records in the order of
    their numbers, each at most once and unaltered, -EPIPE exactly when records
    it had not read were dropped, -EAGAIN when there is none.  Neither the record
    buffer nor the buffer of the file is ever overrun. *)
Theorem devkmsg_refines LOG_ALIGN s u k ops
    (Halign : LOG_ALIGN = 4 ∨ LOG_ALIGN = 8) (Hrel : kmsg_rel LOG_ALIGN s u k)
    (Hops : Forall (op_ok LOG_ALIGN (log_buf_len s)) ops)
    (Hq : log_next_seq s + Z.of_nat (length ops) < 2 ^ 64) :
  ∃ s' u' l k', run_ops LOG_ALIGN s u ops = Some (s', u', l) ∧ kmsg_run k ops l k' ∧
    kmsg_rel LOG_ALIGN s' u' k'.
Proof. by apply run_ops_ok. Qed.

Module DevDemo.
Definition u0 : devkmsg_user := mkUser 0 0 0.
Definition store (c : Z) : kmsg_op := Store 0 6 6 0 1000 [] (replicate 20 c).

(** Five records in a buffer for three, read at the end: the first two are gone. *)
Definition ops : list kmsg_op :=
  [store 65; store 66; store 67; store 68; Read 100 false; Read 100 false; Read 100 false; Read 100 false].

Lemma devkmsg_refines_witness :
  ∃ s' u' l k', run_ops 4 (log_init 128) u0 ops = Some (s', u', l) ∧ kmsg_run (mkKmsg [] 0 0 0) ops l k' ∧
    l = [Fail EPIPE; Data (kmsg_line (LogDemo.rec 67) 2 0); Data (kmsg_line (LogDemo.rec 68) 3 6); Fail EAGAIN].
Proof.
  destruct (devkmsg_refines 4 (log_init 128) u0 (mkKmsg [] 0 0 0) ops (or_introl eq_refl))
    as (s' & u' & l & k' & E & Hrun & _).
  - exists None. split; [by apply ring_init|]. split_and!; try done.
    right. split; by vm_compute.
  - repeat constructor; by vm_compute.
  - by vm_compute.
  - exists s', u', l, k'. split; [exact E|]. split; [exact Hrun|].
    assert (snd <$> run_ops 4 (log_init 128) u0 ops = Some
      [Fail EPIPE; Data (kmsg_line (LogDemo.rec 67) 2 0); Data (kmsg_line (LogDemo.rec 68) 3 6); Fail EAGAIN])
      as F by (vm_compute; reflexivity).
    rewrite E in F. by injection F.
Defined.

Lemma kmsg_text_roundtrip_witness :
  ∃ front back esc, kmsg_line (Rec 0 0 6 6 [65; 10; 92; 200] []) 7 0 = front ++ [59] ++ esc ++ [10] ++ back ∧
    unescape esc = [65; 10; 92; 200].
Proof.
  destruct (kmsg_text_roundtrip (Rec 0 0 6 6 [65; 10; 92; 200] []) 7 0) as (front & back & esc & E & _ & H).
  - repeat constructor; by vm_compute.
  - exists front, back, esc. split; [exact E|exact H].
Defined.
End DevDemo.
