(* ===== verification/PrintkEmit.v ===== *)
(** Printing into the log, kernel/printk/printk.c: the continuation buffer
    ([struct cont], [cont_flush], [cont_add]) and [vprintk_emit] up to the point
    where it tries the console (PrintkCon.v).

    The code is written against what it needs of the log, a class with the one
    operation [store_rec] and the law that a store appends a record; the byte
    buffer of PrintkLog.v is its instance.  The result: no byte that is printed
    is lost, doubled or reordered on its way through the continuation buffer
    ([vprintk_takes_in], which PrintkCon.v extends to whole runs); but a newline
    can be lost. *)

From S2P Require Import Prelude PrintkLog PrintkText.

Local Open Scope Z_scope.

(** * What the code uses *)

(** The log, as [vprintk_emit] sees it: [store_rec s facility level flags ts_nsec
    clock dict text]. *)
Class LogSink (S : Type) :=
  store_rec : S → Z → Z → Z → Z → Z → list Z → list Z → option S.

#[export] Instance byte_sink (LOG_ALIGN : Z) : LogSink log_state := log_store LOG_ALIGN.

(** [printk_get_level] and [printk_skip_level] (a length here) of the headers: a
    level is [KERN_SOH] and a character. *)
Class KernLevels := {
  printk_get_level : list Z → Z;
  printk_skip_level : list Z → Z;
  level_header t : printk_get_level t ≠ 0 →
    ∃ c t', t = 1 :: c :: t' ∧ c ≠ 10 ∧ printk_skip_level t = 2;
}.

(** * Continuation lines *)

(** [buf] holds the [len] bytes that are used of [cont.buf]; [len] is its length. *)
Record cont := mkCont {
  c_buf : list Z;
  c_cons : Z;
  c_owner : Z;
  c_ts : Z;
  c_level : Z;
  c_facility : Z;
  c_flags : Z;
  c_flushed : bool;
}.

Definition c_len (c : cont) : Z := Z.of_nat (length (c_buf c)).

(** [cont] is static: zero. *)
Definition cont_init : cont := mkCont [] 0 0 0 0 0 0 false.

Definition with_buf_cons (c : cont) (buf : list Z) (cons : Z) : cont :=
  mkCont buf cons (c_owner c) (c_ts c) (c_level c) (c_facility c) (c_flags c) (c_flushed c).
Definition seal (c : cont) (flags : Z) : cont :=
  mkCont (c_buf c) (c_cons c) (c_owner c) (c_ts c) (c_level c) (c_facility c) flags true.

Definition RECURSION_MSG : list Z :=
  [66; 85; 71; 58; 32; 114; 101; 99; 101; 110; 116; 32; 112; 114; 105; 110; 116; 107; 32;
   114; 101; 99; 117; 114; 115; 105; 111; 110; 33].

Section emit.
Context {S : Type} {sink : LogSink S} {levels : KernLevels}.
(** [local_clock()] during the call, and [current]. *)
Context (clock current : Z).

Definition cont_flush (s : S) (c : cont) (flags : Z) : option (S * cont) :=
  if c_flushed c then Some (s, c)
  else if decide (c_len c = 0) then Some (s, c)
  else if decide (c_cons c ≠ 0) then
    s ← store_rec s (c_facility c) (c_level c) (Z.lor flags LOG_NOCONS) (c_ts c) clock [] (c_buf c);
    Some (s, seal c flags)
  else
    s ← store_rec s (c_facility c) (c_level c) flags 0 clock [] (c_buf c);
    Some (s, with_buf_cons c [] (c_cons c)).

Definition cont_add (s : S) (c : cont) (facility level : Z) (text : list Z)
    : option (S * cont * bool) :=
  if bool_decide (c_len c ≠ 0) && c_flushed c then Some (s, c, false)
  else if decide (c_len c + Z.of_nat (length text) > LOG_LINE_MAX) then
    '(s, c) ← cont_flush s c LOG_CONT; Some (s, c, false)
  else
    let c := if decide (c_len c = 0)
             then mkCont [] 0 current clock (level mod 256) (facility mod 256) 0 false else c in
    let c := with_buf_cons c (c_buf c ++ text) (c_cons c) in
    if decide (c_len c > LOG_LINE_MAX * 80 / 100) then
      '(s, c) ← cont_flush s c LOG_CONT; Some (s, c, true)
    else Some (s, c, true).

(** The level and flags of a text, and the text without its header and without
    its newline. *)
Definition strip_newline (text : list Z) : list Z * Z :=
  if decide (last text = Some 10) then (take (length text - 1) text, LOG_NEWLINE) else (text, 0).

Definition strip_level (facility level : Z) (buf text : list Z) (lflags : Z) : Z * Z * list Z :=
  if decide (facility = 0) then
    let kern_level := printk_get_level buf in
    if decide (kern_level ≠ 0) then
      let '(level, lflags) :=
        if decide (48 ≤ kern_level ≤ 55) then
          (if decide (level = -1) then kern_level - 48 else level, Z.lor lflags LOG_PREFIX)
        else if decide (kern_level = 100) then (level, Z.lor lflags LOG_PREFIX)
        else (level, lflags) in
      (level, lflags, drop (Z.to_nat (printk_skip_level buf)) text)
    else (level, lflags, text)
  else (level, lflags, text).

(** The line is complete, or not. *)
Definition emit_fragment (s : S) (c : cont) (facility level lflags : Z) (dict text : list Z)
    : option (S * cont) :=
  '(s, c) ← (if bool_decide (c_len c ≠ 0) && (has lflags LOG_PREFIX || bool_decide (c_owner c ≠ current))
             then cont_flush s c LOG_NEWLINE else Some (s, c));
  '(s, c, added) ← cont_add s c facility level text;
  if added : bool then Some (s, c)
  else s ← store_rec s facility level (Z.lor lflags LOG_CONT) 0 clock dict text; Some (s, c).

Definition emit_line (s : S) (c : cont) (facility level lflags : Z) (dict text : list Z)
    : option (S * cont) :=
  '(s, c, added) ←
    (if decide (c_len c ≠ 0) then
       '(s, c, added) ← (if bool_decide (c_owner c = current) && negb (has lflags LOG_PREFIX)
                         then cont_add s c facility level text else Some (s, c, false));
       '(s, c) ← cont_flush s c LOG_NEWLINE;
       Some (s, c, added)
     else Some (s, c, false));
  if added : bool then Some (s, c)
  else s ← store_rec s facility level lflags 0 clock dict text; Some (s, c).

(** [vprintk_emit], up to the console.  [nested]: the CPU holds the lock already;
    [crashing]: an oops, or lockdep, is in progress.  [buf] is what [vscnprintf]
    puts into [textbuf].  The result: the log, the buffer, [recursion_bug] and
    [printed_len]. *)
Definition vprintk_store (default_level : Z) (s : S) (c : cont) (recursion_bug nested crashing : bool)
    (facility level : Z) (dict : option (list Z)) (buf : list Z) : option (S * cont * bool * Z) :=
  if nested && negb crashing then Some (s, c, true, 0)
  else
    '(s, printed_len) ←
      (if recursion_bug then
         let printed_len := Z.of_nat (length RECURSION_MSG) in
         s ← store_rec s 0 2 (Z.lor LOG_PREFIX LOG_NEWLINE) 0 clock [] RECURSION_MSG;
         Some (s, printed_len)
       else Some (s, 0));
    let '(text, lflags) := strip_newline buf in
    let '(level, lflags, text) := strip_level facility level buf text lflags in
    let level := if decide (level = -1) then default_level else level in
    let lflags := if dict then Z.lor lflags (Z.lor LOG_PREFIX LOG_NEWLINE) else lflags in
    let d := default [] dict in
    '(s, c) ← (if negb (has lflags LOG_NEWLINE) then emit_fragment s c facility level lflags d text
               else emit_line s c facility level lflags d text);
    Some (s, c, false, printed_len + Z.of_nat (length text)).
End emit.

(** * The log of records behind a sink *)

(** The room that a text and its dictionary have. *)
Definition fits (dmax : Z) (dict text : list Z) : Prop :=
  Z.of_nat (length text) ≤ LOG_LINE_MAX ∧ Z.of_nat (length dict) ≤ dmax.

(** What [vprintk_emit] relies on: a sink holds a log, and a store appends to it.
    The number says how many stores are left before the sequence numbers end. *)
Class SinkLaws (S : Type) (sink : LogSink S) (dmax : Z) := {
  holds : nat → S → list record → Prop;
  holds_mono n s l : holds (Datatypes.S n) s l → holds n s l;
  store_holds n s l facility level flags ts_nsec clock dict text :
    holds (Datatypes.S n) s l → fits dmax dict text →
    in_u64 (if decide (ts_nsec > 0) then ts_nsec else clock) →
    ∃ s', store_rec s facility level flags ts_nsec clock dict text = Some s' ∧
      holds n s' (l ++ [stored facility level flags (if decide (ts_nsec > 0) then ts_nsec else clock) dict text]);
}.

(** The byte buffer holds the youngest of all records that were stored. *)
Definition log_holds (LOG_ALIGN dmax : Z) (n : nat) (s : log_state) (l : list record) : Prop :=
  ∃ k w, (k ≤ length l)%nat ∧ ring LOG_ALIGN s (drop k l) w ∧ log_first_seq s = Z.of_nat k ∧
    log_next_seq s + Z.of_nat n < 2 ^ 64 ∧
    2 * (HDR + LOG_LINE_MAX + dmax + LOG_ALIGN) + HDR ≤ log_buf_len s.

Section byte_laws.
Context (LOG_ALIGN dmax : Z) (Halign : LOG_ALIGN = 4 ∨ LOG_ALIGN = 8).
Context (Hdmax : HDR + LOG_LINE_MAX + dmax + LOG_ALIGN ≤ 2 ^ 16).
(** Somebody who reads the log. *)
Context (seq idx : Z).

Definition read_holds (n : nat) (s : log_state) (l : list record) : Prop :=
  log_holds LOG_ALIGN dmax n s l ∧ reader_ok s seq idx.

Lemma read_holds_store n s l facility level flags ts_nsec clock dict text :
  let ts := if decide (ts_nsec > 0) then ts_nsec else clock in
  read_holds (S n) s l → fits dmax dict text → in_u64 ts →
  ∃ s', log_store LOG_ALIGN s facility level flags ts_nsec clock dict text = Some s' ∧
    read_holds n s' (l ++ [stored facility level flags ts dict text]).
Proof using Halign Hdmax.
  intros ts [(k & w & Hk & R & Hf & Hn & Hlen) Hread] [Ht Hd] Hts.
  assert (rsize LOG_ALIGN (stored facility level flags ts dict text) <
    HDR + Z.of_nat (length text) + Z.of_nat (length dict) + LOG_ALIGN) as Hs.
  { pose proof (pad_range LOG_ALIGN Halign (raw_size (stored facility level flags ts dict text))).
    unfold rsize. unfold raw_size at 1. cbn [r_text r_dict stored]. lia. }
  destruct (log_store_ok LOG_ALIGN Halign s _ w facility level flags ts_nsec clock dict text R Hts)
    as (j & s' & w' & E & Hj & R' & Hlen' & Hf' & _ & _ & Hpos); fold ts; [lia|lia|lia|].
  exists s'. split; [exact E|]. split.
  - rewrite length_drop in Hj. exists (k + j)%nat, w'.
    pose proof (g_seq _ _ _ _ R) as (_ & Hq & _). pose proof (g_seq _ _ _ _ R') as (_ & Hq' & _).
    rewrite drop_drop in R', Hq'. rewrite length_app, length_drop in Hq'. rewrite length_drop in Hq. cbn in Hq'.
    split_and!; [rewrite length_app; lia| |lia|lia|lia].
    rewrite drop_app_le by lia. exact R'.
  - apply (reader_kept LOG_ALIGN Halign s _ w R s' _ w' j seq idx R' Hf'); [|done|done].
    rewrite length_app, !length_drop. lia.
Qed.

#[export] Instance byte_laws : SinkLaws log_state (byte_sink LOG_ALIGN) dmax.
Proof using Halign Hdmax seq idx.
  exists read_holds.
  - intros n s l [(k & w & Hk & R & Hf & Hn & Hlen) Hr]. split; [|done]. exists k, w. split_and!; try done; lia.
  - exact read_holds_store.
Defined.
End byte_laws.

(** * Text on its way to the log *)

Definition cont_ok (c : cont) : Prop :=
  c_len c ≤ LOG_LINE_MAX ∧ (c_len c ≠ 0 → 0 ≤ c_cons c ≤ c_len c) ∧ in_u64 (c_ts c).

(** Text that is not in a record yet. *)
Definition pending (c : cont) : list Z := if c_flushed c then [] else c_buf c.

Definition log_texts (l : list record) : list Z := concat (r_text <$> l).

Lemma log_texts_app l l' : log_texts (l ++ l') = log_texts l ++ log_texts l'.
Proof. unfold log_texts. by rewrite fmap_app, concat_app. Qed.

Lemma log_texts_one facility level flags ts dict text :
  log_texts [stored facility level flags ts dict text] = text.
Proof. unfold log_texts. cbn. apply app_nil_r. Qed.

Section text.
Context {S : Type} {sink : LogSink S} {dmax : Z} {laws : SinkLaws S sink dmax} {levels : KernLevels}.
Context (clock current : Z) (Hclock : in_u64 clock) (Hdmax : 0 ≤ dmax).
Local Abbreviation cont_flush := (cont_flush (S := S) clock).
Local Abbreviation cont_add := (cont_add (S := S) clock current).

(** A step from log [l] and buffer [c] that takes in [text]. *)
Definition takes_in (n : nat) (l : list record) (c : cont) (text : list Z) (s' : S) (c' : cont) : Prop :=
  ∃ l', holds n s' (l ++ l') ∧ log_texts l' ++ pending c' = pending c ++ text ∧ cont_ok c'.

Lemma takes_in_refl n s l c : holds n s l → cont_ok c → takes_in n l c [] s c.
Proof using. intros H Hc. exists []. rewrite !app_nil_r. done. Qed.

Lemma takes_in_mono n s l c t c' : takes_in (Datatypes.S n) l c t s c' → takes_in n l c t s c'.
Proof using. intros (l' & H & ?). exists l'. split; [by apply holds_mono|done]. Qed.

Lemma takes_in_trans n l c t1 t2 s2 c1 c2 l1 :
  log_texts l1 ++ pending c1 = pending c ++ t1 → takes_in n (l ++ l1) c1 t2 s2 c2 →
  takes_in n l c (t1 ++ t2) s2 c2.
Proof using.
  intros E (l2 & H & E2 & Hc). exists (l1 ++ l2). split_and!; [by rewrite app_assoc|..|done].
  rewrite log_texts_app, <- app_assoc, E2, !app_assoc. by rewrite E.
Qed.

(** A text is stored directly when nothing waits in the buffer. *)
Lemma store_takes_in n s l c facility level flags dict text :
  holds (Datatypes.S n) s l → fits dmax dict text → cont_ok c → pending c = [] →
  ∃ s', store_rec s facility level flags 0 clock dict text = Some s' ∧ takes_in n l c text s' c.
Proof using Hclock.
  intros H Hf Hc Hp. destruct (store_holds n s l facility level flags 0 clock dict text H Hf) as (s' & E & H').
  { exact Hclock. }
  exists s'. split; [done|]. eexists. split; [exact H'|]. by rewrite log_texts_one, Hp, app_nil_r.
Qed.

Lemma flush_takes_in n s l c flags :
  holds (Datatypes.S n) s l → cont_ok c →
  ∃ s' c', cont_flush s c flags = Some (s', c') ∧ takes_in n l c [] s' c' ∧ pending c' = [] ∧
    (c_len c' ≠ 0 → c_flushed c' = true) ∧ c_owner c' = c_owner c.
Proof using Hclock Hdmax.
  intros H Hc. unfold PrintkEmit.cont_flush. destruct (c_flushed c) eqn:Ef.
  { exists s, c. split_and!; [done|by apply takes_in_refl; [apply holds_mono|]| |done..]. unfold pending. by rewrite Ef. }
  destruct (decide (c_len c = 0)) as [E0|E0].
  { exists s, c. split_and!; [done|by apply takes_in_refl; [apply holds_mono|]| |by intros ?|done]. unfold pending. rewrite Ef.
    unfold c_len in E0. by destruct (c_buf c). }
  assert (fits dmax [] (c_buf c)) as Hf by (split; [apply Hc|cbn; lia]).
  destruct Hc as (Hl & Hcons & Hts). destruct (decide (c_cons c ≠ 0)) as [Ecn|Ecn].
  - destruct (store_holds n s l (c_facility c) (c_level c) (Z.lor flags LOG_NOCONS) (c_ts c) clock [] (c_buf c) H Hf)
      as (s' & -> & H'); [by case_decide|]. cbn [mbind option_bind].
    exists s', (seal c flags). split_and!; [done| |done..]. eexists. split; [exact H'|].
    rewrite log_texts_one. split; [unfold pending; cbn; by rewrite Ef|exact (conj Hl (conj Hcons Hts))].
  - destruct (store_holds n s l (c_facility c) (c_level c) flags 0 clock [] (c_buf c) H Hf)
      as (s' & -> & H'); [exact Hclock|]. cbn [mbind option_bind].
    exists s', (with_buf_cons c [] (c_cons c)). split_and!; [done| |unfold pending; cbn; by rewrite Ef|done..].
    eexists. split; [exact H'|]. rewrite log_texts_one. split; [unfold pending; cbn; by rewrite Ef|].
    unfold cont_ok, c_len. cbn. unfold LOG_LINE_MAX. split_and!; try done; lia.
Qed.

Lemma add_takes_in n s l c facility level text :
  holds (Datatypes.S n) s l → cont_ok c → Z.of_nat (length text) ≤ LOG_LINE_MAX →
  ∃ s' c' added, cont_add s c facility level text = Some (s', c', added) ∧
    takes_in n l c (if added : bool then text else []) s' c' ∧ (added = false → pending c' = []).
Proof using Hclock Hdmax.
  intros H Hc Ht. unfold PrintkEmit.cont_add.
  destruct (bool_decide (c_len c ≠ 0) && c_flushed c) eqn:Eb.
  { apply andb_true_iff in Eb as [_ Ef]. exists s, c, false. split_and!; [done|by apply takes_in_refl; [apply holds_mono|]|].
    intros _. unfold pending. by rewrite Ef. }
  destruct (decide (_ > LOG_LINE_MAX)) as [Hbig|Hroom].
  { destruct (flush_takes_in n s l c LOG_CONT H Hc) as (s' & c' & -> & Hin & Hp & _). cbn [mbind option_bind].
    by exists s', c', false. }
  set (c1 := if decide (c_len c = 0) then _ else c).
  set (c2 := with_buf_cons c1 _ _).
  assert (cont_ok c2 ∧ pending c2 = pending c ++ text) as [Hc2 Hp2].
  { subst c2 c1. destruct Hc as (Hl & Hcons & Hts). unfold cont_ok, pending, c_len in *.
    destruct (decide (_ = 0)) as [E0|E0]; cbn.
    - destruct (c_buf c) as [|]; [|cbn in E0; lia]. destruct (c_flushed c); split_and!; done || (cbn; lia).
    - rewrite bool_decide_true in Eb by exact E0. cbn in Eb. rewrite Eb. rewrite length_app, Nat2Z.inj_add.
      split_and!; done || lia. }
  clearbody c2. destruct (decide (c_len c2 > _)) as [Hfull|Hok].
  - destruct (flush_takes_in n s l c2 LOG_CONT H Hc2) as (s' & c' & -> & Hin & Hp & _). cbn [mbind option_bind].
    exists s', c', true. split_and!; [done| |done]. destruct Hin as (l' & Hl' & E & Hc').
    exists l'. split_and!; [done| |done]. by rewrite E, app_nil_r.
  - exists s, c2, true. split_and!; [done| |done]. exists []. rewrite app_nil_r.
    split_and!; [by apply holds_mono|done|done].
Qed.
Lemma fragment_takes_in n s l c facility level lflags dict text :
  holds (3 + n) s l → cont_ok c → fits dmax dict text →
  ∃ s' c', emit_fragment clock current s c facility level lflags dict text = Some (s', c') ∧
    takes_in n l c text s' c'.
Proof using Hclock Hdmax.
  intros H Hc Hf. unfold emit_fragment.
  assert (∃ s1 c1 l1, (if bool_decide (c_len c ≠ 0) && (has lflags LOG_PREFIX || bool_decide (c_owner c ≠ current))
    then cont_flush s c LOG_NEWLINE else Some (s, c)) = Some (s1, c1) ∧ holds (2 + n) s1 (l ++ l1) ∧
    log_texts l1 ++ pending c1 = pending c ++ [] ∧ cont_ok c1) as (s1 & c1 & l1 & -> & H1 & E1 & Hc1).
  { destruct (bool_decide _ && _).
    - destruct (flush_takes_in (2 + n) s l c LOG_NEWLINE H Hc) as (s1 & c1 & -> & (l1 & H1 & E1 & Hc1) & _).
      by exists s1, c1, l1.
    - exists s, c, []. rewrite !app_nil_r. split_and!; try done. by apply holds_mono. }
  cbn [mbind option_bind].
  destruct (add_takes_in (1 + n) s1 (l ++ l1) c1 facility level text H1 Hc1) as (s2 & c2 & added & -> & Hin & Hp);
    [apply Hf|]. cbn [mbind option_bind].
  destruct added.
  - exists s2, c2. split; [done|]. apply (takes_in_trans n l c [] text s2 c1 c2 l1 E1). by apply takes_in_mono.
  - destruct Hin as (l2 & H2 & E2 & Hc2). rewrite <- app_assoc in H2.
    destruct (store_takes_in n s2 (l ++ l1 ++ l2) c2 facility level (Z.lor lflags LOG_CONT) dict text H2 Hf Hc2)
      as (s3 & -> & Hin3); [by apply Hp|]. cbn [mbind option_bind]. exists s3, c2. split; [done|].
    apply (takes_in_trans n l c [] text s3 c2 c2 (l1 ++ l2)); [|exact Hin3].
    by rewrite log_texts_app, <- app_assoc, E2, app_nil_r, E1.
Qed.

Lemma line_takes_in n s l c facility level lflags dict text :
  holds (3 + n) s l → cont_ok c → fits dmax dict text →
  ∃ s' c', emit_line clock current s c facility level lflags dict text = Some (s', c') ∧
    takes_in n l c text s' c'.
Proof using Hclock Hdmax.
  intros H Hc Hf. unfold emit_line.
  assert (∀ s1 c1 l1, holds (1 + n) s1 (l ++ l1) → log_texts l1 ++ pending c1 = pending c →
    cont_ok c1 → pending c1 = [] →
    ∃ s' c', (s ← store_rec s1 facility level lflags 0 clock dict text; Some (s, c1)) = Some (s', c') ∧
      takes_in n l c text s' c') as Hdirect.
  { intros s1 c1 l1 H1 E1 Hc1 Hp. destruct (store_takes_in n s1 (l ++ l1) c1 facility level lflags dict text H1 Hf Hc1 Hp)
      as (s2 & -> & Hin). cbn [mbind option_bind]. exists s2, c1. split; [done|].
    apply (takes_in_trans n l c [] text s2 c1 c1 l1); [by rewrite app_nil_r|done]. }
  destruct (decide (c_len c ≠ 0)) as [Hne|He].
  2: { cbn [mbind option_bind]. apply (Hdirect s c []); [|done|done|].
    - rewrite app_nil_r. by do 2 apply holds_mono.
    - unfold pending, c_len in *. destruct (c_buf c); [by destruct (c_flushed c)|cbn in He; lia]. }
  assert (∃ s1 c1 added l1, (if bool_decide (c_owner c = current) && negb (has lflags LOG_PREFIX)
    then cont_add s c facility level text else Some (s, c, false)) = Some (s1, c1, added) ∧
    holds (2 + n) s1 (l ++ l1) ∧ cont_ok c1 ∧
    log_texts l1 ++ pending c1 = pending c ++ (if added : bool then text else []))
    as (s1 & c1 & added & l1 & -> & H1 & Hc1 & E1).
  { destruct (bool_decide _ && _).
    - destruct (add_takes_in (2 + n) s l c facility level text H Hc ltac:(apply Hf))
        as (s1 & c1 & added & -> & (l1 & H1 & E1 & Hc1) & _). by exists s1, c1, added, l1.
    - exists s, c, false, []. rewrite !app_nil_r. split_and!; try done. by apply holds_mono. }
  cbn [mbind option_bind].
  destruct (flush_takes_in (1 + n) s1 (l ++ l1) c1 LOG_NEWLINE H1 Hc1)
    as (s2 & c2 & -> & (l2 & H2 & E2 & Hc2) & Hp & _). cbn [mbind option_bind].
  rewrite <- app_assoc in H2. rewrite app_nil_r in E2.
  assert (log_texts (l1 ++ l2) ++ pending c2 = pending c ++ (if added then text else [])) as E3
    by (by rewrite log_texts_app, <- app_assoc, E2).
  destruct added.
  - exists s2, c2. split; [done|]. exists (l1 ++ l2). split_and!; [by apply holds_mono|done|done].
  - apply (Hdirect s2 c2 (l1 ++ l2)); [done| |done|done]. by rewrite E3, app_nil_r.
Qed.
End text.

(** ** What is printed *)

(** The text of a message: what the header leaves, without a last newline. *)
Definition msg_body `{KernLevels} (facility : Z) (buf : list Z) : list Z :=
  let t := if decide (facility = 0 ∧ printk_get_level buf ≠ 0) then drop 2 buf else buf in
  if decide (last t = Some 10) then take (length t - 1) t else t.

(** [lflags] and [level] change with the header; the text is the body. *)
Lemma strip_body `{KernLevels} facility level buf :
  let '(text, lflags) := strip_newline buf in
  (strip_level facility level buf text lflags).2 = msg_body facility buf.
Proof.
  unfold strip_newline, strip_level, msg_body.
  destruct (decide (facility = 0 ∧ printk_get_level buf ≠ 0)) as [[Hf Hl]|Hno].
  - destruct (level_header buf Hl) as (c & t & Eb & Hc & Hs). rewrite Hs.
    assert (last buf = Some 10 ↔ last (drop 2 buf) = Some 10) as Hlast.
    { rewrite Eb. cbn [drop]. destruct t as [|x t]; [cbn; split; intros [=]; done|].
      by rewrite !last_cons_cons. }
    destruct (decide (last buf = Some 10)) as [E|E].
    + rewrite (decide_True (P := last (drop 2 buf) = Some 10)) by (by apply Hlast).
      rewrite !(decide_True) by done. destruct (if decide (48 ≤ _ ≤ 55) then _ else _) as [lev fl]. cbn [snd].
      rewrite skipn_firstn_comm, length_drop. f_equal. lia.
    + rewrite (decide_False (P := last (drop 2 buf) = Some 10)) by (by rewrite <- Hlast).
      rewrite !(decide_True) by done. by destruct (if decide (48 ≤ _ ≤ 55) then _ else _) as [lev fl].
  - destruct (decide (last buf = Some 10)); (destruct (decide (facility = 0)); [|done]);
      rewrite decide_False by tauto; done.
Qed.

Lemma strip_newline_length buf : (length (strip_newline buf).1 ≤ length buf)%nat.
Proof. unfold strip_newline. case_decide; cbn [fst]; [rewrite length_take; lia|lia]. Qed.

Lemma msg_body_length `{KernLevels} facility buf : (length (msg_body facility buf) ≤ length buf)%nat.
Proof.
  unfold msg_body. destruct (decide (facility = 0 ∧ _)); case_decide; rewrite ?length_take, ?length_drop; lia.
Qed.

(** [vprintk_emit] takes the body of the message in, after everything that was
    printed before. *)
Lemma vprintk_takes_in {S} {sink : LogSink S} {dmax} {laws : SinkLaws S sink dmax} {levels : KernLevels}
    clock current default_level n s l c nested crashing facility level dict buf :
  in_u64 clock → holds (3 + n) s l → cont_ok c → nested && negb crashing = false →
  fits dmax (default [] dict) buf →
  ∃ s' c', vprintk_store clock current default_level s c false nested crashing facility level dict buf =
      Some (s', c', false, Z.of_nat (length (msg_body facility buf))) ∧
    takes_in (laws := laws) n l c (msg_body facility buf) s' c'.
Proof.
  intros Hclock H Hc Hnest [Ht Hd]. unfold vprintk_store. rewrite Hnest. cbn [mbind option_bind].
  pose proof (strip_body facility level buf) as Hbody.
  destruct (strip_newline buf) as [text lflags]. destruct (strip_level facility level buf text lflags) as [[lev fl] t].
  cbn [snd] in Hbody. subst t.
  assert (fits dmax (default [] dict) (msg_body facility buf)) as Hf.
  { split; [|done]. pose proof (msg_body_length facility buf). lia. }
  assert (0 ≤ dmax) as Hdm by lia.
  set (fl' := if dict then _ else fl). set (lev' := if decide (lev = -1) then _ else lev).
  destruct (negb (has fl' LOG_NEWLINE)).
  - destruct (fragment_takes_in clock current Hclock Hdm n s l c facility lev' fl' _ _ H Hc Hf) as (s' & c' & -> & Hin).
    cbn [mbind option_bind]. exists s', c'. by rewrite Z.add_0_l.
  - destruct (line_takes_in clock current Hclock Hdm n s l c facility lev' fl' _ _ H Hc Hf) as (s' & c' & -> & Hin).
    cbn [mbind option_bind]. exists s', c'. by rewrite Z.add_0_l.
Qed.

(** The record that announces a recursion. *)
Definition note (clock : Z) : record := stored 0 2 (Z.lor LOG_PREFIX LOG_NEWLINE) clock [] RECURSION_MSG.

(** A call that is nested in another one on its CPU is dropped and leaves
    [recursion_bug]; the next call stores the note before it goes on. *)
Lemma vprintk_bug {S} {sink : LogSink S} {levels : KernLevels} clock current default_level s s1 c nested crashing
    facility level dict buf :
  nested && negb crashing = false →
  store_rec s 0 2 (Z.lor LOG_PREFIX LOG_NEWLINE) 0 clock [] RECURSION_MSG = Some s1 →
  vprintk_store clock current default_level s c true nested crashing facility level dict buf =
    ('(s', c', b, n) ← vprintk_store clock current default_level s1 c false nested crashing facility level dict buf;
     Some (s', c', b, Z.of_nat (length RECURSION_MSG) + n)).
Proof.
  intros Hn E. unfold vprintk_store. rewrite Hn, E. cbn [mbind option_bind].
  destruct (strip_newline buf) as [text lflags]. destruct (strip_level facility level buf text lflags) as [[lev fl] t].
  destruct (if negb _ then _ else _) as [[s' c']|]; cbn [mbind option_bind]; [|done]. by rewrite Z.add_0_l.
Qed.

Lemma vprintk_store_ok {S} {sink : LogSink S} {dmax} {laws : SinkLaws S sink dmax} {levels : KernLevels}
    clock current default_level n s l c (bug nested crashing : bool) facility level dict buf :
  in_u64 clock → holds (4 + n) s l → cont_ok c → nested && negb crashing = false →
  fits dmax (default [] dict) buf →
  ∃ s' c' len, vprintk_store clock current default_level s c bug nested crashing facility level dict buf =
      Some (s', c', false, len) ∧
    len = Z.of_nat (length (if bug then RECURSION_MSG else []) + length (msg_body facility buf)) ∧
    takes_in (laws := laws) n (l ++ if bug then [note clock] else []) c (msg_body facility buf) s' c'.
Proof.
  intros Hclock H Hc Hnest Hf. assert (0 ≤ dmax) as Hdm by (destruct Hf; lia). destruct bug.
  - destruct (store_holds (3 + n) s l 0 2 (Z.lor LOG_PREFIX LOG_NEWLINE) 0 clock [] RECURSION_MSG H) as (s1 & E & H1);
      [split; [by vm_compute|done]|done|].
    rewrite (vprintk_bug _ _ _ s s1) by done.
    destruct (vprintk_takes_in clock current default_level n s1 _ c nested crashing facility level dict buf
      Hclock H1 Hc Hnest Hf) as (s' & c' & -> & Hin). cbn [mbind option_bind].
    eexists s', c', _. split; [done|]. split; [lia|exact Hin].
  - destruct (vprintk_takes_in clock current default_level n s l c nested crashing facility level dict buf
      Hclock (holds_mono _ _ _ H) Hc Hnest Hf) as (s' & c' & -> & Hin).
    eexists s', c', _. split; [done|]. split; [done|]. by rewrite app_nil_r.
Qed.

(** * Examples *)

Module EmitDemo.

#[export] Instance kern_levels : KernLevels.
Proof.
  refine {|
    printk_get_level t := match t with
      | 1 :: c :: _ => if decide (48 ≤ c ≤ 55 ∨ c = 99 ∨ c = 100) then c else 0 | _ => 0 end;
    printk_skip_level t := 2 |}.
  intros [|[|[]|] [|c t]]; try done. case_decide; [|done]. intros _. exists c, t. split_and!; [done|lia|done].
Defined.

(** Task 7 prints [buf], with the default level. *)
Definition say (s : log_state) (c : cont) (buf : list Z) : option (log_state * cont) :=
  '(s, c, _, _) ← vprintk_store (sink := byte_sink 4) 1000 7 4 s c false false false 0 (-1) None buf;
  Some (s, c).

(** 700 bytes, then 200 bytes and a newline, then a second line. *)
Definition said : option (log_state * cont) :=
  '(s, c) ← say (log_init 8192) cont_init (replicate 700 97);
  '(s, c) ← say s c (replicate 200 98 ++ [10]);
  say s c [99; 10].

(** Divergence: a newline is lost.  The 900 bytes of the first line pass 80%
    of the continuation buffer, [cont_add] flushes them as a fragment that is to
    be continued, and the flush that should end the line finds the buffer empty.
    The record has no newline, and the next line is read as a part of it. *)
Theorem cont_newline_lost :
  ∃ s c, said = Some (s, c) ∧ c_buf c = [] ∧ log_next_seq s = 2 ∧
    r_flags (msg_view s 0) = LOG_CONT ∧
    concat (ftexts false false 0 [msg_view s 0; msg_view s 916]) =
      replicate 700 97 ++ replicate 200 98 ++ [99; 10].
Proof.
  assert ((λ '(s, c), (c_buf c, log_next_seq s, r_flags (msg_view s 0),
      concat (ftexts false false 0 [msg_view s 0; msg_view s 916]))) <$> said =
    Some ([], 2, LOG_CONT, replicate 700 97 ++ replicate 200 98 ++ [99; 10])) as H by (by vm_compute).
  destruct said as [[s c]|]; [|done]. apply (inj Some) in H.
  apply pair_equal_spec in H as [[[H1 H2]%pair_equal_spec H3]%pair_equal_spec H4].
  exists s, c. exact (conj eq_refl (conj H1 (conj H2 (conj H3 H4)))).
Qed.
End EmitDemo.
