(* ===== verification/PrintkCon.v ===== *)
(** The console side of kernel/printk/printk.c: [cont_print_text],
    [console_cont_flush], [call_console_drivers] and [console_unlock], and
    [vprintk_emit] with the console that it tries, with calls that recurse.

    Each step that the code makes under [logbuf_lock] is a definition: one
    [printk], the flush of a line fragment, one round of the loop of
    [console_unlock].  The theorems: however these steps of several CPUs
    interleave, the records and the fragment that waits hold exactly what was
    printed, in order; and a console that is let alone prints every record it
    has not seen once, but those that went out in fragments, and ends up to
    date. *)

From S2P Require Import Prelude PrintkLog PrintkText PrintkEmit.

Local Open Scope Z_scope.

(** * Console drivers *)

Record console := mkConsole {
  con_id : Z;
  con_enabled : bool;
  con_write : bool;
  con_anytime : bool;
}.

(** [console_drivers], [console_loglevel], [ignore_loglevel], [printk_time], and
    whether the CPU is online. *)
Record con_config := mkConfig {
  console_drivers : list console;
  console_loglevel : Z;
  ignore_loglevel : bool;
  printk_time : bool;
  cpu_online : bool;
}.

(** The state of the consoles; [con_out] are the writes of the drivers. *)
Record con_state := mkCon {
  console_seq : Z;
  console_idx : Z;
  console_prev : Z;
  seen_seq : Z;
  exclusive_console : option Z;
  con_out : list (Z * list Z);
}.

Definition con_at (k : con_state) (seq idx prev : Z) : con_state :=
  mkCon seq idx prev (seen_seq k) (exclusive_console k) (con_out k).
Definition con_write_out (k : con_state) (ws : list (Z * list Z)) : con_state :=
  mkCon (console_seq k) (console_idx k) (console_prev k) (seen_seq k) (exclusive_console k) (con_out k ++ ws).

Section con.
Context (cfg : con_config).

(** The consoles that [text] is written to. *)
Definition call_console_drivers (exclusive : option Z) (level : Z) (text : list Z) : list (Z * list Z) :=
  if bool_decide (level >= console_loglevel cfg) && negb (ignore_loglevel cfg) then []
  else
    (λ con, (con_id con, text)) <$>
    filter (λ con,
      match exclusive with Some x => bool_decide (con_id con = x) | None => true end &&
      con_enabled con && con_write con && (cpu_online cfg || con_anytime con))
      (console_drivers cfg).

(** * Line fragments *)

Definition cont_print_text (c : cont) (console_prev size : Z) : list Z * cont :=
  let t := if bool_decide (c_cons c = 0) && has console_prev LOG_NEWLINE
           then print_time (printk_time cfg) (c_ts c) else [] in
  let size := u64 (size - Z.of_nat (length t)) in
  let len := c_len c - c_cons c in
  let '(t, c) :=
    if decide (len > 0) then
      let n := if decide (len + 1 > size) then size - 1 else len in
      (t ++ take (Z.to_nat n) (drop (Z.to_nat (c_cons c)) (c_buf c)), with_buf_cons c (c_buf c) (c_len c))
    else (t, c) in
  if c_flushed c then
    (t ++ (if has (c_flags c) LOG_NEWLINE then [10] else []), with_buf_cons c [] (c_cons c))
  else (t, c).

Definition CONSOLE_BUF : Z := LOG_LINE_MAX + PREFIX_MAX.

(** One step; the code reads [cont.level] for the drivers after it has dropped
    [logbuf_lock]. *)
Definition console_cont_flush (s : log_state) (c : cont) (k : con_state) : cont * con_state :=
  if decide (c_len c = 0) then (c, k)
  else if bool_decide (console_seq k < log_next_seq s) && bool_decide (c_cons c = 0) then (c, k)
  else
    let '(text, c') := cont_print_text c (console_prev k) CONSOLE_BUF in
    (c', con_write_out k (call_console_drivers (exclusive_console k) (c_level c') text)).

(** * Records *)

(** The jumps to [skip]: records that went out in fragments are passed over and
    lose the mark.  The result is the address of a record to print, if any. *)
Fixpoint console_skip (fuel : nat) (s : log_state) (k : con_state)
    : option (log_state * con_state * option Z) :=
  if decide (console_seq k = log_next_seq s) then Some (s, k, None)
  else
    match fuel with
    | O => None
    | S fuel =>
        a ← log_from_idx s (console_idx k);
        if has (msg_flags s a) LOG_NOCONS then
          idx ← log_next s (console_idx k);
          s ← wr s (a + 15) [Z.land (log_buf s (a + 15)) 254];
          console_skip fuel s (con_at k (u64 (console_seq k + 1)) idx (msg_flags s a))
        else Some (s, k, Some a)
    end.

Definition console_catch_up (s : log_state) (k : con_state) : con_state :=
  if decide (console_seq k < log_first_seq s) then con_at k (log_first_seq s) (log_first_idx s) 0 else k.

(** One round of the loop; the results say whether klogd is to be woken, and
    whether the loop goes on. *)
Definition console_round (s : log_state) (k : con_state) (wake_klogd : bool)
    : option (log_state * con_state * bool * bool) :=
  let wake_klogd := wake_klogd || bool_decide (seen_seq k ≠ log_next_seq s) in
  let k := mkCon (console_seq k) (console_idx k) (console_prev k) (log_next_seq s)
             (exclusive_console k) (con_out k) in
  let k := console_catch_up s k in
  '(s, k, m) ← console_skip (Z.to_nat (log_next_seq s - console_seq k)) s k;
  match m with
  | None => Some (s, k, wake_klogd, false)
  | Some a =>
      let msg := msg_view s a in
      '(text, _) ← msg_print_text (printk_time cfg) msg (console_prev k) false (Some CONSOLE_BUF);
      idx ← log_next s (console_idx k);
      let k := con_at k (u64 (console_seq k + 1)) idx (r_flags msg) in
      Some (s, con_write_out k (call_console_drivers (exclusive_console k) (r_level msg) text), wake_klogd, true)
  end.

Fixpoint console_loop (fuel : nat) (s : log_state) (k : con_state) (wake_klogd : bool)
    : option (log_state * con_state * bool) :=
  match fuel with
  | O => None
  | S fuel =>
      '(s, k, wake_klogd, more) ← console_round s k wake_klogd;
      if more : bool then console_loop fuel s k wake_klogd else Some (s, k, wake_klogd)
  end.

(** [console_unlock] when no other CPU prints meanwhile; the last result is
    [retry].  [console_sem] is not modelled. *)
Definition console_unlock (suspended : bool) (s : log_state) (c : cont) (k : con_state)
    : option (log_state * cont * con_state * bool * bool) :=
  if suspended then Some (s, c, k, false, false)
  else
    let '(c, k) := console_cont_flush s c k in
    '(s, k, wake_klogd) ← console_loop (S (Z.to_nat (log_next_seq s - log_first_seq s))) s k false;
    let k := mkCon (console_seq k) (console_idx k) (console_prev k) (seen_seq k) None (con_out k) in
    Some (s, c, k, wake_klogd, bool_decide (console_seq k ≠ log_next_seq s)).
End con.

(** * Taking the mark off a record *)

Definition clear_nocons (r : record) : record :=
  Rec (r_ts r) (r_facility r) (r_level r) (Z.land (r_flags r) 30) (r_text r) (r_dict r).

Section clear.
Context (LOG_ALIGN : Z) (Halign : LOG_ALIGN = 4 ∨ LOG_ALIGN = 8).
Local Abbreviation rsize := (rsize LOG_ALIGN).
Local Abbreviation rec_at := (rec_at LOG_ALIGN).
Local Abbreviation flat := (flat LOG_ALIGN).
Local Abbreviation span := (span LOG_ALIGN).

(** The memory [m'] is [m] with the record at [a] changed from [r] to [r']. *)
Definition changes_rec (m m' : Z → Z) (a : Z) (r r' : record) : Prop :=
  rec_at m' a r' ∧ rsize r' = rsize r ∧ ∀ x, ¬ (a ≤ x < a + rsize r) → m' x = m x.

Lemma flat_change m m' r r' L : ∀ i cur stop,
  flat m cur L stop → L !! i = Some r → changes_rec m m' (cur + span (take i L)) r r' →
  flat m' cur (<[i := r']> L) stop.
Proof using Halign.
  induction L as [|q L IH]; intros i cur stop H Hi (Hat & Hsz & Hout); [done|].
  destruct H as [Hq HL]. pose proof (rsize_range LOG_ALIGN Halign q) as Hs. unfold HDR in Hs.
  destruct i as [|i]; cbn in Hi.
  - injection Hi as ->. rewrite Z.add_0_r in *. split; [done|]. rewrite Hsz.
    apply (flat_frame LOG_ALIGN Halign m); [|done]. intros x Hx. apply Hout. lia.
  - cbn [take] in *. change (span (q :: take i L)) with (rsize q + span (take i L)) in *.
    pose proof (span_nonneg LOG_ALIGN Halign (take i L)). split.
    + apply (rec_at_frame LOG_ALIGN Halign m); [|done]. intros x Hx. apply Hout. lia.
    + apply IH; [done|done|]. rewrite Z.add_assoc in Hat, Hout. by split_and!.
Qed.

(** Where record [i] is. *)
Definition rec_addr (s : log_state) (L : list record) (w : option nat) (i : nat) : Z :=
  match w with
  | None => log_first_idx s + span (take i L)
  | Some n => if decide (i < n)%nat then log_first_idx s + span (take i L) else span (take (i - n) (drop n L))
  end.

Lemma flat_rec m L : ∀ i cur stop r, flat m cur L stop → L !! i = Some r →
  rec_at m (cur + span (take i L)) r ∧ cur + span (take i L) + rsize r ≤ stop.
Proof using Halign.
  induction L as [|q L IH]; intros i cur stop r H Hi; [done|]. destruct H as [Hq HL]. destruct i as [|i]; cbn in Hi.
  - injection Hi as ->. rewrite Z.add_0_r. split; [done|]. apply (flat_le LOG_ALIGN Halign) in HL as [HL _]. exact HL.
  - cbn [take]. change (span (q :: take i L)) with (rsize q + span (take i L)). rewrite Z.add_assoc. by apply IH.
Qed.

Lemma ring_addr s L w i r a :
  ring LOG_ALIGN s L w → L !! i = Some r →
  log_from_idx s (pos LOG_ALIGN (log_first_idx s) L w i) = Some a → a = rec_addr s L w i.
Proof using Halign.
  intros [(Hf & Hn & Hb) _ _ Hlay] Hi. pose proof (lookup_lt_Some _ _ _ Hi) as Hlt. unfold log_from_idx.
  pose proof (rsize_range LOG_ALIGN Halign r) as Hs. unfold HDR in *.
  assert (∀ p, rec_at (log_buf s) p r → 0 ≤ p → p + rsize r ≤ log_buf_len s →
    (l ← msg_len s p; Some (if decide (l = 0) then 0 else p)) = Some a → a = p) as Hat.
  { intros p Hp H0 Hl. rewrite (msg_len_at LOG_ALIGN Halign s p r Hp H0 Hl). cbn [mbind option_bind].
    rewrite decide_False by lia. by intros [=]. }
  assert (∀ l, 0 ≤ span l) as Hsp by (intros l; exact (span_nonneg LOG_ALIGN Halign l)).
  destruct w as [n|]; cbn [laid_out pos rec_addr] in *.
  - destruct Hlay as (Hnl & Hnf & e & H1 & Hmk & Hel & H2). unfold HDR in *.
    destruct (decide (i < n)%nat) as [Hin|Hin].
    + rewrite decide_True by lia.
      destruct (flat_rec _ _ i _ _ r H1) as [Hr Hre]; [by rewrite lookup_take_lt|].
      rewrite take_take, Nat.min_l in Hr, Hre by lia. apply Hat; [done|pose proof (Hsp (take i L)); lia|lia].
    + destruct (flat_rec _ _ (i - n) _ _ r H2) as [Hr Hre]; [rewrite lookup_drop; by replace (n + (i - n))%nat with i by lia|].
      pose proof (Hsp (take (i - n) (drop n L))).
      destruct (decide (i ≤ n)%nat) as [Hle|Hle].
      * assert (i = n) as -> by lia. rewrite Nat.sub_diag, take_0. apply flat_span in H1. rewrite <- H1.
        unfold msg_len. rewrite decide_True by (pose proof (Hsp (take n L)); unfold HDR; lia). rewrite Hmk. cbn. by intros [=].
      * apply Hat; [done|lia|lia].
  - destruct (flat_rec _ _ i _ _ r Hlay Hi) as [Hr Hre]. apply Hat; [done|pose proof (Hsp (take i L)); lia|lia].
Qed.

Lemma ring_change s m' L w i r r' :
  ring LOG_ALIGN s L w → L !! i = Some r → rec_ok LOG_ALIGN r' →
  changes_rec (log_buf s) m' (rec_addr s L w i) r r' →
  ring LOG_ALIGN (with_buf s m') (<[i := r']> L) w.
Proof using Halign.
  intros [Hidx Hseq Hrec Hlay] Hi Hr' Hch. pose proof (lookup_lt_Some _ _ _ Hi) as Hlt. split; [done| | |].
  - cbn. by rewrite length_insert.
  - by apply Forall_insert.
  - destruct Hidx as (Hf & Hn & Hb). unfold HDR in *. destruct w as [n|]; cbn [laid_out rec_addr] in *.
    + destruct Hlay as (Hnl & Hnf & e & H1 & Hmk & Hel & H2). rewrite length_insert.
      split; [done|]. split; [done|]. exists e. cbn [log_buf with_buf log_first_idx log_next_idx log_buf_len].
      pose proof (flat_le LOG_ALIGN Halign _ _ _ _ H1) as [Hle1 _]. pose proof (flat_le LOG_ALIGN Halign _ _ _ _ H2) as [Hle2 _].
      destruct (decide (i < n)%nat) as [Hin|Hin].
      * assert (take n L !! i = Some r) as Hi' by (by rewrite lookup_take_lt).
        destruct (flat_rec _ _ i _ _ r H1 Hi') as [_ Hre].
        rewrite take_take, Nat.min_l in Hre by lia. pose proof (span_nonneg LOG_ALIGN Halign (take i L)).
        rewrite take_insert_lt, drop_insert_lt by lia.
        destruct Hch as (Hat & Hsz & Hout). unfold HDR in *. split_and!; try done.
        -- apply (flat_change (log_buf s) m' r r' _ i); [done|done|]. rewrite take_take, Nat.min_l by lia. by split_and!.
        -- rewrite <- Hmk. apply fld_ext. intros x Hx. apply Hout. lia.
        -- apply (flat_frame LOG_ALIGN Halign (log_buf s)); [|done]. intros x Hx. apply Hout. lia.
      * assert (drop n L !! (i - n)%nat = Some r) as Hi'
          by (rewrite lookup_drop; by replace (n + (i - n))%nat with i by lia).
        destruct (flat_rec _ _ (i - n) _ _ r H2 Hi') as [_ Hre].
        pose proof (span_nonneg LOG_ALIGN Halign (take (i - n) (drop n L))).
        rewrite take_insert_ge, drop_insert_ge by lia.
        destruct Hch as (Hat & Hsz & Hout). unfold HDR in *. split_and!; try done.
        -- apply (flat_frame LOG_ALIGN Halign (log_buf s)); [|done]. intros x Hx. apply Hout. lia.
        -- rewrite <- Hmk. apply fld_ext. intros x Hx. apply Hout. lia.
        -- apply (flat_change (log_buf s) m' r r' _ (i - n)); [done|done|]. by split_and!.
    + by apply (flat_change (log_buf s) m' r r' _ i).
Qed.
End clear.

(** ** The byte that is written *)

Lemma land_254 x : 0 ≤ x < 256 → Z.land x 254 = 2 * (x / 2).
Proof.
  intros Hx. assert (forallb (λ n, Z.land (Z.of_nat n) 254 =? 2 * (Z.of_nat n / 2)) (seq 0 256) = true) as H
    by (by vm_compute).
  rewrite forallb_forall in H. specialize (H (Z.to_nat x)). rewrite Z2Nat.id, Z.eqb_eq in H by lia.
  apply H. apply in_seq. lia.
Qed.

Lemma land_30 x : 0 ≤ x < 32 → Z.land x 30 = 2 * (x / 2).
Proof.
  intros Hx. assert (forallb (λ n, Z.land (Z.of_nat n) 30 =? 2 * (Z.of_nat n / 2)) (seq 0 32) = true) as H
    by (by vm_compute).
  rewrite forallb_forall in H. specialize (H (Z.to_nat x)). rewrite Z2Nat.id, Z.eqb_eq in H by lia.
  apply H. apply in_seq. lia.
Qed.

Section skip.
Context (LOG_ALIGN : Z) (Halign : LOG_ALIGN = 4 ∨ LOG_ALIGN = 8).
Local Abbreviation rsize := (rsize LOG_ALIGN).
Local Abbreviation rec_at := (rec_at LOG_ALIGN).
Local Abbreviation ring := (ring LOG_ALIGN).
Local Abbreviation pos := (pos LOG_ALIGN).

Lemma clear_rec_ok r : rec_ok LOG_ALIGN r → rec_ok LOG_ALIGN (clear_nocons r).
Proof using.
  intros (H1 & H2 & H3 & H4 & H5). split_and!; try done; try apply H2; try apply H3; cbn; rewrite land_30 by lia; dlia.
Qed.

Lemma clear_changes m a r :
  rec_at m a r → rec_ok LOG_ALIGN r →
  changes_rec LOG_ALIGN m (put m (a + 15) [Z.land (m (a + 15)) 254]) a r (clear_nocons r).
Proof using Halign.
  intros (H1 & H2 & H3 & H4 & H5 & H6 & H7 & H8) (_ & _ & Hl & Hf & _).
  pose proof (rsize_range LOG_ALIGN Halign r) as Hs. unfold HDR in *.
  assert (∀ x, x ≠ a + 15 → put m (a + 15) [Z.land (m (a + 15)) 254] x = m x) as Hout.
  { intros x Hx. apply put_out. cbn [length]. lia. }
  split; [|split; [done|intros x Hx; apply Hout; lia]].
  unfold PrintkLog.rec_at, HDR. cbn [clear_nocons r_ts r_text r_dict r_facility r_flags r_level].
  change (PrintkLog.rsize LOG_ALIGN (clear_nocons r)) with (rsize r). split_and!.
  - rewrite <- H1. apply fld_ext. intros x Hx. apply Hout. lia.
  - rewrite <- H2. apply fld_ext. intros x Hx. apply Hout. lia.
  - rewrite <- H3. apply fld_ext. intros x Hx. apply Hout. lia.
  - rewrite <- H4. apply fld_ext. intros x Hx. apply Hout. lia.
  - rewrite <- H5. apply Hout. lia.
  - unfold put. rewrite decide_True by (cbn [length]; lia). rewrite Z.sub_diag. change (Z.to_nat 0) with 0%nat. cbn [nth]. rewrite H6.
    rewrite land_254, land_30 by lia. dlia.
  - rewrite <- H7 at 2. apply get_ext. intros x Hx. apply Hout. lia.
  - rewrite <- H8 at 2. apply get_ext. intros x Hx. apply Hout. lia.
Qed.

Lemma span_map L : span LOG_ALIGN L = foldr Z.add 0 (rsize <$> L).
Proof using. induction L as [|r L IH]; [done|]. cbn. unfold span in *. by rewrite IH. Qed.

(** Positions depend on the sizes only. *)
Lemma pos_sizes first L L' w j : rsize <$> L = rsize <$> L' → pos first L w j = pos first L' w j.
Proof using.
  intros E. unfold PrintkLog.pos. destruct w as [n|]; [case_decide|]; rewrite !span_map, ?fmap_take, ?fmap_drop, ?E; done.
Qed.

Lemma clear_sizes (L : list record) (i : nat) r : L !! i = Some r → rsize <$> <[i := clear_nocons r]> L = rsize <$> L.
Proof using.
  intros Hi. rewrite list_fmap_insert. change (rsize (clear_nocons r)) with (rsize r).
  apply list_insert_id. by rewrite list_lookup_fmap, Hi.
Qed.

(** The console is at record [i] of [L]. *)
Definition con_pos (s : log_state) (L : list record) (w : option nat) (k : con_state) (i : nat) : Prop :=
  (i ≤ length L)%nat ∧ console_seq k = log_first_seq s + Z.of_nat i ∧
  console_idx k = pos (log_first_idx s) L w i.

(** The records that are passed over, with the mark taken off, the flags of the
    last of them, and the records that are left. *)
Fixpoint skipped (prev : Z) (P : list record) : list record * Z * list record :=
  match P with
  | [] => ([], prev, [])
  | r :: P' =>
      if has (r_flags r) LOG_NOCONS then
        let '(C, p, Q) := skipped (r_flags (clear_nocons r)) P' in (clear_nocons r :: C, p, Q)
      else ([], prev, P)
  end.

(** What a step of the console leaves alone. *)
Definition same_log (s s' : log_state) : Prop := ∃ m, s' = with_buf s m.

Lemma same_log_trans s1 s2 s3 : same_log s1 s2 → same_log s2 s3 → same_log s1 s3.
Proof using. intros [m ->] [m' ->]. by exists m'. Qed.

Lemma console_skip_ok w fuel : ∀ s L k i C p Q,
  ring s L w → con_pos s L w k i → (length L - i ≤ fuel)%nat →
  skipped (console_prev k) (drop i L) = (C, p, Q) →
  ∃ s' m, console_skip fuel s k =
      Some (s', con_at k (console_seq k + Z.of_nat (length C))
                  (pos (log_first_idx s) L w (i + length C)) p, m) ∧
    same_log s s' ∧ ring s' (take i L ++ C ++ Q) w ∧
    match m with
    | None => Q = []
    | Some a => ∃ r Q', Q = r :: Q' ∧ has (r_flags r) LOG_NOCONS = false ∧
        log_from_idx s' (pos (log_first_idx s) L w (i + length C)) = Some a ∧ rec_at (log_buf s') a r
    end.
Proof using Halign.
  induction fuel as [|fuel IH]; intros s L k i C p Q R (Hi & Hseq & Hidx) Hfuel Hsk.
  - cbn [console_skip]. destruct (g_seq _ _ _ _ R) as (_ & Hq & _).
    rewrite decide_True by lia. rewrite drop_ge in Hsk by lia. cbn in Hsk. injection Hsk as <- <- <-.
    exists s, None. cbn [length]. rewrite Nat.add_0_r, Z.add_0_r, <- Hidx. split_and!; [by destruct k|by exists (log_buf s); destruct s| |done].
    rewrite !app_nil_r, take_ge by lia. done.
  - cbn [console_skip]. destruct (g_seq _ _ _ _ R) as (Hq0 & Hq & Hq2).
    destruct (decide (console_seq k = log_next_seq s)) as [Eend|Hne].
    { rewrite drop_ge in Hsk by lia. cbn in Hsk. injection Hsk as <- <- <-.
      exists s, None. cbn [length]. rewrite Nat.add_0_r, Z.add_0_r, <- Hidx. split_and!; [by destruct k|by exists (log_buf s); destruct s| |done].
      rewrite !app_nil_r, take_ge by lia. done. }
    destruct (lookup_lt_is_Some_2 L i ltac:(lia)) as [r Hr].
    destruct (ring_read LOG_ALIGN Halign s L w i r R Hr) as (a & idx & E1 & Ha & Ha0 & Hal & E2 & Hidx').
    pose proof (ring_addr LOG_ALIGN Halign s L w i r a R Hr E1) as Haddr.
    pose proof (g_recs _ _ _ _ R) as Hrecs. pose proof (Forall_lookup_1 _ _ _ _ Hrecs Hr) as Hrok.
    destruct (rec_fields LOG_ALIGN s a r Ha Hrok) as (_ & _ & Hflags & _).
    rewrite Hidx, E1. cbn [mbind option_bind]. rewrite Hflags.
    rewrite (drop_S L r i Hr) in Hsk. cbn [skipped] in Hsk. destruct (has (r_flags r) LOG_NOCONS) eqn:Emark.
    + destruct (skipped (r_flags (clear_nocons r)) (drop (S i) L)) as [[C' p'] Q'] eqn:Esk'. injection Hsk as <- <- <-.
      rewrite E2. cbn [mbind option_bind].
      pose proof (rsize_range LOG_ALIGN Halign r) as Hs. unfold HDR in Hs.
      rewrite wr_ok; [|lia|cbn [length]; lia]. cbn [mbind option_bind].
      pose proof (clear_changes _ _ _ Ha Hrok) as Hch. set (m1 := put _ _ _) in *.
      pose proof Hch as (Hat1 & _ & _). rewrite Haddr in Hch.
      pose proof (ring_change LOG_ALIGN Halign s m1 L w i r _ R Hr (clear_rec_ok r Hrok) Hch) as R1.
      destruct (rec_fields LOG_ALIGN (with_buf s m1) a _ Hat1 (clear_rec_ok r Hrok)) as (_ & _ & -> & _).
      rewrite wrap_small by (unfold in_width; lia).
      assert (∀ j, pos (log_first_idx s) (<[i := clear_nocons r]> L) w j = pos (log_first_idx s) L w j) as Hpos
        by (intros j; apply pos_sizes, clear_sizes, Hr).
      destruct (IH (with_buf s m1) (<[i := clear_nocons r]> L)
        (con_at k (console_seq k + 1) idx (r_flags (clear_nocons r))) (S i) C' p' Q' R1)
        as (s' & m & E & Hsame & R' & Hm).
      * split_and!; cbn; [rewrite length_insert; lia|lia|rewrite Hpos; done].
      * rewrite length_insert. lia.
      * cbn [console_prev con_at]. rewrite drop_insert_lt by lia. exact Esk'.
      * rewrite E. cbn [console_seq con_at log_first_idx with_buf] in *. exists s', m.
        rewrite Hpos in *. replace (S i + length C')%nat with (i + length (clear_nocons r :: C'))%nat in * by (cbn [length]; lia).
        split_and!; [|apply same_log_trans with (with_buf s m1); [by exists m1|done]| |done].
        -- unfold con_at. cbn [seen_seq exclusive_console con_out]. cbn [length]. rewrite Nat2Z.inj_succ.
           by replace (console_seq k + 1 + Z.of_nat (length C')) with (console_seq k + Z.succ (Z.of_nat (length C'))) by lia.
        -- assert (take (S i) (<[i := clear_nocons r]> L) = take i L ++ [clear_nocons r]) as Et.
           { rewrite (take_S_r _ i (clear_nocons r)) by (by rewrite list_lookup_insert_eq by lia).
             by rewrite take_insert_ge by lia. }
           rewrite Et, <- app_assoc in R'. exact R'.
    + injection Hsk as <- <- <-. cbn [length]. rewrite Nat.add_0_r, Z.add_0_r, <- Hidx.
      exists s, (Some a). split_and!; [by destruct k|by exists (log_buf s); destruct s| |].
      * cbn [app]. rewrite <- (drop_S L r i Hr), take_drop. done.
      * exists r, (drop (S i) L). by rewrite Hidx.
Qed.
End skip.

(** * What the console prints *)

(** The text of the record surely fits the buffer of [console_unlock]. *)
Definition con_room (r : record) : Prop :=
  Z.of_nat (length (r_text r)) + PREFIX_MAX * Z.of_nat (length (lines_of (r_text r))) ≤ CONSOLE_BUF.

Lemma line_texts_length P newline ls : ∀ prefix, ls ≠ [] →
  Z.of_nat (length (concat (line_texts P prefix newline ls))) +
    ((if prefix then 0 else Z.of_nat (length P)) + (if newline then 0 else 1)) =
  Z.of_nat (length (concat ls)) + (Z.of_nat (length P) + 1) * Z.of_nat (length ls).
Proof.
  induction ls as [|l ls IH]; intros prefix Hne; [done|]. cbn [line_texts concat]. rewrite !length_app.
  destruct ls as [|l' ls].
  - cbn [line_texts concat]. destruct prefix, newline; cbn [length]; lia.
  - specialize (IH true ltac:(done)). cbn [length] in *. destruct prefix; cbn [length]; lia.
Qed.

Lemma lines_length text : (length (concat (lines_of text)) ≤ length text)%nat.
Proof.
  induction text as [|c text IH]; [done|]. cbn [lines_of]. case_decide; cbn [concat app length]; [lia|].
  destruct (lines_of text) as [|l ls]; cbn [concat app length] in *; lia.
Qed.

(** A record with room is printed in full. *)
Lemma con_text_ok time r prev :
  hdr_ok r → r_ts r < 2 ^ 64 →
  ∃ t n, msg_print_text time r prev false (Some CONSOLE_BUF) = Some (t, n) ∧
    (con_room r → t = full_text time r prev false).
Proof.
  intros Hr Hts. destruct (print_text_ok time r prev false CONSOLE_BUF Hr ltac:(by vm_compute)) as (j & t & E & _ & _ & Hall).
  exists t, (Z.of_nat (length t)). split; [done|]. intros Hroom. apply Hall.
  pose proof (prefix_bound time r false Hr Hts) as HP. pose proof (lines_length (r_text r)) as Hl.
  pose proof (lines_of_ne (r_text r)) as Hne.
  pose proof (line_texts_length (print_prefix time r false) (last_newline r) (lines_of (r_text r)) (first_prefix r prev) Hne) as HL.
  unfold full_text, rec_lines, slack_of. rewrite HL. unfold con_room, PREFIX_MAX in Hroom.
  assert (0 < length (lines_of (r_text r)))%nat by (destruct (lines_of (r_text r)); [done|cbn; lia]). nia.
Qed.

(** The records with their levels and texts, but the marked ones. *)
Fixpoint con_prints (time : bool) (prev : Z) (P : list record) : list (Z * list Z) :=
  match P with
  | [] => []
  | r :: P =>
      if has (r_flags r) LOG_NOCONS then con_prints time (r_flags (clear_nocons r)) P
      else (r_level r, full_text time r prev false) :: con_prints time (r_flags r) P
  end.

Definition con_writes (cfg : con_config) (exclusive : option Z) (ps : list (Z * list Z)) : list (Z * list Z) :=
  concat ((λ p, call_console_drivers cfg exclusive p.1 p.2) <$> ps).

(** An unmarked record has nothing to lose. *)
Lemma clear_unmarked LOG_ALIGN r : rec_ok LOG_ALIGN r → has (r_flags r) LOG_NOCONS = false → clear_nocons r = r.
Proof.
  intros (_ & _ & _ & Hf & _) Hm. destruct r as [ts fac lev fl tx di]. unfold clear_nocons. cbn in *. f_equal.
  rewrite land_30 by lia. unfold has in Hm. apply bool_decide_eq_false in Hm.
  assert (Z.land fl LOG_NOCONS = 0) as H0 by (destruct (decide (Z.land fl LOG_NOCONS = 0)); [done|by destruct Hm]).
  change LOG_NOCONS with (Z.ones 1) in H0. rewrite Z.land_ones in H0 by lia. change (2 ^ 1) with 2 in H0. dlia.
Qed.

Lemma clear_twice r : clear_nocons (clear_nocons r) = clear_nocons r.
Proof. unfold clear_nocons. cbn. by rewrite <- Z.land_assoc. Qed.

(** What a record has besides the mark. *)
Lemma clear_same {A} (f : record → A) (L L' : list record) :
  (∀ r, f (clear_nocons r) = f r) → clear_nocons <$> L = clear_nocons <$> L' → f <$> L = f <$> L'.
Proof.
  intros Hf H. apply (f_equal (fmap f)) in H. rewrite <- !list_fmap_compose in H.
  rewrite (list_fmap_ext (f ∘ clear_nocons) f L), (list_fmap_ext (f ∘ clear_nocons) f L') in H; [done|..];
    intros i r _; apply Hf.
Qed.

Lemma skipped_prints time P : ∀ prev C p Q, skipped prev P = (C, p, Q) →
  con_prints time prev P = con_prints time p Q ∧ clear_nocons <$> P = C ++ (clear_nocons <$> Q) ∧
  length P = (length C + length Q)%nat ∧ clear_nocons <$> (C ++ Q) = clear_nocons <$> P ∧ Q = drop (length C) P ∧
  match Q with r :: _ => has (r_flags r) LOG_NOCONS = false | [] => True end.
Proof.
  induction P as [|r P IH]; intros prev C p Q H; cbn [skipped] in H; [injection H as <- <- <-; done|].
  cbn [con_prints]. destruct (has (r_flags r) LOG_NOCONS) eqn:Em.
  - destruct (skipped (r_flags (clear_nocons r)) P) as [[C' p'] Q'] eqn:E. injection H as <- <- <-.
    destruct (IH _ _ _ _ E) as (H1 & H2 & H3 & H4 & H5 & H6). split_and!; try done.
    + cbn [app]. rewrite !fmap_cons, H2. done.
    + cbn [length]. lia.
    + cbn [app]. rewrite !fmap_cons, H4, clear_twice. done.
  - injection H as <- <- <-. cbn [con_prints]. rewrite Em. split_and!; done.
Qed.

Section rounds.
Context (cfg : con_config) (LOG_ALIGN : Z) (Halign : LOG_ALIGN = 4 ∨ LOG_ALIGN = 8).
Local Abbreviation ring := (ring LOG_ALIGN).
Local Abbreviation pos := (pos LOG_ALIGN).
Local Abbreviation con_pos := (con_pos LOG_ALIGN).

Definition con_round_at (s : log_state) (k : con_state) (seq idx prev : Z) (ws : list (Z * list Z)) : con_state :=
  mkCon seq idx prev (log_next_seq s) (exclusive_console k) (con_out k ++ ws).

(** A console whose place is good, after it has caught up. *)
Lemma catch_up_pos s L w k :
  ring s L w → reader_ok s (console_seq k) (console_idx k) →
  ∃ i, con_pos s L w (console_catch_up s k) i ∧
    i = Z.to_nat (console_seq k - log_first_seq s) ∧
    console_prev (console_catch_up s k) = (if decide (console_seq k < log_first_seq s) then 0 else console_prev k).
Proof using Halign.
  intros R Hok. unfold console_catch_up. destruct (g_seq _ _ _ _ R) as (_ & Hq & _). case_decide as Hd.
  - exists 0%nat. split_and!; [|lia|done]. split_and!; [lia|cbn; lia|]. unfold PrintkLog.pos.
    destruct w as [n|]; [rewrite decide_True by lia|]; rewrite take_0; unfold span; cbn [foldr console_idx con_at]; lia.
  - destruct (reader_pos LOG_ALIGN Halign s L w R _ _ Hok ltac:(lia)) as (i & Hi & Hs & Hx).
    exists i. split_and!; [by split_and!|lia|done].
Qed.

Lemma pos_con s L w k i : ring s L w → con_pos s L w k i → reader_ok s (console_seq k) (console_idx k).
Proof using Halign. intros R (Hi & -> & ->). by apply pos_reader. Qed.

Lemma skip_result (s : log_state) L i C p Q prev :
  skipped prev (drop i L) = (C, p, Q) → (i ≤ length L)%nat →
  length (take i L ++ C) = (i + length C)%nat ∧
  clear_nocons <$> (take i L ++ C ++ Q) = clear_nocons <$> L ∧
  rsize LOG_ALIGN <$> (take i L ++ C ++ Q) = rsize LOG_ALIGN <$> L.
Proof using.
  intros H Hi. apply (skipped_prints true) in H as (_ & _ & _ & H & _).
  assert (clear_nocons <$> (take i L ++ C ++ Q) = clear_nocons <$> L) as E.
  { rewrite <- (take_drop i L) at 2. by rewrite !(fmap_app clear_nocons (take i L)), H. }
  split_and!; [rewrite length_app, length_take; lia|done|by apply clear_same].
Qed.

Lemma console_round_ok s L w k i wake C p Q :
  ring s L w → con_pos s L w (console_catch_up s k) i →
  skipped (console_prev (console_catch_up s k)) (drop i L) = (C, p, Q) →
  let wake' := wake || bool_decide (seen_seq k ≠ log_next_seq s) in
  let at' j := con_round_at s k (log_first_seq s + Z.of_nat (i + j)) (pos (log_first_idx s) L w (i + j)) in
  ∃ s', same_log s s' ∧ ring s' (take i L ++ C ++ Q) w ∧
    match Q with
    | [] => console_round cfg s k wake = Some (s', at' (length C) p [], wake', false)
    | r :: _ => ∃ t, (con_room r → t = full_text (printk_time cfg) r p false) ∧
        console_round cfg s k wake =
          Some (s', at' (S (length C)) (r_flags r)
                  (call_console_drivers cfg (exclusive_console k) (r_level r) t), wake', true)
    end.
Proof using Halign.
  intros R Hpos Hsk wake' at'. unfold console_round. fold wake'.
  set (k1 := mkCon _ _ _ (log_next_seq s) _ _).
  assert (console_catch_up s k1 = con_round_at s k (console_seq (console_catch_up s k))
    (console_idx (console_catch_up s k)) (console_prev (console_catch_up s k)) []) as Ek.
  { unfold k1, console_catch_up, con_round_at. cbn. rewrite app_nil_r. by case_decide. }
  rewrite Ek. set (k2 := con_round_at _ _ _ _ _ _) in *.
  pose proof Hpos as (Hi & Hseq & Hidx). destruct (g_seq _ _ _ _ R) as (Hq0 & Hq & Hq2).
  replace (Z.to_nat (log_next_seq s - console_seq k2)) with (length L - i)%nat by (cbn; lia).
  assert (length (drop i L) = length C + length Q)%nat as Hlen by (by apply (skipped_prints (printk_time cfg)) in Hsk as (_ & _ & H & _)).
  rewrite length_drop in Hlen.
  assert (console_seq k2 = log_first_seq s + Z.of_nat i) as Eseq by exact Hseq.
  destruct (console_skip_ok LOG_ALIGN Halign w (length L - i) s L k2 i C p Q R Hpos ltac:(lia) Hsk)
    as (s' & m & -> & Hsame & R' & Hm). cbn [mbind option_bind].
  exists s'. split; [done|]. split; [done|]. rewrite Eseq.
  replace (log_first_seq s + Z.of_nat i + Z.of_nat (length C)) with (log_first_seq s + Z.of_nat (i + length C)) by lia.
  destruct m as [a|].
  2: { subst Q. done. }
  destruct Hm as (r & Q' & -> & Hmk & E1 & Ha). cbn [length] in Hlen.
  destruct (skip_result s L i C p (r :: Q') _ Hsk Hi) as (Hl1 & _ & Hsz).
  assert ((take i L ++ C ++ r :: Q') !! (i + length C)%nat = Some r) as Hr
    by (rewrite app_assoc, <- Hl1; by apply list_lookup_middle).
  assert (∀ j, pos (log_first_idx s') (take i L ++ C ++ r :: Q') w j = pos (log_first_idx s) L w j) as Hpe.
  { intros j. destruct Hsame as [m ->]. apply pos_sizes, Hsz. }
  destruct (ring_read LOG_ALIGN Halign s' _ w _ r R' Hr) as (_ & idx & _ & _ & _ & _ & E2 & ->). rewrite !Hpe in E2.
  destruct (rec_view LOG_ALIGN s' _ w R' a r Ha (list_elem_of_lookup_2 _ _ _ Hr)) as [-> Hh].
  assert (r_ts r < 2 ^ 64) as Hts.
  { pose proof (Forall_lookup_1 _ _ _ _ (g_recs _ _ _ _ R') Hr) as (Ht & _). apply Ht. }
  destruct (con_text_ok (printk_time cfg) r p Hh Hts) as (t & n & Et & Hfull).
  exists t. split; [done|]. cbn [console_prev con_at console_idx console_seq]. rewrite Et. cbn [mbind option_bind].
  rewrite E2. cbn [mbind option_bind].
  rewrite wrap_small by (unfold in_width; lia). unfold at', con_round_at, con_write_out, con_at.
  cbn [console_seq console_idx console_prev seen_seq exclusive_console con_out k2 con_round_at].
  rewrite app_nil_r. replace (i + S (length C))%nat with (S (i + length C)) by lia.
  by replace (log_first_seq s + Z.of_nat (i + length C) + 1) with (log_first_seq s + Z.of_nat (S (i + length C))) by lia.
Qed.

(** The loop prints what is left, and ends. *)
Lemma console_loop_ok w fuel : ∀ s L k i wake,
  ring s L w → con_pos s L w (console_catch_up s k) i → (length L - i < fuel)%nat →
  let prev := console_prev (console_catch_up s k) in
  ∃ s' prev' ws, console_loop cfg fuel s k wake =
      Some (s', con_round_at s k (log_next_seq s) (pos (log_first_idx s) L w (length L)) prev' ws,
            wake || bool_decide (seen_seq k ≠ log_next_seq s)) ∧
    (Forall con_room (drop i L) →
      ws = con_writes cfg (exclusive_console k) (con_prints (printk_time cfg) prev (drop i L))) ∧
    same_log s s' ∧ ring s' (take i L ++ (clear_nocons <$> drop i L)) w.
Proof using Halign.
  induction fuel as [|fuel IH]; intros s L k i wake R Hpos Hfuel prev; [lia|]. cbn [console_loop].
  destruct (skipped prev (drop i L)) as [[C p] Q] eqn:Hsk.
  pose proof Hpos as (Hi & _ & _). destruct (g_seq _ _ _ _ R) as (_ & Hq & _).
  destruct (skip_result s L i C p Q _ Hsk Hi) as (Hl1 & Hcl & Hsz).
  destruct (skipped_prints (printk_time cfg) _ _ _ _ _ Hsk) as (-> & Hc & Hlen & _ & HQ & Hmk).
  rewrite length_drop in Hlen.
  destruct (console_round_ok s L w k i wake C p Q R Hpos Hsk) as (s1 & Hsame & R1 & HE).
  destruct Q as [|r Q].
  - rewrite HE. cbn [mbind option_bind]. exists s1, p, []. split_and!; [|done|done|rewrite Hc; exact R1]. cbn [length] in Hlen.
    replace (i + length C)%nat with (length L) by lia. by rewrite Hq.
  - destruct HE as (t & Ht & ->). cbn [mbind option_bind]. cbn [length] in Hlen.
    set (k1 := con_round_at _ _ _ _ _ _). destruct Hsame as [m1 ->].
    assert (∀ j, pos (log_first_idx s) (take i L ++ C ++ r :: Q) w j = pos (log_first_idx s) L w j) as Hpe
      by (intros j; apply pos_sizes, Hsz).
    assert (console_catch_up (with_buf s m1) k1 = k1) as Ecu.
    { unfold console_catch_up. rewrite decide_False; [done|]. cbn. lia. }
    assert (length (take i L ++ C ++ r :: Q) = length L) as HlL by (apply (f_equal length) in Hsz; by rewrite !length_fmap in Hsz).
    assert (drop (i + S (length C)) (take i L ++ C ++ r :: Q) = Q) as Hdrop.
    { rewrite app_assoc, drop_app, Hl1, drop_ge by lia. by replace (i + S (length C) - (i + length C))%nat with 1%nat by lia. }
    destruct (IH (with_buf s m1) (take i L ++ C ++ r :: Q) k1 (i + S (length C))%nat
      (wake || bool_decide (seen_seq k ≠ log_next_seq s)) R1) as (s' & prev' & ws & E & Hws & Hsame' & R').
    { rewrite Ecu. split_and!; [lia|done|symmetry; apply Hpe]. }
    { lia. }
    rewrite Hdrop, Ecu in Hws. rewrite E, HlL. cbn [log_next_seq with_buf log_first_idx]. rewrite Hpe.
    exists s', prev', (call_console_drivers cfg (exclusive_console k) (r_level r) t ++ ws). split_and!; [| |by apply same_log_trans with (with_buf s m1); [exists m1|]|].
    + unfold k1, con_round_at. cbn [con_out exclusive_console seen_seq log_next_seq with_buf].
      rewrite (bool_decide_false (log_next_seq s ≠ log_next_seq s)) by tauto. by rewrite orb_false_r, app_assoc.
    + intros Hroom. apply (Forall_drop con_room (length C)) in Hroom. rewrite <- HQ in Hroom.
      apply Forall_cons in Hroom as [Hr Hroom]. cbn [con_prints]. rewrite Hmk. unfold con_writes.
      rewrite fmap_cons. cbn [concat fst snd]. by rewrite (Ht Hr), (Hws Hroom).
    + rewrite Hdrop in R'. rewrite Hc, fmap_cons.
      rewrite (clear_unmarked LOG_ALIGN r) by (done || apply (Forall_lookup_1 _ _ (i + length C) _ (g_recs _ _ _ _ R1));
        rewrite app_assoc, <- Hl1; by apply list_lookup_middle).
      replace (take (i + S (length C)) (take i L ++ C ++ r :: Q)) with (take i L ++ C ++ [r]) in R'; [by rewrite <- !app_assoc in R'|].
      replace (i + S (length C))%nat with (length (take i L ++ C) + 1)%nat by lia.
      by rewrite !app_assoc, take_app_add.
Qed.
End rounds.

(** ** Fragments *)

Section frags.
Context (cfg : con_config).

(** The text of the fragment that is not on the console yet. *)
Definition frag_text (c : cont) (prev : Z) : list Z :=
  (if bool_decide (c_cons c = 0) && has prev LOG_NEWLINE then print_time (printk_time cfg) (c_ts c) else []) ++
  drop (Z.to_nat (c_cons c)) (c_buf c) ++
  (if c_flushed c && has (c_flags c) LOG_NEWLINE then [10] else []).

(** The buffer after that: all on the console, and free if it was sealed. *)
Definition frag_done (c : cont) : cont := with_buf_cons c (if c_flushed c then [] else c_buf c) (c_len c).

Lemma cont_print_ok c prev :
  cont_ok c → c_len c ≠ 0 → cont_print_text cfg c prev CONSOLE_BUF = (frag_text c prev, frag_done c).
Proof using.
  intros (Hl & Hc & Ht) Hne. specialize (Hc Hne). unfold cont_print_text, frag_text, frag_done.
  set (t := if bool_decide (c_cons c = 0) && has prev LOG_NEWLINE then _ else _).
  assert (length t ≤ 27)%nat as Hlt.
  { subst t. destruct (bool_decide _ && _); [|cbn; lia].
    apply (prefix_bound (printk_time cfg) (Rec (c_ts c) 0 0 0 [] []) false); [|apply Ht]. split_and!; cbn; (lia || apply Ht). }
  unfold CONSOLE_BUF, LOG_LINE_MAX, PREFIX_MAX in *. rewrite (wrap_small 64) by (unfold in_width; lia).
  assert (length (c_buf c) = Z.to_nat (c_len c)) as Hb by (unfold c_len; lia).
  destruct (decide (c_len c - c_cons c > 0)) as [Hd|Hd].
  - rewrite (decide_False (P := _ > _)) by lia. rewrite take_ge by (rewrite length_drop; lia).
    cbn [c_flushed with_buf_cons c_flags c_cons c_buf]. destruct (c_flushed c); cbn [andb]; [by rewrite app_assoc|by rewrite app_nil_r].
  - rewrite (drop_ge (c_buf c)) by lia. destruct c as [buf cons ow ts lv fa fl fd]. unfold with_buf_cons, c_len in *. cbn in *.
    assert (Z.of_nat (length buf) = cons) as -> by lia. destruct fd; cbn; [done|by rewrite app_nil_r].
Qed.

Lemma frag_done_ok c : cont_ok c → c_len c ≠ 0 → cont_ok (frag_done c) ∧ pending (frag_done c) = pending c.
Proof using.
  intros (Hl & Hc & Ht) Hne. specialize (Hc Hne). unfold frag_done, cont_ok, pending, c_len in *. cbn.
  destruct (c_flushed c); cbn; unfold LOG_LINE_MAX in *; split_and!; try done; try apply Ht; lia.
Qed.

(** Whether a fragment goes out now. *)
Definition frag_due (s : log_state) (c : cont) (k : con_state) : bool :=
  bool_decide (c_len c ≠ 0) && negb (bool_decide (console_seq k < log_next_seq s) && bool_decide (c_cons c = 0)).

Lemma cont_flush_console_ok s c k :
  cont_ok c →
  console_cont_flush cfg s c k =
    if frag_due s c k
    then (frag_done c, con_write_out k (call_console_drivers cfg (exclusive_console k) (c_level c) (frag_text c (console_prev k))))
    else (c, k).
Proof using.
  intros Hc. unfold console_cont_flush, frag_due. destruct (decide (c_len c = 0)) as [E|E].
  { by rewrite (bool_decide_false (c_len c ≠ 0)) by tauto. }
  rewrite (bool_decide_true (c_len c ≠ 0)) by done. cbn [andb]. destruct (bool_decide _ && _); cbn [negb]; [done|].
  by rewrite (cont_print_ok c (console_prev k) Hc E).
Qed.

Lemma cont_flush_keeps s c k c' k' :
  cont_ok c → console_cont_flush cfg s c k = (c', k') →
  cont_ok c' ∧ pending c' = pending c ∧ console_seq k' = console_seq k ∧ console_idx k' = console_idx k ∧
  console_prev k' = console_prev k ∧ seen_seq k' = seen_seq k ∧ exclusive_console k' = exclusive_console k.
Proof using.
  intros Hc. rewrite cont_flush_console_ok by done. destruct (frag_due s c k) eqn:E; intros [= <- <-]; [|done].
  unfold frag_due in E. apply andb_true_iff in E as [E%bool_decide_eq_true _].
  destruct (frag_done_ok c Hc E). done.
Qed.

End frags.

Lemma console_unlock_ok cfg LOG_ALIGN s L w c k :
  (LOG_ALIGN = 4 ∨ LOG_ALIGN = 8) → ring LOG_ALIGN s L w → reader_ok s (console_seq k) (console_idx k) → cont_ok c →
  let i := Z.to_nat (console_seq k - log_first_seq s) in
  let prev := if decide (console_seq k < log_first_seq s) then 0 else console_prev k in
  ∃ s' c' k' ws, console_unlock cfg false s c k =
      Some (s', c', k', bool_decide (seen_seq k ≠ log_next_seq s), false) ∧
    c' = (if frag_due s c k then frag_done c else c) ∧
    con_out k' = con_out k ++
      (if frag_due s c k
       then call_console_drivers cfg (exclusive_console k) (c_level c) (frag_text cfg c (console_prev k)) else []) ++ ws ∧
    (Forall con_room (drop i L) →
      ws = con_writes cfg (exclusive_console k) (con_prints (printk_time cfg) prev (drop i L))) ∧
    same_log s s' ∧ ring LOG_ALIGN s' (take i L ++ (clear_nocons <$> drop i L)) w ∧
    console_seq k' = log_next_seq s' ∧ reader_ok s' (console_seq k') (console_idx k').
Proof.
  intros Halign R Hok Hc i prev. unfold console_unlock.
  destruct (console_cont_flush cfg s c k) as [c1 k1] eqn:E1.
  destruct (cont_flush_keeps cfg s c k c1 k1 Hc E1) as (_ & _ & Es & Ei & Ep & Een & Eex).
  rewrite cont_flush_console_ok in E1 by done.
  destruct (catch_up_pos LOG_ALIGN Halign s L w k1 R) as (i1 & Hpos & Hi1 & Hprev); [by rewrite Es, Ei|].
  rewrite Es in Hi1, Hprev. rewrite Ep in Hprev. fold i in Hi1. fold prev in Hprev. subst i1.
  destruct (g_seq _ _ _ _ R) as (Hq0 & Hq & _). pose proof Hpos as (Hil & _ & _).
  destruct (console_loop_ok cfg LOG_ALIGN Halign w (S (Z.to_nat (log_next_seq s - log_first_seq s))) s L k1 i false R Hpos ltac:(lia))
    as (s' & prev' & ws & -> & Hws & Hsame & R'). cbn [mbind option_bind orb].
  rewrite Hprev, Eex in Hws. rewrite Een. eexists s', c1, _, ws. cbn [console_seq console_idx con_out con_round_at].
  destruct Hsame as [m ->]. cbn [log_next_seq with_buf].
  rewrite (bool_decide_false (log_next_seq s ≠ log_next_seq s)) by tauto.
  split_and!; [done| | |done|by exists m|done|done|].
  - destruct (frag_due s c k); by injection E1 as <- <-.
  - destruct (frag_due s c k); injection E1 as <- <-; cbn [con_out con_write_out app]; [by rewrite <- app_assoc|done].
  - rewrite Hq. change (log_first_seq s) with (log_first_seq (with_buf s m)).
    assert (length L = length (take i L ++ (clear_nocons <$> drop i L))) as El
      by (rewrite length_app, length_fmap, <- length_app, take_drop; done).
    rewrite <- (pos_sizes LOG_ALIGN (log_first_idx s) (take i L ++ (clear_nocons <$> drop i L))).
    + rewrite El. apply (pos_reader LOG_ALIGN Halign (with_buf s m) _ w R'). done.
    + rewrite <- (take_drop i L) at 3. rewrite !fmap_app, <- list_fmap_compose. done.
Qed.

(** * Steps of several CPUs *)

(** The third list has the elements of the first two, each in its order. *)
Inductive interleave {A} : list A → list A → list A → Prop :=
  | interleave_nil : interleave [] [] []
  | interleave_l x l1 l2 l : interleave l1 l2 l → interleave (x :: l1) l2 (x :: l)
  | interleave_r x l1 l2 l : interleave l1 l2 l → interleave l1 (x :: l2) (x :: l).

Lemma interleave_app {A} (l1 l2 l k1 k2 k : list A) :
  interleave l1 l2 l → interleave k1 k2 k → interleave (l1 ++ k1) (l2 ++ k2) (l ++ k).
Proof. intros H Hk. induction H; cbn; [done|by constructor..]. Qed.

Lemma interleave_swap {A} (l1 l2 : list A) : interleave l1 l2 (l2 ++ l1).
Proof. induction l2; cbn; [induction l1|]; by constructor. Qed.

(** One call of [printk]; [k_nested]: it interrupts another one on its CPU that holds
    [logbuf_lock]; [k_crashing]: an oops, or lockdep, is in progress. *)
Record call := mkCall {
  k_clock : Z;
  k_current : Z;
  k_facility : Z;
  k_level : Z;
  k_dict : option (list Z);
  k_buf : list Z;
  k_nested : bool;
  k_crashing : bool;
}.

(** A nested call returns at once, without the text, unless there is a crash. *)
Definition dropped (p : call) : bool := k_nested p && negb (k_crashing p).

Record printk_state := mkPk {
  pk_log : log_state;
  pk_cont : cont;
  pk_con : con_state;
  pk_bug : bool;  (** [recursion_bug] *)
}.

Section run.
Context {levels : KernLevels} (cfg : con_config) (LOG_ALIGN default_level : Z).

(** [vprintk_emit] without the console.  A nested call only sets [recursion_bug], so
    it is a step before or after that of the call it interrupts; one that goes on
    because of a crash is a step where it interrupts no change of the log. *)
Definition printk_step (y : printk_state) (p : call) : option (printk_state * Z) :=
  '(s, c, bug, n) ← vprintk_store (sink := byte_sink LOG_ALIGN) (k_clock p) (k_current p) default_level
    (pk_log y) (pk_cont y) (pk_bug y) (k_nested p) (k_crashing p) (k_facility p) (k_level p) (k_dict p) (k_buf p);
  Some (mkPk s c (pk_con y) bug, n).

(** The whole of it; [locked] says whether [console_trylock_for_printk] got the
    console. *)
Definition vprintk_emit (y : printk_state) (p : call) (locked suspended : bool) : option (printk_state * Z) :=
  '(y, n) ← printk_step y p;
  if locked && negb (dropped p) then
    '(s, c, k, _, _) ← console_unlock cfg suspended (pk_log y) (pk_cont y) (pk_con y);
    Some (mkPk s c k (pk_bug y), n)
  else Some (y, n).

(** The steps that take [logbuf_lock], and the whole calls. *)
Inductive printk_op :=
  | OpStore (p : call)
  | OpContFlush
  | OpRound
  | OpEmit (p : call) (locked suspended : bool).

Definition do_op (y : printk_state) (o : printk_op) : option printk_state :=
  match o with
  | OpStore p => '(y, _) ← printk_step y p; Some y
  | OpContFlush =>
      let '(c, k) := console_cont_flush cfg (pk_log y) (pk_cont y) (pk_con y) in
      Some (mkPk (pk_log y) c k (pk_bug y))
  | OpRound =>
      '(s, k, _, _) ← console_round cfg (pk_log y) (pk_con y) false;
      Some (mkPk s (pk_cont y) k (pk_bug y))
  | OpEmit p locked suspended => '(y, _) ← vprintk_emit y p locked suspended; Some y
  end.

Fixpoint run_printk (y : printk_state) (ops : list printk_op) : option printk_state :=
  match ops with [] => Some y | o :: ops => y ← do_op y o; run_printk y ops end.

Definition op_call (o : printk_op) : option call :=
  match o with OpStore p | OpEmit p _ _ => Some p | _ => None end.

(** What a step prints. *)
Definition op_text (o : printk_op) : list Z :=
  match op_call o with
  | Some p => if dropped p then [] else msg_body (k_facility p) (k_buf p)
  | None => []
  end.

(** How many notes of a recursion a step stores, and what [recursion_bug] is then. *)
Definition op_notes (bug : bool) (o : printk_op) : nat :=
  match op_call o with Some p => if negb (dropped p) && bug then 1 else 0 | None => 0 end.
Definition op_bug (bug : bool) (o : printk_op) : bool :=
  match op_call o with Some p => dropped p | None => bug end.

Fixpoint notes_due (bug : bool) (ops : list printk_op) : nat :=
  match ops with [] => 0 | o :: ops => op_notes bug o + notes_due (op_bug bug o) ops end.

Definition op_fits (dmax : Z) (o : printk_op) : Prop :=
  match o with
  | OpStore p | OpEmit p _ _ => in_u64 (k_clock p) ∧ fits dmax (default [] (k_dict p)) (k_buf p)
  | _ => True
  end.

(** The state of the log [l]: all records ever stored, and how many stores are
    left. *)
Record printk_ok (dmax : Z) (n : nat) (y : printk_state) (l : list record) : Prop := {
  y_log : log_holds LOG_ALIGN dmax n (pk_log y) l;
  y_con : reader_ok (pk_log y) (console_seq (pk_con y)) (console_idx (pk_con y));
  y_cont : cont_ok (pk_cont y);
}.

Context (Halign : LOG_ALIGN = 4 ∨ LOG_ALIGN = 8).
Context (dmax : Z) (Hdmax : HDR + LOG_LINE_MAX + dmax + LOG_ALIGN ≤ 2 ^ 16).

Lemma log_holds_mono n m s l : (m ≤ n)%nat → log_holds LOG_ALIGN dmax n s l → log_holds LOG_ALIGN dmax m s l.
Proof using. intros Hle (k & w & Hk & R & Hf & Hn & Hl). exists k, w. split_and!; try done; lia. Qed.

(** A call that is not dropped. *)
Lemma printk_step_ok n y l p :
  printk_ok dmax (4 + n) y l → in_u64 (k_clock p) → fits dmax (default [] (k_dict p)) (k_buf p) → dropped p = false →
  ∃ y' l' len, printk_step y p = Some (y', len) ∧
    printk_ok dmax n y' (l ++ (if pk_bug y then [note (k_clock p)] else []) ++ l') ∧ pk_con y' = pk_con y ∧
    pk_bug y' = false ∧
    log_texts l' ++ pending (pk_cont y') = pending (pk_cont y) ++ msg_body (k_facility p) (k_buf p).
Proof using Halign Hdmax.
  intros [Hlog Hcon Hcont] Hclk Hfits Hd. unfold printk_step.
  destruct (vprintk_store_ok
    (laws := byte_laws LOG_ALIGN dmax Halign Hdmax (console_seq (pk_con y)) (console_idx (pk_con y)))
    (k_clock p) (k_current p) default_level n (pk_log y) l (pk_cont y) (pk_bug y) (k_nested p) (k_crashing p)
    (k_facility p) (k_level p) (k_dict p) (k_buf p) Hclk (conj Hlog Hcon) Hcont Hd Hfits)
    as (s' & c' & len & -> & _ & l' & [Hlog' Hcon'] & Ht & Hc').
  cbn [mbind option_bind]. rewrite <- app_assoc in Hlog'. by exists (mkPk s' c' (pk_con y) false), l', len.
Qed.

Lemma printk_step_dropped y p :
  dropped p = true → printk_step y p = Some (mkPk (pk_log y) (pk_cont y) (pk_con y) true, 0).
Proof using. unfold dropped, printk_step, vprintk_store. by intros ->. Qed.

(** A step of the console takes marks off. *)
Lemma console_relog n s s' l k L' w :
  log_holds LOG_ALIGN dmax n s l → (k ≤ length l)%nat → log_first_seq s = Z.of_nat k →
  same_log s s' → ring LOG_ALIGN s' L' w → clear_nocons <$> L' = clear_nocons <$> drop k l →
  ∃ l', log_holds LOG_ALIGN dmax n s' l' ∧ r_text <$> l' = r_text <$> l.
Proof using.
  intros (k' & w' & _ & _ & Hf' & Hn & Hl) Hk Hf [m ->] R Hcl. exists (take k l ++ L').
  assert (length L' = length (drop k l)) as HL by (apply (f_equal length) in Hcl; by rewrite !length_fmap in Hcl).
  assert (length (take k l) = k) as Htk by (rewrite length_take; lia).
  split.
  - exists k, w. split_and!; try done; [rewrite length_app; lia|].
    by rewrite drop_app_length' by done.
  - rewrite <- (take_drop k l) at 2. rewrite !fmap_app. f_equal. by apply clear_same.
Qed.

Lemma round_step_ok n y l :
  printk_ok dmax n y l →
  ∃ s k wake more l', console_round cfg (pk_log y) (pk_con y) false = Some (s, k, wake, more) ∧
    printk_ok dmax n (mkPk s (pk_cont y) k (pk_bug y)) l' ∧ r_text <$> l' = r_text <$> l.
Proof using Halign.
  intros [Hlog Hcon Hcont]. pose proof Hlog as (j & w & Hj & R & Hf & _).
  destruct (catch_up_pos LOG_ALIGN Halign _ _ w _ R Hcon) as (i & Hpos & _ & _).
  destruct (skipped (console_prev (console_catch_up (pk_log y) (pk_con y))) (drop i (drop j l))) as [[C p] Q] eqn:Hsk.
  pose proof Hpos as (Hi & _ & _).
  destruct (skip_result LOG_ALIGN (pk_log y) (drop j l) i C p Q _ Hsk Hi) as (_ & Hcl & Hsz).
  destruct (console_round_ok cfg LOG_ALIGN Halign _ _ w _ i false C p Q R Hpos Hsk) as (s' & Hsame & R' & HE).
  destruct (console_relog n _ _ l j _ w Hlog Hj Hf Hsame R' Hcl) as (l' & Hlog' & Ht).
  assert (∀ q prev ws, (i + q ≤ length (drop j l))%nat → printk_ok dmax n (mkPk s' (pk_cont y)
    (con_round_at (pk_log y) (pk_con y) (log_first_seq (pk_log y) + Z.of_nat (i + q))
       (pos LOG_ALIGN (log_first_idx (pk_log y)) (drop j l) w (i + q)) prev ws) (pk_bug y)) l') as Hok.
  { intros q prev ws Hq. split; [done| |done]. cbn [pk_log pk_con console_seq console_idx con_round_at].
    rewrite <- (pos_sizes LOG_ALIGN _ _ _ w _ Hsz). destruct Hsame as [m ->].
    apply (pos_reader LOG_ALIGN Halign (with_buf (pk_log y) m) _ w R').
    apply (f_equal length) in Hsz. rewrite !length_fmap in Hsz. lia. }
  pose proof (skipped_prints true _ _ _ _ _ Hsk) as (_ & _ & Hlen & _). rewrite length_drop in Hlen.
  destruct Q as [|r Q]; [|destruct HE as (t & _ & HE)]; rewrite HE; cbn [length] in Hlen;
    do 5 eexists; (split_and!; [done| |done]); apply Hok; lia.
Qed.

Lemma unlock_step_ok n y l suspended :
  printk_ok dmax n y l →
  ∃ s c k wake retry l', console_unlock cfg suspended (pk_log y) (pk_cont y) (pk_con y) = Some (s, c, k, wake, retry) ∧
    printk_ok dmax n (mkPk s c k (pk_bug y)) l' ∧ r_text <$> l' = r_text <$> l ∧ pending c = pending (pk_cont y).
Proof using Halign.
  intros Hy. destruct suspended; [do 5 eexists; exists l; split_and!; [done|by destruct y|done..]|]. destruct Hy as [Hlog Hcon Hcont].
  pose proof Hlog as (j & w & Hj & R & Hf & _).
  destruct (console_unlock_ok cfg LOG_ALIGN _ _ w (pk_cont y) (pk_con y) Halign R Hcon Hcont)
    as (s' & c' & k' & ws & E & Hc' & _ & _ & Hsame & R' & _ & Hok).
  set (i := Z.to_nat _) in *. set (wake := bool_decide _) in *.
  destruct (console_relog n _ _ l j _ w Hlog Hj Hf Hsame R') as (l' & Hlog' & Ht).
  { rewrite <- (take_drop i (drop j l)) at 3. rewrite !fmap_app, <- list_fmap_compose. f_equal.
    apply list_fmap_ext. intros q r _. apply clear_twice. }
  exists s', c', k', wake, false, l'. split; [done|].
  assert (cont_ok c' ∧ pending c' = pending (pk_cont y)) as [Hck Hp].
  { subst c'. destruct (frag_due _ _ _) eqn:Ed; [|done]. apply frag_done_ok; [done|].
    unfold frag_due in Ed. by apply andb_true_iff in Ed as [Ed%bool_decide_eq_true _]. }
  done.
Qed.

(** One step of any kind. *)
Definition op_done (n : nat) (y : printk_state) (l : list record) (o : printk_op) (y' : printk_state) : Prop :=
  ∃ l' T, printk_ok dmax n y' l' ∧ pk_bug y' = op_bug (pk_bug y) o ∧
    r_text <$> l' = (r_text <$> l) ++ replicate (op_notes (pk_bug y) o) RECURSION_MSG ++ T ∧
    concat T ++ pending (pk_cont y') = pending (pk_cont y) ++ op_text o.

Lemma store_op_ok n y l p o :
  op_call o = Some p → printk_ok dmax (4 + n) y l → op_fits dmax o →
  ∃ y' len, printk_step y p = Some (y', len) ∧ op_done n y l o y'.
Proof using Halign Hdmax.
  intros Ep Hy Ho. assert (in_u64 (k_clock p) ∧ fits dmax (default [] (k_dict p)) (k_buf p)) as [Hclk Hfit]
    by (destruct o; try done; by injection Ep as <-).
  unfold op_done, op_bug, op_notes, op_text. rewrite Ep. destruct (dropped p) eqn:Hd.
  - rewrite printk_step_dropped by done. eexists _, _. split; [done|]. destruct Hy as [H1 H2 H3].
    exists l, []. cbn. rewrite !app_nil_r. split_and!; try done. split; [|done..]. apply (log_holds_mono (4 + n)); [lia|done].
  - destruct (printk_step_ok n y l p Hy Hclk Hfit Hd) as (y' & l' & len & -> & Hy' & _ & Hb & Ht).
    exists y', len. split; [done|]. eexists _, (r_text <$> l'). split; [exact Hy'|]. split_and!; [done| |exact Ht].
    rewrite !fmap_app. do 2 f_equal. by destruct (pk_bug y).
Qed.

Lemma do_op_ok n y l o :
  printk_ok dmax (4 + n) y l → op_fits dmax o → ∃ y', do_op y o = Some y' ∧ op_done n y l o y'.
Proof using Halign Hdmax.
  intros Hy Ho.
  assert (∀ m z q, printk_ok dmax (4 + m) z q → printk_ok dmax m z q) as Hmono.
  { intros m z q [H1 H2 H3]. split; [|done..]. apply (log_holds_mono (4 + m)); [lia|done]. }
  assert (op_call o = None → ∀ y' l', printk_ok dmax (4 + n) y' l' → pk_bug y' = pk_bug y → r_text <$> l' = r_text <$> l →
    pending (pk_cont y') = pending (pk_cont y) → op_done n y l o y') as Hplain.
  { intros E y' l' Hy' Hb Ht Hp. exists l', []. unfold op_bug, op_notes, op_text. rewrite E. cbn. rewrite !app_nil_r.
    split_and!; try done. by apply Hmono. }
  destruct o as [p| | |p locked suspended]; cbn [do_op].
  - destruct (store_op_ok n y l p (OpStore p) eq_refl Hy Ho) as (y' & len & -> & Hd). by exists y'.
  - destruct (console_cont_flush cfg (pk_log y) (pk_cont y) (pk_con y)) as [c k] eqn:E.
    destruct Hy as [Hlog Hcon Hcont]. destruct (cont_flush_keeps cfg _ _ _ _ _ Hcont E) as (Hc & Hp & Hs & Hi & _).
    exists (mkPk (pk_log y) c k (pk_bug y)). split; [done|]. apply (Hplain eq_refl _ l); try done.
    split; cbn; [done|by rewrite Hs, Hi|done].
  - destruct (round_step_ok _ y l Hy) as (s & k & wake & more & l' & -> & Hy' & Ht). cbn [mbind option_bind].
    exists (mkPk s (pk_cont y) k (pk_bug y)). split; [done|]. by apply (Hplain eq_refl _ l').
  - destruct (store_op_ok n y l p (OpEmit p locked suspended) eq_refl Hy Ho) as (y1 & len & E1 & Hd).
    unfold vprintk_emit. rewrite E1. cbn [mbind option_bind]. destruct (locked && negb (dropped p)); [|by exists y1].
    destruct Hd as (l1 & T & Hy1 & Hb & Ht1 & Hp1).
    destruct (unlock_step_ok n y1 _ suspended Hy1) as (s & c & k & wake & retry & l' & -> & Hy' & Ht & Hp).
    cbn [mbind option_bind]. eexists. split; [done|]. exists l', T. split_and!; [done|done|by rewrite Ht|].
    cbn [pk_cont]. by rewrite Hp.
Qed.

Lemma run_printk_ok ops : ∀ y l,
  printk_ok dmax (4 * length ops) y l → Forall (op_fits dmax) ops →
  ∃ y' l' T U, run_printk y ops = Some y' ∧ printk_ok dmax 0 y' l' ∧
    r_text <$> l' = (r_text <$> l) ++ T ∧
    interleave U (replicate (notes_due (pk_bug y) ops) RECURSION_MSG) T ∧
    concat U ++ pending (pk_cont y') = pending (pk_cont y) ++ concat (op_text <$> ops).
Proof using Halign Hdmax.
  induction ops as [|o ops IH]; intros y l Hy Hops; cbn [run_printk].
  { exists y, l, [], []. cbn. rewrite !app_nil_r. split_and!; try done. constructor. }
  apply Forall_cons in Hops as [Ho Hops].
  replace (4 * length (o :: ops))%nat with (4 + 4 * length ops)%nat in Hy by (cbn [length]; lia).
  destruct (do_op_ok _ y l o Hy Ho) as (y1 & -> & l1 & T1 & Hy1 & Hb & Ht1 & Hp1). cbn [mbind option_bind].
  destruct (IH y1 l1 Hy1 Hops) as (y' & l' & T & U & -> & Hy' & Ht & Hi & Hp).
  eexists y', l', (replicate (op_notes (pk_bug y) o) RECURSION_MSG ++ T1 ++ T), (T1 ++ U). split_and!; [done..| | |].
  - by rewrite Ht, Ht1, <- !app_assoc.
  - cbn [notes_due]. rewrite replicate_add, app_assoc. rewrite Hb in Hi. apply interleave_app; [|done]. apply interleave_swap.
  - rewrite concat_app, fmap_cons. cbn [concat]. by rewrite <- app_assoc, Hp, app_assoc, Hp1, <- app_assoc.
Qed.
End run.

(** * The theorems *)

(** C5: The texts that are printed (without the level and the last newline) go into
    the log whole, once and in the order of the calls, however the steps of the CPUs
    that print and of those that serve the console interleave: every step succeeds,
    the texts of the records stored before stay, and those of the new records, followed
    by the fragment that waits in the continuation buffer, are the fragment that waited
    before and the texts of all calls, but for those of calls that are nested in another
    one on their CPU without a crash, which are dropped; the first call that goes on
    after such ones stores a record of its own that announces them.  Whether a record ends with a
    newline is not part of this (see [cont_newline_lost]). *)
Theorem printk_keeps_text {levels : KernLevels} cfg LOG_ALIGN default_level dmax y l ops
    (Halign : LOG_ALIGN = 4 ∨ LOG_ALIGN = 8) (Hdmax : HDR + LOG_LINE_MAX + dmax + LOG_ALIGN ≤ 2 ^ 16)
    (Hy : printk_ok LOG_ALIGN dmax (4 * length ops) y l) (Hops : Forall (op_fits dmax) ops) :
  ∃ y' l' T U, run_printk cfg LOG_ALIGN default_level y ops = Some y' ∧ printk_ok LOG_ALIGN dmax 0 y' l' ∧
    r_text <$> l' = (r_text <$> l) ++ T ∧
    interleave U (replicate (notes_due (pk_bug y) ops) RECURSION_MSG) T ∧
    concat U ++ pending (pk_cont y') = pending (pk_cont y) ++ concat (op_text <$> ops).
Proof. by apply run_printk_ok. Qed.


(** * Examples *)

Module ConDemo.
Import EmitDemo.

(** One console that shows everything, without time stamps; a log of 8192 bytes. *)
Definition cfg : con_config := mkConfig [mkConsole 1 true true false] 8 false false true.
Definition y0 : printk_state := mkPk (log_init 8192) cont_init (mkCon 0 0 LOG_NEWLINE 0 None []) false.

Lemma y0_ok n : (n < 1000)%nat → printk_ok 4 0 n y0 [].
Proof.
  intros Hn. split.
  - exists 0%nat, None. split_and!; [done|apply ring_init; by vm_compute|done|cbn; lia|by vm_compute].
  - right. by split.
  - split_and!; by vm_compute.
Qed.

(** Task 7 prints ["ab"], the console takes it, an interrupt in the middle prints and is
    dropped, task 8 prints ["<6>x\n"], task 7 ["c\n"]. *)
Definition call_of (task : Z) (buf : list Z) (nested : bool) : call := mkCall 1000 task 0 (-1) None buf nested false.
Definition ops : list printk_op :=
  [OpEmit (call_of 7 [97; 98] false) true false; OpStore (call_of 7 [100; 10] true);
   OpStore (call_of 8 [1; 54; 120; 10] false);
   OpContFlush; OpRound; OpEmit (call_of 7 [99; 10] false) true false].

Lemma printk_keeps_text_witness :
  ∃ y' T U, run_printk cfg 4 4 y0 ops = Some y' ∧ interleave U [RECURSION_MSG] T ∧
    concat U ++ pending (pk_cont y') = [97; 98; 120; 99] ∧
    con_out (pk_con y') = [(1, [97; 98]); (1, [10]); (1, RECURSION_MSG ++ [10]); (1, [120; 10]); (1, [99; 10])].
Proof.
  destruct (printk_keeps_text cfg 4 4 0 y0 [] ops (or_introl eq_refl)) as (y' & l' & T & U & E & _ & _ & Hi & Ht);
    [by vm_compute|apply y0_ok; cbn; lia|repeat constructor; by vm_compute|].
  exists y', T, U. split; [exact E|]. split; [exact Hi|]. split; [exact Ht|].
  assert ((λ y, con_out (pk_con y)) <$> run_printk cfg 4 4 y0 ops =
    Some [(1, [97; 98]); (1, [10]); (1, RECURSION_MSG ++ [10]); (1, [120; 10]); (1, [99; 10])]) as F by (vm_compute; reflexivity).
  rewrite E in F. by injection F.
Defined.

End ConDemo.
