(* ===== verification/RwSem.v ===== *)
(** Reader/writer semaphores, kernel/locking/rwsem-spinlock.c.

    A step is what a task does under the semaphore's spinlock, or one turn of the
    loop of [__down_read] outside of it; [schedule] returns when somebody has
    woken the task, and anybody may do so at any time.  The theorems: in every
    interleaving of any number of tasks the semaphore grants and takes back the
    lock like an abstract one, which has a writer alone or any number of readers;
    and the lock is never lost: while tasks wait and none is inside, one of them is
    awake and gets it by its own steps. *)

From S2P Require Import Prelude.

Local Open Scope Z_scope.

(** * The semaphore and the tasks *)

Inductive rwsem_waiter_type := WAITING_FOR_WRITE | WAITING_FOR_READ.

Global Instance waiter_type_eq_dec : EqDecision rwsem_waiter_type.
Proof. solve_decision. Defined.

(** Where a task is: outside, in the loop of [__down_read] before the test of
    [waiter.task] or in [schedule], in [schedule] of [__down_write], or with the
    lock. *)
Inductive pc := Idle | RCheck | RSched | WSched | Reading | Writing.

Global Instance pc_eq_dec : EqDecision pc.
Proof. solve_decision. Defined.

(** [t_running]: the state is [TASK_RUNNING] and not [TASK_UNINTERRUPTIBLE];
    [t_granted]: [waiter.task] has been set to [NULL]. *)
Record thread := mkThread {
  t_pc : pc;
  t_running : bool;
  t_granted : bool;
}.

(** A waiter on the list is its task and its type. *)
Record rw_state := mkRw {
  activity : Z;
  wait_list : list (nat * rwsem_waiter_type);
  threads : list thread;
}.

(** [__init_rwsem], and [n] tasks outside. *)
Definition init_rwsem (n : nat) : rw_state := mkRw 0 [] (replicate n (mkThread Idle true false)).

Definition set_thread (s : rw_state) (t : nat) (th : thread) : rw_state :=
  mkRw (activity s) (wait_list s) (<[t := th]> (threads s)).

Definition at_pc (s : rw_state) (t : nat) (p : pc) : option thread :=
  th ← threads s !! t; if decide (t_pc th = p) then Some th else None.

Definition wake_up_process (ths : list thread) (t : nat) : list thread :=
  alter (λ th, mkThread (t_pc th) true (t_granted th)) t ths.

(** * Waking *)

(** The loop over the readers at the front: [waiter->task = NULL] and the
    wake-up. *)
Fixpoint grant_readers (l : list (nat * rwsem_waiter_type)) (ths : list thread) (woken : Z)
    : list (nat * rwsem_waiter_type) * list thread * Z :=
  match l with
  | (t, WAITING_FOR_READ) :: l =>
      grant_readers l (alter (λ th, mkThread (t_pc th) true true) t ths) (woken + 1)
  | _ => (l, ths, woken)
  end.

Definition __rwsem_do_wake (s : rw_state) (wakewrite : bool) : option rw_state :=
  match wait_list s with
  | [] => None
  | (t, WAITING_FOR_WRITE) :: _ =>
      Some (if wakewrite then mkRw (activity s) (wait_list s) (wake_up_process (threads s) t) else s)
  | _ =>
      let '(l, ths, woken) := grant_readers (wait_list s) (threads s) 0 in
      Some (mkRw (activity s + woken) l ths)
  end.

Definition __rwsem_wake_one_writer (s : rw_state) : option rw_state :=
  match wait_list s with
  | [] => None
  | (t, _) :: _ => Some (mkRw (activity s) (wait_list s) (wake_up_process (threads s) t))
  end.

(** * Taking the lock *)

Definition __down_read (s : rw_state) (t : nat) : option rw_state :=
  _ ← at_pc s t Idle;
  Some (if decide (activity s >= 0 ∧ wait_list s = [])
        then mkRw (activity s + 1) (wait_list s) (<[t := mkThread Reading true false]> (threads s))
        else mkRw (activity s) (wait_list s ++ [(t, WAITING_FOR_READ)])
               (<[t := mkThread RCheck false false]> (threads s))).

(** The loop: the test, and [schedule] with the [set_task_state] after it. *)
Definition read_check (s : rw_state) (t : nat) : option rw_state :=
  th ← at_pc s t RCheck;
  Some (set_thread s t (if t_granted th then mkThread Reading true false
                        else mkThread RSched (t_running th) false)).

Definition read_sched (s : rw_state) (t : nat) : option rw_state :=
  th ← at_pc s t RSched;
  if t_running th then Some (set_thread s t (mkThread RCheck false (t_granted th))) else None.

Definition __down_read_trylock (s : rw_state) (t : nat) : option (rw_state * bool) :=
  _ ← at_pc s t Idle;
  Some (if decide (activity s >= 0 ∧ wait_list s = [])
        then (mkRw (activity s + 1) (wait_list s) (<[t := mkThread Reading true false]> (threads s)), true)
        else (s, false)).

(** One turn of the loop of [__down_write_nested]. *)
Definition write_check (s : rw_state) (t : nat) : rw_state :=
  if decide (activity s = 0)
  then mkRw (-1) (filter (λ w, w.1 ≠ t) (wait_list s)) (<[t := mkThread Writing true false]> (threads s))
  else set_thread s t (mkThread WSched false false).

Definition __down_write (s : rw_state) (t : nat) : option rw_state :=
  _ ← at_pc s t Idle;
  Some (write_check (mkRw (activity s) (wait_list s ++ [(t, WAITING_FOR_WRITE)]) (threads s)) t).

Definition write_retry (s : rw_state) (t : nat) : option rw_state :=
  th ← at_pc s t WSched;
  if t_running th then Some (write_check s t) else None.

Definition __down_write_trylock (s : rw_state) (t : nat) : option (rw_state * bool) :=
  _ ← at_pc s t Idle;
  Some (if decide (activity s = 0)
        then (mkRw (-1) (wait_list s) (<[t := mkThread Writing true false]> (threads s)), true)
        else (s, false)).

(** * Giving it back *)

Definition __up_read (s : rw_state) (t : nat) : option rw_state :=
  _ ← at_pc s t Reading;
  let s := mkRw (activity s - 1) (wait_list s) (<[t := mkThread Idle true false]> (threads s)) in
  if decide (activity s = 0 ∧ wait_list s ≠ []) then __rwsem_wake_one_writer s else Some s.

Definition __up_write (s : rw_state) (t : nat) : option rw_state :=
  _ ← at_pc s t Writing;
  let s := mkRw 0 (wait_list s) (<[t := mkThread Idle true false]> (threads s)) in
  if decide (wait_list s ≠ []) then __rwsem_do_wake s true else Some s.

Definition __downgrade_write (s : rw_state) (t : nat) : option rw_state :=
  _ ← at_pc s t Writing;
  let s := mkRw 1 (wait_list s) (<[t := mkThread Reading true false]> (threads s)) in
  if decide (wait_list s ≠ []) then __rwsem_do_wake s false else Some s.

Definition rwsem_is_locked (s : rw_state) : bool := bool_decide (activity s ≠ 0).

(** * Steps *)

(** [Wake]: somebody else wakes the task. *)
Inductive rw_op :=
  | DownRead (t : nat) | ReadCheck (t : nat) | ReadSched (t : nat) | ReadTrylock (t : nat)
  | DownWrite (t : nat) | WriteRetry (t : nat) | WriteTrylock (t : nat)
  | UpRead (t : nat) | UpWrite (t : nat) | Downgrade (t : nat) | Wake (t : nat).

(** [None]: the task is not there, or sleeps. *)
Definition rw_step (s : rw_state) (o : rw_op) : option rw_state :=
  match o with
  | DownRead t => __down_read s t
  | ReadCheck t => read_check s t
  | ReadSched t => read_sched s t
  | ReadTrylock t => fst <$> __down_read_trylock s t
  | DownWrite t => __down_write s t
  | WriteRetry t => write_retry s t
  | WriteTrylock t => fst <$> __down_write_trylock s t
  | UpRead t => __up_read s t
  | UpWrite t => __up_write s t
  | Downgrade t => __downgrade_write s t
  | Wake t => Some (mkRw (activity s) (wait_list s) (wake_up_process (threads s) t))
  end.

Inductive rw_reachable (n : nat) : rw_state → Prop :=
  | reach_init : rw_reachable n (init_rwsem n)
  | reach_step s o s' : rw_reachable n s → rw_step s o = Some s' → rw_reachable n s'.

(** * The abstract lock *)

Inductive mode := Free | Shared | Exclusive.

Global Instance mode_eq_dec : EqDecision mode.
Proof. solve_decision. Defined.

(** The lock is the mode in which each task has it. *)
Inductive lock_step : list mode → list mode → Prop :=
  | acquire_shared m t : m !! t = Some Free → Forall (λ x, x ≠ Exclusive) m → lock_step m (<[t := Shared]> m)
  | acquire_exclusive m t : m !! t = Some Free → Forall (λ x, x = Free) m → lock_step m (<[t := Exclusive]> m)
  | release m t x : m !! t = Some x → x ≠ Free → lock_step m (<[t := Free]> m)
  | downgrade m t : m !! t = Some Exclusive → lock_step m (<[t := Shared]> m).

(** A reader has the lock from the moment it is granted. *)
Definition mode_of (th : thread) : mode :=
  match t_pc th with
  | Reading => Shared
  | Writing => Exclusive
  | RCheck | RSched => if t_granted th then Shared else Free
  | _ => Free
  end.

Definition modes (s : rw_state) : list mode := mode_of <$> threads s.

(** * The invariant *)

Definition count (x : mode) (m : list mode) : Z := Z.of_nat (length (filter (λ y, y = x) m)).

(** [activity] tells how the lock is held. *)
Definition act_ok (a : Z) (m : list mode) : Prop :=
  0 ≤ a ∧ count Exclusive m = 0 ∧ count Shared m = a ∨ a = -1 ∧ count Exclusive m = 1 ∧ count Shared m = 0.

(** What a task waits for, on the list. *)
Definition waiting (th : thread) : option rwsem_waiter_type :=
  match t_pc th with
  | RCheck | RSched => if t_granted th then None else Some WAITING_FOR_READ
  | WSched => Some WAITING_FOR_WRITE
  | _ => None
  end.

(** The list holds the tasks that wait, once each. *)
Definition list_ok (l : list (nat * rwsem_waiter_type)) (ths : list thread) : Prop :=
  NoDup l.*1 ∧ ∀ t w, (t, w) ∈ l ↔ ∃ th, ths !! t = Some th ∧ waiting th = Some w.

Definition awake (ths : list thread) (t : nat) : Prop := ∃ th, ths !! t = Some th ∧ t_running th = true.

(** A granted reader that sleeps has been woken; no reader is first while no
    writer has the lock; and the first waiter is awake while nobody has it. *)
Record rw_inv (s : rw_state) : Prop := {
  i_act : act_ok (activity s) (modes s);
  i_list : list_ok (wait_list s) (threads s);
  i_granted t th : threads s !! t = Some th → t_pc th = RSched → t_granted th = true → t_running th = true;
  i_head t l : 0 ≤ activity s → wait_list s ≠ (t, WAITING_FOR_READ) :: l;
  i_awake t w l : activity s = 0 → wait_list s = (t, w) :: l → awake (threads s) t;
}.

(** ** Counting *)

Lemma mode_count_insert x m t y z :
  m !! t = Some y →
  count x (<[t := z]> m) = count x m - (if decide (y = x) then 1 else 0) + (if decide (z = x) then 1 else 0).
Proof.
  revert t. induction m as [|a m IH]; intros [|t] H; cbn in H; [done|done| |].
  - injection H as ->. unfold count. change (<[0%nat := z]> (y :: m)) with (z :: m).
    rewrite !filter_cons. destruct (decide (y = x)), (decide (z = x)); cbn [length]; lia.
  - specialize (IH t H). change (<[S t := z]> (a :: m)) with (a :: <[t := z]> m). unfold count in *.
    rewrite !filter_cons. destruct (decide (a = x)); cbn [length]; lia.
Qed.

Lemma count_zero x m : count x m = 0 ↔ Forall (λ y, y ≠ x) m.
Proof.
  unfold count. rewrite Forall_forall. split.
  - intros H y Hy ->. assert (x ∈ filter (λ y, y = x) m) as Hin by (by apply list_elem_of_filter).
    destruct (filter (λ y, y = x) m); [by apply elem_of_nil in Hin|cbn [length] in H; lia].
  - intros H. destruct (filter (λ y, y = x) m) as [|y l] eqn:E; [done|].
    assert (y ∈ filter (λ y, y = x) m) as [-> Hy]%list_elem_of_filter by (rewrite E; by left). by destruct (H x Hy).
Qed.

Lemma count_nonneg x m : 0 ≤ count x m.
Proof. unfold count. lia. Qed.

Lemma count_pos x m t : m !! t = Some x → 0 < count x m.
Proof.
  intros H. assert (count x m ≠ 0); [|pose proof (count_nonneg x m); lia].
  rewrite count_zero, Forall_forall. intros Hall. by apply (Hall x (list_elem_of_lookup_2 _ _ _ H)).
Qed.

Lemma no_writer a m : act_ok a m → 0 ≤ a → Forall (λ x, x ≠ Exclusive) m.
Proof. intros [(_ & H & _)|(-> & _)] Ha; [by apply count_zero|lia]. Qed.

Lemma nobody a m : act_ok a m → a = 0 → Forall (λ x, x = Free) m.
Proof.
  intros [(_ & H1 & H2)|(H & _)] ->; [|lia]. apply count_zero in H1, H2.
  rewrite Forall_forall in *. intros x Hx. specialize (H1 x Hx). specialize (H2 x Hx). by destruct x.
Qed.

Lemma at_pc_Some s t p th : at_pc s t p = Some th → threads s !! t = Some th ∧ t_pc th = p.
Proof.
  unfold at_pc. destruct (threads s !! t) as [th'|]; [|done]. cbn [mbind option_bind]. case_decide; [|done].
  by intros [= <-].
Qed.

(** ** Changing one task *)

Lemma modes_insert s t th : mode_of <$> <[t := th]> (threads s) = <[t := mode_of th]> (modes s).
Proof. apply list_fmap_insert. Qed.

Lemma modes_lookup s t th : threads s !! t = Some th → modes s !! t = Some (mode_of th).
Proof. intros H. unfold modes. by rewrite list_lookup_fmap, H. Qed.

(** The list after task [t] has changed. *)
Lemma list_ok_insert l l' ths t th th' :
  list_ok l ths → ths !! t = Some th → NoDup l'.*1 →
  (∀ u w, (u, w) ∈ l' ↔ if decide (u = t) then waiting th' = Some w else (u, w) ∈ l) →
  list_ok l' (<[t := th']> ths).
Proof.
  intros [_ Hl] Ht Hnd H. split; [done|]. intros u w. rewrite H. pose proof (lookup_lt_Some _ _ _ Ht).
  destruct (decide (u = t)) as [->|Hne].
  - rewrite list_lookup_insert_eq by done. split; [by exists th'|]. by intros (x & [= <-] & ?).
  - rewrite list_lookup_insert_ne by done. apply Hl.
Qed.

(** Nothing changes for the list. *)
Lemma list_ok_same l ths t th th' :
  list_ok l ths → ths !! t = Some th → waiting th' = waiting th → list_ok l (<[t := th']> ths).
Proof.
  intros Hl Ht Hw. apply (list_ok_insert l l ths t th); [done..|apply Hl|].
  intros u w. destruct Hl as [_ Hl]. destruct (decide (u = t)) as [->|]; [|done]. rewrite Hl, Hw.
  split; [by intros (x & Hx & ?); simplify_eq|eauto].
Qed.

(** The task joins the list at the end. *)
Lemma list_ok_join l ths t th th' w :
  list_ok l ths → ths !! t = Some th → waiting th = None → waiting th' = Some w →
  list_ok (l ++ [(t, w)]) (<[t := th']> ths).
Proof.
  intros Hl Ht Hn Hw. assert (∀ w, (t, w) ∉ l) as Hnot.
  { intros w' Hin. apply Hl in Hin as (x & Hx & ?). simplify_eq. }
  apply (list_ok_insert l _ ths t th); [done..| |].
  - rewrite fmap_app. apply NoDup_app. split_and!; [apply Hl| |apply NoDup_singleton].
    intros u Hu Hu'. cbn in Hu'. apply list_elem_of_singleton in Hu' as ->.
    apply list_elem_of_fmap in Hu as ([u w'] & -> & Hu). by destruct (Hnot w').
  - intros u w'. rewrite elem_of_app, list_elem_of_singleton. destruct (decide (u = t)) as [->|Hne].
    + rewrite Hw. split; [intros [Hin|[= ->]]; [by destruct (Hnot w')|done]|intros [= ->]; by right].
    + split; [intros [?|[= ? ?]]; done|by left].
Qed.

Lemma filter_fst_NoDup {A B} (P : A * B → Prop) `{∀ x, Decision (P x)} (l : list (A * B)) :
  NoDup l.*1 → NoDup (filter P l).*1.
Proof.
  induction l as [|[a b] l IH]; [done|]. rewrite fmap_cons, filter_cons. intros [Ha Hl]%NoDup_cons.
  case_decide; [|by apply IH]. rewrite fmap_cons. apply NoDup_cons. split; [|by apply IH].
  intros Hin. apply Ha. apply list_elem_of_fmap in Hin as (x & -> & Hx). apply list_elem_of_filter in Hx as [_ Hx].
  by apply list_elem_of_fmap_2.
Qed.

(** The task leaves the list. *)
Lemma list_ok_leave l ths t th th' :
  list_ok l ths → ths !! t = Some th → waiting th' = None →
  list_ok (filter (λ w, w.1 ≠ t) l) (<[t := th']> ths).
Proof.
  intros Hl Ht Hn. apply (list_ok_insert l _ ths t th); [done..| |].
  - destruct Hl as [Hnd _]. by apply filter_fst_NoDup.
  - intros u w. rewrite list_elem_of_filter. cbn. destruct (decide (u = t)) as [->|]; [|tauto]. rewrite Hn.
    split; [by intros [? _]|done].
Qed.

(** ** Waking *)

Definition granted_ok (ths : list thread) : Prop :=
  ∀ t th, ths !! t = Some th → t_pc th = RSched → t_granted th = true → t_running th = true.

Lemma granted_insert ths t th' :
  granted_ok ths → (t_pc th' = RSched → t_granted th' = true → t_running th' = true) →
  granted_ok (<[t := th']> ths).
Proof.
  intros H Ht u th. rewrite list_lookup_insert. case_decide as Hd; [|apply H]. intros [= <-]. exact Ht.
Qed.

Lemma alter_to_insert {A} (f : A → A) (l : list A) i x : l !! i = Some x → alter f i l = <[i := f x]> l.
Proof.
  revert i. induction l as [|y l IH]; intros [|i] H; cbn in H; [done|done|by injection H as ->|].
  cbn. f_equal. by apply IH.
Qed.

Lemma alter_none {A} (f : A → A) (l : list A) i : l !! i = None → alter f i l = l.
Proof.
  revert i. induction l as [|y l IH]; intros [|i] H; cbn in H; try done. cbn. f_equal. by apply IH.
Qed.

(** Waking a task changes nothing but that it is awake. *)
Lemma wake_ok ths t :
  mode_of <$> wake_up_process ths t = mode_of <$> ths ∧
  (∀ l, list_ok l ths → list_ok l (wake_up_process ths t)) ∧
  (granted_ok ths → granted_ok (wake_up_process ths t)) ∧
  (∀ u, awake ths u → awake (wake_up_process ths t) u) ∧
  (∀ th, ths !! t = Some th → awake (wake_up_process ths t) t).
Proof.
  unfold wake_up_process. destruct (ths !! t) as [th|] eqn:E.
  - rewrite (alter_to_insert _ _ _ _ E). set (th' := mkThread _ _ _). pose proof (lookup_lt_Some _ _ _ E) as Hlt.
    split_and!.
    + rewrite list_fmap_insert. apply list_insert_id. by rewrite list_lookup_fmap, E.
    + intros l Hl. by apply (list_ok_same l ths t th).
    + intros H. by apply granted_insert.
    + intros u (x & Hx & Hr). unfold awake. rewrite list_lookup_insert. case_decide; [by exists th'|by exists x].
    + intros _ _. exists th'. by rewrite list_lookup_insert_eq.
  - by rewrite alter_none.
Qed.

(** The readers at the front get the lock. *)
Lemma grant_ok l : ∀ ths woken a,
  list_ok l ths → granted_ok ths → act_ok a (mode_of <$> ths) → 0 ≤ a →
  ∃ l' ths' k, grant_readers l ths woken = (l', ths', woken + k) ∧ 0 ≤ k ∧
    list_ok l' ths' ∧ granted_ok ths' ∧ act_ok (a + k) (mode_of <$> ths') ∧
    rtc lock_step (mode_of <$> ths) (mode_of <$> ths') ∧
    (∀ t l1, l' ≠ (t, WAITING_FOR_READ) :: l1) ∧ (∀ t l1, l = (t, WAITING_FOR_READ) :: l1 → 0 < k).
Proof.
  induction l as [|[t w] l IH]; intros ths woken a Hl Hg Ha Ha0.
  { exists [], ths, 0. cbn [grant_readers]. rewrite !Z.add_0_r. split_and!; done || lia. }
  destruct w.
  { exists ((t, WAITING_FOR_WRITE) :: l), ths, 0. cbn [grant_readers]. rewrite !Z.add_0_r. split_and!; done || lia. }
  cbn [grant_readers]. destruct Hl as [[Hnt Hnd]%NoDup_cons Hmem].
  destruct (proj1 (Hmem t WAITING_FOR_READ) ltac:(by left)) as (th & Hth & Hw).
  rewrite (alter_to_insert _ _ _ _ Hth). set (th' := mkThread (t_pc th) true true).
  assert (mode_of th = Free ∧ mode_of th' = Shared ∧ waiting th' = None) as (Hm & Hm' & Hw').
  { unfold waiting, mode_of, th' in *. cbn. destruct (t_pc th), (t_granted th); done. }
  assert ((mode_of <$> ths) !! t = Some Free) as Hmt by (by rewrite list_lookup_fmap, Hth, <- Hm).
  assert (lock_step (mode_of <$> ths) (mode_of <$> <[t := th']> ths)) as Hstep.
  { rewrite list_fmap_insert, Hm'. constructor; [done|]. by apply (no_writer a). }
  destruct (IH (<[t := th']> ths) (woken + 1) (a + 1)) as (l' & ths' & k & E & Hk & Hl' & Hg' & Ha' & Hrtc & Hhead & _).
  - apply (list_ok_insert ((t, WAITING_FOR_READ) :: l) _ ths t th); [by split; [apply NoDup_cons|]|done|done|].
    intros u w. destruct (decide (u = t)) as [->|Hne].
    + rewrite Hw'. split; [|done]. intros Hin. destruct Hnt. by apply (list_elem_of_fmap_2 fst) in Hin.
    + rewrite elem_of_cons. split; [by right|intros [[= ? ?]|?]; done].
  - by apply granted_insert.
  - rewrite list_fmap_insert, Hm'. destruct Ha as [(_ & H1 & H2)|(-> & _)]; [|lia]. left.
    rewrite !(mode_count_insert _ _ _ _ _ Hmt). repeat case_decide; done || lia.
  - lia.
  - exists l', ths', (k + 1). rewrite E. split_and!; try done; try lia.
    + by rewrite <- Z.add_assoc, (Z.add_comm 1).
    + by replace (a + (k + 1)) with (a + 1 + k) by lia.
    + by apply (rtc_l _ _ (mode_of <$> <[t := th']> ths)).
Qed.

(** [__rwsem_do_wake] after the lock was released or downgraded. *)
Lemma do_wake_ok s wakewrite :
  wait_list s ≠ [] → list_ok (wait_list s) (threads s) → granted_ok (threads s) →
  act_ok (activity s) (modes s) → 0 ≤ activity s → (activity s = 0 → wakewrite = true) →
  ∃ s', __rwsem_do_wake s wakewrite = Some s' ∧ rw_inv s' ∧ rtc lock_step (modes s) (modes s').
Proof.
  intros Hne Hl Hg Ha Ha0 Hww. unfold __rwsem_do_wake. destruct (wait_list s) as [|[t w] l] eqn:El; [done|].
  destruct w.
  - destruct (wake_ok (threads s) t) as (Hm & Hl' & Hg' & _ & Hk).
    destruct (proj1 (proj2 Hl t WAITING_FOR_WRITE) ltac:(by left)) as (th & Hth & _).
    destruct wakewrite.
    + eexists. split; [done|]. split; [split; cbn|unfold modes; cbn; by rewrite Hm].
      * unfold modes. cbn. by rewrite Hm.
      * by apply Hl'.
      * by apply Hg'.
      * done.
      * intros t' w l' _ [= <- _ _]. by apply (Hk th).
    + exists s. split; [done|]. split; [|done]. split; rewrite ?El; try done.
      intros t' w l' H0. by specialize (Hww H0).
  - destruct (grant_ok ((t, WAITING_FOR_READ) :: l) (threads s) 0 (activity s) Hl Hg Ha Ha0)
      as (l' & ths' & k & -> & Hk & Hl' & Hg' & Ha' & Hrtc & Hhead & Hpos).
    specialize (Hpos t l eq_refl). eexists. split; [done|]. split; [|done]. split; cbn; try done.
    intros t' w l1 H0. lia.
Qed.

(** ** Every step *)

Section acts.
Context (a : Z) (m : list mode) (Ha : act_ok a m) (t : nat).

Lemma act_shared : 0 ≤ a → m !! t = Some Free → act_ok (a + 1) (<[t := Shared]> m).
Proof using Ha.
  intros H0 Ht. destruct Ha as [(_ & H1 & H2)|(-> & _)]; [|lia]. left.
  rewrite !(mode_count_insert _ _ _ _ _ Ht). repeat case_decide; done || lia.
Qed.

Lemma act_exclusive : a = 0 → m !! t = Some Free → act_ok (-1) (<[t := Exclusive]> m).
Proof using Ha.
  intros H0 Ht. destruct Ha as [(_ & H1 & H2)|(? & _)]; [|lia]. right.
  rewrite !(mode_count_insert _ _ _ _ _ Ht). repeat case_decide; done || lia.
Qed.

Lemma act_release : m !! t = Some Shared → 0 ≤ a - 1 ∧ act_ok (a - 1) (<[t := Free]> m).
Proof using Ha.
  intros Ht. pose proof (count_pos _ _ _ Ht). destruct Ha as [(_ & H1 & H2)|(_ & _ & H2)]; [|lia].
  split; [lia|]. left. rewrite !(mode_count_insert _ _ _ _ _ Ht). repeat case_decide; done || lia.
Qed.

Lemma act_writer x : m !! t = Some Exclusive → x ≠ Exclusive → act_ok (if decide (x = Shared) then 1 else 0) (<[t := x]> m).
Proof using Ha.
  intros Ht Hx. pose proof (count_pos _ _ _ Ht). destruct Ha as [(_ & H1 & _)|(_ & H1 & H2)]; [lia|].
  left. rewrite !(mode_count_insert _ _ _ _ _ Ht). repeat case_decide; done || lia.
Qed.
End acts.

Section steps.
Context (s : rw_state) (I : rw_inv s) (t : nat) (th : thread) (Ht : threads s !! t = Some th).

Lemma granted_of : granted_ok (threads s).
Proof using I. exact (i_granted s I). Qed.

(** A task that does not wait is not on the list. *)
Lemma not_listed u w : (u, w) ∈ wait_list s → waiting th = None → u ≠ t.
Proof using I Ht. intros Hin Hn ->. apply (i_list s I) in Hin as (x & Hx & ?). simplify_eq. Qed.

Lemma head_listed u w l : wait_list s = (u, w) :: l → (u, w) ∈ wait_list s.
Proof using. intros ->. by left. Qed.

(** Only the task changes, and what it holds and waits for stays. *)
Lemma inv_same th' :
  mode_of th' = mode_of th → waiting th' = waiting th →
  (t_pc th' = RSched → t_granted th' = true → t_running th' = true) →
  (activity s = 0 → waiting th = Some WAITING_FOR_WRITE → t_running th = true → t_running th' = true) →
  rw_inv (set_thread s t th') ∧ modes (set_thread s t th') = modes s.
Proof using I Ht.
  intros Hm Hw Hg Hr.
  assert (modes (set_thread s t th') = modes s) as Em.
  { unfold modes at 1. cbn. rewrite modes_insert, Hm. apply list_insert_id. by apply modes_lookup. }
  split; [|done]. split; cbn [activity wait_list threads set_thread].
  - rewrite Em. apply I.
  - apply (list_ok_same _ _ t th); [apply I|done..].
  - by apply granted_insert; [apply granted_of|].
  - intros u l. apply I.
  - intros u w l H0 El. destruct (i_awake s I u w l H0 El) as (x & Hx & Hrx). unfold awake.
    rewrite list_lookup_insert. case_decide as Hd; [|by exists x]. destruct Hd as [<- _]. exists th'. split; [done|].
    simplify_eq. apply Hr; [done| |done].
    destruct (proj1 (proj2 (i_list s I) t w) (head_listed _ _ _ El)) as (y & Hy & Hwy). simplify_eq.
    rewrite Hwy. destruct w; [done|]. by destruct (i_head s I t l ltac:(lia)).
Qed.

(** The task joins the list at the end; the head stays. *)
Lemma inv_join th' w :
  mode_of th' = mode_of th → waiting th = None → waiting th' = Some w → t_pc th' ≠ RSched →
  (activity s = 0 → wait_list s ≠ []) → (w = WAITING_FOR_READ → 0 ≤ activity s → wait_list s ≠ []) →
  let s' := mkRw (activity s) (wait_list s ++ [(t, w)]) (<[t := th']> (threads s)) in
  rw_inv s' ∧ modes s' = modes s.
Proof using I Ht.
  intros Hm Hn Hw Hp H0 Hr s'.
  assert (modes s' = modes s) as Em.
  { unfold modes at 1. cbn. rewrite modes_insert, Hm. apply list_insert_id. by apply modes_lookup. }
  split; [|done]. subst s'. split; cbn [activity wait_list threads set_thread].
  - rewrite Em. apply I.
  - apply (list_ok_join _ _ t th); [apply I|done..].
  - by apply granted_insert; [apply granted_of|].
  - intros u l Ha. destruct (wait_list s) as [|[u' w'] l'] eqn:El.
    + intros [= <- -> <-]. by apply Hr.
    + intros [= -> -> _]. by apply (i_head s I u l' Ha).
  - intros u v l Ha. destruct (wait_list s) as [|[u' w'] l'] eqn:El; [by destruct (H0 Ha)|]. intros [= -> -> _].
    destruct (i_awake s I u v l' Ha El) as (x & Hx & Hrx). exists x. split; [|done].
    rewrite list_lookup_insert_ne; [done|]. symmetry. apply (not_listed u v); [|done]. by apply (head_listed _ _ l').
Qed.

(** The task takes the lock for writing. *)
Lemma inv_take_write l' :
  activity s = 0 → mode_of th = Free → list_ok l' (<[t := mkThread Writing true false]> (threads s)) →
  let s' := mkRw (-1) l' (<[t := mkThread Writing true false]> (threads s)) in
  rw_inv s' ∧ rtc lock_step (modes s) (modes s').
Proof using I Ht.
  intros H0 Hm Hl s'. pose proof (modes_lookup s t th Ht) as Hmt. rewrite Hm in Hmt.
  assert (modes s' = <[t := Exclusive]> (modes s)) as Em by (by apply modes_insert).
  split.
  - subst s'. split; cbn [activity wait_list threads]; try (by intros; lia).
    + rewrite Em. apply (act_exclusive (activity s)); [apply I|done..].
    + done.
    + by apply granted_insert; [apply granted_of|].
  - rewrite Em. apply rtc_once. constructor; [done|]. by apply (nobody (activity s)); [apply I|].
Qed.

(** The task takes the lock for reading at once. *)
Lemma inv_take_read :
  0 ≤ activity s → wait_list s = [] → mode_of th = Free → waiting th = None →
  let s' := mkRw (activity s + 1) (wait_list s) (<[t := mkThread Reading true false]> (threads s)) in
  rw_inv s' ∧ rtc lock_step (modes s) (modes s').
Proof using I Ht.
  intros H0 El Hm Hn s'. pose proof (modes_lookup s t th Ht) as Hmt. rewrite Hm in Hmt.
  assert (modes s' = <[t := Shared]> (modes s)) as Em by (by apply modes_insert).
  split.
  - subst s'. split; cbn [activity wait_list threads]; try (by rewrite El).
    + rewrite Em. apply act_shared; [apply I|done..].
    + by apply (list_ok_same _ _ t th); [apply I|..].
    + by apply granted_insert; [apply granted_of|].
  - rewrite Em. apply rtc_once. constructor; [done|]. by apply (no_writer (activity s)); [apply I|].
Qed.

(** One turn of the loop of a writer. *)
Lemma write_check_ok :
  waiting th = Some WAITING_FOR_WRITE →
  rw_inv (write_check s t) ∧ rtc lock_step (modes s) (modes (write_check s t)).
Proof using I Ht.
  intros Hw. assert (t_pc th = WSched ∧ mode_of th = Free) as [Hp Hm].
  { unfold waiting, mode_of in *. by destruct (t_pc th), (t_granted th). }
  unfold write_check. case_decide as Ha.
  - apply inv_take_write; [done..|]. by apply (list_ok_leave _ _ t th); [apply I|..].
  - destruct (inv_same (mkThread WSched false false)) as [H1 H2]; [by rewrite Hm|by rewrite Hw|done|done|].
    split; [done|by rewrite H2].
Qed.

Lemma up_read_ok s' : __up_read s t = Some s' → rw_inv s' ∧ rtc lock_step (modes s) (modes s').
Proof using I Ht.
  unfold __up_read. destruct (at_pc s t Reading) as [th0|] eqn:Eat; [|done].
  apply at_pc_Some in Eat as [E Hp]. simplify_eq. cbn [mbind option_bind].
  assert (mode_of th = Shared ∧ waiting th = None) as [Hm Hn] by (unfold mode_of, waiting; by rewrite Hp).
  pose proof (modes_lookup s t th Ht) as Hmt. rewrite Hm in Hmt.
  destruct (act_release _ _ (i_act s I) t Hmt) as [Ha0 Ha].
  set (s1 := mkRw _ _ _). assert (modes s1 = <[t := Free]> (modes s)) as Em by (by apply modes_insert).
  assert (list_ok (wait_list s1) (threads s1)) as Hl by (by apply (list_ok_same _ _ t th); [apply I|..]).
  assert (granted_ok (threads s1)) as Hg by (by apply granted_insert; [apply granted_of|]).
  assert (rtc lock_step (modes s) (modes s1)) as Hrtc by (rewrite Em; apply rtc_once; by econstructor).
  assert (∀ u l, wait_list s1 ≠ (u, WAITING_FOR_READ) :: l) as Hh by (intros u l; apply I; lia).
  assert (act_ok (activity s1) (modes s1)) as Ha1 by (by rewrite Em). clearbody s1. clear Em Ha Ha0.
  case_decide as Hd.
  - destruct Hd as [H0 Hne]. unfold __rwsem_wake_one_writer.
    destruct (wait_list s1) as [|[u w] l] eqn:El; [done|]. intros [= <-].
    destruct (wake_ok (threads s1) u) as (Hmw & Hlw & Hgw & _ & Hk).
    destruct (proj1 (proj2 Hl u w) ltac:(by left)) as (x & Hx & _).
    split; [split; cbn [activity wait_list threads]|unfold modes at 2; cbn [threads]; by rewrite Hmw].
    + unfold modes. cbn [threads]. rewrite Hmw. exact Ha1.
    + by apply Hlw.
    + by apply Hgw.
    + intros u' l' _. apply Hh.
    + intros u' w' l' _ [= <- _ _]. by apply (Hk x).
  - intros [= <-]. split; [|done]. split; [done|done|done|done|].
    intros u w l H0 El. destruct Hd. split; [done|by rewrite El].
Qed.

(** The writer gives the lock back, or keeps it for reading. *)
Lemma writer_done_ok x th' wakewrite s' :
  mode_of th = Exclusive → mode_of th' = x → waiting th' = None → t_pc th' ≠ RSched → x ≠ Exclusive →
  (x = Free → wakewrite = true) →
  let s1 := mkRw (if decide (x = Shared) then 1 else 0) (wait_list s) (<[t := th']> (threads s)) in
  (if decide (wait_list s1 ≠ []) then __rwsem_do_wake s1 wakewrite else Some s1) = Some s' →
  rw_inv s' ∧ rtc lock_step (modes s) (modes s').
Proof using I Ht.
  intros Hm Hx Hn Hp Hne Hww s1 E. pose proof (modes_lookup s t th Ht) as Hmt. rewrite Hm in Hmt.
  assert (modes s1 = <[t := x]> (modes s)) as Em by (rewrite <- Hx; by apply modes_insert).
  assert (waiting th = None) as Hnt by (unfold waiting, mode_of in *; by destruct (t_pc th), (t_granted th)).
  assert (act_ok (activity s1) (modes s1)) as Ha by (rewrite Em; by apply (act_writer (activity s)); [apply I|..]).
  assert (list_ok (wait_list s1) (threads s1)) as Hl by (apply (list_ok_same _ _ t th); [apply I|done|by rewrite Hn]).
  assert (granted_ok (threads s1)) as Hg by (by apply granted_insert; [apply granted_of|]).
  assert (rtc lock_step (modes s) (modes s1)) as Hrtc.
  { rewrite Em. apply rtc_once. destruct x; [by apply (release _ _ Exclusive)|by constructor|done]. }
  case_decide as Hd.
  - destruct (do_wake_ok s1 wakewrite Hd Hl Hg Ha) as (s2 & E2 & I2 & Hr2).
    + cbn. case_decide; lia.
    + cbn. case_decide as Hs; [done|]. intros _. apply Hww. by destruct x.
    + rewrite E in E2. injection E2 as <-. split; [done|]. by transitivity (modes s1).
  - injection E as <-. split; [|done]. assert (wait_list s1 = []) as El by (destruct (wait_list s1); [done|by destruct Hd]).
    split; try done; rewrite El; done.
Qed.
End steps.

Lemma wake_step_ok s t :
  rw_inv s → let s' := mkRw (activity s) (wait_list s) (wake_up_process (threads s) t) in
  rw_inv s' ∧ modes s' = modes s.
Proof.
  intros I s'. destruct (wake_ok (threads s) t) as (Hm & Hl & Hg & Hk & _). split; [|exact Hm]. split.
  - unfold modes, s'. cbn [activity threads]. rewrite Hm. apply I.
  - apply Hl, I.
  - apply Hg, (granted_of s I).
  - apply I.
  - intros u w l H0 El. by apply Hk, (i_awake s I u w l).
Qed.

Lemma rw_step_ok s o s' :
  rw_inv s → rw_step s o = Some s' → rw_inv s' ∧ rtc lock_step (modes s) (modes s').
Proof.
  intros I. assert (∀ s1, rw_inv s1 ∧ modes s1 = modes s → rw_inv s1 ∧ rtc lock_step (modes s) (modes s1)) as Hsame.
  { intros s1 [I1 E]. by rewrite E. }
  destruct o as [t|t|t|t|t|t|t|t|t|t|t]; cbn [rw_step].
  - unfold __down_read. destruct (at_pc s t Idle) as [th|] eqn:Eat; [|done].
    apply at_pc_Some in Eat as [Ht Hp]. cbn [mbind option_bind].
    assert (mode_of th = Free ∧ waiting th = None) as [Hm Hn] by (unfold mode_of, waiting; by rewrite Hp).
    case_decide as Hd; intros [= <-].
    + destruct Hd. apply (inv_take_read s I t th Ht); done || lia.
    + apply Hsame, (inv_join s I t th Ht); try done; intros; contradict Hd; split; done || lia.
  - unfold read_check. destruct (at_pc s t RCheck) as [th|] eqn:Eat; [|done].
    apply at_pc_Some in Eat as [Ht Hp]. cbn [mbind option_bind]. intros [= <-]. apply Hsame.
    destruct (t_granted th) eqn:Eg; apply (inv_same s I t th Ht); unfold mode_of, waiting; rewrite ?Hp, ?Eg; done.
  - unfold read_sched. destruct (at_pc s t RSched) as [th|] eqn:Eat; [|done].
    apply at_pc_Some in Eat as [Ht Hp]. cbn [mbind option_bind]. destruct (t_running th); [|done]. intros [= <-]. apply Hsame.
    apply (inv_same s I t th Ht); unfold mode_of, waiting; rewrite ?Hp; try done. by destruct (t_granted th).
  - unfold __down_read_trylock. destruct (at_pc s t Idle) as [th|] eqn:Eat; [|done].
    apply at_pc_Some in Eat as [Ht Hp]. cbn [mbind option_bind].
    assert (mode_of th = Free ∧ waiting th = None) as [Hm Hn] by (unfold mode_of, waiting; by rewrite Hp).
    case_decide as Hd; intros [= <-]; [|by apply Hsame].
    destruct Hd. apply (inv_take_read s I t th Ht); done || lia.
  - unfold __down_write. destruct (at_pc s t Idle) as [th|] eqn:Eat; [|done].
    apply at_pc_Some in Eat as [Ht Hp]. cbn [mbind option_bind]. intros [= <-].
    assert (mode_of th = Free ∧ waiting th = None) as [Hm Hn] by (unfold mode_of, waiting; by rewrite Hp).
    unfold write_check. cbn [activity wait_list threads]. case_decide as Ha.
    + apply (inv_take_write s I t th Ht); [done..|]. rewrite filter_app, filter_cons_False, filter_nil, app_nil_r by (cbn; tauto).
      by apply (list_ok_leave _ _ t th); [apply I|..].
    + apply Hsame, (inv_join s I t th Ht); try done.
  - unfold write_retry. destruct (at_pc s t WSched) as [th|] eqn:Eat; [|done].
    apply at_pc_Some in Eat as [Ht Hp]. cbn [mbind option_bind]. destruct (t_running th); [|done]. intros [= <-].
    apply (write_check_ok s I t th Ht). unfold waiting. by rewrite Hp.
  - unfold __down_write_trylock. destruct (at_pc s t Idle) as [th|] eqn:Eat; [|done].
    apply at_pc_Some in Eat as [Ht Hp]. cbn [mbind option_bind].
    assert (mode_of th = Free ∧ waiting th = None) as [Hm Hn] by (unfold mode_of, waiting; by rewrite Hp).
    case_decide as Hd; intros [= <-]; [|by apply Hsame].
    apply (inv_take_write s I t th Ht); [done..|]. by apply (list_ok_same _ _ t th); [apply I|..].
  - intros E. destruct (threads s !! t) as [th|] eqn:Ht; [by apply (up_read_ok s I t th Ht)|].
    unfold __up_read, at_pc in E. by rewrite Ht in E.
  - unfold __up_write. destruct (at_pc s t Writing) as [th|] eqn:Eat; [|done].
    apply at_pc_Some in Eat as [Ht Hp]. cbn [mbind option_bind]. intros E.
    apply (writer_done_ok s I t th Ht Free (mkThread Idle true false) true s'); try done. unfold mode_of. by rewrite Hp.
  - unfold __downgrade_write. destruct (at_pc s t Writing) as [th|] eqn:Eat; [|done].
    apply at_pc_Some in Eat as [Ht Hp]. cbn [mbind option_bind]. intros E.
    apply (writer_done_ok s I t th Ht Shared (mkThread Reading true false) false s'); try done. unfold mode_of. by rewrite Hp.
  - intros [= <-]. by apply Hsame, wake_step_ok.
Qed.

Lemma init_inv n : rw_inv (init_rwsem n).
Proof.
  assert (∀ t th, threads (init_rwsem n) !! t = Some th → th = mkThread Idle true false) as Hall
    by (intros t th [? _]%lookup_replicate; done).
  assert (modes (init_rwsem n) = replicate n Free) as Em by (unfold modes; cbn; by rewrite fmap_replicate).
  split; try done.
  - left. rewrite Em. assert (∀ x, x ≠ Free → count x (replicate n Free) = 0) as Hz.
    { intros x Hx. apply count_zero, Forall_replicate. done. }
    cbn [activity init_rwsem]. rewrite !Hz by done. done.
  - split; [constructor|]. intros t w. split; [by intros ?%elem_of_nil|]. intros (th & ->%Hall & ?). done.
  - by intros t th ->%Hall.
Qed.

Lemma reachable_inv n s : rw_reachable n s → rw_inv s ∧ rtc lock_step (replicate n Free) (modes s).
Proof.
  induction 1 as [|s o s' _ [I Hr] E].
  - split; [apply init_inv|]. unfold modes. cbn. by rewrite fmap_replicate.
  - destruct (rw_step_ok s o s' I E) as [I' Hr']. split; [done|]. by transitivity (modes s).
Qed.

(** * The theorems *)

(** C11: Reader/writer semaphores implement the lock: whatever the tasks do and
    however they interleave, the grants and releases of the semaphore are steps of
    the abstract lock, which only gives itself to a writer when nobody has it and
    to a reader when no writer has it; and [activity] is -1 exactly while one
    writer and no reader has it, and otherwise the number of readers that have
    it. *)
Theorem rwsem_refines n s (H : rw_reachable n s) :
  rtc lock_step (replicate n Free) (modes s) ∧
  (activity s = -1 ∧ count Exclusive (modes s) = 1 ∧ count Shared (modes s) = 0 ∨
   0 ≤ activity s ∧ count Exclusive (modes s) = 0 ∧ count Shared (modes s) = activity s).
Proof. destruct (reachable_inv n s H) as [I Hr]. split; [done|]. destruct (i_act s I); tauto. Qed.

(** A task inside the lock, and one in the loop that waits for it. *)
Definition inside (s : rw_state) (t : nat) : Prop :=
  ∃ th, threads s !! t = Some th ∧ (t_pc th = Reading ∨ t_pc th = Writing).
Definition in_loop (s : rw_state) (t : nat) : Prop :=
  ∃ th, threads s !! t = Some th ∧ (t_pc th = RCheck ∨ t_pc th = RSched ∨ t_pc th = WSched).

Fixpoint rw_run (s : rw_state) (os : list rw_op) : option rw_state :=
  match os with [] => Some s | o :: os => s ← rw_step s o; rw_run s os end.

(** The steps a waiting task makes by itself. *)
Definition own_step (t : nat) (o : rw_op) : Prop := o = ReadCheck t ∨ o = ReadSched t ∨ o = WriteRetry t.

Lemma at_pc_eq s t p th : threads s !! t = Some th → t_pc th = p → at_pc s t p = Some th.
Proof. intros H <-. unfold at_pc. rewrite H. cbn [mbind option_bind]. by rewrite decide_True. Qed.

(** A reader that has been granted the lock goes in. *)
Lemma granted_enters s t th :
  rw_inv s → threads s !! t = Some th → t_granted th = true → t_pc th = RCheck ∨ t_pc th = RSched →
  ∃ os s', Forall (own_step t) os ∧ rw_run s os = Some s' ∧ inside s' t.
Proof.
  intros I Ht Hg Hp. pose proof (lookup_lt_Some _ _ _ Ht) as Hlt.
  assert (∀ s1 th1, threads s1 !! t = Some th1 → t_pc th1 = RCheck → t_granted th1 = true →
    rw_step s1 (ReadCheck t) = Some (set_thread s1 t (mkThread Reading true false)) ∧
    inside (set_thread s1 t (mkThread Reading true false)) t) as Hcheck.
  { intros s1 th1 H1 H2 H3. cbn [rw_step]. unfold read_check. rewrite (at_pc_eq s1 t RCheck th1 H1 H2). cbn [mbind option_bind].
    rewrite H3. split; [done|]. exists (mkThread Reading true false). cbn. split; [|by left].
    apply list_lookup_insert_eq. by eapply lookup_lt_Some. }
  destruct Hp as [Hp|Hp].
  - destruct (Hcheck s th Ht Hp Hg) as [E Hin]. exists [ReadCheck t]. eexists. split_and!; [by constructor; [left|]| |exact Hin].
    cbn [rw_run]. by rewrite E.
  - pose proof (i_granted s I t th Ht Hp Hg) as Hr. set (s1 := set_thread s t (mkThread RCheck false (t_granted th))).
    assert (threads s1 !! t = Some (mkThread RCheck false true)) as H1
      by (cbn; rewrite Hg; by apply list_lookup_insert_eq).
    destruct (Hcheck s1 _ H1 eq_refl eq_refl) as [E Hin]. exists [ReadSched t; ReadCheck t]. eexists.
    split_and!; [constructor; [by right; left|by constructor; [left|]]| |exact Hin].
    cbn [rw_run]. change (rw_step s (ReadSched t)) with (read_sched s t). unfold read_sched.
    rewrite (at_pc_eq s t RSched th Ht Hp). cbn [mbind option_bind]. rewrite Hr. fold s1. cbn [mbind option_bind]. by rewrite E.
Qed.

(** C23: The lock is never lost: in every reachable state in which tasks wait for
    it, either a task is inside, or one of the waiting tasks is awake and gets in
    by its own steps alone.  So no wake-up is missed, although a writer that
    arrives may take the lock before those that were woken. *)
Theorem rwsem_no_lost_wakeup n s (H : rw_reachable n s) (Hw : ∃ t, in_loop s t) :
  (∃ t, inside s t) ∨
  ∃ t os s', in_loop s t ∧ Forall (own_step t) os ∧ rw_run s os = Some s' ∧ inside s' t.
Proof.
  destruct (reachable_inv n s H) as [I _].
  destruct (decide (Forall (λ th, mode_of th = Free) (threads s))) as [Hfree|Hheld].
  - (* nobody has it: the first waiter is a writer that is awake *)
    right. assert (activity s = 0) as H0.
    { assert (∀ x, x ≠ Free → count x (modes s) = 0) as Hz.
      { intros x Hx. apply count_zero. unfold modes. rewrite Forall_fmap. eapply Forall_impl; [exact Hfree|]. cbn. congruence. }
      destruct (i_act s I) as [(_ & _ & <-)|(_ & H1 & _)]; [by apply Hz|]. by rewrite Hz in H1. }
    destruct Hw as (t & th & Ht & Hp).
    assert (∃ w, waiting th = Some w) as [w Hwt].
    { rewrite Forall_forall in Hfree. specialize (Hfree th (list_elem_of_lookup_2 _ _ _ Ht)).
      unfold mode_of, waiting in *. destruct Hp as [Hp|[Hp|Hp]]; rewrite Hp in *; [..|by eexists];
        (destruct (t_granted th); [done|by eexists]). }
    assert ((t, w) ∈ wait_list s) as Hin by (apply I; by exists th).
    destruct (wait_list s) as [|[u v] l] eqn:El; [by apply elem_of_nil in Hin|].
    destruct v; [|by destruct (i_head s I u l ltac:(lia))].
    destruct (proj1 (proj2 (i_list s I) u WAITING_FOR_WRITE)) as (x & Hx & Hxw); [rewrite El; by left|].
    destruct (i_awake s I u _ l H0 El) as (y & Hy & Hr). assert (y = x) as -> by congruence.
    assert (t_pc x = WSched) as Hpc by (unfold waiting in Hxw; by destruct (t_pc x), (t_granted x)).
    exists u, [WriteRetry u], (write_check s u). split_and!.
    + exists x. split; [done|tauto].
    + constructor; [by right; right|constructor].
    + cbn [rw_run rw_step]. unfold write_retry. rewrite (at_pc_eq s u WSched x Hx Hpc). cbn [mbind option_bind].
      by rewrite Hr.
    + unfold write_check. rewrite decide_True by done. exists (mkThread Writing true false). cbn. split; [|by right].
      apply list_lookup_insert_eq. by eapply lookup_lt_Some.
  - (* somebody has it *)
    apply (not_Forall_Exists _) in Hheld. apply Exists_exists in Hheld as (th & Hin & Hm).
    apply list_elem_of_lookup in Hin as [t Ht]. unfold compose, mode_of in Hm.
    destruct (t_pc th) eqn:Hp; try by destruct Hm.
    + destruct (t_granted th) eqn:Hg; [|by destruct Hm]. right.
      destruct (granted_enters s t th I Ht Hg) as (os & s' & Ho & Hrun & Hi); [by left|].
      exists t, os, s'. split_and!; try done. exists th. split; [done|tauto].
    + destruct (t_granted th) eqn:Hg; [|by destruct Hm]. right.
      destruct (granted_enters s t th I Ht Hg) as (os & s' & Ho & Hrun & Hi); [by right|].
      exists t, os, s'. split_and!; try done. exists th. split; [done|tauto].
    + left. exists t, th. split; [done|by left].
    + left. exists t, th. split; [done|by right].
Qed.

(** * Examples *)

Module RwDemo.

(** Task 0 writes; 1 comes to read, 2 to write, 3 to read; 0 lets go: 1 is granted
    the lock, 2 is next. *)
Definition demo_ops : list rw_op := [DownWrite 0; DownRead 1; DownWrite 2; DownRead 3; UpWrite 0].
Definition s5 : rw_state :=
  mkRw 1 [(2%nat, WAITING_FOR_WRITE); (3%nat, WAITING_FOR_READ)]
    [mkThread Idle true false; mkThread RCheck true true; mkThread WSched false false; mkThread RCheck false false].

Lemma run_reachable n os : ∀ s s', rw_reachable n s → rw_run s os = Some s' → rw_reachable n s'.
Proof.
  induction os as [|o os IH]; intros s s' H E; [by injection E as <-|]. cbn [rw_run] in E.
  destruct (rw_step s o) as [s1|] eqn:E1; [|done]. apply (IH s1); [by apply (reach_step n s o)|done].
Qed.

Lemma s5_reachable : rw_reachable 4 s5.
Proof. apply (run_reachable 4 demo_ops (init_rwsem 4)); [constructor|by vm_compute]. Qed.

Lemma rwsem_refines_witness :
  rtc lock_step (replicate 4 Free) [Free; Shared; Free; Free] ∧ activity s5 = 1.
Proof. split; [apply (rwsem_refines 4 s5 s5_reachable)|done]. Defined.

Lemma rwsem_no_lost_wakeup_witness :
  (∃ t, inside s5 t) ∨
  ∃ t os s', in_loop s5 t ∧ Forall (own_step t) os ∧ rw_run s5 os = Some s' ∧ inside s' t.
Proof.
  apply (rwsem_no_lost_wakeup 4 s5 s5_reachable). exists 1%nat, (mkThread RCheck true true). split; [done|by left].
Defined.
End RwDemo.
