(* ===== verification/Semaphore.v ===== *)
(** Counting semaphores, kernel/locking/semaphore.c.

    A step is what a task does while it holds the semaphore's spinlock: a call from its
    start to its return or its sleep, or from the return of [schedule_timeout] to
    the next.  Signals and the time that is left when a sleep ends are given with the
    step; anybody may wake a task at any time.  The theorems: no token is lost or made,
    however sleepers are woken, interrupted or time out; waiters are served in the
    order of their arrival; a waiter that was served gets its token whatever happens to
    it before it runs. *)

From S2P Require Import Prelude.

Local Open Scope Z_scope.

(** * The semaphore and its waiters *)

Inductive task_state := TASK_UNINTERRUPTIBLE | TASK_INTERRUPTIBLE | TASK_KILLABLE.

(** The worst signal that is pending. *)
Inductive pending := NoSignal | Signal | FatalSignal.

Global Instance pending_eq_dec : EqDecision pending.
Proof. solve_decision. Defined.

(** A waiter lives on the stack of its task; with it, the arguments of
    [__down_common] and whether the task runs. *)
Record semaphore_waiter := mkWaiter {
  w_state : task_state;
  w_timeout : Z;
  w_up : bool;
  w_running : bool;
}.

Record semaphore := mkSem {
  count : Z;
  wait_list : list nat;
  waiters : gmap nat semaphore_waiter;
}.

Definition sema_init (val : Z) : semaphore := mkSem val [] ∅.

Definition MAX_SCHEDULE_TIMEOUT : Z := 2 ^ 63 - 1.
Definition EINTR : Z := 4.
Definition ETIME : Z := 62.

(** What a step ends with: a return of a call that takes, the sleep, or the end of
    another call. *)
Inductive result := Ret (r : Z) | Asleep | Done.

Definition signal_pending_state (st : task_state) (sig : pending) : bool :=
  match st with
  | TASK_UNINTERRUPTIBLE => false
  | TASK_INTERRUPTIBLE => bool_decide (sig ≠ NoSignal)
  | TASK_KILLABLE => bool_decide (sig = FatalSignal)
  end.

Definition list_del (t : nat) (l : list nat) : list nat := filter (.≠ t) l.

(** * Operations *)

(** The loop of [__down_common], up to the sleep. *)
Definition down_loop (s : semaphore) (t : nat) (st : task_state) (timeout : Z) (sig : pending) : semaphore * result :=
  if signal_pending_state st sig then (mkSem (count s) (list_del t (wait_list s)) (delete t (waiters s)), Ret (- EINTR))
  else if decide (timeout ≤ 0) then (mkSem (count s) (list_del t (wait_list s)) (delete t (waiters s)), Ret (- ETIME))
  else (mkSem (count s) (wait_list s) (<[t := mkWaiter st timeout false false]> (waiters s)), Asleep).

Definition __down_common (s : semaphore) (t : nat) (st : task_state) (timeout : Z) (sig : pending) : semaphore * result :=
  down_loop (mkSem (count s) (wait_list s ++ [t]) (<[t := mkWaiter st timeout false true]> (waiters s))) t st timeout sig.

(** The four calls differ in the state and the timeout. *)
Definition down_with (st : task_state) (timeout : Z) (s : semaphore) (t : nat) (sig : pending) : semaphore * result :=
  if decide (0 < count s) then (mkSem (count s - 1) (wait_list s) (waiters s), Ret 0)
  else __down_common s t st timeout sig.

Definition down := down_with TASK_UNINTERRUPTIBLE MAX_SCHEDULE_TIMEOUT.
Definition down_interruptible := down_with TASK_INTERRUPTIBLE MAX_SCHEDULE_TIMEOUT.
Definition down_killable := down_with TASK_KILLABLE MAX_SCHEDULE_TIMEOUT.
Definition down_timeout (jiffies : Z) := down_with TASK_UNINTERRUPTIBLE jiffies.

(** [schedule_timeout] returns [rest]: when the task was woken, or when no time is left;
    without a timeout, only when it was woken. *)
Definition may_return (w : semaphore_waiter) (rest : Z) : bool :=
  if decide (w_timeout w = MAX_SCHEDULE_TIMEOUT) then w_running w && bool_decide (rest = MAX_SCHEDULE_TIMEOUT)
  else bool_decide (0 ≤ rest ≤ w_timeout w) && (w_running w || bool_decide (rest = 0)).

Definition down_resume (s : semaphore) (t : nat) (rest : Z) (sig : pending) : option (semaphore * result) :=
  w ← waiters s !! t;
  if negb (may_return w rest) then None
  else if w_up w then Some (mkSem (count s) (wait_list s) (delete t (waiters s)), Ret 0)
  else Some (down_loop s t (w_state w) rest sig).

(** The count is unsigned, and compared as an [int]. *)
Definition down_trylock (s : semaphore) : semaphore * result :=
  let c := s32 (count s - 1) in
  if decide (0 ≤ c) then (mkSem c (wait_list s) (waiters s), Ret 0) else (s, Ret 1).

Definition set_up (w : semaphore_waiter) : semaphore_waiter := mkWaiter (w_state w) (w_timeout w) true true.
Definition set_running (w : semaphore_waiter) : semaphore_waiter := mkWaiter (w_state w) (w_timeout w) (w_up w) true.

Definition __up (s : semaphore) (t : nat) : semaphore :=
  mkSem (count s) (list_del t (wait_list s)) (alter set_up t (waiters s)).

Definition up (s : semaphore) : semaphore :=
  match wait_list s with
  | [] => mkSem (u32 (count s + 1)) [] (waiters s)
  | t :: _ => __up s t
  end.

(** * Runs *)

Inductive event :=
  | Down (t : nat) (sig : pending)
  | DownInterruptible (t : nat) (sig : pending)
  | DownKillable (t : nat) (sig : pending)
  | DownTimeout (t : nat) (jiffies : Z) (sig : pending)
  | Resume (t : nat) (rest : Z) (sig : pending)
  | Try
  | Up
  | Wake (t : nat).

(** A task that waits does not call. *)
Definition call (s : semaphore) (t : nat) (r : semaphore * result) : option (semaphore * result) :=
  if decide (waiters s !! t = None) then Some r else None.

Definition do_event (s : semaphore) (e : event) : option (semaphore * result) :=
  match e with
  | Down t sig => call s t (down s t sig)
  | DownInterruptible t sig => call s t (down_interruptible s t sig)
  | DownKillable t sig => call s t (down_killable s t sig)
  | DownTimeout t jiffies sig => call s t (down_timeout jiffies s t sig)
  | Resume t rest sig => down_resume s t rest sig
  | Try => Some (down_trylock s)
  | Up => Some (up s, Done)
  | Wake t => Some (mkSem (count s) (wait_list s) (alter set_running t (waiters s)), Done)
  end.

Fixpoint run (s : semaphore) (l : list event) : option (semaphore * list result) :=
  match l with
  | [] => Some (s, [])
  | e :: l =>
      '(s, r) ← do_event s e;
      '(s, rs) ← run s l;
      Some (s, r :: rs)
  end.

(** * Tokens *)

Definition ups (e : event) : Z := match e with Up => 1 | _ => 0 end.
Definition takes (r : result) : Z := match r with Ret r => if decide (r = 0) then 1 else 0 | _ => 0 end.
Definition sum {A} (f : A → Z) (l : list A) : Z := foldr (λ x n, f x + n) 0 l.

(** The tasks that were served and have not returned yet. *)
Definition served (s : semaphore) : Z := Z.of_nat (size (waiters s)) - Z.of_nat (length (wait_list s)).

Record sem_ok (s : semaphore) : Prop := {
  so_count : 0 ≤ count s;
  so_free : 0 < count s → wait_list s = [];
  so_nodup : NoDup (wait_list s);
  so_list t : t ∈ wait_list s ↔ ∃ w, waiters s !! t = Some w ∧ w_up w = false;
  so_awake t w : waiters s !! t = Some w → w_up w = true → w_running w = true;
}.

Lemma list_del_in t l x : x ∈ list_del t l ↔ x ∈ l ∧ x ≠ t.
Proof. unfold list_del. rewrite list_elem_of_filter. tauto. Qed.

Lemma list_del_notin t l : t ∉ l → list_del t l = l.
Proof.
  intros Ht. induction l as [|x l IH]; [done|]. rewrite not_elem_of_cons in Ht. destruct Ht as [Hx Hl].
  unfold list_del in *. rewrite filter_cons_True by congruence. by rewrite IH.
Qed.

Lemma list_del_length t l : NoDup l → t ∈ l → S (length (list_del t l)) = length l.
Proof.
  induction l as [|x l IH]; intros Hn Ht; [by apply elem_of_nil in Ht|]. apply NoDup_cons in Hn as [Hx Hn].
  destruct (decide (x = t)) as [->|Hne].
  - unfold list_del. rewrite filter_cons_False by (intros Hf; by apply Hf). fold (list_del t l). by rewrite list_del_notin.
  - unfold list_del. rewrite filter_cons_True by done. cbn. fold (list_del t l). rewrite IH; [done|done|].
    apply elem_of_cons in Ht as [->|Ht]; done.
Qed.

Lemma size_alter (f : semaphore_waiter → semaphore_waiter) t (m : gmap nat semaphore_waiter) : size (alter f t m) = size m.
Proof. rewrite <- !size_dom. by rewrite dom_alter_L. Qed.

(** What a step does to the tokens: [n] come in and [k] go out. *)
Definition moves (s s' : semaphore) (n k : Z) : Prop := sem_ok s' ∧ count s' + served s' + k = count s + served s + n.

(** A waiter that is on the list gives up. *)
Lemma give_up_ok s t : sem_ok s → t ∈ wait_list s →
  moves s (mkSem (count s) (list_del t (wait_list s)) (delete t (waiters s))) 0 0.
Proof.
  intros Hok Ht. pose proof (list_del_length t _ (so_nodup _ Hok) Ht) as Hlen. destruct (proj1 (so_list _ Hok t) Ht) as (w & Hw & Hup).
  split; [split; cbn|].
  - apply Hok.
  - intros Hc. rewrite (so_free _ Hok Hc) in Ht. by apply elem_of_nil in Ht.
  - apply NoDup_filter, Hok.
  - intros x. rewrite list_del_in, (so_list _ Hok). split.
    + intros [(v & Hv & Hu) Hne]. exists v. by rewrite lookup_delete_ne.
    + intros (v & Hv & Hu). apply lookup_delete_Some in Hv as [Hne Hv]. split; [by exists v|done].
  - intros x v Hv. apply lookup_delete_Some in Hv as [_ Hv]. by apply (so_awake _ Hok x).
  - unfold served. cbn. rewrite map_size_delete, Hw. assert (size (waiters s) ≠ 0%nat); [|lia].
    intros Hz. apply map_size_empty_iff in Hz. by rewrite Hz in Hw.
Qed.

(** The loop of a waiter that is on the list. *)
Lemma down_loop_ok s t st timeout sig : sem_ok s → t ∈ wait_list s →
  moves s (down_loop s t st timeout sig).1 0 (takes (down_loop s t st timeout sig).2).
Proof.
  intros Hok Ht. pose proof (give_up_ok s t Hok Ht) as Hgive. unfold down_loop.
  destruct (signal_pending_state st sig); [exact Hgive|]. case_decide; [exact Hgive|].
  destruct (proj1 (so_list _ Hok t) Ht) as (w & Hw & Hup). split; [split; cbn|].
  - apply Hok.
  - apply Hok.
  - apply Hok.
  - intros x. destruct (decide (x = t)) as [->|Hne]; [|rewrite lookup_insert_ne by done; apply Hok].
    rewrite lookup_insert_eq. split; [by eexists|done].
  - intros x v. destruct (decide (x = t)) as [->|Hne]; [rewrite lookup_insert_eq; by intros [= <-]|].
    rewrite lookup_insert_ne by done. apply Hok.
  - unfold served. cbn. rewrite map_size_insert_Some by (by eexists). lia.
Qed.

(** A task goes to the end of the list. *)
Lemma queue_ok s t w : sem_ok s → count s = 0 → waiters s !! t = None → w_up w = false →
  moves s (mkSem (count s) (wait_list s ++ [t]) (<[t := w]> (waiters s))) 0 0.
Proof.
  intros Hok Hc Ht Hw. assert (t ∉ wait_list s) as Hnot by (rewrite (so_list _ Hok); intros (v & Hv & _); congruence).
  split; [split; cbn|].
  - lia.
  - lia.
  - apply NoDup_app. split_and!; [apply Hok| |apply NoDup_singleton]. intros x Hx Hxt. apply list_elem_of_singleton in Hxt as ->. done.
  - intros x. rewrite elem_of_app, list_elem_of_singleton. destruct (decide (x = t)) as [->|Hne].
    + rewrite lookup_insert_eq. split; [by exists w|by right].
    + rewrite lookup_insert_ne by done. rewrite (so_list _ Hok). naive_solver.
  - intros x v. destruct (decide (x = t)) as [->|Hne]; [rewrite lookup_insert_eq; intros [= <-]; congruence|].
    rewrite lookup_insert_ne by done. apply Hok.
  - unfold served. cbn. rewrite map_size_insert_None by done. rewrite length_app. cbn. lia.
Qed.

Lemma moves_trans s1 s2 s3 n k : moves s1 s2 0 0 → moves s2 s3 n k → moves s1 s3 n k.
Proof. intros [_ H1] [Hok H2]. split; [done|lia]. Qed.

Lemma set_count_ok s c : sem_ok s → 0 ≤ c → (0 < c → wait_list s = []) → sem_ok (mkSem c (wait_list s) (waiters s)).
Proof. intros [H1 H2 H3 H4 H5] Hc Hf. by split. Qed.

Lemma down_with_ok s t st timeout sig : sem_ok s → waiters s !! t = None →
  moves s (down_with st timeout s t sig).1 0 (takes (down_with st timeout s t sig).2).
Proof.
  intros Hok Ht. unfold down_with. destruct (decide (0 < count s)) as [Hc|Hc].
  - split; [apply set_count_ok; [done|lia|]; intros _; by apply Hok|]. change (takes _) with 1. unfold served. cbn. lia.
  - pose proof (so_count _ Hok). pose proof (queue_ok s t (mkWaiter st timeout false true) Hok ltac:(lia) Ht eq_refl) as Hq.
    eapply moves_trans; [exact Hq|]. apply down_loop_ok; [apply Hq|]. cbn. rewrite elem_of_app. right. by apply list_elem_of_singleton.
Qed.

(** A waiter that was served returns. *)
Lemma served_ok s t w : sem_ok s → waiters s !! t = Some w → w_up w = true →
  moves s (mkSem (count s) (wait_list s) (delete t (waiters s))) 0 1.
Proof.
  intros Hok Hw Hup. assert (t ∉ wait_list s) as Hnot by (rewrite (so_list _ Hok); intros (v & Hv & ?); congruence).
  split; [split; cbn; [apply Hok|apply Hok|apply Hok| |]|].
  - intros x. rewrite (so_list _ Hok). destruct (decide (x = t)) as [->|Hne]; [|by rewrite lookup_delete_ne].
    rewrite lookup_delete_eq. split; [intros (v & Hv & ?); congruence|by intros (v & ? & _)].
  - intros x v Hv. apply lookup_delete_Some in Hv as [_ Hv]. by apply (so_awake _ Hok x).
  - unfold served. cbn. rewrite map_size_delete, Hw. assert (size (waiters s) ≠ 0%nat); [|lia].
    intros Hz. apply map_size_empty_iff in Hz. by rewrite Hz in Hw.
Qed.

Lemma resume_ok s t rest sig s' r : sem_ok s → down_resume s t rest sig = Some (s', r) → moves s s' 0 (takes r).
Proof.
  intros Hok. unfold down_resume. destruct (waiters s !! t) as [w|] eqn:Hw; [|done]. cbn [mbind option_bind].
  destruct (may_return w rest); [|done]. cbn [negb]. destruct (w_up w) eqn:Hup.
  - intros [= <- <-]. by apply (served_ok s t w).
  - intros [= E]. pose proof (down_loop_ok s t (w_state w) rest sig Hok) as Hl. rewrite E in Hl. apply Hl. apply Hok. by exists w.
Qed.

Lemma up_ok s : sem_ok s → count s + 1 < 2 ^ 32 → moves s (up s) 1 0.
Proof.
  intros Hok Hw. pose proof (so_count _ Hok) as Hc. unfold up. destruct (wait_list s) as [|t l] eqn:El.
  { rewrite wrap_small by width. split; [|unfold served; cbn; rewrite El; cbn; lia].
    rewrite <- El. apply set_count_ok; [done|lia|]. by intros _. }
  assert (t ∈ wait_list s) as Ht by (rewrite El; apply elem_of_cons; by left).
  pose proof (list_del_length t _ (so_nodup _ Hok) Ht) as Hlen. destruct (proj1 (so_list _ Hok t) Ht) as (w & Hw' & Hup).
  split; [split; cbn|].
  - done.
  - intros Hp. rewrite (so_free _ Hok Hp) in El. done.
  - apply NoDup_filter, Hok.
  - intros x. rewrite list_del_in, (so_list _ Hok), lookup_alter. destruct (decide (t = x)) as [->|Hne].
    + split; [by intros [_ []]|]. intros (v & Hv & Hu). rewrite Hw' in Hv. by injection Hv as <-.
    + naive_solver.
  - intros x v. rewrite lookup_alter. case_decide; [|apply Hok]. intros Hv. apply fmap_Some in Hv as (y & _ & ->). done.
  - unfold served, __up. cbn. rewrite size_alter. lia.
Qed.

Lemma spurious_wake_ok s t : sem_ok s → moves s (mkSem (count s) (wait_list s) (alter set_running t (waiters s))) 0 0.
Proof.
  intros Hok. split; [split; cbn; [apply Hok|apply Hok|apply Hok| |]|unfold served; cbn; by rewrite size_alter].
  - intros x. rewrite (so_list _ Hok), lookup_alter. case_decide; [subst|done]. split.
    + intros (w & -> & Hw). by exists (set_running w).
    + intros (w & Hw & Hu). apply fmap_Some in Hw as (v & Hv & ->). by exists v.
  - intros x v. rewrite lookup_alter. case_decide; [|apply Hok]. intros Hv. apply fmap_Some in Hv as (y & _ & ->). done.
Qed.

Lemma try_ok s : sem_ok s → count s ≤ 2 ^ 31 → moves s (down_trylock s).1 0 (takes (down_trylock s).2).
Proof.
  intros Hok Hc. pose proof (so_count _ Hok) as H0. unfold down_trylock.
  rewrite swrap_small by (done || width). case_decide as Hd.
  - split; [apply set_count_ok; [done|done|]; intros _; apply Hok; lia|]. change (takes _) with 1. unfold served. cbn. lia.
  - split; [done|]. change (takes _) with 0. cbn. lia.
Qed.

Lemma event_ok s e s' r : sem_ok s → count s < 2 ^ 31 → do_event s e = Some (s', r) → moves s s' (ups e) (takes r).
Proof.
  intros Hok Hc. assert (∀ t st timeout sig, call s t (down_with st timeout s t sig) = Some (s', r) → moves s s' 0 (takes r)) as Hcall.
  { intros t st timeout sig. unfold call. case_decide as Ht; [|done]. intros [= E].
    pose proof (down_with_ok s t st timeout sig Hok Ht) as H. by rewrite E in H. }
  destruct e as [t sig|t sig|t sig|t j sig|t rest sig| | |t]; cbn [do_event ups].
  - apply Hcall.
  - apply Hcall.
  - apply Hcall.
  - apply Hcall.
  - by apply resume_ok.
  - intros [= E]. pose proof (try_ok s Hok ltac:(lia)) as H. by rewrite E in H.
  - intros [= <- <-]. apply up_ok; [done|pow2; lia].
  - intros [= <- <-]. by apply spurious_wake_ok.
Qed.

Lemma served_nonneg s : sem_ok s → 0 ≤ served s.
Proof.
  intros Hok. unfold served. assert (length (wait_list s) ≤ size (waiters s))%nat; [|lia].
  rewrite <- size_dom. rewrite <- (size_list_to_set (C := gset nat)) by apply Hok. apply subseteq_size.
  intros t Ht. apply elem_of_list_to_set in Ht. apply (so_list _ Hok) in Ht as (w & Hw & _). by apply elem_of_dom.
Qed.

Lemma takes_nonneg r : 0 ≤ takes r.
Proof. destruct r; cbn; [case_decide|..]; lia. Qed.

Lemma sum_nonneg {A} (f : A → Z) l : (∀ x, 0 ≤ f x) → 0 ≤ sum f l.
Proof. intros Hf. induction l as [|x l IH]; cbn; [lia|]. specialize (Hf x). unfold sum in IH. lia. Qed.

Lemma run_ok l : ∀ s s' rs, sem_ok s → count s + served s + sum ups l < 2 ^ 31 → run s l = Some (s', rs) →
  sem_ok s' ∧ count s' + served s' + sum takes rs = count s + served s + sum ups l.
Proof.
  induction l as [|e l IH]; intros s s' rs Hok Hb; cbn [run].
  { intros [= <- <-]. split; [done|]. done. }
  pose proof (served_nonneg s Hok). pose proof (sum_nonneg ups l ltac:(by intros [])) as Hl. cbn [sum foldr] in Hb. fold (sum ups l) in Hb.
  assert (0 ≤ ups e) by (by destruct e). destruct (do_event s e) as [[s1 r]|] eqn:E; [|done]. cbn [mbind option_bind].
  destruct (event_ok s e s1 r Hok ltac:(lia) E) as [Hok1 Hm]. pose proof (takes_nonneg r).
  destruct (run s1 l) as [[s2 rs2]|] eqn:Er; [|done]. cbn [mbind option_bind]. intros [= <- <-].
  destruct (IH s1 s2 rs2 Hok1 ltac:(lia) Er) as [Hok2 Hm2]. split; [done|]. cbn [sum foldr]. fold (sum ups l) (sum takes rs2). lia.
Qed.

Lemma sema_init_ok n : 0 ≤ n → sem_ok (sema_init n).
Proof.
  intros Hn. split; cbn; [done|done|constructor| |done]. intros t. split; [intros Ht; by apply elem_of_nil in Ht|by intros (w & ? & _)].
Qed.

(** C22: However calls, wake-ups, signals and timeouts interleave, the tokens a semaphore
    was made with and those given by [up] are those left in its count, those that
    calls returned with, and those of waiters that were served and are about to
    return.  While tokens are left nobody is on the list; the list holds each task
    that waits and was not served once; and a task that was served is awake. *)
Theorem semaphore_tokens n l s rs :
  0 ≤ n → n + sum ups l < 2 ^ 31 → run (sema_init n) l = Some (s, rs) →
  n + sum ups l = count s + sum takes rs + served s ∧ 0 ≤ count s ∧ 0 ≤ served s ∧
  (0 < count s → wait_list s = []) ∧ NoDup (wait_list s) ∧
  (∀ t, t ∈ wait_list s ↔ ∃ w, waiters s !! t = Some w ∧ w_up w = false) ∧
  (∀ t w, waiters s !! t = Some w → w_up w = true → w_running w = true).
Proof.
  intros Hn Hb Hr. assert (served (sema_init n) = 0) as H0 by reflexivity.
  destruct (run_ok l (sema_init n) s rs (sema_init_ok n Hn)) as [Hok Hm];
    [change (count (sema_init n)) with n; lia|done|]. change (count (sema_init n)) with n in Hm.
  split_and!; [lia|apply Hok|by apply served_nonneg|apply Hok..].
Qed.

(** [up] serves the task that waits longest, and that one returns with the token
    whatever signals or times out before it runs. *)
Theorem up_serves_first s t l w :
  sem_ok s → wait_list s = t :: l → waiters s !! t = Some w →
  wait_list (up s) = l ∧ count (up s) = count s ∧
  ∀ rest sig, may_return (set_up w) rest = true → ∃ s', down_resume (up s) t rest sig = Some (s', Ret 0).
Proof.
  intros Hok El Hw. pose proof (so_nodup _ Hok) as Hn. rewrite El in Hn. apply NoDup_cons in Hn as [Hnot _]. unfold up. rewrite El.
  split; [|split; [done|]].
  - cbn. rewrite El. unfold list_del. rewrite filter_cons_False by (intros Hf; by apply Hf). by apply list_del_notin.
  - intros rest sig Hr. unfold down_resume. cbn. rewrite lookup_alter_eq, Hw. cbn. rewrite Hr. by eexists.
Qed.

(** * An example *)

(** One token; the third task is interrupted and the second served. *)
Definition demo_events : list event :=
  [Down 1 NoSignal; DownTimeout 2 10 NoSignal; DownInterruptible 3 NoSignal; Up; Wake 3; Resume 3 MAX_SCHEDULE_TIMEOUT Signal;
   Resume 2 0 FatalSignal; Try; Up; Try].

Lemma semaphore_tokens_witness :
  ∃ s rs, run (sema_init 1) demo_events = Some (s, rs) ∧
    rs = [Ret 0; Asleep; Asleep; Done; Done; Ret (-4); Ret 0; Ret 1; Done; Ret 0] ∧
    1 + 2 = count s + 3 + served s ∧ 0 ≤ served s ∧ NoDup (wait_list s).
Proof.
  assert (snd <$> run (sema_init 1) demo_events = Some [Ret 0; Asleep; Asleep; Done; Done; Ret (-4); Ret 0; Ret 1; Done; Ret 0])
    as Hrs by (vm_compute; reflexivity).
  destruct (run (sema_init 1) demo_events) as [[s rs]|] eqn:E; [|discriminate Hrs]. injection Hrs as Hrs. subst rs.
  destruct (semaphore_tokens 1 demo_events s _ ltac:(lia) ltac:(vm_compute; reflexivity) E) as (H1 & _ & H2 & _ & H3 & _).
  eexists s, _. split_and!; [reflexivity|reflexivity|exact H1|exact H2|exact H3].
Defined.
