(* ===== verification/TimeConv.v ===== *)
(** Calendar and units of time: kernel/time/timeconv.c ([time_to_tm]) and
    kernel/time.c ([mktime], [set_normalized_timespec], [ns_to_timespec],
    [timespec_add_safe], [timespec_trunc] and the conversions between jiffies,
    milliseconds and microseconds).

    C's division of signed numbers rounds to zero ([Z.quot], [Z.rem]).  A [long]
    has 64 bits; in [time_to_tm] no value leaves its range, so the numbers there
    are plain [Z].  The theorems: [time_to_tm] ends for every [time_t] and offset
    and finds the one date whose distance from 1970 is the given time, by the
    rules of the Gregorian calendar; [mktime] takes it back; normalising and
    adding times is exact, or saturates; timeouts survive conversion to jiffies. *)

From S2P Require Import Prelude.

Local Open Scope Z_scope.

(** * timeconv.c *)

Definition __isleap (year : Z) : bool :=
  bool_decide (Z.rem year 4 = 0) &&
  (bool_decide (Z.rem year 100 ≠ 0) || bool_decide (Z.rem year 400 = 0)).

Definition math_div (a b : Z) : Z := Z.quot a b - (if decide (Z.rem a b < 0) then 1 else 0).

Definition leaps_between (y1 y2 : Z) : Z :=
  let leaps1 := math_div (y1 - 1) 4 - math_div (y1 - 1) 100 + math_div (y1 - 1) 400 in
  let leaps2 := math_div (y2 - 1) 4 - math_div (y2 - 1) 100 + math_div (y2 - 1) 400 in
  leaps2 - leaps1.

Definition __mon_yday (leap : bool) : list Z :=
  if leap then [0; 31; 60; 91; 121; 152; 182; 213; 244; 274; 305; 335; 366]
  else [0; 31; 59; 90; 120; 151; 181; 212; 243; 273; 304; 334; 365].

Definition SECS_PER_HOUR : Z := 60 * 60.
Definition SECS_PER_DAY : Z := SECS_PER_HOUR * 24.

Record tm := mkTm {
  tm_sec : Z;
  tm_min : Z;
  tm_hour : Z;
  tm_mday : Z;
  tm_mon : Z;
  tm_year : Z;
  tm_wday : Z;
  tm_yday : Z;
}.

(** [while (rem < 0)] and [while (rem >= SECS_PER_DAY)] *)
Fixpoint rem_up (fuel : nat) (days rem : Z) : option (Z * Z) :=
  if decide (rem < 0) then
    match fuel with O => None | S fuel => rem_up fuel (days - 1) (rem + SECS_PER_DAY) end
  else Some (days, rem).
Fixpoint rem_down (fuel : nat) (days rem : Z) : option (Z * Z) :=
  if decide (rem >= SECS_PER_DAY) then
    match fuel with O => None | S fuel => rem_down fuel (days + 1) (rem - SECS_PER_DAY) end
  else Some (days, rem).

(** The loop over guesses of the year. *)
Fixpoint year_loop (fuel : nat) (y days : Z) : option (Z * Z) :=
  if decide (days < 0 ∨ days >= (if __isleap y then 366 else 365)) then
    match fuel with
    | O => None
    | S fuel =>
        let yg := y + math_div days 365 in
        year_loop fuel yg (days - ((yg - y) * 365 + leaps_between y yg))
    end
  else Some (y, days).

(** [for (y = 11; days < ip[y]; y--)]: [y] counts down from [fuel]; below 0 is
    outside of the table. *)
Fixpoint month_loop (ip : list Z) (y : nat) (days : Z) : option Z :=
  x ← ip !! y;
  if decide (days < x) then match y with O => None | S y => month_loop ip y days end
  else Some (Z.of_nat y).

(** Fuel for the years: each guess halves the distance at least. *)
Definition time_to_tm (totalsecs offset : Z) : option tm :=
  let days := Z.quot totalsecs SECS_PER_DAY in
  let rem := Z.rem totalsecs SECS_PER_DAY in
  let rem := rem + offset in
  let fuel := S (Z.to_nat (Z.abs rem / SECS_PER_DAY)) in
  '(days, rem) ← rem_up fuel days rem;
  '(days, rem) ← rem_down fuel days rem;
  let hour := Z.quot rem SECS_PER_HOUR in
  let rem := Z.rem rem SECS_PER_HOUR in
  let min := Z.quot rem 60 in
  let sec := Z.rem rem 60 in
  let wday := Z.rem (4 + days) 7 in
  let wday := if decide (wday < 0) then wday + 7 else wday in
  '(y, days) ← year_loop 64 1970 days;
  let ip := __mon_yday (__isleap y) in
  mon ← month_loop ip 11 days;
  first ← ip !! Z.to_nat mon;
  Some (mkTm sec min hour (days - first + 1) mon (y - 1900) wday days).

(** * time.c *)

(** [mktime]: unsigned int and unsigned long arithmetic. *)
Definition mktime (year0 mon0 day hour min sec : Z) : Z :=
  let mon := u32 (mon0 - 2) in
  let '(mon, year) := if decide (0 >= s32 mon) then (u32 (mon + 12), u32 (year0 - 1)) else (mon, year0) in
  let days := u32 (u32 (u32 (u32 (year / 4 - year / 100) + year / 400) + u32 (367 * mon) / 12) + day) in
  let d := u64 (u64 (days + u32 (year * 365)) - 719499) in
  u64 (u64 (u64 (u64 (u64 (d * 24) + hour) * 60) + min) * 60 + sec).

Definition NSEC_PER_SEC : Z := 1000000000.
Definition TIME_T_MAX : Z := 2 ^ 63 - 1.

Record timespec := mkTs { tv_sec : Z; tv_nsec : Z }.

(** The loops of [set_normalized_timespec]; [sec] wraps. *)
Fixpoint nsec_down (fuel : nat) (sec nsec : Z) : option (Z * Z) :=
  if decide (nsec >= NSEC_PER_SEC) then
    match fuel with O => None | S fuel => nsec_down fuel (s64 (sec + 1)) (nsec - NSEC_PER_SEC) end
  else Some (sec, nsec).
Fixpoint nsec_up (fuel : nat) (sec nsec : Z) : option (Z * Z) :=
  if decide (nsec < 0) then
    match fuel with O => None | S fuel => nsec_up fuel (s64 (sec - 1)) (nsec + NSEC_PER_SEC) end
  else Some (sec, nsec).

Definition set_normalized_timespec (sec nsec : Z) : option timespec :=
  let fuel := S (Z.to_nat (Z.abs nsec / NSEC_PER_SEC)) in
  '(sec, nsec) ← nsec_down fuel sec nsec;
  '(sec, nsec) ← nsec_up fuel sec nsec;
  Some (mkTs sec nsec).

Definition ns_to_timespec (nsec : Z) : timespec :=
  if decide (nsec = 0) then mkTs 0 0
  else
    let sec := Z.quot nsec NSEC_PER_SEC in
    let rem := Z.rem nsec NSEC_PER_SEC in
    if decide (rem < 0) then mkTs (sec - 1) (rem + NSEC_PER_SEC) else mkTs sec rem.

(** A [timeval] is a pair of seconds and microseconds. *)
Definition ns_to_timeval (nsec : Z) : Z * Z :=
  let ts := ns_to_timespec nsec in (tv_sec ts, Z.quot (tv_nsec ts) 1000).

Definition timespec_add_safe (lhs rhs : timespec) : option timespec :=
  res ← set_normalized_timespec (s64 (tv_sec lhs + tv_sec rhs)) (s64 (tv_nsec lhs + tv_nsec rhs));
  Some (if decide (tv_sec res < tv_sec lhs ∨ tv_sec res < tv_sec rhs)
        then mkTs TIME_T_MAX (tv_nsec res) else res).

(** The conversions for a tick rate that divides the unit. *)
Section units.
Context (HZ : Z).

Definition MAX_JIFFY_OFFSET : Z := 2 ^ 62 - 2.

Definition jiffies_to_msecs (j : Z) : Z := u32 (u64 (1000 / HZ * j)).
Definition jiffies_to_usecs (j : Z) : Z := u32 (u64 (1000000 / HZ * j)).

Definition msecs_to_jiffies (m : Z) : Z :=
  if decide (s32 m < 0) then MAX_JIFFY_OFFSET else (m + 1000 / HZ - 1) / (1000 / HZ).

Definition usecs_to_jiffies (u : Z) : Z :=
  if decide (u > jiffies_to_usecs MAX_JIFFY_OFFSET) then MAX_JIFFY_OFFSET
  else (u + 1000000 / HZ - 1) / (1000000 / HZ).

Definition timespec_trunc (t : timespec) (gran : Z) : timespec :=
  if decide (gran ≤ u32 (jiffies_to_usecs 1 * 1000)) then t
  else if decide (gran = 1000000000) then mkTs (tv_sec t) 0
  else mkTs (tv_sec t) (tv_nsec t - Z.rem (tv_nsec t) gran).
End units.

(** * The Gregorian calendar *)

Definition leap_year (y : Z) : Prop := y mod 4 = 0 ∧ (y mod 100 ≠ 0 ∨ y mod 400 = 0).

Global Instance leap_year_dec y : Decision (leap_year y).
Proof. unfold leap_year. apply _. Defined.

Definition year_len (y : Z) : Z := if decide (leap_year y) then 366 else 365.
Definition month_lens (y : Z) : list Z :=
  [31; if decide (leap_year y) then 29 else 28; 31; 30; 31; 30; 31; 31; 30; 31; 30; 31].
Definition sum (l : list Z) : Z := foldr Z.add 0 l.

(** The days of [n] years from [y] on, and the days from 1970 to the start of a
    year. *)
Fixpoint days_of (n : nat) (y : Z) : Z :=
  match n with O => 0 | S n => year_len y + days_of n (y + 1) end.
Definition year_start (y : Z) : Z :=
  if decide (1970 ≤ y) then days_of (Z.to_nat (y - 1970)) 1970 else - days_of (Z.to_nat (1970 - y)) y.

(** The fields are in their ranges, and the day of the year is that of the month
    and its day. *)
Definition tm_ok (r : tm) : Prop :=
  0 ≤ tm_sec r < 60 ∧ 0 ≤ tm_min r < 60 ∧ 0 ≤ tm_hour r < 24 ∧ 0 ≤ tm_wday r < 7 ∧
  ∃ m len, tm_mon r = Z.of_nat m ∧ month_lens (1900 + tm_year r) !! m = Some len ∧
    1 ≤ tm_mday r ≤ len ∧ tm_yday r = sum (take m (month_lens (1900 + tm_year r))) + tm_mday r - 1.

(** The seconds from 1970 to the date. *)
Definition tm_secs (r : tm) : Z :=
  ((year_start (1900 + tm_year r) + tm_yday r) * 24 + tm_hour r) * 3600 + tm_min r * 60 + tm_sec r.

(** ** Leap years *)

Lemma rem_mod_zero a b : 0 < b → Z.rem a b = 0 ↔ a mod b = 0.
Proof. intros Hb. rewrite Z.rem_divide, Z.mod_divide by lia. done. Qed.

Lemma isleap_eq y : __isleap y = bool_decide (leap_year y).
Proof.
  unfold __isleap, leap_year. apply eq_bool_prop_intro. rewrite andb_True, orb_True, !bool_decide_spec.
  rewrite !rem_mod_zero by lia. done.
Qed.

Lemma isleap_len y : (if __isleap y then 366 else 365) = year_len y.
Proof. rewrite isleap_eq. unfold year_len. by repeat case_decide || rewrite bool_decide_decide. Qed.

Lemma math_div_eq a b : 0 < b → math_div a b = a / b.
Proof.
  intros Hb. unfold math_div. pose proof (Z.quot_rem' a b) as Hq.
  destruct (decide (0 ≤ a)) as [Ha|Ha].
  - pose proof (Z.rem_bound_pos a b Ha Hb). rewrite decide_False by lia.
    rewrite Z.quot_div_nonneg by lia. lia.
  - pose proof (Z.rem_bound_pos_neg a b Hb ltac:(lia)) as Hr. case_decide as Hd.
    + apply Z.div_unique_pos with (r := Z.rem a b + b); lia.
    + apply Z.div_unique_pos with (r := 0); lia.
Qed.

(** Leap years up to [n]. *)
Definition lp (n : Z) : Z := n / 4 - n / 100 + n / 400.

Lemma leaps_between_eq y1 y2 : leaps_between y1 y2 = lp (y2 - 1) - lp (y1 - 1).
Proof. unfold leaps_between, lp. by rewrite !math_div_eq by lia. Qed.

Lemma lp_step y : lp y - lp (y - 1) = if decide (leap_year y) then 1 else 0.
Proof. unfold lp, leap_year. case_decide as H; dlia. Qed.

Lemma year_len_eq y : year_len y = 365 + (lp y - lp (y - 1)).
Proof. rewrite lp_step. unfold year_len. by case_decide. Qed.

Lemma year_len_ge y : 365 ≤ year_len y.
Proof. unfold year_len. case_decide; lia. Qed.

Lemma lp_mono a n : 0 ≤ n → 0 ≤ lp (a + n) - lp a ≤ (n + 3) / 4.
Proof.
  intros Hn. unfold lp.
  assert ((a + n) / 400 = (a + n) / 100 / 4) as -> by (by rewrite Z.div_div by lia).
  assert (a / 400 = a / 100 / 4) as -> by (by rewrite Z.div_div by lia).
  assert (a / 100 ≤ (a + n) / 100) by (apply Z.div_le_mono; lia).
  set (p := a / 100) in *. set (q := (a + n) / 100) in *.
  assert (100 * p ≤ a < 100 * p + 100) by (subst p; dlia).
  assert (100 * q ≤ a + n < 100 * q + 100) by (subst q; dlia).
  clearbody p q. split; dlia.
Qed.

Lemma days_of_eq n : ∀ y, days_of n y = 365 * Z.of_nat n + lp (y + Z.of_nat n - 1) - lp (y - 1).
Proof.
  induction n as [|n IH]; intros y; cbn [days_of].
  - replace (y + Z.of_nat 0 - 1) with (y - 1) by lia. lia.
  - rewrite IH, year_len_eq. replace (y + 1 + Z.of_nat n - 1) with (y + Z.of_nat (S n) - 1) by lia.
    replace (y + 1 - 1) with y by lia. lia.
Qed.

Lemma year_start_eq y : year_start y = 365 * (y - 1970) + lp (y - 1) - lp 1969.
Proof.
  unfold year_start. case_decide; rewrite days_of_eq, Z2Nat.id by lia.
  - replace (1970 + (y - 1970) - 1) with (y - 1) by lia. change (1970 - 1) with 1969. lia.
  - replace (y + (1970 - y) - 1) with 1969 by lia. lia.
Qed.

(** ** The loops of [time_to_tm] *)

Lemma rem_up_ok fuel : ∀ days rem, - rem < Z.of_nat fuel * SECS_PER_DAY →
  ∃ k, rem_up fuel days rem = Some (days - k, rem + k * SECS_PER_DAY) ∧ 0 ≤ rem + k * SECS_PER_DAY ∧
    (rem < SECS_PER_DAY → rem + k * SECS_PER_DAY < SECS_PER_DAY) ∧ (0 ≤ rem → k = 0).
Proof.
  unfold SECS_PER_DAY, SECS_PER_HOUR. induction fuel as [|fuel IH]; intros days rem H; cbn [rem_up].
  - rewrite decide_False by lia. exists 0. rewrite Z.sub_0_r, Z.mul_0_l, Z.add_0_r. split_and!; done || lia.
  - case_decide as Hd.
    + destruct (IH (days - 1) (rem + 60 * 60 * 24) ltac:(lia)) as (k & E & H1 & H2 & _).
      exists (k + 1). unfold SECS_PER_DAY, SECS_PER_HOUR. rewrite E. split_and!; [|lia|lia|lia].
      do 2 f_equal; lia.
    + exists 0. rewrite Z.sub_0_r, Z.mul_0_l, Z.add_0_r. split_and!; done || lia.
Qed.

Lemma rem_down_ok fuel : ∀ days rem, 0 ≤ rem < (Z.of_nat fuel + 1) * SECS_PER_DAY →
  rem_down fuel days rem = Some (days + rem / SECS_PER_DAY, rem mod SECS_PER_DAY).
Proof.
  unfold SECS_PER_DAY, SECS_PER_HOUR. induction fuel as [|fuel IH]; intros days rem H; cbn [rem_down]; unfold SECS_PER_DAY, SECS_PER_HOUR.
  - rewrite decide_False by lia. rewrite Z.div_small, Z.mod_small by lia. by rewrite Z.add_0_r.
  - case_decide as Hd.
    + rewrite IH by lia. do 2 f_equal; dlia.
    + rewrite Z.div_small, Z.mod_small by lia. by rewrite Z.add_0_r.
Qed.

(** A guess: the day stays the same, and comes nearer. *)
Lemma guess_ok y days :
  let k := days / 365 in
  let yg := y + math_div days 365 in
  let days' := days - ((yg - y) * 365 + leaps_between y yg) in
  yg = y + k ∧ year_start yg + days' = year_start y + days ∧ days' = days mod 365 - (lp (yg - 1) - lp (y - 1)) ∧
  (2 ≤ Z.abs k → Z.abs (days' / 365) ≤ Z.abs k / 2) ∧
  (Z.abs k = 1 → (days < 0 ∨ year_len y ≤ days) → 0 ≤ days' < year_len yg).
Proof.
  intros k yg days'. assert (yg = y + k) as Hyg by (unfold yg; by rewrite math_div_eq by lia).
  assert (days' = days mod 365 - (lp (yg - 1) - lp (y - 1))) as Hd'.
  { unfold days'. rewrite leaps_between_eq, Hyg. unfold k. dlia. }
  assert (days mod 365 = days - 365 * k) as Hmod by (unfold k; dlia).
  pose proof (Z.mod_pos_bound days 365 ltac:(lia)) as Hr.
  split_and!; [done| |done| |].
  - rewrite !year_start_eq. lia.
  - intros Hk. assert (Z.abs (lp (yg - 1) - lp (y - 1)) ≤ (Z.abs k + 3) / 4) as HL.
    { destruct (decide (0 ≤ k)).
      - pose proof (lp_mono (y - 1) k ltac:(lia)) as H. replace (y - 1 + k) with (yg - 1) in H by lia.
        rewrite (Z.abs_eq k) by lia. lia.
      - pose proof (lp_mono (yg - 1) (- k) ltac:(lia)) as H. replace (yg - 1 + - k) with (y - 1) in H by lia.
        rewrite (Z.abs_neq k) by lia. lia. }
    set (l := lp (yg - 1) - lp (y - 1)) in *. clearbody l. rewrite Hd'. clear Hd' days' Hmod Hyg yg.
    set (r := days mod 365) in *. clearbody r. set (q := Z.abs k) in *. clearbody q. dlia.
  - intros Hk Hout. destruct (decide (k = 1)) as [E|E].
    + assert (lp (yg - 1) - lp (y - 1) = year_len y - 365) as HL by (rewrite year_len_eq, Hyg, E; replace (y + 1 - 1) with y by lia; lia).
      pose proof (year_len_ge yg). pose proof (year_len_ge y). lia.
    + assert (k = -1) as E' by lia.
      assert (lp (y - 1) - lp (yg - 1) = year_len yg - 365) as HL by (rewrite year_len_eq, Hyg, E'; replace (y + -1) with (y - 1) by lia; lia).
      pose proof (year_len_ge yg). lia.
Qed.

Lemma year_loop_stop fuel y days : 0 ≤ days < year_len y → year_loop fuel y days = Some (y, days).
Proof. intros H. destruct fuel; cbn [year_loop]; rewrite isleap_len, decide_False by lia; done. Qed.

Lemma year_loop_ok n : ∀ y days, (0 < n)%nat → Z.abs (days / 365) < 2 ^ Z.of_nat n →
  ∃ y' d, year_loop n y days = Some (y', d) ∧ 0 ≤ d < year_len y' ∧ year_start y' + d = year_start y + days.
Proof.
  induction n as [|n IH]; intros y days Hn Hk; [lia|]. cbn [year_loop]. rewrite isleap_len.
  destruct (guess_ok y days) as (Hyg & Hday & _ & Hhalf & Hone). case_decide as Hd.
  2: { exists y, days. split_and!; done || lia. }
  set (yg := y + math_div days 365) in *. set (d' := days - _) in *.
  destruct (decide (2 ≤ Z.abs (days / 365))) as [H2|H2].
  - specialize (Hhalf H2). rewrite Nat2Z.inj_succ, Z.pow_succ_r in Hk by lia.
    assert (n ≠ O) by (intros ->; change (2 ^ Z.of_nat 0) with 1 in Hk; lia).
    destruct (IH yg d' ltac:(lia)) as (y' & d & E & Hd1 & Hd2); [dlia|].
    exists y', d. split_and!; try done; lia.
  - assert (Z.abs (days / 365) = 1) as H1.
    { destruct (decide (days / 365 = 0)) as [H0|]; [|lia].
      assert (0 ≤ days < 365) by dlia. pose proof (year_len_ge y). lia. }
    specialize (Hone H1 ltac:(lia)). rewrite year_loop_stop by done. exists yg, d'. split_and!; done || lia.
Qed.

(** ** Months *)

Lemma month_loop_ok ip days y :
  (y < length ip)%nat → (∃ z, ip !! 0%nat = Some z ∧ z ≤ days) →
  ∃ m f, month_loop ip y days = Some (Z.of_nat m) ∧ ip !! m = Some f ∧ f ≤ days ∧ (m ≤ y)%nat ∧
    ∀ j g, (m < j ≤ y)%nat → ip !! j = Some g → days < g.
Proof.
  intros Hlen Hz. induction y as [|y IH]; cbn [month_loop];
    (match goal with |- context [ip !! ?n] => destruct (lookup_lt_is_Some_2 ip n) as [x Hx]; [lia|] end);
    rewrite Hx; cbn [mbind option_bind]; case_decide as Hd.
  - destruct Hz as (z & Hz & ?). simplify_eq. lia.
  - exists 0%nat, x. split_and!; [done..|lia|lia|]. intros j g Hj. lia.
  - destruct (IH ltac:(lia)) as (m & f & -> & Hf & Hle & Hm & Hall). exists m, f. split_and!; [done..|lia|].
    intros j g Hj Hg. destruct (decide (j = S y)) as [->|]; [by simplify_eq|]. apply (Hall j); [lia|done].
  - exists (S y), x. split_and!; [done..|lia|lia|]. intros j g Hj. lia.
Qed.

(** The table holds the days before each month. *)
Lemma mon_yday_sum y m :
  (m ≤ 12)%nat → __mon_yday (__isleap y) !! m = Some (sum (take m (month_lens y))).
Proof.
  intros Hm. rewrite isleap_eq. unfold __mon_yday, month_lens.
  destruct (decide (leap_year y)) as [H|H]; [rewrite bool_decide_true by done|rewrite bool_decide_false by done];
    do 13 (destruct m as [|m]; [reflexivity|]); lia.
Qed.

Lemma sum_take_S l m x : l !! m = Some x → sum (take (S m) l) = sum (take m l) + x.
Proof.
  revert m. induction l as [|a l IH]; intros [|m] H; cbn in H; [done|done| |].
  - injection H as ->. change (take 1 (x :: l)) with (x :: take 0 l). rewrite !take_0. unfold sum. cbn [foldr]. lia.
  - specialize (IH m H). change (take (S (S m)) (a :: l)) with (a :: take (S m) l).
    change (take (S m) (a :: l)) with (a :: take m l). unfold sum in *. cbn [foldr]. lia.
Qed.

Lemma months_sum y : sum (take 12 (month_lens y)) = year_len y.
Proof. unfold month_lens, year_len. by case_decide. Qed.

Lemma month_ok y d :
  0 ≤ d < year_len y →
  ∃ m f len, month_loop (__mon_yday (__isleap y)) 11 d = Some (Z.of_nat m) ∧
    __mon_yday (__isleap y) !! m = Some f ∧ f = sum (take m (month_lens y)) ∧
    month_lens y !! m = Some len ∧ f ≤ d < f + len.
Proof.
  intros Hd.
  destruct (month_loop_ok (__mon_yday (__isleap y)) d 11) as (m & f & E & Hf & Hle & Hm & Hall).
  - destruct (__isleap y); cbn [length __mon_yday]; lia.
  - exists 0. split; [by destruct (__isleap y)|lia].
  - pose proof Hf as Hf'. rewrite mon_yday_sum in Hf' by lia. injection Hf' as Hf'.
    destruct (lookup_lt_is_Some_2 (month_lens y) m) as [len Hlen]; [unfold month_lens; cbn [length]; lia|].
    exists m, f, len. split_and!; try done.
    pose proof (sum_take_S _ _ _ Hlen) as HS. rewrite Hf' in HS. rewrite <- HS.
    destruct (decide (m = 11%nat)) as [->|Hne]; [rewrite months_sum; lia|].
    apply (Hall (S m)); [lia|]. apply mon_yday_sum. lia.
Qed.

(** ** [time_to_tm] *)

Lemma hms rem : 0 ≤ rem < SECS_PER_DAY →
  let h := Z.quot rem SECS_PER_HOUR in let r := Z.rem rem SECS_PER_HOUR in
  0 ≤ h < 24 ∧ 0 ≤ Z.quot r 60 < 60 ∧ 0 ≤ Z.rem r 60 < 60 ∧ h * 3600 + Z.quot r 60 * 60 + Z.rem r 60 = rem.
Proof.
  intros H h r. unfold h, r, SECS_PER_DAY, SECS_PER_HOUR in *. change (60 * 60) with 3600 in *.
  rewrite Z.quot_div_nonneg, Z.rem_mod_nonneg by lia.
  pose proof (Z.mod_pos_bound rem 3600 ltac:(lia)).
  rewrite Z.quot_div_nonneg, Z.rem_mod_nonneg by lia. dlia.
Qed.

Lemma wday_eq d : (let w := Z.rem (4 + d) 7 in if decide (w < 0) then w + 7 else w) = (4 + d) mod 7.
Proof.
  cbn zeta. pose proof (Z.quot_rem' (4 + d) 7) as Hq.
  assert (Z.abs (Z.rem (4 + d) 7) < 7) as Hb by (apply Z.rem_bound_abs; done).
  case_decide; [apply Z.mod_unique_pos with (q := Z.quot (4 + d) 7 - 1)|
    apply Z.mod_unique_pos with (q := Z.quot (4 + d) 7)]; lia.
Qed.

Lemma days_rem t o :
  in_s64 t → in_s32 o →
  let rem := Z.rem t SECS_PER_DAY + o in
  let fuel := S (Z.to_nat (Z.abs rem / SECS_PER_DAY)) in
  ('(days, rem) ← rem_up fuel (Z.quot t SECS_PER_DAY) rem; rem_down fuel days rem) =
    Some ((t + o) / SECS_PER_DAY, (t + o) mod SECS_PER_DAY).
Proof.
  intros Ht Ho rem fuel. pose proof (Z.quot_rem' t SECS_PER_DAY) as Hq.
  assert (t + o = Z.quot t SECS_PER_DAY * SECS_PER_DAY + rem) as -> by (unfold rem; lia). clear Hq.
  pose proof (Z.div_mod (Z.abs rem) SECS_PER_DAY ltac:(done)) as Hdm.
  pose proof (Z.mod_pos_bound (Z.abs rem) SECS_PER_DAY ltac:(done)) as Hmb.
  assert (Z.of_nat fuel = Z.abs rem / SECS_PER_DAY + 1) as Hfuel.
  { unfold fuel. rewrite Nat2Z.inj_succ, Z2Nat.id; [lia|]. apply Z.div_pos; [lia|done]. }
  clearbody fuel. generalize (Z.quot t SECS_PER_DAY) as q. clearbody rem. clear t o Ht Ho. intros q.
  assert (Z.abs rem < Z.of_nat fuel * SECS_PER_DAY) as Hlt by (rewrite Hfuel; lia).
  destruct (rem_up_ok fuel q rem ltac:(lia)) as (k & -> & H1 & H2 & H3). cbn [mbind option_bind].
  assert (rem + k * SECS_PER_DAY < (Z.of_nat fuel + 1) * SECS_PER_DAY) as H4.
  { unfold SECS_PER_DAY, SECS_PER_HOUR in *. destruct (decide (0 ≤ rem)) as [Hp|Hn]; [rewrite (H3 Hp)|]; lia. }
  rewrite rem_down_ok by lia.
  assert (q * SECS_PER_DAY + rem = (rem + k * SECS_PER_DAY) + (q - k) * SECS_PER_DAY) as -> by lia.
  rewrite (Z.div_add (rem + k * SECS_PER_DAY) (q - k)), (Z.mod_add (rem + k * SECS_PER_DAY) (q - k)) by done.
  by rewrite (Z.add_comm (q - k)).
Qed.

Lemma time_to_tm_ok t o :
  in_s64 t → in_s32 o →
  ∃ r, time_to_tm t o = Some r ∧ tm_ok r ∧ tm_secs r = t + o ∧ tm_wday r = (4 + (t + o) / SECS_PER_DAY) mod 7.
Proof.
  intros Ht Ho. pose proof (days_rem t o Ht Ho) as Hdr.
  pose proof (λ d, year_loop_ok 64 1970 d ltac:(lia)) as HY. unfold time_to_tm. cbv zeta in Hdr |- *.
  generalize dependent (year_loop 64). intros yl HY.
  generalize dependent (S (Z.to_nat (Z.abs (Z.rem t SECS_PER_DAY + o) / SECS_PER_DAY))). intros fuel Hdr.
  destruct (rem_up fuel (Z.quot t SECS_PER_DAY) (Z.rem t SECS_PER_DAY + o)) as [[d1 r1]|]; [|discriminate].
  cbn [mbind option_bind] in *.
  rewrite Hdr. cbn [mbind option_bind]. clear Hdr.
  pose proof (Z.mod_pos_bound (t + o) SECS_PER_DAY ltac:(done)) as Hr.
  pose proof (Z.div_mod (t + o) SECS_PER_DAY ltac:(done)) as Hdm.
  set (days := (t + o) / SECS_PER_DAY) in *. set (rem := (t + o) mod SECS_PER_DAY) in *.
  destruct (HY days) as (y & d & -> & Hd & Hy).
  { change (2 ^ Z.of_nat 64) with 18446744073709551616. unfold in_swidth in *. pow2.
    pose proof (Z.div_mod days 365 ltac:(done)). pose proof (Z.mod_pos_bound days 365 ltac:(done)).
    clearbody days rem. unfold SECS_PER_DAY, SECS_PER_HOUR in *. lia. }
  cbn [mbind option_bind]. destruct (month_ok y d Hd) as (m & f & len & -> & Hf & Hfs & Hlen & Hfd).
  cbn [mbind option_bind]. rewrite Nat2Z.id, Hf. cbn [mbind option_bind].
  destruct (hms rem Hr) as (Hh & Hm & Hs & Hsum). eexists. split; [done|].
  unfold tm_ok, tm_secs. cbn [tm_sec tm_min tm_hour tm_wday tm_mon tm_year tm_mday tm_yday].
  replace (1900 + (y - 1900)) with y by lia. pose proof (wday_eq days) as Hw. cbn zeta in Hw.
  rewrite Hw. split; [refine (conj Hs (conj Hm (conj Hh (conj _ _))))|split; [|reflexivity]].
  - apply Z.mod_pos_bound. lia.
  - exists m, len. rewrite <- Hfs. split; [reflexivity|]. split; [exact Hlen|]. clear - Hfd. split; lia.
  - rewrite Hy. change (year_start 1970) with 0. rewrite <- Hsum in Hdm. clear - Hdm.
    unfold SECS_PER_DAY, SECS_PER_HOUR in *. lia.
Qed.

(** ** [mktime] *)

Lemma wrap_add_l w a b : wrap w (wrap w a + b) = wrap w (a + b).
Proof. unfold wrap. apply Zplus_mod_idemp_l. Qed.

Lemma wrap_mul_l w a b : wrap w (wrap w a * b) = wrap w (a * b).
Proof. unfold wrap. apply Zmult_mod_idemp_l. Qed.

Lemma wrap_sub_l w a b : wrap w (wrap w a - b) = wrap w (a - b).
Proof. unfold wrap. apply Zminus_mod_idemp_l. Qed.

Lemma wrap_muladd_l w a b c : wrap w (wrap w a * b + c) = wrap w (a * b + c).
Proof. by rewrite <- wrap_add_l, wrap_mul_l, wrap_add_l. Qed.

(** The formula with [year] and [mon] counted from March. *)
Lemma mktime_formula year mon day hour min sec :
  0 ≤ year ≤ 11000000 → 1 ≤ mon ≤ 12 → 1 ≤ day ≤ 31 →
  (let days := u32 (u32 (u32 (u32 (year / 4 - year / 100) + year / 400) + u32 (367 * mon) / 12) + day) in
   let d := u64 (u64 (days + u32 (year * 365)) - 719499) in
   u64 (u64 (u64 (u64 (u64 (d * 24) + hour) * 60) + min) * 60 + sec)) =
  u64 (((lp year + 367 * mon / 12 + day + 365 * year - 719499) * 24 + hour) * 3600 + min * 60 + sec).
Proof.
  intros Hy Hm Hd. cbv zeta.
  assert (0 ≤ year / 4 - year / 100 ≤ year ∧ 0 ≤ year / 400 ≤ year ∧ 0 ≤ 367 * mon / 12 ≤ 367) as (H1 & H2 & H3) by dlia.
  rewrite (wrap_small 32 (year / 4 - year / 100)), (wrap_small 32 (367 * mon)) by width.
  rewrite (wrap_small 32 (year / 4 - year / 100 + year / 400)) by width.
  rewrite (wrap_small 32 (year / 4 - year / 100 + year / 400 + 367 * mon / 12)) by width.
  rewrite (wrap_small 32 (year / 4 - year / 100 + year / 400 + 367 * mon / 12 + day)) by width.
  rewrite (wrap_small 32 (year * 365)) by width. unfold lp.
  rewrite wrap_sub_l, (wrap_mul_l 64 _ 24), (wrap_add_l 64 _ hour), (wrap_mul_l 64 (_ + hour) 60), (wrap_add_l 64 _ min).
  rewrite wrap_muladd_l. f_equal. lia.
Qed.

Lemma mktime_ok y m day hour min sec :
  1 ≤ y ≤ 11000000 → (m < 12)%nat → 1 ≤ day ≤ 31 →
  mktime y (Z.of_nat m + 1) day hour min sec =
    u64 (((year_start y + sum (take m (month_lens y)) + day - 1) * 24 + hour) * 3600 + min * 60 + sec).
Proof.
  intros Hy Hm Hd. unfold mktime.
  assert (year_start y = 365 * y + lp (y - 1) - 719527) as Hs
    by (rewrite year_start_eq; change (lp 1969) with 477; lia).
  assert (lp y - lp (y - 1) = if decide (leap_year y) then 1 else 0) as Hl by apply lp_step.
  destruct (decide (m < 2)%nat) as [Hjf|Hrest].
  - set (mon := u32 (Z.of_nat m + 1 - 2)). assert (s32 mon = Z.of_nat m - 1) as Es.
    { unfold mon. rewrite swrap_wrap by lia. rewrite s32_small by width. lia. }
    assert (u32 (mon + 12) = Z.of_nat m + 11) as Ew.
    { unfold mon. rewrite wrap_add_l. rewrite wrap_small by width. lia. }
    rewrite Es, decide_True, Ew by lia. rewrite (wrap_small 32 (y - 1)) by width.
    pose proof (mktime_formula (y - 1) (Z.of_nat m + 11) day hour min sec) as F.
    cbv beta iota zeta in F |- *. rewrite F by lia. rewrite Hs. f_equal.
    destruct m as [|[|m]]; [|..|lia]; rewrite ?take_0; unfold sum, month_lens; cbn [take foldr];
      [change (367 * (Z.of_nat 0 + 11) / 12) with 336|change (367 * (Z.of_nat 1 + 11) / 12) with 367]; lia.
  - set (mon := u32 (Z.of_nat m + 1 - 2)). assert (mon = Z.of_nat m - 1) as Em
      by (unfold mon; rewrite wrap_small by width; lia).
    rewrite Em. rewrite (s32_small (Z.of_nat m - 1)) by width. rewrite decide_False by lia.
    pose proof (mktime_formula y (Z.of_nat m - 1) day hour min sec) as F.
    cbv beta iota zeta in F |- *. rewrite F by lia. rewrite Hs. f_equal.
    enough (lp y + 367 * (Z.of_nat m - 1) / 12 + day + 365 * y - 719499 =
      365 * y + lp (y - 1) - 719527 + sum (take m (month_lens y)) + day - 1) by lia.
    enough (sum (take m (month_lens y)) = (lp y - lp (y - 1)) + 29 + 367 * (Z.of_nat m - 1) / 12) by lia. rewrite Hl.
    do 12 (destruct m as [|m]; [try lia; unfold sum, month_lens; cbn [take foldr]; case_decide; reflexivity|]). lia.
Qed.

(** ** Seconds and nanoseconds *)

Definition ts_ok (ts : timespec) : Prop := in_s64 (tv_sec ts) ∧ 0 ≤ tv_nsec ts < NSEC_PER_SEC.
Definition ts_ns (ts : timespec) : Z := tv_sec ts * NSEC_PER_SEC + tv_nsec ts.

Lemma swrap_add_l w a b : swrap w (swrap w a + b) = swrap w (a + b).
Proof.
  unfold swrap. f_equal. replace ((a + 2 ^ (w - 1)) mod 2 ^ w - 2 ^ (w - 1) + b + 2 ^ (w - 1))
    with ((a + 2 ^ (w - 1)) mod 2 ^ w + b) by lia. rewrite Zplus_mod_idemp_l. f_equal. lia.
Qed.

Lemma nsec_down_ok fuel : ∀ sec nsec, nsec < (Z.of_nat fuel + 1) * NSEC_PER_SEC → in_s64 sec →
  nsec_down fuel sec nsec =
    if decide (nsec < 0) then Some (sec, nsec) else Some (s64 (sec + nsec / NSEC_PER_SEC), nsec mod NSEC_PER_SEC).
Proof.
  unfold NSEC_PER_SEC. induction fuel as [|fuel IH]; intros sec nsec H Hs; cbn [nsec_down]; unfold NSEC_PER_SEC.
  - rewrite (decide_False (P := nsec >= 1000000000)) by lia. case_decide; [done|].
    by rewrite Z.div_small, Z.mod_small, Z.add_0_r, s64_small by (done || lia).
  - destruct (decide (nsec >= 1000000000)) as [Hd|Hd].
    + rewrite IH by (lia || by apply swrap_range). rewrite !decide_False by lia. rewrite swrap_add_l.
      f_equal. f_equal; [f_equal|]; dlia.
    + case_decide; [done|]. by rewrite Z.div_small, Z.mod_small, Z.add_0_r, s64_small by (done || lia).
Qed.

Lemma nsec_up_ok fuel : ∀ sec nsec, - nsec ≤ Z.of_nat fuel * NSEC_PER_SEC → nsec < NSEC_PER_SEC → in_s64 sec →
  nsec_up fuel sec nsec = Some (s64 (sec + nsec / NSEC_PER_SEC), nsec mod NSEC_PER_SEC).
Proof.
  unfold NSEC_PER_SEC. induction fuel as [|fuel IH]; intros sec nsec H Hn Hs; cbn [nsec_up]; unfold NSEC_PER_SEC.
  - rewrite decide_False by lia. by rewrite Z.div_small, Z.mod_small, Z.add_0_r, s64_small by (done || lia).
  - case_decide as Hd.
    + rewrite IH by (lia || by apply swrap_range). unfold Z.sub. rewrite swrap_add_l. f_equal. f_equal; [f_equal|]; dlia.
    + by rewrite Z.div_small, Z.mod_small, Z.add_0_r, s64_small by (done || lia).
Qed.

Lemma set_normalized_ok sec nsec :
  in_s64 sec →
  set_normalized_timespec sec nsec = Some (mkTs (s64 (sec + nsec / NSEC_PER_SEC)) (nsec mod NSEC_PER_SEC)).
Proof.
  intros Hs. unfold set_normalized_timespec. cbv zeta.
  assert (Z.abs nsec < (Z.abs nsec / NSEC_PER_SEC + 1) * NSEC_PER_SEC) as Hb.
  { pose proof (Z.div_mod (Z.abs nsec) NSEC_PER_SEC ltac:(done)).
    pose proof (Z.mod_pos_bound (Z.abs nsec) NSEC_PER_SEC ltac:(done)). lia. }
  assert (0 ≤ Z.abs nsec / NSEC_PER_SEC) as H0 by (apply Z.div_pos; [lia|done]).
  assert (Z.of_nat (S (Z.to_nat (Z.abs nsec / NSEC_PER_SEC))) = Z.abs nsec / NSEC_PER_SEC + 1) as Hf by lia.
  generalize dependent (S (Z.to_nat (Z.abs nsec / NSEC_PER_SEC))). intros fuel Hf.
  rewrite nsec_down_ok by (done || rewrite Hf; unfold NSEC_PER_SEC in *; lia). case_decide as Hd; cbn [mbind option_bind].
  - rewrite nsec_up_ok by (done || rewrite ?Hf; unfold NSEC_PER_SEC in *; lia). done.
  - pose proof (Z.mod_pos_bound nsec NSEC_PER_SEC ltac:(done)) as Hm.
    rewrite nsec_up_ok by ((by apply swrap_range) || (rewrite ?Hf; unfold NSEC_PER_SEC in *; lia)).
    cbn [mbind option_bind]. rewrite (Z.div_small (nsec mod NSEC_PER_SEC)), Z.mod_mod, Z.add_0_r by done.
    by rewrite s64_small by (by apply swrap_range).
Qed.

Lemma ns_to_timespec_eq nsec : ns_to_timespec nsec = mkTs (nsec / NSEC_PER_SEC) (nsec mod NSEC_PER_SEC).
Proof.
  unfold ns_to_timespec. destruct (decide (nsec = 0)) as [->|Hne]; [done|].
  pose proof (Z.quot_rem' nsec NSEC_PER_SEC) as Hq.
  assert (Z.abs (Z.rem nsec NSEC_PER_SEC) < NSEC_PER_SEC) as Hb by (apply Z.rem_bound_abs; done).
  case_decide as Hd; f_equal.
  - apply Z.div_unique_pos with (r := Z.rem nsec NSEC_PER_SEC + NSEC_PER_SEC); lia.
  - apply Z.mod_unique_pos with (q := Z.quot nsec NSEC_PER_SEC - 1); lia.
  - apply Z.div_unique_pos with (r := Z.rem nsec NSEC_PER_SEC); lia.
  - apply Z.mod_unique_pos with (q := Z.quot nsec NSEC_PER_SEC); lia.
Qed.

(** * The theorems *)

(** C24: For every [time_t] and every offset [time_to_tm] ends and yields a valid
    date: all fields are in their ranges, month and day belong to the day of the
    year, the date is exactly [totalsecs + offset] seconds from the start of 1970
    by the lengths of the years of the Gregorian calendar, and the day of the week
    is counted from Thursday, 1 January 1970. *)
Theorem time_to_tm_correct totalsecs offset (Ht : in_s64 totalsecs) (Ho : in_s32 offset) :
  ∃ r, time_to_tm totalsecs offset = Some r ∧ tm_ok r ∧ tm_secs r = totalsecs + offset ∧
    tm_wday r = (4 + (totalsecs + offset) / SECS_PER_DAY) mod 7.
Proof. by apply time_to_tm_ok. Qed.

(** C25: [mktime] takes back what [time_to_tm] makes of a time, for all dates from
    the year 1 to the year 11000000 (times before 1970 as [unsigned long]s). *)
Theorem mktime_time_to_tm totalsecs offset r
    (Ht : in_s64 totalsecs) (Ho : in_s32 offset) (Hr : time_to_tm totalsecs offset = Some r)
    (Hy : 1 ≤ 1900 + tm_year r ≤ 11000000) :
  mktime (1900 + tm_year r) (tm_mon r + 1) (tm_mday r) (tm_hour r) (tm_min r) (tm_sec r) =
    u64 (totalsecs + offset).
Proof.
  destruct (time_to_tm_ok totalsecs offset Ht Ho) as (r' & E & Hok & Hs & _).
  assert (r' = r) as -> by congruence. clear E Hr.
  destruct Hok as (_ & _ & _ & _ & m & len & Em & Hlen & Hd & Hyd).
  assert ((m < 12)%nat ∧ len ≤ 31) as [Hm Hl].
  { split; [by apply lookup_lt_Some in Hlen|]. unfold month_lens in Hlen.
    repeat (destruct m as [|m]; [injection Hlen as <-; repeat case_decide; lia|]). done. }
  rewrite Em, mktime_ok by lia. rewrite <- Hs. unfold tm_secs. rewrite Hyd. f_equal. lia.
Qed.

(** C36: [set_normalized_timespec] and [ns_to_timespec] always end with a well-formed
    [timespec], nanoseconds from 0 to 999999999, and [ns_to_timeval] with a well-formed
    [timeval], microseconds from 0 to 999999.  The time is the same for
    [ns_to_timespec]; for [set_normalized_timespec] it is the same if the seconds fit,
    and otherwise they wrap to 64 bits; [ns_to_timeval] rounds down to microseconds. *)
Theorem timespec_well_formed sec nsec (Hs : in_s64 sec) (Hn : in_s64 nsec) :
  (∃ ts, set_normalized_timespec sec nsec = Some ts ∧ ts_ok ts ∧
    tv_sec ts = s64 (sec + nsec / NSEC_PER_SEC) ∧ tv_nsec ts = nsec mod NSEC_PER_SEC ∧
    (in_s64 (sec + nsec / NSEC_PER_SEC) → ts_ns ts = sec * NSEC_PER_SEC + nsec)) ∧
  ts_ok (ns_to_timespec nsec) ∧ ts_ns (ns_to_timespec nsec) = nsec ∧
  ∃ s us, ns_to_timeval nsec = (s, us) ∧ in_s64 s ∧ 0 ≤ us < 1000000 ∧ s * 1000000 + us = nsec / 1000.
Proof.
  pose proof (Z.div_mod nsec NSEC_PER_SEC ltac:(done)) as Hdm.
  pose proof (Z.mod_pos_bound nsec NSEC_PER_SEC ltac:(done)) as Hm. split; [|unfold ns_to_timeval; rewrite ns_to_timespec_eq; split_and!].
  - rewrite set_normalized_ok by done. eexists. split; [done|]. split; [split; [by apply swrap_range|done]|].
    split; [done|]. split; [done|]. intros Hfit. unfold ts_ns. cbn [tv_sec tv_nsec]. rewrite s64_small by done. lia.
  - split; [|done]. cbn [tv_sec]. unfold NSEC_PER_SEC in *. width.
  - unfold ts_ns. cbn [tv_sec tv_nsec]. lia.
  - cbn [tv_sec tv_nsec]. rewrite Z.quot_div_nonneg by lia. eexists _, _. split; [done|].
    unfold NSEC_PER_SEC in *. split; [width|]. dlia.
Qed.

(** [timespec_add_safe] of two valid times that are not negative is their sum,
    or, when the sum does not fit, a valid time with [TIME_T_MAX] seconds; it never
    wraps. *)
Theorem timespec_add_safe_saturates lhs rhs
    (Hl : ts_ok lhs) (Hr : ts_ok rhs) (Hl0 : 0 ≤ tv_sec lhs) (Hr0 : 0 ≤ tv_sec rhs) :
  ∃ res, timespec_add_safe lhs rhs = Some res ∧ ts_ok res ∧
    if decide (ts_ns lhs + ts_ns rhs < (TIME_T_MAX + 1) * NSEC_PER_SEC)
    then ts_ns res = ts_ns lhs + ts_ns rhs else tv_sec res = TIME_T_MAX.
Proof.
  destruct Hl as [Hl Hln], Hr as [Hr Hrn]. unfold timespec_add_safe, ts_ns, TIME_T_MAX, NSEC_PER_SEC in *.
  rewrite (s64_small (tv_nsec lhs + tv_nsec rhs)) by width.
  rewrite set_normalized_ok by (by apply swrap_range). cbn [mbind option_bind tv_sec tv_nsec].
  rewrite swrap_add_l. set (n := tv_nsec lhs + tv_nsec rhs) in *. unfold NSEC_PER_SEC.
  pose proof (Z.div_mod n 1000000000 ltac:(done)) as Hdm. pose proof (Z.mod_pos_bound n 1000000000 ltac:(done)) as Hm.
  set (c := n / 1000000000) in *. set (t := tv_sec lhs + tv_sec rhs + c).
  assert (0 ≤ c ≤ 1) as Hc by lia.
  destruct (decide (t < 2 ^ 63)) as [Hfit|Hbig].
  - rewrite (s64_small t) by (unfold t in *; width). rewrite (decide_False (P := _ ∨ _)) by (unfold t; lia).
    eexists. split; [done|]. cbn [tv_sec tv_nsec]. split; [split; cbn; [unfold t in *; width|unfold NSEC_PER_SEC; lia]|].
    rewrite decide_True by (unfold t in *; pow2; lia). unfold t. lia.
  - assert (s64 t = t - 2 ^ 64) as Es.
    { unfold swrap. rewrite <- (Z.mod_unique_pos (t + 2 ^ (64 - 1)) (2 ^ 64) 1 (t - 2 ^ (64 - 1))); unfold t in *; width. }
    rewrite Es, decide_True by (unfold t in *; width).
    eexists. split; [done|]. cbn [tv_sec tv_nsec]. split; [split; cbn; [width|unfold NSEC_PER_SEC; lia]|].
    by rewrite decide_False by (unfold t in *; pow2; lia).
Qed.

(** A time in milliseconds is never cut short, and a number of ticks comes back. *)
Lemma msecs_to_jiffies_up HZ m :
  0 < HZ ≤ 1000 → 0 ≤ m < 2 ^ 31 →
  m ≤ 1000 / HZ * msecs_to_jiffies HZ m < m + 1000 / HZ.
Proof.
  intros Hz Hm. unfold msecs_to_jiffies. rewrite (s32_small m), decide_False by (width || lia).
  assert (0 < 1000 / HZ) as Hq by (apply Z.div_str_pos; lia). set (q := 1000 / HZ) in *.
  pose proof (Z.div_mod (m + q - 1) q ltac:(lia)). pose proof (Z.mod_pos_bound (m + q - 1) q ltac:(lia)). lia.
Qed.

Lemma jiffies_msecs_roundtrip HZ j :
  0 < HZ ≤ 1000 → 0 ≤ j → 1000 / HZ * j < 2 ^ 31 → msecs_to_jiffies HZ (jiffies_to_msecs HZ j) = j.
Proof.
  intros Hz Hj Hb. assert (0 < 1000 / HZ) as Hq by (apply Z.div_str_pos; lia). unfold jiffies_to_msecs.
  rewrite (wrap_small 64), (wrap_small 32) by width.
  pose proof (msecs_to_jiffies_up HZ (1000 / HZ * j) Hz ltac:(nia)) as H. nia.
Qed.

(** * Examples *)

Module TimeDemo.

(** One second before 2000-03-01 00:00:00, and a time before 1970. *)
Definition feb29 : tm := mkTm 59 59 23 29 1 100 2 59.
Definition moon : tm := mkTm 40 17 20 20 6 69 0 200.

Lemma time_to_tm_correct_witness :
  time_to_tm 951868799 0 = Some feb29 ∧ time_to_tm (-14182940) 0 = Some moon ∧ tm_secs moon = -14182940.
Proof.
  split; [by vm_compute|]. split; [by vm_compute|].
  destruct (time_to_tm_correct (-14182940) 0) as (r & E & _ & Hs & _); [width|width|].
  assert (time_to_tm (-14182940) 0 = Some moon) as F by (by vm_compute). rewrite F in E. injection E as <-. exact Hs.
Defined.

Lemma mktime_time_to_tm_witness : mktime 2000 2 29 23 59 59 = 951868799.
Proof. exact (mktime_time_to_tm 951868799 0 feb29 ltac:(width) ltac:(width) ltac:(by vm_compute) ltac:(cbn; lia)). Defined.

Lemma timespec_well_formed_witness :
  set_normalized_timespec 5 (-1) = Some (mkTs 4 999999999) ∧ ts_ns (ns_to_timespec (-1)) = -1.
Proof. split; [by vm_compute|]. apply (timespec_well_formed 5 (-1)); width. Defined.

Lemma timespec_add_safe_saturates_witness :
  ∃ res, timespec_add_safe (mkTs TIME_T_MAX 600000000) (mkTs 0 600000000) = Some res ∧ tv_sec res = TIME_T_MAX.
Proof.
  destruct (timespec_add_safe_saturates (mkTs TIME_T_MAX 600000000) (mkTs 0 600000000)) as (res & E & _ & H);
    [by split; vm_compute|by split; vm_compute|by vm_compute|by vm_compute|].
  exists res. split; [exact E|]. by rewrite decide_False in H by (by vm_compute).
Defined.
(** With 1000 ticks per second, 4294967295 microseconds are 4294968 ticks, far less
    than [MAX_JIFFY_OFFSET]; [usecs_to_jiffies] takes them for an infinite time,
    since [jiffies_to_usecs(MAX_JIFFY_OFFSET)] is cut to 32 bits. *)
Lemma usecs_to_jiffies_infinite :
  usecs_to_jiffies 1000 4294967295 = MAX_JIFFY_OFFSET ∧ usecs_to_jiffies 1000 4294965000 = 4294965.
Proof. split; by vm_compute. Qed.
End TimeDemo.
