(* ===== verification/PidMap.v ===== *)
(** The bitmaps of process ids, kernel/pid.c: [alloc_pidmap], [free_pidmap],
    [next_pidmap] and [set_last_pid].

    A namespace has an array of maps; a map has a page of bits, allocated when it
    is first used, and a counter of its free bits.  A page is the set of its bits
    that are set.  The size of a page ([BITS_PER_PAGE], a power of two) and the
    search for bits of the library (class [FindBit]) are parameters.  The
    theorems: [alloc_pidmap] ends and returns the first free id after the last one
    it gave, going round at [pid_max] to [RESERVED_PIDS], and fails only if a page
    cannot be allocated or every id is taken (with one exception, see
    [alloc_pidmap_skips]); the counters are exact; ids in use are given to nobody
    else. *)

From S2P Require Import Prelude.

Local Open Scope Z_scope.

(** * Pages and maps *)

(** [find_next_zero_bit] and [find_next_bit] of lib/find_next_bit.c: the first bit
    from [off] on that is clear (set), or [size]. *)
Class FindBit := {
  find_next_zero_bit : gset Z → Z → Z → Z;
  find_next_bit : gset Z → Z → Z → Z;
  find_zero_law pg size off : 0 ≤ off ≤ size →
    let r := find_next_zero_bit pg size off in
    off ≤ r ≤ size ∧ (∀ x, off ≤ x < r → x ∈ pg) ∧ (r < size → r ∉ pg);
  find_bit_law pg size off : 0 ≤ off ≤ size →
    let r := find_next_bit pg size off in
    off ≤ r ≤ size ∧ (∀ x, off ≤ x < r → x ∉ pg) ∧ (r < size → r ∈ pg);
}.

Record pidmap := mkMap {
  nr_free : Z;
  page : option (gset Z);
}.

Record pid_maps := mkMaps {
  maps : list pidmap;
  last_pid : Z;
}.

Definition RESERVED_PIDS : Z := 300.

Definition set_map (ns : pid_maps) (m : Z) (mp : pidmap) : pid_maps :=
  mkMaps (<[Z.to_nat m := mp]> (maps ns)) (last_pid ns).

Section pidmap.
Context `{FindBit} (page_order pid_max : Z).

Definition BITS_PER_PAGE : Z := 2 ^ page_order.
Definition BITS_PER_PAGE_MASK : Z := BITS_PER_PAGE - 1.

Definition get_map (ns : pid_maps) (m : Z) : option pidmap :=
  if decide (0 ≤ m) then maps ns !! Z.to_nat m else None.

Definition mk_pid (m off : Z) : Z := m * BITS_PER_PAGE + off.

(** A bit that is cleared in a page that is not there is a fault. *)
Definition free_pidmap (ns : pid_maps) (nr : Z) : option pid_maps :=
  let m := nr / BITS_PER_PAGE in
  let offset := Z.land nr BITS_PER_PAGE_MASK in
  mp ← get_map ns m;
  pg ← page mp;
  Some (set_map ns m (mkMap (nr_free mp + 1) (Some (pg ∖ {[offset]})))).

Definition pid_before (base a b : Z) : bool := bool_decide (u32 (a - base) < u32 (b - base)).

(** The loop of [set_last_pid]: [seen] are the values of [last_pid] that the
    [cmpxchg]s find; the result is the value that is written, if any. *)
Fixpoint set_last_pid (base pid last_write : Z) (seen : list Z) : option (option Z) :=
  match seen with
  | [] => None
  | v :: seen =>
      let prev := last_write in
      let wrote := bool_decide (v = prev) in
      if bool_decide (prev ≠ v) && pid_before base v pid then set_last_pid base pid v seen
      else Some (if wrote then Some pid else None)
  end.

(** The inner loop: the bits of a page from [offset] on; the bit found, with its
    pid, is set by the caller. *)
Fixpoint scan_page (fuel : nat) (pg : gset Z) (m offset pid : Z) : option (option (Z * Z)) :=
  match fuel with
  | O => None
  | S fuel =>
      if decide (offset ∉ pg) then Some (Some (offset, pid))
      else
        let offset := find_next_zero_bit pg BITS_PER_PAGE offset in
        if decide (offset >= BITS_PER_PAGE) then Some None
        else
          let pid := mk_pid m offset in
          if decide (pid >= pid_max) then Some None else scan_page fuel pg m offset pid
  end.

(** The loop over maps, [fuel] rounds; [kzalloc] says whether the allocation of a
    page in a round succeeds.  Nobody else changes the maps meanwhile: the
    [cmpxchg] of [set_last_pid] finds [last]. *)
Fixpoint scan_maps (fuel : nat) (kzalloc : nat → bool) (ns : pid_maps) (last m offset pid : Z)
    : option (pid_maps * Z) :=
  match fuel with
  | O => Some (ns, -1)
  | S fuel' =>
      mp ← get_map ns m;
      let mp := match page mp with
                | None => mkMap (nr_free mp) (if kzalloc fuel' then Some ∅ else None)
                | Some _ => mp
                end in
      let ns := set_map ns m mp in
      match page mp with
      | None => Some (ns, -1)
      | Some pg =>
          found ← (if decide (nr_free mp ≠ 0) then scan_page 2 pg m offset pid else Some None);
          match found with
          | Some (offset, pid) =>
              w ← set_last_pid last pid last [last_pid ns];
              Some (mkMaps (<[Z.to_nat m := mkMap (nr_free mp - 1) (Some ({[offset]} ∪ pg))]> (maps ns))
                      (default (last_pid ns) w), pid)
          | None =>
              if decide (m < (pid_max - 1) / BITS_PER_PAGE)
              then scan_maps fuel' kzalloc ns last (m + 1) 0 (mk_pid (m + 1) 0)
              else if decide (last = RESERVED_PIDS) then Some (ns, -1)
              else scan_maps fuel' kzalloc ns last 0 RESERVED_PIDS (mk_pid 0 RESERVED_PIDS)
          end
      end
  end.

Definition alloc_pidmap (kzalloc : nat → bool) (ns : pid_maps) : option (pid_maps * Z) :=
  let last := last_pid ns in
  let pid := last + 1 in
  let pid := if decide (pid >= pid_max) then RESERVED_PIDS else pid in
  let offset := Z.land pid BITS_PER_PAGE_MASK in
  let m := pid / BITS_PER_PAGE in
  let max_scan := (pid_max + BITS_PER_PAGE - 1) / BITS_PER_PAGE - (if decide (offset = 0) then 1 else 0) in
  scan_maps (Z.to_nat (max_scan + 1)) kzalloc ns last m offset pid.

(** The loop of [next_pidmap] over the [fuel] maps from [m] on. *)
Fixpoint next_map (fuel : nat) (ns : pid_maps) (m offset : Z) : option Z :=
  match fuel with
  | O => Some (-1)
  | S fuel =>
      mp ← get_map ns m;
      match page mp with
      | None => next_map fuel ns (m + 1) 0
      | Some pg =>
          let offset := find_next_bit pg BITS_PER_PAGE offset in
          if decide (offset < BITS_PER_PAGE) then Some (mk_pid m offset) else next_map fuel ns (m + 1) 0
      end
  end.

Definition next_pidmap (PID_MAX_LIMIT : Z) (ns : pid_maps) (last : Z) : option Z :=
  if decide (last >= PID_MAX_LIMIT) then Some (-1)
  else
    let offset := Z.land (last + 1) BITS_PER_PAGE_MASK in
    let m := (last + 1) / BITS_PER_PAGE in
    next_map (length (maps ns) - Z.to_nat m) ns m offset.
End pidmap.

(** * Ids in use *)

Section ids.
Context `{FindBit} (page_order pid_max : Z) (Horder : 0 ≤ page_order).
Local Abbreviation BPP := (BITS_PER_PAGE page_order).
Local Abbreviation mk_pid := (mk_pid page_order).
Local Abbreviation scan_page := (scan_page page_order pid_max).
Local Abbreviation scan_maps := (scan_maps page_order pid_max).
Local Abbreviation alloc_pidmap := (alloc_pidmap page_order pid_max).

Definition in_use (ns : pid_maps) (p : Z) : Prop :=
  0 ≤ p ∧ ∃ mp pg, maps ns !! Z.to_nat (p / BPP) = Some mp ∧ page mp = Some pg ∧ p mod BPP ∈ pg.

(** The bits are within the page, and the counter is exact. *)
Definition map_ok (mp : pidmap) : Prop :=
  match page mp with
  | None => nr_free mp = BPP
  | Some pg => (∀ x, x ∈ pg → 0 ≤ x < BPP) ∧ nr_free mp = BPP - Z.of_nat (size pg)
  end.

Definition maps_ok (ns : pid_maps) : Prop := Forall map_ok (maps ns).

Lemma bpp_pos : 0 < BPP.
Proof using Horder. unfold BITS_PER_PAGE. apply Z.pow_pos_nonneg; lia. Qed.

Lemma mask_mod x : Z.land x (BITS_PER_PAGE_MASK page_order) = x mod BPP.
Proof using Horder.
  unfold BITS_PER_PAGE_MASK, BITS_PER_PAGE. rewrite <- Z.land_ones by done. by rewrite Z.ones_equiv, Z.sub_1_r.
Qed.

Lemma mk_pid_div m x : 0 ≤ x < BPP → mk_pid m x / BPP = m ∧ mk_pid m x mod BPP = x.
Proof using Horder.
  intros Hx. pose proof bpp_pos. unfold PidMap.mk_pid. split.
  - rewrite Z.div_add_l by lia. rewrite (Z.div_small x) by lia. lia.
  - rewrite Z.add_comm, Z.mod_add by lia. by apply Z.mod_small.
Qed.

Lemma mk_pid_eq p : mk_pid (p / BPP) (p mod BPP) = p.
Proof using Horder. pose proof bpp_pos. unfold PidMap.mk_pid. pose proof (Z.div_mod p BPP). lia. Qed.

Lemma in_use_bit ns m x mp pg :
  0 ≤ m → 0 ≤ x < BPP → maps ns !! Z.to_nat m = Some mp → page mp = Some pg →
  in_use ns (mk_pid m x) ↔ x ∈ pg.
Proof using Horder.
  intros Hm Hx Hmp Hpg. unfold in_use. destruct (mk_pid_div m x Hx) as [-> ->]. pose proof bpp_pos.
  assert (0 ≤ mk_pid m x) by (unfold PidMap.mk_pid; nia). split.
  - intros (_ & mp' & pg' & ? & ? & ?). by simplify_eq.
  - intros ?. split; [done|]. by exists mp, pg.
Qed.

(** A page without free bits is full. *)
Lemma full_page (pg : gset Z) :
  (∀ x, x ∈ pg → 0 ≤ x < BPP) → BPP - Z.of_nat (size pg) = 0 → ∀ x, 0 ≤ x < BPP → x ∈ pg.
Proof using.
  intros Hin Hz x Hx. set (all := (list_to_set (seqZ 0 BPP) : gset Z)).
  assert (size all = Z.to_nat BPP) as Hs.
  { unfold all. rewrite size_list_to_set by apply NoDup_seqZ. by rewrite length_seqZ. }
  assert (pg = all) as ->; [|unfold all; rewrite elem_of_list_to_set, elem_of_seqZ; lia].
  apply leibniz_equiv, set_subseteq_size_equiv; [|lia].
  intros y Hy. unfold all. rewrite elem_of_list_to_set, elem_of_seqZ. specialize (Hin y Hy). lia.
Qed.

(** ** One page *)

Lemma scan_page_ok pg m o :
  0 ≤ o < BPP → mk_pid m o < pid_max →
  ∃ res, scan_page 2 pg m o (mk_pid m o) = Some res ∧
    match res with
    | Some (o', p') => p' = mk_pid m o' ∧ o ≤ o' < BPP ∧ o' ∉ pg ∧ p' < pid_max ∧ ∀ x, o ≤ x < o' → x ∈ pg
    | None => ∀ x, o ≤ x < BPP → mk_pid m x < pid_max → x ∈ pg
    end.
Proof using.
  intros Ho Hp. cbn [PidMap.scan_page]. destruct (decide (o ∉ pg)) as [Hf|Hu].
  { eexists. split; [done|]. cbn. split_and!; done || lia. }
  destruct (find_zero_law pg BPP o ltac:(lia)) as (Hr & Hset & Hclear).
  set (r := find_next_zero_bit pg BPP o) in *. case_decide as Hend.
  { exists None. split; [done|]. intros x Hx _. apply Hset. lia. }
  case_decide as Hmax.
  { exists None. split; [done|]. intros x Hx Hxp. apply Hset. unfold PidMap.mk_pid in *. lia. }
  rewrite decide_True by (apply Hclear; lia). eexists. split; [done|]. cbn. split_and!; try lia; [apply Hclear; lia|].
  intros x Hx. apply Hset. lia.
Qed.

(** ** Changes of one map *)

Definition same_ids (ns ns' : pid_maps) : Prop :=
  maps_ok ns' ∧ last_pid ns' = last_pid ns ∧ length (maps ns') = length (maps ns) ∧
  ∀ p, in_use ns' p ↔ in_use ns p.

Lemma same_ids_refl ns : maps_ok ns → same_ids ns ns.
Proof using. intros H0. by split_and!. Qed.

Lemma same_ids_trans ns1 ns2 ns3 : same_ids ns1 ns2 → same_ids ns2 ns3 → same_ids ns1 ns3.
Proof using.
  intros (_ & H1 & H2 & H3) (K0 & K1 & K2 & K3). split_and!; [done|congruence|congruence|].
  intros p. by rewrite K3.
Qed.

(** A fresh page has no bits. *)
Lemma fresh_page_same ns m mp q :
  maps_ok ns → 0 ≤ m → maps ns !! Z.to_nat m = Some mp → page mp = None → (q = None ∨ q = Some ∅) →
  same_ids ns (set_map ns m (mkMap (nr_free mp) q)).
Proof using Horder.
  intros Hok Hm Hmp Hpg Hq. pose proof (lookup_lt_Some _ _ _ Hmp) as Hlt.
  pose proof (Forall_lookup_1 _ _ _ _ Hok Hmp) as Hmo. unfold map_ok in Hmo. rewrite Hpg in Hmo.
  split_and!; [|done|cbn; by rewrite length_insert|].
  - apply Forall_insert; [done|]. unfold map_ok. destruct Hq as [-> | ->]; cbn; [done|].
    split; [set_solver|]. rewrite size_empty. lia.
  - intros p. unfold in_use, set_map. cbn. destruct (decide (Z.to_nat (p / BPP) = Z.to_nat m)) as [E|E].
    + rewrite E, list_lookup_insert_eq by done. rewrite Hmp. split; [|by intros (_ & x & y & ? & ? & _); simplify_eq].
      intros (_ & x & y & ? & Hy & Hin). simplify_eq. cbn in Hy. destruct Hq as [-> | ->]; simplify_eq. set_solver.
    + by rewrite list_lookup_insert_ne by done.
Qed.

(** A bit is set. *)
Lemma set_bit_ids ns m mp pg o l :
  maps_ok ns → 0 ≤ m → maps ns !! Z.to_nat m = Some mp → page mp = Some pg → 0 ≤ o < BPP → o ∉ pg →
  let ns' := mkMaps (<[Z.to_nat m := mkMap (nr_free mp - 1) (Some ({[o]} ∪ pg))]> (maps ns)) l in
  maps_ok ns' ∧ length (maps ns') = length (maps ns) ∧ ¬ in_use ns (mk_pid m o) ∧
  ∀ p, in_use ns' p ↔ in_use ns p ∨ p = mk_pid m o.
Proof using Horder.
  intros Hok Hm Hmp Hpg Ho Hn ns'. pose proof (lookup_lt_Some _ _ _ Hmp) as Hlt. pose proof bpp_pos.
  pose proof (Forall_lookup_1 _ _ _ _ Hok Hmp) as Hmo. unfold map_ok in Hmo. rewrite Hpg in Hmo. destruct Hmo as [Hin Hfree].
  split_and!; [|cbn; by rewrite length_insert|by rewrite (in_use_bit ns m o mp pg)|].
  - apply Forall_insert; [done|]. unfold map_ok. cbn. split; [set_solver|].
    rewrite size_union, size_singleton by set_solver. lia.
  - intros p. destruct (mk_pid_div m o Ho) as [Hd Hmd].
    unfold in_use, ns'. cbn. destruct (decide (0 ≤ p ∧ p / BPP = m)) as [[Hp E]|E].
    + rewrite E, list_lookup_insert_eq by done. rewrite Hmp. split.
      * intros (_ & x & y & ? & Hy & Hiny). simplify_eq. cbn in Hy. simplify_eq.
        apply elem_of_union in Hiny as [Hiny|Hiny]; [right|left; split; [done|by exists mp, pg]].
        apply elem_of_singleton in Hiny. transitivity (mk_pid (p / BPP) (p mod BPP)); [by rewrite mk_pid_eq|by rewrite Hiny].
      * intros [(_ & x & y & ? & ? & ?)|Ep]; (split; [done|]); eexists _, _; (split_and!; [done|done|]); simplify_eq; set_solver.
    + assert (p ≠ mk_pid m o) as Hne by (intros ->; apply E; split; [unfold PidMap.mk_pid; nia|done]).
      assert (0 ≤ p → Z.to_nat (p / BPP) ≠ Z.to_nat m) as Hi.
      { intros Hp Ei. apply E. split; [done|]. assert (0 ≤ p / BPP) by (apply Z.div_pos; lia). lia. }
      split.
      * intros (Hp & x & y & Hx & Hr). left. split; [done|]. exists x, y. by rewrite list_lookup_insert_ne in Hx by (apply not_eq_sym; auto).
      * intros [(Hp & x & y & Hx & Hr)|?]; [|done]. split; [done|]. exists x, y. by rewrite list_lookup_insert_ne by (apply not_eq_sym; auto).
Qed.


(** ** One round of the loop *)

Local Abbreviation last_map := ((pid_max - 1) / BPP).

Definition took (ns ns' : pid_maps) (p : Z) : Prop :=
  maps_ok ns' ∧ length (maps ns') = length (maps ns) ∧ last_pid ns' = p ∧ ¬ in_use ns p ∧
  ∀ q, in_use ns' q ↔ in_use ns q ∨ q = p.

Lemma took_same ns0 ns ns' p : same_ids ns0 ns → took ns ns' p → took ns0 ns' p.
Proof using.
  intros (_ & _ & Hl & Hu) (? & Hl' & ? & Hn & Hu'). split_and!; [done|congruence|done|by rewrite <- Hu|].
  intros q. by rewrite Hu', Hu.
Qed.

Definition next_round (fuel : nat) (kzalloc : nat → bool) (ns : pid_maps) (last m : Z) : option (pid_maps * Z) :=
  if decide (m < last_map) then scan_maps fuel kzalloc ns last (m + 1) 0 (mk_pid (m + 1) 0)
  else if decide (last = RESERVED_PIDS) then Some (ns, -1)
  else scan_maps fuel kzalloc ns last 0 RESERVED_PIDS (mk_pid 0 RESERVED_PIDS).

(** What a round does, the map being [mp]. *)
Lemma round_eq k (kz : nat → bool) ns m o mp :
  0 ≤ m → maps ns !! Z.to_nat m = Some mp →
  let mp1 := match page mp with None => mkMap (nr_free mp) (if kz k then Some ∅ else None) | Some _ => mp end in
  let ns1 := set_map ns m mp1 in
  scan_maps (S k) kz ns (last_pid ns) m o (mk_pid m o) =
  match page mp1 with
  | None => Some (ns1, -1)
  | Some pg =>
      found ← ((if decide (nr_free mp1 ≠ 0) then scan_page 2 pg m o (mk_pid m o) else Some None) : option (option (Z * Z)));
      match found with
      | Some (o', p') => Some (mkMaps (<[Z.to_nat m := mkMap (nr_free mp1 - 1) (Some ({[o']} ∪ pg))]> (maps ns1)) p', p')
      | None => next_round k kz ns1 (last_pid ns) m
      end
  end.
Proof using.
  intros Hm Hmp mp1 ns1. cbn [PidMap.scan_maps]. unfold get_map. rewrite decide_True by lia. rewrite Hmp.
  cbn [mbind option_bind]. fold mp1 ns1. destruct (page mp1); [|done].
  destruct (if decide (nr_free mp1 ≠ 0) then scan_page 2 _ m o (mk_pid m o) else Some None) as [[[o' p']|]|];
    cbn [mbind option_bind]; [|done|done].
  cbn [set_last_pid]. unfold ns1 at 1 2. cbn [set_map last_pid]. rewrite !bool_decide_eq_false_2 by auto.
  by rewrite bool_decide_eq_true_2.
Qed.

Lemma round_ok k kz ns m o :
  maps_ok ns → 0 ≤ m < Z.of_nat (length (maps ns)) → 0 ≤ o < BPP → mk_pid m o < pid_max →
  let r := scan_maps (S k) kz ns (last_pid ns) m o (mk_pid m o) in
  (∃ ns', r = Some (ns', -1) ∧ same_ids ns ns' ∧ kz k = false) ∨
  (∃ ns' p, r = Some (ns', p) ∧ took ns ns' p ∧ mk_pid m o ≤ p < pid_max ∧
     ∀ q, mk_pid m o ≤ q < p → in_use ns q) ∨
  (∃ ns', same_ids ns ns' ∧ r = next_round k kz ns' (last_pid ns) m ∧
     ∀ q, mk_pid m o ≤ q < mk_pid (m + 1) 0 → q < pid_max → in_use ns q).
Proof using Horder.
  intros Hok Hm Ho Hp r. destruct (lookup_lt_is_Some_2 (maps ns) (Z.to_nat m) ltac:(lia)) as [mp Hmp].
  set (mp1 := match page mp with None => mkMap (nr_free mp) (if kz k then Some ∅ else None) | Some _ => mp end).
  set (ns1 := set_map ns m mp1).
  assert (same_ids ns ns1) as Hs1.
  { unfold ns1, mp1. destruct (page mp) eqn:Epg.
    - unfold set_map. rewrite list_insert_id by done. destruct ns. by apply same_ids_refl.
    - apply fresh_page_same; try done; [lia|]. destruct (kz k); auto. }
  assert (maps ns1 !! Z.to_nat m = Some mp1) as Hmp1.
  { unfold ns1, set_map. cbn. apply list_lookup_insert_eq. lia. }
  unfold r. rewrite (round_eq k kz ns m o mp) by (done || lia). clear r. fold mp1 ns1.
  destruct (page mp1) as [pg|] eqn:Epg.
  2:{ left. exists ns1. split_and!; [done|done|]. unfold mp1 in Epg. destruct (page mp) eqn:E; [congruence|].
      cbn in Epg. by destruct (kz k). }
  right. pose proof Hs1 as (Hok1 & _ & _ & Hu1).
  pose proof (Forall_lookup_1 _ _ _ _ Hok1 Hmp1) as Hmo. unfold map_ok in Hmo. rewrite Epg in Hmo.
  destruct Hmo as [Hin Hfree]. assert (∀ q, mk_pid m o ≤ q < mk_pid (m + 1) 0 →
    ∃ x, q = mk_pid m x ∧ o ≤ x < BPP ∧ (in_use ns q ↔ x ∈ pg)) as Hrange.
  { intros q Hq. exists (q - m * BPP). unfold PidMap.mk_pid in Hq.
    assert (q = mk_pid m (q - m * BPP)) as Eq by (unfold PidMap.mk_pid; lia). split_and!; [done|lia|lia|].
    rewrite <- Hu1, Eq at 1. apply (in_use_bit ns1 m _ mp1 pg); try done; lia. }
  case_decide as Hz; cbn [mbind option_bind].
  - destruct (scan_page_ok pg m o Ho Hp) as (res & -> & Hres). cbn [mbind option_bind]. destruct res as [[o' p']|].
    + left. destruct Hres as (-> & Ho' & Hfr & Hlt & Hused). eexists _, _. split; [done|].
      destruct (set_bit_ids ns1 m mp1 pg o' (mk_pid m o') Hok1 ltac:(lia) Hmp1 Epg ltac:(lia) Hfr) as (? & ? & ? & ?).
      split_and!; [by apply (took_same _ ns1)|unfold PidMap.mk_pid; lia|done|].
      intros q Hq. destruct (Hrange q) as (x & -> & ? & ->); [unfold PidMap.mk_pid in *; lia|].
      apply Hused. unfold PidMap.mk_pid in *. lia.
    + right. exists ns1. split_and!; [done|done|]. intros q Hq Hqm. destruct (Hrange q Hq) as (x & -> & ? & ->).
      by apply Hres.
  - right. exists ns1. split_and!; [done|done|]. intros q Hq Hqm. destruct (Hrange q Hq) as (x & -> & ? & ->).
    apply full_page; [done| |lia]. lia.
Qed.

(** ** The rounds *)

Lemma last_map_max m : m ≤ last_map → mk_pid m 0 < pid_max.
Proof using Horder.
  pose proof bpp_pos. intros Hm. pose proof (Z.mul_div_le (pid_max - 1) BPP ltac:(lia)). unfold PidMap.mk_pid. nia.
Qed.

Lemma last_map_end : pid_max ≤ mk_pid (last_map + 1) 0.
Proof using Horder.
  pose proof bpp_pos. pose proof (Z.mul_succ_div_gt (pid_max - 1) BPP ltac:(lia)). unfold PidMap.mk_pid. lia.
Qed.

Section scan.
Context (kz : nat → bool) (ns0 : pid_maps).
Context (Hmax : RESERVED_PIDS < pid_max) (Hbpp : RESERVED_PIDS < BPP).
Context (Hlen : last_map < Z.of_nat (length (maps ns0))) (Hok0 : maps_ok ns0).
Local Abbreviation last := (last_pid ns0).

(** Where the search starts. *)
Definition start_pid : Z := if decide (last + 1 >= pid_max) then RESERVED_PIDS else last + 1.

(** The ids of [lo, hi) are in use. *)
Definition all_used (lo hi : Z) : Prop := ∀ q, lo ≤ q < hi → in_use ns0 q.

(** [p] is the first free id from [start_pid] on, the ids from [RESERVED_PIDS] on
    following the last one. *)
Definition first_free (p : Z) : Prop :=
  ¬ in_use ns0 p ∧
  (start_pid ≤ p < pid_max ∧ all_used start_pid p ∨
   last ≠ RESERVED_PIDS ∧ RESERVED_PIDS ≤ p < start_pid ∧ all_used start_pid pid_max ∧ all_used RESERVED_PIDS p).

Definition exhausted : Prop :=
  all_used start_pid pid_max ∧ (last = RESERVED_PIDS ∨ all_used RESERVED_PIDS pid_max).

Definition alloc_result (r : option (pid_maps * Z)) : Prop :=
  (∃ ns' p, r = Some (ns', p) ∧ took ns0 ns' p ∧ first_free p) ∨
  (∃ ns', r = Some (ns', -1) ∧ same_ids ns0 ns' ∧ ((∃ i, kz i = false) ∨ exhausted)).

Lemma all_used_app lo mid hi : all_used lo mid → all_used mid hi → all_used lo hi.
Proof using pid_max. intros H1 H2 q Hq. destruct (decide (q < mid)); [apply H1|apply H2]; lia. Qed.

(** After the wrap: [k] rounds are left, enough to get to the start. *)
Lemma scan_wrapped k : ∀ ns m o,
  same_ids ns0 ns → last ≠ RESERVED_PIDS → 0 ≤ m ≤ last_map → o = (if decide (m = 0) then RESERVED_PIDS else 0) →
  start_pid ≤ mk_pid (m + Z.of_nat k) 0 → m + Z.of_nat k ≤ last_map + 1 →
  all_used start_pid pid_max → all_used RESERVED_PIDS (mk_pid m o) →
  alloc_result (scan_maps k kz ns last m o (mk_pid m o)).
Proof using Hbpp Hlen Hmax Horder.
  induction k as [|k IH]; intros ns m o Hs Hl Hm Ho Hst Hk Htop Hlow.
  { right. exists ns. split_and!; [done|done|]. right. split; [done|right].
    apply (all_used_app _ (mk_pid m o)); [done|]. intros q Hq. apply Htop.
    unfold PidMap.mk_pid in *. repeat case_decide; unfold RESERVED_PIDS in *; lia. }
  pose proof Hs as (Hok & Hlast & Hlength & Hu). rewrite <- Hlast.
  assert (mk_pid m o < pid_max) as Hp.
  { pose proof (last_map_max m ltac:(lia)). case_decide; subst; unfold PidMap.mk_pid in *; lia. }
  destruct (round_ok k kz ns m o Hok ltac:(lia) ltac:(unfold RESERVED_PIDS in *; case_decide; lia) Hp)
    as [(ns' & -> & Hs' & Hkz)|[(ns' & p & -> & Ht & Hpr & Hused)|(ns' & Hs' & -> & Hused)]].
  - right. exists ns'. split_and!; [done|by eapply same_ids_trans|]; left. by exists k.
  - left. exists ns', p. pose proof Ht as (_ & _ & _ & Hfr & _). rewrite Hu in Hfr. split_and!; [done|by eapply took_same|]. split; [done|].
    right. assert (¬ (start_pid ≤ p)) by (intros ?; apply Hfr, Htop; lia).
    assert (RESERVED_PIDS ≤ mk_pid m o) by (unfold PidMap.mk_pid; case_decide; subst; [lia|nia]).
    split_and!; [done|lia|lia|done|]. apply (all_used_app _ (mk_pid m o)); [done|].
    intros q Hq. apply Hu, Hused. lia.
  - assert (all_used (mk_pid m o) (Z.min (mk_pid (m + 1) 0) pid_max)) as Hpage.
    { intros q Hq. apply Hu, Hused; lia. }
    pose proof (same_ids_trans _ _ _ Hs Hs') as Hs2. unfold next_round. rewrite Hlast. destruct (decide (m < last_map)) as [Hml|Hml].
    + apply IH; try done; try lia; [by rewrite decide_False by lia|by replace (m + 1 + Z.of_nat k) with (m + Z.of_nat (S k)) by lia|].
      apply (all_used_app _ (mk_pid m o)); [done|]. pose proof (last_map_max (m + 1) ltac:(lia)).
      by rewrite Z.min_l in Hpage by lia.
    + rewrite decide_False by done. assert (m = last_map) by lia. assert (k = 0%nat) as -> by lia.
      right. exists ns'. split_and!; [done|done|]. right. split; [done|right].
      apply (all_used_app _ (mk_pid m o)); [done|]. pose proof last_map_end.
      subst m. by rewrite Z.min_r in Hpage by lia.
Qed.

(** Before the wrap. *)
Lemma scan_from_start k : ∀ ns m o,
  same_ids ns0 ns → 0 ≤ m ≤ last_map → 0 ≤ o < BPP → mk_pid m o < pid_max →
  last_map - m < Z.of_nat k → m + Z.of_nat k ≤ last_map + 1 + (last_map + 1) →
  start_pid ≤ mk_pid (m + Z.of_nat k - (last_map + 1)) 0 →
  start_pid ≤ mk_pid m o → all_used start_pid (mk_pid m o) →
  alloc_result (scan_maps k kz ns last m o (mk_pid m o)).
Proof using Hbpp Hlen Hmax Horder.
  induction k as [|k IH]; intros ns m o Hs Hm Ho Hp Hk Hk' Hend Hst Hlow; [lia|].
  pose proof Hs as (Hok & Hlast & Hlength & Hu). rewrite <- Hlast.
  destruct (round_ok k kz ns m o Hok ltac:(lia) Ho Hp)
    as [(ns' & -> & Hs' & Hkz)|[(ns' & p & -> & Ht & Hpr & Hused)|(ns' & Hs' & -> & Hused)]].
  - right. exists ns'. split_and!; [done|by eapply same_ids_trans|]. left. by exists k.
  - left. exists ns', p. pose proof Ht as (_ & _ & _ & Hfr & _). rewrite Hu in Hfr.
    split_and!; [done|by eapply took_same|]. split; [done|]. left. split; [lia|].
    apply (all_used_app _ (mk_pid m o)); [done|]. intros q Hq. apply Hu, Hused. lia.
  - assert (all_used start_pid (Z.min (mk_pid (m + 1) 0) pid_max)) as Hpage.
    { apply (all_used_app _ (mk_pid m o)); [done|]. intros q Hq. apply Hu, Hused; lia. }
    pose proof (same_ids_trans _ _ _ Hs Hs') as Hs2. unfold next_round. rewrite Hlast.
    destruct (decide (m < last_map)) as [Hml|Hml].
    + pose proof (last_map_max (m + 1) ltac:(lia)) as Hm1. rewrite Z.min_l in Hpage by lia.
      apply IH; try done; try lia; [|unfold PidMap.mk_pid in *; lia].
      by replace (m + 1 + Z.of_nat k - (last_map + 1)) with (m + Z.of_nat (S k) - (last_map + 1)) by lia.
    + pose proof last_map_end. assert (m = last_map) as -> by lia. rewrite Z.min_r in Hpage by lia.
      destruct (decide (last = RESERVED_PIDS)) as [E|E].
      { right. exists ns'. split_and!; [done|done|]. right. split; [done|by left]. }
      apply scan_wrapped; try done; try lia.
      * by replace (0 + Z.of_nat k) with (last_map + Z.of_nat (S k) - (last_map + 1)) by lia.
      * intros q Hq. unfold PidMap.mk_pid, RESERVED_PIDS in Hq. lia.
Qed.

Lemma alloc_pidmap_result : 0 ≤ last → alloc_result (alloc_pidmap kz ns0).
Proof using Hbpp Hlen Hmax Hok0 Horder.
  intros Hl. pose proof bpp_pos. unfold PidMap.alloc_pidmap. fold start_pid. rewrite mask_mod.
  assert (0 ≤ start_pid < pid_max) as Hst by (unfold start_pid, RESERVED_PIDS in *; case_decide; lia).
  set (m0 := start_pid / BPP). set (o0 := start_pid mod BPP).
  assert (mk_pid m0 o0 = start_pid) as E by apply mk_pid_eq. pose proof (Z.mod_pos_bound start_pid BPP ltac:(lia)) as Ho.
  fold o0 in Ho. assert (0 ≤ m0 ≤ last_map) as Hm.
  { split; [apply Z.div_pos; lia|]. apply Z.div_le_mono; lia. }
  replace (pid_max + BPP - 1) with (pid_max - 1 + 1 * BPP) by lia. rewrite Z.div_add by lia.
  rewrite <- E at 1. apply scan_from_start; try done; try lia.
  - case_decide; lia.
  - case_decide; lia.
  - rewrite <- E at 1. unfold PidMap.mk_pid. case_decide; nia.
  - intros q Hq. lia.
Qed.
End scan.

(** ** Walking and freeing *)

Lemma free_pidmap_ok ns p :
  maps_ok ns → in_use ns p →
  ∃ ns', free_pidmap page_order ns p = Some ns' ∧ maps_ok ns' ∧ last_pid ns' = last_pid ns ∧
    length (maps ns') = length (maps ns) ∧ ∀ q, in_use ns' q ↔ in_use ns q ∧ q ≠ p.
Proof using Horder.
  intros Hok (Hp & mp & pg & Hmp & Hpg & Hin). pose proof bpp_pos as Hb. unfold free_pidmap, get_map.
  rewrite mask_mod, decide_True by (apply Z.div_pos; lia). rewrite Hmp. cbn [mbind option_bind]. rewrite Hpg.
  cbn [mbind option_bind]. eexists. split; [done|]. pose proof (lookup_lt_Some _ _ _ Hmp) as Hlt.
  pose proof (Forall_lookup_1 _ _ _ _ Hok Hmp) as Hmo. unfold map_ok in Hmo. rewrite Hpg in Hmo. destruct Hmo as [Hbits Hfree].
  split_and!; [|done|cbn; by rewrite length_insert|].
  - apply Forall_insert; [done|]. unfold map_ok. cbn. split; [set_solver|].
    assert (size pg = S (size (pg ∖ {[p mod BPP]}))) as Hsz; [|lia].
    replace pg with ({[p mod BPP]} ∪ pg ∖ {[p mod BPP]}) at 1
      by (apply leibniz_equiv; symmetry; apply union_difference; set_solver).
    rewrite size_union, size_singleton by set_solver. done.
  - intros q. unfold in_use, set_map. cbn. destruct (decide (0 ≤ q ∧ q / BPP = p / BPP)) as [[Hq E]|E].
    + rewrite E, list_lookup_insert_eq, Hmp by done. split.
      * intros (_ & x & y & ? & Hy & Hiny). simplify_eq. cbn in Hy. simplify_eq. split; [|set_solver].
        split; [done|]. eexists _, _. split_and!; [done|done|set_solver].
      * intros [(_ & x & y & ? & ? & ?) Hne]. simplify_eq. split; [done|]. eexists _, _. split_and!; [done|done|].
        apply elem_of_difference. split; [done|]. rewrite elem_of_singleton. intros E'. apply Hne.
        rewrite <- (mk_pid_eq q), <- (mk_pid_eq p). by rewrite E, E'.
    + assert (0 ≤ q → Z.to_nat (q / BPP) ≠ Z.to_nat (p / BPP)) as Hi.
      { intros Hq Ei. apply E. split; [done|]. pose proof (Z.div_pos q BPP). pose proof (Z.div_pos p BPP). lia. }
      split.
      * intros (Hq & x & y & Hx & Hr). rewrite list_lookup_insert_ne in Hx by (apply not_eq_sym; auto).
        split; [split; [done|by exists x, y]|]. intros ->. by apply E.
      * intros [(Hq & x & y & Hx & Hr) _]. split; [done|]. exists x, y. by rewrite list_lookup_insert_ne by (apply not_eq_sym; auto).
Qed.

(** [r] is the first id in use from [lo] on, or -1. *)
Definition next_used (ns : pid_maps) (lo r : Z) : Prop :=
  (r = -1 ∧ ∀ q, lo ≤ q → ¬ in_use ns q) ∨
  (lo ≤ r ∧ in_use ns r ∧ ∀ q, lo ≤ q < r → ¬ in_use ns q).

Lemma next_used_skip ns lo hi r :
  (∀ q, lo ≤ q < hi → ¬ in_use ns q) → lo ≤ hi → next_used ns hi r → next_used ns lo r.
Proof using.
  intros Hskip Hle [[-> Hn]|(Hr & Hu & Hn)]; [left; split; [done|]|right; split_and!; [lia|done|]];
    intros q Hq; (destruct (decide (q < hi)); [apply Hskip; lia|apply Hn; lia]).
Qed.

Lemma next_map_ok fuel : ∀ ns m o,
  0 ≤ m → 0 ≤ o < BPP → fuel = (length (maps ns) - Z.to_nat m)%nat →
  ∃ r, next_map page_order fuel ns m o = Some r ∧ next_used ns (mk_pid m o) r.
Proof using Horder.
  induction fuel as [|fuel IH]; intros ns m o Hm Ho Hf; pose proof bpp_pos as Hb.
  { exists (-1). split; [done|]. left. split; [done|]. intros q Hq (Hq0 & mp & pg & Hmp & _).
    apply lookup_lt_Some in Hmp. assert (m ≤ q / BPP); [|lia].
    apply Z.div_le_lower_bound; [lia|]. unfold PidMap.mk_pid in Hq. nia. }
  cbn [next_map]. unfold get_map. rewrite decide_True by lia.
  destruct (lookup_lt_is_Some_2 (maps ns) (Z.to_nat m) ltac:(lia)) as [mp Hmp]. rewrite Hmp. cbn [mbind option_bind].
  assert (∀ q, mk_pid m o ≤ q < mk_pid (m + 1) 0 → q = mk_pid m (q - m * BPP) ∧ o ≤ q - m * BPP < BPP) as Hq.
  { unfold PidMap.mk_pid. lia. }
  assert (mk_pid m o ≤ mk_pid (m + 1) 0) by (unfold PidMap.mk_pid; nia).
  destruct (IH ns (m + 1) 0 ltac:(lia) ltac:(lia) ltac:(lia)) as (r & Hr & Hnext).
  destruct (page mp) as [pg|] eqn:Epg.
  - destruct (find_bit_law pg BPP o ltac:(lia)) as (Hrange & Hclear & Hset).
    set (x := find_next_bit pg BPP o) in *. case_decide as Hx.
    + eexists. split; [done|]. right. split_and!; [unfold PidMap.mk_pid; lia|by apply (in_use_bit ns m x mp pg); [lia..|done|done|apply Hset]|].
      intros q Hqr. destruct (Hq q) as [Eq ?]; [unfold PidMap.mk_pid in *; lia|]. rewrite Eq.
      rewrite (in_use_bit ns m _ mp pg) by (done || lia). apply Hclear. unfold PidMap.mk_pid in Hqr. lia.
    + exists r. split; [done|]. apply (next_used_skip ns _ (mk_pid (m + 1) 0)); [|done|done].
      intros q Hqr. destruct (Hq q Hqr) as [Eq ?]. rewrite Eq. rewrite (in_use_bit ns m _ mp pg) by (done || lia). apply Hclear. lia.
  - exists r. split; [done|]. apply (next_used_skip ns _ (mk_pid (m + 1) 0)); [|done|done].
    intros q Hqr (_ & mp' & pg' & Hmp' & Hpg' & _). destruct (Hq q Hqr) as [Eq ?].
    rewrite Eq in Hmp'. rewrite (proj1 (mk_pid_div m (q - m * BPP) ltac:(lia))) in Hmp'. congruence.
Qed.

(** The walk over the ids in use: [next_pidmap] gives the next one. *)
Theorem next_pidmap_correct limit ns last :
  0 ≤ last → (∀ q, in_use ns q → q < limit) →
  ∃ r, next_pidmap page_order limit ns last = Some r ∧ next_used ns (last + 1) r.
Proof using Horder.
  intros Hl Hlim. pose proof bpp_pos as Hb. unfold next_pidmap. case_decide as Hd.
  { exists (-1). split; [done|]. left. split; [done|]. intros q Hq Hin. specialize (Hlim q Hin). lia. }
  rewrite mask_mod. destruct (next_map_ok (length (maps ns) - Z.to_nat ((last + 1) / BPP)) ns ((last + 1) / BPP) ((last + 1) mod BPP))
    as (r & Hr & Hn); [apply Z.div_pos; lia|apply Z.mod_pos_bound; lia|done|].
  rewrite mk_pid_eq in Hn. by exists r.
Qed.
End ids.

(** C15: [alloc_pidmap] ends.  It gives the first id that is free, counted from the one
    after [last_pid], with the ids from [RESERVED_PIDS] on after the last one below
    [pid_max]; marks it, and only it, as in use; keeps the counters of free bits
    exact; and remembers it as the last one.  It fails only if a page cannot be
    allocated or no id is free (or only [RESERVED_PIDS], if that is the last one),
    and then changes no id. *)
Theorem alloc_pidmap_first_free `{FindBit} page_order pid_max kz ns :
  0 ≤ page_order → RESERVED_PIDS < pid_max → RESERVED_PIDS < BITS_PER_PAGE page_order →
  (pid_max - 1) / BITS_PER_PAGE page_order < Z.of_nat (length (maps ns)) →
  maps_ok page_order ns → 0 ≤ last_pid ns →
  let start := if decide (last_pid ns + 1 >= pid_max) then RESERVED_PIDS else last_pid ns + 1 in
  let used := in_use page_order in
  ∃ ns' p, alloc_pidmap page_order pid_max kz ns = Some (ns', p) ∧
    maps_ok page_order ns' ∧ length (maps ns') = length (maps ns) ∧
    ((¬ used ns p ∧ last_pid ns' = p ∧ (∀ q, used ns' q ↔ used ns q ∨ q = p) ∧
      (start ≤ p < pid_max ∧ (∀ q, start ≤ q < p → used ns q) ∨
       last_pid ns ≠ RESERVED_PIDS ∧ RESERVED_PIDS ≤ p < start ∧ (∀ q, start ≤ q < pid_max → used ns q) ∧
         ∀ q, RESERVED_PIDS ≤ q < p → used ns q)) ∨
     (p = -1 ∧ last_pid ns' = last_pid ns ∧ (∀ q, used ns' q ↔ used ns q) ∧
      ((∃ i, kz i = false) ∨
       (∀ q, start ≤ q < pid_max → used ns q) ∧
         (last_pid ns = RESERVED_PIDS ∨ ∀ q, RESERVED_PIDS ≤ q < pid_max → used ns q)))).
Proof.
  intros Ho Hmax Hbpp Hlen Hok Hl. cbv zeta.
  destruct (alloc_pidmap_result page_order pid_max Ho kz ns Hmax Hbpp Hlen Hok Hl)
    as [(ns' & p & Ha & (Hok' & Hlen' & Hlast & Hn & Hu) & _ & Hff)|(ns' & Ha & (Hok' & Hlast & Hlen' & Hu) & Hex)].
  - exists ns', p. split_and!; [done|done|done|]. left. split_and!; [done|done|done|]. exact Hff.
  - exists ns', (-1). split_and!; [done|done|done|]. right. split_and!; [done|done|done|]. exact Hex.
Qed.

(** If the last id given is [RESERVED_PIDS] and all ids above it are taken, the search
    does not come back to [RESERVED_PIDS], free or not. *)
Theorem alloc_pidmap_skips `{FindBit} page_order pid_max kz ns :
  0 ≤ page_order → RESERVED_PIDS + 1 < pid_max → RESERVED_PIDS < BITS_PER_PAGE page_order →
  (pid_max - 1) / BITS_PER_PAGE page_order < Z.of_nat (length (maps ns)) →
  maps_ok page_order ns → last_pid ns = RESERVED_PIDS →
  (∀ q, RESERVED_PIDS < q < pid_max → in_use page_order ns q) →
  ∃ ns', alloc_pidmap page_order pid_max kz ns = Some (ns', -1).
Proof.
  intros Ho Hmax Hbpp Hlen Hok Hl Hall.
  assert (start_pid pid_max ns = RESERVED_PIDS + 1) as Hst by (unfold start_pid; rewrite Hl; by rewrite decide_False by lia).
  destruct (alloc_pidmap_result page_order pid_max Ho kz ns ltac:(lia) Hbpp Hlen Hok ltac:(by rewrite Hl))
    as [(ns' & p & Ha & _ & Hn & Hff)|(ns' & Ha & _)]; [|by exists ns'].
  destruct Hn. apply Hall. rewrite Hst in Hff. destruct Hff as [[? _]|[? _]]; [lia|congruence].
Qed.

(** The compare-and-exchange loop never puts an earlier id over a later one: what it
    overwrites is [base] or comes before [pid], and if it gives up it has seen an id
    that does not come before [pid].  It ends as soon as the value it finds is the
    one it found before. *)
Theorem set_last_pid_later base pid seen : ∀ prev res,
  (prev = base ∨ pid_before base prev pid) → set_last_pid base pid prev seen = Some res →
  match res with
  | Some w => w = pid ∧ ∃ v, v ∈ seen ∧ (v = base ∨ pid_before base v pid)
  | None => ∃ v, v ∈ seen ∧ pid_before base v pid = false
  end.
Proof.
  induction seen as [|v seen IH]; intros prev res Hprev Hs; [done|]. cbn in Hs.
  destruct (bool_decide (prev ≠ v) && pid_before base v pid) eqn:E.
  - apply andb_true_iff in E as [_ E]. specialize (IH v res ltac:(right; by rewrite E) Hs). destruct res as [w|].
    + destruct IH as (-> & u & Hu & Hb). split; [done|]. exists u. split; [set_solver|done].
    + destruct IH as (u & Hu & Hb). exists u. split; [set_solver|done].
  - injection Hs as <-. destruct (decide (v = prev)) as [Hv|Hv];
      [rewrite (bool_decide_eq_true_2 _ Hv)|rewrite (bool_decide_eq_false_2 _ Hv)].
    + split; [done|]. exists v. split; [set_solver|]. by subst.
    + exists v. split; [set_solver|]. apply andb_false_iff in E as [E|E]; [|done].
      apply bool_decide_eq_false_1 in E. destruct E. congruence.
Qed.

(** * A concrete search for bits *)

Module FindDemo.

Definition first (f : Z → bool) (size off : Z) : Z :=
  default size (List.find f (seqZ off (size - off))).

Lemma find_seqZ f n : ∀ a,
  match List.find f (seqZ a (Z.of_nat n)) with
  | Some r => a ≤ r < a + Z.of_nat n ∧ f r = true ∧ ∀ x, a ≤ x < r → f x = false
  | None => ∀ x, a ≤ x < a + Z.of_nat n → f x = false
  end.
Proof.
  induction n as [|n IH]; intros a; [intros x Hx; lia|].
  rewrite seqZ_cons by lia. replace (Z.pred (Z.of_nat (S n))) with (Z.of_nat n) by lia. cbn [List.find].
  destruct (f a) eqn:E; [split_and!; [lia|lia|done|intros x Hx; lia]|].
  specialize (IH (Z.succ a)). destruct (List.find f _) as [r|].
  - destruct IH as (? & ? & Hb). split_and!; [lia|lia|done|]. intros x Hx. destruct (decide (x = a)) as [->|]; [done|apply Hb; lia].
  - intros x Hx. destruct (decide (x = a)) as [->|]; [done|apply IH; lia].
Qed.

Lemma first_spec f size off : 0 ≤ off ≤ size →
  off ≤ first f size off ≤ size ∧ (∀ x, off ≤ x < first f size off → f x = false) ∧
  (first f size off < size → f (first f size off) = true).
Proof.
  intros Ho. unfold first. pose proof (find_seqZ f (Z.to_nat (size - off)) off) as Hf. rewrite Z2Nat.id in Hf by lia.
  destruct (List.find f _) as [r|]; cbn.
  - destruct Hf as (? & ? & ?). split_and!; [lia|lia|done|done].
  - split_and!; [lia|lia|intros x Hx; apply Hf; lia|lia].
Qed.

#[export] Instance find_bit : FindBit.
Proof.
  refine {| find_next_zero_bit pg := first (λ x, bool_decide (x ∉ pg)); find_next_bit pg := first (λ x, bool_decide (x ∈ pg)) |}.
  - intros pg size off Ho. destruct (first_spec (λ x, bool_decide (x ∉ pg)) size off Ho) as (? & Hb & Ht). split_and!; [lia|lia| |].
    + intros x Hx. specialize (Hb x Hx). apply bool_decide_eq_false in Hb. by apply dec_stable.
    + intros Hr. specialize (Ht Hr). by apply bool_decide_eq_true in Ht.
  - intros pg size off Ho. destruct (first_spec (λ x, bool_decide (x ∈ pg)) size off Ho) as (? & Hb & Ht). split_and!; [lia|lia| |].
    + intros x Hx. specialize (Hb x Hx). by apply bool_decide_eq_false in Hb.
    + intros Hr. specialize (Ht Hr). by apply bool_decide_eq_true in Ht.
Defined.

(** Two maps of 512 ids, of which 600 are given out; 0, 598 and 599 are taken. *)
Definition demo : pid_maps :=
  mkMaps [mkMap 511 (Some {[0]}); mkMap 510 (Some {[86; 87]})] 597.

Lemma demo_ok : maps_ok 9 demo.
Proof.
  unfold maps_ok, demo. cbn [maps].
  constructor; [|constructor; [|constructor]]; unfold map_ok; cbn [page nr_free];
    change (BITS_PER_PAGE 9) with 512; (split; [|vm_compute; reflexivity]); intros x Hx.
  - apply elem_of_singleton in Hx as ->. lia.
  - apply elem_of_union in Hx as [Hx|Hx]; apply elem_of_singleton in Hx as ->; lia.
Qed.

(** The search goes round the end. *)
Example demo_wraps : (λ x, (last_pid x.1, x.2)) <$> alloc_pidmap 9 600 (λ _, true) demo = Some (300, 300).
Proof. vm_compute. reflexivity. Qed.

Lemma alloc_pidmap_first_free_witness :
  ∃ ns' p, alloc_pidmap 9 600 (λ _, true) demo = Some (ns', p) ∧ maps_ok 9 ns'.
Proof.
  destruct (alloc_pidmap_first_free 9 600 (λ _, true) demo ltac:(lia) ltac:(done) ltac:(done) ltac:(done) demo_ok ltac:(done))
    as (ns' & p & Ha & Hok & _).
  exists ns', p. split; [exact Ha|exact Hok].
Defined.

End FindDemo.
