(* ===== verification/PidNs.v ===== *)
(** Process ids and their namespaces, kernel/pid.c: [alloc_pid], [free_pid],
    [find_pid_ns], [find_ge_pid], [pid_nr_ns] and [disable_pid_allocation], with
    [create_pid_namespace] and [copy_pid_ns] of kernel/pid_namespace.c.

    A process has a number in its namespace and in each namespace above it.  The
    numbers of a namespace come from a pool, of which this file knows what the
    class [IdPool] promises; the maps of [PidMap] are one.  Namespaces and ids are
    found by their addresses (natural numbers), and what the code asks of others
    (wake-ups, work items, RCU callbacks) is a list of events.

    The theorems: in every reachable state the ids in use are the numbers of the
    hashed pids and zero, the hash table holds exactly these, and [nr_hashed] counts
    them; the numbers of a new pid are fresh, and are found in every namespace it is
    seen in; a failure gives all of them back; [find_ge_pid] walks the pids in
    order.  One path of [alloc_pid] keeps a reference to its namespace. *)

From S2P Require Import Prelude PidMap.

Local Open Scope Z_scope.

(** * Pools of ids *)

Class IdPool (M : Type) := {
  pool_alloc : (nat → bool) → M → option (M * Z);
  pool_free : M → Z → option M;
  pool_next : M → Z → option Z;
  pool_new : M;
  pool_used : M → Z → Prop;
  pool_ok : M → Prop;
  pool_new_law : pool_ok pool_new ∧ ∀ q, pool_used pool_new q ↔ q = 0;
  pool_alloc_law kz m : pool_ok m →
    (∃ m' p, pool_alloc kz m = Some (m', p) ∧ 0 ≤ p ∧ pool_ok m' ∧ ¬ pool_used m p ∧
       ∀ q, pool_used m' q ↔ pool_used m q ∨ q = p) ∨
    (∃ m', pool_alloc kz m = Some (m', -1) ∧ pool_ok m' ∧ ∀ q, pool_used m' q ↔ pool_used m q);
  pool_free_law m p : pool_ok m → pool_used m p →
    ∃ m', pool_free m p = Some m' ∧ pool_ok m' ∧ ∀ q, pool_used m' q ↔ pool_used m q ∧ q ≠ p;
  pool_next_law m last : pool_ok m → 0 ≤ last → ∃ r, pool_next m last = Some r ∧
    ((r = -1 ∧ ∀ q, last < q → ¬ pool_used m q) ∨
     (last < r ∧ pool_used m r ∧ ∀ q, last < q < r → ¬ pool_used m q));
  pool_used_range m q : pool_ok m → pool_used m q → 0 ≤ q < 2 ^ 31;
}.

(** * Namespaces and pids *)

Definition PIDNS_HASH_ADDING : Z := 2 ^ 31.

Record pid_namespace (M : Type) := mkNs {
  kref : Z;
  pidmap : M;
  nr_hashed : Z;
  level : nat;
  parent : nat;
  child_reaper : bool;
}.
Arguments mkNs {M}.
Arguments kref {M}.
Arguments pidmap {M}.
Arguments nr_hashed {M}.
Arguments level {M}.
Arguments parent {M}.
Arguments child_reaper {M}.

(** [numbers] from level 0 on: the id and its namespace. *)
Record pid := mkPid {
  count : Z;
  numbers : list (Z * nat);
}.

Inductive event :=
  | Wake_reaper (ns : nat)
  | Warn_reaper (ns : nat)
  | Schedule_work (ns : nat)
  | Call_rcu (pid : nat).

(** An element of a bucket: id, namespace and the pid it is part of. *)
Definition upid : Type := Z * nat * nat.

Record pid_state (M : Type) := mkState {
  nss : gmap nat (pid_namespace M);
  pids : gmap nat pid;
  pid_hash : gmap Z (list upid);
  events : list event;
}.
Arguments mkState {M}.
Arguments nss {M}.
Arguments pids {M}.
Arguments pid_hash {M}.
Arguments events {M}.

Section pidns.
Context {M : Type} `{IdPool M}.
Context (pid_hashfn : Z → nat → Z) (init_pid_ns : nat).
Local Abbreviation ns_t := (pid_namespace M).
Local Abbreviation state := (pid_state M).

Definition set_pidmap (s : ns_t) (m : M) : ns_t :=
  mkNs (kref s) m (nr_hashed s) (level s) (parent s) (child_reaper s).
Definition set_nr_hashed (s : ns_t) (v : Z) : ns_t :=
  mkNs (kref s) (pidmap s) v (level s) (parent s) (child_reaper s).
Definition set_kref (s : ns_t) (v : Z) : ns_t :=
  mkNs v (pidmap s) (nr_hashed s) (level s) (parent s) (child_reaper s).

(** ** References to namespaces *)

Definition get_pid_ns (t : gmap nat ns_t) (ns : nat) : option (gmap nat ns_t) :=
  if decide (ns = init_pid_ns) then Some t
  else s ← t !! ns; Some (<[ns := set_kref s (kref s + 1)]> t).

(** ** The hash table *)

Definition bucket (h : gmap Z (list upid)) (b : Z) : list upid := default [] (h !! b).

Definition hlist_add_head (h : gmap Z (list upid)) (u : upid) : gmap Z (list upid) :=
  let b := pid_hashfn u.1.1 u.1.2 in <[b := u :: bucket h b]> h.

Definition hlist_del (h : gmap Z (list upid)) (u : upid) : gmap Z (list upid) :=
  let b := pid_hashfn u.1.1 u.1.2 in <[b := filter (λ v, v ≠ u) (bucket h b)]> h.

Definition find_pid_ns (st : state) (nr : Z) (ns : nat) : option nat :=
  snd <$> List.find (λ u : upid, bool_decide (u.1.1 = nr) && bool_decide (u.1.2 = ns))
            (bucket (pid_hash st) (pid_hashfn nr ns)).

Definition pid_nr_ns (st : state) (p : option pid) (ns : nat) : option Z :=
  match p with
  | None => Some 0
  | Some p =>
      s ← nss st !! ns;
      if decide (level s < length (numbers p))%nat then
        u ← numbers p !! level s;
        Some (if decide (u.2 = ns) then u.1 else 0)
      else Some 0
  end.

(** The loop of [find_ge_pid], [fuel] rounds. *)
Fixpoint find_ge_pid (fuel : nat) (st : state) (nr : Z) (ns : nat) : option (option nat) :=
  match fuel with
  | O => None
  | S fuel =>
      match find_pid_ns st nr ns with
      | Some p => Some (Some p)
      | None =>
          s ← nss st !! ns;
          nr ← pool_next (pidmap s) nr;
          if decide (nr > 0) then find_ge_pid fuel st nr ns else Some None
      end
  end.

(** ** Freeing *)

Fixpoint free_numbers (l : list (Z * nat)) (t : gmap nat ns_t) : option (gmap nat ns_t) :=
  match l with
  | [] => Some t
  | (nr, n) :: l =>
      s ← t !! n;
      m ← pool_free (pidmap s) nr;
      free_numbers l (<[n := set_pidmap s m]> t)
  end.

(** What the count of hashed pids of a namespace becomes, and what happens then. *)
Definition drop_hashed (s : ns_t) (n : nat) : ns_t * list event :=
  let v := u32 (nr_hashed s - 1) in
  if decide (v = 2 ∨ v = 1) then (set_nr_hashed s v, [Wake_reaper n])
  else if decide (v = PIDNS_HASH_ADDING) then (set_nr_hashed s 0, (if child_reaper s then [Warn_reaper n] else []) ++ [Schedule_work n])
  else if decide (v = 0) then (set_nr_hashed s v, [Schedule_work n])
  else (set_nr_hashed s v, []).

(** The numbers [l] of the pid [a] are taken out of the table. *)
Fixpoint unhash (l : list (Z * nat)) (a : nat) (t : gmap nat ns_t) (h : gmap Z (list upid)) (ev : list event)
    : option (gmap nat ns_t * gmap Z (list upid) * list event) :=
  match l with
  | [] => Some (t, h, ev)
  | (nr, n) :: l =>
      s ← t !! n;
      let d := drop_hashed s n in
      unhash l a (<[n := d.1]> t) (hlist_del h (nr, n, a)) (ev ++ d.2)
  end.

Definition free_pid (st : state) (a : nat) : option state :=
  p ← pids st !! a;
  '(t, h, ev) ← unhash (numbers p) a (nss st) (pid_hash st) (events st);
  t ← free_numbers (numbers p) t;
  Some (mkState t (pids st) h (ev ++ [Call_rcu a])).

(** ** Allocation *)

(** The levels below [n], from the namespace [tmp] up; [acc] are the numbers so far.
    The result says whether all of them were allocated. *)
Fixpoint alloc_numbers (kz : nat → nat → bool) (n : nat) (t : gmap nat ns_t) (tmp : nat) (acc : list (Z * nat))
    : option (gmap nat ns_t * list (Z * nat) * bool) :=
  match n with
  | O => Some (t, acc, true)
  | S i =>
      s ← t !! tmp;
      '(m, nr) ← pool_alloc (kz i) (pidmap s);
      let t := <[tmp := set_pidmap s m]> t in
      if decide (nr < 0) then Some (t, acc, false)
      else alloc_numbers kz i t (parent s) ((nr, tmp) :: acc)
  end.

(** The numbers [l], from the last level on, of the pid [a] are put into the table. *)
Fixpoint hash_numbers (l : list (Z * nat)) (a : nat) (t : gmap nat ns_t) (h : gmap Z (list upid))
    : option (gmap nat ns_t * gmap Z (list upid)) :=
  match l with
  | [] => Some (t, h)
  | (nr, n) :: l =>
      s ← t !! n;
      hash_numbers l a (<[n := set_nr_hashed s (u32 (nr_hashed s + 1))]> t) (hlist_add_head h (nr, n, a))
  end.

Definition is_child_reaper (l : list (Z * nat)) : bool :=
  match last l with Some (nr, _) => bool_decide (nr = 1) | None => false end.

(** [cachep] is the address that [kmem_cache_alloc] gives, if any, and [prepare] says
    whether [pid_ns_prepare_proc] succeeds. *)
Definition alloc_pid (st : state) (ns : nat) (cachep : option nat) (kz : nat → nat → bool) (prepare : bool)
    : option (state * option nat) :=
  s ← nss st !! ns;
  match cachep with
  | None => Some (st, None)
  | Some a =>
      '(t, l, ok) ← alloc_numbers kz (S (level s)) (nss st) ns [];
      let out_free t := t ← free_numbers l t; Some (mkState t (pids st) (pid_hash st) (events st), None) in
      if negb ok then out_free t
      else if is_child_reaper l && negb prepare then out_free t
      else
        t ← get_pid_ns t ns;
        s ← t !! ns;
        if decide (Z.land (nr_hashed s) PIDNS_HASH_ADDING = 0) then out_free t
        else
          '(t, h) ← hash_numbers (reverse l) a t (pid_hash st);
          Some (mkState t (<[a := mkPid 1 l]> (pids st)) h (events st), Some a)
  end.

Definition disable_pid_allocation (st : state) (ns : nat) : option state :=
  s ← nss st !! ns;
  let v := Z.land (nr_hashed s) (u32 (Z.lnot PIDNS_HASH_ADDING)) in
  Some (mkState (<[ns := set_nr_hashed s v]> (nss st)) (pids st) (pid_hash st) (events st)).

(** ** New namespaces *)

Definition MAX_PID_NS_LEVEL : nat := 32.

(** [ns] is what [kmem_cache_zalloc] gives, [page] and [cachep] whether the first page
    and [create_pid_cachep] can be had, [inum] what [proc_alloc_inum] returns.  The
    user namespace the new one belongs to is not part of the state. *)
Definition create_pid_namespace (st : state) (up : nat) (ns : option nat) (page cachep : bool) (inum : ret)
    : option (state * (errno + nat)) :=
  s ← nss st !! up;
  let lev := S (level s) in
  if decide (MAX_PID_NS_LEVEL < lev)%nat then Some (st, inl EINVAL)
  else
    match ns with
    | None => Some (st, inl ENOMEM)
    | Some n =>
        if negb page then Some (st, inl ENOMEM)
        else if negb cachep then Some (st, inl ENOMEM)
        else
          match inum with
          | Err e => Some (st, inl e)
          | Ok =>
              t ← get_pid_ns (nss st) up;
              let new := mkNs 1 pool_new PIDNS_HASH_ADDING lev up false in
              Some (mkState (<[n := new]> t) (pids st) (pid_hash st) (events st), inr n)
          end
    end.

(** [newpid] is the flag [CLONE_NEWPID]; [active] the namespace of the caller. *)
Definition copy_pid_ns (st : state) (newpid : bool) (active old : nat) (ns : option nat) (page cachep : bool) (inum : ret)
    : option (state * (errno + nat)) :=
  if negb newpid then
    t ← get_pid_ns (nss st) old;
    Some (mkState t (pids st) (pid_hash st) (events st), inr old)
  else if decide (active ≠ old) then Some (st, inl EINVAL)
  else create_pid_namespace st old ns page cachep inum.

(** The state after boot: [init_pid_ns], with the id 0 taken by [pidmap_init]. *)
Definition pidmap_init : state :=
  mkState {[ init_pid_ns := mkNs 2 pool_new PIDNS_HASH_ADDING 0 0 true ]} ∅ ∅ [].
End pidns.

(** * The ids in use *)

Section pools.
Context {M : Type} `{IdPool M}.
Local Abbreviation ns_t := (pid_namespace M).

Definition used_in (t : gmap nat ns_t) (n : nat) (q : Z) : Prop :=
  ∃ s, t !! n = Some s ∧ pool_used (pidmap s) q.

Definition pools_ok (t : gmap nat ns_t) : Prop := ∀ n s, t !! n = Some s → pool_ok (pidmap s).

(** What is not the pool. *)
Definition meta (s : ns_t) : Z * Z * nat * nat * bool :=
  (kref s, nr_hashed s, level s, parent s, child_reaper s).

(** The namespaces are the same and agree in what [f] gives. *)
Definition agree {A} (f : ns_t → A) (t t' : gmap nat ns_t) : Prop := ∀ n, f <$> t !! n = f <$> t' !! n.

#[export] Instance agree_equiv {A} (f : ns_t → A) : Equivalence (agree f).
Proof using. split; [by intros ? ?|by intros ?? E n; rewrite E|intros ??? E E' n; by rewrite E, E']. Qed.

Lemma agree_lookup {A} (f : ns_t → A) t t' n s :
  agree f t t' → t !! n = Some s → ∃ s', t' !! n = Some s' ∧ f s' = f s.
Proof using.
  intros E Hs. specialize (E n). rewrite Hs in E. destruct (t' !! n) as [s'|]; [|done].
  exists s'. split; [done|]. symmetry. exact (inj Some _ _ E).
Qed.

Lemma agree_weaken {A B} (f : ns_t → A) (g : ns_t → B) t t' :
  (∀ s s', f s = f s' → g s = g s') → agree f t t' → agree g t t'.
Proof using.
  intros Hfg E n. specialize (E n). destruct (t !! n) as [s|], (t' !! n) as [s'|]; try done.
  cbn. f_equal. apply Hfg. exact (inj Some _ _ E).
Qed.

Abbreviation same_meta := (agree meta).

(** Where a namespace is in the tree. *)
Definition shape (s : ns_t) : nat * nat := (level s, parent s).
Abbreviation same_shape := (agree shape).

Lemma meta_shape t t' : same_meta t t' → same_shape t t'.
Proof using. apply agree_weaken. intros s s' [= _ _ Hl Hp _]. unfold shape. congruence. Qed.

Lemma set_pool_ok t n s m :
  t !! n = Some s → pools_ok t → pool_ok m →
  let t' := <[n := set_pidmap s m]> t in
  same_meta t t' ∧ pools_ok t' ∧
  ∀ n' q, used_in t' n' q ↔ (if decide (n' = n) then pool_used m q else used_in t n' q).
Proof using.
  intros Hn Hok Hm t'. unfold t', used_in. split_and!.
  - intros n'. destruct (decide (n = n')) as [<-|]; [|by rewrite lookup_insert_ne by done].
    by rewrite lookup_insert_eq, Hn.
  - intros n' s'. destruct (decide (n = n')) as [<-|]; [|by rewrite lookup_insert_ne by done; apply Hok].
    rewrite lookup_insert_eq. by intros [= <-].
  - intros n' q. destruct (decide (n' = n)) as [->|]; [|by rewrite lookup_insert_ne by done].
    rewrite lookup_insert_eq. split; [by intros (s' & [= <-] & ?)|intros Hq; eexists; by split].
Qed.

(** The namespaces above [n] levels: every level has its parent. *)
Fixpoint chain (t : gmap nat ns_t) (k : nat) (n : nat) : list nat :=
  match k with
  | O => []
  | S k => match t !! n with Some s => chain t k (parent s) ++ [n] | None => [] end
  end.

Lemma chain_S t k n s : t !! n = Some s → chain t (S k) n = chain t k (parent s) ++ [n].
Proof using. intros E. cbn. by rewrite E. Qed.

Definition tree_ok (t : gmap nat ns_t) : Prop :=
  ∀ n s k, t !! n = Some s → level s = S k → ∃ s', t !! parent s = Some s' ∧ level s' = k.

Lemma tree_ok_same t t' : same_shape t t' → tree_ok t → tree_ok t'.
Proof using.
  intros E Ht n s k Hs Hk. symmetry in E. destruct (agree_lookup _ _ _ _ _ E Hs) as (s0 & Hs0 & [= Hl Hp]).
  destruct (Ht n s0 k Hs0) as (s1 & Hs1 & Hk1); [congruence|].
  symmetry in E. destruct (agree_lookup _ _ _ _ _ E Hs1) as (s2 & Hs2 & [= Hl2 _]).
  exists s2. split; congruence.
Qed.

Lemma chain_same t t' : same_shape t t' → ∀ k n, chain t k n = chain t' k n.
Proof using.
  intros E k. induction k as [|k IH]; intros n; [done|]. cbn. specialize (E n).
  destruct (t !! n) as [s|], (t' !! n) as [s'|]; try done. injection E as _ ->. by rewrite IH.
Qed.

Lemma chain_levels t : tree_ok t → ∀ k n s,
  t !! n = Some s → level s = k →
  length (chain t (S k) n) = S k ∧
  ∀ i x, chain t (S k) n !! i = Some x → ∃ s', t !! x = Some s' ∧ level s' = i.
Proof using.
  intros Ht k. induction k as [|k IH]; intros n s Hs Hk; rewrite (chain_S _ _ _ _ Hs).
  - split; [done|]. intros i x Hx. cbn in Hx. apply list_lookup_singleton_Some in Hx as [-> <-]. by exists s.
  - destruct (Ht n s k Hs Hk) as (s' & Hs' & Hk'). destruct (IH (parent s) s' Hs' Hk') as [Hlen Hi].
    split; [rewrite length_app, Hlen; cbn; lia|].
    intros i x Hx. apply lookup_app_Some in Hx as [Hx|[Hge Hx]]; [by apply Hi|].
    apply list_lookup_singleton_Some in Hx as [Hz <-]. exists s. split; [done|]. lia.
Qed.

Lemma chain_NoDup t n s : tree_ok t → t !! n = Some s → NoDup (chain t (S (level s)) n).
Proof using.
  intros Ht Hs. apply NoDup_alt. intros i j x Hi Hj. destruct (chain_levels t Ht (level s) n s Hs eq_refl) as [_ Hl].
  destruct (Hl i x Hi) as (s1 & Hs1 & <-), (Hl j x Hj) as (s2 & Hs2 & <-). congruence.
Qed.

(** More namespaces change no chain. *)
Lemma chain_mono t t' : tree_ok t → (∀ n s, t !! n = Some s → t' !! n = Some s) →
  ∀ n s, t !! n = Some s → chain t' (S (level s)) n = chain t (S (level s)) n.
Proof using.
  intros Ht Hsub n s. remember (level s) as k eqn:Hk. revert n s Hk. induction k as [|k IH]; intros n s Hk Hs;
    rewrite (chain_S _ _ _ _ Hs), (chain_S _ _ _ _ (Hsub _ _ Hs)); [done|].
  destruct (Ht n s k Hs) as (s' & Hs' & Hk'); [done|]. f_equal. by apply (IH _ s').
Qed.

(** ** The loops over the levels *)

(** [t'] is [t] with the ids of [g] in use too. *)
Definition gained (t t' : gmap nat ns_t) (g : list (Z * nat)) : Prop :=
  same_meta t t' ∧ pools_ok t' ∧ NoDup (g.*2) ∧
  (∀ n q, used_in t' n q ↔ used_in t n q ∨ (q, n) ∈ g) ∧
  (∀ n q, (q, n) ∈ g → 0 ≤ q ∧ ¬ used_in t n q).

Lemma gained_one t n s m p :
  t !! n = Some s → pools_ok t → pool_ok m → 0 ≤ p → ¬ pool_used (pidmap s) p →
  (∀ q, pool_used m q ↔ pool_used (pidmap s) q ∨ q = p) →
  gained t (<[n := set_pidmap s m]> t) [(p, n)].
Proof using.
  intros Hs Hok Hm Hp Hf Hu. destruct (set_pool_ok t n s m Hs Hok Hm) as (Hmeta & Hok' & Hu').
  assert (∀ q, used_in t n q ↔ pool_used (pidmap s) q) as Hn.
  { intros q. split; [intros (s' & ? & ?); congruence|intros ?; by exists s]. }
  split_and!; [done|done|apply NoDup_singleton| |].
  - intros n' q. rewrite Hu', list_elem_of_singleton. destruct (decide (n' = n)) as [->|]; [rewrite Hu, Hn|]; naive_solver.
  - intros n' q Hq. apply list_elem_of_singleton in Hq as [= -> ->]. by rewrite Hn.
Qed.

Lemma gained_nil t t' :
  same_meta t t' → pools_ok t' → (∀ n q, used_in t' n q ↔ used_in t n q) → gained t t' [].
Proof using.
  intros Hm Hok Hu. split_and!; [done|done|constructor| |].
  - intros n q. rewrite Hu. set_solver.
  - set_solver.
Qed.

Lemma gained_app t1 t2 t3 g1 g2 :
  gained t1 t2 g2 → gained t2 t3 g1 → NoDup ((g1 ++ g2).*2) → gained t1 t3 (g1 ++ g2).
Proof using.
  intros (E & Hok & _ & Hu & Hf) (E' & Hok' & _ & Hu' & Hf') Hnd. split_and!; [by rewrite E|done|done| |].
  - intros n q. rewrite Hu', Hu, elem_of_app. tauto.
  - intros n q Hq. apply elem_of_app in Hq as [Hq|Hq]; [|by apply Hf].
    destruct (Hf' n q Hq) as [? Hn]. split; [done|]. intros Hus. apply Hn, Hu. by left.
Qed.

(** One namespace: a new id, or none. *)
Lemma alloc_level t n s kz :
  t !! n = Some s → pools_ok t →
  ∃ m p, pool_alloc kz (pidmap s) = Some (m, p) ∧
    ((0 ≤ p ∧ gained t (<[n := set_pidmap s m]> t) [(p, n)]) ∨
     (p < 0 ∧ gained t (<[n := set_pidmap s m]> t) [])).
Proof using.
  intros Hs Hok. destruct (pool_alloc_law kz (pidmap s) (Hok _ _ Hs)) as [(m & p & Ha & Hp & Hm & Hf & Hu)|(m & Ha & Hm & Hu)].
  - exists m, p. split; [done|]. left. split; [done|]. by apply gained_one.
  - exists m, (-1). split; [done|]. right. split; [done|].
    destruct (set_pool_ok t n s m Hs Hok Hm) as (Hmeta & Hok' & Hu'). apply gained_nil; [done|done|].
    intros n' q. rewrite Hu'. destruct (decide (n' = n)) as [->|]; [|done]. rewrite Hu.
    split; [intros ?; by exists s|intros (s' & ? & ?); congruence].
Qed.

(** The [j] levels from the namespace [n] up exist. *)
Definition has_levels (t : gmap nat ns_t) (j n : nat) : Prop :=
  match j with O => True | S k => ∃ s, t !! n = Some s ∧ level s = k end.

Lemma has_levels_parent t j n s :
  tree_ok t → t !! n = Some s → level s = j → has_levels t j (parent s).
Proof using. intros Ht Hs Hj. destruct j as [|k]; [done|]. exact (Ht n s k Hs Hj). Qed.

Lemma has_levels_same t t' j n : same_shape t t' → has_levels t j n → has_levels t' j n.
Proof using.
  intros E. destruct j; [done|]. intros (s & Hs & Hl). destruct (agree_lookup _ _ _ _ _ E Hs) as (s' & Hs' & [= Hl' _]).
  exists s'. split; [done|congruence].
Qed.

Lemma alloc_numbers_ok kz j : ∀ t n acc,
  pools_ok t → tree_ok t → has_levels t j n →
  ∃ t' g ok, alloc_numbers kz j t n acc = Some (t', g ++ acc, ok) ∧ gained t t' g ∧
    (∀ x, x ∈ g.*2 → ∃ s', t !! x = Some s' ∧ (level s' < j)%nat) ∧
    (ok = true → g.*2 = chain t j n).
Proof using.
  induction j as [|k IH]; intros t n acc Hok Ht Hl.
  { exists t, [], true. split_and!; [done|by apply gained_nil|set_solver|done]. }
  destruct Hl as (s & Hs & Hk). destruct (alloc_level t n s (kz k) Hs Hok) as (m & p & Ha & Hres).
  cbn [alloc_numbers]. rewrite Hs. cbn [mbind option_bind]. rewrite Ha. cbn [mbind option_bind].
  set (t1 := <[n := set_pidmap s m]> t) in *. destruct Hres as [[Hp Hg]|[Hp Hg]].
  - rewrite decide_False by lia. pose proof Hg as (E & Hok1 & _). apply meta_shape in E.
    destruct (IH t1 (parent s) ((p, n) :: acc) Hok1 (tree_ok_same _ _ E Ht)
      (has_levels_same _ _ _ _ E (has_levels_parent _ _ _ _ Ht Hs Hk))) as (t' & g & ok & Hr & Hg' & Hlev & Hch).
    assert (∀ x, x ∈ g.*2 → ∃ s', t !! x = Some s' ∧ (level s' < k)%nat) as Hlev'.
    { intros x Hx. destruct (Hlev x Hx) as (s1 & Hs1 & Hl1). symmetry in E.
      destruct (agree_lookup _ _ _ _ _ E Hs1) as (s2 & Hs2 & [= Hl2 _]).
      exists s2. split; [done|congruence]. }
    exists t', (g ++ [(p, n)]), ok. split_and!.
    + rewrite Hr. by rewrite <- app_assoc.
    + apply (gained_app _ t1); [done|done|]. rewrite fmap_app. apply NoDup_app. split_and!; [by apply Hg'| |apply NoDup_singleton].
      intros x Hx Hxn. apply list_elem_of_singleton in Hxn as ->. destruct (Hlev' _ Hx) as (s' & Hs' & Hl'). cbn in Hs'.
      rewrite Hs in Hs'. injection Hs' as <-. lia.
    + intros x. rewrite fmap_app, elem_of_app. intros [Hx|Hx].
      * destruct (Hlev' _ Hx) as (s' & ? & ?). exists s'. split; [done|lia].
      * apply list_elem_of_singleton in Hx as ->. exists s. split; [done|lia].
    + intros Eok. rewrite fmap_app, (Hch Eok), (chain_S _ _ _ _ Hs). by rewrite (chain_same _ _ E).
  - rewrite decide_True by lia. exists t1, [], false. split_and!; [done|done|set_solver|done].
Qed.

Lemma free_numbers_ok l : ∀ t,
  pools_ok t → NoDup l → (∀ n q, (q, n) ∈ l → used_in t n q) →
  ∃ t', free_numbers l t = Some t' ∧ same_meta t t' ∧ pools_ok t' ∧
    ∀ n q, used_in t' n q ↔ used_in t n q ∧ (q, n) ∉ l.
Proof using.
  induction l as [|[q0 n0] l IH]; intros t Hok Hnd Hu.
  { exists t. split_and!; [done|done|done|]. set_solver. }
  apply NoDup_cons in Hnd as [Hn0 Hnd]. destruct (Hu n0 q0 ltac:(set_solver)) as (s & Hs & Hq0).
  destruct (pool_free_law (pidmap s) q0 (Hok _ _ Hs) Hq0) as (m & Hf & Hm & Hum).
  destruct (set_pool_ok t n0 s m Hs Hok Hm) as (E & Hok1 & Hu1).
  assert (∀ n q, used_in (<[n0 := set_pidmap s m]> t) n q ↔ used_in t n q ∧ (q, n) ≠ (q0, n0)) as Hu2.
  { intros n q. rewrite Hu1. destruct (decide (n = n0)) as [->|]; [|naive_solver]. rewrite Hum.
    split; [intros [? ?]; split; [by exists s|congruence]|intros [(s' & ? & ?) Hne]; split; congruence]. }
  destruct (IH _ Hok1 Hnd) as (t' & Hr & E' & Hok' & Hu').
  { intros n q Hq. apply Hu2. split; [apply Hu; set_solver|]. intros [= -> ->]. done. }
  exists t'. cbn [free_numbers]. rewrite Hs. cbn [mbind option_bind]. rewrite Hf. cbn [mbind option_bind].
  split_and!; [done|by rewrite E|done|]. intros n q. rewrite Hu', Hu2, not_elem_of_cons. tauto.
Qed.
End pools.

(** * The hash table *)

Lemma size_bound (X : gset Z) N : 0 < N → (∀ q, q ∈ X → 0 < q < N) → Z.of_nat (size X) < N.
Proof.
  intros HN HX. assert (X ⊆ list_to_set (seqZ 1 (N - 1))) as Hs.
  { intros q Hq. apply elem_of_list_to_set, elem_of_seqZ. specialize (HX q Hq). lia. }
  apply subseteq_size in Hs. rewrite size_list_to_set in Hs by apply NoDup_seqZ. rewrite length_seqZ in Hs. lia.
Qed.

Lemma adding_clear x : 0 ≤ x < PIDNS_HASH_ADDING → Z.land x PIDNS_HASH_ADDING = 0.
Proof.
  intros Hx. apply Z.bits_inj'. intros i Hi. rewrite Z.land_spec, Z.bits_0.
  unfold PIDNS_HASH_ADDING in *. rewrite Z.pow2_bits_eqb by done. destruct (Z.eqb_spec 31 i) as [<-|]; [|by rewrite andb_false_r].
  assert (Z.testbit x 31 = false) as ->; [|done]. apply Z.testbit_false; [done|]. by rewrite Z.div_small by lia.
Qed.

Lemma adding_set x : 0 ≤ x < PIDNS_HASH_ADDING → Z.land (PIDNS_HASH_ADDING + x) PIDNS_HASH_ADDING ≠ 0.
Proof.
  intros Hx E. assert (Z.testbit (Z.land (PIDNS_HASH_ADDING + x) PIDNS_HASH_ADDING) 31 = false) as Hb by (rewrite E; apply Z.bits_0).
  rewrite Z.land_spec in Hb. unfold PIDNS_HASH_ADDING in *. rewrite Z.pow2_bits_true, andb_true_r in Hb by done.
  apply Z.testbit_false in Hb; [|done]. replace (2 ^ 31 + x) with (x + 1 * 2 ^ 31) in Hb by lia.
  rewrite Z.div_add, Z.div_small in Hb by lia. done.
Qed.

Lemma adding_cleared v (X : gset Z) :
  v = Z.of_nat (size X) ∨ v = PIDNS_HASH_ADDING + Z.of_nat (size X) → Z.of_nat (size X) < PIDNS_HASH_ADDING →
  Z.land v (u32 (Z.lnot PIDNS_HASH_ADDING)) = Z.of_nat (size X).
Proof.
  intros Hv Hlt. change (u32 (Z.lnot PIDNS_HASH_ADDING)) with (Z.ones 31). rewrite Z.land_ones by done.
  unfold PIDNS_HASH_ADDING in *. destruct Hv as [-> | ->]; [apply Z.mod_small; lia|].
  replace (2 ^ 31 + Z.of_nat (size X)) with (Z.of_nat (size X) + 1 * 2 ^ 31) by lia.
  rewrite Z.mod_add by done. apply Z.mod_small. lia.
Qed.

Section hash.
Context {M : Type} `{IdPool M} (pid_hashfn : Z → nat → Z).
Local Abbreviation ns_t := (pid_namespace M).
Local Abbreviation hash_numbers := (hash_numbers pid_hashfn).
Local Abbreviation unhash := (unhash pid_hashfn).

(** The table [t'] is [t] with [f] applied to the namespaces of [l]. *)
Definition mapped (f : nat → ns_t → ns_t) (l : list nat) (t t' : gmap nat ns_t) : Prop :=
  ∀ n, t' !! n = (λ s, if decide (n ∈ l) then f n s else s) <$> t !! n.

Lemma mapped_nil f t : mapped f [] t t.
Proof using. intros n. destruct (t !! n); [|done]. cbn. by rewrite decide_False by set_solver. Qed.

Lemma mapped_cons f n0 l t t' s :
  t !! n0 = Some s → n0 ∉ l → mapped f l (<[n0 := f n0 s]> t) t' → mapped f (n0 :: l) t t'.
Proof using.
  intros Hs Hn Hm n. rewrite (Hm n). destruct (decide (n0 = n)) as [<-|Hne].
  - rewrite lookup_insert_eq, Hs. cbn. rewrite decide_False by done. by rewrite decide_True by set_solver.
  - rewrite lookup_insert_ne by done. destruct (t !! n) as [s'|]; [|done]. cbn. f_equal.
    by destruct (decide (n ∈ l)); [rewrite decide_True by set_solver|rewrite decide_False by set_solver].
Qed.

Lemma bucket_insert h b b' l : bucket (<[b := l]> h) b' = if decide (b' = b) then l else bucket h b'.
Proof using.
  unfold bucket. destruct (decide (b' = b)) as [->|]; [by rewrite lookup_insert_eq|by rewrite lookup_insert_ne].
Qed.

Lemma hlist_add_head_elem h q n a b u :
  u ∈ bucket (hlist_add_head pid_hashfn h (q, n, a)) b ↔
  u ∈ bucket h b ∨ (u = (q, n, a) ∧ b = pid_hashfn q n).
Proof using.
  unfold hlist_add_head. cbn. rewrite bucket_insert. destruct (decide (b = pid_hashfn q n)) as [->|]; [|naive_solver].
  rewrite elem_of_cons. naive_solver.
Qed.

Lemma hlist_del_elem h q n a b u :
  u ∈ bucket (hlist_del pid_hashfn h (q, n, a)) b ↔
  u ∈ bucket h b ∧ ¬ (u = (q, n, a) ∧ b = pid_hashfn q n).
Proof using.
  unfold hlist_del. cbn. rewrite bucket_insert. destruct (decide (b = pid_hashfn q n)) as [->|]; [|naive_solver].
  rewrite list_elem_of_filter. naive_solver.
Qed.

Definition bump_hashed (n : nat) (s : ns_t) : ns_t := set_nr_hashed s (u32 (nr_hashed s + 1)).
Definition dropped (n : nat) (s : ns_t) : ns_t := (drop_hashed s n).1.

(** The elements of the list of a pid. *)
Definition mine (l : list (Z * nat)) (a : nat) (b : Z) (u : upid) : Prop :=
  ∃ q n, (q, n) ∈ l ∧ u = (q, n, a) ∧ b = pid_hashfn q n.

Lemma mine_cons q n l a b u : mine ((q, n) :: l) a b u ↔ mine l a b u ∨ (u = (q, n, a) ∧ b = pid_hashfn q n).
Proof using.
  unfold mine. split.
  - intros (q' & n' & Hin & -> & ->). apply elem_of_cons in Hin as [[= -> ->]|Hin]; [by right|left]. by exists q', n'.
  - intros [(q' & n' & Hin & -> & ->)|[-> ->]]; [exists q', n'|exists q, n]; (split; [set_solver|done]).
Qed.

Lemma hash_numbers_ok l a : ∀ t h,
  NoDup (l.*2) → (∀ n, n ∈ l.*2 → is_Some (t !! n)) →
  ∃ t' h', hash_numbers l a t h = Some (t', h') ∧ mapped bump_hashed (l.*2) t t' ∧
    ∀ b u, u ∈ bucket h' b ↔ u ∈ bucket h b ∨ mine l a b u.
Proof using.
  induction l as [|[q n] l IH]; intros t h Hnd Hin.
  { exists t, h. split_and!; [done|apply mapped_nil|]. intros b u. unfold mine. set_solver. }
  cbn in Hnd. apply NoDup_cons in Hnd as [Hn Hnd]. destruct (Hin n ltac:(set_solver)) as [s Hs].
  cbn [PidNs.hash_numbers]. rewrite Hs. cbn [mbind option_bind].
  destruct (IH (<[n := bump_hashed n s]> t) (hlist_add_head pid_hashfn h (q, n, a)) Hnd) as (t' & h' & Hr & Hm & Hb).
  { intros n' Hn'. destruct (decide (n = n')) as [<-|]; [congruence|]. rewrite lookup_insert_ne by done. apply Hin. set_solver. }
  exists t', h'. split_and!; [done|by apply (mapped_cons _ _ _ _ _ s)|].
  intros b u. rewrite Hb, hlist_add_head_elem, mine_cons. tauto.
Qed.

Lemma unhash_ok l a : ∀ t h ev,
  NoDup (l.*2) → (∀ n, n ∈ l.*2 → is_Some (t !! n)) →
  ∃ t' h' ev', unhash l a t h ev = Some (t', h', ev') ∧ mapped dropped (l.*2) t t' ∧
    ∀ b u, u ∈ bucket h' b ↔ u ∈ bucket h b ∧ ¬ mine l a b u.
Proof using.
  induction l as [|[q n] l IH]; intros t h ev Hnd Hin.
  { exists t, h, ev. split_and!; [done|apply mapped_nil|]. intros b u. unfold mine. set_solver. }
  cbn in Hnd. apply NoDup_cons in Hnd as [Hn Hnd]. destruct (Hin n ltac:(set_solver)) as [s Hs].
  cbn [PidNs.unhash]. rewrite Hs. cbn [mbind option_bind].
  destruct (IH (<[n := dropped n s]> t) (hlist_del pid_hashfn h (q, n, a)) (ev ++ (drop_hashed s n).2) Hnd)
    as (t' & h' & ev' & Hr & Hm & Hb).
  { intros n' Hn'. destruct (decide (n = n')) as [<-|]; [congruence|]. rewrite lookup_insert_ne by done. apply Hin. set_solver. }
  exists t', h', ev'. split_and!; [done|by apply (mapped_cons _ _ _ _ _ s)|].
  intros b u. rewrite Hb, hlist_del_elem, mine_cons. tauto.
Qed.

(** * The invariant *)

Definition has_number (st : pid_state M) (a : nat) (q : Z) (n : nat) : Prop :=
  ∃ p, pids st !! a = Some p ∧ (q, n) ∈ numbers p.

(** [q] is a number in [n] of one of the pids [live]. *)
Definition live_number (st : pid_state M) (live : gset nat) (q : Z) (n : nat) : Prop :=
  ∃ a, a ∈ live ∧ has_number st a q n.

(** [live] are the pids that are hashed. *)
Record pid_inv (st : pid_state M) (live : gset nat) : Prop := {
  inv_tree : tree_ok (nss st);
  inv_pools : pools_ok (nss st);
  inv_pid a : a ∈ live → ∃ p n s, pids st !! a = Some p ∧ nss st !! n = Some s ∧
    (numbers p).*2 = chain (nss st) (S (level s)) n;
  inv_hash b q n a : (q, n, a) ∈ bucket (pid_hash st) b ↔
    b = pid_hashfn q n ∧ a ∈ live ∧ has_number st a q n;
  inv_uniq a a' q n : a ∈ live → a' ∈ live → has_number st a q n → has_number st a' q n → a = a';
  inv_used n s q : nss st !! n = Some s → pool_used (pidmap s) q ↔ q = 0 ∨ live_number st live q n;
  inv_nonzero q n : live_number st live q n → q ≠ 0;
  inv_count n s : nss st !! n = Some s → ∃ X : gset Z, (∀ q, q ∈ X ↔ live_number st live q n) ∧
    (nr_hashed s = Z.of_nat (size X) ∨ nr_hashed s = PIDNS_HASH_ADDING + Z.of_nat (size X));
}.

(** Fewer than [PIDNS_HASH_ADDING] pids are hashed in a namespace. *)
Lemma live_bound st live n s (X : gset Z) :
  pid_inv st live → nss st !! n = Some s → (∀ q, q ∈ X → live_number st live q n) →
  Z.of_nat (size X) < PIDNS_HASH_ADDING.
Proof.
  intros Hi Hs HX. apply size_bound; [done|]. intros q Hq. specialize (HX q Hq).
  pose proof (inv_nonzero _ _ Hi _ _ HX). destruct (pool_used_range (pidmap s) q) as [? ?].
  - exact (inv_pools _ _ Hi _ _ Hs).
  - apply (inv_used _ _ Hi _ _ _ Hs). by right.
  - unfold PIDNS_HASH_ADDING. lia.
Qed.

(** What else the invariant speaks of. *)
Definition hmeta (s : ns_t) : Z * nat * nat := (nr_hashed s, level s, parent s).

Lemma hmeta_shape (t t' : gmap nat ns_t) : agree hmeta t t' → agree shape t t'.
Proof. apply agree_weaken. intros s s' [= _ Hl Hp]. unfold shape. congruence. Qed.

(** The ids in use, the hash table and the counts are the same. *)
Definition unchanged (st st' : pid_state M) : Prop :=
  pids st' = pids st ∧ pid_hash st' = pid_hash st ∧ agree hmeta (nss st) (nss st') ∧ pools_ok (nss st') ∧
  ∀ n q, used_in (nss st') n q ↔ used_in (nss st) n q.

Lemma used_in_lookup (t : gmap nat ns_t) n s q : t !! n = Some s → used_in t n q ↔ pool_used (pidmap s) q.
Proof. intros Hs. split; [intros (s' & ? & ?); congruence|intros ?; by exists s]. Qed.

Lemma inv_unchanged st st' live : unchanged st st' → pid_inv st live → pid_inv st' live.
Proof.
  intros (Hp & Hh & E & Hok & Hu) Hi. pose proof (hmeta_shape _ _ E) as Esh. assert (agree hmeta (nss st') (nss st)) as E' by (by symmetry).
  assert (∀ a q n, has_number st' a q n ↔ has_number st a q n) as Hnum by (intros; unfold has_number; by rewrite Hp).
  assert (∀ q n, live_number st' live q n ↔ live_number st live q n) as Hln.
  { intros q n. unfold live_number. by setoid_rewrite Hnum. }
  split.
  - by eapply tree_ok_same, inv_tree.
  - done.
  - intros a Ha. destruct (inv_pid _ _ Hi a Ha) as (p & n & s & Hpa & Hs & Hc).
    destruct (agree_lookup _ _ _ _ _ Esh Hs) as (s' & Hs' & [= Hl _]). exists p, n, s'.
    rewrite Hp, Hl, <- (chain_same _ _ Esh). done.
  - intros b q n a. rewrite Hh, Hnum. apply (inv_hash _ _ Hi).
  - intros a a' q n ? ?. rewrite !Hnum. by apply (inv_uniq _ _ Hi).
  - intros n s' q Hs'. destruct (agree_lookup _ _ _ _ _ E' Hs') as (s & Hs & _).
    rewrite Hln, <- (inv_used _ _ Hi _ _ q Hs), <- (used_in_lookup _ _ _ _ Hs), <- (used_in_lookup _ _ _ _ Hs'). apply Hu.
  - intros q n. rewrite Hln. apply (inv_nonzero _ _ Hi).
  - intros n s' Hs'. destruct (agree_lookup _ _ _ _ _ E' Hs') as (s & Hs & [= <- _ _]).
    destruct (inv_count _ _ Hi _ _ Hs) as (X & HX & Hc). exists X. split; [|done]. intros q. by rewrite Hln.
Qed.

(** ** Allocation *)

Definition core (s : ns_t) : M * Z * nat * nat := (pidmap s, nr_hashed s, level s, parent s).

Lemma core_hmeta (t t' : gmap nat ns_t) : agree core t t' → agree hmeta t t'.
Proof. apply agree_weaken. intros s s' [= _ Hn Hl Hp]. unfold hmeta. congruence. Qed.

Lemma core_used (t t' : gmap nat ns_t) : agree core t t' → ∀ n q, used_in t' n q ↔ used_in t n q.
Proof.
  intros E n q. specialize (E n). unfold used_in.
  destruct (t !! n) as [s|], (t' !! n) as [s'|]; try done.
  injection E as E _ _ _. split; intros (? & [= <-] & ?); eexists; (split; [done|congruence]).
Qed.

Lemma core_pools (t t' : gmap nat ns_t) : agree core t t' → pools_ok t → pools_ok t'.
Proof.
  intros E Hok n s Hs. symmetry in E. destruct (agree_lookup _ _ _ _ _ E Hs) as (s0 & Hs0 & [= <- _ _ _]). by apply (Hok n).
Qed.

Lemma meta_hmeta (t t' : gmap nat ns_t) : agree meta t t' → agree hmeta t t'.
Proof. apply agree_weaken. intros s s' [= _ Hn Hl Hp _]. unfold hmeta. congruence. Qed.

Lemma get_pid_ns_ok init (t : gmap nat ns_t) n s :
  t !! n = Some s → ∃ t', get_pid_ns init t n = Some t' ∧ agree core t t'.
Proof.
  intros Hs. unfold get_pid_ns. case_decide; [by exists t|]. rewrite Hs. cbn [mbind option_bind].
  eexists. split; [done|]. intros n'. destruct (decide (n = n')) as [<-|]; [by rewrite lookup_insert_eq, Hs|by rewrite lookup_insert_ne].
Qed.

(** The way out of a failure. *)
Lemma out_free_ok st t t1 g ev :
  gained (nss st) t g → agree core t t1 →
  ∃ t', free_numbers g t1 = Some t' ∧ unchanged st (mkState t' (pids st) (pid_hash st) ev).
Proof.
  intros (E & Hok & Hnd & Hu & Hf) E1. destruct (free_numbers_ok g t1) as (t' & Hr & E' & Hok' & Hu').
  - by apply (core_pools t).
  - by apply NoDup_fmap_1 in Hnd.
  - intros n q Hq. apply (core_used _ _ E1), Hu. by right.
  - exists t'. split; [done|]. split_and!; [done|done| |done|].
    + cbn. rewrite (meta_hmeta _ _ E), (core_hmeta _ _ E1). by apply meta_hmeta.
    + intros n q. cbn. rewrite Hu', (core_used _ _ E1), Hu. split; [tauto|].
      intros Hus. split; [tauto|]. intros Hq. by destruct (Hf n q Hq).
Qed.

(** The numbers [l] of [a] come to those of [live]. *)
Lemma live_number_add st a l live t h ev q n :
  pids st !! a = None → (∀ a', a' ∈ live → is_Some (pids st !! a')) →
  let st' := mkState t (<[a := mkPid 1 l]> (pids st)) h ev in
  (∀ a', a' ∈ live → has_number st' a' q n ↔ has_number st a' q n) ∧ (has_number st' a q n ↔ (q, n) ∈ l) ∧
  (live_number st' ({[a]} ∪ live) q n ↔ live_number st live q n ∨ (q, n) ∈ l).
Proof.
  intros Ha Hlive st'.
  assert (∀ a', a' ∈ live → has_number st' a' q n ↔ has_number st a' q n) as Hold.
  { intros a' Ha'. unfold has_number, st'. cbn. rewrite lookup_insert_ne; [done|]. intros ->.
    destruct (Hlive _ Ha') as [? ?]. congruence. }
  assert (has_number st' a q n ↔ (q, n) ∈ l) as Hnew.
  { unfold has_number, st'. cbn. rewrite lookup_insert_eq. split; [by intros (p & [= <-] & ?)|intros ?; eexists; by split]. }
  split_and!; [done|done|]. unfold live_number. split.
  - intros (a' & Hin & Hq). apply elem_of_union in Hin as [Hin|Hin].
    + apply elem_of_singleton in Hin as ->. right. by apply Hnew.
    + left. exists a'. split; [done|]. by apply Hold.
  - intros [(a' & Hin & Hq)|Hq]; [exists a'|exists a]; (split; [set_solver|]); [by apply Hold|by apply Hnew].
Qed.

Lemma live_pids st live : pid_inv st live → ∀ a, a ∈ live → is_Some (pids st !! a).
Proof. intros Hi a Ha. destruct (inv_pid _ _ Hi a Ha) as (p & ? & ? & ? & _). by exists p. Qed.

(** A namespace after the numbers [l] are hashed, and what it was before. *)
Lemma hashed_lookup t0 t t1 t2 l n s2 :
  gained t0 t l → agree core t t1 → mapped bump_hashed (l.*2) t1 t2 → t2 !! n = Some s2 →
  ∃ s, t0 !! n = Some s ∧ level s2 = level s ∧ parent s2 = parent s ∧
    (∀ q, pool_used (pidmap s2) q ↔ pool_used (pidmap s) q ∨ (q, n) ∈ l) ∧ pool_ok (pidmap s2) ∧
    nr_hashed s2 = (if decide (n ∈ l.*2) then u32 (nr_hashed s + 1) else nr_hashed s).
Proof.
  intros (E & Hok & _ & Hu & _) E1 Hm Hs2. pose proof (Hm n) as Hmn. rewrite Hs2 in Hmn.
  destruct (t1 !! n) as [s1|] eqn:Hs1; [|done]. cbn in Hmn. injection Hmn as Es2.
  symmetry in E1. destruct (agree_lookup _ _ _ _ _ E1 Hs1) as (st & Hst & [= Hp Hn Hl Hpa]).
  symmetry in E. destruct (agree_lookup _ _ _ _ _ E Hst) as (s & Hs & [= _ Hn' Hl' Hpa' _]).
  exists s. split; [done|]. assert (pidmap s2 = pidmap st) as -> by (rewrite Es2, Hp; by case_decide).
  split_and!; [rewrite Es2; case_decide; cbn; congruence|rewrite Es2; case_decide; cbn; congruence| |by apply (Hok n)|].
  - intros q. rewrite <- (used_in_lookup _ _ _ _ Hst), <- (used_in_lookup _ _ _ _ Hs). apply Hu.
  - rewrite Es2. case_decide; cbn; congruence.
Qed.

Lemma mapped_shape f l t t' : (∀ n s, shape (f n s) = shape s) → mapped f l t t' → agree shape t t'.
Proof.
  intros Hf Hm n. rewrite (Hm n). destruct (t !! n) as [s|]; [|done]. cbn. case_decide; [by rewrite Hf|done].
Qed.

Lemma mapped_perm f l l' t t' : l ≡ₚ l' → mapped f l t t' → mapped f l' t t'.
Proof.
  intros Hp Hm n. rewrite (Hm n). destruct (t !! n) as [s|]; [|done]. cbn. f_equal.
  by destruct (decide (n ∈ l)); [rewrite decide_True by (by rewrite <- Hp)|rewrite decide_False by (by rewrite <- Hp)].
Qed.

(** The count of a namespace in which [X] are the numbers. *)
Definition counted (v : Z) (X : gset Z) : Prop :=
  v = Z.of_nat (size X) ∨ v = PIDNS_HASH_ADDING + Z.of_nat (size X).

Lemma counted_add v X q :
  counted v X → q ∉ X → Z.of_nat (size ({[q]} ∪ X)) < PIDNS_HASH_ADDING → counted (u32 (v + 1)) ({[q]} ∪ X).
Proof.
  intros Hc Hq. rewrite size_union, size_singleton by set_solver. unfold counted, PIDNS_HASH_ADDING in *. intros Hlt.
  rewrite size_union, size_singleton by set_solver. unfold u32, wrap. rewrite Z.mod_small by lia. lia.
Qed.

Lemma numbers_unique (l : list (Z * nat)) q q' n : NoDup (l.*2) → (q, n) ∈ l → (q', n) ∈ l → q = q'.
Proof.
  intros Hnd Hq Hq'. apply list_elem_of_lookup in Hq as [i Hi], Hq' as [j Hj].
  assert (i = j) as <-; [|congruence]. eapply NoDup_lookup; [done|by rewrite list_lookup_fmap, Hi|by rewrite list_lookup_fmap, Hj].
Qed.

Lemma mine_rev l a b q n a' : mine (reverse l) a b (q, n, a') ↔ b = pid_hashfn q n ∧ a' = a ∧ (q, n) ∈ l.
Proof.
  unfold mine. setoid_rewrite elem_of_reverse. split.
  - by intros (q' & n' & ? & [= <- <- ->] & ->).
  - intros (-> & -> & ?). by exists q, n.
Qed.

(** The count follows the numbers [L] of a namespace to [L'], when the numbers [l] come. *)
Lemma counted_alloc (L L' : Z → Prop) (l : list (Z * nat)) n v X :
  (∀ q, q ∈ X ↔ L q) → counted v X → (∀ q, L' q ↔ L q ∨ (q, n) ∈ l) → NoDup (l.*2) →
  (∀ q, (q, n) ∈ l → ¬ L q) → (∀ q, L' q → 0 < q < 2 ^ 31) →
  ∃ X' : gset Z, (∀ q, q ∈ X' ↔ L' q) ∧ counted (if decide (n ∈ l.*2) then u32 (v + 1) else v) X'.
Proof.
  intros HX Hc HL Hnd Hnew Hrange. destruct (decide (n ∈ l.*2)) as [Hin|Hin].
  - apply list_elem_of_fmap in Hin as ([q0 n'] & E' & Hq0). cbn in E'. subst n'.
    assert (∀ q, q ∈ {[q0]} ∪ X ↔ L' q) as HX'.
    { intros q. rewrite HL, elem_of_union, elem_of_singleton, HX.
      split; [intros [->|?]; tauto|]. intros [?|Hq]; [tauto|]. left. by apply (numbers_unique l _ _ n). }
    exists ({[q0]} ∪ X). split; [done|]. apply counted_add; [done|rewrite HX; by apply Hnew|].
    apply size_bound; [done|]. intros q Hq. by apply Hrange, HX'.
  - exists X. split; [|done]. intros q. rewrite HL, HX. split; [tauto|].
    intros [?|Hq]; [done|]. destruct Hin. apply list_elem_of_fmap. by exists (q, n).
Qed.

(** New numbers are numbers of nobody. *)
Lemma fresh_numbers st live s ns t l :
  pid_inv st live → nss st !! ns = Some s → gained (nss st) t l → l.*2 = chain (nss st) (S (level s)) ns →
  ∀ q n, (q, n) ∈ l → q ≠ 0 ∧ ¬ live_number st live q n ∧ is_Some (nss st !! n).
Proof.
  intros Hi Hs Hg Hl q n Hq. destruct Hg as (_ & _ & _ & _ & Hf). destruct (Hf n q Hq) as [_ Hn].
  assert (n ∈ l.*2) as Hn2 by (apply list_elem_of_fmap; by exists (q, n)). rewrite Hl in Hn2.
  apply list_elem_of_lookup in Hn2 as [i Hi2].
  destruct (chain_levels _ (inv_tree _ _ Hi) (level s) ns s Hs eq_refl) as [_ Hlev].
  destruct (Hlev i n Hi2) as (sn & Hsn & _). rewrite (used_in_lookup _ _ _ _ Hsn), (inv_used _ _ Hi _ _ _ Hsn) in Hn.
  split_and!; [intros ->; apply Hn; by left|intros ?; apply Hn; by right|by exists sn].
Qed.

Lemma inv_alloc st live s ns t t1 t2 l h a ev :
  pid_inv st live → nss st !! ns = Some s → gained (nss st) t l → l.*2 = chain (nss st) (S (level s)) ns →
  agree core t t1 → mapped bump_hashed (l.*2) t1 t2 → pids st !! a = None →
  (∀ b u, u ∈ bucket h b ↔ u ∈ bucket (pid_hash st) b ∨ mine (reverse l) a b u) →
  pid_inv (mkState t2 (<[a := mkPid 1 l]> (pids st)) h ev) ({[a]} ∪ live).
Proof.
  intros Hi Hs Hg Hl E1 Hm Ha Hh. set (st2 := mkState t2 _ h ev).
  pose proof (λ n s2 Hs2, hashed_lookup _ _ _ _ _ n s2 Hg E1 Hm Hs2) as Hback.
  pose proof (λ q n, live_number_add st a l live t2 h ev q n Ha (live_pids _ _ Hi)) as Hadd. cbv zeta in Hadd. fold st2 in Hadd.
  assert (agree shape (nss st) t2) as Esh.
  { rewrite (meta_shape _ _ (proj1 Hg)), (hmeta_shape _ _ (core_hmeta _ _ E1)). by apply (mapped_shape bump_hashed (l.*2)). }
  pose proof (fresh_numbers _ _ _ _ _ _ Hi Hs Hg Hl) as Hfresh.
  split.
  - by apply (tree_ok_same (nss st)), (inv_tree _ _ Hi).
  - intros n s2 Hs2. by destruct (Hback n s2 Hs2) as (? & _ & _ & _ & _ & ? & _).
  - intros a' Ha'. destruct (decide (a' = a)) as [->|Hne].
    + destruct (agree_lookup _ _ _ _ _ Esh Hs) as (s2 & Hs2 & [= Hl2 _]). exists (mkPid 1 l), ns, s2.
      cbn [nss st2]. rewrite Hl2, <- (chain_same _ _ Esh). cbn. by rewrite lookup_insert_eq.
    + destruct (inv_pid _ _ Hi a' ltac:(set_solver)) as (p & n & s' & Hp & Hs' & Hc).
      destruct (agree_lookup _ _ _ _ _ Esh Hs') as (s2 & Hs2 & [= Hl2 _]). exists p, n, s2.
      cbn [nss st2]. rewrite Hl2, <- (chain_same _ _ Esh). cbn. by rewrite lookup_insert_ne.
  - intros b q n a'. change (pid_hash st2) with h. rewrite Hh, (inv_hash _ _ Hi), mine_rev. destruct (Hadd q n) as (Hold & Hnew & _). split.
    + intros [(? & Ha' & Hn)|(-> & -> & Hq)]; (split_and!; [done|set_solver|]); [by apply Hold|by apply Hnew].
    + intros (-> & Ha' & Hn). apply elem_of_union in Ha' as [Ha'|Ha'].
      * apply elem_of_singleton in Ha' as ->. right. split_and!; [done|done|]. by apply Hnew.
      * left. split_and!; [done|done|]. by apply Hold.
  - intros a1 a2 q n H1 H2 Hn1 Hn2. destruct (Hadd q n) as (Hold & Hnew & _).
    assert (∀ a', a' ∈ live → has_number st2 a' q n → (q, n) ∈ l → False) as Hno.
    { intros a' Ha' Hn' Hq. apply (proj1 (proj2 (Hfresh q n Hq))). exists a'. split; [done|]. by apply Hold. }
    apply elem_of_union in H1 as [H1|H1], H2 as [H2|H2];
      try apply elem_of_singleton in H1; try apply elem_of_singleton in H2; subst.
    + done.
    + destruct (Hno a2 H2 Hn2). by apply Hnew.
    + destruct (Hno a1 H1 Hn1). by apply Hnew.
    + apply (inv_uniq _ _ Hi a1 a2 q n); [done|done|by apply Hold|by apply Hold].
  - intros n s2 q Hs2. destruct (Hback n s2 Hs2) as (s0 & Hs0 & _ & _ & Hu & _). destruct (Hadd q n) as (_ & _ & Hln).
    rewrite Hu, Hln, (inv_used _ _ Hi _ _ _ Hs0). tauto.
  - intros q n Hq. apply Hadd in Hq as [Hq|Hq]; [by apply (inv_nonzero _ _ Hi _ n)|by apply (Hfresh q n)].
  - intros n s2 Hs2. destruct (Hback n s2 Hs2) as (s0 & Hs0 & _ & _ & Hu & Hpo & Hnr).
    destruct (inv_count _ _ Hi _ _ Hs0) as (X & HX & Hc). rewrite Hnr.
    apply (counted_alloc (λ q, live_number st live q n) _ l n _ X); [done|done|intros q; apply Hadd|apply Hg|by intros q Hq; apply (Hfresh q n)|].
    intros q Hq. apply Hadd in Hq. assert (pool_used (pidmap s2) q) as Hus by (rewrite Hu, (inv_used _ _ Hi _ _ _ Hs0); tauto).
    assert (q ≠ 0) by (destruct Hq as [Hq|Hq]; [by apply (inv_nonzero _ _ Hi _ n)|by apply (Hfresh q n)]).
    pose proof (pool_used_range _ _ Hpo Hus). lia.
Qed.

(** What [alloc_pid] does: it gives up and changes no id, no count and not the
    table, or the new pid comes to the others. *)
Lemma alloc_pid_ok init st live ns s cachep kz prepare :
  pid_inv st live → nss st !! ns = Some s → (∀ a, cachep = Some a → pids st !! a = None) →
  ∃ st' r, alloc_pid pid_hashfn init st ns cachep kz prepare = Some (st', r) ∧
    match r with
    | None => unchanged st st'
    | Some a => cachep = Some a ∧ a ∉ live ∧ pid_inv st' ({[a]} ∪ live) ∧ agree shape (nss st) (nss st') ∧
        Z.land (nr_hashed s) PIDNS_HASH_ADDING ≠ 0 ∧
        ∃ l, pids st' = <[a := mkPid 1 l]> (pids st) ∧ l.*2 = chain (nss st) (S (level s)) ns ∧
          ∀ q n, (q, n) ∈ l → 0 < q ∧ ¬ used_in (nss st) n q
    end.
Proof.
  intros Hi Hs Hc. unfold alloc_pid. rewrite Hs. cbn [mbind option_bind]. destruct cachep as [a|].
  2:{ exists st, None. split; [done|]. split_and!; [done|done|done|apply (inv_pools _ _ Hi)|done]. }
  specialize (Hc a eq_refl). assert (a ∉ live) as Hal.
  { intros Ha. destruct (live_pids _ _ Hi a Ha) as [? ?]. congruence. }
  destruct (alloc_numbers_ok kz (S (level s)) (nss st) ns [] (inv_pools _ _ Hi) (inv_tree _ _ Hi))
    as (t & l & ok & -> & Hg & _ & Hok); [by exists s|]. rewrite app_nil_r. cbn [mbind option_bind].
  destruct (out_free_ok st t t l (events st) Hg ltac:(done)) as (t' & Hfree & Hun).
  assert (∃ st' : pid_state M, (t0 ← free_numbers l t; Some (mkState t0 (pids st) (pid_hash st) (events st), None)) =
    Some (st', None : option nat) ∧ unchanged st st') as (stf & -> & Hstf).
  { rewrite Hfree. by eexists. }
  destruct ok; cbn [negb]; [|by exists stf, None]. specialize (Hok eq_refl).
  destruct (is_child_reaper l && negb prepare); [by exists stf, None|].
  destruct (agree_lookup _ _ _ _ _ (proj1 Hg) Hs) as (s1 & Hs1 & [= _ Hn1 Hl1 _ _]).
  destruct (get_pid_ns_ok init t ns s1 Hs1) as (t1 & -> & E1). cbn [mbind option_bind].
  destruct (agree_lookup _ _ _ _ _ E1 Hs1) as (s2 & Hs2 & [= _ Hn2 _ _]). rewrite Hs2. cbn [mbind option_bind].
  rewrite Hn2, Hn1. case_decide as Hadd.
  { destruct (out_free_ok st t t1 l (events st) Hg E1) as (t2 & -> & Hun2). by eexists _, None. }
  pose proof (fresh_numbers _ _ _ _ _ _ Hi Hs Hg Hok) as Hfresh.
  assert ((reverse l).*2 ≡ₚ l.*2) as Hperm by (rewrite fmap_reverse; apply reverse_Permutation).
  destruct (hash_numbers_ok (reverse l) a t1 (pid_hash st)) as (t2 & h & -> & Hm & Hh).
  { rewrite Hperm. apply Hg. }
  { intros n. rewrite Hperm. intros Hn. apply list_elem_of_fmap in Hn as ([q n'] & -> & Hq). destruct (Hfresh q n' Hq) as (_ & _ & sn & Hsn).
    destruct (agree_lookup _ _ _ _ _ (proj1 Hg) Hsn) as (s3 & Hs3 & _). destruct (agree_lookup _ _ _ _ _ E1 Hs3) as (s4 & Hs4 & _).
    by exists s4. }
  cbn [mbind option_bind]. apply (mapped_perm _ _ _ _ _ Hperm) in Hm. eexists _, (Some a). split; [done|].
  split_and!; [done|done|by eapply (inv_alloc st)| |done|].
  - cbn. rewrite (meta_shape _ _ (proj1 Hg)), (hmeta_shape _ _ (core_hmeta _ _ E1)). by apply (mapped_shape bump_hashed (l.*2)).
  - exists l. split_and!; [done|done|]. intros q n Hq. destruct Hg as (_ & _ & _ & _ & Hf).
    destruct (Hf n q Hq) as [? ?]. destruct (Hfresh q n Hq) as (? & _). split; [lia|done].
Qed.

(** ** Freeing *)

Lemma dropped_fields n (s : ns_t) :
  pidmap (dropped n s) = pidmap s ∧ shape (dropped n s) = shape s ∧ kref (dropped n s) = kref s.
Proof. unfold dropped, drop_hashed. by repeat case_decide. Qed.

Lemma counted_del (s : ns_t) n X q :
  counted (nr_hashed s) X → q ∈ X → Z.of_nat (size X) < PIDNS_HASH_ADDING →
  counted (nr_hashed (dropped n s)) (X ∖ {[q]}).
Proof.
  intros Hc Hq Hlt. assert (size X = S (size (X ∖ {[q]}))) as Hsz.
  { replace X with ({[q]} ∪ X ∖ {[q]}) at 1 by (apply leibniz_equiv; symmetry; apply union_difference; set_solver).
    rewrite size_union, size_singleton by set_solver. done. }
  assert (u32 (nr_hashed s - 1) = nr_hashed s - 1) as E.
  { unfold counted, PIDNS_HASH_ADDING, u32, wrap in *. apply Z.mod_small. lia. }
  unfold counted, dropped, drop_hashed, PIDNS_HASH_ADDING in *. rewrite E. repeat case_decide; cbn; lia.
Qed.

(** ** Looking up *)

(** The search in a bucket finds what is there. *)
Lemma find_pid_ns_spec st live nr ns a :
  pid_inv st live → find_pid_ns pid_hashfn st nr ns = Some a ↔ a ∈ live ∧ has_number st a nr ns.
Proof.
  intros Hi. unfold find_pid_ns. set (f := λ u : upid, _). split.
  - destruct (List.find f _) as [[[q n] a']|] eqn:Ef; [|done]. cbn. intros [= ->]. apply List.find_some in Ef as [Hin Hf].
    unfold f in Hf. cbn in Hf. apply andb_true_iff in Hf as [Hq Hn]. apply bool_decide_eq_true in Hq as ->, Hn as ->.
    apply list_elem_of_In, (inv_hash _ _ Hi) in Hin. tauto.
  - intros [Ha Hn]. assert ((nr, ns, a) ∈ bucket (pid_hash st) (pid_hashfn nr ns)) as Hin by (by apply (inv_hash _ _ Hi)).
    destruct (List.find f _) as [[[q n] a']|] eqn:Ef.
    + apply List.find_some in Ef as [Hin' Hf].
      unfold f in Hf. cbn in Hf. apply andb_true_iff in Hf as [Hq Hn']. apply bool_decide_eq_true in Hq as ->, Hn' as ->.
      apply list_elem_of_In, (inv_hash _ _ Hi) in Hin' as (_ & Ha' & Hna'). cbn. f_equal. by apply (inv_uniq _ _ Hi a' a nr ns).
    + apply List.find_none with (x := (nr, ns, a)) in Ef; [|by apply list_elem_of_In].
      unfold f in Ef. cbn in Ef. rewrite !bool_decide_eq_true_2 in Ef by done. done.
Qed.

(** The pid [a] goes. *)
Lemma live_number_del st live a q n :
  pid_inv st live → a ∈ live →
  live_number st (live ∖ {[a]}) q n ↔ live_number st live q n ∧ ¬ has_number st a q n.
Proof.
  intros Hi Ha. split.
  - intros (a' & Hin & Hn). apply elem_of_difference in Hin as [Hin Hne]. split; [by exists a'|].
    intros Hn'. apply Hne, elem_of_singleton. by apply (inv_uniq _ _ Hi a' a q n).
  - intros [(a' & Hin & Hn) Hnot]. exists a'. split; [|done]. apply elem_of_difference. split; [done|].
    rewrite elem_of_singleton. by intros ->.
Qed.

(** A namespace after the numbers [l] are unhashed and freed, and what it was. *)
Lemma freed_lookup t0 t1 t2 l n s2 :
  mapped dropped (l.*2) t0 t1 → agree meta t1 t2 →
  (∀ n q, used_in t2 n q ↔ used_in t1 n q ∧ (q, n) ∉ l) → t2 !! n = Some s2 →
  ∃ s, t0 !! n = Some s ∧ shape s2 = shape s ∧
    (∀ q, pool_used (pidmap s2) q ↔ pool_used (pidmap s) q ∧ (q, n) ∉ l) ∧
    nr_hashed s2 = (if decide (n ∈ l.*2) then nr_hashed (dropped n s) else nr_hashed s).
Proof.
  intros Hm E Hu Hs2. symmetry in E. destruct (agree_lookup _ _ _ _ _ E Hs2) as (s1 & Hs1 & [= _ Hn Hl Hp _]).
  pose proof (Hm n) as Hmn. rewrite Hs1 in Hmn. destruct (t0 !! n) as [s|] eqn:Hs; [|done]. cbn in Hmn. injection Hmn as Es1.
  destruct (dropped_fields n s) as (Hd1 & [= Hd2 Hd3] & _). exists s. split_and!; [done| | |].
  - unfold shape. rewrite <- Hl, <- Hp, Es1. case_decide; congruence.
  - intros q. rewrite <- (used_in_lookup _ _ _ _ Hs2), Hu, (used_in_lookup _ _ _ _ Hs1), Es1. case_decide; [by rewrite Hd1|done].
  - rewrite <- Hn, Es1. by case_decide.
Qed.

(** The count follows the numbers [L] of a namespace to [L'], when the numbers [l] go. *)
Lemma counted_free (L L' : Z → Prop) (l : list (Z * nat)) n s X :
  (∀ q, q ∈ X ↔ L q) → counted (nr_hashed s) X → Z.of_nat (size X) < PIDNS_HASH_ADDING →
  (∀ q, L' q ↔ L q ∧ (q, n) ∉ l) → NoDup (l.*2) → (∀ q, (q, n) ∈ l → L q) →
  ∃ X' : gset Z, (∀ q, q ∈ X' ↔ L' q) ∧
    counted (if decide (n ∈ l.*2) then nr_hashed (dropped n s) else nr_hashed s) X'.
Proof.
  intros HX Hct Hlt HL Hnd Hold. destruct (decide (n ∈ l.*2)) as [Hn|Hn].
  - apply list_elem_of_fmap in Hn as ([q0 n'] & E' & Hq0). cbn in E'. subst n'. exists (X ∖ {[q0]}). split.
    + intros q. rewrite HL, elem_of_difference, elem_of_singleton, HX. split; intros [? Hne]; (split; [done|]).
      * intros Hq. apply Hne. by apply (numbers_unique l q q0 n).
      * by intros ->.
    + apply counted_del; [done|by apply HX, Hold|done].
  - exists X. split; [|done]. intros q. rewrite HL, HX. split; [|tauto]. intros ?. split; [done|].
    intros Hq. apply Hn, list_elem_of_fmap. by exists (q, n).
Qed.

Lemma inv_free st live a p t1 t2 h ev :
  pid_inv st live → a ∈ live → pids st !! a = Some p → NoDup ((numbers p).*2) →
  mapped dropped ((numbers p).*2) (nss st) t1 → agree meta t1 t2 → pools_ok t2 →
  (∀ n q, used_in t2 n q ↔ used_in t1 n q ∧ (q, n) ∉ numbers p) →
  (∀ b u, u ∈ bucket h b ↔ u ∈ bucket (pid_hash st) b ∧ ¬ mine (numbers p) a b u) →
  pid_inv (mkState t2 (pids st) h ev) (live ∖ {[a]}).
Proof.
  intros Hi Ha Hp Hnd Hm E2 Hok2 Hu2 Hh. set (st2 := mkState t2 _ h ev).
  pose proof (λ n s2 Hs2, freed_lookup _ _ _ _ n s2 Hm E2 Hu2 Hs2) as Hback.
  assert (∀ q n, has_number st a q n ↔ (q, n) ∈ numbers p) as Hnum.
  { intros q n. unfold has_number. rewrite Hp. split; [by intros (? & [= <-] & ?)|intros ?; by exists p]. }
  assert (∀ q n, live_number st2 (live ∖ {[a]}) q n ↔ live_number st live q n ∧ (q, n) ∉ numbers p) as Hln.
  { intros q n. rewrite <- Hnum. by apply (live_number_del st live a q n). }
  assert (agree shape (nss st) t2) as Esh.
  { rewrite <- (meta_shape _ _ E2). apply (mapped_shape dropped ((numbers p).*2)); [|done]. intros n s. apply dropped_fields. }
  split.
  - by apply (tree_ok_same (nss st)), (inv_tree _ _ Hi).
  - done.
  - intros a' Ha'. destruct (inv_pid _ _ Hi a' ltac:(set_solver)) as (p' & n & s' & Hp' & Hs' & Hc').
    destruct (agree_lookup _ _ _ _ _ Esh Hs') as (s2 & Hs2 & [= Hl2 _]). exists p', n, s2.
    cbn [nss st2]. by rewrite Hl2, <- (chain_same _ _ Esh).
  - intros b q n a'. change (pid_hash st2) with h. rewrite Hh, (inv_hash _ _ Hi), elem_of_difference, elem_of_singleton.
    change (has_number st2 a' q n) with (has_number st a' q n). split.
    + intros ((-> & Ha' & Hn) & Hmine). split_and!; [done|done| |done]. intros ->. apply Hmine. exists q, n. by rewrite <- Hnum.
    + intros (-> & [Ha' Hne] & Hn). split_and!; [done|done|done|]. intros (q' & n' & _ & [= _ _ ->] & _). done.
  - intros a1 a2 q n H1 H2. apply (inv_uniq _ _ Hi); set_solver.
  - intros n s2 q Hs2. destruct (Hback n s2 Hs2) as (s0 & Hs0 & _ & Hu & _).
    rewrite Hu, (inv_used _ _ Hi _ _ _ Hs0), Hln. split; [tauto|]. intros [->|]; [|tauto]. split; [tauto|].
    intros Hq. apply (inv_nonzero _ _ Hi 0 n); [|done]. exists a. split; [done|]. by apply Hnum.
  - intros q n Hq. apply Hln in Hq as [Hq _]. by apply (inv_nonzero _ _ Hi _ n).
  - intros n s2 Hs2. destruct (Hback n s2 Hs2) as (s0 & Hs0 & _ & _ & Hnr).
    destruct (inv_count _ _ Hi _ _ Hs0) as (X & HX & Hct). rewrite Hnr.
    apply (counted_free (λ q, live_number st live q n) _ (numbers p) n s0 X); [done|done| |intros q; apply Hln|done|].
    + apply (live_bound st live n s0); [done|done|]. intros q. apply HX.
    + intros q Hq. exists a. split; [done|]. by apply Hnum.
Qed.

Lemma free_pid_ok st live a :
  pid_inv st live → a ∈ live →
  ∃ st', free_pid pid_hashfn st a = Some st' ∧ pid_inv st' (live ∖ {[a]}) ∧ pids st' = pids st ∧
    agree shape (nss st) (nss st') ∧ ∀ n q, used_in (nss st') n q ↔ used_in (nss st) n q ∧ ¬ has_number st a q n.
Proof.
  intros Hi Ha. destruct (inv_pid _ _ Hi a Ha) as (p & ns & s & Hp & Hs & Hc). unfold free_pid. rewrite Hp. cbn [mbind option_bind].
  assert (NoDup ((numbers p).*2)) as Hnd by (rewrite Hc; apply chain_NoDup; [apply (inv_tree _ _ Hi)|done]).
  assert (∀ q n, has_number st a q n ↔ (q, n) ∈ numbers p) as Hnum.
  { intros q n. unfold has_number. rewrite Hp. split; [by intros (? & [= <-] & ?)|intros ?; by exists p]. }
  assert (∀ n, n ∈ (numbers p).*2 → is_Some (nss st !! n)) as Hin.
  { intros n Hn. rewrite Hc in Hn. apply list_elem_of_lookup in Hn as [i Hn].
    destruct (chain_levels _ (inv_tree _ _ Hi) (level s) ns s Hs eq_refl) as [_ Hlev]. destruct (Hlev i n Hn) as (sn & ? & _). by exists sn. }
  destruct (unhash_ok (numbers p) a (nss st) (pid_hash st) (events st) Hnd Hin) as (t1 & h & ev & -> & Hm & Hh).
  cbn [mbind option_bind].
  assert (agree (λ s, (pidmap s, shape s)) (nss st) t1) as E1.
  { intros n. rewrite (Hm n). destruct (nss st !! n) as [s'|]; [|done]. cbn. case_decide; [|done]. destruct (dropped_fields n s') as (-> & -> & _). done. }
  assert (∀ n q, used_in t1 n q ↔ used_in (nss st) n q) as Hu1.
  { intros n q. specialize (E1 n). unfold used_in. destruct (nss st !! n) as [x|], (t1 !! n) as [y|]; try done.
    injection E1 as E1 _. split; intros (? & [= <-] & ?); eexists; (split; [done|congruence]). }
  destruct (free_numbers_ok (numbers p) t1) as (t2 & -> & E2 & Hok2 & Hu2).
  { intros n s1 Hs1. symmetry in E1. destruct (agree_lookup _ _ _ _ _ E1 Hs1) as (s0 & Hs0 & [= <- _]). by apply (inv_pools _ _ Hi n). }
  { by apply NoDup_fmap_1 in Hnd. }
  { intros n q Hq. apply Hu1. destruct (Hin n) as [sn Hsn]; [apply list_elem_of_fmap; by exists (q, n)|].
    apply (used_in_lookup _ _ _ _ Hsn), (inv_used _ _ Hi _ _ _ Hsn). right. exists a. split; [done|]. by apply Hnum. }
  cbn [mbind option_bind]. eexists. split; [done|]. split_and!; [by apply (inv_free st live a p t1)|done| |].
  - cbn. rewrite <- (meta_shape _ _ E2). revert E1. apply agree_weaken. intros ?? E. exact (f_equal snd E).
  - intros n q. cbn. by rewrite Hu2, Hu1, Hnum.
Qed.

(** ** The other operations *)

Lemma disable_ok st live n st' :
  pid_inv st live → disable_pid_allocation st n = Some st' → pid_inv st' live.
Proof.
  intros Hi Hd. unfold disable_pid_allocation in Hd. destruct (nss st !! n) as [s|] eqn:Hs; [|done].
  cbn [mbind option_bind] in Hd. injection Hd as <-. set (v := Z.land _ _). set (st2 := mkState _ _ _ _).
  assert (agree (λ s, (pidmap s, shape s)) (nss st) (nss st2)) as E.
  { intros n'. cbn. destruct (decide (n = n')) as [<-|]; [by rewrite lookup_insert_eq, Hs|by rewrite lookup_insert_ne]. }
  assert (agree shape (nss st) (nss st2)) as Esh by (revert E; apply agree_weaken; intros ?? E; exact (f_equal snd E)).
  pose proof E as E'. symmetry in E'. split.
  - by apply (tree_ok_same (nss st)), (inv_tree _ _ Hi).
  - intros n' s' Hs'. destruct (agree_lookup _ _ _ _ _ E' Hs') as (s0 & Hs0 & [= <- _]). by apply (inv_pools _ _ Hi n').
  - intros a Ha. destruct (inv_pid _ _ Hi a Ha) as (p & n' & s' & Hp & Hs' & Hc).
    destruct (agree_lookup _ _ _ _ _ Esh Hs') as (s2 & Hs2 & [= Hl2 _]). exists p, n', s2. by rewrite Hl2, <- (chain_same _ _ Esh).
  - apply (inv_hash _ _ Hi).
  - apply (inv_uniq _ _ Hi).
  - intros n' s' q Hs'. destruct (agree_lookup _ _ _ _ _ E' Hs') as (s0 & Hs0 & [= <- _]). by apply (inv_used _ _ Hi n').
  - apply (inv_nonzero _ _ Hi).
  - intros n' s' Hs'. cbn in Hs'. destruct (decide (n = n')) as [<-|].
    + rewrite lookup_insert_eq in Hs'. injection Hs' as <-. destruct (inv_count _ _ Hi _ _ Hs) as (X & HX & Hc). exists X.
      split; [done|]. left. cbn. pose proof (live_bound st live n s X Hi Hs (λ q Hq, proj1 (HX q) Hq)).
      unfold v. by apply adding_cleared.
    + rewrite lookup_insert_ne in Hs' by done. by apply (inv_count _ _ Hi).
Qed.

Lemma inv_create st live n up s v :
  pid_inv st live → nss st !! n = None → nss st !! up = Some s →
  let new := mkNs v pool_new PIDNS_HASH_ADDING (S (level s)) up false in
  pid_inv (mkState (<[n := new]> (nss st)) (pids st) (pid_hash st) (events st)) live.
Proof.
  intros Hi Hn Hup new. set (t := <[n := new]> (nss st)). set (st2 := mkState t _ _ _).
  assert (∀ n' s', nss st !! n' = Some s' → t !! n' = Some s') as Hold.
  { intros n' s' Hs'. unfold t. rewrite lookup_insert_ne; [done|congruence]. }
  assert (∀ n' s', t !! n' = Some s' → n' = n ∧ s' = new ∨ nss st !! n' = Some s') as Hinv.
  { intros n' s'. unfold t. destruct (decide (n = n')) as [<-|]; [rewrite lookup_insert_eq|rewrite lookup_insert_ne by done]; naive_solver. }
  assert (∀ q, ¬ live_number st live q n) as Hnone.
  { intros q (a & Ha & p & Hp & Hin). destruct (inv_pid _ _ Hi a Ha) as (p' & n' & s' & Hp' & Hs' & Hc).
    rewrite Hp in Hp'. injection Hp' as <-. assert (n ∈ (numbers p).*2) as Hn' by (apply list_elem_of_fmap; by exists (q, n)).
    rewrite Hc in Hn'. apply list_elem_of_lookup in Hn' as [i Hi'].
    destruct (chain_levels _ (inv_tree _ _ Hi) _ _ _ Hs' eq_refl) as [_ Hl]. destruct (Hl i n Hi') as (? & ? & _). congruence. }
  destruct pool_new_law as [Hok0 Hu0]. split.
  - intros n' s' k Hs' Hk. destruct (Hinv _ _ Hs') as [[-> ->]|Hs0].
    + exists s. split; [by apply Hold|]. cbn in Hk. lia.
    + destruct (inv_tree _ _ Hi n' s' k Hs0 Hk) as (x & Hx & ?). exists x. split; [by apply Hold|done].
  - intros n' s' Hs'. destruct (Hinv _ _ Hs') as [[-> ->]|Hs0]; [done|by apply (inv_pools _ _ Hi n')].
  - intros a Ha. destruct (inv_pid _ _ Hi a Ha) as (p & n' & s' & Hp & Hs' & Hc). exists p, n', s'. split_and!; [done|by apply Hold|].
    rewrite Hc. symmetry. by apply (chain_mono (nss st)); [apply (inv_tree _ _ Hi)| |].
  - apply (inv_hash _ _ Hi).
  - apply (inv_uniq _ _ Hi).
  - intros n' s' q Hs'. destruct (Hinv _ _ Hs') as [[-> ->]|Hs0]; [|by apply (inv_used _ _ Hi n')].
    cbn. rewrite Hu0. split; [tauto|]. intros [?|Hq]; [done|]. by destruct (Hnone q).
  - apply (inv_nonzero _ _ Hi).
  - intros n' s' Hs'. destruct (Hinv _ _ Hs') as [[-> ->]|Hs0]; [|by apply (inv_count _ _ Hi)].
    exists ∅. split; [|right; done]. intros q. split; [set_solver|]. intros Hq. by destruct (Hnone q).
Qed.

(** * Every sequence of operations *)

Section reach.
Context (init_pid_ns : nat).
Local Abbreviation alloc_pid := (alloc_pid pid_hashfn init_pid_ns).
Local Abbreviation free_pid := (free_pid pid_hashfn).

(** A step of the system, with the pids that are hashed.  An address that an allocator
    gives is not in use. *)
Inductive pid_step : pid_state M * gset nat → pid_state M * gset nat → Prop :=
  | step_alloc st live ns cachep kz prepare st' r :
      (∀ a, cachep = Some a → pids st !! a = None) →
      alloc_pid st ns cachep kz prepare = Some (st', r) →
      pid_step (st, live) (st', match r with Some a => {[a]} ∪ live | None => live end)
  | step_free st live a st' :
      a ∈ live → free_pid st a = Some st' → pid_step (st, live) (st', live ∖ {[a]})
  | step_disable st live ns st' :
      disable_pid_allocation st ns = Some st' → pid_step (st, live) (st', live)
  | step_copy_ns st live newpid active old ns page cachep inum st' r :
      (∀ n, ns = Some n → nss st !! n = None) →
      copy_pid_ns init_pid_ns st newpid active old ns page cachep inum = Some (st', r) →
      pid_step (st, live) (st', live).

Lemma unchanged_get st live n t :
  pid_inv st live → get_pid_ns init_pid_ns (nss st) n = Some t →
  pid_inv (mkState t (pids st) (pid_hash st) (events st)) live ∧ agree core (nss st) t.
Proof.
  intros Hi Hg. assert (agree core (nss st) t) as E.
  { unfold get_pid_ns in Hg. case_decide; [by injection Hg as <-|]. destruct (nss st !! n) as [s|] eqn:Hs; [|done].
    cbn [mbind option_bind] in Hg. injection Hg as <-. intros n'.
    destruct (decide (n = n')) as [<-|]; [by rewrite lookup_insert_eq, Hs|by rewrite lookup_insert_ne]. }
  split; [|done]. apply (inv_unchanged st); [|done]. split_and!; [done|done|by apply core_hmeta| |].
  - by apply (core_pools (nss st)), (inv_pools _ _ Hi).
  - apply (core_used _ _ E).
Qed.

Lemma copy_pid_ns_ok st live newpid active old ns page cachep inum st' r :
  pid_inv st live → (∀ n, ns = Some n → nss st !! n = None) →
  copy_pid_ns init_pid_ns st newpid active old ns page cachep inum = Some (st', r) → pid_inv st' live.
Proof.
  intros Hi Hns Hc. unfold copy_pid_ns in Hc. destruct newpid; cbn [negb] in Hc.
  2:{ destruct (get_pid_ns _ _ _) as [t|] eqn:Hg; [|done]. cbn [mbind option_bind] in Hc. injection Hc as <- _.
      by apply (unchanged_get st live old). }
  case_decide; [by injection Hc as <- _|]. unfold create_pid_namespace in Hc.
  destruct (nss st !! old) as [s|] eqn:Hs; [|done]. cbn [mbind option_bind] in Hc.
  case_decide; [by injection Hc as <- _|]. destruct ns as [n|]; [|by injection Hc as <- _].
  destruct page, cachep; cbn [negb] in Hc; try by injection Hc as <- _. destruct inum; [|by injection Hc as <- _].
  destruct (get_pid_ns _ _ _) as [t|] eqn:Hg; [|done]. cbn [mbind option_bind] in Hc. injection Hc as <- _.
  destruct (unchanged_get st live old t Hi Hg) as [Hi1 E]. destruct (agree_lookup _ _ _ _ _ E Hs) as (s1 & Hs1 & [= _ _ Hl _]).
  rewrite <- Hl. apply (inv_create (mkState t (pids st) (pid_hash st) (events st)) live n old s1 1 Hi1); [|done].
  cbn. specialize (E n). rewrite (Hns n eq_refl) in E. by destruct (t !! n).
Qed.

Lemma inv_init : pid_inv (pidmap_init init_pid_ns) ∅.
Proof.
  destruct pool_new_law as [Hok Hu]. split; cbn.
  - intros n s k Hs Hk. apply lookup_singleton_Some in Hs as [_ <-]. done.
  - intros n s Hs. by apply lookup_singleton_Some in Hs as [_ <-].
  - set_solver.
  - intros b q n a. unfold bucket. rewrite lookup_empty. cbn. set_solver.
  - set_solver.
  - intros n s q Hs. apply lookup_singleton_Some in Hs as [_ <-]. cbn. rewrite Hu. unfold live_number. set_solver.
  - intros q n (a & Ha & _). set_solver.
  - intros n s Hs. apply lookup_singleton_Some in Hs as [_ <-]. exists ∅. split; [|by right]. unfold live_number. set_solver.
Qed.

Lemma pid_step_inv x y : pid_step x y → pid_inv x.1 x.2 → pid_inv y.1 y.2.
Proof.
  intros Hst Hi. destruct Hst as [st live ns cachep kz prepare st' r Hc Ha|st live a st' Ha Hf|st live ns st' Hd|
    st live newpid active old ns page cachep inum st' r Hns Hcp]; cbn in *.
  - unfold PidNs.alloc_pid in Ha. destruct (nss st !! ns) as [s|] eqn:Hs; [|done].
    destruct (alloc_pid_ok init_pid_ns st live ns s cachep kz prepare Hi Hs Hc) as (st1 & r1 & Ha1 & Hr).
    unfold PidNs.alloc_pid in Ha1. rewrite Hs in Ha1. rewrite Ha1 in Ha. injection Ha as -> ->.
    destruct r as [a|]; [apply Hr|by apply (inv_unchanged st)].
  - destruct (free_pid_ok st live a Hi Ha) as (st1 & Hf1 & Hi1 & _). congruence.
  - by apply (disable_ok st live ns).
  - by eapply copy_pid_ns_ok.
Qed.

Lemma reachable_pid_inv st live : rtc pid_step (pidmap_init init_pid_ns, ∅) (st, live) → pid_inv st live.
Proof.
  intros Hr. change (pid_inv (st, live).1 (st, live).2). revert Hr. generalize (st, live) as y. clear st live.
  intros y Hr. apply (rtc_ind_r (λ y, pid_inv y.1 y.2) (pidmap_init init_pid_ns, ∅)) in Hr; [done|apply inv_init|].
  intros y1 y2 _ Hs. by apply pid_step_inv.
Qed.

Local Abbreviation reachable st live := (rtc pid_step (pidmap_init init_pid_ns, ∅) (st, live)).

(** C14: In every reachable state the ids in use in a namespace are 0 and the numbers
    there of the hashed pids, no two of which share a number; the hash table finds a
    pid by exactly its numbers; and [nr_hashed] is the number of pids hashed in the
    namespace, with the bit [PIDNS_HASH_ADDING] or without. *)
Theorem pid_hash_invariant st live :
  reachable st live →
  (∀ n s q, nss st !! n = Some s → pool_used (pidmap s) q ↔ q = 0 ∨ live_number st live q n) ∧
  (∀ a a' q n, a ∈ live → a' ∈ live → has_number st a q n → has_number st a' q n → a = a') ∧
  (∀ nr n a, find_pid_ns pid_hashfn st nr n = Some a ↔ a ∈ live ∧ has_number st a nr n) ∧
  (∀ n s, nss st !! n = Some s → ∃ X : gset Z, (∀ q, q ∈ X ↔ live_number st live q n) ∧
     Z.of_nat (size X) < PIDNS_HASH_ADDING ∧
     (nr_hashed s = Z.of_nat (size X) ∨ nr_hashed s = PIDNS_HASH_ADDING + Z.of_nat (size X))).
Proof.
  intros Hr. apply reachable_pid_inv in Hr as Hi. split_and!.
  - apply (inv_used _ _ Hi).
  - apply (inv_uniq _ _ Hi).
  - intros nr n a. by apply find_pid_ns_spec.
  - intros n s Hs. destruct (inv_count _ _ Hi n s Hs) as (X & HX & Hc). exists X. split_and!; [done| |done].
    apply (live_bound st live n s); [done|done|]. intros q. apply HX.
Qed.

(** The number of a pid in a namespace is at the level of the namespace. *)
Lemma number_at_level st live a p q n s :
  pid_inv st live → a ∈ live → pids st !! a = Some p → (q, n) ∈ numbers p → nss st !! n = Some s →
  numbers p !! level s = Some (q, n).
Proof.
  intros Hi Ha Hp Hq Hs. destruct (inv_pid _ _ Hi a Ha) as (p' & m & sm & Hp' & Hsm & Hc). rewrite Hp in Hp'. injection Hp' as <-.
  apply list_elem_of_lookup in Hq as [i Hqi]. assert (chain (nss st) (S (level sm)) m !! i = Some n) as Hn.
  { by rewrite <- Hc, list_lookup_fmap, Hqi. }
  destruct (chain_levels _ (inv_tree _ _ Hi) _ _ _ Hsm eq_refl) as [_ Hl]. destruct (Hl i n Hn) as (s' & Hs' & <-). congruence.
Qed.

Lemma alloc_inv_cases st live ns cachep kz prepare st' r :
  pid_inv st live → (∀ a, cachep = Some a → pids st !! a = None) →
  alloc_pid st ns cachep kz prepare = Some (st', r) →
  ∃ s, nss st !! ns = Some s ∧
    match r with
    | None => unchanged st st'
    | Some a => a ∉ live ∧ pid_inv st' ({[a]} ∪ live) ∧ agree shape (nss st) (nss st') ∧
        ∃ l, pids st' = <[a := mkPid 1 l]> (pids st) ∧ l.*2 = chain (nss st) (S (level s)) ns ∧
          ∀ q n, (q, n) ∈ l → 0 < q ∧ ¬ used_in (nss st) n q
    end.
Proof.
  intros Hi Hc Ha. destruct (nss st !! ns) as [s|] eqn:Hs; [|unfold PidNs.alloc_pid in Ha; by rewrite Hs in Ha].
  exists s. split; [done|]. destruct (alloc_pid_ok init_pid_ns st live ns s cachep kz prepare Hi Hs Hc) as (st1 & r1 & Ha1 & Hr).
  rewrite Ha1 in Ha. injection Ha as -> ->. destruct r; [|done]. naive_solver.
Qed.

(** Lookups of other pids are not touched by a new one. *)
Lemma has_number_other st st' a a' l q n :
  pids st' = <[a := mkPid 1 l]> (pids st) → a' ≠ a → has_number st' a' q n ↔ has_number st a' q n.
Proof. intros E Hne. unfold has_number. by rewrite E, lookup_insert_ne. Qed.

(** C16: A new pid has a number in its namespace and in each one above it, up to the
    first; none of them was in use; it is found by each of them and [pid_nr_ns] gives
    them back; the other pids are found as before.  If [alloc_pid] fails, the ids in
    use and what is found are as before. *)
Theorem alloc_pid_correct st live ns cachep kz prepare st' r :
  reachable st live → (∀ a, cachep = Some a → pids st !! a = None) →
  alloc_pid st ns cachep kz prepare = Some (st', r) →
  match r with
  | Some a => ∃ p s, pids st' !! a = Some p ∧ nss st !! ns = Some s ∧
      (numbers p).*2 = chain (nss st) (S (level s)) ns ∧
      (∀ q n, (q, n) ∈ numbers p → 0 < q ∧ ¬ used_in (nss st) n q ∧
         find_pid_ns pid_hashfn st' q n = Some a ∧ pid_nr_ns st' (Some p) n = Some q) ∧
      ∀ q n a', a' ≠ a → find_pid_ns pid_hashfn st' q n = Some a' ↔ find_pid_ns pid_hashfn st q n = Some a'
  | None => (∀ n q, used_in (nss st') n q ↔ used_in (nss st) n q) ∧
      ∀ q n, find_pid_ns pid_hashfn st' q n = find_pid_ns pid_hashfn st q n
  end.
Proof.
  intros Hr Hc Ha. apply reachable_pid_inv in Hr as Hi.
  destruct (alloc_inv_cases _ _ _ _ _ _ _ _ Hi Hc Ha) as (s & Hs & Hres). destruct r as [a|].
  - destruct Hres as (Hal & Hi' & Esh & l & Hp' & Hch & Hfr). assert (pids st' !! a = Some (mkPid 1 l)) as Hpa.
    { by rewrite Hp', lookup_insert_eq. }
    assert (a ∈ {[a]} ∪ live) as Hin by set_solver. exists (mkPid 1 l), s. split_and!; [done|done|done| |].
    + intros q n Hq. destruct (Hfr q n Hq) as [Hq0 Hnu]. split_and!; [done|done| |].
      * apply (find_pid_ns_spec _ _ _ _ _ Hi'). split; [done|]. by exists (mkPid 1 l).
      * destruct (nss st' !! n) as [s'|] eqn:Hs'.
        2:{ assert (n ∈ l.*2) as Hn by (apply list_elem_of_fmap; by exists (q, n)). rewrite Hch in Hn.
            apply list_elem_of_lookup in Hn as [i Hn].
            destruct (chain_levels _ (inv_tree _ _ Hi) _ _ _ Hs eq_refl) as [_ Hl]. destruct (Hl i n Hn) as (sn & Hsn & _).
            destruct (agree_lookup _ _ _ _ _ Esh Hsn) as (? & ? & _). congruence. }
        pose proof (number_at_level _ _ _ _ _ _ _ Hi' Hin Hpa Hq Hs') as Hlev. cbn [numbers] in Hlev.
        cbn [pid_nr_ns numbers]. rewrite Hs'. cbn [mbind option_bind]. apply lookup_lt_Some in Hlev as Hlt.
        rewrite decide_True by done. rewrite Hlev. cbn [mbind option_bind]. cbn. by rewrite decide_True.
    + intros q n a' Hne. rewrite (find_pid_ns_spec _ _ _ _ _ Hi'), (find_pid_ns_spec _ _ _ _ _ Hi).
      rewrite (has_number_other st st' a a' l q n Hp' Hne). set_solver.
  - destruct Hres as (_ & Hh & _ & _ & Hu). split; [done|]. intros q n. unfold find_pid_ns. by rewrite Hh.
Qed.

(** [free_pid] undoes [alloc_pid]: the ids in use and what is found are as they
    were before the allocation. *)
Theorem alloc_free_pid st live ns cachep kz prepare st' a :
  reachable st live → (∀ a, cachep = Some a → pids st !! a = None) →
  alloc_pid st ns cachep kz prepare = Some (st', Some a) →
  ∃ st'', free_pid st' a = Some st'' ∧
    (∀ n q, used_in (nss st'') n q ↔ used_in (nss st) n q) ∧
    ∀ q n, find_pid_ns pid_hashfn st'' q n = find_pid_ns pid_hashfn st q n.
Proof.
  intros Hr Hc Ha. apply reachable_pid_inv in Hr as Hi.
  destruct (alloc_inv_cases _ _ _ _ _ _ _ _ Hi Hc Ha) as (s & Hs & Hal & Hi' & Esh & l & Hp' & Hch & Hfr).
  destruct (free_pid_ok st' ({[a]} ∪ live) a Hi' ltac:(set_solver)) as (st2 & Hf & Hi2 & Hp2 & Esh2 & Hu2).
  replace (({[a]} ∪ live) ∖ {[a]}) with live in Hi2 by (apply leibniz_equiv; set_solver).
  assert (∀ a' q n, a' ∈ live → has_number st2 a' q n ↔ has_number st a' q n) as Hnum.
  { intros a' q n Ha'. unfold has_number at 1. rewrite Hp2. apply (has_number_other st st' a a' l q n Hp'). set_solver. }
  exists st2. split_and!; [done| |].
  - intros n q. assert (agree shape (nss st) (nss st2)) as E by (by rewrite Esh).
    assert (live_number st2 live q n ↔ live_number st live q n) as Hln.
    { unfold live_number. split; intros (a' & Ha' & Hn); exists a'; (split; [done|]); by apply Hnum. }
    destruct (nss st !! n) as [s0|] eqn:Hs0.
    + destruct (agree_lookup _ _ _ _ _ E Hs0) as (s2 & Hs2 & _).
      by rewrite (used_in_lookup _ _ _ _ Hs2), (used_in_lookup _ _ _ _ Hs0), (inv_used _ _ Hi2 _ _ _ Hs2), (inv_used _ _ Hi _ _ _ Hs0), Hln.
    + specialize (E n). rewrite Hs0 in E. destruct (nss st2 !! n) eqn:Hs2; [done|].
      unfold used_in. rewrite Hs0, Hs2. done.
  - intros q n. apply option_eq. intros a'. rewrite (find_pid_ns_spec _ _ _ _ _ Hi2), (find_pid_ns_spec _ _ _ _ _ Hi).
    split; intros [Ha' Hn]; (split; [done|]); by apply Hnum.
Qed.

(** [find_ge_pid] ends after at most two rounds and gives the pid with the least
    number from [nr] on, if there is one. *)
Theorem find_ge_pid_correct st live ns s nr fuel :
  reachable st live → nss st !! ns = Some s → 0 ≤ nr → (2 ≤ fuel)%nat →
  ∃ r, find_ge_pid pid_hashfn fuel st nr ns = Some r ∧
    match r with
    | Some a => ∃ q, nr ≤ q ∧ a ∈ live ∧ has_number st a q ns ∧ ∀ q', nr ≤ q' < q → ¬ live_number st live q' ns
    | None => ∀ q, nr ≤ q → ¬ live_number st live q ns
    end.
Proof.
  intros Hr Hs Hnr Hfuel. apply reachable_pid_inv in Hr as Hi. destruct fuel as [|[|fuel]]; [lia|lia|]. cbn [find_ge_pid].
  destruct (find_pid_ns pid_hashfn st nr ns) as [a|] eqn:Ef.
  { apply (find_pid_ns_spec _ _ _ _ _ Hi) in Ef as [Ha Hn]. exists (Some a). split; [done|]. exists nr.
    split_and!; [lia|done|done|]. intros q' Hq'. lia. }
  assert (¬ live_number st live nr ns) as Hno.
  { intros (a & Ha & Hn). assert (find_pid_ns pid_hashfn st nr ns = Some a) by (by apply (find_pid_ns_spec _ live)). congruence. }
  rewrite Hs. cbn [mbind option_bind].
  destruct (pool_next_law (pidmap s) nr (inv_pools _ _ Hi _ _ Hs) Hnr) as (q & -> & Hq). cbn [mbind option_bind].
  assert (∀ x, nr ≤ x → (nr < x → ¬ pool_used (pidmap s) x) → ¬ live_number st live x ns) as Hfree.
  { intros x Hx Hu Hl. destruct (decide (x = nr)) as [->|]; [done|]. apply Hu; [lia|]. apply (inv_used _ _ Hi _ _ _ Hs). by right. }
  destruct Hq as [[-> Hq]|(Hlt & Hu & Hq)].
  - exists None. split; [by rewrite decide_False by lia|]. intros x Hx. apply Hfree; [done|]. intros ?. apply Hq. lia.
  - rewrite decide_True by lia. apply (inv_used _ _ Hi _ _ _ Hs) in Hu as [->|(a & Ha & Hn)]; [lia|].
    assert (find_pid_ns pid_hashfn st q ns = Some a) as -> by (by apply (find_pid_ns_spec _ live)).
    exists (Some a). split; [done|]. exists q. split_and!; [lia|done|done|]. intros x Hx. apply Hfree; [lia|]. intros ?. apply Hq. lia.
Qed.

(** C37: If the namespace takes no more pids, [alloc_pid] gives up, but the reference it
    took to the namespace stays: its count is one higher. *)
Theorem alloc_pid_leaks_namespace st live ns s a kz t l st' r :
  reachable st live → nss st !! ns = Some s → ns ≠ init_pid_ns → pids st !! a = None →
  Z.land (nr_hashed s) PIDNS_HASH_ADDING = 0 → alloc_numbers kz (S (level s)) (nss st) ns [] = Some (t, l, true) →
  alloc_pid st ns (Some a) kz true = Some (st', r) →
  r = None ∧ pids st' = pids st ∧ kref <$> nss st' !! ns = Some (kref s + 1).
Proof.
  intros Hr Hs Hne Hpa Hland Hal Ha. apply reachable_pid_inv in Hr as Hi.
  destruct (alloc_numbers_ok kz (S (level s)) (nss st) ns [] (inv_pools _ _ Hi) (inv_tree _ _ Hi))
    as (t0 & g & ok & Hal0 & Hg & _ & _); [by exists s|]. rewrite Hal in Hal0. injection Hal0 as <- -> <-. rewrite app_nil_r in *.
  unfold PidNs.alloc_pid in Ha. rewrite Hs in Ha. cbn [mbind option_bind] in Ha. rewrite Hal in Ha. cbn [mbind option_bind negb] in Ha.
  rewrite andb_false_r in Ha. destruct (agree_lookup _ _ _ _ _ (proj1 Hg) Hs) as (s1 & Hs1 & [= Hk Hn1 _ _ _]).
  unfold get_pid_ns in Ha. rewrite decide_False in Ha by done. rewrite Hs1 in Ha. cbn [mbind option_bind] in Ha.
  rewrite lookup_insert_eq in Ha. cbn [mbind option_bind] in Ha. cbn [set_kref nr_hashed] in Ha.
  rewrite decide_True in Ha by congruence. set (t1 := <[ns := _]> t) in Ha.
  assert (agree core t t1) as E1.
  { intros n. unfold t1. destruct (decide (ns = n)) as [<-|]; [by rewrite lookup_insert_eq, Hs1|by rewrite lookup_insert_ne]. }
  destruct Hg as (E & Hok & Hnd & Hu & Hf). destruct (free_numbers_ok g t1) as (t2 & Hfr & E2 & _ & _).
  - by apply (core_pools t).
  - by apply NoDup_fmap_1 in Hnd.
  - intros n q Hq. apply (core_used _ _ E1), Hu. by right.
  - rewrite Hfr in Ha. cbn [mbind option_bind] in Ha. injection Ha as <- <-. split_and!; [done|done|]. cbn.
    destruct (agree_lookup _ _ _ ns (set_kref s1 (kref s1 + 1)) E2) as (s2 & -> & [= Hk2 _ _ _ _]); [unfold t1; by rewrite lookup_insert_eq|].
    cbn in *. congruence.
Qed.
End reach.
End hash.

(** * The maps of process ids are a pool *)

Section maps_pool.
Context `{FindBit} (page_order pid_max limit : Z) (entries : nat).
Local Abbreviation BPP := (BITS_PER_PAGE page_order).
Context (Horder : 0 ≤ page_order) (Hmax : RESERVED_PIDS < pid_max ≤ limit) (Hbpp : RESERVED_PIDS < BPP).
Context (Hentries : (pid_max - 1) / BPP < Z.of_nat entries) (Hwidth : Z.of_nat entries * BPP ≤ 2 ^ 31).

(** The maps of a new namespace: id 0 is taken. *)
Definition new_maps : pid_maps :=
  mkMaps (mkMap (BPP - 1) (Some {[0]}) :: replicate (entries - 1) (mkMap BPP None)) 0.

Definition maps_pool_ok (ns : pid_maps) : Prop :=
  maps_ok page_order ns ∧ 0 ≤ last_pid ns ∧ length (maps ns) = entries ∧
  ∀ q, in_use page_order ns q → q < limit.

Lemma in_use_range ns q : length (maps ns) = entries → in_use page_order ns q → 0 ≤ q < 2 ^ 31.
Proof using Horder Hwidth pid_max.
  intros Hlen (Hq & mp & pg & Hmp & _). apply lookup_lt_Some in Hmp. pose proof (bpp_pos page_order Horder) as Hb.
  pose proof (Z.mul_succ_div_gt q BPP Hb) as Hdiv. pose proof (Z.div_pos q BPP Hq Hb) as Hpos. split; [done|].
  assert (Z.succ (q / BPP) ≤ Z.of_nat entries) by lia.
  assert (BPP * Z.succ (q / BPP) ≤ BPP * Z.of_nat entries) by (apply Z.mul_le_mono_nonneg_l; lia). lia.
Qed.

Lemma entries_pos : (0 < entries)%nat.
Proof using Hbpp Hentries Hmax Horder.
  pose proof (bpp_pos page_order Horder). assert (0 ≤ (pid_max - 1) / BPP); [|lia].
  apply Z.div_pos; unfold RESERVED_PIDS in *; lia.
Qed.

Lemma new_maps_used q : in_use page_order new_maps q ↔ q = 0.
Proof using Horder pid_max.
  pose proof (bpp_pos page_order Horder) as Hb. split.
  - intros (Hq & mp & pg & Hmp & Hpg & Hin). cbn in Hmp. destruct (Z.to_nat (q / BPP)) as [|i] eqn:Ei.
    + cbn in Hmp. injection Hmp as <-. cbn in Hpg. injection Hpg as <-. apply elem_of_singleton in Hin.
      assert (q / BPP = 0) as Ed by (pose proof (Z.div_pos q BPP Hq Hb); lia).
      rewrite (Z.div_mod q BPP) by lia. rewrite Ed, Hin. lia.
    + cbn in Hmp. apply lookup_replicate in Hmp as [-> _]. done.
  - intros ->. split; [done|]. rewrite Z.div_0_l, Z.mod_0_l by lia. eexists _, _. split_and!; [done|done|set_solver].
Qed.

Lemma new_maps_ok : maps_pool_ok new_maps.
Proof using Hbpp Hentries Hmax Horder.
  pose proof (bpp_pos page_order Horder) as Hb. pose proof entries_pos. split_and!.
  - constructor; [|apply Forall_replicate; done]. unfold map_ok. cbn [page nr_free]. rewrite size_singleton. split; [|lia].
    intros x Hx. apply elem_of_singleton in Hx as ->. lia.
  - done.
  - cbn. rewrite length_replicate. lia.
  - intros q Hq. apply new_maps_used in Hq as ->. unfold RESERVED_PIDS in *. lia.
Qed.

Lemma maps_pool_alloc kz m : maps_pool_ok m →
  (∃ m' p, alloc_pidmap page_order pid_max kz m = Some (m', p) ∧ 0 ≤ p ∧ maps_pool_ok m' ∧ ¬ in_use page_order m p ∧
     ∀ q, in_use page_order m' q ↔ in_use page_order m q ∨ q = p) ∨
  (∃ m', alloc_pidmap page_order pid_max kz m = Some (m', -1) ∧ maps_pool_ok m' ∧
     ∀ q, in_use page_order m' q ↔ in_use page_order m q).
Proof using Hbpp Hentries Hmax Horder.
  intros (Hok & Hl & Hlen & Hlim).
  destruct (alloc_pidmap_result page_order pid_max Horder kz m ltac:(lia) Hbpp ltac:(by rewrite Hlen) Hok Hl)
    as [(m' & p & Ha & (Hok' & Hlen' & Hlast & Hn & Hu) & _ & Hff)|(m' & Ha & (Hok' & Hlast & Hlen' & Hu) & _)].
  - assert (0 ≤ p < pid_max) as Hp.
    { unfold start_pid, RESERVED_PIDS in *. destruct Hff as [[? _]|(_ & ? & _)]; case_decide; lia. }
    left. exists m', p. split_and!; [done|lia| |done|done]. split_and!; [done|lia|congruence|].
    intros q Hq. apply Hu in Hq as [Hq| ->]; [by apply Hlim|lia].
  - right. exists m'. split_and!; [done| |done]. split_and!; [done|lia|congruence|]. intros q Hq. by apply Hlim, Hu.
Qed.

#[export] Instance maps_pool : IdPool pid_maps.
Proof using H Hbpp Hentries Hmax Horder Hwidth.
  refine {| pool_alloc := alloc_pidmap page_order pid_max; pool_free := free_pidmap page_order;
            pool_next := next_pidmap page_order limit; pool_new := new_maps;
            pool_used := in_use page_order; pool_ok := maps_pool_ok |}.
  - split; [apply new_maps_ok|apply new_maps_used].
  - apply maps_pool_alloc.
  - intros m p (Hok & Hl & Hlen & Hlim) Hp. destruct (free_pidmap_ok page_order Horder m p Hok Hp) as (m' & Hf & Hok' & Hl' & Hlen' & Hu).
    exists m'. split_and!; [done| |done]. split_and!; [done|lia|congruence|]. intros q Hq. apply Hu in Hq as [Hq _]. by apply Hlim.
  - intros m last (Hok & Hl & Hlen & Hlim) Hlast.
    destruct (next_pidmap_correct page_order Horder limit m last Hlast Hlim) as (r & Hr & Hn). exists r. split; [done|].
    destruct Hn as [[-> Hn]|(Hle & Hu & Hn)]; [left|right; split; [lia|]]; (split; [done|]); intros q Hq; apply Hn; lia.
  - intros m q (_ & _ & Hlen & _). by apply in_use_range.
Defined.
End maps_pool.

(** * Examples *)

Module PidDemo.
Import FindDemo.

(** Two maps of 512 ids; 600 ids are given out. *)
Definition demo_pool : IdPool pid_maps.
Proof. refine (maps_pool 9 600 600 2 _ _ _ _ _); done. Defined.
#[local] Existing Instance demo_pool.

Definition hashfn (nr : Z) (ns : nat) : Z := (nr + Z.of_nat ns) mod 16.
Definition kz (_ _ : nat) : bool := true.
Definition run {A} (st : pid_state pid_maps) (r : option (pid_state pid_maps * A)) : pid_state pid_maps :=
  from_option fst st r.

(** A process in the first namespace; a new namespace; a process in that one; and the
    new namespace takes no more. *)
Definition st0 : pid_state pid_maps := pidmap_init 0%nat.
Definition st1 := run st0 (alloc_pid hashfn 0 st0 0 (Some 10%nat) kz true).
Definition st2 := run st1 (copy_pid_ns 0 st1 true 0 0 (Some 1%nat) true true Ok).
Definition st3 := run st2 (alloc_pid hashfn 0 st2 1 (Some 11%nat) kz true).
Definition st4 := default st3 (disable_pid_allocation st3 1).

Example st3_numbers : numbers <$> pids st3 !! 11%nat = Some [(2, 0%nat); (1, 1%nat)].
Proof. vm_compute. reflexivity. Qed.

Example st3_found : find_pid_ns hashfn st3 1 1 = Some 11%nat ∧ find_ge_pid hashfn 2 st3 2 0 = Some (Some 11%nat).
Proof. split; vm_compute; reflexivity. Qed.

Definition live3 : gset nat := {[11%nat]} ∪ ({[10%nat]} ∪ ∅).

Lemma alloc1 : alloc_pid hashfn 0 st0 0 (Some 10%nat) kz true = Some (st1, Some 10%nat).
Proof. vm_compute. reflexivity. Qed.
Lemma alloc3 : alloc_pid hashfn 0 st2 1 (Some 11%nat) kz true = Some (st3, Some 11%nat).
Proof. vm_compute. reflexivity. Qed.
Lemma copy2 : copy_pid_ns 0 st1 true 0 0 (Some 1%nat) true true Ok = Some (st2, inr 1%nat).
Proof. vm_compute. reflexivity. Qed.
Lemma disable4 : disable_pid_allocation st3 1 = Some st4.
Proof. vm_compute. reflexivity. Qed.

Lemma fresh {A} (m : gmap nat A) a : m !! a = None → ∀ a', Some a = Some a' → m !! a' = None.
Proof. by intros Hf a' [= <-]. Qed.

Lemma fresh1 : nss st1 !! 1%nat = None.
Proof. vm_compute. reflexivity. Qed.

Lemma reach2 : rtc (pid_step hashfn 0) (st0, ∅) (st2, {[10%nat]} ∪ ∅).
Proof.
  eapply rtc_l; [apply (step_alloc _ _ _ _ _ _ _ _ _ _ (fresh (pids st0) 10 eq_refl) alloc1)|].
  eapply rtc_l; [|apply rtc_refl].
  apply (step_copy_ns _ _ _ _ _ _ _ _ _ _ _ _ _ (fresh (nss st1) 1 fresh1) copy2).
Qed.

Lemma fresh11 : pids st2 !! 11%nat = None.
Proof. vm_compute. reflexivity. Qed.

Lemma reach4 : rtc (pid_step hashfn 0) (st0, ∅) (st4, live3).
Proof.
  etransitivity; [exact reach2|].
  eapply rtc_l; [apply (step_alloc _ _ _ _ _ _ _ _ _ _ (fresh (pids st2) 11 fresh11) alloc3)|].
  eapply rtc_l; [apply (step_disable _ _ _ _ _ _ disable4)|apply rtc_refl].
Qed.

Lemma pid_hash_invariant_witness :
  find_pid_ns hashfn st4 1 1 = Some 11%nat ↔ 11%nat ∈ live3 ∧ has_number st4 11 1 1.
Proof. apply (pid_hash_invariant hashfn 0 st4 live3 reach4). Defined.

Lemma alloc_pid_correct_witness : pid_nr_ns st3 (pids st3 !! 11%nat) 0 = Some 2.
Proof.
  destruct (alloc_pid_correct hashfn 0 st2 _ 1 (Some 11%nat) kz true st3 (Some 11%nat) reach2 (fresh (pids st2) 11 fresh11) alloc3)
    as (p & s & Hp & _ & _ & Hn & _).
  assert (numbers p = [(2, 0%nat); (1, 1%nat)]) as Hnum.
  { assert (numbers <$> pids st3 !! 11%nat = Some [(2, 0%nat); (1, 1%nat)]) as E by (vm_compute; reflexivity).
    rewrite Hp in E. by injection E. }
  rewrite Hp. apply (Hn 2 0%nat). rewrite Hnum. left.
Defined.

Lemma alloc_free_pid_witness :
  ∃ st, free_pid hashfn st3 11 = Some st ∧ find_pid_ns hashfn st 1 1 = find_pid_ns hashfn st2 1 1.
Proof.
  destruct (alloc_free_pid hashfn 0 st2 _ 1 (Some 11%nat) kz true st3 11 reach2 (fresh (pids st2) 11 fresh11) alloc3) as (st & Hf & _ & Hfind).
  exists st. split; [exact Hf|apply Hfind].
Defined.

Lemma st4_ns : ∃ s, nss st4 !! 1%nat = Some s ∧ Z.land (nr_hashed s) PIDNS_HASH_ADDING = 0 ∧ level s = 1%nat ∧ kref s = 2.
Proof. eexists. split; [vm_compute; reflexivity|]. split; [reflexivity|split; reflexivity]. Qed.

Lemma find_ge_pid_correct_witness : ∃ r, find_ge_pid hashfn 2 st4 1 1 = Some r.
Proof.
  destruct st4_ns as (s & Hs & _).
  destruct (find_ge_pid_correct hashfn 0 st4 live3 1 s 1 2 reach4 Hs ltac:(lia) ltac:(lia)) as (r & Hr & _).
  exists r. exact Hr.
Defined.

(** The reference count of the namespace goes up with every attempt. *)
Lemma alloc_pid_leaks_namespace_witness :
  ∃ st, alloc_pid hashfn 0 st4 1 (Some 12%nat) kz true = Some (st, None) ∧ kref <$> nss st !! 1%nat = Some 3.
Proof.
  destruct st4_ns as (s & Hs & Hland & Hl & Hk).
  assert (∃ t l, alloc_numbers kz 2 (nss st4) 1 [] = Some (t, l, true)) as (t & l & Hal) by (eexists _, _; vm_compute; reflexivity).
  assert (∃ st r, alloc_pid hashfn 0 st4 1 (Some 12%nat) kz true = Some (st, r)) as (st & r & Ha) by (eexists _, _; vm_compute; reflexivity).
  destruct (alloc_pid_leaks_namespace hashfn 0 st4 live3 1 s 12 kz t l st r reach4 Hs ltac:(lia) ltac:(vm_compute; reflexivity) Hland
    ltac:(rewrite Hl; exact Hal) Ha) as (-> & _ & Hkr).
  exists st. split; [exact Ha|]. rewrite Hkr, Hk. reflexivity.
Defined.
End PidDemo.
