(* ===== verification/LockBfs.v ===== *)
(** The graph of lock dependencies of the lock validator and the search in it,
    kernel/locking/lockdep.c: the circular queue, [__bfs], [get_lock_depth] and the
    counts of dependencies.

    A class of locks has a list of the classes that were taken after it and a list
    of those taken before it; the elements of the lists are entries of a table, and
    the search leaves in each entry it reaches the entry it came from.  Entries and
    classes are found by their index in the tables of the code.

    The theorems: the queue is a list of at most 4095 elements; the search ends,
    and either finds the class nearest to the source that it looks for, with a
    shortest path to it in the parent pointers, or shows that there is none, or
    gives up because the queue is full, which cannot happen with fewer than 4096
    classes. *)

From S2P Require Import Prelude.

Local Open Scope Z_scope.

(** * The circular queue *)

(** An entry: the one on the stack of the caller, or one of the table. *)
Inductive eref := Root | Ent (i : nat).

Global Instance eref_eq_dec : EqDecision eref.
Proof. solve_decision. Defined.

Definition MAX_CIRCULAR_QUEUE_SIZE : Z := 4096.
Definition CQ_MASK : Z := MAX_CIRCULAR_QUEUE_SIZE - 1.

Record circular_queue := mkCq {
  element : gmap Z eref;
  front : Z;
  rear : Z;
}.

Definition __cq_init (cq : circular_queue) : circular_queue := mkCq (element cq) 0 0.

Definition __cq_empty (cq : circular_queue) : bool := bool_decide (front cq = rear cq).

Definition __cq_full (cq : circular_queue) : bool :=
  bool_decide (Z.land (u32 (rear cq + 1)) CQ_MASK = front cq).

Definition __cq_enqueue (cq : circular_queue) (elem : eref) : circular_queue * Z :=
  if __cq_full cq then (cq, -1)
  else (mkCq (<[rear cq := elem]> (element cq)) (front cq) (Z.land (u32 (rear cq + 1)) CQ_MASK), 0).

(** The element, if one is written; a slot that was never written gives [None]. *)
Definition __cq_dequeue (cq : circular_queue) : option (circular_queue * option eref) :=
  if __cq_empty cq then Some (cq, None)
  else
    e ← element cq !! front cq;
    Some (mkCq (element cq) (Z.land (u32 (front cq + 1)) CQ_MASK) (rear cq), Some e).

Definition __cq_get_elem_count (cq : circular_queue) : Z := Z.land (u32 (rear cq - front cq)) CQ_MASK.

(** * Classes and entries *)

Record lock_class := mkClass {
  locks_after : list nat;
  locks_before : list nat;
  usage_mask : Z;
  dep_gen_id : Z;
}.

Record lock_list := mkEntry {
  l_class : option nat;
  l_parent : option eref;
  distance : Z;
}.

Record lockdep := mkDep {
  lock_classes : gmap nat lock_class;
  list_entries : gmap nat lock_list;
  nr_list_entries : nat;
  lock_cq : circular_queue;
  lockdep_dependency_gen_id : Z;
  max_bfs_queue_depth : Z;
  debug_locks : bool;
}.

Definition set_classes (f : gmap nat lock_class → gmap nat lock_class) (s : lockdep) : lockdep :=
  mkDep (f (lock_classes s)) (list_entries s) (nr_list_entries s) (lock_cq s)
    (lockdep_dependency_gen_id s) (max_bfs_queue_depth s) (debug_locks s).
Definition set_entries (f : gmap nat lock_list → gmap nat lock_list) (s : lockdep) : lockdep :=
  mkDep (lock_classes s) (f (list_entries s)) (nr_list_entries s) (lock_cq s)
    (lockdep_dependency_gen_id s) (max_bfs_queue_depth s) (debug_locks s).
Definition set_cq (cq : circular_queue) (s : lockdep) : lockdep :=
  mkDep (lock_classes s) (list_entries s) (nr_list_entries s) cq
    (lockdep_dependency_gen_id s) (max_bfs_queue_depth s) (debug_locks s).
Definition set_gen (g : Z) (s : lockdep) : lockdep :=
  mkDep (lock_classes s) (list_entries s) (nr_list_entries s) (lock_cq s) g (max_bfs_queue_depth s) (debug_locks s).
Definition set_depth (d : Z) (s : lockdep) : lockdep :=
  mkDep (lock_classes s) (list_entries s) (nr_list_entries s) (lock_cq s) (lockdep_dependency_gen_id s) d (debug_locks s).
Definition set_debug (b : bool) (s : lockdep) : lockdep :=
  mkDep (lock_classes s) (list_entries s) (nr_list_entries s) (lock_cq s)
    (lockdep_dependency_gen_id s) (max_bfs_queue_depth s) b.

Definition set_gen_id (g : Z) (c : lock_class) : lock_class :=
  mkClass (locks_after c) (locks_before c) (usage_mask c) g.
Definition set_parent (p : option eref) (e : lock_list) : lock_list := mkEntry (l_class e) p (distance e).

(** [__cq_init] starts a new generation of marks. *)
Definition cq_init (s : lockdep) : lockdep :=
  set_gen (u32 (lockdep_dependency_gen_id s + 1)) (set_cq (__cq_init (lock_cq s)) s).

(** The entry, of which [src] is the one on the stack. *)
Definition deref (src : lock_list) (s : lockdep) (r : eref) : option lock_list :=
  match r with Root => Some src | Ent i => list_entries s !! i end.

Definition mark_lock_accessed (s : lockdep) (i c : nat) (parent : eref) : lockdep :=
  set_classes (alter (set_gen_id (lockdep_dependency_gen_id s)) c)
    (set_entries (alter (set_parent (Some parent)) i) s).

Definition lock_accessed (s : lockdep) (c : lock_class) : bool :=
  bool_decide (dep_gen_id c = lockdep_dependency_gen_id s).

Definition get_lock_parent (src : lock_list) (s : lockdep) (child : eref) : option (option eref) :=
  e ← deref src s child; Some (l_parent e).

(** The loop of [get_lock_depth] over at most [fuel] parents. *)
Fixpoint get_lock_depth (fuel : nat) (src : lock_list) (s : lockdep) (child : eref) (depth : Z) : option Z :=
  p ← get_lock_parent src s child;
  match p with
  | None => Some depth
  | Some parent =>
      match fuel with
      | O => None
      | S fuel => get_lock_depth fuel src s parent (depth + 1)
      end
  end.

(** * The search *)

Definition heads (forward : bool) (c : lock_class) : list nat :=
  if forward then locks_after c else locks_before c.

Section bfs.
Context {A : Type} (mtch : A → nat → A * bool) (src : lock_list) (forward : bool).

(** What [__bfs] returns: 0 and the target, 1, -1 or -2. *)
Inductive bfs_ret := Found (target : eref) | NotFound | QueueFull | NoClass.

(** The entries of one list, which are reached from [lock]. *)
Fixpoint bfs_scan (s : lockdep) (a : A) (lock : eref) (l : list nat) : option (lockdep * A * option bfs_ret) :=
  match l with
  | [] => Some (s, a, None)
  | i :: l =>
      e ← list_entries s !! i;
      c ← l_class e;
      cl ← lock_classes s !! c;
      if lock_accessed s cl then bfs_scan s a lock l
      else
        let s := mark_lock_accessed s i c lock in
        let (a, found) := mtch a c in
        if found : bool then Some (s, a, Some (Found (Ent i)))
        else
          let (cq, r) := __cq_enqueue (lock_cq s) (Ent i) in
          let s := set_cq cq s in
          if decide (r ≠ 0) then Some (s, a, Some QueueFull)
          else
            let cq_depth := __cq_get_elem_count (lock_cq s) in
            let s := if decide (max_bfs_queue_depth s < cq_depth) then set_depth cq_depth s else s in
            bfs_scan s a lock l
  end.

(** The elements of the queue, at most [fuel] of them. *)
Fixpoint bfs_loop (fuel : nat) (s : lockdep) (a : A) : option (lockdep * A * bfs_ret) :=
  if __cq_empty (lock_cq s) then Some (s, a, NotFound)
  else
    match fuel with
    | O => None
    | S fuel =>
        '(cq, lock) ← __cq_dequeue (lock_cq s);
        let s := set_cq cq s in
        lock ← lock;
        e ← deref src s lock;
        match l_class e with
        | None => Some (s, a, NoClass)
        | Some c =>
            cl ← lock_classes s !! c;
            '(s, a, r) ← bfs_scan s a lock (heads forward cl);
            match r with
            | Some r => Some (s, a, r)
            | None => bfs_loop fuel s a
            end
        end
    end.

Definition __bfs (s : lockdep) (a : A) : option (lockdep * A * bfs_ret) :=
  c ← l_class src;
  let (a, found) := mtch a c in
  if found : bool then Some (s, a, Found Root)
  else
    cl ← lock_classes s !! c;
    match heads forward cl with
    | [] => Some (s, a, NotFound)
    | _ :: _ =>
        let s := cq_init s in
        let s := set_cq (__cq_enqueue (lock_cq s) Root).1 s in
        bfs_loop (S (size (lock_classes s))) s a
    end.
End bfs.

Definition class_equal (target : nat) (_ : unit) (c : nat) : unit * bool := (tt, bool_decide (c = target)).

Definition usage_match (s : lockdep) (bit : Z) (_ : unit) (c : nat) : unit * bool :=
  (tt, match lock_classes s !! c with
       | Some cl => bool_decide (Z.land (usage_mask cl) (Z.shiftl 1 bit) ≠ 0)
       | None => false
       end).

Definition noop_count (count : Z) (c : nat) : Z * bool := (count + 1, false).

(** The entry [this] of the callers. *)
Definition this_entry (c : nat) : lock_list := mkEntry (Some c) None 0.

Definition lockdep_count_deps (forward : bool) (s : lockdep) (c : nat) : option (lockdep * Z) :=
  '(s, count, _) ← __bfs noop_count (this_entry c) forward s 0;
  Some (s, count).
Definition lockdep_count_forward_deps := lockdep_count_deps true.
Definition lockdep_count_backward_deps := lockdep_count_deps false.

(** * The queue is a list *)

(** The elements from [front] on, round the array. *)
Definition cq_rep (q : circular_queue) (l : list eref) : Prop :=
  0 ≤ front q < MAX_CIRCULAR_QUEUE_SIZE ∧ Z.of_nat (length l) < MAX_CIRCULAR_QUEUE_SIZE ∧
  rear q = (front q + Z.of_nat (length l)) mod MAX_CIRCULAR_QUEUE_SIZE ∧
  ∀ i e, l !! i = Some e → element q !! ((front q + Z.of_nat i) mod MAX_CIRCULAR_QUEUE_SIZE) = Some e.

Lemma cq_mask_mod x : Z.land x CQ_MASK = x mod MAX_CIRCULAR_QUEUE_SIZE.
Proof. change CQ_MASK with (Z.ones 12). by rewrite Z.land_ones. Qed.

Lemma cq_next x : 0 ≤ x < MAX_CIRCULAR_QUEUE_SIZE → Z.land (u32 (x + 1)) CQ_MASK = (x + 1) mod MAX_CIRCULAR_QUEUE_SIZE.
Proof. unfold MAX_CIRCULAR_QUEUE_SIZE. intros Hx. rewrite cq_mask_mod, wrap_small by width. done. Qed.

(** Slots that are fewer than a round apart differ. *)
Lemma cq_slot_ne f i j :
  0 ≤ i < MAX_CIRCULAR_QUEUE_SIZE → 0 ≤ j < MAX_CIRCULAR_QUEUE_SIZE →
  (f + i) mod MAX_CIRCULAR_QUEUE_SIZE = (f + j) mod MAX_CIRCULAR_QUEUE_SIZE → i = j.
Proof. unfold MAX_CIRCULAR_QUEUE_SIZE. intros Hi Hj E. Z.to_euclidean_division_equations. lia. Qed.

Lemma cq_init_rep q : cq_rep (__cq_init q) [].
Proof. split_and!; try done. Qed.

Lemma cq_empty_spec q l : cq_rep q l → __cq_empty q = bool_decide (l = []).
Proof.
  intros (Hf & Hl & Hr & _). apply bool_decide_ext. rewrite Hr. split.
  - intros E. destruct l as [|x l]; [done|exfalso].
    assert (0 = Z.of_nat (length (x :: l))); [|cbn [length] in *; lia].
    apply (cq_slot_ne (front q)); [done|lia|]. rewrite Z.add_0_r, (Z.mod_small (front q)) by done. done.
  - intros ->. cbn. rewrite Z.add_0_r. by rewrite Z.mod_small.
Qed.

Lemma cq_rear q l : cq_rep q l → Z.land (u32 (rear q + 1)) CQ_MASK =
  (front q + Z.of_nat (length l + 1)) mod MAX_CIRCULAR_QUEUE_SIZE.
Proof.
  intros (Hf & Hl & Hr & _). rewrite cq_next by (rewrite Hr; by apply Z.mod_pos_bound). rewrite Hr, Zplus_mod_idemp_l. f_equal. lia.
Qed.

Lemma cq_full_spec q l : cq_rep q l → __cq_full q = bool_decide (Z.of_nat (length l) = MAX_CIRCULAR_QUEUE_SIZE - 1).
Proof.
  intros Hrep. apply bool_decide_ext. rewrite (cq_rear q l Hrep). destruct Hrep as (Hf & Hl & Hr & _).
  unfold MAX_CIRCULAR_QUEUE_SIZE in *. split; intros E; Z.to_euclidean_division_equations; lia.
Qed.

(** The queue takes what is put into it, up to its size. *)
Lemma cq_enqueue_rep q l e : cq_rep q l →
  if decide (Z.of_nat (length l) = MAX_CIRCULAR_QUEUE_SIZE - 1) then __cq_enqueue q e = (q, -1)
  else ∃ q', __cq_enqueue q e = (q', 0) ∧ cq_rep q' (l ++ [e]).
Proof.
  intros Hrep. unfold __cq_enqueue. rewrite (cq_full_spec q l Hrep). case_decide as Hfull.
  { by rewrite bool_decide_eq_true_2. }
  rewrite bool_decide_eq_false_2 by done. eexists. split; [done|]. pose proof (cq_rear q l Hrep) as Hrear.
  destruct Hrep as (Hf & Hl & Hr & Hel). split_and!; cbn; [lia|lia|rewrite length_app; cbn; lia|rewrite length_app; cbn; done|].
  intros i x Hx. apply lookup_app_Some in Hx as [Hx|[Hge Hx]].
  - rewrite lookup_insert_ne; [by apply Hel|]. rewrite Hr. intros E. apply cq_slot_ne in E; apply lookup_lt_Some in Hx; lia.
  - apply list_lookup_singleton_Some in Hx as [Hi <-]. assert (i = length l) as -> by lia. rewrite Hr. apply lookup_insert_eq.
Qed.

(** The elements come out in the order they were put in. *)
Lemma cq_dequeue_rep q e l : cq_rep q (e :: l) →
  ∃ q', __cq_dequeue q = Some (q', Some e) ∧ cq_rep q' l.
Proof.
  intros Hrep. unfold __cq_dequeue. rewrite (cq_empty_spec q _ Hrep), bool_decide_eq_false_2 by done.
  destruct Hrep as (Hf & Hl & Hr & Hel). pose proof (Hel 0%nat e eq_refl) as H0. rewrite Z.add_0_r, Z.mod_small in H0 by done.
  rewrite H0. cbn [mbind option_bind]. eexists. split; [done|]. rewrite cq_next by done. cbn [length] in *.
  split_and!; cbn; [by apply Z.mod_pos_bound|by apply Z.mod_pos_bound|lia| |].
  - rewrite Hr, Zplus_mod_idemp_l. f_equal. lia.
  - intros i x Hx. rewrite Zplus_mod_idemp_l. replace (front q + 1 + Z.of_nat i) with (front q + Z.of_nat (S i)) by lia. by apply Hel.
Qed.

Lemma cq_count q l : cq_rep q l → __cq_get_elem_count q = Z.of_nat (length l).
Proof.
  intros (Hf & Hl & Hr & _). unfold __cq_get_elem_count. rewrite cq_mask_mod. unfold u32, wrap, MAX_CIRCULAR_QUEUE_SIZE in *.
  rewrite Hr. pow2. Z.to_euclidean_division_equations. lia.
Qed.

(** * The graph *)

Section graph.
Context (forward : bool).

(** A dependency of [c'] on [c] (forwards) or of [c] on [c'] (backwards). *)
Definition edge (s : lockdep) (c c' : nat) : Prop :=
  ∃ cl i e, lock_classes s !! c = Some cl ∧ i ∈ heads forward cl ∧
    list_entries s !! i = Some e ∧ l_class e = Some c'.

(** The lists are lists of entries of classes. *)
Definition graph_ok (s : lockdep) : Prop :=
  ∀ c cl i, lock_classes s !! c = Some cl → i ∈ heads forward cl →
    ∃ e c', list_entries s !! i = Some e ∧ l_class e = Some c' ∧ is_Some (lock_classes s !! c').

(** The searches leave all but marks, parents and queue alone (the distances are not
    part of the graph). *)
Definition class_core (c : lock_class) : list nat * list nat * Z := (locks_after c, locks_before c, usage_mask c).
Definition entry_core (e : lock_list) : option nat := l_class e.

Definition same_graph (s s' : lockdep) : Prop :=
  (∀ c, class_core <$> lock_classes s !! c = class_core <$> lock_classes s' !! c) ∧
  (∀ i, entry_core <$> list_entries s !! i = entry_core <$> list_entries s' !! i) ∧
  nr_list_entries s = nr_list_entries s' ∧ debug_locks s = debug_locks s'.

Global Instance same_graph_equiv : Equivalence same_graph.
Proof.
  split.
  - intros s. by split_and!.
  - intros s s' (H1 & H2 & H3 & H4). split_and!; [by intros c; rewrite H1|by intros i; rewrite H2|done|done].
  - intros s s' s'' (H1 & H2 & H3 & H4) (K1 & K2 & K3 & K4).
    split_and!; [by intros c; rewrite H1, K1|by intros i; rewrite H2, K2|congruence|congruence].
Qed.

Lemma same_class s s' c cl : same_graph s s' → lock_classes s !! c = Some cl →
  ∃ cl', lock_classes s' !! c = Some cl' ∧ heads forward cl' = heads forward cl ∧ usage_mask cl' = usage_mask cl.
Proof.
  intros (Hc & _) Hcl. specialize (Hc c). rewrite Hcl in Hc. destruct (lock_classes s' !! c) as [cl'|]; [|done].
  injection Hc as Ha Hb Hu. exists cl'. unfold heads. split_and!; [done|destruct forward; congruence|congruence].
Qed.

Lemma same_entry s s' i e : same_graph s s' → list_entries s !! i = Some e →
  ∃ e', list_entries s' !! i = Some e' ∧ l_class e' = l_class e.
Proof.
  intros (_ & He & _) Hi. specialize (He i). rewrite Hi in He. destruct (list_entries s' !! i) as [e'|]; [|done].
  assert (Some (l_class e) = Some (l_class e')) as [= Hc] by exact He. exists e'. split; [done|congruence].
Qed.

Lemma same_edge_1 s s' c c' : same_graph s s' → edge s c c' → edge s' c c'.
Proof.
  intros E (cl & i & e & Hcl & Hi & He & Hc). destruct (same_class _ _ _ _ E Hcl) as (cl' & Hcl' & Hh & _).
  destruct (same_entry _ _ _ _ E He) as (e' & He' & Hce). exists cl', i, e'. split_and!; [done|by rewrite Hh|done|congruence].
Qed.

Lemma same_edge s s' c c' : same_graph s s' → edge s c c' ↔ edge s' c c'.
Proof. intros E. split; apply same_edge_1; [done|by symmetry]. Qed.

Lemma same_ok s s' : same_graph s s' → graph_ok s → graph_ok s'.
Proof.
  intros E Hok c cl' i Hcl' Hi. pose proof E as E'. symmetry in E'.
  destruct (same_class _ _ _ _ E' Hcl') as (cl & Hcl & Hh & _). rewrite <- Hh in Hi.
  destruct (Hok c cl i Hcl Hi) as (e & c' & He & Hc & [x Hx]).
  destruct (same_entry _ _ _ _ E He) as (e' & He' & Hce). destruct (same_class _ _ _ _ E Hx) as (x' & Hx' & _).
  exists e', c'. split_and!; [done|congruence|by exists x'].
Qed.

Lemma same_dom s s' : same_graph s s' → dom (lock_classes s) = dom (lock_classes s').
Proof.
  intros (Hc & _). apply leibniz_equiv. intros c. rewrite !elem_of_dom. specialize (Hc c).
  destruct (lock_classes s !! c), (lock_classes s' !! c); try done; split; by intros [? ?].
Qed.

Lemma same_size s s' : same_graph s s' → size (lock_classes s) = size (lock_classes s').
Proof. intros E. by rewrite <- !size_dom, (same_dom _ _ E). Qed.

(** ** The operations of the search keep the graph *)

Lemma same_cq q s : same_graph s (set_cq q s).
Proof. by split_and!. Qed.

Lemma same_init s : same_graph s (cq_init s).
Proof. by split_and!. Qed.

Lemma same_mark s i c r : same_graph s (mark_lock_accessed s i c r).
Proof.
  split_and!; [| |done|done].
  - intros c'. cbn. destruct (decide (c = c')) as [<-|]; [rewrite lookup_alter_eq|by rewrite lookup_alter_ne].
    by destruct (lock_classes s !! c).
  - intros i'. cbn. destruct (decide (i = i')) as [<-|]; [rewrite lookup_alter_eq|by rewrite lookup_alter_ne].
    by destruct (list_entries s !! i).
Qed.

Lemma same_depth d s : same_graph s (if decide (max_bfs_queue_depth s < d) then set_depth d s else s).
Proof. case_decide; by split_and!. Qed.
End graph.

(** * The search is right *)

Section search.
Context {A : Type} (mtch : A → nat → A * bool) (c0 : nat) (forward : bool) (s0 : lockdep) (g : Z).
(** What is known after the classes of a set did not match. *)
Context (P : A → gset nat → Prop).
Context (HP : ∀ a X c a', P a X → c ∉ X → mtch a c = (a', false) → P a' ({[c]} ∪ X)).
Context (Hok : graph_ok forward s0) (Hc0 : is_Some (lock_classes s0 !! c0)).
Local Abbreviation src := (this_entry c0).
Local Abbreviation E := (edge forward s0).

(** [r] is [k] parents away from the source; [D] are the depths of the classes that
    are marked. *)
Inductive depth_of (s : lockdep) (D : gmap nat nat) : eref → nat → nat → Prop :=
  | depth_root : depth_of s D Root 0 c0
  | depth_ent i e r k c c' :
      list_entries s !! i = Some e → l_class e = Some c' → l_parent e = Some r →
      depth_of s D r k c → E c c' → D !! c' = Some (S k) → depth_of s D (Ent i) (S k) c'.

(** The state between two entries: [L1] and [L2] are the elements of the queue of depth
    [d] and [d + 1]; of the list of [cur] only a part was looked at. *)
Record bfs_inv (s : lockdep) (D : gmap nat nat) (L1 L2 : list eref) (d : nat) (cur : option eref) : Prop := {
  bi_same : same_graph s0 s;
  bi_gen : lockdep_dependency_gen_id s = g;
  bi_marked c cl : lock_classes s !! c = Some cl → dep_gen_id cl = g ↔ is_Some (D !! c);
  bi_dom : dom D ⊆ dom (lock_classes s0);
  bi_queue : cq_rep (lock_cq s) (L1 ++ L2);
  bi_L1 r : r ∈ L1 → ∃ c, depth_of s D r d c;
  bi_L2 r : r ∈ L2 → ∃ c, depth_of s D r (S d) c;
  bi_D c k : D !! c = Some k → (1 ≤ k ≤ S d)%nat ∧ nsteps E k c0 c;
  bi_near n c : (1 ≤ n ≤ d)%nat → nsteps E n c0 c → ∃ k, D !! c = Some k ∧ (k ≤ n)%nat;
  bi_root : Root ∉ L1 ++ L2 → cur ≠ Some Root → ∀ c', E c0 c' → is_Some (D !! c');
  bi_done c k : D !! c = Some k → (∀ r, depth_of s D r k c → r ∉ L1 ++ L2 ∧ cur ≠ Some r) →
    ∀ c', E c c' → is_Some (D !! c');
}.

Lemma depth_class s D r k c : depth_of s D r k c →
  ∃ e, deref src s r = Some e ∧ l_class e = Some c ∧ (r = Root ∨ D !! c = Some k).
Proof. intros [|i e r' k' c1 c' He Hc Hp _ _ HD]; [exists src; auto|]. exists e. auto. Qed.

Lemma depth_unique s D r k c k' c' : depth_of s D r k c → depth_of s D r k' c' → k = k' ∧ c = c'.
Proof.
  intros H1 H2. inversion H1; subst; inversion H2; subst; [done|]. simplify_eq. auto.
Qed.

(** Marking a class that is not marked keeps the depths. *)
Lemma depth_mark s D i e c' r k r0 k0 cx :
  list_entries s !! i = Some e → l_class e = Some c' → D !! c' = None →
  depth_of s D r k cx → depth_of (mark_lock_accessed s i c' r0) (<[c' := k0]> D) r k cx.
Proof.
  intros Hi Hc HD. induction 1 as [|j ej r k c cj Hj Hcj Hpj _ IH HE HDj]; [constructor|].
  assert (cj ≠ c') by congruence. assert (j ≠ i) by congruence.
  apply (depth_ent _ _ j ej r k c cj); [|done|done|done|done|by rewrite lookup_insert_ne by done].
  cbn. by rewrite lookup_alter_ne.
Qed.

Lemma depth_same_entries s s' D r k c :
  list_entries s' = list_entries s → depth_of s D r k c → depth_of s' D r k c.
Proof. intros Ee. induction 1; [constructor|]. eapply depth_ent; try done. by rewrite Ee. Qed.

Lemma depth_nsteps s D r k c : depth_of s D r k c → nsteps E k c0 c.
Proof.
  induction 1 as [|i e r k c c' _ _ _ _ IH HE _]; [constructor|]. by eapply nsteps_r.
Qed.

(** The new state when the class [c'] of the entry [i] is reached from [r]. *)
Lemma bfs_mark s D L1 L2 d r c i e c' :
  bfs_inv s D L1 L2 d (Some r) → depth_of s D r d c → E c c' →
  list_entries s !! i = Some e → l_class e = Some c' → D !! c' = None →
  let s1 := mark_lock_accessed s i c' r in
  let D' := <[c' := S d]> D in
  depth_of s1 D' (Ent i) (S d) c' ∧
  ∀ s2, list_entries s2 = list_entries s1 → lock_classes s2 = lock_classes s1 → same_graph s1 s2 →
    lockdep_dependency_gen_id s2 = g → cq_rep (lock_cq s2) (L1 ++ L2 ++ [Ent i]) → bfs_inv s2 D' L1 (L2 ++ [Ent i]) d (Some r).
Proof.
  intros Hi Hr HE Hie Hc' HD s1 D'. pose proof (λ x k cx Hx, depth_mark s D i e c' x k r (S d) cx Hie Hc' HD Hx) as Hdm.
  fold s1 D' in Hdm. assert (depth_of s1 D' (Ent i) (S d) c') as Hnew.
  { apply (depth_ent _ _ i (set_parent (Some r) e) r d c c'); [|done|done|by apply Hdm|done|apply lookup_insert_eq].
    cbn. by rewrite lookup_alter_eq, Hie. }
  split; [done|]. intros s2 Ee Ec Hs Hg Hcq.
  pose proof (λ x k cx Hx, depth_same_entries s1 s2 D' x k cx Ee Hx) as Hde. split.
  - rewrite (bi_same _ _ _ _ _ _ Hi), (same_mark s i c' r). done.
  - done.
  - intros x cl Hx. rewrite Ec in Hx. cbn in Hx. unfold D'. destruct (decide (c' = x)) as [<-|Hne].
    + rewrite lookup_alter_eq in Hx. destruct (lock_classes s !! c') as [cl'|]; [|done]. cbn in Hx. injection Hx as <-.
      rewrite lookup_insert_eq. cbn. rewrite (bi_gen _ _ _ _ _ _ Hi). by split.
    + rewrite lookup_alter_ne in Hx by done. rewrite lookup_insert_ne by done. by apply (bi_marked _ _ _ _ _ _ Hi).
  - unfold D'. rewrite dom_insert. apply union_subseteq. split; [|apply (bi_dom _ _ _ _ _ _ Hi)].
    apply singleton_subseteq_l, elem_of_dom. destruct HE as (cl & i' & e' & Hcl & Hin & He' & Hce).
    destruct (Hok c cl i' Hcl Hin) as (e2 & c2 & He2 & Hc2 & Hs2). by simplify_eq.
  - done.
  - intros x Hx. destruct (bi_L1 _ _ _ _ _ _ Hi x Hx) as (cx & Hcx). exists cx. by apply Hde, Hdm.
  - intros x Hx. apply elem_of_app in Hx as [Hx|Hx].
    + destruct (bi_L2 _ _ _ _ _ _ Hi x Hx) as (cx & Hcx). exists cx. by apply Hde, Hdm.
    + apply list_elem_of_singleton in Hx as ->. exists c'. by apply Hde.
  - intros x k. unfold D'. destruct (decide (c' = x)) as [<-|Hne].
    + rewrite lookup_insert_eq. intros [= <-]. split; [lia|]. apply (depth_nsteps _ _ _ _ _ Hnew).
    + rewrite lookup_insert_ne by done. apply (bi_D _ _ _ _ _ _ Hi).
  - intros n x Hn Hx. destruct (bi_near _ _ _ _ _ _ Hi n x Hn Hx) as (k & Hk & ?). exists k. split; [|done].
    unfold D'. rewrite lookup_insert_ne; [done|congruence].
  - intros Hroot Hcur y Hy. unfold D'. destruct (decide (c' = y)) as [<-|]; [by rewrite lookup_insert_eq|].
    rewrite lookup_insert_ne by done. apply (bi_root _ _ _ _ _ _ Hi); [set_solver|done|done].
  - intros x k Hx Hno y Hy. unfold D'. destruct (decide (c' = y)) as [<-|]; [by rewrite lookup_insert_eq|].
    rewrite lookup_insert_ne by done. destruct (decide (x = c')) as [->|Hne].
    { unfold D' in Hx. rewrite lookup_insert_eq in Hx. injection Hx as <-. destruct (Hno (Ent i)); [by apply Hde|set_solver]. }
    unfold D' in Hx. rewrite lookup_insert_ne in Hx by done. apply (bi_done _ _ _ _ _ _ Hi x k); [done| |done].
    intros z Hz. destruct (Hno z) as [Hz1 Hz2]; [by apply Hde, Hdm|]. split; [set_solver|done].
Qed.

(** What is known when the search finds something in the state [s] with [a]. *)
Definition found_ok (s : lockdep) (a : A) (t : eref) : Prop :=
  ∃ i c d D b, t = Ent i ∧ same_graph s0 s ∧ mtch b c = (a, true) ∧ P b (dom D) ∧ c ∉ dom D ∧
    depth_of s (<[c := S d]> D) (Ent i) (S d) c ∧
    ∀ n x, (1 ≤ n ≤ d)%nat → nsteps E n c0 x → x ∈ dom D.

Definition full_ok (s : lockdep) : Prop :=
  same_graph s0 s ∧ MAX_CIRCULAR_QUEUE_SIZE ≤ Z.of_nat (size (lock_classes s0)).

Lemma size_dom_le (D : gmap nat nat) c (t : gmap nat lock_class) :
  dom D ⊆ dom t → c ∉ dom D → c ∈ dom t → (S (size D) ≤ size t)%nat.
Proof.
  intros Hsub Hc Hin. rewrite <- (size_dom D), <- (size_dom t).
  assert ({[c]} ∪ dom D ⊆ dom t) as Hs by set_solver. apply subseteq_size in Hs.
  rewrite size_union, size_singleton in Hs by set_solver. lia.
Qed.

Lemma bfs_scan_ok r c d L1 cl0 : lock_classes s0 !! c = Some cl0 → ∀ l s a D L2,
  bfs_inv s D L1 L2 d (Some r) → depth_of s D r d c → P a (dom D) → (length (L1 ++ L2) ≤ size D)%nat →
  (∃ pre, heads forward cl0 = pre ++ l ∧
     ∀ i e c', i ∈ pre → list_entries s !! i = Some e → l_class e = Some c' → is_Some (D !! c')) →
  ∃ s' a' res, bfs_scan mtch s a r l = Some (s', a', res) ∧
    match res with
    | None => ∃ D' L2', bfs_inv s' D' L1 L2' d (Some r) ∧ depth_of s' D' r d c ∧ P a' (dom D') ∧
        (length (L1 ++ L2') + size D = length (L1 ++ L2) + size D')%nat ∧
        ∀ c', E c c' → is_Some (D' !! c')
    | Some (Found t) => found_ok s' a' t
    | Some QueueFull => full_ok s'
    | Some _ => False
    end.
Proof.
  intros Hcl0 l. induction l as [|i l IH]; intros s a D L2 Hi Hr Ha Hlen (pre & Hpre & Hprev).
  { exists s, a, None. split; [done|]. exists D, L2. split_and!; [done|done|done|done|].
    intros c' (cl & i & e & Hcl & Hin & He & Hc). simplify_eq. rewrite app_nil_r in Hpre. rewrite Hpre in Hin.
    destruct (same_entry _ _ _ _ (bi_same _ _ _ _ _ _ Hi) He) as (e' & He' & Hce).
    apply (Hprev i e' c'); [done|done|congruence]. }
  assert (i ∈ heads forward cl0) as Hin by (rewrite Hpre; set_solver).
  destruct (Hok c cl0 i Hcl0 Hin) as (e0 & c' & He0 & Hc' & [cl' Hcl']).
  destruct (same_entry _ _ _ _ (bi_same _ _ _ _ _ _ Hi) He0) as (e & He & Hce). rewrite Hc' in Hce.
  destruct (same_class forward _ _ _ _ (bi_same _ _ _ _ _ _ Hi) Hcl') as (cl & Hcl & _).
  assert (E c c') as HE by (by exists cl0, i, e0).
  cbn [bfs_scan]. rewrite He. cbn [mbind option_bind]. rewrite Hce. cbn [mbind option_bind]. rewrite Hcl. cbn [mbind option_bind].
  unfold lock_accessed. rewrite (bi_gen _ _ _ _ _ _ Hi). pose proof (bi_marked _ _ _ _ _ _ Hi c' cl Hcl) as Hm.
  destruct (D !! c') as [k|] eqn:HD.
  { rewrite bool_decide_eq_true_2 by (by apply Hm). apply IH; try done. exists (pre ++ [i]). split; [by rewrite <- app_assoc|].
    intros j ej cj Hj Hej Hcj. apply elem_of_app in Hj as [Hj|Hj]; [by apply (Hprev j ej)|].
    apply list_elem_of_singleton in Hj as ->. simplify_eq. by rewrite HD. }
  rewrite bool_decide_eq_false_2 by (rewrite Hm; by intros [? ?]).
  destruct (bfs_mark s D L1 L2 d r c i e c' Hi Hr HE He Hce HD) as [Hnew Hstep].
  set (s1 := mark_lock_accessed s i c' r) in *. assert (same_graph s0 s1) as Hs1 by (rewrite (bi_same _ _ _ _ _ _ Hi); apply same_mark).
  assert (c' ∉ dom D) as HDn by (by apply not_elem_of_dom).
  destruct (mtch a c') as [a' b] eqn:Em. destruct b.
  { exists s1, a', (Some (Found (Ent i))). split; [done|]. exists i, c', d, D, a. split_and!; try done.
    intros n x Hn Hx. destruct (bi_near _ _ _ _ _ _ Hi n x Hn Hx) as (k & Hk & _). apply elem_of_dom. by exists k. }
  change (lock_cq s1) with (lock_cq s). pose proof (cq_enqueue_rep (lock_cq s) _ (Ent i) (bi_queue _ _ _ _ _ _ Hi)) as Hq.
  case_decide as Hfull.
  { rewrite Hq. rewrite decide_True by done. eexists _, _, _. split; [done|]. split; [by rewrite Hs1; apply same_cq|].
    pose proof (size_dom_le D c' (lock_classes s0) (bi_dom _ _ _ _ _ _ Hi) HDn ltac:(apply elem_of_dom; by exists cl')). lia. }
  destruct Hq as (q' & -> & Hq'). rewrite decide_False by (by intros Hz). rewrite <- app_assoc in Hq'.
  set (s2 := set_cq q' s1). set (s3 := if decide _ then _ else _).
  assert (same_graph s1 s3 ∧ list_entries s3 = list_entries s1 ∧ lock_classes s3 = lock_classes s1 ∧
    lockdep_dependency_gen_id s3 = lockdep_dependency_gen_id s ∧ lock_cq s3 = q') as (Hs3 & He3 & Hc3 & Hg3 & Hq3).
  { unfold s3. case_decide; by split_and!. }
  assert (bfs_inv s3 (<[c' := S d]> D) L1 (L2 ++ [Ent i]) d (Some r)) as Hi3.
  { apply Hstep; [done|done|done|by rewrite Hg3; apply (bi_gen _ _ _ _ _ _ Hi)|by rewrite Hq3]. }
  assert (size (<[c' := S d]> D) = S (size D)) as Hsz by (by apply map_size_insert_None).
  edestruct (IH s3 a' (<[c' := S d]> D) (L2 ++ [Ent i]) Hi3) as (s' & a2 & res & Hres & Hspec).
  - apply (depth_same_entries s1); [done|]. by apply (depth_mark s D i e).
  - rewrite dom_insert_L. by apply (HP a).
  - rewrite Hsz, app_assoc, length_app. cbn. lia.
  - exists (pre ++ [i]). split; [by rewrite <- app_assoc|]. intros j ej cj Hj Hej Hcj.
    destruct (decide (c' = cj)) as [<-|]; [by rewrite lookup_insert_eq|]. rewrite lookup_insert_ne by done.
    assert (∃ ej', list_entries s !! j = Some ej' ∧ l_class ej' = l_class ej) as (ej' & Hej' & Hcj').
    { assert (same_graph s3 s) as Hs by (rewrite <- Hs3; symmetry; apply same_mark). by apply (same_entry _ _ _ _ Hs). }
    apply elem_of_app in Hj as [Hj|Hj]; [apply (Hprev j ej'); congruence|]. apply list_elem_of_singleton in Hj as ->. congruence.
  - exists s', a2, res. split; [done|]. destruct res as [ret|]; [done|].
    destruct Hspec as (D' & L2' & H1 & H2 & H3 & H4 & H5). exists D', L2'. split_and!; [done|done|done| |done].
    rewrite Hsz, !length_app in H4. rewrite !length_app. cbn [length] in H4. lia.
Qed.

(** ** From one element of the queue to the next *)

Lemma bfs_take s D r L1 L2 d q :
  bfs_inv s D (r :: L1) L2 d None → cq_rep q (L1 ++ L2) → bfs_inv (set_cq q s) D L1 L2 d (Some r).
Proof.
  intros Hi Hq. pose proof (λ x k cx, depth_same_entries s (set_cq q s) D x k cx eq_refl) as Hd.
  pose proof (λ x k cx, depth_same_entries (set_cq q s) s D x k cx eq_refl) as Hd'. destruct Hi as [B1 B2 B3 B4 B5 B6 B7 B8 B9 B10 B11]. split; try done.
  - intros x Hx. destruct (B6 x) as (cx & ?); [set_solver|]. exists cx. auto.
  - intros x Hx. destruct (B7 x) as (cx & ?); [set_solver|]. exists cx. auto.
  - intros Hroot Hcur. apply B10; [|done]. cbn. rewrite not_elem_of_cons. split; [congruence|done].
  - intros x k Hx Hno. apply (B11 x k Hx). intros z Hz. destruct (Hno z) as [Hz1 Hz2]; [auto|].
    split; [|done]. cbn. rewrite not_elem_of_cons. split; [congruence|done].
Qed.

Lemma bfs_finish s D r c L1 L2 d :
  bfs_inv s D L1 L2 d (Some r) → depth_of s D r d c → (∀ c', E c c' → is_Some (D !! c')) → bfs_inv s D L1 L2 d None.
Proof.
  intros Hi Hr Hsucc. destruct Hi as [B1 B2 B3 B4 B5 B6 B7 B8 B9 B10 B11]. split; try done.
  - intros Hroot _. destruct (decide (r = Root)) as [->|]; [inversion Hr; by subst|]. apply B10; [done|congruence].
  - intros x k Hx Hno. destruct (decide (x = c)) as [->|Hne]; [done|]. apply (B11 x k Hx).
    intros z Hz. destruct (Hno z Hz) as [Hz1 _]. split; [done|]. intros [= ->].
    destruct (depth_unique _ _ _ _ _ _ _ Hr Hz). congruence.
Qed.

(** All of one depth are done. *)
Lemma bfs_shift s D L2 d : bfs_inv s D [] L2 d None → bfs_inv s D L2 [] (S d) None.
Proof.
  intros Hi. destruct Hi as [B1 B2 B3 B4 B5 B6 B7 B8 B9 B10 B11]. split; try done.
  - by rewrite app_nil_r.
  - intros x Hx. apply elem_of_nil in Hx. done.
  - intros c k Hk. destruct (B8 c k Hk). split; [lia|done].
  - intros n c Hn Hc. destruct (decide (n = S d)) as [->|]; [|apply B9; [lia|done]].
    apply nsteps_inv_r in Hc as (y & Hy & HE). assert (is_Some (D !! c)) as [k Hk].
    { destruct d as [|d].
      - inversion Hy; subst. apply (B10); [|done|done]. intros Hroot. destruct (B7 Root Hroot) as (? & Hr). inversion Hr.
      - destruct (B9 (S d) y ltac:(lia) Hy) as (k & Hk & Hle). apply (B11 y k Hk); [|done].
        intros z Hz. split; [|done]. intros Hin. destruct (B7 z Hin) as (cz & Hz'). destruct (depth_unique _ _ _ _ _ _ _ Hz Hz'). lia. }
    exists k. split; [done|]. destruct (B8 c k Hk). lia.
  - rewrite app_nil_r. done.
  - rewrite app_nil_r. done.
Qed.

(** An empty queue: what is marked is what can be reached. *)
Lemma bfs_empty s D d : bfs_inv s D [] [] d None → ∀ c, c ∈ dom D ↔ ∃ n, nsteps E (S n) c0 c.
Proof.
  intros Hi c. rewrite elem_of_dom. split.
  - intros [k Hk]. destruct (bi_D _ _ _ _ _ _ Hi c k Hk) as [Hk1 Hn]. destruct k as [|k]; [lia|]. by exists k.
  - intros [n Hn]. revert c Hn. induction n as [|n IH]; intros c Hn; apply nsteps_inv_r in Hn as (y & Hy & HE).
    + inversion Hy; subst. by apply (bi_root _ _ _ _ _ _ Hi); [apply not_elem_of_nil| |].
    + destruct (IH y Hy) as [k Hk]. apply (bi_done _ _ _ _ _ _ Hi y k Hk); [|done]. intros z _. split; [apply not_elem_of_nil|done].
Qed.

Lemma bfs_loop_ok fuel : ∀ s a D L1 L2 d,
  bfs_inv s D L1 L2 d None → P a (dom D) →
  (length (L1 ++ L2) ≤ size D ∨ L1 ++ L2 = [Root])%nat →
  (length (L1 ++ L2) + (size (lock_classes s0) - size D) ≤ fuel)%nat →
  ∃ s' a' ret, bfs_loop mtch src forward fuel s a = Some (s', a', ret) ∧
    match ret with
    | Found t => found_ok s' a' t
    | NotFound => same_graph s0 s' ∧ ∃ X, P a' X ∧ ∀ c, c ∈ X ↔ ∃ n, nsteps E (S n) c0 c
    | QueueFull => full_ok s'
    | NoClass => False
    end.
Proof.
  induction fuel as [|fuel IH]; intros s a D L1 L2 d Hi Ha Hlen Hfuel.
  - assert (L1 ++ L2 = []) as HL by (apply length_zero_iff_nil; lia). apply app_eq_nil in HL as [-> ->].
    cbn [bfs_loop]. rewrite (cq_empty_spec _ _ (bi_queue _ _ _ _ _ _ Hi)). exists s, a, NotFound. split; [done|].
    split; [apply (bi_same _ _ _ _ _ _ Hi)|]. exists (dom D). split; [done|]. by apply (bfs_empty s D d).
  - assert (∃ L1' L2' d', bfs_inv s D L1' L2' d' None ∧ L1' ++ L2' = L1 ++ L2 ∧ (L1' = [] → L2' = [])) as
      (M1 & M2 & e & Hi' & HM & Hne).
    { destruct L1 as [|x L1]; [|by exists (x :: L1), L2, d].
      exists L2, [], (S d). split_and!; [by apply bfs_shift|by rewrite app_nil_r|done]. }
    rewrite <- HM in *. clear L1 L2 d Hi HM. destruct M1 as [|r M1].
    { rewrite Hne in * by done. cbn [bfs_loop]. rewrite (cq_empty_spec _ _ (bi_queue _ _ _ _ _ _ Hi')). exists s, a, NotFound.
      split; [done|]. split; [apply (bi_same _ _ _ _ _ _ Hi')|]. exists (dom D). split; [done|]. by apply (bfs_empty s D e). }
    cbn [bfs_loop]. rewrite (cq_empty_spec _ _ (bi_queue _ _ _ _ _ _ Hi')), bool_decide_eq_false_2 by done.
    destruct (cq_dequeue_rep _ _ _ (bi_queue _ _ _ _ _ _ Hi')) as (q & -> & Hq). cbn [mbind option_bind].
    pose proof (bfs_take _ _ _ _ _ _ _ Hi' Hq) as Hit. destruct (bi_L1 _ _ _ _ _ _ Hi' r ltac:(set_solver)) as (c & Hr).
    apply (depth_same_entries s (set_cq q s) D r e c eq_refl) in Hr.
    destruct (depth_class _ _ _ _ _ Hr) as (en & -> & Hcn & Hcd). cbn [mbind option_bind]. rewrite Hcn.
    assert (is_Some (lock_classes s0 !! c)) as [cl0 Hcl0].
    { destruct Hcd as [->|HD]; [inversion Hr; subst; exact Hc0|].
      apply elem_of_dom, (bi_dom _ _ _ _ _ _ Hi'), elem_of_dom. by exists e. }
    destruct (same_class forward _ _ _ _ (bi_same _ _ _ _ _ _ Hit) Hcl0) as (cl & -> & Hh & _). cbn [mbind option_bind]. rewrite Hh.
    destruct (bfs_scan_ok r c e M1 cl0 Hcl0 (heads forward cl0) (set_cq q s) a D M2 Hit Hr Ha) as (s' & a' & res & -> & Hres).
    { destruct Hlen as [Hlen|Hlen]; cbn [length app] in *; [lia|]. injection Hlen as _ ->. cbn. lia. }
    { exists []. split; [done|]. intros i' e' c' Hn. by apply elem_of_nil in Hn. }
    cbn [mbind option_bind]. destruct res as [ret|]; [exists s', a', ret; split; [done|]; by destruct ret|].
    destruct Hres as (D' & L2' & Hi2 & Hr2 & Ha2 & Hsz & Hsucc). pose proof (bfs_finish _ _ _ _ _ _ _ Hi2 Hr2 Hsucc) as Hi3.
    assert (size D' ≤ size (lock_classes s0))%nat.
    { rewrite <- (size_dom D'), <- (size_dom (lock_classes s0)). apply subseteq_size, (bi_dom _ _ _ _ _ _ Hi2). }
    apply (IH s' a' D' M1 L2' e Hi3 Ha2).
    + destruct Hlen as [Hlen|Hlen]; cbn [length app] in *; [left; lia|]. injection Hlen as _ HM. rewrite HM in Hsz. cbn in Hsz. left. lia.
    + cbn [length app] in *. lia.
Qed.
End search.

(** ** Generations of marks *)

(** The marks are of earlier searches; the counter is not about to wrap. *)
Definition marks_le (s : lockdep) : Prop :=
  ∀ c cl, lock_classes s !! c = Some cl → dep_gen_id cl ≤ lockdep_dependency_gen_id s.

Lemma marks_le_mark s i c r : marks_le s → marks_le (mark_lock_accessed s i c r).
Proof.
  intros Hm x cl. cbn. destruct (decide (c = x)) as [<-|]; [rewrite lookup_alter_eq|rewrite lookup_alter_ne by done; apply Hm].
  destruct (lock_classes s !! c); [|done]. cbn. by intros [= <-].
Qed.

Lemma scan_gen {A} (mtch : A → nat → A * bool) l : ∀ s a r s' a' res,
  bfs_scan mtch s a r l = Some (s', a', res) →
  lockdep_dependency_gen_id s' = lockdep_dependency_gen_id s ∧ (marks_le s → marks_le s').
Proof.
  induction l as [|i l IH]; intros s a r s' a' res; cbn [bfs_scan]; [by intros [= <- _ _]|].
  destruct (list_entries s !! i) as [e|]; [|done]. cbn [mbind option_bind].
  destruct (l_class e) as [c|]; [|done]. cbn [mbind option_bind].
  destruct (lock_classes s !! c) as [cl|]; [|done]. cbn [mbind option_bind].
  destruct (lock_accessed s cl); [apply IH|]. pose proof (marks_le_mark s i c r) as Hm.
  set (s1 := mark_lock_accessed s i c r) in *. destruct (mtch a c) as [a1 []]; [by intros [= <- _ _]|].
  destruct (__cq_enqueue (lock_cq s1) (Ent i)) as [q z]. case_decide; [intros [= <- _ _]; by split|].
  intros Hr. apply IH in Hr as [Hg Hle]. split.
  - rewrite Hg. by case_decide.
  - intros Hs. apply Hle. case_decide; exact (Hm Hs).
Qed.

Lemma loop_gen {A} (mtch : A → nat → A * bool) src fwd fuel : ∀ s a s' a' ret,
  bfs_loop mtch src fwd fuel s a = Some (s', a', ret) →
  lockdep_dependency_gen_id s' = lockdep_dependency_gen_id s ∧ (marks_le s → marks_le s').
Proof.
  induction fuel as [|fuel IH]; intros s a s' a' ret; cbn [bfs_loop]; destruct (__cq_empty (lock_cq s));
    try by intros [= <- _ _].
  destruct (__cq_dequeue (lock_cq s)) as [[q lock]|]; [|done]. cbn [mbind option_bind].
  destruct lock as [r|]; [|done]. cbn [mbind option_bind]. destruct (deref src (set_cq q s) r) as [e|]; [|done]. cbn [mbind option_bind].
  destruct (l_class e) as [c|]; [|by intros [= <- _ _]]. destruct (lock_classes (set_cq q s) !! c) as [cl|]; [|done]. cbn [mbind option_bind].
  destruct (bfs_scan mtch (set_cq q s) a r (heads fwd cl)) as [[[s1 a1] res]|] eqn:Es; [|done]. cbn [mbind option_bind].
  apply scan_gen in Es as [Hg Hm]. destruct res as [res|].
  - intros [= <- _ _]. split; [exact Hg|exact Hm].
  - intros Hr. apply IH in Hr as [Hg' Hm']. split; [by rewrite Hg', Hg|]. intros Hs. by apply Hm', Hm.
Qed.

(** ** The whole search *)

Definition gen_ok (s : lockdep) : Prop :=
  0 ≤ lockdep_dependency_gen_id s < 2 ^ 32 - 1 ∧ marks_le s.

(** What all users of the search rely on: [P] is what they accumulate. *)
Lemma bfs_ok {A} (mtch : A → nat → A * bool) c0 fwd s a a1 (P : A → gset nat → Prop) :
  (∀ a X c a', P a X → c ∉ X → mtch a c = (a', false) → P a' ({[c]} ∪ X)) →
  graph_ok fwd s → is_Some (lock_classes s !! c0) → gen_ok s → mtch a c0 = (a1, false) → P a1 ∅ →
  ∃ s' a' ret, __bfs mtch (this_entry c0) fwd s a = Some (s', a', ret) ∧ same_graph s s' ∧ marks_le s' ∧
    lockdep_dependency_gen_id s ≤ lockdep_dependency_gen_id s' ≤ lockdep_dependency_gen_id s + 1 ∧
    match ret with
    | Found t => found_ok mtch c0 fwd s P s' a' t
    | NotFound => ∃ X, P a' X ∧ ∀ c, c ∈ X ↔ ∃ n, nsteps (edge fwd s) (S n) c0 c
    | QueueFull => MAX_CIRCULAR_QUEUE_SIZE ≤ Z.of_nat (size (lock_classes s))
    | NoClass => False
    end.
Proof.
  intros HP Hok Hc0 [Hg Hm] Hm0 HP0. unfold __bfs. cbn [this_entry l_class mbind option_bind]. rewrite Hm0.
  destruct Hc0 as [cl Hcl]. rewrite Hcl. cbn [mbind option_bind]. destruct (heads fwd cl) as [|i l] eqn:Eh.
  { exists s, a1, NotFound. split_and!; [done|done|done|lia|lia|]. exists ∅. split; [done|]. intros c. split; [set_solver|].
    intros (n & Hn). inversion Hn as [|n' x y z (cl' & i & e & Hcl' & Hi & _) _]; subst. simplify_eq. rewrite Eh in Hi. by apply elem_of_nil in Hi. }
  set (s1 := set_cq _ (cq_init s)). assert (same_graph s s1) as Hs1 by (unfold s1; rewrite <- same_cq; apply same_init).
  assert (lockdep_dependency_gen_id s1 = lockdep_dependency_gen_id s + 1) as Hg1 by (apply wrap_small; width).
  assert (bfs_inv c0 fwd s (lockdep_dependency_gen_id s1) s1 ∅ [Root] [] 0 None) as Hi.
  { split; try done.
    - intros c cl' Hc. change (lock_classes s1) with (lock_classes s) in Hc. specialize (Hm c cl' Hc).
      rewrite lookup_empty. split; [lia|by intros [? ?]].
    - pose proof (cq_enqueue_rep (__cq_init (lock_cq s)) [] Root (cq_init_rep _)) as Hq. rewrite decide_False in Hq by done.
      destruct Hq as (q' & Hq' & Hrep). unfold s1. cbn. rewrite Hq'. done.
    - intros r Hr. apply list_elem_of_singleton in Hr as ->. exists c0. constructor.
    - intros r Hr. by apply elem_of_nil in Hr.
    - intros n c Hn. lia.
    - intros Hroot. destruct Hroot. set_solver. }
  destruct (bfs_loop_ok mtch c0 fwd s (lockdep_dependency_gen_id s1) P HP Hok (ex_intro _ cl Hcl) (S (size (lock_classes s1)))
    s1 a1 ∅ [Root] [] 0 Hi) as (s' & a' & ret & Hr & Hret).
  - by rewrite dom_empty_L.
  - by right.
  - cbn. rewrite (same_size _ _ Hs1). lia.
  - destruct (loop_gen _ _ _ _ _ _ _ _ _ Hr) as [Hg' Hm']. exists s', a', ret. split; [done|].
    assert (same_graph s s') as Hs' by (destruct ret; [destruct Hret as (? & ? & ? & ? & ? & _ & ? & _)|apply Hret|apply Hret|done]; done).
    split_and!; [done| |lia|lia|].
    + apply Hm'. intros c cl' Hc. change (lock_classes s1) with (lock_classes s) in Hc. specialize (Hm c cl' Hc). lia.
    + destruct ret; [done|apply Hret|apply Hret|done].
Qed.

Lemma depth_of_get_depth c0 fwd s0 s D r k c : depth_of c0 fwd s0 s D r k c →
  ∀ fuel acc, (k ≤ fuel)%nat → get_lock_depth fuel (this_entry c0) s r acc = Some (acc + Z.of_nat k).
Proof.
  induction 1 as [|i e r k c c' He Hc Hp _ IH _ _]; intros fuel acc Hf.
  - destruct fuel; cbn; f_equal; lia.
  - destruct fuel as [|fuel]; [lia|]. cbn [get_lock_depth get_lock_parent deref mbind option_bind]. unfold get_lock_parent, deref. rewrite He.
    cbn [mbind option_bind]. rewrite Hp. rewrite IH by lia. f_equal. lia.
Qed.

(** What a search for the classes that [m] holds of finds. *)
Definition search_result (m : nat → bool) (c0 : nat) (fwd : bool) (s s' : lockdep) (ret : bfs_ret) : Prop :=
  match ret with
  | Found t => ∃ e c d, deref (this_entry c0) s' t = Some e ∧ l_class e = Some c ∧ m c = true ∧
      nsteps (edge fwd s) d c0 c ∧
      (∀ n x, m x = true → nsteps (edge fwd s) n c0 x → (d ≤ n)%nat) ∧
      ∀ fuel, (d ≤ fuel)%nat → get_lock_depth fuel (this_entry c0) s' t 0 = Some (Z.of_nat d)
  | NotFound => ∀ c, rtc (edge fwd s) c0 c → m c = false
  | QueueFull => MAX_CIRCULAR_QUEUE_SIZE ≤ Z.of_nat (size (lock_classes s))
  | NoClass => False
  end.

Lemma bfs_search {A} (mtch : A → nat → A * bool) m c0 fwd s a :
  (∀ a c, (mtch a c).2 = m c) → graph_ok fwd s → is_Some (lock_classes s !! c0) → gen_ok s →
  ∃ s' a' ret, __bfs mtch (this_entry c0) fwd s a = Some (s', a', ret) ∧ same_graph s s' ∧ marks_le s' ∧
    lockdep_dependency_gen_id s ≤ lockdep_dependency_gen_id s' ≤ lockdep_dependency_gen_id s + 1 ∧
    search_result m c0 fwd s s' ret.
Proof.
  intros Hpure Hok Hc0 Hg. destruct (mtch a c0) as [a1 b] eqn:Em. pose proof (Hpure a c0) as Hb. rewrite Em in Hb. cbn in Hb. subst b.
  destruct (m c0) eqn:Em0.
  { exists s, a1, (Found Root). split_and!; [by unfold __bfs; cbn; rewrite Em|done|apply Hg|lia|lia|].
    exists (this_entry c0), c0, 0%nat. split_and!; [done|done|done|constructor|intros; lia|]. intros fuel _. by destruct fuel. }
  destruct (bfs_ok mtch c0 fwd s a a1 (λ _ X, ∀ c, c ∈ X → m c = false)) as (s' & a' & ret & Hr & Hs & Hm & Hgen & Hret); try done.
  { intros b X c b' HX _ Hc x Hx. apply elem_of_union in Hx as [Hx|Hx]; [|by apply HX].
    apply elem_of_singleton in Hx as ->. by rewrite <- (Hpure b c), Hc. }
  exists s', a', ret. split_and!; [done|done|done|lia|lia|]. destruct ret as [t| | |]; [|destruct Hret as (X & HX & Hreach)|done|done].
  - destruct Hret as (i & c & d & D & b & -> & _ & Hmc & HD & Hc & Hdep & Hnear).
    destruct (depth_class _ _ _ _ _ _ _ _ Hdep) as (e & He & Hce & _). exists e, c, (S d). split_and!; [done|done| | | |].
    + by rewrite <- (Hpure b c), Hmc.
    + apply (depth_nsteps _ _ _ _ _ _ _ _ Hdep).
    + intros n x Hx Hn. destruct (decide (S d ≤ n)%nat) as [|Hlt]; [done|exfalso]. destruct n as [|n]; [inversion Hn; congruence|].
      rewrite (HD x) in Hx; [done|]. apply (Hnear (S n)); [lia|done].
    + intros fuel Hf. by rewrite (depth_of_get_depth _ _ _ _ _ _ _ _ Hdep).
  - intros c Hc. apply rtc_nsteps_1 in Hc as [n Hn]. destruct n as [|n]; [by inversion Hn; subst|]. apply HX, Hreach. by exists n.
Qed.

(** C6: The search for a class with a property ends, and changes no dependency.  If it
    finds one, no class with the property is nearer, and the parent pointers lead
    back to the source in as many steps; if it does not, no class that can be
    reached has the property; and it gives up only if there are at least 4096
    classes. *)
Theorem bfs_finds_nearest {A} (mtch : A → nat → A * bool) m c0 fwd s a :
  (∀ a c, (mtch a c).2 = m c) → graph_ok fwd s → is_Some (lock_classes s !! c0) → gen_ok s →
  ∃ s' a' ret, __bfs mtch (this_entry c0) fwd s a = Some (s', a', ret) ∧ same_graph s s' ∧
    match ret with
    | Found t => ∃ e c d, deref (this_entry c0) s' t = Some e ∧ l_class e = Some c ∧ m c = true ∧
        nsteps (edge fwd s) d c0 c ∧
        (∀ n x, m x = true → nsteps (edge fwd s) n c0 x → (d ≤ n)%nat) ∧
        ∀ fuel, (d ≤ fuel)%nat → get_lock_depth fuel (this_entry c0) s' t 0 = Some (Z.of_nat d)
    | NotFound => ∀ c, rtc (edge fwd s) c0 c → m c = false
    | QueueFull => MAX_CIRCULAR_QUEUE_SIZE ≤ Z.of_nat (size (lock_classes s))
    | NoClass => False
    end.
Proof.
  intros Hpure Hok Hc0 Hg. destruct (bfs_search mtch m c0 fwd s a Hpure Hok Hc0 Hg) as (s' & a' & ret & Hr & Hs & _ & _ & Hret).
  by exists s', a', ret.
Qed.

(** With fewer than 4096 classes the count is the class itself and all that can be
    reached from it. *)
Theorem count_deps_correct fwd s c :
  graph_ok fwd s → is_Some (lock_classes s !! c) → gen_ok s →
  Z.of_nat (size (lock_classes s)) < MAX_CIRCULAR_QUEUE_SIZE →
  ∃ s' (X : gset nat), lockdep_count_deps fwd s c = Some (s', 1 + Z.of_nat (size X)) ∧ same_graph s s' ∧
    ∀ x : nat, x ∈ X ↔ tc (edge fwd s) c x.
Proof.
  intros Hok Hc Hg Hsz.
  destruct (bfs_ok noop_count c fwd s 0 1 (λ a (X : gset nat), a = 1 + Z.of_nat (size X))) as (s' & a' & ret & Hr & Hs & _ & _ & Hret); try done.
  { intros a X x a' -> Hx [= <-]. rewrite size_union, size_singleton by set_solver. lia. }
  unfold lockdep_count_deps. rewrite Hr. cbn [mbind option_bind]. destruct ret as [t| | |]; [|destruct Hret as (X & -> & HX)|lia|done].
  - destruct Hret as (i & x & d & D & b & _ & _ & Hmc & _). done.
  - exists s', X. split_and!; [done|done|]. intros x. rewrite HX. split.
    + intros (n & Hn). apply tc_nsteps. exists (S n). split; [lia|done].
    + intros Ht. apply tc_nsteps in Ht as (n & Hn0 & Hn). destruct n as [|n]; [lia|]. by exists n.
Qed.

(** * Graphs that are written down *)

Definition graph_ok_b (fwd : bool) (s : lockdep) : bool :=
  bool_decide (map_Forall (λ _ cl, forallb (λ i, match list_entries s !! i ≫= l_class with
    | Some c => bool_decide (is_Some (lock_classes s !! c)) | None => false end) (heads fwd cl) = true) (lock_classes s)).

Lemma graph_ok_b_true fwd s : graph_ok_b fwd s = true → graph_ok fwd s.
Proof.
  unfold graph_ok_b. rewrite bool_decide_eq_true. intros H c cl i Hc Hi. specialize (H c cl Hc). cbv beta in H.
  rewrite forallb_forall in H. specialize (H i ltac:(by apply list_elem_of_In)). destruct (list_entries s !! i) as [e|] eqn:He; [|done].
  cbn [mbind option_bind] in H. destruct (l_class e) as [c'|] eqn:Ee; [|done]. apply bool_decide_eq_true in H. by exists e, c'.
Qed.

Definition marks_b (s : lockdep) : bool :=
  bool_decide (map_Forall (λ _ cl, dep_gen_id cl ≤ lockdep_dependency_gen_id s) (lock_classes s)).

Lemma marks_b_true s : marks_b s = true → marks_le s.
Proof. unfold marks_b. by rewrite bool_decide_eq_true. Qed.

Module BfsDemo.

(** 1 before 2 before 3, and 1 before 3. *)
Definition demo : lockdep :=
  mkDep {[1%nat := mkClass [0; 2]%nat [] 0 0; 2%nat := mkClass [1]%nat [3]%nat 0 0; 3%nat := mkClass [] [4; 5]%nat 0 0]}
    {[0%nat := this_entry 2; 1%nat := this_entry 3; 2%nat := this_entry 3; 3%nat := this_entry 1; 4%nat := this_entry 2; 5%nat := this_entry 1]}
    6 (mkCq ∅ 0 0) 7 0 true.

Lemma bfs_finds_nearest_witness :
  ∃ s' t, __bfs (class_equal 3) (this_entry 1) true demo tt = Some (s', tt, Found t) ∧
    get_lock_depth 5 (this_entry 1) s' t 0 = Some 1 ∧
    ∃ d, nsteps (edge true demo) d 1%nat 3%nat ∧ ∀ n, nsteps (edge true demo) n 1%nat 3%nat → (d ≤ n)%nat.
Proof.
  destruct (bfs_finds_nearest (class_equal 3) (λ c, bool_decide (c = 3%nat)) 1 true demo tt) as (s' & [] & ret & E & _ & Hret).
  - reflexivity.
  - apply graph_ok_b_true. vm_compute. reflexivity.
  - by eexists.
  - split; [vm_compute; by split|]. apply marks_b_true. vm_compute. reflexivity.
  - assert (match __bfs (class_equal 3) (this_entry 1) true demo tt with
      | Some (s', _, Found t) => get_lock_depth 5 (this_entry 1) s' t 0 | _ => None end = Some 1) as Hrun by (vm_compute; reflexivity).
    rewrite E in Hrun. destruct ret as [t| | |]; try discriminate Hrun. exists s', t. split_and!; [exact E|exact Hrun|].
    destruct Hret as (e & c & d & _ & _ & Hc & Hd & Hmin & _). apply bool_decide_eq_true in Hc. subst c.
    exists d. split; [exact Hd|]. intros n. apply Hmin. reflexivity.
Defined.
End BfsDemo.
