(* ===== verification/LockDep.v ===== *)
(** The checks of the lock validator, kernel/locking/lockdep.c, with its headers
    lockdep_internals.h and lockdep_states.h: new dependencies ([check_prev_add]) and
    new usages ([mark_lock]) of classes of locks.

    The configuration is the one that proves lock orders and traces interrupt flags.
    A report is the end of checking: [debug_locks] goes off.  Whether a stack trace
    can be stored is an argument; printing is left out.

    The theorems: as long as [debug_locks] is on, the dependencies have no cycle, the
    lists before and after mirror each other, and no class that is used in an
    interrupt leads to a class that is held with interrupts on.  A check reports
    nothing unless such a cycle or path would arise, or a table is full.  The order
    of events matters in one case: [irq_read_order_missed]. *)

From S2P Require Import Prelude LockBfs.

Local Open Scope Z_scope.

(** * Locks that are held *)

(** [h_class] is the index of the class, [class_idx - 1]. *)
Record held_lock := mkHeld {
  h_class : nat;
  instance : nat;
  nest_lock : option nat;
  trylock : bool;
  hread : Z;
  hcheck : Z;
  hardirqs_off : bool;
  references : Z;
  irq_context : Z;
  prev_chain_key : Z;
}.

(** * Usage bits *)

Inductive lockdep_state := HARDIRQ | SOFTIRQ | RECLAIM_FS.

Definition state_index (st : lockdep_state) : Z :=
  match st with HARDIRQ => 0 | SOFTIRQ => 1 | RECLAIM_FS => 2 end.

Definition LOCK_USED_IN (st : lockdep_state) : Z := 4 * state_index st.
Definition LOCK_USED_IN_READ (st : lockdep_state) : Z := 4 * state_index st + 1.
Definition LOCK_ENABLED (st : lockdep_state) : Z := 4 * state_index st + 2.
Definition LOCK_ENABLED_READ (st : lockdep_state) : Z := 4 * state_index st + 3.
Definition LOCK_USED : Z := 12.
Definition LOCK_USAGE_STATES : Z := 13.

Definition exclusive_bit (new_bit : Z) : Z :=
  let state := Z.land new_bit (Z.lnot 3) in
  let dir := Z.land new_bit 2 in
  Z.lor state (Z.lxor dir 2).

(** * New dependencies *)

Definition MAX_LOCKDEP_ENTRIES : Z := 16384.

Definition set_nr_entries (n : nat) (s : lockdep) : lockdep :=
  mkDep (lock_classes s) (list_entries s) n (lock_cq s) (lockdep_dependency_gen_id s) (max_bfs_queue_depth s) (debug_locks s).

Definition alloc_list_entry (s : lockdep) : lockdep * option nat :=
  if decide (MAX_LOCKDEP_ENTRIES ≤ Z.of_nat (nr_list_entries s)) then (set_debug false s, None)
  else (set_nr_entries (S (nr_list_entries s)) s, Some (nr_list_entries s)).

Definition add_after (i : nat) (c : lock_class) : lock_class :=
  mkClass (locks_after c ++ [i]) (locks_before c) (usage_mask c) (dep_gen_id c).
Definition add_before (i : nat) (c : lock_class) : lock_class :=
  mkClass (locks_after c) (locks_before c ++ [i]) (usage_mask c) (dep_gen_id c).

(** [head] is the list after or before of the class [c]. *)
Definition add_lock_to_list (s : lockdep) (c this : nat) (after : bool) (dist : Z) : lockdep * Z :=
  match alloc_list_entry s with
  | (s, None) => (s, 0)
  | (s, Some i) =>
      let s := set_entries (<[i := mkEntry (Some this) None dist]>) s in
      (set_classes (alter ((if after then add_after else add_before) i) c) s, 1)
  end.

Definition check_noncircular (s : lockdep) (root target : nat) : option (lockdep * bfs_ret) :=
  '(s, _, r) ← __bfs (class_equal target) (this_entry root) true s tt; Some (s, r).

Definition find_usage_forwards (s : lockdep) (root : nat) (bit : Z) : option (lockdep * bfs_ret) :=
  '(s, _, r) ← __bfs (usage_match s bit) (this_entry root) true s tt; Some (s, r).

Definition find_usage_backwards (s : lockdep) (root : nat) (bit : Z) : option (lockdep * bfs_ret) :=
  '(s, _, r) ← __bfs (usage_match s bit) (this_entry root) false s tt; Some (s, r).

(** The reports: [print_bfs_bug], [print_circular_bug], [print_bad_irq_dependency],
    [print_usage_bug], [print_irq_inversion_bug]. *)
Definition print_bug (s : lockdep) : lockdep * Z := (set_debug false s, 0).

Definition check_usage (s : lockdep) (prev next : nat) (bit_backwards bit_forwards : Z) : option (lockdep * Z) :=
  '(s, r) ← find_usage_backwards s prev bit_backwards;
  match r with
  | QueueFull | NoClass => Some (print_bug s)
  | NotFound => Some (s, 1)
  | Found _ =>
      '(s, r) ← find_usage_forwards s next bit_forwards;
      match r with
      | QueueFull | NoClass => Some (print_bug s)
      | NotFound => Some (s, 1)
      | Found _ => Some (print_bug s)
      end
  end.

Definition check_irq_usage (s : lockdep) (prev next : nat) (bit : Z) : option (lockdep * Z) :=
  '(s, r) ← check_usage s prev next bit (exclusive_bit bit);
  if decide (r = 0) then Some (s, 0)
  else
    let bit := bit + 1 in
    '(s, r) ← check_usage s prev next bit (exclusive_bit bit);
    if decide (r = 0) then Some (s, 0) else Some (s, 1).

Fixpoint check_states (l : list lockdep_state) (s : lockdep) (prev next : nat) : option (lockdep * Z) :=
  match l with
  | [] => Some (s, 1)
  | st :: l =>
      '(s, r) ← check_irq_usage s prev next (LOCK_USED_IN st);
      if decide (r = 0) then Some (s, 0) else check_states l s prev next
  end.

Definition check_prev_add_irq (s : lockdep) (prev next : nat) : option (lockdep * Z) :=
  check_states [HARDIRQ; SOFTIRQ; RECLAIM_FS] s prev next.

(** The search for an entry of the class [next] in a list. *)
Fixpoint find_entry (s : lockdep) (next : nat) (l : list nat) : option (option nat) :=
  match l with
  | [] => Some None
  | i :: l =>
      e ← list_entries s !! i;
      if decide (l_class e = Some next) then Some (Some i) else find_entry s next l
  end.

Definition set_distance (d : Z) (e : lock_list) : lock_list := mkEntry (l_class e) (l_parent e) d.

(** [trylock_loop] and [save] say whether a trace was saved before and can be. *)
Definition check_prev_add (s : lockdep) (prev next : held_lock) (dist : Z) (trylock_loop save : bool)
    : option (lockdep * Z) :=
  '(s, r) ← check_noncircular s (h_class next) (h_class prev);
  match r with
  | Found _ => Some (print_bug s)
  | QueueFull | NoClass => Some (print_bug s)
  | NotFound =>
      '(s, r) ← check_prev_add_irq s (h_class prev) (h_class next);
      if decide (r = 0) then Some (s, 0)
      else if decide (hread next = 2 ∨ hread prev = 2) then Some (s, 1)
      else
        cl ← lock_classes s !! h_class prev;
        present ← find_entry s (h_class next) (locks_after cl);
        match present with
        | Some i =>
            Some (if decide (dist = 1) then set_entries (alter (set_distance 1) i) s else s, 2)
        | None =>
            if negb trylock_loop && negb save then Some (set_debug false s, 0)
            else
              let (s, r) := add_lock_to_list s (h_class prev) (h_class next) true dist in
              if decide (r = 0) then Some (s, 0)
              else
                let (s, r) := add_lock_to_list s (h_class next) (h_class prev) false dist in
                if decide (r = 0) then Some (s, 0) else Some (s, 1)
        end
  end.

(** * New usages *)

Definition has_bit (s : lockdep) (c : nat) (bit : Z) : bool := (usage_match s bit tt c).2.

Definition valid_state (s : lockdep) (c : nat) (bad_bit : Z) : lockdep * Z :=
  if has_bit s c bad_bit then print_bug s else (s, 1).

Definition check_usage_dir (forward : bool) (s : lockdep) (c : nat) (bit : Z) : option (lockdep * Z) :=
  '(s, r) ← (if forward then find_usage_forwards else find_usage_backwards) s c bit;
  match r with
  | NotFound => Some (s, 1)
  | _ => Some (print_bug s)
  end.
Definition check_usage_forwards := check_usage_dir true.
Definition check_usage_backwards := check_usage_dir false.

Definition STRICT_READ_CHECKS : bool := true.

Definition mark_lock_irq (s : lockdep) (c : nat) (new_bit : Z) : option (lockdep * Z) :=
  let excl_bit := exclusive_bit new_bit in
  let read := bool_decide (Z.land new_bit 1 ≠ 0) in
  let dir := bool_decide (Z.land new_bit 2 ≠ 0) in
  let usage := if dir then check_usage_backwards else check_usage_forwards in
  let (s, r) := valid_state s c excl_bit in
  if decide (r = 0) then Some (s, 0)
  else
    '(s, r) ← (if negb read || negb dir || STRICT_READ_CHECKS then usage s c excl_bit else Some (s, 1));
    if decide (r = 0) then Some (s, 0)
    else if negb read then
      let (s, r) := valid_state s c (excl_bit + 1) in
      if decide (r = 0) then Some (s, 0)
      else
        '(s, r) ← (if STRICT_READ_CHECKS then usage s c (excl_bit + 1) else Some (s, 1));
        if decide (r = 0) then Some (s, 0) else Some (s, 1)
    else Some (s, 1).

Definition set_usage (bit : Z) (c : lock_class) : lock_class :=
  mkClass (locks_after c) (locks_before c) (Z.lor (usage_mask c) (Z.shiftl 1 bit)) (dep_gen_id c).

Definition mark_lock (s : lockdep) (c : nat) (new_bit : Z) (save : bool) : option (lockdep * Z) :=
  if has_bit s c new_bit then Some (s, 1)
  else if negb (debug_locks s) then Some (s, 0)
  else
    let s := set_classes (alter (set_usage new_bit) c) s in
    if negb save then Some (set_debug false s, 0)
    else if decide (0 ≤ new_bit < LOCK_USED) then
      '(s, r) ← mark_lock_irq s c new_bit;
      if decide (r = 0) then Some (s, 0) else Some (s, r)
    else if decide (new_bit = LOCK_USED) then Some (s, 1)
    else Some (print_bug s).

(** * Searches *)

(** [n] searches took place between [s] and [s']. *)
Definition kept (n : Z) (s s' : lockdep) : Prop :=
  same_graph s s' ∧ marks_le s' ∧
  lockdep_dependency_gen_id s ≤ lockdep_dependency_gen_id s' ≤ lockdep_dependency_gen_id s + n.

(** The counter of searches does not wrap in the next [n]. *)
Definition room (n : Z) (s : lockdep) : Prop :=
  0 ≤ lockdep_dependency_gen_id s ∧ lockdep_dependency_gen_id s + n < 2 ^ 32 ∧ marks_le s.

Lemma kept_trans n m s s1 s2 : kept n s s1 → kept m s1 s2 → kept (n + m) s s2.
Proof. intros (E1 & _ & ?) (E2 & ? & ?). split_and!; [by rewrite E1|done|lia|lia]. Qed.

Lemma kept_room n m s s1 : room (n + m) s → kept n s s1 → room m s1.
Proof. intros (? & ? & ?) (? & ? & ?). split_and!; [lia|lia|done]. Qed.

Lemma room_weaken n m s : room n s → m ≤ n → room m s.
Proof. intros (? & ? & ?) ?. split_and!; [done|lia|done]. Qed.

Lemma kept_weaken n m s s1 : kept n s s1 → n ≤ m → kept m s s1.
Proof. intros (? & ? & ?) ?. split_and!; [done|done|lia|lia]. Qed.

Lemma kept_0 s : room 0 s → kept 0 s s.
Proof. intros (? & ? & ?). split_and!; [done|done|lia|lia]. Qed.

Definition bit_of (s : lockdep) (c : nat) (bit : Z) : Prop := has_bit s c bit = true.

Lemma has_bit_same s s' c bit : same_graph s s' → has_bit s c bit = has_bit s' c bit.
Proof.
  intros (Hc & _). specialize (Hc c). unfold has_bit, usage_match. cbn.
  destruct (lock_classes s !! c) as [cl|], (lock_classes s' !! c) as [cl'|]; try done. by injection Hc as _ _ ->.
Qed.

Lemma rtc_same fwd s s' x y : same_graph s s' → rtc (edge fwd s) x y ↔ rtc (edge fwd s') x y.
Proof.
  intros E. split; apply rtc_subrel; intros a b; by apply same_edge.
Qed.

Section searches.
Context (s : lockdep) (Hf : graph_ok true s) (Hb : graph_ok false s) (Hroom : room 1 s).

Lemma gen_ok_room : gen_ok s.
Proof. destruct Hroom as (? & ? & ?). split; [lia|done]. Qed.

Lemma check_noncircular_ok root target : is_Some (lock_classes s !! root) →
  ∃ s' r, check_noncircular s root target = Some (s', r) ∧ kept 1 s s' ∧
    search_result (λ c, bool_decide (c = target)) root true s s' r.
Proof.
  intros Hr. destruct (bfs_search (class_equal target) (λ c, bool_decide (c = target)) root true s tt ltac:(done) Hf Hr gen_ok_room)
    as (s' & a & r & Hbfs & Hs & Hm & Hg & Hres).
  unfold check_noncircular. rewrite Hbfs. cbn [mbind option_bind]. exists s', r. split; [done|]. by split_and!.
Qed.

Lemma find_usage_ok (fwd : bool) root bit : is_Some (lock_classes s !! root) →
  ∃ s' r, (if fwd then find_usage_forwards else find_usage_backwards) s root bit = Some (s', r) ∧ kept 1 s s' ∧
    search_result (λ c, has_bit s c bit) root fwd s s' r.
Proof.
  intros Hr. assert (graph_ok fwd s) as Hok by (by destruct fwd).
  destruct (bfs_search (usage_match s bit) (λ c, has_bit s c bit) root fwd s tt ltac:(by intros [] c) Hok Hr gen_ok_room)
    as (s' & a & r & Hbfs & Hs & Hm & Hg & Hres).
  exists s', r. split; [|by split_and!]. destruct fwd; unfold find_usage_forwards, find_usage_backwards; rewrite Hbfs; done.
Qed.
End searches.

(** ** Checks *)

Definition too_big (s : lockdep) : Prop := MAX_CIRCULAR_QUEUE_SIZE ≤ Z.of_nat (size (lock_classes s)).

(** A check for [bad] with at most [n] searches: it reports [bad] or a full queue. *)
Definition checked (n : Z) (s s' : lockdep) (r : Z) (bad : Prop) : Prop :=
  ∃ s1, kept n s s1 ∧ (r = 1 ∧ s' = s1 ∧ ¬ bad ∨ r = 0 ∧ s' = set_debug false s1 ∧ (bad ∨ too_big s)).

Lemma found_bad m c0 fwd s s' t :
  search_result m c0 fwd s s' (Found t) → ∃ c, rtc (edge fwd s) c0 c ∧ m c = true.
Proof. intros (e & c & d & _ & _ & Hm & Hn & _). exists c. split; [|done]. by apply rtc_nsteps_2 in Hn. Qed.

(** A path from a class with the bit [bb] through [prev] and [next] to one with [bf]. *)
Definition joins (s : lockdep) (prev next : nat) (bb bf : Z) : Prop :=
  ∃ a b, rtc (edge false s) prev a ∧ bit_of s a bb ∧ rtc (edge true s) next b ∧ bit_of s b bf.

Lemma joins_same s s' prev next bb bf : same_graph s s' → joins s prev next bb bf ↔ joins s' prev next bb bf.
Proof.
  intros E. unfold joins, bit_of. setoid_rewrite (rtc_same false s s' _ _ E). setoid_rewrite (rtc_same true s s' _ _ E).
  by setoid_rewrite (has_bit_same s s' _ _ E).
Qed.

Lemma same_is_Some s s' c : same_graph s s' → is_Some (lock_classes s !! c) → is_Some (lock_classes s' !! c).
Proof. intros E. rewrite <- !elem_of_dom, (same_dom _ _ E). done. Qed.

Lemma same_too_big s s' : same_graph s s' → too_big s ↔ too_big s'.
Proof. intros E. unfold too_big. by rewrite (same_size _ _ E). Qed.

Section checks.
Context (prev next : nat).

(** What the checks need of a state. *)
Definition ready (s : lockdep) : Prop :=
  graph_ok true s ∧ graph_ok false s ∧ is_Some (lock_classes s !! prev) ∧ is_Some (lock_classes s !! next).

Lemma ready_same s s' : same_graph s s' → ready s → ready s'.
Proof.
  intros E (? & ? & ? & ?). split_and!; [by apply (same_ok true s)|by apply (same_ok false s)|by apply (same_is_Some s)|by apply (same_is_Some s)].
Qed.

Lemma check_usage_ok s bb bf : ready s → room 2 s →
  ∃ s' r, check_usage s prev next bb bf = Some (s', r) ∧ checked 2 s s' r (joins s prev next bb bf).
Proof.
  intros Hrd Hroom. pose proof Hrd as (Hf & Hb & Hp & Hn). unfold check_usage.
  destruct (find_usage_ok s Hf Hb (room_weaken 2 1 s Hroom ltac:(lia)) false prev bb Hp) as (s1 & r1 & Hfu & Hk1 & Hr1).
  change (find_usage_backwards s prev bb = Some (s1, r1)) in Hfu.
  rewrite Hfu. cbn [mbind option_bind]. pose proof Hk1 as (E1 & _ & _). pose proof (kept_weaken 1 2 s s1 Hk1 ltac:(lia)) as Hk2.
  destruct r1 as [t| | |].
  - pose proof (ready_same s s1 E1 Hrd) as (Hf1 & Hb1 & _ & Hn1).
    destruct (find_usage_ok s1 Hf1 Hb1 (kept_room 1 1 s s1 Hroom Hk1) true next bf Hn1) as (s2 & r2 & Hfu2 & Hk & Hr2).
    change (find_usage_forwards s1 next bf = Some (s2, r2)) in Hfu2.
    rewrite Hfu2. cbn [mbind option_bind]. pose proof (kept_trans 1 1 _ _ _ Hk1 Hk) as Hk3. apply found_bad in Hr1 as (a & Ha & Hma).
    destruct r2 as [t2| | |]; [| | |done]; eexists _, _; (split; [done|]); exists s2; (split; [done|]).
    + right. split_and!; [done|done|]. left. apply found_bad in Hr2 as (b & Hb2 & Hmb). exists a, b.
      split_and!; [done|done|by apply (rtc_same true s s1)|unfold bit_of; by rewrite (has_bit_same s s1)].
    + left. split_and!; [done|done|]. intros (a' & b & _ & _ & Hb2 & Hmb). apply (rtc_same true s s1) in Hb2; [|done].
      specialize (Hr2 b Hb2). unfold bit_of in Hmb. rewrite (has_bit_same s s1) in Hmb by done. cbv beta in Hr2. congruence.
    + right. split_and!; [done|done|]. right. by apply (same_too_big s s1).
  - eexists _, _. split; [done|]. exists s1. split; [done|]. left. split_and!; [done|done|].
    intros (a & b & Ha & Hma & _). specialize (Hr1 a Ha). unfold bit_of in Hma. cbv beta in Hr1. congruence.
  - eexists _, _. split; [done|]. exists s1. split; [done|]. right. split_and!; [done|done|by right].
  - done.
Qed.

(** One check after another. *)
Lemma checked_seq n m s s1 s2 r2 (b1 b2 b : Prop) :
  checked n s s1 1 b1 → checked m s1 s2 r2 b2 → (b ↔ b1 ∨ b2) → checked (n + m) s s2 r2 b.
Proof.
  intros (x & Hx & [(_ & -> & Hnb)|(? & _)]) (y & Hy & Hr) Hb; [|lia]. exists y. split; [by apply (kept_trans n m s x)|].
  destruct Hr as [(-> & -> & Hr)|(-> & -> & Hr)]; [left|right]; (split_and!; [done|done|]).
  - rewrite Hb. tauto.
  - destruct Hr as [Hr|Hr]; [left; rewrite Hb; by right|right]. by apply (same_too_big s x); [apply Hx|].
Qed.

Lemma checked_stop n m s s1 (b1 b : Prop) :
  checked n s s1 0 b1 → n ≤ m → (b1 → b) → checked m s s1 0 b.
Proof.
  intros (x & Hx & [(? & _)|(_ & -> & Hr)]) Hn Hb; [lia|]. exists x. split; [by apply (kept_weaken n)|]. right. split_and!; [done|done|].
  destruct Hr; auto.
Qed.

Lemma checked_cases n s s' r b : checked n s s' r b → (r = 1 ∧ kept n s s') ∨ r = 0.
Proof. intros (x & Hx & [(-> & -> & _)|(-> & _)]); [by left|by right]. Qed.

Lemma check_irq_usage_ok s bit : ready s → room 4 s →
  ∃ s' r, check_irq_usage s prev next bit = Some (s', r) ∧
    checked 4 s s' r (joins s prev next bit (exclusive_bit bit) ∨ joins s prev next (bit + 1) (exclusive_bit (bit + 1))).
Proof.
  intros Hrd Hroom. unfold check_irq_usage.
  destruct (check_usage_ok s bit (exclusive_bit bit) Hrd (room_weaken 4 2 s Hroom ltac:(lia))) as (s1 & r1 & -> & Hc1). cbn [mbind option_bind].
  destruct (checked_cases _ _ _ _ _ Hc1) as [[-> Hk1]| ->].
  2:{ rewrite decide_True by done. eexists _, _. split; [done|]. apply (checked_stop 2 4 _ _ _ _ Hc1); [lia|tauto]. }
  rewrite decide_False by done.
  destruct (check_usage_ok s1 (bit + 1) (exclusive_bit (bit + 1)) (ready_same s s1 (proj1 Hk1) Hrd) (kept_room 2 2 _ _ Hroom Hk1))
    as (s2 & r2 & -> & Hc2). cbn [mbind option_bind].
  assert (checked 4 s s2 r2 (joins s prev next bit (exclusive_bit bit) ∨ joins s prev next (bit + 1) (exclusive_bit (bit + 1)))) as Hc.
  { apply (checked_seq 2 2 _ s1 _ _ _ _ _ Hc1 Hc2). by rewrite (joins_same s s1 prev next (bit + 1)) by apply Hk1. }
  destruct (checked_cases _ _ _ _ _ Hc) as [[-> _]| ->]; [rewrite decide_False by done|rewrite decide_True by done]; by eexists _, _.
Qed.

(** A class that is used in an interrupt of kind [st] before [prev], and one that is held
    with such interrupts on after [next]. *)
Definition irq_joins (s : lockdep) (st : lockdep_state) : Prop :=
  joins s prev next (LOCK_USED_IN st) (LOCK_ENABLED st) ∨ joins s prev next (LOCK_USED_IN_READ st) (LOCK_ENABLED st).

Lemma check_states_ok l : ∀ s n, ready s → n = 4 * Z.of_nat (length l) → room n s →
  ∃ s' r, check_states l s prev next = Some (s', r) ∧ checked n s s' r (∃ st, st ∈ l ∧ irq_joins s st).
Proof.
  induction l as [|st l IH]; intros s n Hrd Hn Hroom; cbn [check_states].
  { cbn in Hn. subst n. exists s, 1. split; [done|]. exists s. split; [by apply kept_0|]. left. split_and!; [done|done|]. set_solver. }
  cbn [length] in Hn. destruct (check_irq_usage_ok s (LOCK_USED_IN st) Hrd (room_weaken n 4 s Hroom ltac:(lia))) as (s1 & r1 & -> & Hc1).
  cbn [mbind option_bind]. replace (exclusive_bit (LOCK_USED_IN st)) with (LOCK_ENABLED st) in Hc1 by (by destruct st).
  replace (exclusive_bit (LOCK_USED_IN st + 1)) with (LOCK_ENABLED st) in Hc1 by (by destruct st).
  change (LOCK_USED_IN st + 1) with (LOCK_USED_IN_READ st) in Hc1. fold (irq_joins s st) in Hc1.
  destruct (checked_cases _ _ _ _ _ Hc1) as [[-> Hk1]| ->].
  2:{ rewrite decide_True by done. eexists _, _. split; [done|]. apply (checked_stop 4 n _ _ _ _ Hc1); [lia|]. set_solver. }
  rewrite decide_False by done.
  destruct (IH s1 (n - 4) (ready_same s s1 (proj1 Hk1) Hrd) ltac:(lia) (kept_room 4 (n - 4) s s1 ltac:(by replace (4 + (n - 4)) with n by lia) Hk1))
    as (s2 & r2 & Hr2 & Hc2).
  exists s2, r2. split; [done|]. replace n with (4 + (n - 4)) by lia. apply (checked_seq 4 (n - 4) _ s1 _ _ _ _ _ Hc1 Hc2).
  setoid_rewrite elem_of_cons. unfold irq_joins. setoid_rewrite (joins_same s s1 prev next _ _ (proj1 Hk1)). naive_solver.
Qed.
End checks.

(** * The invariant *)

(** No path leads from a class used in an interrupt to one held with interrupts on. *)
Definition irq_safe (s : lockdep) : Prop :=
  ∀ st a b, bit_of s a (LOCK_USED_IN st) ∨ bit_of s a (LOCK_USED_IN_READ st) → bit_of s b (LOCK_ENABLED st) →
    ¬ rtc (edge true s) a b.

Record dep_inv (s : lockdep) : Prop := {
  di_fwd : graph_ok true s;
  di_bwd : graph_ok false s;
  di_fresh i : (nr_list_entries s ≤ i)%nat → list_entries s !! i = None;
  di_marks : 0 ≤ lockdep_dependency_gen_id s ∧ marks_le s;
  di_acyclic c : ¬ tc (edge true s) c c;
  di_sound : debug_locks s = true → (∀ c c', edge true s c c' ↔ edge false s c' c) ∧ irq_safe s;
}.

Lemma tc_same fwd s s' x y : same_graph s s' → tc (edge fwd s) x y → tc (edge fwd s') x y.
Proof.
  intros E. apply (tc_congruence id). intros a b. by apply same_edge.
Qed.

Lemma dep_inv_same s s' : same_graph s s' → marks_le s' → 0 ≤ lockdep_dependency_gen_id s' → dep_inv s → dep_inv s'.
Proof.
  intros E Hm Hg Hi. pose proof E as (_ & He & Hnr & Hdb). split.
  - by apply (same_ok true s), (di_fwd _ Hi).
  - by apply (same_ok false s), (di_bwd _ Hi).
  - intros i Hn. rewrite <- Hnr in Hn. pose proof (di_fresh _ Hi i Hn) as Hf. specialize (He i). rewrite Hf in He. by destruct (list_entries s' !! i).
  - done.
  - intros c Ht. apply (di_acyclic _ Hi c). by apply (tc_same true s' s); [symmetry|].
  - intros Hd. rewrite <- Hdb in Hd. destruct (di_sound _ Hi Hd) as [Hmir Hirq]. split.
    + intros c c'. by rewrite <- (same_edge true s s'), <- (same_edge false s s').
    + intros st a b Ha Hb Hr. unfold bit_of in *. rewrite <- (has_bit_same s s' a (LOCK_USED_IN st)), <- (has_bit_same s s' a (LOCK_USED_IN_READ st)) in Ha by done.
      rewrite <- (has_bit_same s s') in Hb by done. apply (rtc_same true s s') in Hr; [|done].
      by apply (Hirq st a b).
Qed.

Lemma inv_kept n s s' : kept n s s' → dep_inv s → dep_inv s'.
Proof. intros (E & Hm & ?) Hi. apply (dep_inv_same s); try done. pose proof (di_marks _ Hi) as [? _]. lia. Qed.

(** Off is off. *)
Lemma inv_off s : dep_inv s → dep_inv (set_debug false s).
Proof. intros [H1 H2 H3 H4 H5 H6]. split; try done. Qed.

(** ** A new edge *)

Section add_edge.
Context (E E' : nat → nat → Prop) (p q : nat).
Context (HE : ∀ x y, E' x y ↔ E x y ∨ (x = p ∧ y = q)).

Lemma rtc_add x y : rtc E' x y → rtc E x y ∨ (rtc E x p ∧ rtc E q y).
Proof.
  induction 1 as [x|x y z Hxy _ IH]; [by left|]. apply HE in Hxy as [Hxy|[-> ->]].
  - destruct IH as [IH|[IH1 IH2]]; [left|right; split; [|done]]; by eapply rtc_l.
  - right. split; [done|]. destruct IH as [IH|[_ IH]]; done.
Qed.

Lemma acyclic_add : ¬ rtc E q p → (∀ c, ¬ tc E c c) → ∀ c, ¬ tc E' c c.
Proof.
  intros Hnp Hac c Ht. inversion Ht as [? ? Hc|? y ? Hcy Hyc]; subst.
  - apply HE in Hc as [Hc|[-> ->]]; [by apply (Hac c), tc_once|by apply Hnp].
  - apply tc_rtc in Hyc. apply rtc_add in Hyc. apply HE in Hcy as [Hcy|[-> ->]].
    + destruct Hyc as [Hyc|[H1 H2]]; [apply (Hac c); by eapply tc_rtc_r, Hyc; apply tc_once|].
      apply Hnp. etransitivity; [exact H2|]. by eapply rtc_l.
    + destruct Hyc as [Hyc|[H1 _]]; by apply Hnp.
Qed.
End add_edge.

Lemma add_lock_edge s c this after d s' :
  dep_inv s → is_Some (lock_classes s !! c) → is_Some (lock_classes s !! this) →
  add_lock_to_list s c this after d = (s', 1) →
  graph_ok true s' ∧ graph_ok false s' ∧
  (∀ i, (nr_list_entries s' ≤ i)%nat → list_entries s' !! i = None) ∧
  lockdep_dependency_gen_id s' = lockdep_dependency_gen_id s ∧ marks_le s' ∧ debug_locks s' = debug_locks s ∧
  dom (lock_classes s') = dom (lock_classes s) ∧ (∀ x bit, has_bit s' x bit = has_bit s x bit) ∧
  ∀ fwd x y, edge fwd s' x y ↔ edge fwd s x y ∨ (fwd = after ∧ x = c ∧ y = this).
Proof.
  intros Hi [cl Hcl] Hthis. unfold add_lock_to_list, alloc_list_entry. case_decide; [done|]. intros [= <-].
  set (i := nr_list_entries s). set (f := (if after then add_after else add_before) i). set (en := mkEntry (Some this) None d).
  assert (list_entries s !! i = None) as Hfr by (apply (di_fresh _ Hi); lia).
  assert (∀ fwd x cl', lock_classes s !! x = Some cl' → i ∉ heads fwd cl') as Hnew.
  { intros fwd x cl' Hx Hin. assert (graph_ok fwd s) as Hok by (destruct fwd; apply Hi).
    destruct (Hok x cl' i Hx Hin) as (e & ? & ? & _). congruence. }
  assert (∀ fwd cl', heads fwd (f cl') = heads fwd cl' ++ (if decide (fwd = after) then [i] else [])) as Hheads.
  { intros [] cl'; unfold f, heads; destruct after; cbn; by rewrite ?app_nil_r. }
  assert (∀ x, (alter f c (lock_classes s)) !! x = if decide (x = c) then Some (f cl) else lock_classes s !! x) as Hlk.
  { intros x. case_decide as E; [subst x; by rewrite lookup_alter_eq, Hcl|by rewrite lookup_alter_ne]. }
  assert (∀ x, is_Some (lock_classes s !! x) → is_Some (alter f c (lock_classes s) !! x)) as Hsome.
  { intros x Hx. rewrite Hlk. by case_decide. }
  assert (∀ fwd, graph_ok fwd s → graph_ok fwd (set_classes (alter f c) (set_entries (<[i := en]>) (set_nr_entries (S i) s)))) as Hgok.
  { intros fwd Hok x cl' j Hx Hj. cbn in Hx |- *. destruct (decide (j = i)) as [->|Hne].
    - exists en, this. rewrite lookup_insert_eq. split_and!; [done|done|by apply Hsome].
    - assert (∃ cl0, lock_classes s !! x = Some cl0 ∧ j ∈ heads fwd cl0) as (cl0 & Hx0 & Hj0).
      { rewrite Hlk in Hx. case_decide; [|by exists cl']. subst x. injection Hx as <-. exists cl. split; [done|]. rewrite Hheads in Hj.
        apply elem_of_app in Hj as [Hj|Hj]; [done|]. case_decide; set_solver. }
      destruct (Hok x cl0 j Hx0 Hj0) as (e & c' & He & Hc' & Hs'). exists e, c'. rewrite lookup_insert_ne by done. split_and!; [done|done|by apply Hsome]. }
  split_and!; [apply Hgok, (di_fwd _ Hi)|apply Hgok, (di_bwd _ Hi)| |done| |done| | |].
  - intros j Hj. cbn in Hj |- *. rewrite lookup_insert_ne by lia. apply (di_fresh _ Hi). lia.
  - intros x cl' Hx. cbn in Hx |- *. rewrite Hlk in Hx. case_decide; [|by apply (proj2 (di_marks _ Hi) x)].
    injection Hx as <-. assert (dep_gen_id (f cl) = dep_gen_id cl) as -> by (unfold f; by destruct after). by apply (proj2 (di_marks _ Hi) c).
  - cbn. by rewrite dom_alter_L.
  - intros x bit. unfold has_bit, usage_match. cbn. rewrite Hlk. case_decide; [|done]. subst x. rewrite Hcl. unfold f. by destruct after.
  - intros fwd x y. split.
    + intros (cl' & j & e & Hx & Hj & He & Hc). cbn in Hx, He. destruct (decide (j = i)) as [->|Hne].
      * right. rewrite lookup_insert_eq in He. injection He as <-. cbn in Hc. injection Hc as <-. rewrite Hlk in Hx.
        case_decide as Exc; [|by destruct (Hnew fwd x cl')]. injection Hx as <-. rewrite Hheads in Hj.
        apply elem_of_app in Hj as [Hj|Hj]; [by destruct (Hnew fwd c cl)|]. case_decide; [done|by apply elem_of_nil in Hj].
      * left. rewrite lookup_insert_ne in He by done. rewrite Hlk in Hx. case_decide as Exc; [|by exists cl', j, e].
        subst x. injection Hx as <-. exists cl, j, e. split_and!; [done| |done|done]. rewrite Hheads in Hj.
        apply elem_of_app in Hj as [Hj|Hj]; [done|]. case_decide; set_solver.
    + intros [(cl' & j & e & Hx & Hj & He & Hc)|(-> & -> & ->)].
      * assert (j ≠ i) by congruence. exists (if decide (x = c) then f cl' else cl'), j, e. cbn. rewrite Hlk, lookup_insert_ne by done.
        split_and!; [|case_decide; [rewrite Hheads; set_solver|done]|done|done]. case_decide; [subst x; congruence|done].
      * exists (f cl), i, en. cbn. rewrite Hlk, lookup_insert_eq, decide_True by done. split_and!; [done| |done|done].
        rewrite Hheads, decide_True by done. set_solver.
Qed.

(** ** [check_prev_add] *)

Lemma find_entry_ok s c cl next : graph_ok true s → lock_classes s !! c = Some cl →
  ∀ l, (∀ i, i ∈ l → i ∈ locks_after cl) →
  ∃ res, find_entry s next l = Some res ∧
    match res with
    | Some i => ∃ e, i ∈ l ∧ list_entries s !! i = Some e ∧ l_class e = Some next
    | None => True
    end.
Proof.
  intros Hok Hcl l. induction l as [|i l IH]; intros Hl; cbn [find_entry]; [by eexists|].
  destruct (Hok c cl i Hcl (Hl i ltac:(set_solver))) as (e & c' & He & Hc' & _). rewrite He. cbn [mbind option_bind]. case_decide.
  - exists (Some i). split; [done|]. exists e. split_and!; [set_solver|done|done].
  - destruct (IH ltac:(set_solver)) as (res & Hres & Hspec). exists res. split; [done|]. destruct res as [j|]; [|done].
    destruct Hspec as (e' & Hj & ?). exists e'. split; [set_solver|done].
Qed.

Lemma inv_distance s i d : dep_inv s → same_graph s (set_entries (alter (set_distance d) i) s) ∧ dep_inv (set_entries (alter (set_distance d) i) s).
Proof.
  intros Hi. assert (same_graph s (set_entries (alter (set_distance d) i) s)) as E.
  { split_and!; [done| |done|done]. intros j. cbn. destruct (decide (i = j)) as [<-|]; [rewrite lookup_alter_eq|by rewrite lookup_alter_ne].
    by destruct (list_entries s !! i). }
  split; [done|]. apply (dep_inv_same s); try done; apply (di_marks _ Hi).
Qed.

(** The graph after a new edge in both directions. *)
Lemma inv_add s s1 s2 p q d :
  dep_inv s → is_Some (lock_classes s !! p) → is_Some (lock_classes s !! q) →
  ¬ rtc (edge true s) q p → (∀ st, debug_locks s = true → ¬ irq_joins p q s st) →
  add_lock_to_list s p q true d = (s1, 1) →
  dep_inv (set_debug false s1) ∧
  (add_lock_to_list s1 q p false d = (s2, 1) → dep_inv s2).
Proof.
  intros Hi Hp Hq Hcyc Hirq Hadd1. destruct (add_lock_edge s p q true d s1 Hi Hp Hq Hadd1) as (G1 & G2 & G3 & G4 & G5 & G6 & G7 & G8 & G9).
  assert (∀ x y, edge true s1 x y ↔ edge true s x y ∨ (x = p ∧ y = q)) as HE by (intros x y; rewrite G9; naive_solver).
  assert (∀ c, ¬ tc (edge true s1) c c) as Hac by (apply (acyclic_add (edge true s) _ p q); [done|done|apply (di_acyclic _ Hi)]).
  assert (dep_inv (set_debug false s1)) as Hi1.
  { split; try done. split; [change (0 ≤ lockdep_dependency_gen_id s1); rewrite G4; apply (di_marks _ Hi)|exact G5]. }
  split; [done|]. intros Hadd2.
  assert (add_lock_to_list (set_debug false s1) q p false d = (set_debug false s2, 1)) as Hadd2'.
  { revert Hadd2. unfold add_lock_to_list, alloc_list_entry. cbn. case_decide; [done|]. by intros [= <-]. }
  assert (debug_locks s2 = debug_locks s) as Hdb.
  { revert Hadd2. unfold add_lock_to_list, alloc_list_entry. cbn. case_decide; [done|]. by intros [= <-]. }
  destruct (add_lock_edge (set_debug false s1) q p false d _ Hi1 ltac:(rewrite <- elem_of_dom in Hq |- *; cbn; by rewrite G7)
    ltac:(rewrite <- elem_of_dom in Hp |- *; cbn; by rewrite G7) Hadd2') as (K1 & K2 & K3 & K4 & K5 & K6 & K7 & K8 & K9).
  assert (∀ x y, edge true s2 x y ↔ edge true s x y ∨ (x = p ∧ y = q)) as HE2.
  { intros x y. rewrite <- HE. change (edge true (set_debug false s2) x y ↔ edge true (set_debug false s1) x y). rewrite K9. naive_solver. }
  assert (∀ x y, edge false s2 x y ↔ edge false s x y ∨ (x = q ∧ y = p)) as HF2.
  { intros x y. change (edge false (set_debug false s2) x y ↔ edge false s x y ∨ (x = q ∧ y = p)). rewrite K9.
    change (edge false (set_debug false s1) x y) with (edge false s1 x y). rewrite G9. naive_solver. }
  assert (∀ x bit, has_bit s2 x bit = has_bit s x bit) as Hbits by (intros x bit; rewrite <- G8; exact (K8 x bit)).
  split; [done|done|done| | |].
  - cbn in K4. rewrite K4, G4. split; [apply (di_marks _ Hi)|exact K5].
  - by apply (acyclic_add (edge true s) _ p q), (di_acyclic _ Hi).
  - intros Hd. rewrite Hdb in Hd. destruct (di_sound _ Hi Hd) as [Hmir Hsafe]. split.
    + intros x y. rewrite HE2, HF2, Hmir. naive_solver.
    + intros st a b Ha Hb Hr. unfold bit_of in Ha, Hb. rewrite !Hbits in Ha. rewrite Hbits in Hb.
      apply (rtc_add (edge true s) _ p q HE2) in Hr as [Hr|[Hr1 Hr2]]; [by apply (Hsafe st a b)|].
      apply (Hirq st Hd). assert (rtc (edge false s) p a) as Hpa.
      { clear -Hr1 Hmir. induction Hr1 as [x|x y z Hxy _ IH]; [done|]. eapply rtc_r; [exact IH|]. by apply Hmir. }
      destruct Ha as [Ha|Ha]; [left|right]; by exists a, b.
Qed.

(** Why a dependency of [q] on [p] is not allowed. *)
Definition bad_edge (s : lockdep) (p q : nat) : Prop :=
  rtc (edge true s) q p ∨ ∃ st, irq_joins p q s st.

Definition full_table (s : lockdep) : Prop := MAX_LOCKDEP_ENTRIES ≤ Z.of_nat (nr_list_entries s) + 1.

(** The classes and their usages are the same. *)
Definition same_usage (s s' : lockdep) : Prop :=
  dom (lock_classes s') = dom (lock_classes s) ∧ ∀ x bit, has_bit s' x bit = has_bit s x bit.

Lemma same_graph_usage s s' : same_graph s s' → same_usage s s'.
Proof. intros E. split; [by rewrite (same_dom _ _ E)|intros x bit; by rewrite (has_bit_same _ _ _ _ E)]. Qed.

(** What [check_prev_add] does with a dependency of [q] on [p]. *)
Definition added (s s' : lockdep) (p q : nat) (r : Z) : Prop :=
  r ≠ 0 ∧ debug_locks s' = debug_locks s ∧
  (∀ x y, edge true s x y → edge true s' x y) ∧ (∀ x y, edge true s' x y → edge true s x y ∨ (x = p ∧ y = q)).

Lemma added_same s s' p q r : r ≠ 0 → same_graph s s' → added s s' p q r.
Proof.
  intros Hr E. split_and!; [done|by symmetry; apply E| |]; intros x y Hxy; [|left]; by apply (same_edge true s s').
Qed.

Lemma add_both_ok s p q d :
  dep_inv s → is_Some (lock_classes s !! p) → is_Some (lock_classes s !! q) → ¬ bad_edge s p q →
  ∃ s' r, (let (s, r) := add_lock_to_list s p q true d in
           if decide (r = 0) then Some (s, 0)
           else let (s, r) := add_lock_to_list s q p false d in
                if decide (r = 0) then Some (s, 0) else Some (s, 1)) = Some (s', r) ∧
    dep_inv s' ∧ lockdep_dependency_gen_id s' = lockdep_dependency_gen_id s ∧ same_usage s s' ∧
    (r = 0 ∧ debug_locks s' = false ∧ full_table s ∨ added s s' p q r ∧ edge true s' p q).
Proof.
  intros Hi Hp Hq Hbad. destruct (add_lock_to_list s p q true d) as [s1 r1] eqn:E1.
  assert (r1 = 0 ∧ s1 = set_debug false s ∧ full_table s ∨ r1 = 1 ∧ nr_list_entries s1 = S (nr_list_entries s)) as Hr1.
  { revert E1. unfold add_lock_to_list, alloc_list_entry. case_decide; intros [= <- <-]; [left|right]; split_and!; try done. unfold full_table. lia. }
  destruct Hr1 as [(-> & -> & Hfull)|[-> Hnr1]].
  { rewrite decide_True by done. eexists _, _. split; [done|]. split_and!; [by apply inv_off|done|done|]. left. by split_and!. }
  rewrite decide_False by done.
  destruct (add_lock_edge s p q true d s1 Hi Hp Hq E1) as (_ & _ & _ & G4 & _ & G6 & G7 & G8 & G9).
  destruct (add_lock_to_list s1 q p false d) as [s2 r2] eqn:E2.
  assert (r2 = 0 ∧ s2 = set_debug false s1 ∧ full_table s ∨ r2 = 1) as Hr2.
  { revert E2. unfold add_lock_to_list, alloc_list_entry. case_decide; intros [= <- <-]; [left|by right]. split_and!; [done|done|]. unfold full_table. lia. }
  destruct (inv_add s s1 s2 p q d Hi Hp Hq) as [Hi1 Hi2]; [intros ?; apply Hbad; by left|intros st _ ?; apply Hbad; right; by exists st|done|].
  destruct Hr2 as [(-> & -> & Hfull)| ->].
  { rewrite decide_True by done. eexists _, _. split; [done|]. split_and!; [done|done|by split|]. left. by split_and!. }
  rewrite decide_False by done. specialize (Hi2 E2).
  assert (add_lock_to_list (set_debug false s1) q p false d = (set_debug false s2, 1)) as E2'.
  { revert E2. unfold add_lock_to_list, alloc_list_entry. cbn. case_decide; [done|]. by intros [= <-]. }
  assert (debug_locks s2 = debug_locks s1) as Hdb.
  { revert E2. unfold add_lock_to_list, alloc_list_entry. cbn. case_decide; [done|]. by intros [= <-]. }
  destruct (add_lock_edge (set_debug false s1) q p false d _ Hi1 ltac:(rewrite <- elem_of_dom in Hq |- *; cbn; by rewrite G7)
    ltac:(rewrite <- elem_of_dom in Hp |- *; cbn; by rewrite G7) E2') as (_ & _ & _ & K4 & _ & _ & K7 & K8 & K9).
  assert (∀ x y, edge true s2 x y ↔ edge true s x y ∨ (x = p ∧ y = q)) as HE2.
  { intros x y. change (edge true (set_debug false s2) x y ↔ edge true s x y ∨ (x = p ∧ y = q)). rewrite K9.
    change (edge true (set_debug false s1) x y) with (edge true s1 x y). rewrite G9. naive_solver. }
  eexists _, _. split; [done|]. split_and!; [done|cbn in K4; congruence| |].
  - split; [cbn in K7; congruence|]. intros x bit. rewrite <- G8. exact (K8 x bit).
  - right. split; [|by apply HE2; right]. split_and!; [done|congruence| |]; intros x y Hxy; apply HE2; auto.
Qed.

Lemma bad_edge_same s s' p q : same_graph s s' → bad_edge s p q ↔ bad_edge s' p q.
Proof.
  intros E. unfold bad_edge, irq_joins. rewrite (rtc_same true s s' _ _ E). by setoid_rewrite (joins_same s s' _ _ _ _ E).
Qed.

Lemma added_after_same s s1 s' p q r : same_graph s s1 → added s1 s' p q r → added s s' p q r.
Proof.
  intros E (Hr & Hd & H1 & H2). split_and!; [done|by rewrite Hd; symmetry; apply E| |].
  - intros x y Hxy. by apply H1, (same_edge true s s1).
  - intros x y Hxy. destruct (H2 x y Hxy) as [Hs|?]; [left|by right]. by apply (same_edge true s s1).
Qed.

(** The part of [check_prev_add] after the checks. *)
Lemma record_edge_ok s p q dist (tl save : bool) :
  dep_inv s → is_Some (lock_classes s !! p) → is_Some (lock_classes s !! q) → ¬ bad_edge s p q →
  ∃ s' r, (cl ← lock_classes s !! p;
           present ← find_entry s q (locks_after cl);
           match present with
           | Some i => Some (if decide (dist = 1) then set_entries (alter (set_distance 1) i) s else s, 2)
           | None =>
               if negb tl && negb save then Some (set_debug false s, 0)
               else
                 let (s, r) := add_lock_to_list s p q true dist in
                 if decide (r = 0) then Some (s, 0)
                 else
                   let (s, r) := add_lock_to_list s q p false dist in
                   if decide (r = 0) then Some (s, 0) else Some (s, 1)
           end) = Some (s', r) ∧
    dep_inv s' ∧ lockdep_dependency_gen_id s' = lockdep_dependency_gen_id s ∧ same_usage s s' ∧
    (r = 0 ∧ debug_locks s' = false ∧ (full_table s ∨ tl = false ∧ save = false) ∨ added s s' p q r ∧ edge true s' p q).
Proof.
  intros Hi Hp Hq Hbad. pose proof Hp as [cl Hcl]. rewrite Hcl. cbn [mbind option_bind].
  destruct (find_entry_ok s p cl q (di_fwd _ Hi) Hcl (locks_after cl) ltac:(done)) as (res & -> & Hres). cbn [mbind option_bind].
  destruct res as [i|].
  - destruct Hres as (e & Hin & He & Hc). assert (edge true s p q) as HE by (by exists cl, i, e).
    eexists _, _. split; [done|]. destruct (inv_distance s i 1 Hi) as [E Hi']. case_decide.
    + split_and!; [done|done|by apply same_graph_usage|]. right. split; [by apply added_same|by apply (same_edge true s)].
    + split_and!; [done|done|done|]. right. split; [by apply added_same|done].
  - destruct (negb tl && negb save) eqn:Et.
    + eexists _, _. split; [done|]. split_and!; [by apply inv_off|done|done|]. left. split_and!; [done|done|right].
      by destruct tl, save.
    + destruct (add_both_ok s p q dist Hi Hp Hq Hbad) as (s' & r & Hr & Hi' & Hg & Hu & Hres').
      exists s', r. split; [exact Hr|]. split_and!; [done|done|done|]. tauto.
Qed.

Lemma check_prev_add_ok s prev next dist tl save :
  dep_inv s → room 13 s → is_Some (lock_classes s !! h_class prev) → is_Some (lock_classes s !! h_class next) →
  ∃ s' r, check_prev_add s prev next dist tl save = Some (s', r) ∧ dep_inv s' ∧ same_usage s s' ∧
    lockdep_dependency_gen_id s ≤ lockdep_dependency_gen_id s' ≤ lockdep_dependency_gen_id s + 13 ∧
    (r = 0 ∧ debug_locks s' = false ∧
       (bad_edge s (h_class prev) (h_class next) ∨ too_big s ∨ full_table s ∨ (tl = false ∧ save = false)) ∨
     added s s' (h_class prev) (h_class next) r ∧ ¬ bad_edge s (h_class prev) (h_class next) ∧
       (hread next ≠ 2 → hread prev ≠ 2 → edge true s' (h_class prev) (h_class next))).
Proof.
  intros Hi Hroom Hp Hq. set (p := h_class prev) in *. set (q := h_class next) in *. unfold check_prev_add. fold p q.
  destruct (check_noncircular_ok s (di_fwd _ Hi) (room_weaken 13 1 s Hroom ltac:(lia)) q p Hq) as (s1 & r1 & -> & Hk1 & Hr1).
  cbn [mbind option_bind]. pose proof Hk1 as (E1 & _ & Hg1). pose proof (inv_kept _ _ _ Hk1 Hi) as Hi1.
  assert (∀ bad, bad → ∃ s' r, Some (print_bug s1) = Some (s', r) ∧ dep_inv s' ∧ same_usage s s' ∧
    lockdep_dependency_gen_id s ≤ lockdep_dependency_gen_id s' ≤ lockdep_dependency_gen_id s + 13 ∧
    (r = 0 ∧ debug_locks s' = false ∧ bad ∨ added s s' p q r ∧ ¬ bad_edge s p q ∧ (hread next ≠ 2 → hread prev ≠ 2 → edge true s' p q))) as Hbug.
  { intros bad Hb. eexists _, _. split; [done|]. split_and!; [by apply inv_off|by apply same_graph_usage in E1|cbn; lia|cbn; lia|]. left. by split_and!. }
  destruct r1 as [t| | |]; [apply Hbug; left; left| |apply Hbug; right; by left|done].
  { apply found_bad in Hr1 as (c & Hc & Hm). apply bool_decide_eq_true in Hm as ->. exact Hc. }
  clear Hbug. assert (¬ rtc (edge true s) q p) as Hcyc.
  { intros Hc. specialize (Hr1 p Hc). by apply bool_decide_eq_false in Hr1. }
  destruct (check_states_ok p q [HARDIRQ; SOFTIRQ; RECLAIM_FS] s1 12) as (s2 & r2 & Hst & Hc2).
  { apply (ready_same p q s s1 E1). split_and!; [apply Hi|apply Hi|done|done]. }
  { done. }
  { by apply (kept_room 1 12 s). }
  unfold check_prev_add_irq. rewrite Hst. cbn [mbind option_bind].
  destruct Hc2 as (s3 & Hk3 & [(-> & -> & Hnirq)|(-> & -> & Hirq)]).
  2:{ rewrite decide_True by done. eexists _, _. split; [done|]. pose proof (kept_trans 1 12 _ _ _ Hk1 Hk3) as (E3 & _ & Hg3).
      split_and!; [apply inv_off; by apply (inv_kept 12 s1)|by apply same_graph_usage in E3|cbn; lia|cbn; lia|]. left. split_and!; [done|done|].
      destruct Hirq as [(st & _ & Hj)|Hbig]; [left; right; exists st|right; left; by apply (same_too_big s s1)].
      unfold irq_joins in *. by rewrite !(joins_same s s1 _ _ _ _ E1). }
  rewrite decide_False by done. pose proof (kept_trans 1 12 _ _ _ Hk1 Hk3) as (E3 & _ & Hg3). change (1 + 12) with 13 in Hg3.
  pose proof (inv_kept _ _ _ Hk3 Hi1) as Hi3.
  assert (¬ bad_edge s p q) as Hnb.
  { intros [?|(st & Hj)]; [done|]. apply Hnirq. exists st. split; [destruct st; set_solver|]. unfold irq_joins in *.
    by rewrite <- !(joins_same s s1 _ _ _ _ E1). }
  case_decide as Hread.
  { exists s3, 1. split; [done|]. split_and!; [done|by apply same_graph_usage|lia|lia|]. right.
    split_and!; [by apply added_same|done|]. intros. by destruct Hread. }
  destruct (record_edge_ok s3 p q dist tl save Hi3) as (s' & r & Hr & Hi' & Hg & (Hu1 & Hu2) & Hres);
    [by apply (same_is_Some s)|by apply (same_is_Some s)|by rewrite <- (bad_edge_same s s3)|].
  exists s', r. split; [exact Hr|]. destruct (same_graph_usage s s3 E3) as [Hv1 Hv2].
  split_and!; [done|split; [by rewrite Hu1|intros x bit; by rewrite Hu2]|lia|lia|].
  destruct Hres as [(-> & Hd & Hwhy)|[Hadd HE]]; [left|right].
  - split_and!; [done|done|]. right. right. unfold full_table in *. destruct E3 as (_ & _ & -> & _). done.
  - split_and!; [by apply (added_after_same s s3)|done|done].
Qed.

(** ** [mark_lock] *)

Lemma land_bit m b : 0 ≤ b → Z.land m (Z.shiftl 1 b) ≠ 0 ↔ Z.testbit m b = true.
Proof.
  intros Hb. rewrite Z.shiftl_1_l. destruct (Z.testbit m b) eqn:E; split; try done; intros Hne.
  - intros Hz. assert (Z.testbit (Z.land m (2 ^ b)) b = true) as Ht by (by rewrite Z.land_spec, E, Z.pow2_bits_true).
    rewrite Hz, Z.bits_0 in Ht. done.
  - destruct Hne. apply Z.bits_inj'. intros i Hi. rewrite Z.land_spec, Z.bits_0, Z.pow2_bits_eqb by done.
    destruct (Z.eqb_spec b i) as [<-|]; [by rewrite E|by rewrite andb_false_r].
Qed.

Definition with_usage (s : lockdep) (c : nat) (nb : Z) : lockdep := set_classes (alter (set_usage nb) c) s.

Lemma with_usage_lookup s c nb x : lock_classes (with_usage s c nb) !! x =
  (if decide (x = c) then set_usage nb <$> lock_classes s !! x else lock_classes s !! x).
Proof. cbn. case_decide as E; [subst x; by rewrite lookup_alter_eq|by rewrite lookup_alter_ne]. Qed.

Lemma with_usage_edge fwd s c nb x y : edge fwd (with_usage s c nb) x y ↔ edge fwd s x y.
Proof.
  unfold edge. change (list_entries (with_usage s c nb)) with (list_entries s). setoid_rewrite with_usage_lookup.
  split; intros (cl & i & e & Hcl & Hr).
  - case_decide; [|by exists cl, i, e]. destruct (lock_classes s !! x) as [cl'|]; [|done]. injection Hcl as <-. by exists cl', i, e.
  - case_decide; [|by exists cl, i, e]. rewrite Hcl. by exists (set_usage nb cl), i, e.
Qed.

Lemma with_usage_ok fwd s c nb : graph_ok fwd s → graph_ok fwd (with_usage s c nb).
Proof.
  intros Hok x cl i Hx Hi. rewrite with_usage_lookup in Hx.
  assert (∃ cl', lock_classes s !! x = Some cl' ∧ i ∈ heads fwd cl') as (cl' & Hx' & Hi').
  { case_decide; [|by exists cl]. destruct (lock_classes s !! x) as [cl'|]; [|done]. injection Hx as <-. by exists cl'. }
  destruct (Hok x cl' i Hx' Hi') as (e & c' & He & Hc' & [k Hk]). exists e, c'. split_and!; [done|done|].
  rewrite with_usage_lookup, Hk. destruct (decide (c' = c)); by eexists.
Qed.

Lemma with_usage_bit s c nb x b : is_Some (lock_classes s !! c) → 0 ≤ nb → 0 ≤ b →
  bit_of (with_usage s c nb) x b ↔ bit_of s x b ∨ (x = c ∧ b = nb).
Proof.
  intros [cl Hcl] Hnb Hb. unfold bit_of, has_bit, usage_match. rewrite with_usage_lookup. cbn [snd]. case_decide as E.
  - subst x. rewrite Hcl. cbn [fmap option_fmap option_map]. rewrite !bool_decide_eq_true. rewrite !land_bit by done. cbn [usage_mask set_usage].
    rewrite Z.lor_spec, Z.shiftl_1_l, Z.pow2_bits_eqb by done. destruct (Z.eqb_spec nb b); rewrite ?orb_true_r, ?orb_false_r; naive_solver.
  - naive_solver.
Qed.

Lemma with_usage_marks s c nb : marks_le s → marks_le (with_usage s c nb).
Proof.
  intros Hm x cl Hx. rewrite with_usage_lookup in Hx. change (lockdep_dependency_gen_id (with_usage s c nb)) with (lockdep_dependency_gen_id s).
  case_decide; [|by apply (Hm x)]. destruct (lock_classes s !! x) as [cl'|] eqn:E; [|done]. injection Hx as <-. by apply (Hm x cl').
Qed.

Lemma rtc_with_usage fwd s c nb x y : rtc (edge fwd (with_usage s c nb)) x y ↔ rtc (edge fwd s) x y.
Proof. split; apply rtc_subrel; intros a b; apply with_usage_edge. Qed.

(** All but the soundness of the usages. *)
Lemma inv_with_usage s c nb :
  dep_inv s → (debug_locks s = true → irq_safe (with_usage s c nb)) → dep_inv (with_usage s c nb).
Proof.
  intros Hi Hirq. split.
  - by apply with_usage_ok, (di_fwd _ Hi).
  - by apply with_usage_ok, (di_bwd _ Hi).
  - exact (di_fresh _ Hi).
  - split; [apply (di_marks _ Hi)|by apply with_usage_marks, (di_marks _ Hi)].
  - intros x Ht. apply (di_acyclic _ Hi x). revert Ht. apply (tc_congruence id). intros a b. apply with_usage_edge.
  - intros Hd. split; [|by apply Hirq]. intros x y. rewrite !with_usage_edge. by apply (di_sound _ Hi).
Qed.

(** A class with the bit [bit] can be reached from [c]. *)
Definition reaches (fwd : bool) (s : lockdep) (c : nat) (bit : Z) : Prop :=
  ∃ b, rtc (edge fwd s) c b ∧ bit_of s b bit.

Lemma reaches_same fwd s s' c bit : same_graph s s' → reaches fwd s c bit ↔ reaches fwd s' c bit.
Proof.
  intros E. unfold reaches, bit_of. setoid_rewrite (rtc_same fwd s s' _ _ E). by setoid_rewrite (has_bit_same s s' _ _ E).
Qed.

Lemma check_usage_dir_ok fwd s c bit :
  graph_ok true s → graph_ok false s → is_Some (lock_classes s !! c) → room 1 s →
  ∃ s' r, check_usage_dir fwd s c bit = Some (s', r) ∧ checked 1 s s' r (reaches fwd s c bit).
Proof.
  intros Hf Hb Hc Hroom. destruct (find_usage_ok s Hf Hb Hroom fwd c bit Hc) as (s1 & r1 & Hfu & Hk1 & Hr1).
  unfold check_usage_dir. rewrite Hfu. cbn [mbind option_bind].
  destruct r1 as [t| | |]; [| | |done]; eexists _, _; (split; [done|]); exists s1; (split; [done|]).
  - right. split_and!; [done|done|left]. apply found_bad in Hr1 as (b & Hb' & Hm). by exists b.
  - left. split_and!; [done|done|]. intros (b & Hb' & Hm). specialize (Hr1 b Hb'). cbv beta in Hr1. unfold bit_of in Hm. congruence.
  - right. split_and!; [done|done|by right].
Qed.

Lemma checked_bug n s (bad : Prop) : room n s → 0 ≤ n → bad → checked n s (set_debug false s) 0 bad.
Proof.
  intros Hroom Hn Hb. exists s. split; [apply (kept_weaken 0); [|done]; by apply kept_0, (room_weaken n)|]. right. split_and!; [done|done|by left].
Qed.

(** What a new usage bit of [c] conflicts with. *)
Definition usage_bad (s : lockdep) (c : nat) (nb : Z) : Prop :=
  let fwd := bool_decide (Z.land nb 2 = 0) in
  reaches fwd s c (exclusive_bit nb) ∨ (Z.land nb 1 = 0 ∧ reaches fwd s c (exclusive_bit nb + 1)).

Lemma mark_lock_irq_ok s c nb :
  graph_ok true s → graph_ok false s → is_Some (lock_classes s !! c) → room 2 s →
  ∃ s' r, mark_lock_irq s c nb = Some (s', r) ∧ checked 2 s s' r (usage_bad s c nb).
Proof.
  intros Hf Hb Hc Hroom. set (fwd := bool_decide (Z.land nb 2 = 0)). set (e := exclusive_bit nb).
  assert (∀ bit, has_bit s c bit = true → reaches fwd s c bit) as Hself by (intros bit Hbit; exists c; by split).
  unfold mark_lock_irq, usage_bad. fold fwd e. replace (bool_decide (Z.land nb 2 ≠ 0)) with (negb fwd) by (unfold fwd; by rewrite bool_decide_not).
  assert ((if negb fwd then check_usage_backwards else check_usage_forwards) = check_usage_dir fwd) as -> by (by destruct fwd).
  rewrite orb_true_r. unfold valid_state at 1. destruct (has_bit s c e) eqn:Ee.
  { cbn [print_bug]. rewrite decide_True by done. eexists _, _. split; [done|]. apply checked_bug; [done|lia|]. left. by apply Hself. }
  rewrite decide_False by done.
  destruct (check_usage_dir_ok fwd s c e Hf Hb Hc (room_weaken 2 1 s Hroom ltac:(lia))) as (s1 & r1 & -> & Hc1). cbn [mbind option_bind].
  destruct (checked_cases _ _ _ _ _ Hc1) as [[-> Hk1]| ->].
  2:{ rewrite decide_True by done. eexists _, _. split; [done|]. apply (checked_stop 1 2 _ _ _ _ Hc1); [lia|tauto]. }
  rewrite decide_False by done. pose proof Hk1 as (E1 & _). destruct (bool_decide (Z.land nb 1 ≠ 0)) eqn:Eread; cbn [negb].
  { apply bool_decide_eq_true in Eread. eexists _, _. split; [done|]. destruct Hc1 as (x & Hx & [(_ & -> & Hn)|(? & _)]); [|done].
    exists x. split; [by apply (kept_weaken 1)|]. left. split_and!; [done|done|]. tauto. }
  apply bool_decide_eq_false in Eread. unfold valid_state. destruct (has_bit s1 c (e + 1)) eqn:Ee1.
  { cbn [print_bug]. rewrite decide_True by done. eexists _, _. split; [done|].
    exists s1. split; [by apply (kept_weaken 1)|]. right. split_and!; [done|done|left; right]. split; [lia|]. apply Hself.
    by rewrite (has_bit_same s s1). }
  rewrite decide_False by done. cbn [STRICT_READ_CHECKS].
  destruct (check_usage_dir_ok fwd s1 c (e + 1)) as (s2 & r2 & -> & Hc2);
    [by apply (same_ok true s)|by apply (same_ok false s)|by apply (same_is_Some s)|by apply (kept_room 1 1 s)|].
  cbn [mbind option_bind]. assert (checked 2 s s2 r2 (reaches fwd s c e ∨ Z.land nb 1 = 0 ∧ reaches fwd s c (e + 1))) as Hck.
  { apply (checked_seq 1 1 _ s1 _ _ _ _ _ Hc1 Hc2). rewrite (reaches_same fwd s s1 c (e + 1) E1). assert (Z.land nb 1 = 0) by lia. tauto. }
  destruct (checked_cases _ _ _ _ _ Hck) as [[-> _]| ->]; [rewrite decide_False by done|rewrite decide_True by done]; by eexists _, _.
Qed.

Lemma state_index_range st : 0 ≤ state_index st ≤ 2.
Proof. destruct st; cbn; lia. Qed.

(** A new usage without conflict keeps the graph safe. *)
Lemma irq_safe_mark s c nb :
  dep_inv s → debug_locks s = true → is_Some (lock_classes s !! c) → 0 ≤ nb < LOCK_USED →
  ¬ usage_bad (with_usage s c nb) c nb → irq_safe (with_usage s c nb).
Proof.
  intros Hi Hd Hc Hnb Hbad st a b Ha Hb Hr. destruct (di_sound _ Hi Hd) as [Hmir Hsafe]. pose proof (state_index_range st) as Hst.
  assert (∀ x bit, 0 ≤ bit → bit_of (with_usage s c nb) x bit ↔ bit_of s x bit ∨ (x = c ∧ bit = nb)) as Hbit.
  { intros x bit Hbit. apply with_usage_bit; [done|lia|done]. }
  assert (rtc (edge false (with_usage s c nb)) b a) as Hba.
  { apply rtc_with_usage. apply rtc_with_usage in Hr. clear -Hr Hmir. induction Hr as [x|x y z Hxy _ IH]; [done|].
    eapply rtc_r; [exact IH|]. by apply Hmir. }
  assert (bit_of s b (LOCK_ENABLED st) ∨ (b = c ∧ LOCK_ENABLED st = nb)) as Hb' by (apply Hbit; [unfold LOCK_ENABLED; lia|done]).
  assert ((bit_of s a (LOCK_USED_IN st) ∨ bit_of s a (LOCK_USED_IN_READ st)) ∨ (a = c ∧ (LOCK_USED_IN st = nb ∨ LOCK_USED_IN_READ st = nb))) as Ha'.
  { destruct Ha as [Ha|Ha]; apply Hbit in Ha; unfold LOCK_USED_IN, LOCK_USED_IN_READ in *; try lia; tauto. }
  destruct Hb' as [Hb'|[-> Eb]].
  - destruct Ha' as [Ha'|[-> Ea]]; [apply (Hsafe st a b Ha' Hb'); by apply rtc_with_usage in Hr|]. apply Hbad. left.
    assert (bool_decide (Z.land nb 2 = 0) = true ∧ exclusive_bit nb = LOCK_ENABLED st) as [-> ->].
    { destruct Ea as [<-|<-]; by destruct st. }
    exists b. by split.
  - apply Hbad. assert (bool_decide (Z.land nb 2 = 0) = false ∧ exclusive_bit nb = LOCK_USED_IN st ∧ Z.land nb 1 = 0) as (E1 & E2 & E3).
    { subst nb. by destruct st. }
    unfold usage_bad. rewrite E1, E2. destruct Ha as [Ha|Ha]; [left; by exists a|right]. split; [done|]. by exists a.
Qed.

Lemma irq_safe_other s c nb :
  irq_safe s → is_Some (lock_classes s !! c) → LOCK_USED ≤ nb → irq_safe (with_usage s c nb).
Proof.
  intros Hsafe Hc Hnb st a b Ha Hb Hr. apply rtc_with_usage in Hr. pose proof (state_index_range st). unfold LOCK_USED in Hnb.
  assert (∀ x bit, 0 ≤ bit < 12 → bit_of (with_usage s c nb) x bit → bit_of s x bit) as Hbit.
  { intros x bit Hbit Hx. apply with_usage_bit in Hx; [|done|lia|lia]. destruct Hx as [?|[_ ?]]; [done|lia]. }
  unfold LOCK_USED_IN, LOCK_USED_IN_READ, LOCK_ENABLED in *.
  apply (Hsafe st a b); [destruct Ha; [left|right]; (apply Hbit; [unfold LOCK_USED_IN, LOCK_USED_IN_READ; lia|done])| |done].
  apply Hbit; [unfold LOCK_ENABLED; lia|done].
Qed.

Lemma inv_off_usage s c nb : dep_inv s → dep_inv (set_debug false (with_usage s c nb)).
Proof. intros Hi. exact (inv_with_usage (set_debug false s) c nb (inv_off s Hi) ltac:(done)). Qed.

Definition same_edges (s s' : lockdep) : Prop :=
  dom (lock_classes s') = dom (lock_classes s) ∧ ∀ fwd x y, edge fwd s' x y ↔ edge fwd s x y.

Lemma with_usage_edges s c nb : same_edges s (with_usage s c nb).
Proof. split; [cbn; by rewrite dom_alter_L|]. intros fwd x y. apply with_usage_edge. Qed.

Lemma same_graph_edges s s' s'' : same_edges s s' → same_graph s' s'' → same_edges s s''.
Proof.
  intros [Hd He] E. split; [by rewrite <- (same_dom _ _ E)|]. intros fwd x y. by rewrite <- (same_edge fwd s' s'').
Qed.

Lemma mark_lock_ok s c nb save :
  dep_inv s → room 2 s → is_Some (lock_classes s !! c) → 0 ≤ nb ≤ LOCK_USED →
  ∃ s' r, mark_lock s c nb save = Some (s', r) ∧ dep_inv s' ∧ same_edges s s' ∧
    lockdep_dependency_gen_id s ≤ lockdep_dependency_gen_id s' ≤ lockdep_dependency_gen_id s + 2 ∧
    (r = 0 ∧ debug_locks s' = false ∧
       (debug_locks s = false ∨ save = false ∨ too_big s ∨ nb < LOCK_USED ∧ usage_bad (with_usage s c nb) c nb) ∨
     r = 1 ∧ debug_locks s' = debug_locks s ∧
       (∀ x b, 0 ≤ b → bit_of s' x b ↔ bit_of s x b ∨ (x = c ∧ b = nb)) ∧
       (¬ bit_of s c nb → debug_locks s = true ∧ save = true ∧
          (nb < LOCK_USED → ¬ usage_bad (with_usage s c nb) c nb))).
Proof.
  intros Hi Hroom Hc Hnb. unfold mark_lock. fold (with_usage s c nb). destruct (has_bit s c nb) eqn:Ebit.
  { exists s, 1. split; [done|]. split_and!; [done|done|lia|lia|]. right. split_and!; [done|done| |done]. intros x b _. split; [by left|].
    intros [?|[-> ->]]; done. }
  destruct (debug_locks s) eqn:Ed; cbn [negb].
  2:{ exists s, 0. split; [done|]. split_and!; [done|done|lia|lia|]. left. split_and!; [done|done|by left]. }
  set (s1 := with_usage s c nb). destruct save; cbn [negb].
  2:{ eexists _, _. split; [done|]. split_and!; [by apply inv_off_usage|apply with_usage_edges|cbn; lia|cbn; lia|]. left. split_and!; [done|done|auto]. }
  assert (∀ x b, 0 ≤ b → bit_of s1 x b ↔ bit_of s x b ∨ (x = c ∧ b = nb)) as Hbits by (intros; by apply with_usage_bit; [|lia|]).
  case_decide as Hlt.
  - destruct (mark_lock_irq_ok s1 c nb) as (s2 & r & -> & s3 & Hk & Hres).
    { by apply with_usage_ok, (di_fwd _ Hi). }
    { by apply with_usage_ok, (di_bwd _ Hi). }
    { apply elem_of_dom. unfold s1. rewrite (proj1 (with_usage_edges s c nb)). by apply elem_of_dom. }
    { destruct Hroom as (? & ? & ?). split_and!; [done|done|by apply with_usage_marks]. }
    cbn [mbind option_bind]. pose proof Hk as (E & Hm & Hg). change (lockdep_dependency_gen_id s1) with (lockdep_dependency_gen_id s) in Hg.
    pose proof (same_graph_edges s s1 s3 (with_usage_edges s c nb) E) as He3. destruct Hres as [(-> & -> & Hok)|(-> & -> & Hbad)].
    + rewrite decide_False by done. eexists _, _. split; [done|]. split_and!; [|done|lia|lia|].
      * apply (inv_kept 2 s1); [done|]. apply inv_with_usage; [done|]. intros _. by apply irq_safe_mark.
      * right. split_and!; [done|by destruct E as (_ & _ & _ & <-)| |done]. intros x b Hb. unfold bit_of at 1. rewrite <- (has_bit_same s1 s3) by done. by apply Hbits.
    + rewrite decide_True by done. eexists _, _. split; [done|]. split_and!; [|exact He3|exact (proj1 Hg)|exact (proj2 Hg)|].
      * apply (dep_inv_same (set_debug false s1)); [|done|cbn; destruct Hroom as (? & _); lia|by apply inv_off_usage]. destruct E as (H1 & H2 & H3 & H4). by split_and!.
      * left. split_and!; [done|done|]. right. right. destruct Hbad as [Hbad|Hbig]; [right; split; [lia|done]|left].
        unfold too_big in *. rewrite <- (size_dom (lock_classes s)), <- (proj1 (with_usage_edges s c nb)), size_dom. done.
  - rewrite decide_True by (unfold LOCK_USED in *; lia). eexists _, _. split; [done|]. split_and!; [|apply with_usage_edges|cbn; lia|cbn; lia|right; split_and!; [done|done|done|]; intros _; split_and!; [done|done|lia]].
    apply inv_with_usage; [done|]. intros _. apply irq_safe_other; [by apply (di_sound _ Hi)|done|unfold LOCK_USED in *; lia].
Qed.

(** * The start *)

(** The classes [cs] are registered, and nothing was locked. *)
Definition dep_init (cs : gset nat) : lockdep :=
  mkDep (gset_to_gmap (mkClass [] [] 0 0) cs) ∅ 0 (mkCq ∅ 0 0) 0 0 true.

Lemma dep_init_inv cs : dep_inv (dep_init cs).
Proof.
  assert (∀ fwd x y, ¬ edge fwd (dep_init cs) x y) as Hno.
  { intros fwd x y (cl & i & e & Hcl & Hin & He & _). cbn in He. by rewrite lookup_empty in He. }
  assert (∀ fwd, graph_ok fwd (dep_init cs)) as Hok.
  { intros fwd c cl i Hcl Hin. apply lookup_gset_to_gmap_Some in Hcl as [_ <-]. destruct fwd; by apply elem_of_nil in Hin. }
  split; [apply Hok|apply Hok|done| | |].
  - split; [done|]. intros c cl Hcl. apply lookup_gset_to_gmap_Some in Hcl as [_ <-]. done.
  - intros c Hc. inversion Hc as [? ? He|? ? ? He]; by apply Hno in He.
  - intros _. split; [intros c c'; split; intros He; by apply Hno in He|]. intros st a b _ Hb. exfalso. revert Hb.
    unfold bit_of, has_bit. cbn. destruct (gset_to_gmap _ cs !! b) as [cl|] eqn:E; [|done].
    apply lookup_gset_to_gmap_Some in E as [_ <-]. cbn. by rewrite Z.land_0_l.
Qed.

(** * The theorems *)


(** C8: A new usage of a class is marked as follows.  If there is a report, the class would
    lead to one with a usage that excludes the new one, or be led to by one, or
    checking was off, or a table is full, or no stack trace could be stored.
    Otherwise exactly the new bit is set, and if it was not set before, checking was on
    and no class with an excluding usage, for reading too unless the new usage is for
    reading, can be reached (forwards for a usage in interrupts, backwards for one with
    interrupts on).  No dependency changes, and the invariant is kept. *)
Theorem mark_lock_correct s c new_bit save :
  dep_inv s → room 2 s → is_Some (lock_classes s !! c) → 0 ≤ new_bit ≤ LOCK_USED →
  ∃ s' r, mark_lock s c new_bit save = Some (s', r) ∧ dep_inv s' ∧ same_edges s s' ∧
    (r = 0 ∧ debug_locks s' = false ∧
       (debug_locks s = false ∨ save = false ∨ too_big s ∨ new_bit < LOCK_USED ∧ usage_bad (with_usage s c new_bit) c new_bit) ∨
     r = 1 ∧ debug_locks s' = debug_locks s ∧
       (∀ x b, 0 ≤ b → bit_of s' x b ↔ bit_of s x b ∨ (x = c ∧ b = new_bit)) ∧
       (¬ bit_of s c new_bit → debug_locks s = true ∧ save = true ∧
          (new_bit < LOCK_USED → ¬ usage_bad (with_usage s c new_bit) c new_bit))).
Proof.
  intros Hi Hr Hc Hb. destruct (mark_lock_ok s c new_bit save Hi Hr Hc Hb) as (s' & r & E & Hi' & He & _ & Hres). by exists s', r.
Qed.

Module DepDemo.

Definition demo_held (c : nat) : held_lock := mkHeld c (100 + c) None false 0 2 true 0 0 0.
Definition start : lockdep := dep_init {[1; 2]}%nat.

(** 2 is taken under 1. *)
Definition one_two : option (lockdep * Z) := check_prev_add start (demo_held 1) (demo_held 2) 1 false true.

Lemma one_two_run : ∃ s, one_two = Some (s, 1) ∧ dep_inv s ∧ edge true s 1 2 ∧ debug_locks s = true ∧ room 100 s ∧
  ∀ c, c = 1%nat ∨ c = 2%nat → is_Some (lock_classes s !! c).
Proof.
  destruct (check_prev_add_ok start (demo_held 1) (demo_held 2) 1 false true) as (s & r & E & Hi & Hu & Hg & Hres);
    [apply dep_init_inv|split_and!; [done|done|apply dep_init_inv]|by eexists|by eexists|].
  assert (match one_two with Some (s, r) => bool_decide (r = 1) && debug_locks s | None => false end = true) as Hrun by (vm_compute; reflexivity).
  unfold one_two in *. rewrite E in *. apply andb_true_iff in Hrun as [Hr Hd]. apply bool_decide_eq_true in Hr as ->.
  change (lockdep_dependency_gen_id start) with 0 in Hg. assert (2 ^ 32 = 4294967296) as Hw by reflexivity.
  exists s. destruct Hres as [[? _]|(_ & _ & He)]; [done|]. split_and!; [done|done|by apply He|done|split_and!; [lia|lia|apply Hi]|].
  intros c Hc. apply elem_of_dom. destruct Hu as [-> _]. apply elem_of_dom. destruct Hc as [-> | ->]; by eexists.
Qed.


Lemma mark_lock_correct_witness :
  ∃ s s', one_two = Some (s, 1) ∧ mark_lock s 2 (LOCK_ENABLED HARDIRQ) true = Some (s', 1) ∧ dep_inv s' ∧
    bit_of s' 2 (LOCK_ENABLED HARDIRQ) ∧ edge true s' 1 2.
Proof.
  destruct one_two_run as (s & E & Hi & He & Hd & Hroom & Hcl).
  destruct (mark_lock_correct s 2 (LOCK_ENABLED HARDIRQ) true) as (s' & r & E' & Hi' & [_ Hsame] & Hres);
    [exact Hi|apply (room_weaken 100); [exact Hroom|lia]|apply Hcl; by right|by vm_compute|].
  assert (match one_two with
          | Some (s, _) => match mark_lock s 2 (LOCK_ENABLED HARDIRQ) true with Some (_, r) => bool_decide (r = 1) | None => false end
          | None => false end = true) as Hrun by (vm_compute; reflexivity).
  rewrite E, E' in Hrun. apply bool_decide_eq_true in Hrun. subst r. exists s, s'.
  destruct Hres as [(Hne & _)|(_ & _ & Hbits & _)]; [discriminate Hne|].
  split_and!; [exact E|exact E'|exact Hi'|apply Hbits; [done|by right]|by apply Hsame].
Defined.

(** ** Reads with interrupts on *)

(** Class 1 is written in a hard interrupt, class 2 is held for reading with interrupts
    on, and 2 is taken under 1: the marks before the dependency, or after it. *)
Definition marks_first : option (lockdep * Z) :=
  '(s, _) ← mark_lock start 1 (LOCK_USED_IN HARDIRQ) true;
  '(s, _) ← mark_lock s 2 (LOCK_ENABLED_READ HARDIRQ) true;
  check_prev_add s (demo_held 1) (demo_held 2) 1 false true.

Definition marks_last : option (lockdep * Z) :=
  '(s, _) ← check_prev_add start (demo_held 1) (demo_held 2) 1 false true;
  '(s, _) ← mark_lock s 1 (LOCK_USED_IN HARDIRQ) true;
  mark_lock s 2 (LOCK_ENABLED_READ HARDIRQ) true.

Definition edge_b (s : lockdep) (c c' : nat) : bool :=
  match lock_classes s !! c with
  | Some cl => existsb (λ i, bool_decide (list_entries s !! i ≫= l_class = Some c')) (locks_after cl)
  | None => false
  end.

Lemma edge_b_true s c c' : edge_b s c c' = true → edge true s c c'.
Proof.
  unfold edge_b. destruct (lock_classes s !! c) as [cl|] eqn:Hc; [|done]. rewrite existsb_exists. intros (i & Hi & He).
  apply bool_decide_eq_true in He. destruct (list_entries s !! i) as [e|] eqn:Ei; [|done]. exists cl, i, e. by rewrite list_elem_of_In.
Qed.

(** A class that is written in a hard interrupt must not lead to one that is held, if only
    for reading, with interrupts on: marking the second usage reports it when the
    dependency is known.  When the dependency comes last it is added with nothing
    reported, since new dependencies are not checked against reads with interrupts
    on. *)
Theorem irq_read_order_missed :
  (∃ s, marks_last = Some (s, 0) ∧ debug_locks s = false) ∧
  ∃ s, marks_first = Some (s, 1) ∧ debug_locks s = true ∧ edge true s 1 2 ∧
    bit_of s 1 (LOCK_USED_IN HARDIRQ) ∧ bit_of s 2 (LOCK_ENABLED_READ HARDIRQ).
Proof.
  assert (match marks_last with Some (s, r) => bool_decide (r = 0) && negb (debug_locks s) | None => false end &&
          match marks_first with
          | Some (s, r) => bool_decide (r = 1) && debug_locks s && edge_b s 1 2 && has_bit s 1 (LOCK_USED_IN HARDIRQ) &&
              has_bit s 2 (LOCK_ENABLED_READ HARDIRQ)
          | None => false end = true) as Hrun by (vm_compute; reflexivity).
  destruct marks_last as [[s r]|], marks_first as [[s' r']|]; try discriminate Hrun; [|by rewrite andb_false_r in Hrun].
  rewrite !andb_true_iff, !bool_decide_eq_true, negb_true_iff in Hrun. destruct Hrun as [[-> Ho] [[[[-> Hon] He] H1] H2]].
  split; [by exists s|]. exists s'. split_and!; [done|done|by apply edge_b_true|done|done].
Qed.
End DepDemo.
