(* ===== verification/LockAcq.v ===== *)
(** Acquiring and releasing locks under the lock validator,
    kernel/locking/lockdep.c: [__lock_acquire] with [mark_irqflags],
    [validate_chain] and the cache of chains, [__lock_release], and the marks when
    interrupts go on.

    A task has a stack of the locks it holds.  The class of a lock, which the code
    keeps in the lock or registers, is an argument, as is whether stack traces can
    be stored.  Interrupts are off and the validator does not recurse, as its entry
    points see to; [check_chain_key], which one option adds to acquire and release,
    is a function of its own, and is shown to find nothing.

    The theorems: as long as no report was made, in every interleaving of any number
    of tasks each lock a task holds leads, in the graph, to each lock it took after
    it, so that no set of tasks waits in a circle; provided that different chains of
    classes that occur have different keys, that reads are not recursive, and that
    no nesting annotations are used.  The proviso about keys fails for the first
    class that is registered ([abba_missed]), and recursive reads hide later writes
    ([read_write_missed]). *)

From S2P Require Import Prelude LockBfs LockDep.

Local Open Scope Z_scope.

(** * Tasks and chains *)

Record task := mkTask {
  held_locks : list held_lock;
  curr_chain_key : Z;
  hardirq_context : bool;
  softirq_context : bool;
  hardirqs_enabled : bool;
  softirqs_enabled : bool;
  reclaim_fs : bool;
}.

Record lock_chain := mkChain {
  chain_key : Z;
  chain_irq_context : Z;
  chain_depth : nat;
  chain_hlocks : list nat;
}.

Record validator := mkVal {
  dep : lockdep;
  lock_chains : list lock_chain;
  nr_chain_hlocks : Z;
}.

Definition with_dep (s : lockdep) (v : validator) : validator := mkVal s (lock_chains v) (nr_chain_hlocks v).

(** The first two are of the headers of the kernel (sched.h, lockdep.h). *)
Definition MAX_LOCK_DEPTH : nat := 48.
Definition MAX_LOCKDEP_KEYS_BITS : Z := 13.
Definition MAX_LOCKDEP_CHAINS : Z := 2 ^ 15.
Definition MAX_LOCKDEP_CHAIN_HLOCKS : Z := MAX_LOCKDEP_CHAINS * 5.

Definition iterate_chain_key (key1 key2 : Z) : Z :=
  Z.lxor (Z.lxor (u64 (Z.shiftl key1 MAX_LOCKDEP_KEYS_BITS)) (Z.shiftr key1 (64 - MAX_LOCKDEP_KEYS_BITS))) key2.

Definition set_held (l : list held_lock) (t : task) : task :=
  mkTask l (curr_chain_key t) (hardirq_context t) (softirq_context t) (hardirqs_enabled t) (softirqs_enabled t) (reclaim_fs t).
Definition set_key (k : Z) (t : task) : task :=
  mkTask (held_locks t) k (hardirq_context t) (softirq_context t) (hardirqs_enabled t) (softirqs_enabled t) (reclaim_fs t).
Definition set_enabled (h s : bool) (t : task) : task :=
  mkTask (held_locks t) (curr_chain_key t) (hardirq_context t) (softirq_context t) h s (reclaim_fs t).

Definition set_read (r : Z) (h : held_lock) : held_lock :=
  mkHeld (h_class h) (instance h) (nest_lock h) (trylock h) r (hcheck h) (hardirqs_off h) (references h) (irq_context h) (prev_chain_key h).
Definition set_references (r : Z) (h : held_lock) : held_lock :=
  mkHeld (h_class h) (instance h) (nest_lock h) (trylock h) (hread h) (hcheck h) (hardirqs_off h) r (irq_context h) (prev_chain_key h).

(** * Usages *)

(** The marks [l] one after the other, up to one that fails. *)
Fixpoint mark_bits (l : list Z) (s : lockdep) (c : nat) (save : bool) : option (lockdep * Z) :=
  match l with
  | [] => Some (s, 1)
  | b :: l =>
      '(s, r) ← mark_lock s c b save;
      if decide (r = 0) then Some (s, 0) else mark_bits l s c save
  end.

Definition when (b : bool) (bit : Z) : list Z := if b then [bit] else [].

(** The bits that [mark_irqflags] marks, in its order. *)
Definition irqflags_bits (t : task) (h : held_lock) : list Z :=
  let read := bool_decide (hread h ≠ 0) in
  (if negb (trylock h) then
     if read then when (hardirq_context t) (LOCK_USED_IN_READ HARDIRQ) ++ when (softirq_context t) (LOCK_USED_IN_READ SOFTIRQ)
     else when (hardirq_context t) (LOCK_USED_IN HARDIRQ) ++ when (softirq_context t) (LOCK_USED_IN SOFTIRQ)
   else []) ++
  (if negb (hardirqs_off h) then
     if read then LOCK_ENABLED_READ HARDIRQ :: when (softirqs_enabled t) (LOCK_ENABLED_READ SOFTIRQ)
     else LOCK_ENABLED HARDIRQ :: when (softirqs_enabled t) (LOCK_ENABLED SOFTIRQ)
   else []) ++
  (if negb (trylock h) && reclaim_fs t then
     [if read then LOCK_USED_IN_READ RECLAIM_FS else LOCK_USED_IN RECLAIM_FS]
   else []).

Definition mark_irqflags (s : lockdep) (t : task) (h : held_lock) (save : bool) : option (lockdep * Z) :=
  mark_bits (irqflags_bits t h) s (h_class h) save.

(** [mark_held_locks]; a class that is not validated is passed over. *)
Fixpoint mark_held_locks (no_validate : nat → bool) (l : list held_lock) (s : lockdep) (mark : lockdep_state) (save : bool)
    : option (lockdep * Z) :=
  match l with
  | [] => Some (s, 1)
  | h :: l =>
      let usage_bit := if decide (hread h ≠ 0) then LOCK_ENABLED_READ mark else LOCK_ENABLED mark in
      if no_validate (h_class h) then mark_held_locks no_validate l s mark save
      else
        '(s, r) ← mark_lock s (h_class h) usage_bit save;
        if decide (r = 0) then Some (s, 0) else mark_held_locks no_validate l s mark save
  end.

Definition __trace_hardirqs_on_caller (no_validate : nat → bool) (s : lockdep) (t : task) (save : bool)
    : option (lockdep * task) :=
  let t := set_enabled true (softirqs_enabled t) t in
  '(s, r) ← mark_held_locks no_validate (held_locks t) s HARDIRQ save;
  if decide (r = 0) then Some (s, t)
  else if softirqs_enabled t then
    '(s, _) ← mark_held_locks no_validate (held_locks t) s SOFTIRQ save;
    Some (s, t)
  else Some (s, t).

Definition trace_hardirqs_on_caller (no_validate : nat → bool) (early_boot_irqs_disabled : bool) (s : lockdep) (t : task) (save : bool)
    : option (lockdep * task) :=
  if negb (debug_locks s) then Some (s, t)
  else if hardirqs_enabled t then Some (s, t)
  else if early_boot_irqs_disabled then Some (set_debug false s, t)
  else if hardirq_context t then Some (set_debug false s, t)
  else __trace_hardirqs_on_caller no_validate s t save.

Definition trace_hardirqs_off_caller (s : lockdep) (t : task) : task :=
  if negb (debug_locks s) then t
  else if hardirqs_enabled t then set_enabled false (softirqs_enabled t) t
  else t.

Definition trace_softirqs_on (no_validate : nat → bool) (s : lockdep) (t : task) (save : bool) : option (lockdep * task) :=
  if negb (debug_locks s) then Some (s, t)
  else if softirqs_enabled t then Some (s, t)
  else
    let t := set_enabled (hardirqs_enabled t) true t in
    if hardirqs_enabled t then
      '(s, _) ← mark_held_locks no_validate (held_locks t) s SOFTIRQ save;
      Some (s, t)
    else Some (s, t).

(** [counted] says whether the count of softirqs is raised, as it must be. *)
Definition trace_softirqs_off (counted : bool) (s : lockdep) (t : task) : lockdep * task :=
  if negb (debug_locks s) then (s, t)
  else if softirqs_enabled t then
    (if counted then s else set_debug false s, set_enabled (hardirqs_enabled t) false t)
  else (s, t).

(** The flags of an allocation and of its task. *)
Record gfp := mkGfp {
  gfp_wait : bool;
  gfp_nomemalloc : bool;
  gfp_fs : bool;
  pf_memalloc : bool;
}.

Definition __lockdep_trace_alloc (no_validate : nat → bool) (g : gfp) (irqs_disabled : bool) (s : lockdep) (t : task) (save : bool)
    : option lockdep :=
  if negb (debug_locks s) then Some s
  else if negb (gfp_wait g) then Some s
  else if pf_memalloc g && negb (gfp_nomemalloc g) then Some s
  else if negb (gfp_fs g) then Some s
  else if irqs_disabled then Some (set_debug false s)
  else
    '(s, _) ← mark_held_locks no_validate (held_locks t) s RECLAIM_FS save;
    Some s.

(** * Chains *)

(** The irq context of the new lock [h]; the result says whether it begins a chain. *)
Definition new_irq_context (t : task) : Z :=
  2 * (if hardirq_context t then 1 else 0) + (if softirq_context t then 1 else 0).

Definition separate_irq_context (t : task) (ctx : Z) : bool :=
  match last (held_locks t) with
  | Some prev => bool_decide (irq_context prev ≠ ctx)
  | None => false
  end.

(** The locks of the current context, from the end of the stack. *)
Fixpoint context_top (ctx : Z) (l : list held_lock) : list held_lock :=
  match l with
  | [] => []
  | h :: l => if decide (irq_context h ≠ ctx) then [] else h :: context_top ctx l
  end.

Definition lookup_chain_cache (v : validator) (t : task) (h : held_lock) (key : Z) : validator * Z :=
  if decide (key ∈ chain_key <$> lock_chains v) then (v, 0)
  else if negb (debug_locks (dep v)) then (v, 0)
  else if decide (MAX_LOCKDEP_CHAINS ≤ Z.of_nat (length (lock_chains v))) then (with_dep (set_debug false (dep v)) v, 0)
  else
    let below := reverse (context_top (irq_context h) (reverse (held_locks t))) in
    let depth := S (length below) in
    let fits := bool_decide (nr_chain_hlocks v + Z.of_nat depth ≤ MAX_LOCKDEP_CHAIN_HLOCKS) in
    let hl := if fits then (h_class <$> below) ++ [h_class h] else [] in
    (mkVal (dep v) (lock_chains v ++ [mkChain key (irq_context h) depth hl])
       (if fits then nr_chain_hlocks v + Z.of_nat depth else nr_chain_hlocks v), 1).

(** 0 and a report, 1, or 2 for a read that may recurse; [nest] says whether the lock
    that serialises the nesting was met. *)
Fixpoint check_deadlock (l : list held_lock) (s : lockdep) (next : held_lock) (read : Z) (nest : bool) : lockdep * Z :=
  match l with
  | [] => (s, 1)
  | prev :: l =>
      let nest := nest || bool_decide (Some (instance prev) = nest_lock next) in
      if decide (h_class prev ≠ h_class next) then check_deadlock l s next read nest
      else if decide (read = 2 ∧ hread prev ≠ 0) then (s, 2)
      else if nest then (s, 2)
      else print_bug s
  end.

(** The locks below [next], from the top of the stack. *)
Fixpoint prevs_loop (l : list held_lock) (s : lockdep) (next : held_lock) (dist : Z) (trylock_loop save : bool)
    : option (lockdep * Z) :=
  match l with
  | [] => Some (s, 1)
  | h :: l =>
      '(s, r) ← (if decide (hread h ≠ 2) then check_prev_add s h next dist trylock_loop save else Some (s, 1));
      if decide (r = 0) then Some (s, 0)
      else if bool_decide (hread h ≠ 2) && negb (trylock h) then Some (s, 1)
      else
        match l with
        | [] => Some (s, 1)
        | h' :: _ =>
            if decide (irq_context h ≠ irq_context h') then Some (s, 1)
            else prevs_loop l s next (dist + 1) true save
        end
  end.

Definition check_prevs_add (s : lockdep) (t : task) (next : held_lock) (save : bool) : option (lockdep * Z) :=
  match last (held_locks t) with
  | None => Some (print_bug s)
  | Some top =>
      if decide (irq_context next ≠ irq_context top) then Some (print_bug s)
      else prevs_loop (reverse (held_locks t)) s next 1 false save
  end.

(** The lock comes back with its [read] changed to 2 if it is taken recursively. *)
Definition validate_chain (v : validator) (t : task) (h : held_lock) (chain_head : bool) (key : Z) (save : bool)
    : option (validator * held_lock * Z) :=
  let (v, miss) := if negb (trylock h) && bool_decide (hcheck h = 2) then lookup_chain_cache v t h key else (v, 0) in
  if decide (miss ≠ 0) then
    let (s, ret) := check_deadlock (held_locks t) (dep v) h (hread h) false in
    let v := with_dep s v in
    if decide (ret = 0) then Some (v, h, 0)
    else
      let h := if decide (ret = 2) then set_read 2 h else h in
      if negb chain_head && bool_decide (ret ≠ 2) then
        '(s, r) ← check_prevs_add (dep v) t h save;
        Some (with_dep s v, h, if decide (r = 0) then 0 else 1)
      else Some (v, h, 1)
  else if negb (debug_locks (dep v)) then Some (v, h, 0)
  else Some (v, h, 1).

(** [check_chain_key] computes the keys again: [None] where the key that was saved differs. *)
Fixpoint chain_keys (l : list held_lock) (prev : option held_lock) (key : Z) : option Z :=
  match l with
  | [] => Some key
  | h :: l =>
      if decide (key ≠ prev_chain_key h) then None
      else
        let key := match prev with
                   | Some p => if decide (irq_context p ≠ irq_context h) then 0 else key
                   | None => key
                   end in
        chain_keys l (Some h) (iterate_chain_key key (Z.of_nat (h_class h)))
  end.

Definition check_chain_key (s : lockdep) (t : task) : lockdep :=
  match chain_keys (held_locks t) None 0 with
  | None => set_debug false s
  | Some key => if decide (key ≠ curr_chain_key t) then set_debug false s else s
  end.

(** * Acquire and release *)

(** [match_held_lock]; [lclass] is the class of the lock, if it has one.  The flag says
    whether a warning turns the validator off. *)
Definition match_held_lock (h : held_lock) (lock : nat) (lclass : option nat) : bool * bool :=
  if decide (instance h = lock) then (true, false)
  else if decide (references h ≠ 0) then
    match lclass with
    | None => (false, false)
    | Some c =>
        match nest_lock h with
        | None => (false, true)
        | Some _ => (bool_decide (h_class h = c), false)
        end
    end
  else (false, false).

Definition warn (b : bool) (s : lockdep) : lockdep := if b then set_debug false s else s.

Fixpoint __lock_is_held (l : list held_lock) (s : lockdep) (lock : nat) (lclass : option nat) : lockdep * bool :=
  match l with
  | [] => (s, false)
  | h :: l =>
      let (m, w) := match_held_lock h lock lclass in
      if m then (warn w s, true) else __lock_is_held l (warn w s) lock lclass
  end.

(** What a call of [__lock_acquire] is given. *)
Record acquire := mkAcq {
  a_class : nat;
  a_lock : nat;
  a_trylock : bool;
  a_read : Z;
  a_check : Z;
  a_hardirqs_off : bool;
  a_nest_lock : option (nat * option nat);
  a_references : Z;
}.

Definition __lock_acquire (v : validator) (t : task) (a : acquire) (save : bool) : option (validator * task * Z) :=
  if negb (debug_locks (dep v)) then Some (v, t, 0)
  else if decide (MAX_LOCK_DEPTH ≤ length (held_locks t))%nat then Some (with_dep (set_debug false (dep v)) v, t, 0)
  else
    let nested :=
      match last (held_locks t), a_nest_lock a with
      | Some top, Some _ => if decide (h_class top = a_class a) then Some top else None
      | _, _ => None
      end in
    match nested with
    | Some top =>
        let refs := if decide (references top ≠ 0) then references top + 1 else 2 in
        Some (v, set_held (<[(length (held_locks t) - 1)%nat := set_references refs top]> (held_locks t)) t, 1)
    | None =>
        let ctx := new_irq_context t in
        let h := mkHeld (a_class a) (a_lock a) (fst <$> a_nest_lock a) (a_trylock a) (a_read a) (a_check a)
                   (a_hardirqs_off a) (a_references a) ctx (curr_chain_key t) in
        '(s, r) ← (if decide (a_check a = 2) then mark_irqflags (dep v) t h save else Some (dep v, 1));
        let v := with_dep s v in
        if decide (r = 0) then Some (v, t, 0)
        else
          '(s, r) ← mark_lock (dep v) (a_class a) LOCK_USED save;
          let v := with_dep s v in
          if decide (r = 0) then Some (v, t, 0)
          else
            let key := curr_chain_key t in
            if bool_decide (held_locks t = []) && bool_decide (key ≠ 0) then
              Some (with_dep (set_debug false (dep v)) v, t, 0)
            else
              let sep := separate_irq_context t ctx in
              let chain_head := bool_decide (held_locks t = []) || sep in
              let key := iterate_chain_key (if sep then 0 else key) (Z.of_nat (a_class a)) in
              let (s, held) :=
                match a_nest_lock a with
                | None => (dep v, true)
                | Some (nl, lc) => __lock_is_held (held_locks t) (dep v) nl lc
                end in
              let v := with_dep s v in
              if negb held then Some (with_dep (set_debug false (dep v)) v, t, 0)
              else
                '(v, h, r) ← validate_chain v t h chain_head key save;
                if decide (r = 0) then Some (v, t, 0)
                else
                  let t := set_key key (set_held (held_locks t ++ [h]) t) in
                  if decide (MAX_LOCK_DEPTH ≤ length (held_locks t))%nat then
                    Some (with_dep (set_debug false (dep v)) v, t, 0)
                  else Some (v, t, 1)
    end.

(** The locks [l] are taken again. *)
Fixpoint reacquire (v : validator) (t : task) (l : list held_lock) (lclass : nat → option nat) (save : bool)
    : option (validator * task * Z) :=
  match l with
  | [] => Some (v, t, 1)
  | h :: l =>
      let a := mkAcq (h_class h) (instance h) (trylock h) (hread h) (hcheck h) (hardirqs_off h)
                 ((λ n, (n, lclass n)) <$> nest_lock h) (references h) in
      '(v, t, r) ← __lock_acquire v t a save;
      if decide (r = 0) then Some (v, t, 0) else reacquire v t l lclass save
  end.

(** The search for the lock to release, from the top of the stack down to the first of
    another context: its index from the top. *)
Fixpoint find_held (l : list held_lock) (prev : option held_lock) (s : lockdep) (lock : nat) (lclass : option nat)
    : lockdep * option nat :=
  match l with
  | [] => (s, None)
  | h :: l =>
      if match prev with Some p => bool_decide (irq_context p ≠ irq_context h) | None => false end then (s, None)
      else
        let (m, w) := match_held_lock h lock lclass in
        if m then (warn w s, Some O)
        else
          let (s, r) := find_held l (Some h) (warn w s) lock lclass in
          (s, S <$> r)
  end.

Definition lock_release_non_nested (v : validator) (t : task) (lock : nat) (lclass : nat → option nat) (save : bool)
    : option (validator * task * Z) :=
  let off v := with_dep (set_debug false (dep v)) v in
  let depth := length (held_locks t) in
  if decide (held_locks t = []) then Some (off v, t, 0)
  else
    let (s, k) := find_held (reverse (held_locks t)) None (dep v) lock (lclass lock) in
    let v := with_dep s v in
    match k with
    | None => Some (off v, t, 0)
    | Some k =>
        let i := (depth - 1 - k)%nat in
        h ← held_locks t !! i;
        if decide (references h ≠ 0 ∧ references h - 1 ≠ 0) then
          Some (v, set_held (<[i := set_references (references h - 1) h]> (held_locks t)) t, 1)
        else
          let rest := drop (S i) (held_locks t) in
          let t := set_key (prev_chain_key h) (set_held (take i (held_locks t)) t) in
          '(v, t, r) ← reacquire v t rest lclass save;
          if decide (r = 0) then Some (v, t, 0)
          else if decide (length (held_locks t) ≠ depth - 1)%nat then Some (off v, t, 0)
          else Some (v, t, 1)
    end.

Definition lock_release_nested (v : validator) (t : task) (lock : nat) (lclass : nat → option nat) (save : bool)
    : option (validator * task * Z) :=
  h ← last (held_locks t);
  if decide (instance h ≠ lock ∨ references h ≠ 0) then lock_release_non_nested v t lock lclass save
  else
    let rest := take (length (held_locks t) - 1) (held_locks t) in
    let t := set_held rest t in
    if bool_decide (rest = []) && bool_decide (prev_chain_key h ≠ 0) then
      Some (with_dep (set_debug false (dep v)) v, t, 0)
    else Some (v, set_key (prev_chain_key h) t, 1).

Definition __lock_release (v : validator) (t : task) (lock : nat) (lclass : nat → option nat) (nested save : bool)
    : option (validator * task) :=
  if negb (debug_locks (dep v)) then Some (v, t)
  else if decide (held_locks t = []) then Some (with_dep (set_debug false (dep v)) v, t)
  else
    '(v, t, _) ← (if nested then lock_release_nested else lock_release_non_nested) v t lock lclass save;
    Some (v, t).

(** * Stacks and chains that agree with the graph *)

(** The locks of the context [ctx] at the top of a stack. *)
Definition seg (ctx : Z) (l : list held_lock) : list held_lock := reverse (context_top ctx (reverse l)).

Definition key_of (l : list nat) : Z := foldl (λ k c, iterate_chain_key k (Z.of_nat c)) 0 l.

(** No recursion, no nesting, fully checked. *)
Definition plain (h : held_lock) : Prop :=
  (hread h = 0 ∨ hread h = 1) ∧ hcheck h = 2 ∧ nest_lock h = None ∧ references h = 0.

(** The classes of the chain that [h] ends. *)
Definition chain_of (l : list held_lock) (h : held_lock) : list nat := (h_class <$> seg (irq_context h) l) ++ [h_class h].

(** A stack with its key: what is taken and not tried depends on all below it in its
    context. *)
Inductive stack_ok (E : nat → nat → Prop) : list held_lock → Z → Prop :=
  | stack_nil : stack_ok E [] 0
  | stack_snoc l k h :
      stack_ok E l k → prev_chain_key h = k → plain h →
      (trylock h = false → ∀ x, x ∈ seg (irq_context h) l → tc E (h_class x) (h_class h)) →
      stack_ok E (l ++ [h]) (key_of (chain_of l h)).

(** The keys that are cached are those of chains [P] whose dependencies are known. *)
Definition cache_ok (P : list nat → Prop) (E : nat → nat → Prop) (chains : list lock_chain) : Prop :=
  ∀ ch, ch ∈ chains → ∃ l c, P (l ++ [c]) ∧ chain_key ch = key_of (l ++ [c]) ∧ ∀ x, x ∈ l → tc E x c.

Lemma tc_mono (E E' : nat → nat → Prop) x y : (∀ a b, E a b → E' a b) → tc E x y → tc E' x y.
Proof. intros HE. by apply (tc_congruence id). Qed.

Lemma stack_mono (E E' : nat → nat → Prop) l k : (∀ a b, E a b → E' a b) → stack_ok E l k → stack_ok E' l k.
Proof.
  intros HE. induction 1 as [|l k h _ IH Hk Hp Hc]; [constructor|]. apply (stack_snoc E' l k h); [done|done|done|].
  intros Ht x Hx. apply (tc_mono E); [done|]. by apply Hc.
Qed.

Lemma cache_mono P (E E' : nat → nat → Prop) ch : (∀ a b, E a b → E' a b) → cache_ok P E ch → cache_ok P E' ch.
Proof.
  intros HE Hc c Hin. destruct (Hc c Hin) as (l & x & HP & Hk & Hd). exists l, x. split_and!; [done|done|].
  intros y Hy. by apply (tc_mono E), Hd.
Qed.

Lemma stack_snoc_inv E l h k : stack_ok E (l ++ [h]) k →
  stack_ok E l (prev_chain_key h) ∧ plain h ∧ k = key_of (chain_of l h) ∧
  (trylock h = false → ∀ x, x ∈ seg (irq_context h) l → tc E (h_class x) (h_class h)).
Proof.
  intros Hs. inversion Hs as [Hn|l' k' h' Hs' Hk Hp Hc Heq]; [by destruct l|]. apply app_inj_tail in Heq as [-> ->]. by subst.
Qed.

Lemma stack_plain E l k : stack_ok E l k → Forall plain l.
Proof. induction 1; [constructor|]. apply Forall_app. auto. Qed.

Lemma seg_snoc ctx l h : seg ctx (l ++ [h]) = if decide (irq_context h ≠ ctx) then [] else seg ctx l ++ [h].
Proof.
  unfold seg. rewrite reverse_snoc. cbn [context_top]. case_decide; [done|]. by rewrite reverse_cons.
Qed.

Lemma seg_sub ctx l x : x ∈ seg ctx l → x ∈ l.
Proof.
  unfold seg. rewrite elem_of_reverse. intros Hx. rewrite <- elem_of_reverse. revert Hx. generalize (reverse l) as m. intros m.
  induction m as [|h m IH]; cbn [context_top]; [done|]. case_decide; [intros Hx; by apply elem_of_nil in Hx|].
  rewrite !elem_of_cons. naive_solver.
Qed.

Lemma key_of_snoc l c : key_of (l ++ [c]) = iterate_chain_key (key_of l) (Z.of_nat c).
Proof. unfold key_of. by rewrite foldl_app. Qed.

(** The key of the chain of a new lock is made from the key of the stack. *)
Lemma new_key E t h :
  stack_ok E (held_locks t) (curr_chain_key t) →
  iterate_chain_key (if separate_irq_context t (irq_context h) then 0 else curr_chain_key t) (Z.of_nat (h_class h)) =
  key_of (chain_of (held_locks t) h).
Proof.
  intros Hs. unfold chain_of. rewrite key_of_snoc. f_equal. unfold separate_irq_context.
  destruct (held_locks t) as [|top l _] using rev_ind.
  - inversion Hs as [|l' ? ? ? ? ? ? Heq]; [done|]. by destruct l'.
  - rewrite last_snoc, seg_snoc. apply stack_snoc_inv in Hs as (_ & _ & -> & _). case_bool_decide as Hd.
    + by rewrite decide_True by done.
    + rewrite decide_False by (intros Hn; by apply Hn). rewrite fmap_app. unfold chain_of. by rewrite Hd.
Qed.

Lemma chain_keys_snoc h l : ∀ p k, chain_keys (l ++ [h]) p k =
  k' ← chain_keys l p k;
  if decide (k' ≠ prev_chain_key h) then None
  else Some (iterate_chain_key (match last l, p with
                                | Some q, _ | None, Some q => if decide (irq_context q ≠ irq_context h) then 0 else k'
                                | None, None => k' end) (Z.of_nat (h_class h))).
Proof.
  induction l as [|x l IH]; intros p k; cbn [app chain_keys]; [by destruct p|]. destruct (decide (k ≠ prev_chain_key x)); [done|].
  rewrite IH. destruct (chain_keys l _ _) as [k'|]; [|done]. cbn [mbind option_bind]. destruct l as [|y l]; [done|]. rewrite last_cons_cons.
  by destruct (last (y :: l)) eqn:El; [|apply last_None in El].
Qed.

(** The keys that a stack saves are those that [check_chain_key] computes. *)
Lemma check_chain_key_ok E s t : stack_ok E (held_locks t) (curr_chain_key t) → check_chain_key s t = s.
Proof.
  intros Hs. unfold check_chain_key. assert (chain_keys (held_locks t) None 0 = Some (curr_chain_key t)) as ->; [|by rewrite decide_False by (intros Hn; by apply Hn)].
  induction Hs as [|l k h Hl IH Hk Hp _]; [done|]. rewrite chain_keys_snoc, IH. cbn [mbind option_bind].
  rewrite decide_False by (intros Hn; by apply Hn). f_equal.
  pose proof (new_key E (mkTask l k false false false false false) h Hl) as Hnew. cbn [held_locks curr_chain_key] in Hnew. rewrite <- Hnew. f_equal.
  unfold separate_irq_context. cbn [held_locks]. destruct (last l) as [q|]; [|done]. case_bool_decide as Hq; [by rewrite decide_True|]. rewrite decide_False; [done|]. intros Hn. by apply Hn.
Qed.

(** ** The loop over the locks below *)

Section prevs.
Context (next : held_lock) (Hnext : hread next ≠ 2).

Lemma prevs_loop_ok save l : ∀ s k dist tl,
  dep_inv s → room (13 * Z.of_nat (length l)) s → is_Some (lock_classes s !! h_class next) →
  Forall (λ h, is_Some (lock_classes s !! h_class h)) l →
  stack_ok (edge true s) (reverse l) k → l ≠ [] → (∀ h, head l = Some h → irq_context h = irq_context next) →
  ∃ s' r, prevs_loop l s next dist tl save = Some (s', r) ∧ dep_inv s' ∧ same_usage s s' ∧
    lockdep_dependency_gen_id s ≤ lockdep_dependency_gen_id s' ≤ lockdep_dependency_gen_id s + 13 * Z.of_nat (length l) ∧
    (r = 0 ∧ debug_locks s' = false ∨
     r ≠ 0 ∧ debug_locks s' = debug_locks s ∧ (∀ x y, edge true s x y → edge true s' x y) ∧
       ∀ x, x ∈ context_top (irq_context next) l → tc (edge true s') (h_class x) (h_class next)).
Proof.
  induction l as [|h l IH]; intros s k dist tl Hi Hroom Hn Hcl Hst Hne Hctx; [done|]. clear Hne.
  apply Forall_cons in Hcl as [Hh Hcl]. rewrite reverse_cons in Hst.
  apply stack_snoc_inv in Hst as (Hst & Hp & _ & Hcov). destruct Hp as (Hread & _).
  specialize (Hctx h eq_refl). cbn [prevs_loop]. rewrite decide_True by lia. cbn [length] in Hroom.
  destruct (check_prev_add_ok s h next dist tl save Hi (room_weaken _ 13 s Hroom ltac:(lia)) Hh Hn)
    as (s1 & r1 & -> & Hi1 & Hu1 & Hg1 & Hres1). cbn [mbind option_bind].
  destruct Hres1 as [(-> & Hd & _)|((Hr1 & Hd1 & Hsub & _) & _ & Hedge)].
  { rewrite decide_True by done. exists s1, 0. split; [done|]. split_and!; [done|exact Hu1|lia|cbn [length]; lia|]. by left. }
  rewrite decide_False by done. specialize (Hedge Hnext ltac:(lia)).
  assert (∀ x, x ∈ seg (irq_context h) (reverse l) → trylock h = false → tc (edge true s1) (h_class x) (h_class next)) as Hbelow.
  { intros x Hx Ht. eapply tc_r; [|exact Hedge]. apply (tc_mono (edge true s)); [done|]. by apply Hcov. }
  assert (context_top (irq_context next) (h :: l) = h :: context_top (irq_context next) l) as Htop.
  { cbn [context_top]. rewrite decide_False by (intros Hn'; by apply Hn'). done. }
  assert (lockdep_dependency_gen_id s ≤ lockdep_dependency_gen_id s1 ≤ lockdep_dependency_gen_id s + 13 * Z.of_nat (length (h :: l)))
    as Hgen by (cbn [length]; lia).
  rewrite bool_decide_eq_true_2 by lia. cbn [andb]. destruct (trylock h) eqn:Etry; cbn [negb]; cycle 1.
  { exists s1, 1. split; [done|]. split_and!; [done|exact Hu1|apply Hgen|apply Hgen|]. right. split_and!; [done|done|done|].
    intros x. rewrite Htop, elem_of_cons. intros [->|Hx]; [by apply tc_once|]. apply Hbelow; [|done]. unfold seg.
    by rewrite Hctx, elem_of_reverse, reverse_involutive. }
  assert (∀ Hnil : context_top (irq_context next) l = [], ∀ x, x ∈ context_top (irq_context next) (h :: l) →
    tc (edge true s1) (h_class x) (h_class next)) as Hone.
  { intros Hnil x. rewrite Htop, Hnil, list_elem_of_singleton. intros ->. by apply tc_once. }
  destruct l as [|h' l'].
  { exists s1, 1. split; [done|]. split_and!; [done|exact Hu1|apply Hgen|apply Hgen|]. right. split_and!; [done|done|done|]. by apply Hone. }
  destruct (decide (irq_context h ≠ irq_context h')) as [Hd|Hd].
  { exists s1, 1. split; [done|]. split_and!; [done|exact Hu1|apply Hgen|apply Hgen|]. right. split_and!; [done|done|done|].
    apply Hone. cbn [context_top]. by rewrite decide_True by congruence. }
  apply dec_stable in Hd. assert (∀ c, is_Some (lock_classes s !! c) → is_Some (lock_classes s1 !! c)) as Hcls.
  { intros c. rewrite <- !elem_of_dom. by destruct Hu1 as [-> _]. }
  destruct (IH s1 (prev_chain_key h) (dist + 1) true) as (s2 & r2 & E2 & Hi2 & Hu2 & Hg2 & Hres2).
  - done.
  - destruct Hroom as (? & ? & ?). split_and!; [lia|lia|apply Hi1].
  - by apply Hcls.
  - eapply Forall_impl; [exact Hcl|]. intros x. apply Hcls.
  - by apply (stack_mono (edge true s)).
  - done.
  - intros x [= <-]. congruence.
  - exists s2, r2. rewrite E2. split; [done|]. split; [done|]. split.
    { destruct Hu1 as [D1 B1], Hu2 as [D2 B2]. split; [by rewrite D2|]. intros x bit. by rewrite B2. }
    split; [cbn [length] in *; lia|]. destruct Hres2 as [?|(Hr2 & Hd2 & Hsub2 & Hcov2)]; [by left|]. right. split_and!; [done|congruence|auto|].
    intros x. rewrite Htop, elem_of_cons. intros [->|Hx]; [|by apply Hcov2]. by apply tc_once, Hsub2.
Qed.
End prevs.

(** ** States that only grow *)

(** At most [n] searches later; while nothing is reported, dependencies stay. *)
Definition advances (n : Z) (s s' : lockdep) : Prop :=
  dep_inv s' ∧ dom (lock_classes s') = dom (lock_classes s) ∧
  lockdep_dependency_gen_id s ≤ lockdep_dependency_gen_id s' ≤ lockdep_dependency_gen_id s + n ∧
  (debug_locks s' = true → debug_locks s = true ∧ ∀ x y, edge true s x y → edge true s' x y).

Lemma advances_refl s : dep_inv s → advances 0 s s.
Proof. intros Hi. split_and!; [done|done|lia|lia|done]. Qed.

Lemma advances_trans n m s s1 s2 : advances n s s1 → advances m s1 s2 → advances (n + m) s s2.
Proof.
  intros (_ & D1 & G1 & K1) (I2 & D2 & G2 & K2). split_and!; [done|by rewrite D2|lia|lia|].
  intros Hd. destruct (K2 Hd) as [Hd1 E2], (K1 Hd1) as [Hd0 E1]. auto.
Qed.

Lemma advances_weaken n m s s1 : advances n s s1 → n ≤ m → advances m s s1.
Proof. intros (? & ? & ? & ?) ?. split_and!; [done|done|lia|lia|done]. Qed.

Lemma advances_off n s s1 : advances n s s1 → advances n s (set_debug false s1).
Proof. intros (? & ? & ? & ?). split_and!; [by apply inv_off|done|cbn; lia|cbn; lia|done]. Qed.

Lemma advances_room n m s s1 : advances n s s1 → room (n + m) s → room m s1.
Proof. intros (Hi & _ & ? & _) (? & ? & _). split_and!; [lia|lia|apply Hi]. Qed.

Lemma advances_class n s s1 c : advances n s s1 → is_Some (lock_classes s !! c) → is_Some (lock_classes s1 !! c).
Proof. intros (_ & D & _). rewrite <- !elem_of_dom. by rewrite D. Qed.

Lemma advances_inv n s s1 : advances n s s1 → dep_inv s1.
Proof. by intros []. Qed.

Lemma advances_stack n s s1 l k : advances n s s1 → debug_locks s1 = true → stack_ok (edge true s) l k → stack_ok (edge true s1) l k.
Proof. intros (_ & _ & _ & K) Hd. apply stack_mono, K, Hd. Qed.

Lemma advances_cache P n s s1 ch : advances n s s1 → debug_locks s1 = true → cache_ok P (edge true s) ch → cache_ok P (edge true s1) ch.
Proof. intros (_ & _ & _ & K) Hd. apply cache_mono, K, Hd. Qed.

(** What a check leaves: a new state, and 0 exactly if there was a report. *)
Definition outcome (n : Z) (s s' : lockdep) (r : Z) : Prop :=
  advances n s s' ∧ (debug_locks s = true → debug_locks s' = bool_decide (r ≠ 0)).

Lemma mark_outcome s c nb save :
  dep_inv s → room 2 s → is_Some (lock_classes s !! c) → 0 ≤ nb ≤ LOCK_USED →
  ∃ s' r, mark_lock s c nb save = Some (s', r) ∧ outcome 2 s s' r.
Proof.
  intros Hi Hr Hc Hnb. destruct (mark_lock_ok s c nb save Hi Hr Hc Hnb) as (s' & r & E & Hi' & [Hd He] & Hg & Hres).
  exists s', r. split; [done|]. assert (∀ x y, edge true s x y → edge true s' x y) as Hsub by (intros x y; by rewrite He).
  destruct Hres as [(-> & Ho & _)|(-> & Hk & _)]; split.
  - split_and!; [done|done|lia|lia|]. by rewrite Ho.
  - by rewrite Ho.
  - split_and!; [done|done|lia|lia|]. by rewrite Hk.
  - by rewrite Hk.
Qed.

Lemma mark_bits_ok c save l : ∀ s,
  dep_inv s → room (2 * Z.of_nat (length l)) s → is_Some (lock_classes s !! c) → Forall (λ b, 0 ≤ b ≤ LOCK_USED) l →
  ∃ s' r, mark_bits l s c save = Some (s', r) ∧ outcome (2 * Z.of_nat (length l)) s s' r.
Proof.
  induction l as [|b l IH]; intros s Hi Hr Hc Hb; cbn [mark_bits length].
  { exists s, 1. split; [done|]. split; [by apply advances_refl|done]. }
  apply Forall_cons in Hb as [Hb Hl]. cbn [length] in Hr.
  destruct (mark_outcome s c b save Hi (room_weaken _ 2 _ Hr ltac:(lia)) Hc Hb) as (s1 & r1 & -> & Ha & Hd). cbn [mbind option_bind].
  destruct (decide (r1 = 0)) as [->|Hne].
  { exists s1, 0. split; [done|]. split; [by apply (advances_weaken 2); [|lia]|done]. }
  destruct (IH s1) as (s2 & r2 & -> & Ha2 & Hd2).
  - by apply (advances_inv 2 s).
  - apply (advances_room 2 _ s); [done|]. by replace (2 + 2 * Z.of_nat (length l)) with (2 * Z.of_nat (S (length l))) by lia.
  - by apply (advances_class 2 s).
  - done.
  - exists s2, r2. split; [done|]. split.
    + eapply advances_weaken; [by eapply advances_trans|lia].
    + intros Ho. apply Hd2. rewrite Hd by done. by apply bool_decide_eq_true_2.
Qed.

Lemma irqflags_bits_ok t h : (length (irqflags_bits t h) ≤ 5)%nat ∧ Forall (λ b, 0 ≤ b ≤ LOCK_USED) (irqflags_bits t h).
Proof.
  unfold irqflags_bits, when.
  destruct (trylock h), (bool_decide (hread h ≠ 0)), (hardirq_context t), (softirq_context t), (hardirqs_off h),
    (softirqs_enabled t), (reclaim_fs t); (split; [cbn; lia|repeat constructor; done]).
Qed.

(** A lock of the same class in the stack is reported. *)
Lemma check_deadlock_plain l s next : nest_lock next = None → hread next ≠ 2 →
  check_deadlock l s next (hread next) false =
    if decide (h_class next ∈ h_class <$> l) then (set_debug false s, 0) else (s, 1).
Proof.
  intros Hn Hr. induction l as [|h l IH]; [done|]. cbn [check_deadlock fmap list_fmap].
  assert (bool_decide (Some (instance h) = nest_lock next) = false) as -> by (rewrite Hn; by apply bool_decide_eq_false_2).
  cbn [orb]. destruct (decide (h_class h ≠ h_class next)) as [Hne|Heq].
  - rewrite IH. case_decide as H1; case_decide as H2; [done| | |done]; exfalso; rewrite elem_of_cons in *; naive_solver.
  - apply dec_stable in Heq. rewrite (decide_False (P := hread next = 2 ∧ _)) by (intros []; done).
    rewrite decide_True by (rewrite Heq; apply elem_of_cons; by left). done.
Qed.

(** ** Validating a chain *)

Section chains.
Context (P : list nat → Prop) (Hinj : ∀ l l', P l → P l' → key_of l = key_of l' → l = l').

Definition val_ok (v : validator) : Prop :=
  dep_inv (dep v) ∧ debug_locks (dep v) = true ∧ cache_ok P (edge true (dep v)) (lock_chains v).

Definition held_ok (v : validator) (t : task) : Prop :=
  stack_ok (edge true (dep v)) (held_locks t) (curr_chain_key t) ∧
  Forall (λ h, is_Some (lock_classes (dep v) !! h_class h)) (held_locks t) ∧
  (length (held_locks t) < MAX_LOCK_DEPTH)%nat.

(** The dependencies of [h] on the locks below it. *)
Definition covered (s : lockdep) (t : task) (h : held_lock) : Prop :=
  ∀ x, x ∈ seg (irq_context h) (held_locks t) → tc (edge true s) (h_class x) (h_class h).

Lemma cache_hit v t h ch : val_ok v → P (chain_of (held_locks t) h) → ch ∈ lock_chains v →
  chain_key ch = key_of (chain_of (held_locks t) h) → covered (dep v) t h.
Proof using Hinj.
  intros (_ & _ & Hc) HP Hin Hk x Hx. destruct (Hc ch Hin) as (l & c & HP' & Hk' & Hd).
  assert (l ++ [c] = chain_of (held_locks t) h) as Heq by (apply Hinj; [done|done|congruence]).
  unfold chain_of in Heq. apply app_inj_tail in Heq as [-> ->]. apply Hd. by apply list_elem_of_fmap_2.
Qed.

Lemma cache_extend E chains ch t h : cache_ok P E chains → P (chain_of (held_locks t) h) →
  chain_key ch = key_of (chain_of (held_locks t) h) →
  (∀ x, x ∈ seg (irq_context h) (held_locks t) → tc E (h_class x) (h_class h)) → cache_ok P E (chains ++ [ch]).
Proof.
  intros Hc HP Hk Hcov c. rewrite elem_of_app, list_elem_of_singleton. intros [Hin| ->]; [by apply Hc|].
  exists (h_class <$> seg (irq_context h) (held_locks t)), (h_class h). split_and!; [done|done|].
  intros y Hy. apply list_elem_of_fmap in Hy as (x & -> & Hx). by apply Hcov.
Qed.

(** The new lock and its dependencies: the outcome of [check_deadlock] and
    [check_prevs_add]. *)
Lemma check_new_ok v t h (head : bool) save :
  val_ok v → held_ok v t → room (13 * Z.of_nat (length (held_locks t))) (dep v) →
  plain h → is_Some (lock_classes (dep v) !! h_class h) →
  (if head then seg (irq_context h) (held_locks t) = []
   else ∃ top, last (held_locks t) = Some top ∧ irq_context top = irq_context h) →
  ∃ s r, (if negb head then check_prevs_add (dep v) t h save else Some (dep v, 1)) = Some (s, r) ∧
    outcome (13 * Z.of_nat (length (held_locks t))) (dep v) s r ∧ (r ≠ 0 → covered s t h).
Proof.
  intros (Hi & Hon & _) (Hst & Hcl & _) Hroom (Hrd & _) Hc Hhead. destruct head; cbn [negb].
  { exists (dep v), 1. split; [done|]. split; [split; [|done]|].
    - eapply advances_weaken; [by apply advances_refl|lia].
    - intros _ x. rewrite Hhead. by rewrite elem_of_nil. }
  destruct Hhead as (top & Htop & Hctx). unfold check_prevs_add. rewrite Htop, decide_False by (intros Hn; by apply Hn).
  destruct (prevs_loop_ok h ltac:(lia) save (reverse (held_locks t)) (dep v) (curr_chain_key t) 1 false)
    as (s & r & E & Hi' & [Hd _] & Hg & Hres).
  - done.
  - by rewrite length_reverse.
  - done.
  - by apply Forall_reverse.
  - by rewrite reverse_involutive.
  - intros E. apply (f_equal reverse) in E. rewrite reverse_involutive in E. by rewrite E in Htop.
  - intros x Hx. rewrite head_reverse, Htop in Hx. by injection Hx as <-.
  - exists s, r. rewrite length_reverse in Hg. split; [done|]. destruct Hres as [(-> & Ho)|(Hr & Ho & Hsub & Hcov)].
    + split; [|done]. split; [|by rewrite Ho]. split_and!; [done|done|apply Hg|apply Hg|by rewrite Ho].
    + split; [|intros _ x Hx; apply Hcov; revert Hx; unfold seg; by rewrite elem_of_reverse].
      split; [split_and!; [done|done|apply Hg|apply Hg|by rewrite Ho, Hon]|]. intros _. rewrite Ho, Hon. symmetry. by apply bool_decide_eq_true_2.
Qed.

(** The outcome of a step that may report. *)
Definition val_outcome (n : Z) (v v' : validator) (r : Z) : Prop :=
  outcome n (dep v) (dep v') r ∧ (r ≠ 0 → cache_ok P (edge true (dep v')) (lock_chains v')).

Lemma validate_chain_ok v t h (head : bool) save :
  val_ok v → held_ok v t → room (13 * Z.of_nat (length (held_locks t))) (dep v) →
  plain h → is_Some (lock_classes (dep v) !! h_class h) → P (chain_of (held_locks t) h) →
  (if head then seg (irq_context h) (held_locks t) = []
   else ∃ top, last (held_locks t) = Some top ∧ irq_context top = irq_context h) →
  ∃ v' r, validate_chain v t h head (key_of (chain_of (held_locks t) h)) save = Some (v', h, r) ∧
    val_outcome (13 * Z.of_nat (length (held_locks t))) v v' r ∧ (r ≠ 0 → trylock h = false → covered (dep v') t h).
Proof using Hinj.
  intros Hv Ht Hroom Hp Hc HP Hhead. pose proof Hv as (Hi & Hon & Hcache). pose proof Hp as (Hrd & Hck & Hnest & _).
  set (n := 13 * Z.of_nat (length (held_locks t))) in *. assert (0 ≤ n) as Hn by lia.
  assert (advances n (dep v) (dep v)) as Hrefl by (eapply advances_weaken; [by apply advances_refl|done]).
  unfold validate_chain. rewrite (bool_decide_eq_true_2 (hcheck h = 2)), andb_true_r by done.
  destruct (trylock h) eqn:Etry; cbn [negb].
  { exists v, 1. rewrite decide_False by (intros Hx; by apply Hx). rewrite Hon. split; [done|]. split; [|done]. split; [|done]. split; [done|by rewrite Hon]. }
  unfold lookup_chain_cache. destruct (decide (_ ∈ chain_key <$> lock_chains v)) as [Hhit|Hmiss].
  { exists v, 1. rewrite decide_False by (intros Hx; by apply Hx). rewrite Hon. split; [done|]. split; [split; [split; [done|by rewrite Hon]|done]|].
    intros _ _. apply list_elem_of_fmap in Hhit as (ch & Hk & Hin). by apply (cache_hit v t h ch). }
  rewrite Hon. cbn [negb]. destruct (decide (MAX_LOCKDEP_CHAINS ≤ _)) as [Hfull|_].
  { eexists _, 0. rewrite decide_False by (intros Hx; by apply Hx). cbn. split; [done|]. split; [split; [|done]|done].
    split; [by apply advances_off|done]. }
  rewrite decide_True by done. cbn [dep]. rewrite check_deadlock_plain by (done || lia).
  destruct (decide (h_class h ∈ h_class <$> held_locks t)) as [Hdead|_].
  { rewrite decide_True by done. eexists _, 0. split; [done|]. split; [split; [|done]|done]. split; [by apply advances_off|done]. }
  rewrite decide_False, decide_False, (bool_decide_eq_true_2 (1 ≠ 2)), andb_true_r by done.
  destruct (check_new_ok v t h head save Hv Ht Hroom Hp Hc Hhead) as (s & r & E & [Ha Ho] & Hcov). cbn [with_dep dep].
  assert (∀ ch, r ≠ 0 → chain_key ch = key_of (chain_of (held_locks t) h) → cache_ok P (edge true s) (lock_chains v ++ [ch])) as Hnew.
  { intros ch Hr Hk. apply (cache_extend _ _ _ t h); [|done|done|by apply Hcov].
    apply (advances_cache P n (dep v)); [done| |done]. rewrite Ho by done. by apply bool_decide_eq_true_2. }
  destruct head; cbn [negb] in E |- *.
  - injection E as <- <-.
    eexists _, 1. split; [done|].
    split; [split; [done|]|by intros _ _; apply Hcov]. intros _. by apply Hnew.
  - rewrite E. cbn [mbind option_bind]. destruct (decide (r = 0)) as [->|Hr].
    + eexists _, 0. split; [done|]. split; [split; [done|done]|done].
    + eexists _, 1. split; [done|]. split; [split; [|intros _; by apply Hnew]|by intros _ _; apply Hcov].
      split; [done|]. intros Hx. cbn [with_dep dep]. rewrite Ho by done. by rewrite !bool_decide_eq_true_2.
Qed.

(** ** Acquiring *)

Definition plain_acq (a : acquire) : Prop :=
  (a_read a = 0 ∨ a_read a = 1) ∧ a_check a = 2 ∧ a_nest_lock a = None ∧ a_references a = 0.

(** The entry of the stack for the new lock. *)
Definition new_held (t : task) (a : acquire) : held_lock :=
  mkHeld (a_class a) (a_lock a) (fst <$> a_nest_lock a) (a_trylock a) (a_read a) (a_check a)
    (a_hardirqs_off a) (a_references a) (new_irq_context t) (curr_chain_key t).

Lemma held_later n v v' t : advances n (dep v) (dep v') → debug_locks (dep v') = true → held_ok v t → held_ok v' t.
Proof.
  intros Ha Hd (Hs & Hc & Hlen). split; [by apply (advances_stack n (dep v))|]. split; [|done]. eapply Forall_impl; [exact Hc|].
  intros h. by apply (advances_class n).
Qed.

Lemma val_later n v s : advances n (dep v) s → debug_locks s = true → val_ok v → val_ok (with_dep s v).
Proof. intros Ha Hd (_ & _ & Hc). split_and!; [by apply (advances_inv n (dep v))|done|by apply (advances_cache P n (dep v))]. Qed.

Lemma stack_key_nil E l k : stack_ok E l k → bool_decide (l = []) && bool_decide (k ≠ 0) = false.
Proof.
  intros Hs. destruct l as [|x l]; [|done]. inversion Hs as [|l ? ? ? ? ? ? Heq]; [done|]. by destruct l.
Qed.

Lemma chain_head_ok t ctx :
  if bool_decide (held_locks t = []) || separate_irq_context t ctx then seg ctx (held_locks t) = []
  else ∃ top, last (held_locks t) = Some top ∧ irq_context top = ctx.
Proof.
  unfold separate_irq_context. destruct (held_locks t) as [|h l _] using rev_ind; [done|].
  rewrite bool_decide_eq_false_2 by (by destruct l). cbn [orb]. rewrite last_snoc, seg_snoc. case_bool_decide as Hd.
  - by rewrite decide_True.
  - by exists h.
Qed.

Lemma stack_extend v t h n v' :
  held_ok v t → advances n (dep v) (dep v') → debug_locks (dep v') = true → plain h → prev_chain_key h = curr_chain_key t →
  is_Some (lock_classes (dep v) !! h_class h) → (trylock h = false → covered (dep v') t h) →
  (length (held_locks t ++ [h]) < MAX_LOCK_DEPTH)%nat →
  held_ok v' (set_key (key_of (chain_of (held_locks t) h)) (set_held (held_locks t ++ [h]) t)).
Proof.
  intros Ht Ha Hd Hp Hk Hc Hcov Hlen. destruct (held_later n v v' t Ha Hd Ht) as (Hs & Hcl & _). split; [|split; [|done]]; cbn.
  - by apply (stack_snoc _ _ (curr_chain_key t)).
  - apply Forall_app. split; [done|]. apply Forall_singleton. by apply (advances_class n (dep v)).
Qed.

Lemma acquire_ok v t a save :
  val_ok v → held_ok v t → room 640 (dep v) → plain_acq a → is_Some (lock_classes (dep v) !! a_class a) →
  P (chain_of (held_locks t) (new_held t a)) →
  ∃ v' t' r, __lock_acquire v t a save = Some (v', t', r) ∧ val_outcome 640 v v' r ∧
    (r ≠ 0 → held_ok v' t' ∧ t' = set_key (curr_chain_key t') (set_held (held_locks t ++ [new_held t a]) t)).
Proof using Hinj.
  intros Hv Ht Hroom Ha Hc HP. pose proof Hv as (Hi & Hon & Hcache). pose proof Ha as (Hrd & Hck & Hnest & Href).
  unfold __lock_acquire. rewrite Hon. cbn [negb]. destruct (decide (MAX_LOCK_DEPTH ≤ length (held_locks t))%nat) as [Hdeep|Hdepth].
  { eexists _, t, 0. split; [done|]. split; [split; [split|done]|done]; [|done]. apply advances_off.
    eapply advances_weaken; [by apply advances_refl|lia]. }
  rewrite Hnest. replace (match last (held_locks t) with Some top => _ | None => None end) with (@None held_lock)
    by (by destruct (last (held_locks t))).
  rewrite decide_True by done. set (h := new_held t a) in *.
  match goal with |- context [mark_irqflags _ _ ?x _] => replace x with h by (unfold h, new_held; by rewrite Hnest) end.
  destruct (irqflags_bits_ok t h) as [Hlen Hbits]. assert (plain h) as Hp by (unfold plain; cbn; by rewrite Hnest).
  destruct (mark_bits_ok (a_class a) save (irqflags_bits t h) (dep v)) as (s1 & r1 & E1 & Ha1 & Ho1);
    [done|by apply (room_weaken 640); [|lia]|done|done|]. unfold mark_irqflags. change (h_class h) with (a_class a). rewrite E1.
  apply (advances_weaken _ 10) in Ha1; [|lia]. specialize (Ho1 Hon). cbn [mbind option_bind].
  destruct (decide (r1 = 0)) as [->|Hr1].
  { eexists _, t, 0. split; [done|]. split; [split; [split|done]|done]; [|done]. by apply (advances_weaken 10); [|lia]. }
  rewrite bool_decide_eq_true_2 in Ho1 by done. cbn [with_dep dep].
  destruct (mark_outcome s1 (a_class a) LOCK_USED save) as (s2 & r2 & -> & Ha2 & Ho2);
    [by apply (advances_inv 10 (dep v))|by apply (advances_room 10 _ (dep v)); [|apply (room_weaken 640); [|lia]]
    |by apply (advances_class 10 (dep v))|done|]. specialize (Ho2 Ho1). cbn [mbind option_bind].
  pose proof (advances_trans _ _ _ _ _ Ha1 Ha2) as Ha12. destruct (decide (r2 = 0)) as [->|Hr2].
  { eexists _, t, 0. split; [done|]. split; [split; [split|done]|done]; [|done]. by apply (advances_weaken (10 + 2)); [|lia]. }
  rewrite bool_decide_eq_true_2 in Ho2 by done.
  rewrite (stack_key_nil _ _ _ (proj1 Ht)).
  cbn [negb]. set (v2 := with_dep s2 v). change (with_dep s2 (with_dep s2 (with_dep s1 v))) with v2.
  assert (val_ok v2) as Hv2 by (by apply (val_later (10 + 2) v s2)).
  assert (held_ok v2 t) as Ht2 by (by apply (held_later (10 + 2) v)).
  change (Z.of_nat (a_class a)) with (Z.of_nat (h_class h)). change (new_irq_context t) with (irq_context h).
  rewrite (new_key _ t h (proj1 Ht)).
  destruct (validate_chain_ok v2 t h (bool_decide (held_locks t = []) || separate_irq_context t (irq_context h)) save)
    as (v3 & r3 & -> & [[Ha3 Ho3] Hc3] & Hcov3); [done|done| |done|by apply (advances_class (10 + 2) (dep v))|done|apply chain_head_ok|].
  { apply (advances_room (10 + 2) _ (dep v)); [done|]. apply (room_weaken 640); [done|]. unfold MAX_LOCK_DEPTH in Hdepth. lia. }
  cbn [mbind option_bind]. change (dep v2) with s2 in *. specialize (Ho3 Ho2).
  assert (advances 640 (dep v) (dep v3)) as Ha123.
  { eapply advances_weaken; [by eapply advances_trans|]. unfold MAX_LOCK_DEPTH in Hdepth. lia. }
  destruct (decide (r3 = 0)) as [->|Hr3].
  { eexists _, t, 0. split; [done|]. split; [by split; [split|]|done]. }
  rewrite bool_decide_eq_true_2 in Ho3 by done. destruct (decide (MAX_LOCK_DEPTH ≤ _)%nat) as [_|Hshort].
  { eexists _, _, 0. split; [done|]. split; [split; [split|done]|done]; [by apply advances_off|done]. }
  eexists _, _, 1. split; [done|]. split; [split; [split; [done|by intros _]|by intros _; apply Hc3]|].
  intros _. split; [|done]. eapply (stack_extend v t h); try done; [|cbn in Hshort |- *; lia]. intros Htry. by apply Hcov3.
Qed.

(** ** Releasing *)

(** The chains of the locks [l], taken again in the context [ctx] over the stack [st],
    are among [P]. *)
Fixpoint chains_in (ctx : Z) (st l : list held_lock) : Prop :=
  match l with
  | [] => True
  | h :: l =>
      let h' := mkHeld (h_class h) (instance h) (nest_lock h) (trylock h) (hread h) (hcheck h) (hardirqs_off h)
                  (references h) ctx (prev_chain_key h) in
      P (chain_of st h') ∧ chains_in ctx (st ++ [h']) l
  end.

Definition sig (h : held_lock) : Z * nat := (irq_context h, h_class h).

Lemma context_top_sig ctx l : ∀ l', sig <$> l = sig <$> l' → h_class <$> context_top ctx l = h_class <$> context_top ctx l'.
Proof.
  induction l as [|h l IH]; intros [|h' l']; [done|done|done|]. intros [= E1 E2 El]. cbn [context_top]. rewrite E1.
  destruct (decide (irq_context h' ≠ ctx)); [done|]. cbn. f_equal; [done|]. by apply IH.
Qed.

(** A chain is determined by the classes and contexts of the stack. *)
Lemma chain_of_sig l l' h h' : sig <$> l = sig <$> l' → sig h = sig h' → chain_of l h = chain_of l' h'.
Proof.
  intros El [= Ec Eh]. unfold chain_of, seg. rewrite Ec, Eh. f_equal. rewrite !fmap_reverse. f_equal.
  apply context_top_sig. by rewrite !fmap_reverse, El.
Qed.

Lemma chains_in_sig ctx l : ∀ st st', sig <$> st = sig <$> st' → chains_in ctx st l → chains_in ctx st' l.
Proof.
  induction l as [|h l IH]; intros st st' E; [done|]. cbn [chains_in]. intros [HP Hl]. split.
  - by rewrite <- (chain_of_sig st st' _ _ E eq_refl).
  - eapply IH; [|exact Hl]. by rewrite !fmap_app, E.
Qed.

Lemma stack_prefix E l1 h l2 k : stack_ok E (l1 ++ h :: l2) k → stack_ok E l1 (prev_chain_key h).
Proof.
  revert k. induction l2 as [|x l2 IH] using rev_ind; intros k Hs; [by apply stack_snoc_inv in Hs as (? & _)|].
  rewrite app_comm_cons, app_assoc in Hs. apply stack_snoc_inv in Hs as (Hs & _). by eapply IH.
Qed.

Lemma reacquire_ok lclass save l : ∀ v t,
  val_ok v → held_ok v t → room (640 * Z.of_nat (length l)) (dep v) → Forall plain l →
  Forall (λ h, is_Some (lock_classes (dep v) !! h_class h)) l → chains_in (new_irq_context t) (held_locks t) l →
  ∃ v' t' r, reacquire v t l lclass save = Some (v', t', r) ∧ val_outcome (640 * Z.of_nat (length l)) v v' r ∧
    (r ≠ 0 → held_ok v' t' ∧ length (held_locks t') = (length (held_locks t) + length l)%nat).
Proof using Hinj.
  induction l as [|h l IH]; intros v t Hv Ht Hroom Hp Hc HP; cbn [reacquire length].
  { exists v, t, 1. split; [done|]. split; [|split; [done|cbn; lia]]. pose proof Hv as (? & Hon & ?). split; [|done]. split; [by apply advances_refl|done]. }
  apply Forall_cons in Hp as [Hh Hp]. apply Forall_cons in Hc as [Hch Hc]. destruct HP as [HP HPl]. cbn [length] in Hroom.
  pose proof Hh as (Hrd & Hck & Hn & Href). rewrite Hn.
  set (a := mkAcq _ _ _ _ _ _ _ _).
  destruct (acquire_ok v t a save Hv Ht) as (v1 & t1 & r1 & -> & [[Ha1 Ho1] Hc1] & Hok1);
    [by apply (room_weaken (640 * Z.of_nat (S (length l)))); [|lia]|done|done|exact HP|].
  destruct Hv as (Hi & Hon & Hcache). specialize (Ho1 Hon). cbn [mbind option_bind]. destruct (decide (r1 = 0)) as [->|Hr1].
  { exists v1, t1, 0. split; [done|]. split; [|done]. split; [|done]. split; [by apply (advances_weaken 640); [|lia]|done]. }
  rewrite bool_decide_eq_true_2 in Ho1 by done. destruct (Hok1 Hr1) as [Ht1 Et1].
  destruct (IH v1 t1) as (v2 & t2 & r2 & E2 & [[Ha2 Ho2] Hc2] & Hok2).
  - split_and!; [by apply (advances_inv 640 (dep v))|done|by apply Hc1].
  - done.
  - apply (advances_room 640 _ (dep v)); [done|]. by apply (room_weaken (640 * Z.of_nat (S (length l)))); [|lia].
  - done.
  - eapply Forall_impl; [exact Hc|]. intros x. by apply (advances_class 640).
  - rewrite Et1. eapply chains_in_sig; [|exact HPl]. cbn. by rewrite !fmap_app.
  - exists v2, t2, r2. split; [done|]. split; [split; [split|done]|].
    + eapply advances_weaken; [by eapply advances_trans|lia].
    + intros _. by apply Ho2.
    + intros Hr2. destruct (Hok2 Hr2) as [Ht2 El2]. split; [done|]. rewrite El2, Et1. cbn. rewrite length_app. cbn. lia.
Qed.

(** A lock that is plain is found by its address. *)
Lemma find_held_plain l : ∀ prev s lock lclass, Forall plain l →
  ∃ k, find_held l prev s lock lclass = (s, k) ∧ ∀ i, k = Some i → ∃ h, l !! i = Some h ∧ instance h = lock.
Proof.
  induction l as [|h l IH]; intros prev s lock lclass Hp; cbn [find_held]; [by exists None|].
  apply Forall_cons in Hp as [(_ & _ & _ & Href) Hp]. destruct (match prev with Some _ => _ | None => _ end); [by exists None|].
  unfold match_held_lock. destruct (decide (instance h = lock)) as [Hh|Hne].
  { exists (Some O). split; [done|]. intros i [= <-]. by exists h. }
  rewrite decide_False by (intros Hn; by apply Hn). cbn [warn]. destruct (IH (Some h) s lock lclass Hp) as (k & -> & Hk).
  exists (S <$> k). split; [done|]. intros i Hi. destruct k as [k|]; [|done]. injection Hi as <-. by apply (Hk k).
Qed.

(** What a release leaves. *)
Definition released (v v' : validator) (t' : task) : Prop :=
  advances 30720 (dep v) (dep v') ∧ (debug_locks (dep v') = true → val_ok v' ∧ held_ok v' t').

Lemma released_off v v' t' : dep_inv (dep v) → dep v' = set_debug false (dep v) → released v v' t'.
Proof. intros Hi E. unfold released. rewrite E. split; [|done]. apply advances_off. eapply advances_weaken; [by apply advances_refl|done]. Qed.

Lemma release_non_nested_ok v t lock lclass save :
  val_ok v → held_ok v t → room 30720 (dep v) → held_locks t ≠ [] →
  (∀ i, chains_in (new_irq_context t) (take i (held_locks t)) (drop (S i) (held_locks t))) →
  ∃ v' t' r, lock_release_non_nested v t lock lclass save = Some (v', t', r) ∧ released v v' t'.
Proof using Hinj.
  intros Hv Ht Hroom Hne HP. pose proof Hv as (Hi & Hon & Hcache). pose proof Ht as (Hst & Hcl & Hlen).
  pose proof (stack_plain _ _ _ Hst) as Hp. unfold lock_release_non_nested. rewrite decide_False by done.
  destruct (find_held_plain (reverse (held_locks t)) None (dep v) lock (lclass lock)) as (k & -> & Hk); [by apply Forall_reverse|].
  destruct k as [k|]; [|eexists _, t, 0; split; [done|by apply released_off]].
  destruct (Hk k eq_refl) as (h & Hh & _). pose proof (lookup_lt_Some _ _ _ Hh) as Hlt. rewrite length_reverse in Hlt.
  rewrite reverse_lookup in Hh by done. replace (length (held_locks t) - 1 - k)%nat with (length (held_locks t) - S k)%nat by lia.
  rewrite Hh. cbn [mbind option_bind]. set (i := (length (held_locks t) - S k)%nat) in *.
  pose proof (proj1 (Forall_lookup _ _) Hp i h Hh) as (_ & _ & _ & Href). rewrite decide_False by (intros []; done).
  pose proof (take_drop_middle _ _ _ Hh) as Hsplit. set (t1 := set_key _ _).
  destruct (reacquire_ok lclass save (drop (S i) (held_locks t)) (with_dep (dep v) v) t1)
    as (v2 & t2 & r2 & -> & [[Ha2 Ho2] Hc2] & Hok2).
  - done.
  - split_and!; cbn; [by rewrite <- Hsplit in Hst; apply stack_prefix in Hst|by apply Forall_take|rewrite length_take; lia].
  - apply (room_weaken 30720); [done|]. rewrite length_drop. unfold MAX_LOCK_DEPTH in Hlen. lia.
  - by apply Forall_drop.
  - by apply Forall_drop.
  - apply HP.
  - cbn [mbind option_bind]. assert (advances 30720 (dep v) (dep v2)) as Ha.
    { apply (advances_weaken _ _ _ _ Ha2). rewrite length_drop. unfold MAX_LOCK_DEPTH in Hlen. lia. }
    specialize (Ho2 Hon). destruct (decide (r2 = 0)) as [->|Hr2].
    { eexists _, _, 0. split; [done|]. split; [done|]. by rewrite Ho2. }
    destruct (decide (_ ≠ _)) as [_|_].
    { eexists _, _, 0. split; [done|]. split; [by apply advances_off|done]. }
    eexists _, _, 1. split; [done|]. split; [done|]. intros Hd. split; [|by apply Hok2]. split_and!; [apply Ha|done|by apply Hc2].
Qed.

Lemma release_ok v t lock lclass nested save :
  val_ok v → held_ok v t → room 30720 (dep v) →
  (∀ i, chains_in (new_irq_context t) (take i (held_locks t)) (drop (S i) (held_locks t))) →
  ∃ v' t', __lock_release v t lock lclass nested save = Some (v', t') ∧ released v v' t'.
Proof using Hinj.
  intros Hv Ht Hroom HP. pose proof Hv as (Hi & Hon & Hcache). unfold __lock_release. rewrite Hon. cbn [negb].
  destruct (decide (held_locks t = [])) as [Hnil|Hne]; [eexists _, t; split; [done|by apply released_off]|].
  destruct (release_non_nested_ok v t lock lclass save Hv Ht Hroom Hne HP) as (v1 & t1 & r1 & E1 & Hrel).
  destruct nested; [|rewrite E1; by exists v1, t1]. unfold lock_release_nested.
  destruct (last (held_locks t)) as [h|] eqn:Elast; [|by apply last_None in Elast]. cbn [mbind option_bind].
  destruct (decide (_ ∨ _)) as [_|Hmatch]; [rewrite E1; by exists v1, t1|]. apply last_Some in Elast as [l El].
  pose proof Ht as (Hst & Hcl & Hlen). rewrite El in Hst, Hcl, Hlen |- *. rewrite length_app, Nat.add_sub, take_app_length by done.
  pose proof (stack_snoc_inv _ _ _ _ Hst) as (Hst' & _). apply Forall_app in Hcl as [Hcl _]. rewrite length_app in Hlen.
  rewrite (stack_key_nil _ _ _ Hst').
  cbn [mbind option_bind]. eexists v, _. split; [done|]. split; [eapply advances_weaken; [by apply advances_refl|done]|].
  intros _. split; [done|]. split_and!; cbn in *; [done|done|lia].
Qed.
End chains.

(** ** Flags of interrupts *)

Lemma enabled_bits h mark : 0 ≤ (if decide (hread h ≠ 0) then LOCK_ENABLED_READ mark else LOCK_ENABLED mark) ≤ LOCK_USED.
Proof. unfold LOCK_ENABLED, LOCK_ENABLED_READ, LOCK_USED. pose proof (state_index_range mark). case_decide; lia. Qed.

Lemma mark_held_ok nv mark save l : ∀ s,
  dep_inv s → room (2 * Z.of_nat (length l)) s → Forall (λ h, is_Some (lock_classes s !! h_class h)) l →
  ∃ s' r, mark_held_locks nv l s mark save = Some (s', r) ∧ advances (2 * Z.of_nat (length l)) s s'.
Proof.
  induction l as [|h l IH]; intros s Hi Hr Hc; cbn [mark_held_locks length].
  { exists s, 1. split; [done|]. by apply advances_refl. }
  apply Forall_cons in Hc as [Hh Hc]. cbn [length] in Hr. destruct (nv (h_class h)).
  { destruct (IH s Hi (room_weaken _ (2 * Z.of_nat (length l)) _ Hr ltac:(lia)) Hc) as (s' & r & -> & Ha). exists s', r. split; [done|].
    apply (advances_weaken _ _ _ _ Ha). lia. }
  destruct (mark_outcome s (h_class h) _ save Hi (room_weaken _ 2 _ Hr ltac:(lia)) Hh (enabled_bits h mark)) as (s1 & r1 & -> & Ha & _).
  cbn [mbind option_bind]. case_decide; [exists s1, 0; split; [done|by apply (advances_weaken 2); [|lia]]|].
  destruct (IH s1) as (s2 & r2 & -> & Ha2).
  - by apply (advances_inv 2 s).
  - apply (advances_room 2 _ s); [done|]. by apply (room_weaken (2 * Z.of_nat (S (length l)))); [|lia].
  - eapply Forall_impl; [exact Hc|]. intros x. by apply (advances_class 2).
  - exists s2, r2. split; [done|]. eapply advances_weaken; [by eapply advances_trans|lia].
Qed.

Lemma trace_on_ok nv s t save : dep_inv s → room (4 * Z.of_nat (length (held_locks t))) s →
  Forall (λ h, is_Some (lock_classes s !! h_class h)) (held_locks t) →
  ∃ s', __trace_hardirqs_on_caller nv s t save = Some (s', set_enabled true (softirqs_enabled t) t) ∧
    advances (4 * Z.of_nat (length (held_locks t))) s s'.
Proof.
  intros Hi Hr Hc. unfold __trace_hardirqs_on_caller. cbn [held_locks set_enabled softirqs_enabled].
  destruct (mark_held_ok nv HARDIRQ save (held_locks t) s Hi (room_weaken _ (2 * Z.of_nat (length (held_locks t))) _ Hr ltac:(lia)) Hc) as (s1 & r1 & -> & Ha1). cbn [mbind option_bind].
  case_decide; [exists s1; split; [done|apply (advances_weaken _ _ _ _ Ha1); lia]|].
  destruct (softirqs_enabled t); [|exists s1; split; [done|apply (advances_weaken _ _ _ _ Ha1); lia]].
  destruct (mark_held_ok nv SOFTIRQ save (held_locks t) s1) as (s2 & r2 & -> & Ha2).
  - by eapply advances_inv.
  - apply (advances_room _ _ s s1 Ha1). apply (room_weaken _ _ _ Hr). lia.
  - eapply Forall_impl; [exact Hc|]. intros x. by apply (advances_class _ _ _ _ Ha1).
  - exists s2. split; [done|]. eapply advances_weaken; [by eapply advances_trans|lia].
Qed.

(** The calls that follow the flags of interrupts and allocations. *)
Inductive irq_event :=
  | HardirqsOn (early : bool)
  | HardirqsOff
  | SoftirqsOn
  | SoftirqsOff (counted : bool)
  | Alloc (g : gfp) (irqs_disabled : bool).

Definition irq_call (nv : nat → bool) (ev : irq_event) (s : lockdep) (t : task) (save : bool) : option (lockdep * task) :=
  match ev with
  | HardirqsOn early => trace_hardirqs_on_caller nv early s t save
  | HardirqsOff => Some (s, trace_hardirqs_off_caller s t)
  | SoftirqsOn => trace_softirqs_on nv s t save
  | SoftirqsOff counted => Some (trace_softirqs_off counted s t)
  | Alloc g off => s ← __lockdep_trace_alloc nv g off s t save; Some (s, t)
  end.

Lemma irq_call_off nv ev s t save : debug_locks s = false → irq_call nv ev s t save = Some (s, t).
Proof.
  intros Ho. destruct ev; cbn [irq_call]; unfold trace_hardirqs_on_caller, trace_hardirqs_off_caller, trace_softirqs_on,
    trace_softirqs_off, __lockdep_trace_alloc; by rewrite Ho.
Qed.

(** They keep the stack and the dependencies. *)
Lemma irq_call_ok nv ev s t save : dep_inv s → room (4 * Z.of_nat (length (held_locks t))) s →
  Forall (λ h, is_Some (lock_classes s !! h_class h)) (held_locks t) →
  ∃ s' t', irq_call nv ev s t save = Some (s', t') ∧ advances (4 * Z.of_nat (length (held_locks t))) s s' ∧
    held_locks t' = held_locks t ∧ curr_chain_key t' = curr_chain_key t.
Proof.
  intros Hi Hr Hc. set (n := 4 * Z.of_nat (length (held_locks t))) in *.
  assert (advances n s s) as Hrefl by (eapply advances_weaken; [by apply advances_refl|lia]).
  pose proof (advances_off _ _ _ Hrefl) as Hoff.
  assert (∀ mark, ∃ s' r, mark_held_locks nv (held_locks t) s mark save = Some (s', r) ∧ advances n s s') as Hmark.
  { intros mark. destruct (mark_held_ok nv mark save (held_locks t) s Hi (room_weaken _ (2 * Z.of_nat (length (held_locks t))) _ Hr ltac:(lia)) Hc)
      as (s' & r & E & Ha). exists s', r. split; [done|]. apply (advances_weaken _ _ _ _ Ha). lia. }
  destruct ev as [early| | |counted|g off]; cbn [irq_call].
  - unfold trace_hardirqs_on_caller. repeat case_match; try by eexists _, _.
    destruct (trace_on_ok nv s t save Hi Hr Hc) as (s' & -> & Ha). by eexists _, _.
  - unfold trace_hardirqs_off_caller. repeat case_match; by eexists _, _.
  - unfold trace_softirqs_on. cbn [held_locks set_enabled hardirqs_enabled]. repeat case_match; try by eexists _, _.
    destruct (Hmark SOFTIRQ) as (s' & r & -> & Ha). by eexists _, _.
  - unfold trace_softirqs_off. repeat case_match; by eexists _, _.
  - unfold __lockdep_trace_alloc. repeat case_match; try by eexists _, _.
    destruct (Hmark RECLAIM_FS) as (s' & r & -> & Ha). by eexists _, _.
Qed.

(** * Any number of tasks *)

Definition task_init : task := mkTask [] 0 false false false false false.

(** The classes [cs] are registered, and nothing was locked. *)
Definition validator_init (cs : gset nat) : validator :=
  mkVal (dep_init cs) [] 0.

Definition with_flags (hc sc he se rf : bool) (t : task) : task := mkTask (held_locks t) (curr_chain_key t) hc sc he se rf.

Section system.
Context (P : list nat → Prop).

(** A step of task [i].  The chains that occur are among [P], also when locks are
    taken again because one below them is released. *)
Inductive step : validator * gmap nat task → validator * gmap nat task → Prop :=
  | step_new v ts i : ts !! i = None → step (v, ts) (v, <[i := task_init]> ts)
  | step_flags v ts i t hc sc he se rf : ts !! i = Some t → step (v, ts) (v, <[i := with_flags hc sc he se rf t]> ts)
  | step_irq v ts i t nv ev save s' t' :
      ts !! i = Some t → room 30720 (dep v) → irq_call nv ev (dep v) t save = Some (s', t') →
      step (v, ts) (with_dep s' v, <[i := t']> ts)
  | step_acquire v ts i t a save v' t' r :
      ts !! i = Some t → room 30720 (dep v) → plain_acq a → is_Some (lock_classes (dep v) !! a_class a) →
      P (chain_of (held_locks t) (new_held t a)) → __lock_acquire v t a save = Some (v', t', r) →
      step (v, ts) (v', <[i := t']> ts)
  | step_release v ts i t lock lclass nested save v' t' :
      ts !! i = Some t → room 30720 (dep v) →
      (∀ k, chains_in P (new_irq_context t) (take k (held_locks t)) (drop (S k) (held_locks t))) →
      __lock_release v t lock lclass nested save = Some (v', t') →
      step (v, ts) (v', <[i := t']> ts).

(** Until something is reported. *)
Definition system_ok (st : validator * gmap nat task) : Prop :=
  debug_locks (dep st.1) = true → val_ok P st.1 ∧ ∀ i t, st.2 !! i = Some t → held_ok st.1 t.

(** Task [j] holds, in the context in which it waits, a lock of the class that task
    [i] waits for; a task waits for the lock it put on its stack last. *)
Definition waits_for (ts : gmap nat task) (i j : nat) : Prop :=
  ∃ ti tj li lj hi hj x, ts !! i = Some ti ∧ ts !! j = Some tj ∧
    held_locks ti = li ++ [hi] ∧ trylock hi = false ∧ held_locks tj = lj ++ [hj] ∧ trylock hj = false ∧
    x ∈ seg (irq_context hj) lj ∧ h_class x = h_class hi.

Context (Hinj : ∀ l l', P l → P l' → key_of l = key_of l' → l = l').

Lemma system_init cs : system_ok (validator_init cs, ∅).
Proof. intros _. split; [|done]. split_and!; [apply dep_init_inv|done|]. intros ch Hch. by apply elem_of_nil in Hch. Qed.

(** A step of one task keeps the others. *)
Lemma system_update v ts v' i t' n : system_ok (v, ts) → advances n (dep v) (dep v') →
  (debug_locks (dep v') = true → val_ok P v' ∧ held_ok v' t') → system_ok (v', <[i := t']> ts).
Proof.
  intros Hs Ha Hnew Hd. destruct (Hnew Hd) as [Hv Ht]. split; [done|]. intros j t. cbn.
  rewrite lookup_insert_Some. intros [[_ <-]|[_ Hj]]; [done|]. pose proof Ha as (_ & _ & _ & K). destruct (Hs (proj1 (K Hd))) as [_ Hall].
  apply (held_later n v); [done|done|]. by apply (Hall j).
Qed.

Lemma system_off v ts : debug_locks (dep v) = false → system_ok (v, ts).
Proof. intros Ho Hd. cbn in Hd. congruence. Qed.

Lemma step_ok st st' : step st st' → system_ok st → system_ok st'.
Proof using Hinj.
  intros Hstep Hok. assert (∀ v ts, debug_locks (dep v) = true → system_ok (v, ts) → advances 0 (dep v) (dep v)) as Hrefl.
  { intros v ts Hd Hs. apply advances_refl. by destruct (Hs Hd) as [[Hi _] _]. }
  destruct Hstep as [v ts i Hi|v ts i t hc sc he se rf Hi|v ts i t nv ev save s' t' Hi Hroom E|v ts i t a save v' t' r Hi Hroom Ha Hc HP E
    |v ts i t lock lclass nested save v' t' Hi Hroom HP E]; destruct (debug_locks (dep v)) eqn:Ed.
  - apply (system_update v _ _ _ _ 0); [done|by apply (Hrefl _ ts)|]. intros _. split; [by apply Hok|]. split_and!; cbn; [constructor|done|unfold MAX_LOCK_DEPTH; lia].
  - by apply system_off.
  - apply (system_update v _ _ _ _ 0); [done|by apply (Hrefl _ ts)|]. intros _. destruct (Hok Ed) as [Hv Hall]. split; [done|exact (Hall i t Hi)].
  - by apply system_off.
  - destruct (Hok Ed) as [Hv Hall]. pose proof (Hall i t Hi) as Ht. pose proof Ht as (Hst & Hcl & Hlen). unfold MAX_LOCK_DEPTH in Hlen.
    destruct (irq_call_ok nv ev (dep v) t save (proj1 Hv) (room_weaken _ (4 * Z.of_nat (length (held_locks t))) _ Hroom ltac:(lia)) Hcl) as (s1 & t1 & E1 & Ha & El & Ek).
    rewrite E1 in E. injection E as <- <-.
    eapply system_update; [done|exact Ha|]. intros Hd. split; [by eapply val_later|]. unfold held_ok. rewrite El, Ek.
    exact (held_later _ v (with_dep s1 v) t Ha Hd Ht).
  - rewrite (irq_call_off nv ev _ t save Ed) in E. injection E as <- <-. by apply system_off.
  - destruct (Hok Ed) as [Hv Hall]. destruct (acquire_ok P Hinj v t a save Hv (Hall i t Hi) (room_weaken _ 640 _ Hroom ltac:(lia)) Ha Hc HP)
      as (v1 & t1 & r1 & E1 & [[Ha1 Ho1] Hc1] & Hok1). rewrite E1 in E. injection E as <- <- <-.
    eapply system_update; [done|exact Ha1|]. intros Hd. specialize (Ho1 Ed). rewrite Hd in Ho1. symmetry in Ho1. apply bool_decide_eq_true in Ho1.
    split; [|by apply Hok1]. split_and!; [by eapply advances_inv|done|by apply Hc1].
  - unfold __lock_acquire in E. rewrite Ed in E. injection E as <- <- _. by apply system_off.
  - destruct (Hok Ed) as [Hv Hall]. destruct (release_ok P Hinj v t lock lclass nested save Hv (Hall i t Hi) Hroom HP) as (v1 & t1 & E1 & Ha1 & Hrel).
    rewrite E1 in E. injection E as <- <-. by eapply system_update.
  - unfold __lock_release in E. rewrite Ed in E. injection E as <- <-. by apply system_off.
Qed.

Lemma reachable_ok cs st : rtc step (validator_init cs, ∅) st → system_ok st.
Proof using Hinj.
  intros Hr. revert Hr. apply (rtc_ind_r (R := step) system_ok); [apply system_init|]. intros x y _ Hxy. by apply step_ok.
Qed.

(** Along the circle the classes that are waited for depend on one another. *)
Lemma waits_order v ts i j : system_ok (v, ts) → debug_locks (dep v) = true → tc (waits_for ts) i j →
  ∃ ti tj li lj hi hj, ts !! i = Some ti ∧ ts !! j = Some tj ∧ held_locks ti = li ++ [hi] ∧ held_locks tj = lj ++ [hj] ∧
    tc (edge true (dep v)) (h_class hi) (h_class hj).
Proof.
  intros Hok Hd. assert (∀ i j, waits_for ts i j → ∃ ti tj li lj hi hj, ts !! i = Some ti ∧ ts !! j = Some tj ∧
    held_locks ti = li ++ [hi] ∧ held_locks tj = lj ++ [hj] ∧ tc (edge true (dep v)) (h_class hi) (h_class hj)) as Hone.
  { intros a b (ti & tj & li & lj & hi & hj & x & Hi & Hj & Ei & _ & Ej & Hwait & Hx & Hcl). exists ti, tj, li, lj, hi, hj. split_and!; [done..|].
    destruct (Hok Hd) as [_ Hall]. destruct (Hall b tj Hj) as (Hst & _). rewrite Ej in Hst. apply stack_snoc_inv in Hst as (_ & _ & _ & Hcov).
    rewrite <- Hcl. by apply Hcov. }
  induction 1 as [a b Hab|a b c Hab _ IH]; [by apply Hone|].
  destruct (Hone a b Hab) as (ta & tb & la & lb & ha & hb & Ha & Hb & Ea & Eb & H1).
  destruct IH as (tb' & tc' & lb' & lc & hb' & hc & Hb' & Hc & Eb' & Ec & H2).
  exists ta, tc', la, lc, ha, hc. split_and!; [done..|]. rewrite Hb in Hb'. injection Hb' as <-. rewrite Eb in Eb'.
  apply app_inj_tail in Eb' as [_ <-]. by eapply tc_transitive.
Qed.
End system.

(** C2: As long as nothing was reported, there is no circle of tasks of which each
    waits for a lock of a class that the next one holds in the context in which it
    waits: for any number of tasks and any interleaving of their acquisitions,
    releases and changes of context, if the locks are neither read recursively nor
    annotated, and different chains of classes that occur have different keys. *)
Theorem no_circular_wait P cs v ts :
  (∀ l l', P l → P l' → key_of l = key_of l' → l = l') →
  rtc (step P) (validator_init cs, ∅) (v, ts) → debug_locks (dep v) = true →
  ∀ i, ¬ tc (waits_for ts) i i.
Proof.
  intros Hinj Hr Hd i Hi. pose proof (reachable_ok P Hinj cs _ Hr) as Hok.
  destruct (waits_order P v ts i i Hok Hd Hi) as (t & t' & l & l' & h & h' & Ht & Ht' & El & El' & Hc).
  rewrite Ht in Ht'. injection Ht' as <-. rewrite El in El'. apply app_inj_tail in El' as [_ <-].
  destruct (Hok Hd) as [Hv _]. by apply (di_acyclic _ (proj1 Hv) (h_class h)).
Qed.

(** Until something is reported, [check_chain_key] finds the keys as they should be. *)
Theorem chain_keys_agree P cs v ts i t :
  (∀ l l', P l → P l' → key_of l = key_of l' → l = l') →
  rtc (step P) (validator_init cs, ∅) (v, ts) → debug_locks (dep v) = true → ts !! i = Some t →
  check_chain_key (dep v) t = dep v.
Proof.
  intros Hinj Hr Hd Ht. destruct (reachable_ok P Hinj cs _ Hr Hd) as [_ Hall]. destruct (Hall i t Ht) as (Hst & _).
  by apply (check_chain_key_ok (edge true (dep v))).
Qed.

(** * Runs *)

Inductive op :=
  | New (i : nat)
  | Flags (i : nat) (hc sc he se rf : bool)
  | Irq (i : nat) (ev : irq_event)
  | Acquire (i : nat) (a : acquire)
  | Release (i : nat) (lock : nat) (nested : bool).

(** The calls one after the other; stack traces can be stored, and the class of a lock
    is not needed for locks without references. *)
Definition exec_op (st : validator * gmap nat task) (o : op) : option (validator * gmap nat task) :=
  let (v, ts) := st in
  match o with
  | New i => if decide (ts !! i = None) then Some (v, <[i := task_init]> ts) else None
  | Flags i hc sc he se rf => t ← ts !! i; Some (v, <[i := with_flags hc sc he se rf t]> ts)
  | Irq i ev =>
      t ← ts !! i; '(s, t) ← irq_call (λ _, false) ev (dep v) t true; Some (with_dep s v, <[i := t]> ts)
  | Acquire i a => t ← ts !! i; '(v, t, _) ← __lock_acquire v t a true; Some (v, <[i := t]> ts)
  | Release i lock nested =>
      t ← ts !! i; '(v, t) ← __lock_release v t lock (λ _, None) nested true; Some (v, <[i := t]> ts)
  end.

Fixpoint exec (st : validator * gmap nat task) (l : list op) : option (validator * gmap nat task) :=
  match l with
  | [] => Some st
  | o :: l => st ← exec_op st o; exec st l
  end.

Definition room_b (s : lockdep) : bool :=
  bool_decide (0 ≤ lockdep_dependency_gen_id s ∧ lockdep_dependency_gen_id s + 30720 < 2 ^ 32) && marks_b s.

Lemma room_b_true s : room_b s = true → room 30720 s.
Proof.
  unfold room_b. rewrite andb_true_iff, bool_decide_eq_true. intros [[H1 H2] H3]. split_and!; [done|done|by apply marks_b_true].
Qed.

(** The guards of a step, for the chains of a list. *)
Section guards.
Context (L : list (list nat)).

Fixpoint chains_in_b (ctx : Z) (st l : list held_lock) : bool :=
  match l with
  | [] => true
  | h :: l =>
      let h' := mkHeld (h_class h) (instance h) (nest_lock h) (trylock h) (hread h) (hcheck h) (hardirqs_off h)
                  (references h) ctx (prev_chain_key h) in
      bool_decide (chain_of st h' ∈ L) && chains_in_b ctx (st ++ [h']) l
  end.

Lemma chains_in_b_true ctx l : ∀ st, chains_in_b ctx st l = true → chains_in (.∈ L) ctx st l.
Proof.
  induction l as [|h l IH]; intros st; [done|]. cbn [chains_in_b chains_in]. rewrite andb_true_iff, bool_decide_eq_true. intros [H1 H2]. auto.
Qed.

Definition plain_acq_b (a : acquire) : bool :=
  bool_decide (a_read a = 0 ∨ a_read a = 1) && bool_decide (a_check a = 2) && bool_decide (a_nest_lock a = None) && bool_decide (a_references a = 0).

Definition guard (st : validator * gmap nat task) (o : op) : bool :=
  let (v, ts) := st in
  match o with
  | New _ | Flags _ _ _ _ _ _ => true
  | Irq _ _ => room_b (dep v)
  | Acquire i a =>
      match ts !! i with
      | Some t => room_b (dep v) && plain_acq_b a && bool_decide (is_Some (lock_classes (dep v) !! a_class a)) &&
                  bool_decide (chain_of (held_locks t) (new_held t a) ∈ L)
      | None => false
      end
  | Release i _ _ =>
      match ts !! i with
      | Some t => room_b (dep v) &&
                  forallb (λ k, chains_in_b (new_irq_context t) (take k (held_locks t)) (drop (S k) (held_locks t)))
                    (seq 0 (length (held_locks t)))
      | None => false
      end
  end.

Fixpoint guards (st : validator * gmap nat task) (l : list op) : bool :=
  match l with
  | [] => true
  | o :: l => guard st o && match exec_op st o with Some st => guards st l | None => false end
  end.

Lemma chains_all_b ctx l :
  forallb (λ k, chains_in_b ctx (take k l) (drop (S k) l)) (seq 0 (length l)) = true →
  ∀ k, chains_in (.∈ L) ctx (take k l) (drop (S k) l).
Proof.
  rewrite forallb_forall. intros H k. destruct (decide (k < length l)%nat) as [Hk|Hk].
  - apply chains_in_b_true, H, in_seq. lia.
  - by rewrite drop_ge by lia.
Qed.

Lemma exec_op_step st o st' : guard st o = true → exec_op st o = Some st' → step (.∈ L) st st'.
Proof.
  destruct st as [v ts], o as [i|i hc sc he se rf|i ev|i a|i lock nested]; cbn [guard exec_op]; intros Hg E.
  - case_decide as Hi; [|done]. injection E as <-. by constructor.
  - destruct (ts !! i) as [t|] eqn:Hi; [|done]. injection E as <-. by constructor.
  - destruct (ts !! i) as [t|] eqn:Hi; [|done]. cbn [mbind option_bind] in E.
    destruct (irq_call _ _ _ _ _) as [[s t']|] eqn:Et; [|done]. injection E as <-. by eapply step_irq; [|apply room_b_true|].
  - destruct (ts !! i) as [t|] eqn:Hi; [|done]. cbn [mbind option_bind] in E.
    destruct (__lock_acquire _ _ _ _) as [[[v' t'] r]|] eqn:Et; [|done]. injection E as <-.
    rewrite !andb_true_iff in Hg. unfold plain_acq_b in Hg. rewrite !andb_true_iff, !bool_decide_eq_true in Hg.
    destruct Hg as [[[H1 [[[H2 H3] H4] H5]] H6] H7]. by eapply step_acquire; [|apply room_b_true| | | |].
  - destruct (ts !! i) as [t|] eqn:Hi; [|done]. cbn [mbind option_bind] in E.
    destruct (__lock_release _ _ _ _ _ _) as [[v' t']|] eqn:Et; [|done]. injection E as <-. apply andb_true_iff in Hg as [H1 H2].
    by eapply step_release; [|apply room_b_true|apply chains_all_b|].
Qed.

Lemma exec_steps l : ∀ st st', guards st l = true → exec st l = Some st' → rtc (step (.∈ L)) st st'.
Proof.
  induction l as [|o l IH]; intros st st'; cbn [guards exec]; [intros _ [= <-]; done|]. rewrite andb_true_iff. intros [Hg Hgs] E.
  destruct (exec_op st o) as [st1|] eqn:E1; [|done]. eapply rtc_l; [by eapply exec_op_step|by apply IH].
Qed.
End guards.

Definition waits_b (ts : gmap nat task) (i j : nat) : bool :=
  match ts !! i, ts !! j with
  | Some ti, Some tj =>
      match last (held_locks ti), last (held_locks tj) with
      | Some hi, Some hj =>
          negb (trylock hi) && negb (trylock hj) &&
          bool_decide (h_class hi ∈ h_class <$> seg (irq_context hj) (take (length (held_locks tj) - 1) (held_locks tj)))
      | _, _ => false
      end
  | _, _ => false
  end.

Lemma waits_b_true ts i j : waits_b ts i j = true → waits_for ts i j.
Proof.
  unfold waits_b. destruct (ts !! i) as [ti|] eqn:Hi; [|done]. destruct (ts !! j) as [tj|] eqn:Hj; [|done].
  destruct (last (held_locks ti)) as [hi|] eqn:Eli; [|done]. destruct (last (held_locks tj)) as [hj|] eqn:Elj; [|done].
  rewrite !andb_true_iff, bool_decide_eq_true, !negb_true_iff. intros [[Hti Htj] Hin]. apply list_elem_of_fmap in Hin as (x & Hx & Hin).
  apply last_Some in Eli as [li Ei]. apply last_Some in Elj as [lj Ej]. rewrite Ej, length_app, Nat.add_sub, take_app_length in Hin by done.
  by exists ti, tj, li, lj, hi, hj, x.
Qed.

(** * Examples *)

(** A lock of class [c] that is taken with interrupts off, [read] telling how. *)
Definition take_lock (c : nat) (read : Z) : acquire := mkAcq c (100 + c) false read 2 true None 0.

(** Two tasks take the locks of the classes [x] and [y] in opposite orders; before that,
    the first takes [first]. *)
Definition opposite_orders (first : list op) (x y : nat) : list op :=
  [New 1; New 2] ++ first ++
  [Acquire 1 (take_lock x 0); Acquire 2 (take_lock y 0); Acquire 1 (take_lock y 0); Acquire 2 (take_lock x 0)].

Definition on_off (r : option (validator * gmap nat task)) : option bool := (λ st, debug_locks (dep st.1)) <$> r.

(** Whether the run ends with nothing reported and the tasks 1 and 2 waiting for each
    other. *)
Definition stuck (r : option (validator * gmap nat task)) : bool :=
  match r with
  | Some (v, ts) => debug_locks (dep v) && waits_b ts 1 2 && waits_b ts 2 1
  | None => false
  end.

Lemma stuck_waits r : stuck r = true →
  ∃ v ts, r = Some (v, ts) ∧ debug_locks (dep v) = true ∧ tc (waits_for ts) 1%nat 1%nat.
Proof.
  destruct r as [[v ts]|]; [|done]. cbn [stuck]. rewrite !andb_true_iff. intros [[Hd H1] H2]. exists v, ts. split_and!; [done|done|].
  eapply tc_l; [by apply waits_b_true|]. by apply tc_once, waits_b_true.
Qed.

Definition pair_start (x y : nat) : validator * gmap nat task := (validator_init {[x; y]}%nat, ∅).
Definition pair_chains (x y : nat) : list (list nat) := [[x]; [y]; [x; y]; [y; x]].

(** Opposite orders of [x] and [y] end with the tasks waiting for each other and nothing
    reported, by steps of the system. *)
Definition missed (x y : nat) : Prop :=
  ∃ v ts, rtc (step (.∈ pair_chains x y)) (pair_start x y) (v, ts) ∧
    exec (pair_start x y) (opposite_orders [] x y) = Some (v, ts) ∧
    debug_locks (dep v) = true ∧ tc (waits_for ts) 1%nat 1%nat.

Definition missed_b (x y : nat) : bool :=
  stuck (exec (pair_start x y) (opposite_orders [] x y)) &&
  guards (pair_chains x y) (pair_start x y) (opposite_orders [] x y).

Lemma missed_b_true x y : missed_b x y = true → missed x y.
Proof.
  unfold missed_b. rewrite andb_true_iff. intros [Hs Hg]. destruct (stuck_waits _ Hs) as (v & ts & E & Hd & Hw).
  exists v, ts. split_and!; [|done|done|done]. by eapply exec_steps.
Qed.

(** They are reported. *)
Definition reported (x y : nat) : Prop := on_off (exec (pair_start x y) (opposite_orders [] x y)) = Some false.

#[local] Instance reported_dec x y : Decision (reported x y).
Proof. unfold reported. apply _. Defined.

(** C38: The class with the index 0 does not change the key of a chain that it begins.  So
    when two tasks take locks of the classes 0 and [y] in opposite orders, the chain of
    the first task has the key of the chain of [y] alone, which is known, and the tasks
    wait for each other with nothing reported, for every [y] from 1 to 512; the same calls
    with any two different classes from 1 to 32 are reported. *)
Theorem abba_missed :
  (∀ l, key_of (0%nat :: l) = key_of l) ∧
  Forall (missed 0) (seq 1 512) ∧
  Forall (λ x, Forall (λ y, x = y ∨ reported x y) (seq 1 32)) (seq 1 32).
Proof.
  split; [done|]. split.
  - apply (Forall_impl (λ y, missed_b 0 y = true)); [|exact (missed_b_true 0)].
    apply (bool_decide_unpack _). vm_compute. reflexivity.
  - apply (bool_decide_unpack _). vm_compute. reflexivity.
Qed.

(** The key of a chain does not tell reads from writes.  When a chain occurs first with
    a recursive read, which adds no dependency, its dependency is not recorded when it
    occurs with a write later: two tasks that take the locks in opposite orders wait
    for each other with nothing reported.  Without the read the same calls are
    reported. *)
Theorem read_write_missed :
  let first := [Acquire 1 (take_lock 3 0); Acquire 1 (take_lock 5 2); Release 1 105 true; Release 1 103 true] in
  on_off (exec (validator_init {[3; 5]}%nat, ∅) (opposite_orders [] 3 5)) = Some false ∧
  ∃ v ts, exec (validator_init {[3; 5]}%nat, ∅) (opposite_orders first 3 5) = Some (v, ts) ∧
    debug_locks (dep v) = true ∧ tc (waits_for ts) 1%nat 1%nat.
Proof. split; [vm_compute; reflexivity|]. apply stuck_waits. vm_compute. reflexivity. Qed.

(** ** A run without reports *)

Definition demo_chains : list (list nat) := [[1]; [2]; [1; 2]]%nat.

(** A lock is released before one that was taken after it; then a second task waits for
    the first. *)
Definition demo_ops : list op :=
  [New 1; New 2; Acquire 1 (take_lock 1 0); Acquire 1 (take_lock 2 1); Release 1 101 false; Release 1 102 true;
   Acquire 1 (take_lock 1 0); Flags 1 true false false false false; Flags 1 false false false true false; Irq 1 (HardirqsOn false);
   Acquire 1 (take_lock 2 0); Acquire 2 (take_lock 1 0)].

Definition demo_start : validator * gmap nat task := (validator_init {[1; 2]}%nat, ∅).

Lemma no_circular_wait_witness :
  ∃ v ts, rtc (step (.∈ demo_chains)) demo_start (v, ts) ∧ debug_locks (dep v) = true ∧ waits_for ts 2 1 ∧
    ∀ i, ¬ tc (waits_for ts) i i.
Proof.
  assert (match exec demo_start demo_ops with
          | Some (v, ts) => debug_locks (dep v) && waits_b ts 2 1 | None => false end = true) as Hend by (vm_compute; reflexivity).
  destruct (exec demo_start demo_ops) as [[v ts]|] eqn:E; [|discriminate Hend]. apply andb_true_iff in Hend as [Hd Hw].
  assert (rtc (step (.∈ demo_chains)) demo_start (v, ts)) as Hr by (eapply exec_steps; [|exact E]; vm_compute; reflexivity).
  exists v, ts. split_and!; [exact Hr|exact Hd|by apply waits_b_true|].
  apply (no_circular_wait (.∈ demo_chains) {[1; 2]}%nat v ts); [|exact Hr|exact Hd].
  intros l l' Hl Hl'. unfold demo_chains in *. rewrite !elem_of_cons, elem_of_nil in Hl, Hl'.
  destruct Hl as [-> |[-> |[-> |[]]]], Hl' as [-> |[-> |[-> |[]]]]; intros Hk; first [reflexivity|vm_compute in Hk; discriminate Hk].
Defined.
